(* ===== verification/_CoqProject ===== *)
-Q . S2P
Prelude.v
GoLib.v
AddrText.v
Types.v
Interfaces.v
Ownership.v
GoWorld.v
Cmsg.v
LinuxABI.v
Platform.v
SockBuf.v
BatchReader.v
BatchReaderInv.v
ReaderLife.v
BatchWriter.v
Keeps.v
BatchWriterProps.v
OobConn.v
ReaderMutex.v
OobProps.v
WrapProps.v
RawScenarios.v
SupConn.v
SupConnInv.v
SupConnProps.v
SupConnLive.v
SupConnTerm.v
SupConnBufs.v
SupConnFlow.v
System.v
OobSource.v
BasicSource.v
SupConnTable.v
SupConnSeq.v
SupConnScenarios.v
Endpoints.v
EndpointProps.v
ConstructProps.v
WritePath.v
SystemScenarios.v
