(* ===== verification/Prelude.v ===== *)
(** * go-udp: a connection-oriented layer over UDP sockets, verified

    ** The program

    go-udp turns one UDP socket into many connections.  Its parts:
    - the raw package ([src/raw]) wraps a packet connection: [WrapConn] sizes
      the kernel buffers, sets the don't-fragment flag and builds an [oobConn]
      (control messages: ECN marks and GSO segment sizes; batched reads; direct
      or batched writes) or a [BasicConn];
    - the super-connection ([src/super.go]) reads packets from a raw
      connection in one goroutine and dispatches them by remote address to
      sub-connections ([src/conn.go]), each with a queue, which [Accept] hands
      to the user; closing is a protocol of two wait groups, three channels,
      one lock and two atomic variables;
    - [SingleAddrConn] ([src/connected.go]) is a raw connection with one peer;
    - [Dial] and [Listen] ([src/dial.go], [src/listener.go]) put them together;
    - packages [types] and [log].

    ** The files

    - [Prelude] (this file): outcomes of Go code (return, panic, exit), the
      state monad [GoM], machine integers, the built-in [copy], list lemmas,
      tactics, the hint database [goudp].
    - [GoLib]: what the program uses of Go's standard library: errors, strconv,
      addresses and their texts, [sync.WaitGroup] with its panics; [AddrText]:
      the text of a UDP address determines its IP, port and zone.
    - [Types]: [src/types].
    - [Interfaces]: the buffer pool (bytebufferpool) and the ring queue
      (go-ringqueue) as classes of operations with classes of laws, each with
      an executable instance.
    - [Ownership]: at most one owner per pooled buffer, for any client of the
      pool interface.
    - [GoWorld]: [src/log/log.go], and a heap of slices with aliasing.
    - [Cmsg]: control messages over any layout that satisfies [UnixLaws];
      [LinuxABI]: the 64-bit Linux layout, which satisfies them.
    - [Platform]: [src/raw/sys_conn_helper_*.go] and [sys_conn_df*.go], one
      definition per function and build, and the choice by operating system.
    - [SockBuf]: [src/raw/sys_conn_buffers*.go].
    - [BatchReader], [BatchReaderInv], [ReaderLife]:
      [src/raw/sys_conn_oob_reader.go]; [ReaderMutex]: its [Read], and the [Close]
      of [oobConn] (socket, reader, writer), as threads.
    - [BatchWriter], [BatchWriterProps]: [src/raw/sys_conn_oob_writer.go];
      [Keeps]: what a computation of the raw package leaves alone.
    - [OobConn], [OobProps], [WrapProps]: [src/raw/sys_conn_oob.go],
      [sys_conn_basic.go], [sys_conn.go], the constructors of the other
      systems; [RawConn_of] makes a wrapped connection a value of the interface
      [RawConn] of [src/types/raw_conn.go].
    - [RawScenarios]: a kernel that computes; instances of the raw theorems.
    - [SupConn]: [src/super.go] and [Read], [Close] of [src/conn.go] as a step
      function.  The state [Sup] has the fields of [supConn], the list of all
      [Conn] objects, and a program counter per goroutine; a label names the
      goroutine that moves and what the socket or the caller supplies.  A step
      is one operation on a lock, channel, atomic variable or queue, or one
      atomic access of a wait group; [connWG.Done] is two steps when it wakes a
      sleeper, since an [Accept] may count in between.
      [SupConnInv] is its invariant, [SupConnProps] panics, [SupConnLive] and
      [SupConnTerm] the end of [Close], [SupConnBufs] and [SupConnFlow] the refinement of an
      abstract demultiplexer, [SupConnTable] the table of connections,
      [SupConnSeq] the sequential reading of [dispatchMsg] and [getSubConn],
      [SupConnScenarios] executions.
    - [Endpoints], [EndpointProps], [ConstructProps]: [src/connected.go], [src/dial.go],
      [src/listener.go], the rest of [src/conn.go].
    - [System], [OobSource], [BasicSource]: the super-connection on top of a
      source of packets (an interface with laws), and [oobConn] and [BasicConn]
      as such sources; [WritePath]: the
      writes of the user on top of a wrapped connection; [SystemScenarios]:
      executions of both paths.

    ** What the theorems show

    - The whole path of a packet: what a user reads from a sub-connection is, in
      order, a part of what the kernel delivered from its remote, whatever the
      interleaving ([kernel_to_user]); what a user writes reaches the kernel
      with its address and mark ([user_to_kernel]).
    - Demultiplexing: every interleaving of the super-connection is an
      execution of the abstract demultiplexer [demux]; the reads of a
      connection return, in order and unchanged, packets of its remote; a
      packet is dropped only for a stated reason; one live connection per
      remote; a connection is accepted once.
    - Shutdown: [Close] stops admission, unblocks [Accept], waits for the
      socket, returns exactly the error of closing it, and returns under every
      schedule ([close_terminates]: the steps left are bounded, up to what each
      packet received and each [Conn.Close] called meanwhile adds).  While every
      packet has a sender, the only panics are the reuse and the misuse panic of
      the wait group ([only_panics_are_misuse]); both need one particular overlap
      of [Accept] and [Close], and happen.  Without that overlap nothing panics
      and the socket is closed last.
    - The batch reader returns every datagram once and in order over recycled,
      shared memory, until [ReadBatch] fails, after which it repeats the last
      batch; it gives every buffer back once.  With [Read] and [Close] at the
      same time the kernel never writes into a pooled buffer, and [Close] ends
      although a [Read] waits in the kernel.  The batch writer sends nothing.
    - Control messages: marks survive the way out and the way in; what the
      parser does with any bytes, malformed ones included, exactly.
    - What [WrapConn], [Dial] and [Listen] return on each system, as a function of what
      the system supports; the type of what [ReadPacket] returns.
    - The error paths of the constructors and of misuse, the sizes of kernel
      buffers, version strings, deadlines, the width of the segment size.

    ** Bounds and fuel

    The loop over control messages has as fuel the number of bytes, each
    message takes at least one; the flush loop has one more than the number of
    messages, and [flush_loop_silent] shows that it ends after its first turn.
    Everything else is structural.  Go's [int] has 64 bits; counters that
    cannot overflow ([readPos] and [writePos] below 256, queue lengths) are
    [nat]; version numbers and the segment size keep their width.

    ** Not modelled

    The kernel, the sockets, [net.DialUDP], [net.ListenUDP], x/net and x/sys are
    parameters; the timing of the flush ticker is left open (any sequence of
    ticks); log lines are recorded but their formatting of errors is Go's; tests,
    examples and README files.  [Conn.Read] is one step of the super-connection,
    from the [Pop] of its queue to the copies and the return of the buffers;
    [ReadPacket] and [Close] of a raw connection
    are one step each of the composed system of [System]; their interleaving is
    the subject of [ReaderMutex], where the [Close] of the writer is one step and
    nobody writes.  Packets that reach the super-connection have a sender in
    the theorems over [reach_sent] and [reach_calm] and the rest do not assume it; what
    happens to a packet without one is [nil_sender_close_panics].

    ** Plan

    Modelled and proved first: the super-connection, then the raw readers and
    writers, control messages, platform helpers, endpoints, and the two paths
    through all of them.  To come: the threads of the batch reader
    inside the composed system. *)

From stdpp Require Export prelude gmap strings list pretty.
From Stdlib Require Export ZArith Lia.

#[global] Open Scope Z_scope.

(** ** Outcomes of Go code

    A Go call returns, panics, or ends the process ([os.Exit]).  A panic
    carries the runtime's message.  Effects are threaded through a world
    [W]: a stateful function is a [GoM W A]. *)

Inductive outcome (A : Type) : Type :=
| Ret (a : A)
| Panic (why : string)
| Exit (code : Z).
Arguments Ret {A} a.
Arguments Panic {A} why.
Arguments Exit {A} code.

#[export] Instance outcome_eq_dec `{EqDecision A} : EqDecision (outcome A).
Proof. solve_decision. Defined.

#[export] Instance outcome_ret : MRet outcome := @Ret.
#[export] Instance outcome_bind : MBind outcome := λ A B f m,
  match m with
  | Ret a => f a
  | Panic w => Panic w
  | Exit c => Exit c
  end.

Definition GoM (W A : Type) : Type := W → outcome A * W.

#[export] Instance GoM_ret {W} : MRet (GoM W) := λ A a w, (Ret a, w).
#[export] Instance GoM_bind {W} : MBind (GoM W) := λ A B f m w,
  match m w with
  | (Ret a, w') => f a w'
  | (Panic p, w') => (Panic p, w')
  | (Exit c, w') => (Exit c, w')
  end.

Definition gopanic {W A} (why : string) : GoM W A := λ w, (Panic why, w).
Definition goexit {W A} (code : Z) : GoM W A := λ w, (Exit code, w).
Definition getw {W} : GoM W W := λ w, (Ret w, w).
Definition modw {W} (f : W → W) : GoM W unit := λ w, (Ret tt, f w).
Definition lift {W A} (o : outcome A) : GoM W A := λ w, (o, w).

Lemma GoM_bind_ret {W A B} (a : A) (f : A → GoM W B) : (mret a ≫= f) = f a.
Proof. reflexivity. Qed.

(** A bind whose head is known to return. *)
Lemma GoM_bind_Ret {W A B} (m : GoM W A) (f : A → GoM W B) w a w' :
  m w = (Ret a, w') → (m ≫= f) w = f a w'.
Proof. intros H. unfold mbind, GoM_bind. by rewrite H. Qed.

(** What a successful bind went through. *)
Lemma GoM_bind_inv {W A B} (m : GoM W A) (f : A → GoM W B) w b w' :
  (m ≫= f) w = (Ret b, w') → ∃ a w1, m w = (Ret a, w1) ∧ f a w1 = (Ret b, w').
Proof. unfold mbind, GoM_bind. destruct (m w) as [[a|p|c] w1]; naive_solver. Qed.

Ltac gosimpl :=
  unfold mbind, mret, GoM_bind, GoM_ret, outcome_bind, outcome_ret,
    gopanic, goexit, getw, modw, lift in *; cbn beta iota zeta in *.

(** Case analysis on the scrutinee of a match in the goal, keeping the equation. *)
Ltac split_match :=
  match goal with
  | |- context [match ?x with _ => _ end] =>
      lazymatch x with
      | context [match _ with _ => _ end] => fail
      | _ => let E := fresh "E" in destruct x eqn:E; try done
      end
  end.

Ltac split_match_in H :=
  match type of H with
  | context [match ?x with _ => _ end] =>
      lazymatch x with
      | context [match _ with _ => _ end] => fail
      | _ => let E := fresh "E" in destruct x eqn:E; try done
      end
  end.

Ltac invc H := inversion H; subst; clear H.

(** ** Machine integers *)

Definition u8 (z : Z) : Z := z mod 2 ^ 8.
Definition u16 (z : Z) : Z := z mod 2 ^ 16.
Definition u32 (z : Z) : Z := z mod 2 ^ 32.
(** Go's [int] on the 64-bit targets of the library. *)
Definition i64 (z : Z) : Z := (z + 2 ^ 63) mod 2 ^ 64 - 2 ^ 63.

Definition is_byte (z : Z) : Prop := 0 ≤ z < 256.
Definition is_bytes (l : list Z) : Prop := Forall is_byte l.

Lemma u8_small z : 0 ≤ z < 256 → u8 z = z.
Proof. intros H. apply Z.mod_small. exact H. Qed.
Lemma u16_small z : 0 ≤ z < 65536 → u16 z = z.
Proof. intros H. apply Z.mod_small. exact H. Qed.
Lemma u16_range z : 0 ≤ u16 z < 65536.
Proof. apply Z.mod_pos_bound. lia. Qed.
Lemma i64_small z : - 2 ^ 63 ≤ z < 2 ^ 63 → i64 z = z.
Proof. intros H. unfold i64. rewrite Z.mod_small; lia. Qed.
Lemma i64_range z : - 2 ^ 63 ≤ i64 z < 2 ^ 63.
Proof. unfold i64. pose proof (Z.mod_pos_bound (z + 2 ^ 63) (2 ^ 64)). lia. Qed.

(** Little-endian words, as the supported hosts store them. *)
Fixpoint le_bytes (n : nat) (z : Z) : list Z :=
  match n with
  | O => []
  | S n' => z mod 256 :: le_bytes n' (z / 256)
  end.
Fixpoint le_value (l : list Z) : Z :=
  match l with
  | [] => 0
  | b :: l' => b + 256 * le_value l'
  end.

Lemma length_le_bytes n z : length (le_bytes n z) = n.
Proof. revert z. induction n; simpl; auto. Qed.

Lemma le_value_bytes n z :
  0 ≤ z < 256 ^ Z.of_nat n → le_value (le_bytes n z) = z.
Proof.
  revert z. induction n as [|n IH]; intros z Hz; simpl.
  - change (256 ^ Z.of_nat 0) with 1 in Hz. lia.
  - rewrite Nat2Z.inj_succ, Z.pow_succ_r in Hz by lia.
    rewrite IH.
    + pose proof (Z.div_mod z 256). lia.
    + split; [apply Z.div_pos; lia | apply Z.div_lt_upper_bound; lia].
Qed.

Lemma le_bytes_is_bytes n z : is_bytes (le_bytes n z).
Proof.
  revert z. induction n as [|n IH]; intros z; constructor; [|apply IH].
  unfold is_byte. apply Z.mod_pos_bound. lia.
Qed.

Lemma sum_list_with_insert {A} (f : A → nat) l i x y :
  l !! i = Some x → (sum_list_with f (<[i := y]> l) + f x = sum_list_with f l + f y)%nat.
Proof.
  revert i. induction l as [|z l IH]; intros [|i] H; simpl in *; simplify_eq; [lia|]. specialize (IH i H). lia.
Qed.

(** ** The built-in [copy] on slices *)

Definition go_copy (dst src : list Z) : list Z * nat :=
  let n := (length dst `min` length src)%nat in
  (take n src ++ drop n dst, n).

Lemma go_copy_length dst src : length (go_copy dst src).1 = length dst.
Proof. simpl. rewrite length_app, length_take, length_drop. lia. Qed.

Lemma go_copy_prefix dst src :
  take (go_copy dst src).2 (go_copy dst src).1 = take (length dst) src.
Proof.
  simpl. rewrite take_app_le by (rewrite length_take; lia).
  rewrite take_take.
  destruct (decide (length dst ≤ length src)%nat).
  - f_equal; lia.
  - rewrite !take_ge; [done| lia..].
Qed.

(** A destination at least as long as the source receives all of it. *)
Lemma go_copy_fits dst src :
  (length src ≤ length dst)%nat →
  (go_copy dst src).2 = length src ∧ take (length src) (go_copy dst src).1 = src.
Proof.
  intros H. simpl. rewrite Nat.min_r by done. split; [done|].
  rewrite take_app_le by (rewrite length_take; lia).
  rewrite take_take, Nat.min_id. by apply take_ge.
Qed.

(** ** Counting the elements of a list that satisfy a boolean predicate *)

Definition b2n (b : bool) : nat := if b then 1%nat else 0%nat.

Fixpoint countb {A} (f : A → bool) (l : list A) : nat :=
  match l with
  | [] => 0%nat
  | x :: l' => (b2n (f x) + countb f l')%nat
  end.

Lemma countb_app {A} (f : A → bool) l1 l2 :
  countb f (l1 ++ l2) = (countb f l1 + countb f l2)%nat.
Proof. induction l1 as [|x l1 IH]; simpl; lia. Qed.

Lemma countb_zero {A} (f : A → bool) (l : list A) :
  countb f l = 0%nat ↔ ∀ i x, l !! i = Some x → f x = false.
Proof.
  induction l as [|z l IH]; simpl.
  - split; [intros _ i x H; by rewrite lookup_nil in H | done].
  - split.
    + intros H [|i] x Hi; simplify_eq/=.
      * destruct (f x); simpl in *; [lia|done].
      * eapply IH; [lia|done].
    + intros H. rewrite (H 0%nat z eq_refl). simpl.
      apply IH. intros i x Hi. by apply (H (S i)).
Qed.

Lemma countb_pos {A} (f : A → bool) (l : list A) i x :
  l !! i = Some x → f x = true → (0 < countb f l)%nat.
Proof.
  intros Hi Hf. destruct (decide (countb f l = 0%nat)) as [E|]; [|lia].
  rewrite countb_zero in E. specialize (E _ _ Hi). congruence.
Qed.

(** Updating one element of a list in place. *)
Lemma alter_lookup_inv {A} (f : A → A) (l : list A) i j y :
  alter f i l !! j = Some y →
  (j = i ∧ ∃ x, l !! i = Some x ∧ y = f x) ∨ (j ≠ i ∧ l !! j = Some y).
Proof.
  destruct (decide (j = i)) as [->|Hne].
  - rewrite list_lookup_alter_eq. destruct (l !! i); naive_solver.
  - rewrite list_lookup_alter_ne by done. auto.
Qed.

Lemma alter_lookup_is_Some {A} (f : A → A) (l : list A) i j :
  is_Some (l !! j) → is_Some (alter f i l !! j).
Proof. rewrite !lookup_lt_is_Some, length_alter. done. Qed.

Lemma alter_lookup_ex {A} (f : A → A) (l : list A) i j (R : A → Prop) :
  (∃ x, l !! j = Some x ∧ R x) →
  (j = i → ∀ x, l !! i = Some x → R x → R (f x)) →
  ∃ x, alter f i l !! j = Some x ∧ R x.
Proof.
  intros (x & Hx & HR) Hf. destruct (decide (j = i)) as [->|Hne].
  - exists (f x). rewrite list_lookup_alter_eq, Hx. eauto.
  - exists x. by rewrite list_lookup_alter_ne.
Qed.

Lemma countb_alter {A} (p : A → bool) (f : A → A) (l : list A) i x :
  l !! i = Some x →
  (countb p (alter f i l) + b2n (p x) = countb p l + b2n (p (f x)))%nat.
Proof.
  revert i. induction l as [|z l IH]; intros [|i] H; [done..| |].
  - injection H as ->. simpl. lia.
  - change (alter f (S i) (z :: l)) with (z :: alter f i l).
    specialize (IH i H). cbn [countb]. lia.
Qed.

Lemma countb_le_length {A} (p : A → bool) (l : list A) : (countb p l ≤ length l)%nat.
Proof. induction l as [|x l IH]; simpl; [lia|]. destruct (p x); simpl; lia. Qed.

(** ** Automation database of the development *)

Create HintDb goudp discriminated.
#[export] Hint Resolve length_le_bytes le_bytes_is_bytes u16_range go_copy_length : goudp.
