(* ===== verification/GoLib.v ===== *)
(** * The parts of Go's standard library the program uses

    Error values with their [Unwrap] chains ([errors.Is], [errors.As]),
    [strconv.ParseBool] and [strconv.Atoi], [strings.Index] and
    [strings.Contains], [net.IP] and [net.UDPAddr] with the textual form
    that keys the table of sub-connections. *)

From S2P Require Import Prelude.
From Stdlib Require Import (notations) Ascii.

(** ** Errors

    [ErrText] is a value of [errors.New]; package-level error variables are
    told apart by their texts, which are pairwise distinct.  [WrapError] is
    [fmt.Errorf] with [%w] (or a wrapper such as [*net.OpError]): a prefix
    and the wrapped error. *)

Inductive error : Type :=
| ErrText (msg : string)
| Errno (n : Z) (text : string)
| SyscallError (call : string) (err : error)
| WrapError (prefix : string) (err : error).

#[export] Instance error_eq_dec : EqDecision error.
Proof. solve_decision. Defined.

Fixpoint error_Error (e : error) : string :=
  match e with
  | ErrText msg => msg
  | Errno _ text => text
  | SyscallError call err => (call +:+ ": " +:+ error_Error err)%string
  | WrapError prefix err => (prefix +:+ error_Error err)%string
  end.

(** [errors.Is(err, target)] for a [syscall.Errno] target. *)
Fixpoint Is_errno (e : error) (n : Z) : bool :=
  match e with
  | Errno m _ => m =? n
  | SyscallError _ err => Is_errno err n
  | WrapError _ err => Is_errno err n
  | ErrText _ => false
  end.

Definition errors_Is_errno (e : option error) (n : Z) : bool :=
  match e with Some e => Is_errno e n | None => false end.

(** [errors.As(err, &serr)] with [serr] of type [*os.SyscallError]: the first
    one of the chain. *)
Fixpoint As_SyscallError (e : error) : option (string * error) :=
  match e with
  | SyscallError call err => Some (call, err)
  | WrapError _ err => As_SyscallError err
  | Errno _ _ | ErrText _ => None
  end.

Definition errors_As_SyscallError (e : option error) : option (string * error) :=
  e ≫= As_SyscallError.

Definition io_EOF : error := ErrText "EOF".
Definition context_DeadlineExceeded : error := ErrText "context deadline exceeded".
Definition errors_ErrUnsupported : error := ErrText "unsupported operation".

(** ** strconv and strings *)

(** [strconv.ParseBool]: [None] is its syntax error. *)
Definition ParseBool (s : string) : option bool :=
  if bool_decide (s ∈ ["1"; "t"; "T"; "TRUE"; "true"; "True"]) then Some true
  else if bool_decide (s ∈ ["0"; "f"; "F"; "FALSE"; "false"; "False"]) then Some false
  else None.

(** [strings.Contains]. *)
Definition strings_Contains (s sub : string) : bool :=
  match String.index 0 sub s with Some _ => true | None => false end.

(** [strings.Index] of a one-byte separator in a byte string; [None] is -1. *)
Fixpoint index_byte (c : Z) (l : list Z) : option nat :=
  match l with
  | [] => None
  | b :: l' => if b =? c then Some 0%nat else S <$> index_byte c l'
  end.

Definition is_digit (c : Z) : bool := (48 <=? c) && (c <=? 57).

(** Unbounded value of a digit string. *)
Definition digits_value (l : list Z) : Z :=
  fold_left (λ v c, v * 10 + (c - 48)) l 0.

(** [strconv.Atoi] on a 64-bit host: an optional sign, then at least one
    decimal digit and nothing else, in the range of [int]. *)
Definition Atoi_syntax : error := WrapError "strconv.Atoi: " (ErrText "invalid syntax").
Definition Atoi_range : error := WrapError "strconv.Atoi: " (ErrText "value out of range").

Definition Atoi (s : list Z) : Z + error :=
  let '(neg, ds) :=
    match s with
    | 45 :: ds => (true, ds)
    | 43 :: ds => (false, ds)
    | _ => (false, s)
    end in
  match ds with
  | [] => inr Atoi_syntax
  | _ =>
    if forallb is_digit ds then
      let v := if (neg : bool) then - digits_value ds else digits_value ds in
      if (- 2 ^ 63 <=? v) && (v <? 2 ^ 63) then inl v else inr Atoi_range
    else inr Atoi_syntax
  end.

(** ** Addresses

    An [net.Addr] interface value is [None] (nil) or holds a [*net.UDPAddr]
    or another implementation, of which only [String] matters. *)

Inductive Addr : Type :=
| UDPAddr (ip : list Z) (port : Z) (zone : string)
| OtherAddr (str : string).

#[export] Instance Addr_eq_dec : EqDecision Addr.
Proof. solve_decision. Defined.

(** [net.IP.To4]: the four bytes of an IPv4 or IPv4-mapped address. *)
Definition IP_To4 (ip : list Z) : option (list Z) :=
  if (length ip =? 4)%nat then Some ip
  else if (length ip =? 16)%nat && forallb (Z.eqb 0) (take 10 ip)
          && forallb (Z.eqb 255) (take 2 (drop 10 ip))
  then Some (drop 12 ip)
  else None.

(** [net.IP.IsUnspecified]: 0.0.0.0 (in either form) or ::. *)
Definition IP_IsUnspecified (ip : list Z) : bool :=
  match IP_To4 ip with
  | Some v4 => forallb (Z.eqb 0) v4
  | None => (length ip =? 16)%nat && forallb (Z.eqb 0) ip
  end.

Definition itoa (z : Z) : string := pretty z.

Definition hex_digit (d : Z) : string :=
  match String.get (Z.to_nat (d mod 16)) "0123456789abcdef" with
  | Some c => String c EmptyString
  | None => EmptyString
  end.
(** A 16-bit group without leading zeros, as [netip.Addr.String] prints it. *)
Definition hex_group (g : Z) : string :=
  let d3 := g / 4096 in let d2 := (g / 256) mod 16 in
  let d1 := (g / 16) mod 16 in
  ((if (0 <? d3)%Z then hex_digit d3 else "")
   +:+ (if (0 <? g / 256)%Z then hex_digit d2 else "")
   +:+ (if (0 <? g / 16)%Z then hex_digit d1 else "")
   +:+ hex_digit g)%string.
Definition hex_byte (b : Z) : string := (hex_digit (b / 16) +:+ hex_digit b)%string.

Fixpoint groups (ip : list Z) : list Z :=
  match ip with
  | a :: b :: ip' => a * 256 + b :: groups ip'
  | _ => []
  end.

(** Length of the run of zero groups at the head. *)
Fixpoint zero_run (gs : list Z) : nat :=
  match gs with 0 :: gs' => S (zero_run gs') | _ => 0%nat end.

(** The first longest run of zero groups: its start and length. *)
Fixpoint longest_run (i : nat) (gs : list Z) (best : nat * nat) : nat * nat :=
  match gs with
  | [] => best
  | _ :: gs' =>
    let r := zero_run gs in
    longest_run (S i) gs' (if (best.2 <? r)%nat then (i, r) else best)
  end.

Definition join_colon (gs : list Z) : string := String.concat ":" (hex_group <$> gs).

Definition IPv6_String (ip : list Z) : string :=
  let gs := groups ip in
  let '(i, n) := longest_run 0 gs (0%nat, 0%nat) in
  if (2 <=? n)%nat
  then (join_colon (take i gs) +:+ "::" +:+ join_colon (drop (i + n) gs))%string
  else join_colon gs.

Definition IPv4_String (v4 : list Z) : string := String.concat "." (itoa <$> v4).

(** [ipEmptyString]: the text of an IP, empty for an empty one. *)
Definition IP_String (ip : list Z) : string :=
  match IP_To4 ip with
  | Some v4 => IPv4_String v4
  | None =>
    match ip with
    | [] => ""
    | _ => if (length ip =? 16)%nat then IPv6_String ip
           else ("?" +:+ String.concat "" (hex_byte <$> ip))%string
    end
  end.

(** [net.JoinHostPort]. *)
Definition JoinHostPort (host port : string) : string :=
  if strings_Contains host ":" then ("[" +:+ host +:+ "]:" +:+ port)%string
  else (host +:+ ":" +:+ port)%string.

Definition Addr_String (a : Addr) : string :=
  match a with
  | UDPAddr ip port zone =>
    let host := IP_String ip in
    JoinHostPort (if bool_decide (zone = "") then host else (host +:+ "%" +:+ zone)%string)
      (itoa port)
  | OtherAddr str => str
  end.

Example addr_string_v4 : Addr_String (UDPAddr [127; 0; 0; 1] 15678 "") = "127.0.0.1:15678".
Proof. vm_compute. reflexivity. Qed.
Example addr_string_v6 :
  Addr_String (UDPAddr [254; 128; 0; 0; 0; 0; 0; 0; 2; 0; 0; 0; 0; 0; 0; 26] 80 "eth0")
  = "[fe80::200:0:0:1a%eth0]:80".
Proof. vm_compute. reflexivity. Qed.
Example addr_string_loopback6 :
  Addr_String (UDPAddr (replicate 15 0 ++ [1]) 9 "") = "[::1]:9".
Proof. vm_compute. reflexivity. Qed.

(** ** The textual form separates IPv4 endpoints *)

Fixpoint str_forall (p : Ascii.ascii → bool) (s : string) : bool :=
  match s with
  | EmptyString => true
  | String c s' => p c && str_forall p s'
  end.

Definition digit_char (c : Ascii.ascii) : bool :=
  let n := Ascii.N_of_ascii c in ((48 <=? n) && (n <=? 57))%N.

Lemma str_forall_app p s1 s2 :
  str_forall p (s1 +:+ s2) = str_forall p s1 && str_forall p s2.
Proof. induction s1 as [|c s1 IH]; simpl; [done|]. by rewrite IH, andb_assoc. Qed.

Lemma str_forall_impl p q s :
  (∀ c, p c = true → q c = true) → str_forall p s = true → str_forall q s = true.
Proof.
  intros Hpq. induction s as [|c s IH]; simpl; [done|].
  rewrite !andb_true_iff. intros [? ?]. auto.
Qed.

(** A separator that occurs in neither head splits a string in one way. *)
Lemma str_split_unique (sep : Ascii.ascii) a b x y :
  str_forall (λ c, negb (Ascii.eqb c sep)) a = true →
  str_forall (λ c, negb (Ascii.eqb c sep)) b = true →
  (a +:+ String sep x = b +:+ String sep y)%string → a = b ∧ x = y.
Proof.
  revert b. induction a as [|c a IH]; intros [|d b]; simpl; intros Ha Hb E;
    simplify_eq; [done| | |].
  - by rewrite Ascii.eqb_refl in Hb.
  - by rewrite Ascii.eqb_refl in Ha.
  - apply andb_true_iff in Ha as [_ Ha], Hb as [_ Hb].
    match goal with E2 : (_ +:+ _)%string = _ |- _ => destruct (IH b Ha Hb E2) as [-> ->] end.
    done.
Qed.

Lemma pretty_N_char_digit n : (n < 10)%N → digit_char (pretty_N_char n) = true.
Proof.
  intros H.
  assert (n ∈ [0;1;2;3;4;5;6;7;8;9]%N) as Hin by (rewrite !elem_of_cons; lia).
  revert Hin. rewrite !elem_of_cons, elem_of_nil.
  intros Hin. repeat (destruct Hin as [->|Hin]; [reflexivity|]). done.
Qed.

Lemma pretty_N_go_digits n s :
  str_forall digit_char s = true → str_forall digit_char (pretty_N_go n s) = true.
Proof.
  revert s. induction (N.lt_wf_0 n) as [n _ IH]; intros s Hs.
  destruct (decide (n = 0)%N) as [->|Hn]; [by rewrite pretty_N_go_0|].
  rewrite pretty_N_go_step by lia. apply IH.
  - apply N.div_lt; lia.
  - cbn [str_forall]. rewrite Hs, pretty_N_char_digit by (apply N.mod_lt; lia). done.
Qed.

Lemma itoa_digits z : 0 ≤ z → str_forall digit_char (itoa z) = true.
Proof.
  intros Hz. destruct z as [|p|p]; [reflexivity| |lia].
  change (itoa (Z.pos p)) with (pretty_N (N.pos p)). unfold pretty_N.
  case_decide; [done|]. by apply pretty_N_go_digits.
Qed.

Lemma digits_no_sep (sep : Ascii.ascii) s :
  digit_char sep = false → str_forall digit_char s = true →
  str_forall (λ c, negb (Ascii.eqb c sep)) s = true.
Proof.
  intros Hsep. apply str_forall_impl. intros c Hc.
  apply negb_true_iff, Ascii.eqb_neq. congruence.
Qed.

Lemma Contains_colon_false s :
  str_forall (λ c, negb (Ascii.eqb c ":"%char)) s = true → strings_Contains s ":" = false.
Proof.
  unfold strings_Contains. induction s as [|c s IH]; [done|].
  cbn [str_forall String.index]. intros [Hc Hs]%andb_true_iff.
  apply negb_true_iff, Ascii.eqb_neq in Hc. specialize (IH Hs).
  destruct (String.prefix ":" (String c s)) eqn:E.
  - cbn [String.prefix] in E. destruct (Ascii.ascii_dec ":" c); [congruence|done].
  - destruct (String.index 0 ":" s); done.
Qed.

Definition is_ipv4 (ip : list Z) : Prop := length ip = 4%nat ∧ is_bytes ip.

Definition v4_text (a b c d : Z) : string :=
  (itoa a +:+ "." +:+ itoa b +:+ "." +:+ itoa c +:+ "." +:+ itoa d)%string.

Lemma v4_text_no_colon a b c d :
  is_bytes [a; b; c; d] →
  str_forall (λ ch, negb (Ascii.eqb ch ":"%char)) (v4_text a b c d) = true.
Proof.
  unfold is_bytes, is_byte. rewrite !Forall_cons. intros (? & ? & ? & ? & _).
  unfold v4_text. rewrite !str_forall_app.
  rewrite !(digits_no_sep ":"%char (itoa _))
    by first [reflexivity | apply itoa_digits; lia].
  reflexivity.
Qed.

Lemma Addr_String_v4 a b c d port :
  is_bytes [a; b; c; d] →
  Addr_String (UDPAddr [a; b; c; d] port "") = (v4_text a b c d +:+ String ":" (itoa port))%string.
Proof.
  intros Hb. cbn [Addr_String bool_decide]. rewrite bool_decide_true by done.
  unfold JoinHostPort. change (IP_String [a; b; c; d]) with (v4_text a b c d).
  by rewrite Contains_colon_false by (by apply v4_text_no_colon).
Qed.

(** Two IPv4 endpoints with the same text are the same endpoint. *)
Lemma Addr_String_v4_inj ip1 ip2 p1 p2 :
  is_ipv4 ip1 → is_ipv4 ip2 →
  Addr_String (UDPAddr ip1 p1 "") = Addr_String (UDPAddr ip2 p2 "") →
  ip1 = ip2 ∧ p1 = p2.
Proof.
  intros [L1 B1] [L2 B2].
  destruct ip1 as [|a1 [|b1 [|c1 [|d1 [|]]]]]; try discriminate.
  destruct ip2 as [|a2 [|b2 [|c2 [|d2 [|]]]]]; try discriminate.
  rewrite !Addr_String_v4 by done. intros E.
  apply str_split_unique in E as [E Ep]; [|by apply v4_text_no_colon..].
  apply (inj pretty) in Ep.
  unfold is_bytes, is_byte in B1, B2. rewrite !Forall_cons in B1, B2.
  destruct B1 as (?&?&?&?&_), B2 as (?&?&?&?&_).
  assert (Hd : ∀ z, 0 ≤ z →
    str_forall (λ ch, negb (Ascii.eqb ch "."%char)) (itoa z) = true)
    by (intros; by apply digits_no_sep; [|apply itoa_digits]).
  unfold v4_text in E. cbn [String.append] in E.
  apply str_split_unique in E as [Ea E]; [|apply Hd; lia..].
  apply str_split_unique in E as [Eb E]; [|apply Hd; lia..].
  apply str_split_unique in E as [Ec Ed]; [|apply Hd; lia..].
  apply (inj pretty) in Ea, Eb, Ec, Ed. by subst.
Qed.

(** ** [sync.WaitGroup]

    Counter, number of goroutines asleep in [Wait], and released but not yet
    resumed sleepers (the semaphore). *)

Record WaitGroup : Type := MkWG { wg_v : Z; wg_w : nat; wg_sema : nat }.
#[export] Instance WaitGroup_eq_dec : EqDecision WaitGroup.
Proof. solve_decision. Defined.

Definition wg_new : WaitGroup := MkWG 0 0 0.

Definition wg_negative : string := "sync: negative WaitGroup counter".
Definition wg_misuse : string := "sync: WaitGroup misuse: Add called concurrently with Wait".
Definition wg_reused : string := "sync: WaitGroup is reused before previous Wait has returned".

(** [Add]; [Done] is [Add(-1)].  One atomic addition, then the checks on the
    value it produced.  The number returned is that of the sleepers the call
    has to release before it returns: those it found when it brought the
    counter to zero. *)
Definition wg_Add (delta : Z) (g : WaitGroup) : outcome (nat * WaitGroup) :=
  let v := wg_v g + delta in
  let g' := MkWG v (wg_w g) (wg_sema g) in
  if v <? 0 then Panic wg_negative
  else if negb (wg_w g =? 0)%nat && (0 <? delta) && (v =? delta) then Panic wg_misuse
  else if (0 <? v) || (wg_w g =? 0)%nat then Ret (0%nat, g')
  else Ret (wg_w g, g').

(** The rest of such a call: the state must still be the one it left (counter
    zero, [w] sleepers); it is reset and the sleepers are released. *)
Definition wg_Release (w : nat) (g : WaitGroup) : outcome WaitGroup :=
  if (wg_v g =? 0) && (wg_w g =? w)%nat then Ret (MkWG 0 0 (wg_sema g + w))
  else Panic wg_misuse.

(** [Done] with nothing in between.  The steps of [SupConn.v] use it for
    [readWG] only, to which nothing is ever added after its construction:
    during the release the counter stays zero and a call of [Wait] returns at
    once, so the release commutes with every other operation. *)
Definition wg_Done (g : WaitGroup) : outcome WaitGroup :=
  match wg_Add (-1) g with
  | Ret (O, g') => Ret g'
  | Ret (w, g') => wg_Release w g'
  | Panic why => Panic why
  | Exit n => Exit n
  end.

(** Entering [Wait]: [true] when it returns at once, else one more sleeper. *)
Definition wg_Wait (g : WaitGroup) : bool * WaitGroup :=
  if wg_v g =? 0 then (true, g) else (false, MkWG (wg_v g) (S (wg_w g)) (wg_sema g)).

(** Resuming from [Wait]: [None] while no release is pending. *)
Definition wg_Wake (g : WaitGroup) : option (outcome WaitGroup) :=
  match wg_sema g with
  | O => None
  | S n =>
    if (wg_v g =? 0) && (wg_w g =? 0)%nat
    then Some (Ret (MkWG (wg_v g) (wg_w g) n)) else Some (Panic wg_reused)
  end.

(** A group that is never counted up again after reaching zero: releases are
    pending only at zero, and then nobody sleeps. *)
Definition wg_quiet (g : WaitGroup) : Prop :=
  (0 < wg_v g ∧ wg_sema g = 0%nat) ∨ (wg_v g = 0 ∧ wg_w g = 0%nat).

(** Goroutines inside [Wait]. *)
Definition wg_inside (g : WaitGroup) : nat := (wg_w g + wg_sema g)%nat.

(** The addition of a [Done] that holds a unit. *)
Lemma wg_Add_minus g :
  0 < wg_v g →
  wg_Add (-1) g = Ret ((if (wg_v g =? 1) then wg_w g else 0%nat),
                       MkWG (wg_v g - 1) (wg_w g) (wg_sema g)).
Proof.
  intros H. unfold wg_Add. replace (wg_v g + -1) with (wg_v g - 1) by lia.
  destruct (Z.ltb_spec (wg_v g - 1) 0); [lia|].
  replace (0 <? -1) with false by done. rewrite andb_false_r, andb_false_l.
  destruct (Nat.eqb_spec (wg_w g) 0) as [Hw|]; destruct (Z.ltb_spec 0 (wg_v g - 1));
    destruct (Z.eqb_spec (wg_v g) 1); simpl; try rewrite Hw; (done || lia).
Qed.

Lemma wg_Add_minus_pos g w g' : 0 ≤ wg_v g → wg_Add (-1) g = Ret (w, g') → 0 < wg_v g.
Proof. intros H. unfold wg_Add. destruct (Z.ltb_spec (wg_v g + -1) 0); [done|lia]. Qed.

Lemma wg_Done_spec g :
  0 < wg_v g →
  ∃ g', wg_Done g = Ret g' ∧ wg_v g' = wg_v g - 1 ∧ wg_inside g' = wg_inside g ∧
        (0 < wg_v g' → wg_w g' = wg_w g ∧ wg_sema g' = wg_sema g) ∧
        (wg_v g' = 0 → wg_w g' = 0%nat).
Proof.
  intros H. unfold wg_Done. rewrite wg_Add_minus by done. unfold wg_Release, wg_inside.
  destruct (Z.eqb_spec (wg_v g) 1) as [Hv|Hv]; simpl.
  - destruct (wg_w g) as [|w] eqn:Ew; simpl.
    + eexists; split; [done|]; simpl; lia.
    + destruct (Z.eqb_spec (wg_v g - 1) 0); [|lia]. rewrite Nat.eqb_refl. simpl.
      eexists; split; [done|]; simpl; lia.
  - eexists; split; [done|]; simpl; lia.
Qed.

Lemma wg_Done_quiet g g' :
  wg_quiet g → 0 < wg_v g → wg_Done g = Ret g' →
  wg_quiet g' ∧ wg_v g' = wg_v g - 1 ∧ wg_inside g' = wg_inside g.
Proof.
  intros Hq Hv E. destruct (wg_Done_spec g Hv) as (g1 & E1 & Hv1 & Hi & Hp & Hz).
  rewrite E in E1. injection E1 as <-. split_and!; [|done..]. unfold wg_quiet in *. lia.
Qed.

Lemma wg_Wait_quiet g pass g' :
  wg_quiet g → wg_Wait g = (pass, g') →
  wg_quiet g' ∧ wg_v g' = wg_v g ∧
  wg_inside g' = (wg_inside g + b2n (negb pass))%nat ∧ (pass = true ↔ wg_v g = 0).
Proof.
  unfold wg_Wait, wg_quiet, wg_inside. intros Hq E.
  destruct (wg_v g =? 0) eqn:Ez; simplify_eq; simpl; split_and!; (lia || split; (done || lia)).
Qed.

Lemma wg_Wake_quiet g r :
  wg_quiet g → wg_Wake g = Some r →
  ∃ g', r = Ret g' ∧ wg_quiet g' ∧ wg_v g' = wg_v g ∧ wg_v g = 0 ∧
        S (wg_inside g') = wg_inside g.
Proof.
  unfold wg_Wake, wg_quiet, wg_inside. intros Hq E.
  destruct (wg_sema g) eqn:Es; [done|].
  destruct (Z.eqb_spec (wg_v g) 0), (Nat.eqb_spec (wg_w g) 0); simplify_eq/=; [|lia..].
  eexists; split; [reflexivity|]. simpl. lia.
Qed.

(** Counting one in: refused only while a release is under way. *)
Lemma wg_Add_one g :
  0 ≤ wg_v g →
  wg_Add 1 g = if negb (wg_w g =? 0)%nat && (wg_v g =? 0) then Panic wg_misuse
               else Ret (0%nat, MkWG (wg_v g + 1) (wg_w g) (wg_sema g)).
Proof.
  intros Hv. unfold wg_Add. simpl. rewrite andb_true_r.
  destruct (Z.ltb_spec (wg_v g + 1) 0); [lia|].
  destruct (Nat.eqb_spec (wg_w g) 0), (Z.eqb_spec (wg_v g + 1) 1),
    (Z.eqb_spec (wg_v g) 0), (Z.ltb_spec 0 (wg_v g + 1)); simpl; (done || lia).
Qed.
