(* ===== verification/AddrText.v ===== *)
(** * The text of an address identifies the endpoint

    Sub-connections are filed under [addr.String()], and [SingleAddrConn]
    compares such texts.  For the addresses of UDP sockets the text determines
    the IP address (up to the two forms of an IPv4 address), the port and the
    zone: decimal IPv4, and IPv6 in lower-case hexadecimal with the first
    longest run of zero groups abbreviated. *)

From S2P Require Import Prelude GoLib.
From Stdlib Require Import (notations) Ascii.

(** ** Strings *)

Definition no_char (sep : Ascii.ascii) (s : string) : Prop :=
  str_forall (λ c, negb (Ascii.eqb c sep)) s = true.

Lemma no_char_app sep s1 s2 : no_char sep (s1 +:+ s2) ↔ no_char sep s1 ∧ no_char sep s2.
Proof. unfold no_char. by rewrite str_forall_app, andb_true_iff. Qed.

Lemma no_char_sep sep s : ¬ no_char sep (String sep s).
Proof. unfold no_char. simpl. by rewrite Ascii.eqb_refl. Qed.

Lemma str_app_assoc (a b c : string) : ((a +:+ b) +:+ c = a +:+ (b +:+ c))%string.
Proof. induction a as [|x a IH]; [done|]. exact (f_equal (String x) IH). Qed.

Lemma str_app_nil (a : string) : ("" +:+ a)%string = a.
Proof. done. Qed.

(** The last separator splits a string in one way, too. *)
Lemma str_split_last (sep : Ascii.ascii) a b x y :
  no_char sep x → no_char sep y →
  (a +:+ String sep x = b +:+ String sep y)%string → a = b ∧ x = y.
Proof.
  intros Hx Hy. revert b. induction a as [|c a IH]; intros [|d b]; simpl; intros E; simplify_eq.
  - done.
  - apply no_char_app in Hx as [_ Hx]. by apply no_char_sep in Hx.
  - apply no_char_app in Hy as [_ Hy]. by apply no_char_sep in Hy.
  - match goal with E2 : (_ +:+ _)%string = _ |- _ => destruct (IH b E2) as [-> ->] end. done.
Qed.

Lemma Contains_colon_iff s : strings_Contains s ":" = false ↔ no_char ":"%char s.
Proof.
  split; [|apply Contains_colon_false]. unfold strings_Contains, no_char.
  induction s as [|c s IH]; [done|]. cbn [str_forall String.index String.prefix].
  destruct (Ascii.ascii_dec ":" c) as [<-|Hne]; [by destruct s|].
  intros H. rewrite (proj2 (Ascii.eqb_neq c ":"%char)) by congruence. simpl.
  apply IH. by destruct (String.index 0 ":" s).
Qed.

(** ** Lists of tokens between colons *)

Definition join (ts : list string) : string := String.concat ":" ts.

Lemma join_cons t ts : ts ≠ [] → join (t :: ts) = (t +:+ String ":" (join ts))%string.
Proof. by destruct ts. Qed.

Lemma join_app l r : l ≠ [] → r ≠ [] → join (l ++ r) = (join l +:+ String ":" (join r))%string.
Proof.
  intros Hl Hr. induction l as [|t l IH]; [done|]. destruct l as [|t' l].
  - by apply join_cons.
  - change ((t :: t' :: l) ++ r) with (t :: ((t' :: l) ++ r)).
    rewrite join_cons by done. rewrite IH by done. rewrite (join_cons t (t' :: l)) by done.
    by rewrite str_app_assoc.
Qed.

Lemma join_inj ts1 ts2 :
  ts1 ≠ [] → ts2 ≠ [] → Forall (no_char ":"%char) ts1 → Forall (no_char ":"%char) ts2 →
  join ts1 = join ts2 → ts1 = ts2.
Proof.
  revert ts2. induction ts1 as [|t ts1 IH]; intros [|u ts2] H1 H2 F1 F2 E; try done.
  apply Forall_cons in F1 as [T1 F1], F2 as [T2 F2].
  destruct (decide (ts1 = [])) as [->|N1], (decide (ts2 = [])) as [->|N2].
  - change (t = u) in E. by rewrite E.
  - rewrite (join_cons u ts2) in E by done. change (join [t]) with t in E. subst t.
    apply no_char_app in T1 as [_ T1]. by apply no_char_sep in T1.
  - rewrite (join_cons t ts1) in E by done. change (join [u]) with u in E. subst u.
    apply no_char_app in T2 as [_ T2]. by apply no_char_sep in T2.
  - rewrite !join_cons in E by done. apply str_split_unique in E as [-> E]; [|done..].
    f_equal. by apply IH.
Qed.

Lemma join_colon_char ts : (2 ≤ length ts)%nat → ¬ no_char ":"%char (join ts).
Proof.
  destruct ts as [|t [|u ts]]; simpl; try lia. intros _ H.
  change (no_char ":"%char (t +:+ String ":" (join (u :: ts)))) in H.
  apply no_char_app in H as [_ H]. by apply no_char_sep in H.
Qed.

(** The tokens before the first empty one. *)
Fixpoint heads (ts : list string) : list string :=
  match ts with
  | t :: ts' => if bool_decide (t = "") then [] else t :: heads ts'
  | [] => []
  end.

Lemma heads_app l x : Forall (λ t, t ≠ "") l → heads (l ++ "" :: x) = l.
Proof.
  induction 1 as [|t l Ht _ IH]; [done|]. simpl. rewrite bool_decide_false by done. by rewrite IH.
Qed.

(** An abbreviated text: [l], a gap, [r]. *)
Definition gap (l r : list string) : list string :=
  (if decide (l = []) then [""] else l) ++ "" :: (if decide (r = []) then [""] else r).

Lemma gap_heads l r : Forall (λ t, t ≠ "") l → heads (gap l r) = l.
Proof. intros Hl. unfold gap. case_decide as E; [by rewrite E|by apply heads_app]. Qed.

Lemma gap_rev l r : reverse (gap l r) = gap (reverse r) (reverse l).
Proof.
  assert (Hr : ∀ x : list string, reverse (if decide (x = []) then [""] else x)
                   = if decide (reverse x = []) then [""] else reverse x).
  { intros x. destruct (decide (x = [])) as [->|Hx]; [done|]. rewrite decide_False; [done|].
    intros E. apply Hx. apply (f_equal length) in E. rewrite length_reverse in E. by destruct x. }
  unfold gap. rewrite reverse_app, reverse_cons, !Hr. by rewrite <- app_assoc.
Qed.

Lemma gap_inj l1 r1 l2 r2 :
  Forall (λ t, t ≠ "") l1 → Forall (λ t, t ≠ "") r1 → Forall (λ t, t ≠ "") l2 →
  Forall (λ t, t ≠ "") r2 → gap l1 r1 = gap l2 r2 → l1 = l2 ∧ r1 = r2.
Proof.
  intros L1 R1 L2 R2 E. split.
  - by rewrite <- (gap_heads l1 r1), <- (gap_heads l2 r2), E.
  - apply (inj reverse). rewrite <- (gap_heads (reverse r1) (reverse l1)) by (by apply Forall_reverse).
    rewrite <- gap_rev, E, gap_rev. apply gap_heads. by apply Forall_reverse.
Qed.

Lemma join_gap l r : join (gap l r) = (join l +:+ "::" +:+ join r)%string.
Proof.
  unfold gap. rewrite join_app; [|by case_decide|done]. rewrite join_cons by (by case_decide).
  assert (Hj : ∀ x, join (if decide (x = []) then [""] else x) = join x)
    by (intros x; case_decide as E; [by rewrite E|done]).
  by rewrite !Hj.
Qed.

(** ** Hexadecimal groups *)

Definition hex_char (c : Ascii.ascii) : bool :=
  let n := Ascii.N_of_ascii c in (((48 <=? n) && (n <=? 57)) || ((97 <=? n) && (n <=? 102)))%N.

Definition hexval (c : Ascii.ascii) : Z :=
  let n := Z.of_N (Ascii.N_of_ascii c) in if n <? 97 then n - 48 else n - 87.

Fixpoint parse_hex (acc : Z) (s : string) : Z :=
  match s with
  | EmptyString => acc
  | String c s' => parse_hex (acc * 16 + hexval c) s'
  end.

Lemma hex_digit_char d : ∃ c, hex_digit d = String c "" ∧ hexval c = d mod 16 ∧ hex_char c = true.
Proof.
  unfold hex_digit. assert (H : 0 ≤ d mod 16 < 16) by (apply Z.mod_pos_bound; lia).
  generalize dependent (d mod 16). intros z H.
  assert (z ∈ [0;1;2;3;4;5;6;7;8;9;10;11;12;13;14;15]) as Hin by (rewrite !elem_of_cons; lia).
  rewrite !elem_of_cons, elem_of_nil in Hin.
  repeat (destruct Hin as [->|Hin]; [by eexists|]). done.
Qed.

Lemma parse_hex_digit acc d s :
  parse_hex acc (hex_digit d +:+ s) = parse_hex (acc * 16 + d mod 16) s.
Proof. destruct (hex_digit_char d) as (c & -> & <- & _). done. Qed.

Lemma parse_hex_last acc d : parse_hex acc (hex_digit d) = acc * 16 + d mod 16.
Proof. destruct (hex_digit_char d) as (c & -> & <- & _). done. Qed.

Lemma hex_group_parse g : 0 ≤ g < 65536 → parse_hex 0 (hex_group g) = g.
Proof.
  intros Hg. unfold hex_group.
  destruct (Z.ltb_spec 0 (g / 4096)), (Z.ltb_spec 0 (g / 256)), (Z.ltb_spec 0 (g / 16));
    repeat (rewrite ?str_app_nil, ?parse_hex_digit, ?parse_hex_last);
    Z.to_euclidean_division_equations; lia.
Qed.

Lemma hex_group_inj g1 g2 :
  0 ≤ g1 < 65536 → 0 ≤ g2 < 65536 → hex_group g1 = hex_group g2 → g1 = g2.
Proof. intros H1 H2 E. by rewrite <- (hex_group_parse g1), <- (hex_group_parse g2), E. Qed.

Lemma hex_digit_chars d : str_forall hex_char (hex_digit d) = true.
Proof. destruct (hex_digit_char d) as (c & -> & _ & H). simpl. by rewrite H. Qed.

Lemma hex_group_chars g : str_forall hex_char (hex_group g) = true.
Proof.
  unfold hex_group. rewrite !str_forall_app, hex_digit_chars.
  repeat case_match; by rewrite ?hex_digit_chars.
Qed.

Lemma hex_group_nonempty g : hex_group g ≠ "".
Proof.
  unfold hex_group. destruct (hex_digit_char g) as (c & -> & _). intros E.
  repeat match type of E with context [if ?b then _ else _] => destruct b end;
    repeat match type of E with context [hex_digit ?d] =>
      let c := fresh in let H := fresh in destruct (hex_digit_char d) as (c & H & _); rewrite H in E end;
    done.
Qed.

Lemma hex_no_char sep s : hex_char sep = false → str_forall hex_char s = true → no_char sep s.
Proof.
  intros Hsep. apply str_forall_impl. intros c Hc. apply negb_true_iff, Ascii.eqb_neq. congruence.
Qed.

(** ** The abbreviated run *)

Definition run_ok (gs : list Z) (p : nat * nat) : Prop :=
  (p.1 + p.2 ≤ length gs)%nat ∧ take p.2 (drop p.1 gs) = replicate p.2 0.

Lemma zero_run_ok gs : (zero_run gs ≤ length gs)%nat ∧ take (zero_run gs) gs = replicate (zero_run gs) 0.
Proof.
  induction gs as [|g gs [IH1 IH2]]; simpl; [done|]. destruct g; simpl; [|split; [lia|done]..].
  split; [lia|]. by rewrite IH2.
Qed.

Lemma longest_run_ok pre gs best :
  run_ok (pre ++ gs) best → run_ok (pre ++ gs) (longest_run (length pre) gs best).
Proof.
  revert pre best. induction gs as [|g gs IH]; intros pre best H; [done|].
  cbn [longest_run].
  assert (Hrun : run_ok (pre ++ g :: gs) (length pre, zero_run (g :: gs))).
  { destruct (zero_run_ok (g :: gs)) as [H1 H2]. split; cbn [fst snd].
    - rewrite length_app. lia.
    - by rewrite drop_app_length. }
  assert (E : pre ++ g :: gs = (pre ++ [g]) ++ gs) by (by rewrite <- app_assoc).
  replace (S (length pre)) with (length (pre ++ [g])) by (rewrite length_app; simpl; lia).
  rewrite E in *. apply IH. by case_match.
Qed.

(** The groups are what is printed, with zeros in the gap. *)
Lemma run_split gs i n :
  run_ok gs (i, n) → gs = take i gs ++ replicate n 0 ++ drop (i + n) gs.
Proof.
  intros [_ H]. simpl in H. rewrite <- H, <- drop_drop, take_drop, take_drop. done.
Qed.

Definition is_group (g : Z) : Prop := 0 ≤ g < 65536.

(** The tokens of the text of an IPv6 address. *)
Definition tokens (ip : list Z) : list string :=
  let gs := groups ip in
  let '(i, n) := longest_run 0 gs (0%nat, 0%nat) in
  if (2 <=? n)%nat then gap (hex_group <$> take i gs) (hex_group <$> drop (i + n) gs)
  else hex_group <$> gs.

Lemma IPv6_String_tokens ip : IPv6_String ip = join (tokens ip).
Proof.
  unfold IPv6_String, tokens. destruct (longest_run 0 (groups ip) (0%nat, 0%nat)) as [i n].
  case_match; [by rewrite join_gap|done].
Qed.

Lemma hex_tokens gs : Forall (λ t, t ≠ "") (hex_group <$> gs).
Proof. apply Forall_fmap, Forall_true. intros g. apply hex_group_nonempty. Qed.

Lemma hex_group_no_char sep g : hex_char sep = false → no_char sep (hex_group g).
Proof. intros H. apply hex_no_char; [done|apply hex_group_chars]. Qed.

Lemma tokens_no_char sep ip : hex_char sep = false → Forall (no_char sep) (tokens ip).
Proof.
  intros Hs. unfold tokens. destruct (longest_run 0 (groups ip) (0%nat, 0%nat)) as [i n].
  assert (Hg : ∀ gs, Forall (no_char sep) (hex_group <$> gs))
    by (intros gs; apply Forall_fmap, Forall_true; intros g; by apply hex_group_no_char).
  case_match; [|apply Hg]. unfold gap. apply Forall_app. split; [|constructor; [done|]];
    case_decide; try apply Hg; by repeat constructor.
Qed.

Lemma tokens_length ip : (2 ≤ length (groups ip))%nat → (2 ≤ length (tokens ip))%nat.
Proof.
  intros H. unfold tokens. destruct (longest_run 0 (groups ip) (0%nat, 0%nat)) as [i n].
  case_match; [|by rewrite length_fmap]. unfold gap. rewrite length_app. simpl.
  destruct (decide (hex_group <$> take i (groups ip) = [])) as [|Hne]; simpl; [lia|].
  destruct (hex_group <$> take i (groups ip)); [done|]. simpl. lia.
Qed.

Lemma hex_fmap_inj gs1 gs2 :
  Forall is_group gs1 → Forall is_group gs2 → hex_group <$> gs1 = hex_group <$> gs2 → gs1 = gs2.
Proof.
  intros F1. revert gs2. induction F1 as [|g1 gs1 H1 _ IH]; intros [|g2 gs2] F2 E; try done.
  apply Forall_cons in F2 as [H2 F2]. injection E as Eg E. f_equal; [by apply hex_group_inj|by apply IH].
Qed.

Lemma gap_empty l r : ¬ Forall (λ t, t ≠ "") (gap l r).
Proof. unfold gap. rewrite Forall_app, Forall_cons. tauto. Qed.

(** The tokens determine the groups. *)
Lemma tokens_inj ip1 ip2 :
  Forall is_group (groups ip1) → Forall is_group (groups ip2) →
  length (groups ip1) = length (groups ip2) → tokens ip1 = tokens ip2 → groups ip1 = groups ip2.
Proof.
  intros F1 F2 Hlen. unfold tokens.
  assert (Hok : ∀ gs, run_ok gs (longest_run 0 gs (0%nat, 0%nat))).
  { intros gs. apply (longest_run_ok [] gs). split; simpl; [lia|done]. }
  pose proof (Hok (groups ip1)) as O1. pose proof (Hok (groups ip2)) as O2.
  destruct (longest_run 0 (groups ip1) (0%nat, 0%nat)) as [i1 n1],
    (longest_run 0 (groups ip2) (0%nat, 0%nat)) as [i2 n2].
  destruct (2 <=? n1)%nat, (2 <=? n2)%nat; intros E.
  - apply gap_inj in E as [El Er]; [|apply hex_tokens..].
    apply hex_fmap_inj in El; [|by apply Forall_take..].
    apply hex_fmap_inj in Er; [|by apply Forall_drop..].
    rewrite (run_split _ _ _ O1), (run_split _ _ _ O2), El, Er.
    destruct O1 as [L1 _], O2 as [L2 _]. simpl in *.
    apply (f_equal length) in El, Er. rewrite !length_take in El. rewrite !length_drop in Er.
    by replace n1 with n2 by lia.
  - exfalso. pose proof (hex_tokens (groups ip2)) as H. rewrite <- E in H. by apply gap_empty in H.
  - exfalso. pose proof (hex_tokens (groups ip1)) as H. rewrite E in H. by apply gap_empty in H.
  - by apply hex_fmap_inj.
Qed.

(** Sixteen bytes are eight groups. *)
Lemma bytes16 (ip : list Z) : length ip = 16%nat → ∃ a b c d e f g h i j k l m n o p,
  ip = [a; b; c; d; e; f; g; h; i; j; k; l; m; n; o; p].
Proof.
  intros H. do 16 (destruct ip as [|? ip]; [discriminate H|]). destruct ip; [|discriminate H].
  by do 16 eexists.
Qed.

Lemma groups16 ip :
  length ip = 16%nat → is_bytes ip → length (groups ip) = 8%nat ∧ Forall is_group (groups ip).
Proof.
  intros (a&b&c&d&e&f&g&h&i&j&k&l&m&n&o&p&->)%bytes16. unfold is_bytes, is_byte, is_group.
  rewrite !Forall_cons. intros H. split; [done|]. cbn [groups]. rewrite !Forall_cons. split_and!; try done; lia.
Qed.

Lemma groups16_inj ip1 ip2 :
  length ip1 = 16%nat → length ip2 = 16%nat → is_bytes ip1 → is_bytes ip2 →
  groups ip1 = groups ip2 → ip1 = ip2.
Proof.
  intros (a&b&c&d&e&f&g&h&i&j&k&l&m&n&o&p&->)%bytes16 (a'&b'&c'&d'&e'&f'&g'&h'&i'&j'&k'&l'&m'&n'&o'&p'&->)%bytes16.
  unfold is_bytes, is_byte. rewrite !Forall_cons. cbn [groups]. intros H1 H2 [=]. repeat f_equal; lia.
Qed.

Lemma IPv6_String_inj ip1 ip2 :
  length ip1 = 16%nat → length ip2 = 16%nat → is_bytes ip1 → is_bytes ip2 →
  IPv6_String ip1 = IPv6_String ip2 → ip1 = ip2.
Proof.
  intros L1 L2 B1 B2. rewrite !IPv6_String_tokens. intros E.
  destruct (groups16 ip1 L1 B1) as [G1 F1], (groups16 ip2 L2 B2) as [G2 F2].
  assert (T1 : (2 ≤ length (tokens ip1))%nat) by (apply tokens_length; lia).
  assert (T2 : (2 ≤ length (tokens ip2))%nat) by (apply tokens_length; lia).
  apply groups16_inj; [done..|]. apply tokens_inj; [done..|congruence|].
  apply join_inj; [by intros H; rewrite H in T1; simpl in T1; lia
                  |by intros H; rewrite H in T2; simpl in T2; lia
                  |by apply tokens_no_char..|done].
Qed.

(** ** Endpoints *)

(** The addresses of UDP sockets: four or sixteen bytes, a port, and a zone
    for IPv6 only. *)
Definition endpoint (a : Addr) : Prop :=
  match a with
  | UDPAddr ip port zone =>
    is_bytes ip ∧ (length ip = 4%nat ∨ length ip = 16%nat) ∧ 0 ≤ port < 65536 ∧
    (is_Some (IP_To4 ip) → zone = "")
  | OtherAddr _ => False
  end.

(** The endpoint an address denotes: an IPv4-mapped address is the IPv4
    address. *)
Definition denotes (a : Addr) : list Z * Z * string :=
  match a with
  | UDPAddr ip port zone => (default ip (IP_To4 ip), port, zone)
  | OtherAddr str => ([], 0, str)
  end.

Lemma To4_shape ip v4 : IP_To4 ip = Some v4 → length v4 = 4%nat ∧ (is_bytes ip → is_bytes v4).
Proof.
  unfold IP_To4. destruct (Nat.eqb_spec (length ip) 4); [by intros [= <-]|].
  destruct (Nat.eqb_spec (length ip) 16); [|done]. simpl. case_match; [|done]. intros [= <-].
  split; [rewrite length_drop; lia|]. apply Forall_drop.
Qed.

Lemma To4_id ip : length ip = 4%nat → IP_To4 ip = Some ip.
Proof. intros H. unfold IP_To4. by rewrite H. Qed.

Lemma To4_None ip : length ip = 4%nat ∨ length ip = 16%nat → IP_To4 ip = None → length ip = 16%nat.
Proof. intros [H|H]; [|done]. by rewrite To4_id. Qed.

(** The text of an IPv4 endpoint, in either form. *)
Lemma text_v4 ip v4 port :
  IP_To4 ip = Some v4 → Addr_String (UDPAddr ip port "") = Addr_String (UDPAddr v4 port "").
Proof.
  intros H. destruct (To4_shape ip v4 H) as [L _]. unfold Addr_String, IP_String.
  by rewrite H, (To4_id v4 L).
Qed.

(** The text of an IPv6 endpoint. *)
Definition zoned (host zone : string) : string :=
  if bool_decide (zone = "") then host else (host +:+ String "%" zone)%string.

Lemma text_v6 ip port zone :
  is_bytes ip → length ip = 16%nat → IP_To4 ip = None →
  Addr_String (UDPAddr ip port zone) =
  String "[" (zoned (IPv6_String ip) zone +:+ String "]" (String ":" (itoa port))).
Proof.
  intros B L H. destruct (groups16 ip L B) as [G _]. cbn [Addr_String]. unfold IP_String. rewrite H.
  destruct ip as [|b ip]; [done|]. rewrite L. cbn [Nat.eqb].
  change (if bool_decide (zone = "") then IPv6_String (b :: ip)
          else (IPv6_String (b :: ip) +:+ "%" +:+ zone)%string)
    with (zoned (IPv6_String (b :: ip)) zone).
  assert (Hc : ¬ no_char ":"%char (zoned (IPv6_String (b :: ip)) zone)).
  { assert (¬ no_char ":"%char (IPv6_String (b :: ip)))
      by (rewrite IPv6_String_tokens; apply join_colon_char, tokens_length; lia).
    unfold zoned. case_bool_decide; [done|]. rewrite no_char_app. tauto. }
  unfold JoinHostPort. destruct (strings_Contains _ ":") eqn:E; [done|].
  by apply Contains_colon_iff in E.
Qed.

Lemma itoa_no_char sep port : digit_char sep = false → 0 ≤ port → no_char sep (itoa port).
Proof. intros Hs Hp. apply digits_no_sep; [done|by apply itoa_digits]. Qed.

Lemma IPv6_no_percent ip : no_char "%"%char (IPv6_String ip).
Proof.
  rewrite IPv6_String_tokens. pose proof (tokens_no_char "%"%char ip eq_refl) as F.
  induction F as [|t ts Ht _ IH]; [done|]. destruct ts as [|u ts]; [done|].
  rewrite join_cons by done. apply no_char_app. by split.
Qed.

Lemma zoned_inj ip1 ip2 z1 z2 :
  zoned (IPv6_String ip1) z1 = zoned (IPv6_String ip2) z2 →
  IPv6_String ip1 = IPv6_String ip2 ∧ z1 = z2.
Proof.
  pose proof (IPv6_no_percent ip1) as H1. pose proof (IPv6_no_percent ip2) as H2.
  unfold zoned. repeat case_bool_decide; simplify_eq; intros E.
  - done.
  - rewrite E in H1. apply no_char_app in H1 as [_ H1]. by apply no_char_sep in H1.
  - rewrite <- E in H2. apply no_char_app in H2 as [_ H2]. by apply no_char_sep in H2.
  - by apply str_split_unique in E.
Qed.

Lemma text_v4_no_bracket v4 port :
  length v4 = 4%nat → is_bytes v4 → 0 ≤ port → no_char "["%char (Addr_String (UDPAddr v4 port "")).
Proof.
  intros L B Hp. destruct v4 as [|a [|b [|c [|d [|]]]]]; try discriminate.
  rewrite Addr_String_v4 by done. unfold is_bytes, is_byte in B. rewrite !Forall_cons in B.
  destruct B as (?&?&?&?&_). unfold v4_text.
  rewrite !no_char_app. split_and!; try done; try (apply itoa_no_char; [done|lia]).
Qed.

(** Two UDP endpoints have the same text exactly when they are the same
    endpoint. *)
Lemma Addr_String_endpoint a b :
  endpoint a → endpoint b → Addr_String a = Addr_String b ↔ denotes a = denotes b.
Proof.
  destruct a as [ip1 p1 z1|], b as [ip2 p2 z2|]; simpl; try done.
  intros (B1 & L1 & P1 & Z1) (B2 & L2 & P2 & Z2).
  destruct (IP_To4 ip1) as [v1|] eqn:T1, (IP_To4 ip2) as [v2|] eqn:T2; simpl.
  - rewrite (Z1 (ex_intro _ _ eq_refl)), (Z2 (ex_intro _ _ eq_refl)).
    destruct (To4_shape _ _ T1) as [S1 S1'], (To4_shape _ _ T2) as [S2 S2'].
    change (Addr_String (UDPAddr ip1 p1 "") = Addr_String (UDPAddr ip2 p2 "") ↔ (v1, p1, "") = (v2, p2, "")).
    rewrite (text_v4 _ _ _ T1), (text_v4 _ _ _ T2). split; [|by intros [= -> ->]].
    intros E. destruct (Addr_String_v4_inj v1 v2 p1 p2) as [-> ->]; [split; auto|split; auto|done|done].
  - rewrite (Z1 (ex_intro _ _ eq_refl)). destruct (To4_shape _ _ T1) as [S1 S1'].
    pose proof (To4_None _ L2 T2) as L2'. split; [|intros [= -> _ _]; congruence].
    intros E. exfalso. change (Addr_String (UDPAddr ip1 p1 "") = Addr_String (UDPAddr ip2 p2 z2)) in E.
    rewrite (text_v4 _ _ _ T1), (text_v6 ip2 p2 z2 B2 L2' T2) in E.
    pose proof (text_v4_no_bracket v1 p1 S1 (S1' B1) ltac:(lia)) as H. rewrite E in H.
    by apply no_char_sep in H.
  - rewrite (Z2 (ex_intro _ _ eq_refl)). destruct (To4_shape _ _ T2) as [S2 S2'].
    pose proof (To4_None _ L1 T1) as L1'. split; [|intros [= <- _ _]; congruence].
    intros E. exfalso. change (Addr_String (UDPAddr ip1 p1 z1) = Addr_String (UDPAddr ip2 p2 "")) in E.
    rewrite (text_v4 _ _ _ T2), (text_v6 ip1 p1 z1 B1 L1' T1) in E.
    pose proof (text_v4_no_bracket v2 p2 S2 (S2' B2) ltac:(lia)) as H. rewrite <- E in H.
    by apply no_char_sep in H.
  - pose proof (To4_None _ L1 T1) as L1'. pose proof (To4_None _ L2 T2) as L2'.
    change (Addr_String (UDPAddr ip1 p1 z1) = Addr_String (UDPAddr ip2 p2 z2) ↔ (ip1, p1, z1) = (ip2, p2, z2)).
    split; [|by intros [= -> -> ->]].
    rewrite (text_v6 ip1 p1 z1 B1 L1' T1), (text_v6 ip2 p2 z2 B2 L2' T2). intros [= E].
    assert (Hp : ∀ p, 0 ≤ p → no_char "]"%char (String ":" (itoa p)))
      by (intros p Hp; apply (no_char_app _ ":"); split; [done|by apply itoa_no_char]).
    apply str_split_last in E as [E Ep]; [|apply Hp; lia..].
    apply zoned_inj in E as [E ->]. apply IPv6_String_inj in E as ->; [|done..].
    injection Ep as Ep. apply (inj pretty) in Ep. by subst.
Qed.
