(* ===== verification/Types.v ===== *)
(** * Package [types]: ECN marks, capabilities, errors, connection interfaces

    Models [src/types/ecn.go], [raw_conn.go], [errors.go] and
    [interface.go].  [ECN] and [ConnCapabilities] keep their Go
    representation (an unsigned byte, an int used as a bit set), so values
    outside the declared constants are part of the model. *)

From S2P Require Import Prelude GoLib.

(** ** ecn.go *)

Definition ECN : Type := Z.

Definition ECNUnsupported : ECN := 0.
Definition ECNNon : ECN := 1.
Definition ECT1 : ECN := 2.
Definition ECT0 : ECN := 3.
Definition ECNCE : ECN := 4.

Definition ParseECNHeaderBits (bits : Z) : outcome ECN :=
  if bits =? 0 then Ret ECNNon
  else if bits =? 2 then Ret ECT0
  else if bits =? 1 then Ret ECT1
  else if bits =? 3 then Ret ECNCE
  else Panic "invalid ECN bits".

Definition ToHeaderBits (e : ECN) : outcome Z :=
  if e =? ECNNon then Ret 0
  else if e =? ECT0 then Ret 2
  else if e =? ECT1 then Ret 1
  else if e =? ECNCE then Ret 3
  else Panic "ECN unsupported".

Definition ECN_String (e : ECN) : string :=
  if e =? ECNUnsupported then "ECN unsupported"
  else if e =? ECNNon then "Not-ECT"
  else if e =? ECT1 then "ECT(1)"
  else if e =? ECT0 then "ECT(0)"
  else if e =? ECNCE then "CE"
  else ("invalid ECN value: " +:+ itoa e)%string.

(** The marks that have header bits: all but [ECNUnsupported]. *)
Definition ecn_marked (e : ECN) : Prop := 1 ≤ e ≤ 4.
#[export] Instance ecn_marked_dec e : Decision (ecn_marked e).
Proof. unfold ecn_marked. apply _. Defined.

Lemma ecn_marked_cases e :
  ecn_marked e ↔ e = ECNNon ∨ e = ECT1 ∨ e = ECT0 ∨ e = ECNCE.
Proof. unfold ecn_marked, ECNNon, ECT1, ECT0, ECNCE. lia. Qed.

Lemma ToHeaderBits_marked e :
  ecn_marked e → ∃ bits, ToHeaderBits e = Ret bits ∧ 0 ≤ bits < 4 ∧
                         ParseECNHeaderBits bits = Ret e.
Proof.
  intros [->|[->|[->| ->]]]%ecn_marked_cases; eexists; (split; [reflexivity|]);
    split; (lia || reflexivity).
Qed.

Lemma ToHeaderBits_unmarked e : ¬ ecn_marked e → ToHeaderBits e = Panic "ECN unsupported".
Proof.
  rewrite ecn_marked_cases. unfold ToHeaderBits. intros H.
  repeat (case_match; [exfalso; apply H; rewrite !Z.eqb_eq in *; tauto|]). done.
Qed.

Lemma ParseECNHeaderBits_bits bits :
  0 ≤ bits < 4 →
  ∃ e, ParseECNHeaderBits bits = Ret e ∧ ecn_marked e ∧ ToHeaderBits e = Ret bits.
Proof.
  intros H. assert (bits = 0 ∨ bits = 1 ∨ bits = 2 ∨ bits = 3) as [->|[->|[->| ->]]] by lia;
    eexists; (split; [reflexivity|]); unfold ecn_marked; cbv; (split; [split; congruence|reflexivity]).
Qed.

Lemma ParseECNHeaderBits_panics bits :
  bits < 0 ∨ 4 ≤ bits → ParseECNHeaderBits bits = Panic "invalid ECN bits".
Proof. intros H. unfold ParseECNHeaderBits. repeat (case_match; [lia|]). done. Qed.

(** The mask of the callers keeps the two low bits. *)
Lemma land_3_range b : 0 ≤ Z.land b 3 < 4.
Proof.
  change 3 with (Z.ones 2). rewrite Z.land_ones by lia. apply Z.mod_pos_bound. lia.
Qed.

Lemma land_3_small b : 0 ≤ b < 4 → Z.land b 3 = b.
Proof. intros H. change 3 with (Z.ones 2). rewrite Z.land_ones by lia. apply Z.mod_small. lia. Qed.

Lemma ToHeaderBits_inj e1 e2 bits :
  ToHeaderBits e1 = Ret bits → ToHeaderBits e2 = Ret bits → e1 = e2.
Proof.
  intros H1 H2.
  assert (∀ e, ToHeaderBits e = Ret bits → ParseECNHeaderBits bits = Ret e) as Hp.
  { intros e He. destruct (decide (ecn_marked e)) as [Hm|Hm].
    - destruct (ToHeaderBits_marked e Hm) as (b & Hb & _ & ?). congruence.
    - rewrite ToHeaderBits_unmarked in He; done. }
  apply Hp in H1, H2. congruence.
Qed.

(** ** raw_conn.go: capabilities *)

Definition ConnCapabilities : Type := Z.

Definition ConnCapabilityDontFragment : ConnCapabilities := Z.shiftl 1 0.
Definition ConnCapabilityGSO : ConnCapabilities := Z.shiftl 1 1.
Definition ConnCapabilityECN : ConnCapabilities := Z.shiftl 1 2.

Definition cap_DF (c : ConnCapabilities) : bool :=
  negb (Z.land c ConnCapabilityDontFragment =? 0).
Definition cap_GSO (c : ConnCapabilities) : bool :=
  negb (Z.land c ConnCapabilityGSO =? 0).
Definition cap_ECN (c : ConnCapabilities) : bool :=
  negb (Z.land c ConnCapabilityECN =? 0).

Definition NewConnCapabilities (df gso ecn : bool) : ConnCapabilities :=
  let val := 0 in
  let val := if df then Z.lor val ConnCapabilityDontFragment else val in
  let val := if gso then Z.lor val ConnCapabilityGSO else val in
  if ecn then Z.lor val ConnCapabilityECN else val.

(** ** errors.go *)

Definition ErrUnknownNetwork : error := ErrText "udp: unknown network".
Definition ErrMissingAddr : error := ErrText "udp: missing address".
Definition ErrAlreadyInUse : error := ErrText "udp: already in use".
Definition ErrUnexpectedNil : error := ErrText "udp: unexpected nil".
Definition ErrClosedSuperConn : error := ErrText "udp: supConn closed".
Definition ErrListenQueueExceeded : error := ErrText "udp: listen queue exceeded".

(** ** raw_conn.go: the interface of a raw connection

    A read fills the caller's slices: the result carries their new
    contents next to the returned counts.  The operations of an
    implementation act on a world [W]. *)

Record ReadResult : Type := MkRead {
  rr_b : list Z;  rr_oob : list Z;
  rr_n : nat;     rr_oobn : nat;
  rr_ecn : ECN;   rr_addr : option Addr;
  rr_err : option error
}.

Record WriteResult : Type := MkWrite {
  wr_n : nat; wr_oobn : nat; wr_err : option error
}.

Record RawConn (W : Type) : Type := MkRawConn {
  rc_ReadPacket : list Z → list Z → GoM W ReadResult;
  rc_WritePacket : list Z → list Z → Z → ECN → option Addr → GoM W WriteResult;
  rc_LocalAddr : GoM W (option Addr);
  rc_RemoteAddr : GoM W (option Addr);
  rc_SetReadDeadline : Z → GoM W (option error);
  rc_Close : GoM W (option error);
  rc_Capabilities : ConnCapabilities
}.
Arguments MkRawConn {W} _ _ _ _ _ _ _.
Arguments rc_ReadPacket {W} _ _ _.
Arguments rc_WritePacket {W} _ _ _ _ _ _.
Arguments rc_LocalAddr {W} _.
Arguments rc_RemoteAddr {W} _.
Arguments rc_SetReadDeadline {W} _ _.
Arguments rc_Close {W} _.
Arguments rc_Capabilities {W} _.

(** ** Properties *)

(** C39: ECN marks and header bits are in bijection: every mark but
    [ECNUnsupported] survives [ToHeaderBits] then [ParseECNHeaderBits], every
    two-bit value survives the other way round, and both functions panic
    exactly outside these ranges. *)
Theorem ecn_bits_bijection :
  (∀ e, (ToHeaderBits e ≫= ParseECNHeaderBits) =
        if bool_decide (ecn_marked e) then Ret e else Panic "ECN unsupported") ∧
  (∀ bits, (ParseECNHeaderBits bits ≫= ToHeaderBits) =
        if (0 <=? bits) && (bits <? 4) then Ret bits else Panic "invalid ECN bits").
Proof.
  split.
  - intros e. case_bool_decide as H.
    + by destruct (ToHeaderBits_marked e H) as (bits & -> & _ & ?).
    + by rewrite ToHeaderBits_unmarked.
  - intros bits. destruct ((0 <=? bits) && (bits <? 4)) eqn:H.
    + destruct (ParseECNHeaderBits_bits bits) as (e & -> & _ & ?); [lia|done].
    + by rewrite ParseECNHeaderBits_panics by lia.
Qed.

(** The capability set returns exactly the three flags it was built from,
    and has no other bit. *)
Lemma capabilities_roundtrip df gso ecn :
  let c := NewConnCapabilities df gso ecn in
  cap_DF c = df ∧ cap_GSO c = gso ∧ cap_ECN c = ecn ∧ 0 ≤ c < 8.
Proof. destruct df, gso, ecn; vm_compute; repeat split; congruence. Qed.
