(* ===== verification/Interfaces.v ===== *)
(** * Third-party components the program calls, as interfaces

    The buffer pool ([github.com/valyala/bytebufferpool]) and the ring queue
    ([github.com/hadi77ir/go-ringqueue]).  Their code is not part of the
    repository: each is a class of operations with a class of laws that
    state the documented behaviour the program relies on. *)

From S2P Require Import Prelude GoLib.

(** ** Buffer pools

    [Get] "returns an empty byte buffer from the pool", [Put] "returns byte
    buffer to the pool".  Buffers are objects of a table [gmap nat V]; [K] is
    the state of the pools.  The program has two pools at each place: one for
    packet data, one for out-of-band data. *)

Inductive PoolId := bufferPool | oobBufferPool.
#[export] Instance PoolId_eq_dec : EqDecision PoolId.
Proof. solve_decision. Defined.

Class BufferPool (V K : Type) : Type := {
  pool_Get : PoolId → gmap nat V → K → nat * gmap nat V * K;
  pool_Put : PoolId → nat → gmap nat V → K → gmap nat V * K
}.

(** A buffer handed out is empty, and is either one that lay idle in the pool
    or a new object; [Put] makes idle at most the buffer it is given, which
    stays an object; nothing else changes. *)
Class BufferPoolLaws (V K : Type) (vlen : V → nat) `{!BufferPool V K} : Type := {
  pool_idle : PoolId → K → gset nat;
  pool_Get_empty p t k b t' k' :
    pool_Get p t k = (b, t', k') → ∃ v, t' = <[b := v]> t ∧ vlen v = 0%nat;
  pool_Get_idle p t k b t' k' :
    pool_Get p t k = (b, t', k') →
    (b ∈ pool_idle p k ∨ t !! b = None) ∧ pool_idle p k' ⊆ pool_idle p k ∖ {[b]};
  pool_Get_other p q t k b t' k' :
    pool_Get p t k = (b, t', k') → q ≠ p → pool_idle q k' = pool_idle q k;
  pool_Put_idle p b t k t' k' :
    pool_Put p b t k = (t', k') → pool_idle p k' ⊆ {[b]} ∪ pool_idle p k;
  pool_Put_other p q b t k t' k' :
    pool_Put p b t k = (t', k') → q ≠ p → pool_idle q k' = pool_idle q k;
  pool_Put_table p b t k t' k' :
    pool_Put p b t k = (t', k') →
    dom t' = dom t ∧ ∀ j, j ≠ b → t' !! j = t !! j
}.

(** A pool that keeps what it is given and reuses the smallest, for the
    executable runs of the development. *)
Record stack_pool : Type := MkStack { sp_buf : list nat; sp_oob : list nat }.

Definition sp_get (p : PoolId) (k : stack_pool) : list nat :=
  match p with bufferPool => sp_buf k | oobBufferPool => sp_oob k end.
Definition sp_set (p : PoolId) (l : list nat) (k : stack_pool) : stack_pool :=
  match p with
  | bufferPool => MkStack l (sp_oob k)
  | oobBufferPool => MkStack (sp_buf k) l
  end.

#[export] Instance stack_pool_ops {V} (vnil : V) : BufferPool V stack_pool := {|
  pool_Get p t k :=
    match sp_get p k with
    | b :: l => (b, <[b := vnil]> t, sp_set p (filter (λ j, j ≠ b) l) k)
    | [] => let b := fresh (dom t) in (b, <[b := vnil]> t, k)
    end;
  pool_Put p b t k :=
    (match t !! b with Some _ => <[b := vnil]> t | None => t end, sp_set p (b :: sp_get p k) k)
|}.

Lemma sp_get_set p q l k : sp_get q (sp_set p l k) = if decide (q = p) then l else sp_get q k.
Proof. by destruct p, q. Qed.

#[export] Instance stack_pool_laws {V} (vnil : V) (vlen : V → nat) :
  vlen vnil = 0%nat → @BufferPoolLaws V stack_pool vlen (stack_pool_ops vnil).
Proof.
  intros Hnil.
  refine {| pool_idle p k := list_to_set (sp_get p k) |}; simpl.
  - intros p t k b t' k'. destruct (sp_get p k); intros [= <- <- <-]; eauto.
  - intros p t k b t' k' E. destruct (sp_get p k) as [|c l] eqn:El; simplify_eq.
    + split; [right; apply not_elem_of_dom, is_fresh|]. rewrite El. set_solver.
    + rewrite sp_get_set, decide_True by done. split; [left; set_solver|].
      intros x. rewrite !elem_of_list_to_set, list_elem_of_filter. set_solver.
  - intros p q t k b t' k' E Hne.
    destruct (sp_get p k) as [|c l]; simplify_eq; [done|].
    by rewrite sp_get_set, decide_False.
  - intros p b t k t' k' [= <- <-]. rewrite sp_get_set, decide_True by done. set_solver.
  - intros p q b t k t' k' [= <- <-] Hne. by rewrite sp_get_set, decide_False.
  - intros p b t k t' k' [= <- <-]. destruct (t !! b) eqn:Eb; [|done].
    split; [|intros j Hj; by rewrite lookup_insert_ne].
    rewrite dom_insert_L. apply elem_of_dom_2 in Eb. set_solver.
Defined.

(** ** Ring queues

    Created by the program with [WhenFullError], [WhenEmptyBlock] and a
    callback for the items left at [Close].  [Pop] takes the current time,
    for its deadline; [None] means that it blocks.  [Close] returns the items
    passed to the callback. *)

Class RingQueue (Q A : Type) : Type := {
  rq_new : nat → Q;
  rq_Push : A → Q → option error * Q;
  rq_Pop : Z → Q → option ((A + error) * Q);
  rq_Close : Q → list A * option error * Q;
  rq_SetPopDeadline : Z → Q → option error * Q
}.

(** First in, first out; a failed push changes nothing; a push succeeds exactly
    on an open queue below its capacity; [Close] empties the queue, after
    which [Pop] does not block. *)
Class RingQueueLaws (Q A : Type) `{!RingQueue Q A} : Type := {
  rq_items : Q → list A;
  rq_cap : Q → nat;
  rq_open : Q → bool;
  rq_new_items n : rq_items (rq_new n) = [] ∧ rq_cap (rq_new n) = n ∧ rq_open (rq_new n) = true;
  rq_Push_spec x q e q' :
    rq_Push x q = (e, q') →
    rq_cap q' = rq_cap q ∧ rq_open q' = rq_open q ∧
    match e with
    | None => rq_items q' = rq_items q ++ [x]
    | Some _ => rq_items q' = rq_items q
    end;
  rq_Push_room x q :
    rq_open q = true → (length (rq_items q) < rq_cap q)%nat → (rq_Push x q).1 = None;
  rq_Push_full x q :
    (rq_cap q ≤ length (rq_items q))%nat → (rq_Push x q).1 ≠ None;
  rq_Push_closed x q : rq_open q = false → (rq_Push x q).1 ≠ None;
  rq_Pop_spec now q r q' :
    rq_Pop now q = Some (r, q') →
    rq_cap q' = rq_cap q ∧ rq_open q' = rq_open q ∧
    match r with
    | inl x => rq_items q = x :: rq_items q'
    | inr _ => rq_items q' = rq_items q
    end;
  rq_Pop_closed now q :
    rq_open q = false → rq_items q = [] → ∃ e q', rq_Pop now q = Some (inr e, q');
  rq_Close_spec q xs e q' :
    rq_Close q = (xs, e, q') →
    xs = rq_items q ∧ rq_items q' = [] ∧ rq_cap q' = rq_cap q ∧ rq_open q' = false;
  rq_SetPopDeadline_spec t q e q' :
    rq_SetPopDeadline t q = (e, q') →
    rq_items q' = rq_items q ∧ rq_cap q' = rq_cap q ∧ rq_open q' = rq_open q
}.

(** A list-backed queue with a pop deadline (0 is "none"). *)
Record list_queue (A : Type) : Type := MkLQ {
  lq_items : list A; lq_cap : nat; lq_open : bool; lq_deadline : Z
}.
Arguments MkLQ {A} _ _ _ _.
Arguments lq_items {A} _.
Arguments lq_cap {A} _.
Arguments lq_open {A} _.
Arguments lq_deadline {A} _.

Definition ErrQueueFull : error := ErrText "queue is full".
Definition ErrQueueClosed : error := ErrText "queue is closed".

#[export] Instance list_queue_ops {A} : RingQueue (list_queue A) A := {|
  rq_new n := MkLQ [] n true 0;
  rq_Push x q :=
    if (lq_cap q <=? length (lq_items q))%nat then (Some ErrQueueFull, q)
    else if lq_open q
    then (None, MkLQ (lq_items q ++ [x]) (lq_cap q) (lq_open q) (lq_deadline q))
    else (Some ErrQueueClosed, q);
  rq_Pop now q :=
    match lq_items q with
    | x :: l => Some (inl x, MkLQ l (lq_cap q) (lq_open q) (lq_deadline q))
    | [] =>
      if lq_open q then
        if (0 <? lq_deadline q) && (lq_deadline q <=? now)
        then Some (inr context_DeadlineExceeded, q) else None
      else Some (inr ErrQueueClosed, q)
    end;
  rq_Close q := (lq_items q, None, MkLQ [] (lq_cap q) false (lq_deadline q));
  rq_SetPopDeadline t q := (None, MkLQ (lq_items q) (lq_cap q) (lq_open q) t)
|}.

#[export] Instance list_queue_laws {A} : RingQueueLaws (list_queue A) A.
Proof.
  refine {| rq_items := lq_items; rq_cap := lq_cap; rq_open := lq_open |}; simpl.
  - done.
  - intros x q e q' E. repeat case_match; by simplify_eq/=.
  - intros x q -> H. case_match; [|done]. rewrite Nat.leb_le in *. lia.
  - intros x q H. case_match; [done|]. rewrite Nat.leb_gt in *. lia.
  - intros x q ->. by case_match.
  - intros now q r q' E. repeat case_match; by simplify_eq.
  - intros now q -> ->. eauto.
  - intros q xs e q' [= <- <- <-]. done.
  - intros t q e q' [= <- <-]. done.
Defined.
