(* ===== verification/Ownership.v ===== *)
(** * Ownership of pooled buffers

    Who may use a buffer of a pool: a buffer is in use by exactly one owner
    or lies idle in one pool.  The discipline is stated for any client of the
    pool interface, and the pool's laws keep it. *)

From S2P Require Import Prelude GoLib Interfaces.

Section owned.
Context {V K : Type} {vlen : V → nat} `{!BufferPool V K} `{!BufferPoolLaws V K vlen}.

(** [L] lists the buffers in use. *)
Record owned (L : list nat) (t : gmap nat V) (k : K) : Prop := {
  ow_nodup : NoDup L;
  ow_dom : ∀ b, b ∈ L → is_Some (t !! b);
  ow_idle : ∀ p b, b ∈ (pool_idle p k) → (b ∉ L) ∧ is_Some (t !! b);
  ow_pools : (pool_idle bufferPool k) ## (pool_idle oobBufferPool k)
}.

Lemma ow_disjoint L t k p q b :
  owned L t k → p ≠ q → b ∈ pool_idle p k → b ∈ pool_idle q k → False.
Proof. intros O Hne H1 H2. pose proof (ow_pools _ _ _ O). destruct p, q; set_solver. Qed.

Lemma owned_submseteq L L' t k : owned L t k → L' ⊆+ L → owned L' t k.
Proof.
  intros O H. assert (Hin : ∀ b, b ∈ L' → b ∈ L) by (intros b Hb; by eapply elem_of_submseteq).
  constructor.
  - apply submseteq_Permutation in H as [L2 HL]. pose proof (ow_nodup _ _ _ O) as Hn.
    rewrite HL in Hn. by apply NoDup_app in Hn as [? _].
  - intros b Hb. by apply O, Hin.
  - intros p b Hb. destruct (ow_idle _ _ _ O p b Hb). split; [|done]. eauto.
  - apply O.
Qed.

Lemma owned_perm L L' t k : owned L t k → L' ≡ₚ L → owned L' t k.
Proof. intros O H. apply (owned_submseteq L); [done|]. by rewrite H. Qed.

Lemma owned_write L t k b v : owned L t k → owned L (<[b := v]> t) k.
Proof.
  intros O. constructor; [apply O| | |apply O].
  - intros j Hj. apply lookup_insert_is_Some'. right. by apply O.
  - intros p j Hj. destruct (ow_idle _ _ _ O p j Hj). split; [done|].
    apply lookup_insert_is_Some'. by right.
Qed.

Lemma owned_Get L t k p b t' k' :
  owned L t k → pool_Get p t k = (b, t', k') →
  owned (b :: L) t' k' ∧ ∀ j, j ∈ L → t' !! j = t !! j.
Proof.
  intros O E.
  destruct (pool_Get_empty _ _ _ _ _ _ E) as (v & -> & _).
  destruct (pool_Get_idle _ _ _ _ _ _ E) as [Hb Hsub].
  assert (Hnew : b ∉ L).
  { intros HL. destruct Hb as [Hb|Hb]; [by destruct (ow_idle _ _ _ O p b Hb)|].
    destruct (ow_dom _ _ _ O b HL). congruence. }
  assert (Hid : ∀ q j, j ∈ pool_idle q k' → j ∈ pool_idle q k ∧ j ≠ b).
  { intros q j Hj. destruct (decide (q = p)) as [->|Hne]; [set_solver|].
    rewrite (pool_Get_other _ _ _ _ _ _ _ E Hne) in Hj. split; [done|]. intros ->.
    destruct Hb as [Hb|Hb]; [by eapply (ow_disjoint _ _ _ q p)|].
    destruct (ow_idle _ _ _ O q b Hj) as [_ [? ?]]. congruence. }
  split; [|intros j Hj; apply lookup_insert_ne; congruence].
  constructor.
  - constructor; [done|apply O].
  - intros j [->|Hj]%elem_of_cons; apply lookup_insert_is_Some'; [by left|right; by apply O].
  - intros q j Hj. destruct (Hid q j Hj) as [Hj' Hne]. destruct (ow_idle _ _ _ O q j Hj').
    split; [set_solver|]. apply lookup_insert_is_Some'. by right.
  - intros j H1 H2. apply Hid in H1 as [H1 _], H2 as [H2 _]. by apply (ow_pools _ _ _ O j).
Qed.

Lemma owned_Put L t k p b t' k' :
  owned (b :: L) t k → pool_Put p b t k = (t', k') →
  owned L t' k' ∧ ∀ j, j ∈ L → t' !! j = t !! j.
Proof.
  intros O E. destruct (pool_Put_table _ _ _ _ _ _ E) as [Hdom Hsame].
  assert (HbL : b ∉ L) by (pose proof (ow_nodup _ _ _ O) as H; by inversion H).
  assert (Hb : b ∈ b :: L) by left.
  assert (Hold : ∀ q, b ∉ pool_idle q k)
    by (intros q Hq; by destruct (ow_idle _ _ _ O q b Hq)).
  assert (Hid : ∀ q j, j ∈ pool_idle q k' → (q = p ∧ j = b) ∨ (j ≠ b ∧ j ∈ pool_idle q k)).
  { intros q j Hj. destruct (decide (q = p)) as [->|Hne].
    - apply (pool_Put_idle _ _ _ _ _ _ E) in Hj. set_solver.
    - rewrite (pool_Put_other _ _ _ _ _ _ _ E Hne) in Hj. right. split; [|done].
      intros ->. by apply (Hold q). }
  assert (Hd : ∀ j, is_Some (t !! j) → is_Some (t' !! j))
    by (intros j; rewrite <- !elem_of_dom, Hdom; done).
  split; [|intros j Hj; apply Hsame; congruence].
  constructor.
  - pose proof (ow_nodup _ _ _ O) as H. by inversion H.
  - intros j Hj. apply Hd, O. by right.
  - intros q j Hj. destruct (Hid q j Hj) as [[-> ->]|[Hne Hj']].
    + split; [done|]. by apply Hd, O.
    + destruct (ow_idle _ _ _ O q j Hj') as [Hn ?]. split; [set_solver|]. by apply Hd.
  - intros j H1 H2. destruct (Hid _ _ H1) as [[Hp ->]|[Hn1 H1']], (Hid _ _ H2) as [[Hp2 ?]|[Hn2 H2']];
      try congruence. by eapply (ow_pools _ _ _ O).
Qed.

End owned.
