(* ===== verification/GoWorld.v ===== *)
(** * The world of the raw package: log, byte heap, buffer pools

    [src/log/log.go], the shared memory behind Go slices (backing arrays,
    one-element [][]byte vectors, [*bytebufferpool.ByteBuffer] objects), and
    the interface of the third-party buffer pool.  [K] is the state of what
    lies outside the repository: the kernel, the pools, the sockets. *)

From S2P Require Import Prelude GoLib Types Interfaces.

(** ** Package log *)

(** The levels of go-logging that the program uses. *)
Inductive Level := DebugLevel | InfoLevel | WarnLevel | PanicLevel.

#[export] Instance Level_eq_dec : EqDecision Level.
Proof. solve_decision. Defined.

(** [defaultLogger] is nil or set; calls to it and lines printed are recorded. *)
Record LogState : Type := MkLog {
  defaultLogger : bool;
  lg_calls : list (Level * string);
  lg_stdout : list string
}.

(** ** Slices and the heap *)

Record Slice : Type := MkSlice {
  s_arr : nat; s_off : nat; s_len : nat; s_cap : nat
}.
#[export] Instance Slice_eq_dec : EqDecision Slice.
Proof. solve_decision. Defined.

Definition nil_slice : Slice := MkSlice 0 0 0 0.

Record Heap : Type := MkHeap {
  h_mem : gmap nat (list Z);   (* backing arrays of []byte *)
  h_vec : gmap nat Slice;      (* one-element [][]byte, by identity *)
  h_buf : gmap nat Slice       (* field B of each *ByteBuffer *)
}.

Record World (K : Type) : Type := MkWorld {
  w_log : LogState;
  w_heap : Heap;
  w_k : K
}.
Arguments MkWorld {K} _ _ _.
Arguments w_log {K} _.
Arguments w_heap {K} _.
Arguments w_k {K} _.

Definition set_log {K} (l : LogState) (w : World K) : World K := MkWorld l (w_heap w) (w_k w).
Definition set_heap {K} (h : Heap) (w : World K) : World K := MkWorld (w_log w) h (w_k w).
Definition set_k {K} (k : K) (w : World K) : World K := MkWorld (w_log w) (w_heap w) k.

(** A call into code outside the repository. *)
Definition ext {K A} (f : K → A * K) : GoM (World K) A :=
  λ w, let '(a, k) := f (w_k w) in (Ret a, set_k k w).

Section log.
Context {K : Type}.

Definition SetDefaultLogger (set : bool) : GoM (World K) unit :=
  modw (λ w, set_log (MkLog set (lg_calls (w_log w)) (lg_stdout (w_log w))) w).

Definition DefaultLogger : GoM (World K) bool :=
  λ w, (Ret (defaultLogger (w_log w)), w).

(** [Log]: the logger is told if there is one; at panic level the process
    exits with status 1, after printing when there is no logger.  The
    [panic] that follows [os.Exit] is never reached. *)
Definition Log (level : Level) (msg : string) : GoM (World K) unit :=
  w ← getw;
  let l := w_log w in
  (if defaultLogger l
   then modw (set_log (MkLog true (lg_calls l ++ [(level, msg)]) (lg_stdout l)))
   else mret ());;
  if decide (level = PanicLevel) then
    (if defaultLogger l then mret ()
     else modw (set_log (MkLog false (lg_calls l) (lg_stdout l ++ [msg]))));;
    goexit 1
  else mret ().

Definition log_entry (l : LogState) (level : Level) (msg : string) : LogState :=
  if defaultLogger l then MkLog true (lg_calls l ++ [(level, msg)]) (lg_stdout l) else l.

Lemma Log_ret level msg (w : World K) :
  level ≠ PanicLevel → Log level msg w = (Ret (), set_log (log_entry (w_log w) level msg) w).
Proof.
  intros H. unfold Log, log_entry. gosimpl. destruct w as [[[] c o] h k]; simpl;
    by rewrite decide_False.
Qed.

(** At panic level nothing after the call runs: the process has exited. *)
Lemma Log_exit msg (w : World K) :
  ∃ l, Log PanicLevel msg w = (Exit 1, set_log l w).
Proof.
  destruct w as [[[] c o] h k];
    [exists (MkLog true (c ++ [(PanicLevel, msg)]) o) | exists (MkLog false c (o ++ [msg]))];
    reflexivity.
Qed.
End log.

(** ** Memory operations *)

Definition mem_read (h : Heap) (s : Slice) : list Z :=
  take (s_len s) (drop (s_off s) (default [] (h_mem h !! s_arr s))).

(** Overwrite [data] at the start of the slice's window, clipped to it. *)
Definition mem_write (h : Heap) (s : Slice) (data : list Z) : Heap :=
  match h_mem h !! s_arr s with
  | Some a =>
    let d := take (s_len s) data in
    let a' := take (s_off s) a ++ d ++ drop (s_off s + length d) a in
    MkHeap (<[s_arr s := a']> (h_mem h)) (h_vec h) (h_buf h)
  | None => h
  end.

(** [make([]byte, n)]. *)
Definition make_bytes (n : nat) (h : Heap) : Slice * Heap :=
  let i := fresh (dom (h_mem h)) in
  (MkSlice i 0 n n, MkHeap (<[i := replicate n 0]> (h_mem h)) (h_vec h) (h_buf h)).

(** [make([][]byte, 1)], whose element is a nil slice. *)
Definition make_vec (h : Heap) : nat * Heap :=
  let i := fresh (dom (h_vec h)) in
  (i, MkHeap (h_mem h) (<[i := nil_slice]> (h_vec h)) (h_buf h)).

Definition vec_get (h : Heap) (v : nat) : Slice := default nil_slice (h_vec h !! v).
Definition vec_set (v : nat) (s : Slice) (h : Heap) : Heap :=
  MkHeap (h_mem h) (<[v := s]> (h_vec h)) (h_buf h).
Definition buf_B (h : Heap) (b : nat) : Slice := default nil_slice (h_buf h !! b).
Definition buf_set (b : nat) (s : Slice) (h : Heap) : Heap :=
  MkHeap (h_mem h) (h_vec h) (<[b := s]> (h_buf h)).

(** [s[:n]] and [s[n:]]; [None] is the runtime's bounds panic. *)
Definition slice_to (s : Slice) (n : nat) : option Slice :=
  if (n <=? s_cap s)%nat then Some (MkSlice (s_arr s) (s_off s) n (s_cap s)) else None.
Definition slice_from (s : Slice) (n : nat) : option Slice :=
  if (n <=? s_len s)%nat
  then Some (MkSlice (s_arr s) (s_off s + n) (s_len s - n) (s_cap s - n)) else None.

(** The window of a slice lies in its array. *)
Definition slice_ok (h : Heap) (s : Slice) : Prop :=
  (s_len s ≤ s_cap s)%nat ∧
  ∃ a, h_mem h !! s_arr s = Some a ∧ (s_off s + s_cap s ≤ length a)%nat.

Lemma make_bytes_spec n h s h' :
  make_bytes n h = (s, h') →
  h_mem h !! s_arr s = None ∧ slice_ok h' s ∧ s_len s = n ∧ s_off s = 0%nat ∧
  h_vec h' = h_vec h ∧ h_buf h' = h_buf h ∧
  h_mem h' = <[s_arr s := replicate n 0]> (h_mem h).
Proof.
  unfold make_bytes. intros [= <- <-]. simpl.
  split_and!; [| |done..].
  - apply not_elem_of_dom, is_fresh.
  - split; simpl; [lia|]. exists (replicate n 0).
    by rewrite lookup_insert_eq, length_replicate.
Qed.

Lemma length_mem_read h s : slice_ok h s → length (mem_read h s) = s_len s.
Proof.
  intros (Hc & a & Ha & Hl). unfold mem_read. rewrite Ha. simpl.
  rewrite length_take, length_drop. lia.
Qed.

Lemma mem_read_write h s data :
  slice_ok h s → (length data ≤ s_len s)%nat →
  take (length data) (mem_read (mem_write h s data) s) = data.
Proof.
  intros (Hc & a & Ha & Hl) Hd. unfold mem_read, mem_write. rewrite Ha. simpl.
  rewrite lookup_insert_eq. simpl. rewrite (take_ge data) by lia.
  rewrite drop_app_le by (rewrite length_take; lia).
  rewrite drop_ge by (rewrite length_take; lia).
  rewrite app_nil_l, take_take, Nat.min_l by done.
  rewrite take_app_le by done. by apply take_ge.
Qed.

(** Writing through a slice leaves other arrays alone. *)
Lemma mem_read_write_ne h s t data :
  s_arr s ≠ s_arr t → mem_read (mem_write h s data) t = mem_read h t.
Proof.
  intros Hne. unfold mem_read, mem_write.
  destruct (h_mem h !! s_arr s); [|done]. simpl. by rewrite lookup_insert_ne.
Qed.

(** ** The package's pools of [*ByteBuffer] objects *)

Section pool.
Context {K : Type} `{!BufferPool Slice K}.

Definition Get (p : PoolId) : GoM (World K) nat := λ w,
  let h := w_heap w in
  let '(b, t, k) := pool_Get p (h_buf h) (w_k w) in
  (Ret b, MkWorld (w_log w) (MkHeap (h_mem h) (h_vec h) t) k).

Definition Put (p : PoolId) (b : nat) : GoM (World K) unit := λ w,
  let h := w_heap w in
  let '(t, k) := pool_Put p b (h_buf h) (w_k w) in
  (Ret (), MkWorld (w_log w) (MkHeap (h_mem h) (h_vec h) t) k).

(** [if len(b.B) < size { b.B = make([]byte, size) }] *)
Definition ensure_len (b : nat) (size : nat) : GoM (World K) unit := λ w,
  let h := w_heap w in
  if (s_len (buf_B h b) <? size)%nat then
    let '(s, h') := make_bytes size h in (Ret (), set_heap (buf_set b s h') w)
  else (Ret (), w).
End pool.
