(* ===== verification/Cmsg.v ===== *)
(** * Socket control messages

    [appendIPv4ECNMsg], [appendIPv6ECNMsg] and the parsing loop of [ReadPacket]
    in [src/raw/sys_conn_oob.go], [AppendUDPSegmentSizeMsg] and the constants of
    the [src/raw/sys_conn_helper_*.go] files.  The layout of a control message and its parser
    belong to [golang.org/x/sys/unix]: they are a class, with the documented
    behaviour as laws and the Linux layout as an instance. *)

From S2P Require Import Prelude GoLib Types.

Inductive OS := linux | darwin | freebsd | windows | other_os.
#[export] Instance OS_eq_dec : EqDecision OS.
Proof. solve_decision. Defined.

(** ** golang.org/x/sys/unix *)

Record Cmsg : Type := MkCmsg { cm_level : Z; cm_type : Z; cm_data : list Z }.

Class UnixABI : Type := {
  IPPROTO_IP : Z; IPPROTO_IPV6 : Z; IPPROTO_UDP : Z;
  IP_TOS : Z; IP_RECVTOS : Z; IPV6_TCLASS : Z; UDP_SEGMENT : Z;
  CmsgLen : nat → nat;
  CmsgSpace : nat → nat;
  (* the bytes of a Cmsghdr *)
  cmsghdr : Z → Z → nat → list Z;
  (* the bytes of a uint16 in memory *)
  native_u16 : Z → list Z;
  ParseOneSocketControlMessage : list Z → (Cmsg * list Z) + error
}.

(** A control message in its space: header, payload, padding. *)
Definition cmsg_build `{!UnixABI} (m : Cmsg) : list Z :=
  let h := cmsghdr (cm_level m) (cm_type m) (CmsgLen (length (cm_data m))) in
  h ++ replicate (CmsgSpace 0 - length h) 0 ++ cm_data m ++
  replicate (CmsgSpace (length (cm_data m)) - CmsgSpace 0 - length (cm_data m)) 0.

(** [CmsgSpace] "returns the number of bytes an ancillary element with payload
    of the passed data length occupies"; [ParseOneSocketControlMessage]
    "parses a single socket control message from b, returning the message
    header, message data, and the remainder of b after that message". *)
Class UnixLaws `{!UnixABI} : Prop := {
  unix_levels : IPPROTO_IP ≠ IPPROTO_IPV6 ∧ IPPROTO_UDP ≠ IPPROTO_IP ∧ IPPROTO_UDP ≠ IPPROTO_IPV6;
  unix_ranges : Forall (λ z, 0 ≤ z < 2 ^ 31)
    [IPPROTO_IP; IPPROTO_IPV6; IPPROTO_UDP; IP_TOS; IP_RECVTOS; IPV6_TCLASS; UDP_SEGMENT];
  unix_hdr l t n : (length (cmsghdr l t n) ≤ CmsgSpace 0)%nat;
  unix_space n : (CmsgSpace 0 + n ≤ CmsgSpace n)%nat;
  unix_u16 z : length (native_u16 z) = 2%nat;
  unix_parse m rest :
    0 ≤ cm_level m < 2 ^ 31 → 0 ≤ cm_type m < 2 ^ 31 → Z.of_nat (length (cm_data m)) < 2 ^ 16 →
    ParseOneSocketControlMessage (cmsg_build m ++ rest) = inl (m, rest);
  unix_progress b m rest :
    ParseOneSocketControlMessage b = inl (m, rest) → (length rest < length b)%nat
}.

(** ** sys_conn_helper_*.go: constants *)

(** The type of the TOS message is a constant of the system's headers. *)
Record helper_consts : Type := MkHelper {
  hc_msgTypeIPTOS : UnixABI → Z; hc_ECNIPv4DataLen : nat; hc_batchSize : nat
}.

Definition consts_linux : helper_consts := MkHelper (@IP_TOS) 1 8.
Definition consts_darwin : helper_consts := MkHelper (@IP_RECVTOS) 4 1.
Definition consts_freebsd : helper_consts := MkHelper (@IP_RECVTOS) 1 8.
Definition consts_windows : helper_consts := MkHelper (λ _, 1) 4 32.

(** Other systems have no such file, and no code that uses the constants. *)
Definition helper (os : OS) : helper_consts :=
  match os with
  | linux => consts_linux | darwin => consts_darwin
  | windows => consts_windows | freebsd | other_os => consts_freebsd
  end.

Section consts.
Context {abi : UnixABI}.
Variable os : OS.

Definition msgTypeIPTOS : Z := hc_msgTypeIPTOS (helper os) abi.
Definition ECNIPv4DataLen : nat := hc_ECNIPv4DataLen (helper os).
Definition batchSize : nat := hc_batchSize (helper os).

(** ** sys_conn_oob.go *)

Definition ecnMask : Z := 3.
Definition oobBufferSize : nat := 128.
Definition MaxPacketBufferSize : nat := Z.to_nat 1452.

Definition index_panic : string := "runtime error: index out of range".

(** The header stored through a pointer to [b[at]], after the bounds check of
    that index; and bytes stored the same way. *)
Definition put_cmsghdr (at_ : nat) (l t : Z) (n : nat) (b : list Z) : outcome (list Z) :=
  if (at_ <? length b)%nat then Ret (list_inserts at_ (cmsghdr l t n) b) else Panic index_panic.

Definition put_bytes (at_ : nat) (bs : list Z) (b : list Z) : outcome (list Z) :=
  if (at_ <? length b)%nat then Ret (list_inserts at_ bs b) else Panic index_panic.

Definition appendIPv4ECNMsg (b : list Z) (val : ECN) : outcome (list Z) :=
  let startLen := length b in
  let b := b ++ replicate (CmsgSpace ECNIPv4DataLen) 0 in
  b ← put_cmsghdr startLen IPPROTO_IP IP_TOS (CmsgLen ECNIPv4DataLen) b;
  let offset := (startLen + CmsgSpace 0)%nat in
  bits ← ToHeaderBits val;
  put_bytes offset [bits] b.

Definition appendIPv6ECNMsg (b : list Z) (val : ECN) : outcome (list Z) :=
  let startLen := length b in
  let dataLen := 4%nat in
  let b := b ++ replicate (CmsgSpace dataLen) 0 in
  b ← put_cmsghdr startLen IPPROTO_IPV6 IPV6_TCLASS (CmsgLen dataLen) b;
  let offset := (startLen + CmsgSpace 0)%nat in
  bits ← ToHeaderBits val;
  put_bytes offset [bits] b.

(** sys_conn_helper_linux.go; nil elsewhere. *)
Definition AppendUDPSegmentSizeMsg (b : list Z) (size : Z) : outcome (list Z) :=
  match os with
  | linux =>
    let startLen := length b in
    let dataLen := 2%nat in
    let b := b ++ replicate (CmsgSpace dataLen) 0 in
    b ← put_cmsghdr startLen IPPROTO_UDP UDP_SEGMENT (CmsgLen dataLen) b;
    let offset := (startLen + CmsgSpace 0)%nat in
    put_bytes offset (native_u16 size) b
  | _ => Ret []
  end.

(** The mark a control message carries, and the mark after it. *)
Definition carries_ecn (m : Cmsg) : bool :=
  ((cm_level m =? IPPROTO_IP) && (cm_type m =? msgTypeIPTOS))
  || ((cm_level m =? IPPROTO_IPV6) && (cm_type m =? IPV6_TCLASS)).

Definition read_mark (m : Cmsg) : outcome ECN :=
  match cm_data m with
  | b0 :: _ => ParseECNHeaderBits (Z.land b0 ecnMask)
  | [] => Panic index_panic
  end.

(** One turn of the loop: the test of the IPv4 level, then of the IPv6 level. *)
Definition oob_message (m : Cmsg) (ecn : ECN) : outcome ECN :=
  ecn ← (if (cm_level m =? IPPROTO_IP) && (cm_type m =? msgTypeIPTOS) then read_mark m else Ret ecn);
  if (cm_level m =? IPPROTO_IPV6) && (cm_type m =? IPV6_TCLASS) then read_mark m else Ret ecn.

(** The loop of [ReadPacket] over the control messages; [None] is out of fuel. *)
Fixpoint oob_loop (fuel : nat) (oobData : list Z) (ecn : ECN) : option (outcome (ECN + error)) :=
  match oobData with
  | [] => Some (Ret (inl ecn))
  | _ =>
    match fuel with
    | O => None
    | S fuel =>
      match ParseOneSocketControlMessage oobData with
      | inr err => Some (Ret (inr err))
      | inl (m, remainder) =>
        match oob_message m ecn with
        | Ret ecn => oob_loop fuel remainder ecn
        | Panic w => Some (Panic w)
        | Exit c => Some (Exit c)
        end
      end
    end
  end.

Definition parse_oob (oobData : list Z) (ecn : ECN) : outcome (ECN + error) :=
  default (Panic "out of fuel") (oob_loop (length oobData) oobData ecn).

End consts.

(** ** Building and parsing *)

Section laws.
Context {abi : UnixABI} {laws : UnixLaws}.
Variable os : OS.

Lemma list_inserts_middle {A} (l1 k l2 l3 : list A) :
  length k = length l2 → list_inserts (length l1) k (l1 ++ l2 ++ l3) = l1 ++ k ++ l3.
Proof.
  revert l1 l2. induction k as [|x k IH]; intros l1 [|y l2] Hl; simplify_eq/=; [done|].
  replace (l1 ++ y :: l2 ++ l3) with ((l1 ++ [y]) ++ l2 ++ l3) by (by rewrite <- app_assoc).
  replace (S (length l1)) with (length (l1 ++ [y])) by (rewrite length_app; simpl; lia).
  rewrite IH by done. rewrite <- app_assoc. simpl. by rewrite insert_app_r_alt, Nat.sub_diag by lia.
Qed.

(** Header and first payload bytes written into fresh zeros: a message whose
    payload is these bytes, then zeros. *)
Lemma put_message l t d k (b : list Z) :
  let n := (length d + k)%nat in
  list_inserts (length b + CmsgSpace 0) d
    (list_inserts (length b) (cmsghdr l t (CmsgLen n)) (b ++ replicate (CmsgSpace n) 0))
  = b ++ cmsg_build (MkCmsg l t (d ++ replicate k 0)).
Proof.
  intros n. unfold cmsg_build. simpl. rewrite length_app, length_replicate. fold n.
  set (h := cmsghdr l t (CmsgLen n)).
  pose proof (unix_hdr l t (CmsgLen n)) as Hh. fold h in Hh. pose proof (unix_space n) as Hs.
  replace (CmsgSpace n) with
    (length h + ((CmsgSpace 0 - length h) + (length d + (k + (CmsgSpace n - CmsgSpace 0 - n)))))%nat
    at 1 by lia.
  rewrite !replicate_add. rewrite list_inserts_middle by (by rewrite length_replicate).
  rewrite (app_assoc b h), (app_assoc (b ++ h)).
  replace (length b + CmsgSpace 0)%nat with (length ((b ++ h) ++ replicate (CmsgSpace 0 - length h) 0))
    by (rewrite !length_app, length_replicate; lia).
  rewrite list_inserts_middle by (by rewrite length_replicate).
  by rewrite <- !app_assoc.
Qed.

Lemma put_message_checked l t d k (b : list Z) :
  let n := (length d + k)%nat in
  (0 < length d)%nat →
  (b1 ← put_cmsghdr (length b) l t (CmsgLen n) (b ++ replicate (CmsgSpace n) 0);
   put_bytes (length b + CmsgSpace 0) d b1) = Ret (b ++ cmsg_build (MkCmsg l t (d ++ replicate k 0))).
Proof.
  intros n Hd. pose proof (unix_space n) as Hs. unfold put_cmsghdr, put_bytes.
  assert (Hlen : length (b ++ replicate (CmsgSpace n) 0) = (length b + CmsgSpace n)%nat)
    by (by rewrite length_app, length_replicate).
  rewrite Hlen. rewrite (proj2 (Nat.ltb_lt _ _)) by lia. simpl.
  rewrite length_inserts, Hlen, (proj2 (Nat.ltb_lt _ _)) by lia.
  f_equal. apply put_message.
Qed.

(** The messages the program appends. *)
Definition ecn4_msg (bits : Z) : Cmsg := MkCmsg IPPROTO_IP IP_TOS (bits :: replicate (ECNIPv4DataLen os - 1) 0).
Definition ecn6_msg (bits : Z) : Cmsg := MkCmsg IPPROTO_IPV6 IPV6_TCLASS (bits :: replicate 3 0).
Definition gso_msg (size : Z) : Cmsg := MkCmsg IPPROTO_UDP UDP_SEGMENT (native_u16 size).

Lemma appendIPv4ECNMsg_eq b e bits :
  ToHeaderBits e = Ret bits → appendIPv4ECNMsg os b e = Ret (b ++ cmsg_build (ecn4_msg bits)).
Proof.
  intros E. unfold appendIPv4ECNMsg. rewrite E.
  pose proof (put_message_checked IPPROTO_IP IP_TOS [bits] (ECNIPv4DataLen os - 1) b) as H.
  simpl in H. replace (S (ECNIPv4DataLen os - 1)) with (ECNIPv4DataLen os) in H by (by destruct os).
  apply H. lia.
Qed.

Lemma appendIPv6ECNMsg_eq b e bits :
  ToHeaderBits e = Ret bits → appendIPv6ECNMsg b e = Ret (b ++ cmsg_build (ecn6_msg bits)).
Proof.
  intros E. unfold appendIPv6ECNMsg. rewrite E.
  apply (put_message_checked IPPROTO_IPV6 IPV6_TCLASS [bits] 3 b). simpl. lia.
Qed.

Lemma AppendUDPSegmentSizeMsg_eq b size :
  os = linux → AppendUDPSegmentSizeMsg os b size = Ret (b ++ cmsg_build (gso_msg size)).
Proof.
  intros ->. unfold AppendUDPSegmentSizeMsg, gso_msg. pose proof (unix_u16 size) as Hl.
  pose proof (put_message_checked IPPROTO_UDP UDP_SEGMENT (native_u16 size) 0 b) as H.
  rewrite Hl, app_nil_r in H. apply H. lia.
Qed.

(** ** The loop ends *)

Lemma oob_loop_enough fuel oob e : (length oob ≤ fuel)%nat → is_Some (oob_loop os fuel oob e).
Proof.
  revert oob e. induction fuel as [|fuel IH]; intros [|x oob] e Hl; simpl in *;
    [by eexists|lia|by eexists|].
  destruct (ParseOneSocketControlMessage (x :: oob)) as [[m rest]|err] eqn:E; [|by eexists].
  apply unix_progress in E. simpl in E.
  destruct (oob_message os m e); [|by eexists..]. apply IH. lia.
Qed.

Lemma oob_loop_more fuel fuel' oob e r :
  oob_loop os fuel oob e = Some r → (fuel ≤ fuel')%nat → oob_loop os fuel' oob e = Some r.
Proof.
  revert fuel' oob e. induction fuel as [|fuel IH]; intros fuel' [|x oob] e E Hl; simpl in *; try done;
    destruct fuel' as [|fuel']; try lia; simpl; try done.
  destruct (ParseOneSocketControlMessage (x :: oob)) as [[m rest]|err]; [|done].
  destruct (oob_message os m e); [|done..]. apply IH; [done|lia].
Qed.

(** What [parse_oob] computes, one message at a time. *)
Lemma parse_oob_cons oob e :
  oob ≠ [] →
  parse_oob os oob e =
  match ParseOneSocketControlMessage oob with
  | inr err => Ret (inr err)
  | inl (m, rest) => oob_message os m e ≫= parse_oob os rest
  end.
Proof.
  intros Hne. unfold parse_oob. destruct oob as [|x oob]; [done|]. cbn [length oob_loop].
  destruct (ParseOneSocketControlMessage (x :: oob)) as [[m rest]|err] eqn:E; [|done].
  apply unix_progress in E. simpl in E.
  destruct (oob_message os m e) as [e'| |]; [|done..]. cbn.
  destruct (oob_loop_enough (length rest) rest e') as [r Hr]; [done|].
  rewrite Hr. rewrite (oob_loop_more _ (length oob) _ _ _ Hr) by lia. done.
Qed.

(** ** Messages and marks *)

Fixpoint oob_messages (ms : list Cmsg) (e : ECN) : outcome ECN :=
  match ms with
  | [] => Ret e
  | m :: ms => e ← oob_message os m e; oob_messages ms e
  end.

(** Messages as the kernel and the program lay them out, with a payload. *)
Definition wf_msg (m : Cmsg) : Prop :=
  0 ≤ cm_level m < 2 ^ 31 ∧ 0 ≤ cm_type m < 2 ^ 31 ∧ 0 < Z.of_nat (length (cm_data m)) < 2 ^ 16.

Lemma gso_msg_wf size : wf_msg (gso_msg size).
Proof.
  pose proof unix_ranges as H. rewrite !Forall_cons in H. destruct H as (?&?&?&?&?&?&?&_).
  split_and!; simpl; try lia; rewrite unix_u16; lia.
Qed.

Lemma ecn4_msg_wf bits : wf_msg (ecn4_msg bits).
Proof.
  pose proof unix_ranges as H. rewrite !Forall_cons in H. destruct H as (?&?&?&?&?&?&?&_).
  split_and!; simpl; try lia. rewrite length_replicate. destruct os; simpl; lia.
Qed.

Lemma ecn6_msg_wf bits : wf_msg (ecn6_msg bits).
Proof.
  pose proof unix_ranges as H. rewrite !Forall_cons in H. destruct H as (?&?&?&?&?&?&?&_).
  split_and!; simpl; lia.
Qed.

Definition encode (ms : list Cmsg) : list Z := concat (cmsg_build <$> ms).

Lemma encode_snoc ms m : encode (ms ++ [m]) = encode ms ++ cmsg_build m.
Proof. unfold encode. rewrite fmap_app, concat_app. simpl. by rewrite app_nil_r. Qed.

Lemma cmsg_build_nonempty m : wf_msg m → cmsg_build m ≠ [].
Proof.
  intros (_ & _ & H) E. apply (f_equal length) in E. unfold cmsg_build in E.
  rewrite !length_app in E. simpl in E. lia.
Qed.

Lemma parse_oob_encode ms e :
  Forall wf_msg ms → parse_oob os (encode ms) e = (oob_messages ms e ≫= λ e, Ret (inl e)).
Proof.
  intros H. revert e. induction H as [|m ms Hm _ IH]; intros e; [done|].
  rewrite parse_oob_cons
    by (unfold encode; simpl; intros [? _]%app_nil; by apply (cmsg_build_nonempty m)).
  change (encode (m :: ms)) with (cmsg_build m ++ encode ms).
  destruct Hm as (Hl & Ht & Hd). rewrite unix_parse by (done || lia). simpl.
  destruct (oob_message os m e); [apply IH|done..].
Qed.

(** The mask makes [ParseECNHeaderBits] total. *)
Lemma read_mark_spec m :
  (cm_data m = [] ∧ read_mark m = Panic index_panic) ∨
  ∃ b0 rest e, cm_data m = b0 :: rest ∧ read_mark m = Ret e ∧ ecn_marked e ∧
               ToHeaderBits e = Ret (Z.land b0 3).
Proof.
  unfold read_mark. destruct (cm_data m) as [|b0 rest]; [by left|right].
  destruct (ParseECNHeaderBits_bits (Z.land b0 3) (land_3_range b0)) as (e & ? & ? & ?).
  by exists b0, rest, e.
Qed.

Lemma oob_message_spec m e :
  (carries_ecn os m = false ∧ oob_message os m e = Ret e) ∨
  (carries_ecn os m = true ∧ oob_message os m e = read_mark m).
Proof.
  pose proof unix_levels as (Hne & _). unfold carries_ecn, oob_message.
  destruct (Z.eqb_spec (cm_level m) IPPROTO_IP), (Z.eqb_spec (cm_level m) IPPROTO_IPV6); try congruence;
    simpl; destruct (cm_type m =? msgTypeIPTOS os), (cm_type m =? IPV6_TCLASS); simpl; auto;
    destruct (read_mark m); auto.
Qed.

Lemma oob_messages_total ms e : Forall wf_msg ms → ∃ e', oob_messages ms e = Ret e'.
Proof.
  intros H. revert e. induction H as [|m ms (_ & _ & Hd) _ IH]; intros e; [by eexists|]. simpl.
  destruct (oob_message_spec m e) as [[_ ->]|[_ ->]]; [apply IH|].
  destruct (read_mark_spec m) as [[E _]|(b0 & rest & e' & _ & -> & _)]; [|apply IH].
  rewrite E in Hd. simpl in Hd. lia.
Qed.

Lemma oob_messages_app ms1 ms2 e :
  oob_messages (ms1 ++ ms2) e = (oob_messages ms1 e ≫= oob_messages ms2).
Proof.
  revert e. induction ms1 as [|m ms IH]; intros e; [done|]. simpl.
  destruct (oob_message os m e); [apply IH|done..].
Qed.

(** The last mark wins. *)
Lemma parse_last_mark ms m b0 rest bits e :
  Forall wf_msg ms → wf_msg m → carries_ecn os m = true → cm_data m = b0 :: rest →
  Z.land b0 3 = bits → ∀ e', ToHeaderBits e' = Ret bits →
  parse_oob os (encode (ms ++ [m])) e = Ret (inl e').
Proof.
  intros Hms Hm Hc Hd <- e' He. rewrite parse_oob_encode by (apply Forall_app; split; [done|by apply Forall_singleton]).
  rewrite oob_messages_app. destruct (oob_messages_total ms e Hms) as [e1 ->]. simpl.
  destruct (oob_message_spec m e1) as [[? _]|[_ ->]]; [congruence|].
  destruct (read_mark_spec m) as [[E _]|(b0' & rest' & e2 & E & -> & _ & H2)]; [congruence|].
  rewrite Hd in E. injection E as <- <-. simpl. do 2 f_equal.
  exact (ToHeaderBits_inj _ _ _ H2 He).
Qed.

(** ** Properties *)

Lemma parse_oob_cases oob e :
  match parse_oob os oob e with
  | Ret (inl e') => e' = e ∨ ecn_marked e'
  | Ret (inr err) => ∃ b, ParseOneSocketControlMessage b = inr err
  | Panic w => w = index_panic ∧ ∃ b m rest, ParseOneSocketControlMessage b = inl (m, rest) ∧
                 carries_ecn os m = true ∧ cm_data m = []
  | Exit _ => False
  end.
Proof.
  remember (length oob) as n eqn:Hn. revert oob e Hn.
  induction n as [n IH] using lt_wf_ind; intros oob e ->.
  destruct (decide (oob = [])) as [->|Hne]; [by left|]. rewrite parse_oob_cons by done.
  destruct (ParseOneSocketControlMessage oob) as [[m rest]|err] eqn:E; [|eauto].
  destruct (oob_message_spec m e) as [[_ ->]|[Hc ->]]; simpl.
  - apply unix_progress in E. by apply (IH (length rest)).
  - destruct (read_mark_spec m) as [[Hd ->]|(b0 & r & e' & _ & -> & Hm & _)]; [split; [done|]; by exists oob, m, rest|].
    apply unix_progress in E. specialize (IH _ E rest e' eq_refl). simpl.
    destruct (parse_oob os rest e') as [[e2|]| |]; try done. right. by destruct IH as [->|].
Qed.

(** How a byte string falls into control messages: those that parse, and the
    error of the first that does not. *)
Inductive splits : list Z → list Cmsg → option error → Prop :=
| splits_nil : splits [] [] None
| splits_err b err :
    b ≠ [] → ParseOneSocketControlMessage b = inr err → splits b [] (Some err)
| splits_cons b m rest ms err :
    b ≠ [] → ParseOneSocketControlMessage b = inl (m, rest) → splits rest ms err →
    splits b (m :: ms) err.

Lemma splits_total b : ∃ ms err, splits b ms err.
Proof.
  remember (length b) as n eqn:Hn. revert b Hn. induction n as [n IH] using lt_wf_ind; intros b ->.
  destruct (decide (b = [])) as [->|Hne]; [by eexists _, _; constructor|].
  destruct (ParseOneSocketControlMessage b) as [[m rest]|err] eqn:E.
  - pose proof (unix_progress _ _ _ E) as Hl. destruct (IH _ Hl rest eq_refl) as (ms & err & H).
    exists (m :: ms), err. by eapply splits_cons.
  - exists [], (Some err). by constructor.
Qed.

Lemma splits_unique b ms err ms' err' : splits b ms err → splits b ms' err' → ms' = ms ∧ err' = err.
Proof.
  intros H. revert ms' err'. induction H as [|b err Hne E|b m rest ms err Hne E _ IH]; intros ms' err' H';
    inversion H'; simplify_eq; try done.
  - split; congruence.
  - congruence.
  - congruence.
  - assert (m0 = m ∧ rest0 = rest) as [-> ->] by (split; congruence).
    by match goal with H : splits rest _ _ |- _ => destruct (IH _ _ H) as [-> ->] end.
Qed.

(** The mark of the two low bits of a TOS or traffic-class byte (RFC 3168). *)
Definition rfc_mark (b : Z) : ECN :=
  match b mod 4 with 0 => ECNNon | 1 => ECT1 | 2 => ECT0 | _ => ECNCE end.

(** The mark after the messages [ms]: that of the last one that carries one. *)
Definition last_mark (ms : list Cmsg) (e : ECN) : ECN :=
  fold_left (λ e m, match cm_data m with
                    | b0 :: _ => if carries_ecn os m then rfc_mark b0 else e
                    | [] => e
                    end) ms e.

Definition empty_mark (m : Cmsg) : bool :=
  carries_ecn os m && match cm_data m with [] => true | _ => false end.

Lemma read_mark_rfc m b0 rest : cm_data m = b0 :: rest → read_mark m = Ret (rfc_mark b0).
Proof.
  intros H. unfold read_mark, rfc_mark. rewrite H. unfold ecnMask. change 3 with (Z.ones 2).
  rewrite Z.land_ones by lia. change (2 ^ 2) with 4.
  pose proof (Z.mod_pos_bound b0 4 ltac:(lia)).
  assert (b0 mod 4 = 0 ∨ b0 mod 4 = 1 ∨ b0 mod 4 = 2 ∨ b0 mod 4 = 3) as [->|[->|[->| ->]]] by lia; done.
Qed.

(** C17: parsing control messages, exactly.  Every byte string the kernel may
    hand over falls in one way into the control messages that parse and,
    possibly, the error of the first that does not.  The loop of [ReadPacket]
    ends on it, and: it panics with an index error exactly when one of those
    messages is a TOS or traffic-class message without payload; otherwise it
    returns the parse error, if there is one; otherwise the mark in the two low
    bits of the first payload byte of the last TOS or traffic-class message, or
    the mark it started with if there is none. *)
Theorem parse_oob_exact oob e :
  ∃ ms err, splits oob ms err ∧
    (∀ ms' err', splits oob ms' err' → ms' = ms ∧ err' = err) ∧
    parse_oob os oob e =
      if existsb empty_mark ms then Panic index_panic
      else match err with Some x => Ret (inr x) | None => Ret (inl (last_mark ms e)) end.
Proof.
  destruct (splits_total oob) as (ms & err & H). exists ms, err. split; [done|].
  split; [intros ms' err'; by apply splits_unique|].
  revert e. induction H as [|b err Hne E|b m rest ms err Hne E _ IH]; intros e; [done|..];
    rewrite parse_oob_cons, E by done; [done|]. cbn [existsb]. unfold empty_mark at 1.
  destruct (oob_message_spec m e) as [[Hc ->]|[Hc ->]]; rewrite Hc; cbn [andb].
  - cbn. rewrite IH. case_match; [done|]. case_match; [done|]. unfold last_mark. cbn.
    rewrite Hc. by destruct (cm_data m).
  - destruct (cm_data m) as [|b0 rest'] eqn:Hd; cbn [orb].
    + unfold read_mark. by rewrite Hd.
    + rewrite (read_mark_rfc m b0 rest' Hd). cbn. rewrite IH. case_match; [done|]. case_match; [done|].
      unfold last_mark. cbn. by rewrite Hd, Hc.
Qed.

(** C19: an ECN mark for an IPv6 peer survives its control message, on every
    Unix: whatever well-formed control messages precede it, the parsing loop
    of [ReadPacket] reads back the mark that was appended. *)
Theorem ecn_roundtrip_v6 ms e e0 :
  Forall wf_msg ms → ecn_marked e →
  ∃ oob, appendIPv6ECNMsg (encode ms) e = Ret oob ∧ parse_oob os oob e0 = Ret (inl e).
Proof.
  intros Hms He. destruct (ToHeaderBits_marked e He) as (bits & Hb & Hr & _).
  rewrite (appendIPv6ECNMsg_eq _ _ _ Hb), <- encode_snoc. eexists. split; [done|].
  apply (parse_last_mark _ _ bits (replicate 3 0) bits); try done.
  - apply ecn6_msg_wf.
  - unfold carries_ecn. simpl. rewrite !Z.eqb_refl. by destruct (_ && _).
  - by apply land_3_small.
Qed.

End laws.

Section linux_laws.
Context {abi : UnixABI} {laws : UnixLaws}.

(** C18: an ECN mark survives the control message.  On Linux, whatever
    well-formed control messages precede it, a mark written for an IPv4 peer
    ([WritePacket] appends the segment size first when GSO is used) is the mark
    that [ReadPacket]'s loop reads back from those bytes. *)
Theorem ecn_roundtrip_v4 ms size e e0 :
  Forall wf_msg ms → ecn_marked e →
  ∃ oob, (AppendUDPSegmentSizeMsg linux (encode ms) size ≫= λ b, appendIPv4ECNMsg linux b e) = Ret oob ∧
         parse_oob linux oob e0 = Ret (inl e).
Proof.
  intros Hms He. destruct (ToHeaderBits_marked e He) as (bits & Hb & Hr & _).
  rewrite AppendUDPSegmentSizeMsg_eq by done. rewrite <- encode_snoc. simpl.
  rewrite (appendIPv4ECNMsg_eq linux _ _ _ Hb), <- encode_snoc. eexists. split; [done|].
  apply (parse_last_mark linux _ _ bits ([]) bits); try done.
  - apply Forall_app. split; [done|]. constructor; [|done]. apply gso_msg_wf.
  - apply ecn4_msg_wf.
  - unfold carries_ecn. simpl. by rewrite !Z.eqb_refl.
  - by apply land_3_small.
Qed.

End linux_laws.
