(* ===== verification/LinuxABI.v ===== *)
(** * Control messages on 64-bit Linux

    The layout of [struct cmsghdr] on a little-endian 64-bit Linux: an 8-byte
    length, two 4-byte integers, payload padded to 8 bytes.  It satisfies the
    laws of [Cmsg], and gives executable instances of the theorems there. *)

From S2P Require Import Prelude GoLib Types Cmsg.

Definition align8 (n : nat) : nat := ((n + 7) / 8 * 8)%nat.

Definition EINVAL : error := Errno 22 "invalid argument".

Definition linux_parse (b : list Z) : (Cmsg * list Z) + error :=
  if (length b <? 16)%nat then inr EINVAL
  else
    let n := le_value (take 8 b) in
    if (n <? 16) || (Z.of_nat (length b) <? n) then inr EINVAL
    else
      inl (MkCmsg (le_value (take 4 (drop 8 b))) (le_value (take 4 (drop 12 b)))
             (take (Z.to_nat n - 16) (drop 16 b)),
           drop (align8 (Z.to_nat n)) b).

#[export] Instance linux_abi : UnixABI := {|
  IPPROTO_IP := 0; IPPROTO_IPV6 := 41; IPPROTO_UDP := 17;
  IP_TOS := 1; IP_RECVTOS := 13; IPV6_TCLASS := 67; UDP_SEGMENT := 103;
  CmsgLen n := (16 + n)%nat;
  CmsgSpace n := (16 + align8 n)%nat;
  cmsghdr l t n := le_bytes 8 (Z.of_nat n) ++ le_bytes 4 l ++ le_bytes 4 t;
  native_u16 z := le_bytes 2 z;
  ParseOneSocketControlMessage := linux_parse
|}.

Lemma align8_ge n : (n ≤ align8 n)%nat.
Proof. unfold align8. pose proof (Nat.div_mod_eq (n + 7) 8). pose proof (Nat.mod_upper_bound (n + 7) 8). lia. Qed.

Lemma align8_plus n : align8 (16 + n) = (16 + align8 n)%nat.
Proof.
  unfold align8. replace (16 + n + 7)%nat with (n + 7 + 2 * 8)%nat by lia.
  rewrite Nat.div_add by lia. lia.
Qed.

Lemma take_drop_parts {A} (l1 l2 l3 : list A) n m :
  length l1 = n → length l2 = m → take m (drop n (l1 ++ l2 ++ l3)) = l2.
Proof. intros <- <-. by rewrite drop_app_length, take_app_length. Qed.

Lemma linux_parse_parts h l t d pad rest :
  length h = 8%nat → length l = 4%nat → length t = 4%nat →
  le_value h = Z.of_nat (16 + length d) → length pad = (align8 (length d) - length d)%nat →
  linux_parse (h ++ l ++ t ++ d ++ pad ++ rest) = inl (MkCmsg (le_value l) (le_value t) d, rest).
Proof.
  intros Hh Hl Ht Hn Hp. unfold linux_parse.
  assert (Htot : length (h ++ l ++ t ++ d ++ pad ++ rest) =
    (16 + length d + length pad + length rest)%nat) by (rewrite !length_app; lia).
  rewrite Htot. rewrite (proj2 (Nat.ltb_ge _ _)) by lia.
  rewrite (take_app_length' h) by done. rewrite Hn.
  rewrite (proj2 (Z.ltb_ge _ _)), (proj2 (Z.ltb_ge _ _)) by lia. simpl orb. cbv iota.
  rewrite Nat2Z.id. do 2 f_equal; [f_equal; f_equal|].
  - by apply take_drop_parts.
  - rewrite (app_assoc h). apply take_drop_parts; [rewrite length_app; lia|done].
  - rewrite (app_assoc h), (app_assoc (h ++ l)). apply take_drop_parts; [rewrite !length_app; lia|lia].
  - rewrite align8_plus, (app_assoc h), (app_assoc (h ++ l)), (app_assoc ((h ++ l) ++ t)), (app_assoc _ pad).
    pose proof (align8_ge (length d)). apply drop_app_length'. rewrite !length_app. lia.
Qed.

#[export] Instance linux_laws : UnixLaws.
Proof.
  constructor.
  - simpl. lia.
  - repeat constructor; simpl; lia.
  - intros l t n. change (CmsgSpace 0) with 16%nat.
    change (cmsghdr l t n) with (le_bytes 8 (Z.of_nat n) ++ le_bytes 4 l ++ le_bytes 4 t).
    rewrite !length_app, !length_le_bytes. lia.
  - intros n. change (CmsgSpace 0) with 16%nat. change (CmsgSpace n) with (16 + align8 n)%nat.
    pose proof (align8_ge n). lia.
  - intros z. apply length_le_bytes.
  - intros [l t d] rest Hl Ht Hd. unfold cmsg_build. simpl cm_level in *; simpl cm_type in *; simpl cm_data in *.
    change (ParseOneSocketControlMessage) with linux_parse.
    change (cmsghdr l t (CmsgLen (length d)))
      with (le_bytes 8 (Z.of_nat (16 + length d)) ++ le_bytes 4 l ++ le_bytes 4 t).
    change (CmsgSpace 0) with 16%nat. change (CmsgSpace (length d)) with (16 + align8 (length d))%nat.
    rewrite !length_app, !length_le_bytes. change (replicate (16 - (8 + (4 + 4))) 0) with (@nil Z).
    rewrite app_nil_l, <- !app_assoc.
    rewrite linux_parse_parts.
    + rewrite !le_value_bytes by lia. done.
    + apply length_le_bytes.
    + apply length_le_bytes.
    + apply length_le_bytes.
    + apply le_value_bytes. lia.
    + rewrite length_replicate. lia.
  - intros b m rest. simpl. unfold linux_parse. case_match eqn:E1; [done|].
    apply Nat.ltb_ge in E1. case_match eqn:E2; [done|]. intros [= _ <-].
    apply orb_false_iff in E2 as [E2 _]. apply Z.ltb_ge in E2.
    rewrite length_drop. pose proof (align8_ge (Z.to_nat (le_value (take 8 b)))). lia.
Qed.

(** ** Instances of the theorems *)

(** The bytes for an ECT(0) mark after a packet-info message. *)
Definition pktinfo_msg : Cmsg := MkCmsg 0 8 (replicate 12 7).

Example ecn_bytes :
  appendIPv4ECNMsg linux [] ECT0 =
  Ret [17; 0; 0; 0; 0; 0; 0; 0;  0; 0; 0; 0;  1; 0; 0; 0;  2; 0; 0; 0; 0; 0; 0; 0].
Proof. reflexivity. Qed.

(** A TOS message without payload, and one with a mark. *)
Lemma parse_oob_exact_witness :
  parse_oob linux [16; 0; 0; 0; 0; 0; 0; 0;  0; 0; 0; 0;  1; 0; 0; 0] 0 = Panic index_panic ∧
  parse_oob linux [17; 0; 0; 0; 0; 0; 0; 0;  0; 0; 0; 0;  1; 0; 0; 0;  254; 0; 0; 0; 0; 0; 0; 0] 0
    = Ret (inl ECT0) ∧
  ∃ ms, splits [17; 0; 0; 0; 0; 0; 0; 0;  0; 0; 0; 0;  1; 0; 0; 0;  254; 0; 0; 0; 0; 0; 0; 0] ms None ∧
        last_mark linux ms 0 = ECT0.
Proof.
  split; [reflexivity|]. split; [reflexivity|].
  destruct (@parse_oob_exact linux_abi linux_laws linux
    [17; 0; 0; 0; 0; 0; 0; 0;  0; 0; 0; 0;  1; 0; 0; 0;  254; 0; 0; 0; 0; 0; 0; 0] 0)
    as (ms & err & Hs & _ & E).
  change (Ret (inl ECT0) = if existsb (empty_mark linux) ms then Panic index_panic
    else match err with Some x => Ret (inr x) | None => Ret (inl (last_mark linux ms 0)) end) in E.
  destruct (existsb (empty_mark linux) ms); [discriminate E|].
  destruct err as [x|]; [discriminate E|]. exists ms. split; [exact Hs|congruence].
Defined.

Lemma ecn_roundtrip_v4_witness :
  ∃ oob, (AppendUDPSegmentSizeMsg linux (encode [pktinfo_msg]) 1200 ≫=
            λ b, appendIPv4ECNMsg linux b ECNCE) = Ret oob ∧
         parse_oob linux oob ECNUnsupported = Ret (inl ECNCE).
Proof.
  apply (@ecn_roundtrip_v4 linux_abi linux_laws).
  - apply Forall_singleton. repeat split; simpl; lia.
  - unfold ecn_marked, ECNCE. lia.
Defined.

Lemma ecn_roundtrip_v6_witness :
  ∃ oob, appendIPv6ECNMsg (encode [pktinfo_msg]) ECT1 = Ret oob ∧
         parse_oob darwin oob ECNUnsupported = Ret (inl ECT1).
Proof.
  apply (@ecn_roundtrip_v6 linux_abi linux_laws).
  - apply Forall_singleton. repeat split; simpl; lia.
  - unfold ecn_marked, ECT1. lia.
Defined.
