(* ===== verification/Platform.v ===== *)
(** * Platform-dependent helpers

    [src/raw/sys_conn_helper_*.go], [src/raw/sys_conn_df*.go], and the buffer
    inspection of [src/raw/sys_conn_oob.go], [sys_conn_windows.go] and
    [sys_conn_no_oob.go].  Each function takes the operating system it is
    built for.  The kernel and the environment are a class of operations. *)

From S2P Require Import Prelude GoLib Types Interfaces GoWorld Cmsg.

(** ** The system interface *)

(** The socket options the program uses, by name. *)
Inductive SockOpt :=
| SO_RCVBUF | SO_SNDBUF | SO_RCVBUFFORCE | SO_SNDBUFFORCE
| Opt_RECVTOS | Opt_RECVTCLASS | Opt_PKTINFO | Opt_RECVPKTINFO6
| Opt_MTU_DISCOVER | Opt_MTU_DISCOVER6 | Opt_DONTFRAG | Opt_DONTFRAG6
| Opt_V6ONLY | Opt_UDP_SEGMENT.
#[export] Instance SockOpt_eq_dec : EqDecision SockOpt.
Proof. solve_decision. Defined.

Inductive Sockaddr := SockaddrInet4 | SockaddrInet6 | SockaddrOther (type_name : string).

(** [syscall.RawConn.Control] either fails or runs its argument; the option
    calls run inside it.  [Uname] yields the bytes of the release field. *)
Class Kernel (K : Type) : Type := {
  Control : K → option error * K;
  SetsockoptInt : SockOpt → Z → K → option error * K;
  GetsockoptInt : SockOpt → K → (Z * option error) * K;
  Getsockname : K → (Sockaddr + error) * K;
  Uname : K → (list Z + error);
  Getenv : string → K → string
}.

Section platform.
Context {K : Type} `{!Kernel K}.
Variable os : OS.
#[local] Abbreviation M := (GoM (World K)).

Definition getenv (name : string) : M string := λ w, (Ret (Getenv name (w_k w)), w).
Definition uname : M (list Z + error) := λ w, (Ret (Uname (w_k w)), w).
Definition setsockopt (o : SockOpt) (v : Z) : M (option error) := ext (SetsockoptInt o v).
Definition getsockopt (o : SockOpt) : M (Z * option error) := ext (GetsockoptInt o).

(** ** Buffer sizes *)

(** Ask the socket, inside [Control]. *)
Definition inspect (o : SockOpt) : M (Z * option error) :=
  err ← ext Control;
  match err with
  | Some e => mret (0, Some e)
  | None => getsockopt o
  end.

(** sys_conn_oob.go *)
Definition InspectReadBuffer_unix : M (Z * option error) := inspect SO_RCVBUF.
Definition InspectWriteBuffer_unix : M (Z * option error) := inspect SO_SNDBUF.
(** sys_conn_windows.go *)
Definition InspectReadBuffer_windows : M (Z * option error) := inspect SO_RCVBUF.
Definition InspectWriteBuffer_windows : M (Z * option error) := inspect SO_SNDBUF.
(** sys_conn_no_oob.go *)
Definition InspectReadBuffer_no_oob : M (Z * option error) := mret (0, None).
Definition InspectWriteBuffer_no_oob : M (Z * option error) := mret (0, None).

Definition InspectReadBuffer : M (Z * option error) :=
  match os with
  | linux | darwin | freebsd => InspectReadBuffer_unix
  | windows => InspectReadBuffer_windows
  | other_os => InspectReadBuffer_no_oob
  end.
Definition InspectWriteBuffer : M (Z * option error) :=
  match os with
  | linux | darwin | freebsd => InspectWriteBuffer_unix
  | windows => InspectWriteBuffer_windows
  | other_os => InspectWriteBuffer_no_oob
  end.

(** sys_conn_helper_linux.go *)
Definition force_set (o : SockOpt) (bytes : Z) : M (option error) :=
  err ← ext Control;
  match err with
  | Some e => mret (Some e)
  | None => setsockopt o bytes
  end.
Definition forceSetReceiveBuffer_linux (bytes : Z) : M (option error) := force_set SO_RCVBUFFORCE bytes.
Definition forceSetSendBuffer_linux (bytes : Z) : M (option error) := force_set SO_SNDBUFFORCE bytes.
(** sys_conn_helper_nonlinux.go *)
Definition forceSetReceiveBuffer_nonlinux (bytes : Z) : M (option error) := mret None.
Definition forceSetSendBuffer_nonlinux (bytes : Z) : M (option error) := mret None.

Definition forceSetReceiveBuffer : Z → M (option error) :=
  match os with linux => forceSetReceiveBuffer_linux | _ => forceSetReceiveBuffer_nonlinux end.
Definition forceSetSendBuffer : Z → M (option error) :=
  match os with linux => forceSetSendBuffer_linux | _ => forceSetSendBuffer_nonlinux end.

(** ** Kernel version *)

(** The loop of [kernelVersion] over [uname.Release]. *)
Fixpoint version_loop (release : list Z) (values : Z * Z) (value : Z) (vi : nat) : Z * Z :=
  match release with
  | [] => values
  | c :: rest =>
    if is_digit c then version_loop rest values (i64 (i64 (value * 10) + (c - 48))) vi
    else
      let values := match vi with O => (value, values.2) | _ => (values.1, value) end in
      let vi := S vi in
      if (2 <=? vi)%nat then values else version_loop rest values 0 vi
  end.

Definition kernelVersion : M (Z * Z) :=
  u ← uname;
  match u with
  | inr _ => mret (0, 0)
  | inl release => mret (version_loop release (0, 0) 0 0)
  end.

(** [kernelVersionMajor], set by [init]. *)
Definition kernelVersionMajor : M Z := v ← kernelVersion; mret v.1.

(** ** GSO and ECN *)

(** [strconv.ParseBool] of a variable, with its error ignored or checked. *)
Definition env_true (name : string) : M bool :=
  v ← getenv name; mret (match ParseBool v with Some b => b | None => false end).

(** sys_conn_helper_linux.go *)
Definition IsGSOEnabled_linux : M bool :=
  major ← kernelVersionMajor;
  if major <? 5 then mret false
  else
    disabled ← env_true "QUIC_GO_DISABLE_GSO";
    if (disabled : bool) then mret false
    else
      err ← ext Control;
      match err with
      | Some _ => mret false
      | None => r ← getsockopt Opt_UDP_SEGMENT; mret (bool_decide (r.2 = None))
      end.
(** sys_conn_helper_darwin.go, _freebsd.go, _windows.go *)
Definition IsGSOEnabled_darwin : M bool := mret false.
Definition IsGSOEnabled_freebsd : M bool := mret false.
Definition IsGSOEnabled_windows : M bool := mret false.

Definition IsGSOEnabled : M bool :=
  match os with
  | linux => IsGSOEnabled_linux
  | darwin => IsGSOEnabled_darwin
  | freebsd | other_os => IsGSOEnabled_freebsd
  | windows => IsGSOEnabled_windows
  end.

(** sys_conn_oob.go: the error of [ParseBool] counts as "not disabled". *)
Definition IsECNDisabledUsingEnv_unix : M bool := env_true "QUIC_GO_DISABLE_ECN".
(** sys_conn_helper_windows.go *)
Definition IsECNDisabledUsingEnv_windows : M bool :=
  v ← getenv "QUIC_GO_DISABLE_ECN"; mret (bool_decide (v = "true")).

Definition IsECNEnabled_linux : M bool :=
  major ← kernelVersionMajor;
  if 5 <=? major then d ← IsECNDisabledUsingEnv_unix; mret (negb d) else mret false.
Definition IsECNEnabled_darwin : M bool := d ← IsECNDisabledUsingEnv_unix; mret (negb d).
Definition IsECNEnabled_freebsd : M bool := d ← IsECNDisabledUsingEnv_unix; mret (negb d).
Definition IsECNEnabled_windows : M bool :=
  d ← IsECNDisabledUsingEnv_windows; if (d : bool) then mret false else mret false.

Definition IsECNEnabled : M bool :=
  match os with
  | linux => IsECNEnabled_linux
  | darwin => IsECNEnabled_darwin
  | freebsd | other_os => IsECNEnabled_freebsd
  | windows => IsECNEnabled_windows
  end.

Definition EIO : Z := 5.
Definition EPERM : Z := 1.
Definition EMSGSIZE_linux : Z := 90.
Definition EMSGSIZE_darwin : Z := 40.
Definition WSAEMSGSIZE : Z := 10040.

(** sys_conn_helper_linux.go *)
Definition IsGSOError_linux (err : option error) : bool :=
  match errors_As_SyscallError err with
  | Some (_, Errno n _) => n =? EIO
  | _ => false
  end.
Definition IsPermissionError_linux (err : option error) : bool :=
  match errors_As_SyscallError err with
  | Some (call, Errno n _) => bool_decide (call = "sendmsg") && (n =? EPERM)
  | _ => false
  end.
(** sys_conn_helper_nonlinux.go *)
Definition IsGSOError_nonlinux (err : option error) : bool := false.
Definition IsPermissionError_nonlinux (err : option error) : bool := false.

Definition IsGSOError : option error → bool :=
  match os with linux => IsGSOError_linux | _ => IsGSOError_nonlinux end.
Definition IsPermissionError : option error → bool :=
  match os with linux => IsPermissionError_linux | _ => IsPermissionError_nonlinux end.

(** ** sys_conn_df*.go *)

Definition IsSendMsgSizeErr_linux (err : option error) : bool := errors_Is_errno err EMSGSIZE_linux.
Definition IsSendMsgSizeErr_darwin (err : option error) : bool := errors_Is_errno err EMSGSIZE_darwin.
Definition IsSendMsgSizeErr_windows (err : option error) : bool := errors_Is_errno err WSAEMSGSIZE.
Definition IsSendMsgSizeErr_other (err : option error) : bool := false.
Definition IsSendMsgSizeErr : option error → bool :=
  match os with
  | linux => IsSendMsgSizeErr_linux | darwin => IsSendMsgSizeErr_darwin
  | windows => IsSendMsgSizeErr_windows | freebsd | other_os => IsSendMsgSizeErr_other
  end.

Definition IsRecvMsgSizeErr_linux (err : option error) : bool := false.
Definition IsRecvMsgSizeErr_darwin (err : option error) : bool := false.
Definition IsRecvMsgSizeErr_windows (err : option error) : bool := errors_Is_errno err WSAEMSGSIZE.
Definition IsRecvMsgSizeErr_other (err : option error) : bool := false.
Definition IsRecvMsgSizeErr : option error → bool :=
  match os with
  | linux => IsRecvMsgSizeErr_linux | darwin => IsRecvMsgSizeErr_darwin
  | windows => IsRecvMsgSizeErr_windows | freebsd | other_os => IsRecvMsgSizeErr_other
  end.

(** darwin: the major version of the kernel; 0 when there is no dot. *)
Definition getMacOSVersion : M (Z * option error) :=
  u ← uname;
  match u with
  | inr e => mret (0, Some e)
  | inl release =>
    match index_byte 46 release with
    | None => mret (0, None)
    | Some idx =>
      match Atoi (take idx release) with
      | inr e => mret (0, Some e)
      | inl version => mret (version, None)
      end
    end
  end.

Definition macOSVersion11 : Z := 20.
Definition macOSVersion15 : Z := 24.

(** The text of linux and windows, which differ in the options they set. *)
Definition setDF_both (o4 o6 : SockOpt) (v : Z) : M (bool * option error) :=
  err ← ext Control;
  match err with
  | Some e => mret (false, Some e)
  | None =>
    errDFIPv4 ← setsockopt o4 v;
    errDFIPv6 ← setsockopt o6 v;
    match errDFIPv4, errDFIPv6 with
    | None, None => Log DebugLevel "Setting DF for IPv4 and IPv6.";; mret (true, None)
    | None, Some _ => Log DebugLevel "Setting DF for IPv4.";; mret (true, None)
    | Some _, None => Log DebugLevel "Setting DF for IPv6.";; mret (true, None)
    | Some _, Some _ => mret (false, Some (ErrText "setting DF failed for both IPv4 and IPv6"))
    end
  end.

(** The function passed to [Control]: [controlErr] and [disableDF]. *)
Definition setDF_darwin_control (version : Z) : M (option error * bool) :=
  a ← ext Getsockname;
  match a with
  | inr e => mret (Some (WrapError "getsockname: " e), false)
  | inl SockaddrInet4 => e ← setsockopt Opt_DONTFRAG 1; mret (e, false)
  | inl SockaddrInet6 =>
    controlErr ← setsockopt Opt_DONTFRAG6 1;
    if version <? macOSVersion15 then
      r ← getsockopt Opt_V6ONLY;
      match r.2 with
      | Some e => mret (Some (WrapError "getting IPV6_V6ONLY: " e), false)
      | None => mret (controlErr, r.1 =? 0)
      end
    else mret (controlErr, false)
  | inl (SockaddrOther t) => mret (Some (ErrText ("unknown address type: " +:+ t)%string), false)
  end.

Definition setDF_darwin : M (bool * option error) :=
  v ← getMacOSVersion;
  let '(version, err) := v in
  if bool_decide (err ≠ None) || (version <? macOSVersion11) then mret (false, err)
  else
    err ← ext Control;
    match err with
    | Some e => mret (false, Some e)
    | None =>
      r ← setDF_darwin_control version;
      match r.1 with
      | Some e => mret (false, Some e)
      | None => mret (negb r.2, None)
      end
    end.

Definition IP_PMTUDISC_PROBE : Z := 3.

Definition setDF_linux : M (bool * option error) :=
  setDF_both Opt_MTU_DISCOVER Opt_MTU_DISCOVER6 IP_PMTUDISC_PROBE.
Definition setDF_windows : M (bool * option error) := setDF_both Opt_DONTFRAG Opt_DONTFRAG6 1.
Definition setDF_other : M (bool * option error) := mret (false, None).

Definition setDF : M (bool * option error) :=
  match os with
  | linux => setDF_linux
  | windows => setDF_windows
  | darwin => setDF_darwin
  | freebsd | other_os => setDF_other
  end.

End platform.

(** ** Packet info *)

(** [net.IPv4]: the 16-byte form. *)
Definition net_IPv4 (v4 : list Z) : list Z := replicate 10 0 ++ [255; 255] ++ v4.

(** [ParseIPv4PktInfo]: address, interface index (0 where the function does
    not return one) and success (false where it returns none). *)
Definition ParseIPv4PktInfo_linux (body : list Z) : list Z * Z * bool :=
  if (length body =? 12)%nat then (net_IPv4 (take 4 (drop 8 body)), 0, true) else ([], 0, false).
Definition ParseIPv4PktInfo_darwin (body : list Z) : list Z * Z * bool :=
  if (length body =? 12)%nat then (take 4 (drop 8 body), le_value (take 4 body), true) else ([], 0, false).
Definition ParseIPv4PktInfo_freebsd (body : list Z) : list Z * Z * bool :=
  if (length body =? 4)%nat then (body, 0, true) else ([], 0, false).
Definition ParseIPv4PktInfo_windows (body : list Z) : list Z * Z * bool := ([], 0, false).

(** The Linux and the darwin function agree on the address. *)
Lemma ParseIPv4PktInfo_agree body ip i :
  ParseIPv4PktInfo_darwin body = (ip, i, true) →
  ∃ ip', ParseIPv4PktInfo_linux body = (ip', 0, true) ∧ IP_To4 ip' = IP_To4 ip ∧ IP_To4 ip = Some ip.
Proof.
  unfold ParseIPv4PktInfo_darwin, ParseIPv4PktInfo_linux. case_match eqn:E; [|done]. intros [= <- _]. apply Nat.eqb_eq in E.
  do 12 (destruct body as [|? body]; [discriminate|]). destruct body; [|discriminate]. by eexists.
Qed.

(** The methods of the two types [packetInfo]. *)
Definition packetInfo_OOB_windows (addr : list Z) : list Z := [].
Definition packetInfo_OOB_no_oob (addr : list Z) : list Z := [].

(** [OOBForAddr]: [Marshal4] and [Marshal6] are the [Marshal] methods of
    [ipv4.ControlMessage] and [ipv6.ControlMessage] with only [Src] set. *)
Inductive netip_Addr := netip_invalid | netip_v4 (ip : list Z) | netip_v6 (ip : list Z).
Definition OOBForAddr (Marshal4 Marshal6 : list Z → list Z) (a : netip_Addr) : list Z :=
  match a with
  | netip_v4 ip => Marshal4 ip
  | netip_v6 ip => Marshal6 ip
  | netip_invalid => []
  end.

(** ** Parsing versions *)

Lemma digits_value_app ds c : digits_value (ds ++ [c]) = digits_value ds * 10 + (c - 48).
Proof. unfold digits_value. by rewrite fold_left_app. Qed.

Lemma digits_value_nonneg ds : forallb is_digit ds = true → 0 ≤ digits_value ds.
Proof.
  induction ds as [|c ds IH] using rev_ind; [done|]. rewrite forallb_app. simpl.
  intros [H1 H2]%andb_true_iff. rewrite digits_value_app. unfold is_digit in H2.
  specialize (IH H1). lia.
Qed.

Lemma digits_value_mono ds ds' :
  forallb is_digit ds = true → forallb is_digit ds' = true →
  digits_value ds ≤ digits_value (ds ++ ds').
Proof.
  intros H. induction ds' as [|c ds' IH] using rev_ind; [by rewrite app_nil_r|].
  rewrite forallb_app. simpl. intros [H1 H2]%andb_true_iff. specialize (IH H1).
  rewrite app_assoc, digits_value_app. unfold is_digit in H2.
  pose proof (digits_value_nonneg _ H). lia.
Qed.

(** Reading a run of digits, without overflow. *)
Lemma version_loop_digits pre ds rest values vi :
  forallb is_digit pre = true → forallb is_digit ds = true → digits_value (pre ++ ds) < 2 ^ 63 →
  version_loop (ds ++ rest) values (digits_value pre) vi =
  version_loop rest values (digits_value (pre ++ ds)) vi.
Proof.
  revert pre. induction ds as [|c ds IH]; intros pre Hpre Hds Hlt; [by rewrite app_nil_r|].
  simpl in Hds. apply andb_true_iff in Hds as [Hc Hds]. simpl. rewrite Hc.
  assert (Hpc : forallb is_digit (pre ++ [c]) = true) by (rewrite forallb_app; simpl; by rewrite Hpre, Hc).
  replace (pre ++ c :: ds) with ((pre ++ [c]) ++ ds) in * by (by rewrite <- app_assoc).
  pose proof (digits_value_mono _ ds Hpc Hds) as Hm. pose proof (digits_value_nonneg _ Hpre) as Hn.
  rewrite <- IH by done. f_equal. rewrite digits_value_app in *.
  unfold is_digit in Hc. rewrite (i64_small (digits_value pre * 10)) by lia.
  rewrite i64_small by lia. done.
Qed.

Section version.
Context {K : Type} `{!Kernel K}.

(** [kernelVersion] reads MAJOR.MINOR.  When the release string starts with
    two runs of digits that fit an [int], the first ended by any non-digit (a
    dot) and the second by any non-digit (a dot, a dash, a plus, or the NUL that
    ends the field), the function returns the two numbers, whatever follows. *)
Lemma kernelVersion_parses (w : World K) ds1 ds2 c1 c2 rest :
  Uname (w_k w) = inl (ds1 ++ c1 :: ds2 ++ c2 :: rest) →
  forallb is_digit ds1 = true → forallb is_digit ds2 = true →
  is_digit c1 = false → is_digit c2 = false →
  digits_value ds1 < 2 ^ 63 → digits_value ds2 < 2 ^ 63 →
  kernelVersion w = (Ret (digits_value ds1, digits_value ds2), w).
Proof.
  intros Hu H1 H2 Hc1 Hc2 Hl1 Hl2. unfold kernelVersion, uname. gosimpl. rewrite Hu. gosimpl.
  rewrite (version_loop_digits [] ds1) by done. simpl. rewrite Hc1. simpl.
  rewrite (version_loop_digits [] ds2) by done. simpl. by rewrite Hc2.
Qed.

Lemma index_byte_first ds c rest :
  (∀ x, x ∈ ds → x ≠ c) → index_byte c (ds ++ c :: rest) = Some (length ds).
Proof.
  induction ds as [|x ds IH]; intros H; simpl; [by rewrite Z.eqb_refl|].
  destruct (Z.eqb_spec x c) as [->|]; [exfalso; by apply (H c); [left|]|].
  rewrite IH; [done|]. intros y Hy. apply H. by right.
Qed.

(** [getMacOSVersion] returns the number before the first dot of the
    release, when that is a run of digits in the range of [int]. *)
Lemma getMacOSVersion_parses (w : World K) ds rest :
  Uname (w_k w) = inl (ds ++ 46 :: rest) → ds ≠ [] → forallb is_digit ds = true →
  digits_value ds < 2 ^ 63 → getMacOSVersion w = (Ret (digits_value ds, None), w).
Proof.
  intros Hu Hne Hd Hl. unfold getMacOSVersion, uname. gosimpl. rewrite Hu.
  assert (Hin : ∀ x, x ∈ ds → is_digit x = true).
  { intros x Hx. rewrite forallb_forall in Hd. apply Hd. by apply list_elem_of_In. }
  rewrite index_byte_first by (intros x Hx ->; by apply Hin in Hx).
  rewrite take_app_length. unfold Atoi. destruct ds as [|c ds]; [done|].
  assert (Hc : is_digit c = true) by (apply Hin; by left).
  assert (c ≠ 45 ∧ c ≠ 43) as [H45 H43] by (unfold is_digit in Hc; lia).
  assert (match c :: ds with 45 :: ds' => (true, ds') | 43 :: ds' => (false, ds') | _ => (false, c :: ds) end
          = (false, c :: ds)) as -> by (repeat (case_match; try done; try congruence)).
  rewrite Hd. pose proof (digits_value_nonneg _ Hd).
  rewrite (proj2 (Z.leb_le _ _)), (proj2 (Z.ltb_lt _ _)) by lia. done.
Qed.

End version.
