(* ===== verification/SockBuf.v ===== *)
(** * Packet connections, and the sizes of their kernel buffers

    The [net.PacketConn] handed to the raw package, with the optional methods
    the program tests for by type assertion; [SetReceiveBuffer] and
    [SetSendBuffer] of [src/raw/sys_conn_buffers.go] and
    [sys_conn_buffers_write.go] (the second is generated from the first). *)

From S2P Require Import Prelude GoLib Types Interfaces GoWorld Cmsg Platform.

(** ** net.PacketConn

    Methods of interfaces that a value may or may not have are [option]s.
    Reads return the new contents of the caller's slice. *)
Record NetConn (K : Type) : Type := MkNetConn {
  nc_ReadFrom : list Z → K → (list Z * nat * option Addr * option error) * K;
  nc_WriteTo : list Z → option Addr → K → (nat * option error) * K;
  nc_Close : K → option error * K;
  nc_LocalAddr : K → option Addr;
  nc_SetReadDeadline : Z → K → option error * K;
  (* remoteAddrSock *)
  nc_RemoteAddr : option (K → option Addr);
  (* connectedConn: Read and Write *)
  nc_connected : option ((list Z → K → (list Z * nat * option error) * K) *
                         (list Z → K → (nat * option error) * K));
  (* SetReadBuffer, SetWriteBuffer *)
  nc_SetReadBuffer : option (Z → K → option error * K);
  nc_SetWriteBuffer : option (Z → K → option error * K);
  (* SyscallConn: its error, or a syscall.RawConn *)
  nc_SyscallConn : option (K → option error * K);
  (* the other methods of OOBCapablePacketConn; the program never calls ReadMsgUDP *)
  nc_ReadMsgUDP : option (list Z → list Z → K →
    (list Z * list Z * nat * nat * Z * option Addr * option error) * K);
  nc_WriteMsgUDP : option (list Z → list Z → option Addr → K → (nat * nat * option error) * K)
}.
Arguments MkNetConn {K} _ _ _ _ _ _ _ _ _ _ _ _.
Arguments nc_ReadFrom {K} _.
Arguments nc_WriteTo {K} _.
Arguments nc_Close {K} _.
Arguments nc_LocalAddr {K} _.
Arguments nc_SetReadDeadline {K} _.
Arguments nc_RemoteAddr {K} _.
Arguments nc_connected {K} _.
Arguments nc_SetReadBuffer {K} _.
Arguments nc_SetWriteBuffer {K} _.
Arguments nc_SyscallConn {K} _.
Arguments nc_ReadMsgUDP {K} _.
Arguments nc_WriteMsgUDP {K} _.

(** sys_conn_consts.go *)
Definition DesiredReceiveBufferSize : Z := Z.shiftl 1 20 * 7.
Definition DesiredSendBufferSize : Z := Z.shiftl 1 20 * 7.

Section sockbuf.
Context {K : Type} `{!Kernel K}.
Variable os : OS.
#[local] Abbreviation M := (GoM (World K)).

(** [fmt.Sprintf("%d kiB", size/1024)]. *)
Definition kiB (size : Z) : string := (itoa (Z.quot size 1024) +:+ " kiB")%string.

(** The end of both functions: what became of the size. *)
Definition report (what : string) (size newSize : Z) : M (option error) :=
  if newSize =? size then
    mret (Some (ErrText ("failed to increase " +:+ what +:+ " buffer size (wanted: " +:+
           kiB DesiredReceiveBufferSize +:+ ", got " +:+ kiB newSize +:+ ")")%string))
  else if newSize <? DesiredReceiveBufferSize then
    mret (Some (ErrText ("failed to sufficiently increase " +:+ what +:+
           " buffer size (was: " +:+ kiB size +:+ ", wanted: " +:+
           kiB DesiredReceiveBufferSize +:+ ", got: " +:+ kiB newSize +:+ ")")%string))
  else
    Log DebugLevel ("Increased " +:+ what +:+ " buffer size to " +:+ kiB newSize)%string;;
    mret None.

(** The text of both functions.  [what] is "receive" or "send". *)
Definition setBuffer (what : string) (set : option (Z → K → option error * K))
    (inspect : M (Z * option error)) (force : Z → M (option error)) (c : NetConn K)
    : M (option error) :=
  let undetermined e :=
    mret (Some (WrapError ("failed to determine " +:+ what +:+ " buffer size: ")%string e)) in
  match set with
  | None =>
    mret (Some (ErrText ("connection doesn't allow setting of " +:+ what +:+
                         " buffer size. Not a *net.UDPConn?")%string))
  | Some set =>
    syscallConn ← match nc_SyscallConn c with
                  | Some f => err ← ext f; mret (bool_decide (err = None))
                  | None => mret false
                  end;
    if negb syscallConn then ext (set DesiredReceiveBufferSize)
    else
      r ← inspect;
      let '(size, err) := r in
      match err with
      | Some e => undetermined e
      | None =>
        if DesiredReceiveBufferSize <=? size then
          Log DebugLevel ("Conn has " +:+ what +:+ " buffer of " +:+ kiB size +:+
                          " (wanted: at least " +:+ kiB DesiredReceiveBufferSize +:+ ")")%string;;
          mret None
        else
          _ ← ext (set DesiredReceiveBufferSize);
          r ← inspect;
          let '(newSize, err) := r in
          r ← (if newSize <? DesiredReceiveBufferSize then
                 _ ← force DesiredReceiveBufferSize; inspect
               else mret (newSize, err));
          let '(newSize, err) := r in
          match err with
          | Some e => undetermined e
          | None =>
            report what size newSize
          end
      end
  end.

Definition SetReceiveBuffer (c : NetConn K) : M (option error) :=
  setBuffer "receive" (nc_SetReadBuffer c) (InspectReadBuffer os) (forceSetReceiveBuffer os) c.
Definition SetSendBuffer (c : NetConn K) : M (option error) :=
  setBuffer "send" (nc_SetWriteBuffer c) (InspectWriteBuffer os) (forceSetSendBuffer os) c.

End sockbuf.

(** ** Properties *)

(** A socket that can be inspected: the size is a function of the state, and
    looking at it changes nothing. *)
Record Inspectable {K} (ins : GoM (World K) (Z * option error)) (size : K → Z) : Prop := {
  insp_ok : ∀ w, ins w = (Ret (size (w_k w), None), w)
}.

Section spec.
Context {K : Type} `{!Kernel K}.
Variables (what : string) (set : Z → K → option error * K) (ins : GoM (World K) (Z * option error))
  (force : Z → GoM (World K) (option error)) (c : NetConn K) (size : K → Z).
Hypothesis Hins : Inspectable ins size.
Hypothesis Hsys : ∃ f, nc_SyscallConn c = Some f ∧ ∀ k, f k = (None, k).
Hypothesis Hforce : ∀ n w, ∃ e k, force n w = (Ret e, set_k k w).

Lemma report_spec k n (w : World K) :
  n = size (w_k w) → size k < DesiredReceiveBufferSize →
  ∃ r w', report what (size k) n w = (Ret r, w') ∧
    (r = None ↔ DesiredReceiveBufferSize ≤ size (w_k w')) ∧
    (DesiredReceiveBufferSize ≤ size k → w_k w' = k).
Proof.
  intros Hn Hlt. unfold report. gosimpl.
  destruct (Z.eqb_spec n (size k)); [eexists _, _; split; [done|]; split; [|lia]; split; [done|lia]|].
  destruct (Z.ltb_spec n DesiredReceiveBufferSize);
    [eexists _, _; split; [done|]; split; [|lia]; split; [done|lia]|].
  rewrite Log_ret by done. eexists _, _. split; [done|]. simpl. split; [|lia]. split; [lia|done].
Qed.

(** On such a socket the result is nil exactly when the buffer has the desired
    size in the end, and a buffer that is large enough is left alone. *)
Lemma setBuffer_cases (w : World K) :
  ∃ r w', setBuffer what (Some set) ins force c w = (Ret r, w') ∧
    (r = None ↔ DesiredReceiveBufferSize ≤ size (w_k w')) ∧
    (DesiredReceiveBufferSize ≤ size (w_k w) → w_k w' = w_k w).
Proof.
  destruct Hsys as (f & Hf & Hfk). unfold setBuffer, ext. rewrite Hf. gosimpl.
  rewrite Hfk, bool_decide_true by done. cbn [negb]. gosimpl. rewrite (insp_ok _ _ Hins). gosimpl.
  destruct w as [lg h k]; simpl.
  destruct (Z.leb_spec DesiredReceiveBufferSize (size k)) as [Hge|Hlt].
  { rewrite Log_ret by done. gosimpl. eexists _, _. split; [done|]. simpl. by split. }
  gosimpl. cbn [set_k w_k w_log w_heap]. destruct (set DesiredReceiveBufferSize k) as [e1 k1]. gosimpl.
  rewrite (insp_ok _ _ Hins). gosimpl. cbn [w_k set_k w_log w_heap].
  destruct (Z.ltb_spec (size k1) DesiredReceiveBufferSize) as [Hl1|Hg1]; gosimpl.
  - match goal with |- context [force ?n ?w0] => destruct (Hforce n w0) as (e2 & k2 & ->) end. gosimpl.
    rewrite (insp_ok _ _ Hins). gosimpl. by apply report_spec.
  - by apply report_spec.
Qed.

End spec.

Section theorems.
Context {K : Type} `{!Kernel K}.
Variables (os : OS) (c : NetConn K) (rcvbuf sndbuf : K → Z).

(** A socket whose [syscall.RawConn] works and whose options can be read. *)
Record socket_works : Prop := {
  sw_os : os ≠ other_os;
  sw_sys : ∃ f, nc_SyscallConn c = Some f ∧ ∀ k, f k = (None, k);
  sw_control : ∀ k : K, Control k = (None, k);
  sw_rcv : ∀ k, GetsockoptInt SO_RCVBUF k = ((rcvbuf k, None), k);
  sw_snd : ∀ k, GetsockoptInt SO_SNDBUF k = ((sndbuf k, None), k)
}.

Lemma inspect_works o size :
  socket_works → (∀ k, GetsockoptInt o k = ((size k, None), k)) → Inspectable (inspect o) size.
Proof.
  intros SW Ho. constructor. intros [lg h k]. unfold inspect, getsockopt, ext. gosimpl. simpl.
  rewrite (sw_control SW). simpl. by rewrite Ho.
Qed.

Lemma InspectRead_works : socket_works → Inspectable (InspectReadBuffer os) rcvbuf.
Proof.
  intros SW. pose proof (inspect_works SO_RCVBUF rcvbuf SW (sw_rcv SW)). pose proof (sw_os SW).
  unfold InspectReadBuffer. by destruct os.
Qed.
Lemma InspectWrite_works : socket_works → Inspectable (InspectWriteBuffer os) sndbuf.
Proof.
  intros SW. pose proof (inspect_works SO_SNDBUF sndbuf SW (sw_snd SW)). pose proof (sw_os SW).
  unfold InspectWriteBuffer. by destruct os.
Qed.

Lemma force_returns o n (w : World K) :
  socket_works → ∃ e k, force_set o n w = (Ret e, set_k k w).
Proof.
  intros SW. unfold force_set, setsockopt, ext. destruct w as [lg h k]. gosimpl. simpl.
  rewrite (sw_control SW). simpl. destruct (SetsockoptInt o n k) as [e k']. by exists e, k'.
Qed.

Lemma forceSet_returns n (w : World K) :
  socket_works →
  (∃ e k, forceSetReceiveBuffer os n w = (Ret e, set_k k w)) ∧
  (∃ e k, forceSetSendBuffer os n w = (Ret e, set_k k w)).
Proof.
  intros SW. unfold forceSetReceiveBuffer, forceSetSendBuffer.
  destruct os; split; first [by apply force_returns | exists None, (w_k w); by destruct w].
Qed.

(** C29: what [SetReceiveBuffer] and [SetSendBuffer] report.  On a
    system with an implementation of [InspectReadBuffer] (not [other_os]), for a
    connection that offers [SetReadBuffer] and [SetWriteBuffer] and whose buffer
    sizes can be read without error ([socket_works]), each returns nil exactly
    when the kernel's buffer has at least the desired size afterwards, whether the plain option or, on Linux,
    the forced one achieved it; and when the buffer is large enough to begin
    with, nothing is set. *)
Theorem setBuffers_report_truth set_r set_w (w : World K) :
  socket_works → nc_SetReadBuffer c = Some set_r → nc_SetWriteBuffer c = Some set_w →
  (∃ r w', SetReceiveBuffer os c w = (Ret r, w') ∧
     (r = None ↔ DesiredReceiveBufferSize ≤ rcvbuf (w_k w')) ∧
     (DesiredReceiveBufferSize ≤ rcvbuf (w_k w) → w_k w' = w_k w)) ∧
  (∃ r w', SetSendBuffer os c w = (Ret r, w') ∧
     (r = None ↔ DesiredSendBufferSize ≤ sndbuf (w_k w')) ∧
     (DesiredSendBufferSize ≤ sndbuf (w_k w) → w_k w' = w_k w)).
Proof.
  intros SW Hr Hw. unfold SetReceiveBuffer, SetSendBuffer. rewrite Hr, Hw. split.
  - apply setBuffer_cases; [by apply InspectRead_works|apply (sw_sys SW)|].
    intros n w0. by apply forceSet_returns.
  - apply (setBuffer_cases _ _ _ _ _ sndbuf); [by apply InspectWrite_works|apply (sw_sys SW)|].
    intros n w0. by apply forceSet_returns.
Qed.

End theorems.

(** without inspection the report is always a failure.  On systems without
    an implementation of [InspectReadBuffer] (it answers 0 there), a connection
    that offers [SetReadBuffer] and [SyscallConn] gets the error "failed to
    increase receive buffer size", also when setting the size succeeded. *)
Lemma other_os_always_fails {K} `{!Kernel K} (c : NetConn K) set f (w : World K) :
  nc_SetReadBuffer c = Some set → nc_SyscallConn c = Some f → (∀ k, f k = (None, k)) →
  ∃ w', SetReceiveBuffer other_os c w =
    (Ret (Some (ErrText "failed to increase receive buffer size (wanted: 7168 kiB, got 0 kiB)")), w').
Proof.
  intros Hs Hf Hfk. unfold SetReceiveBuffer, setBuffer. rewrite Hs, Hf. unfold ext. gosimpl.
  rewrite Hfk, bool_decide_true by done. cbn [negb]. gosimpl.
  change (DesiredReceiveBufferSize <=? 0) with false. cbn iota.
  destruct w as [lg h k]; simpl. destruct (set DesiredReceiveBufferSize k) as [e k1]. simpl.
  eexists. reflexivity.
Qed.
