(* ===== verification/BatchReader.v ===== *)
(** * The batch reader: [src/raw/sys_conn_oob_reader.go]

    The reader keeps [batchSize] messages whose slices point into pooled
    buffers; the kernel writes through these slices.  Memory is the heap of
    [GoWorld], so that the aliasing of the buffers is part of the model.  The
    methods run under the reader's mutex: each is one function. *)

From S2P Require Import Prelude GoLib Types Interfaces GoWorld Cmsg.

(** ** ipv4.Message *)

(** [Buffers] is a one-element slice, by identity; [Flags] is not used. *)
Record Message : Type := MkMsg {
  m_Buffers : nat;
  m_OOB : Slice;
  m_Addr : option Addr;
  m_N : nat;
  m_NN : nat
}.

(** A datagram of the kernel: bytes, control bytes, sender. *)
Definition datagram : Type := (list Z * list Z * option Addr)%type.

(** [ReadBatch] receives at most as many datagrams as there are messages. *)
Class SysBatchReader (K : Type) : Type := {
  ReadBatch : nat → K → (list datagram * option error) * K;
  sbr_Close : K → option error * K
}.

(** What the kernel does to a message: copy into the slices, set the counts. *)
Definition deliver (d : datagram) (m : Message) (h : Heap) : Message * Heap :=
  let '(data, odata, addr) := d in
  let buf := vec_get h (m_Buffers m) in
  let h := mem_write h buf data in
  let h := mem_write h (m_OOB m) odata in
  (MkMsg (m_Buffers m) (m_OOB m) addr (length data `min` s_len buf) (length odata `min` s_len (m_OOB m)), h).

Fixpoint deliver_all (ds : list datagram) (ms : list Message) (h : Heap) : list Message * Heap :=
  match ds, ms with
  | d :: ds, m :: ms =>
    let '(m, h) := deliver d m h in
    let '(ms, h) := deliver_all ds ms h in (m :: ms, h)
  | _, _ => (ms, h)
  end.

(** ** The reader *)

Record batchReader : Type := MkReader {
  r_readPos : nat;              (* uint8 *)
  r_len : nat;                  (* len(messages); the array has batchSize elements *)
  r_messages : list Message;
  r_buffers : list nat;
  r_oobBuffers : list nat;
  r_closed : bool;
  r_buffersReleased : bool
}.

Definition ErrClosed : error := io_EOF.

Section reader.
Context {K : Type} `{!BufferPool Slice K} `{!SysBatchReader K}.
Variable os : OS.
#[local] Abbreviation M := (GoM (World K)).
#[local] Abbreviation batchSize := (batchSize os).

Definition heapM {A} (f : Heap → A * Heap) : M A :=
  λ w, let '(a, h) := f (w_heap w) in (Ret a, set_heap h w).

(** [renewBuffer]: the list of buffers with element [idx] renewed. *)
Definition renewBuffer (buffers : list nat) (pool : PoolId) (idx size : nat) : M (list nat) :=
  match buffers !! idx with
  | None => gopanic index_panic
  | Some b =>
    w ← getw;
    if (s_len (buf_B (w_heap w) b) <? size)%nat then
      Put pool b;;
      b' ← Get pool;
      ensure_len b' size;;
      mret (<[idx := b']> buffers)
    else mret buffers
  end.

(** The new slices of message [i]. *)
Definition set_slices (i : nat) (r : batchReader) : M batchReader :=
  match r_messages r !! i, r_buffers r !! i, r_oobBuffers r !! i with
  | Some m, Some b, Some ob =>
    heapM (λ h,
      (MkReader (r_readPos r) (r_len r)
         (<[i := MkMsg (m_Buffers m) (buf_B h ob) (m_Addr m) (m_N m) (m_NN m)]> (r_messages r))
         (r_buffers r) (r_oobBuffers r) (r_closed r) (r_buffersReleased r),
       vec_set (m_Buffers m) (buf_B h b) h))
  | _, _, _ => gopanic index_panic
  end.

(** The loop before [ReadBatch], over the consumed messages. *)
Definition refresh_one (i : nat) (r : batchReader) : M batchReader :=
  bs ← renewBuffer (r_buffers r) bufferPool i MaxPacketBufferSize;
  obs ← renewBuffer (r_oobBuffers r) oobBufferPool i oobBufferSize;
  set_slices i (MkReader (r_readPos r) (r_len r) (r_messages r) bs obs (r_closed r) (r_buffersReleased r)).

Fixpoint refresh (idxs : list nat) (r : batchReader) : M batchReader :=
  match idxs with
  | [] => mret r
  | i :: idxs => r ← refresh_one i r; refresh idxs r
  end.

(** [ReadBatch] on the reader's messages. *)
Definition sys_read (r : batchReader) : M (nat * option error * batchReader) := λ w,
  let '(ds, err, k) := ReadBatch (r_len r) (w_k w) in
  let ds := take (r_len r) ds in
  let '(ms, h) := deliver_all ds (take (r_len r) (r_messages r)) (w_heap w) in
  (Ret (length ds, err,
        MkReader (r_readPos r) (r_len r) (ms ++ drop (r_len r) (r_messages r)) (r_buffers r)
          (r_oobBuffers r) (r_closed r) (r_buffersReleased r)),
   MkWorld (w_log w) h k).

Definition set_pos (pos len : nat) (r : batchReader) : batchReader :=
  MkReader pos len (r_messages r) (r_buffers r) (r_oobBuffers r) (r_closed r) (r_buffersReleased r).

(** The end of [Read]: hand out the next message. *)
Definition take_message (b oob : list Z) (r : batchReader) : M (ReadResult * batchReader) :=
  if (r_readPos r <? r_len r)%nat then
    match r_messages r !! r_readPos r with
    | None => gopanic index_panic
    | Some msg =>
      w ← getw;
      let h := w_heap w in
      match slice_to (vec_get h (m_Buffers msg)) (m_N msg), slice_to (m_OOB msg) (m_NN msg) with
      | Some data, Some odata =>
        let '(b', n) := go_copy b (mem_read h data) in
        let '(oob', oobN) := go_copy oob (mem_read h odata) in
        mret (MkRead b' oob' n oobN 0 (m_Addr msg) None, set_pos (S (r_readPos r)) (r_len r) r)
      | _, _ => gopanic "runtime error: slice bounds out of range"
      end
    end
  else gopanic index_panic.

(** [Read]; the mark of the result is set by the caller. *)
Definition batchReader_Read (b oob : list Z) (r : batchReader) : M (ReadResult * batchReader) :=
  if r_closed r then mret (MkRead b oob 0 0 0 None (Some ErrClosed), r)
  else if (r_len r =? r_readPos r)%nat then
    r ← refresh (seq 0 (r_readPos r)) (set_pos (r_readPos r) batchSize r);
    x ← sys_read (set_pos 0 (r_len r) r);
    let '(n, err, r) := x in
    match err with
    | Some e => mret (MkRead b oob 0 0 0 None (Some e), r)
    | None =>
      if (n =? 0)%nat then mret (MkRead b oob 0 0 0 None None, r)
      else take_message b oob (set_pos (r_readPos r) n r)
    end
  else take_message b oob r.

(** [Close]. *)
Fixpoint release (bs obs : list nat) : M unit :=
  match bs, obs with
  | b :: bs, ob :: obs => Put bufferPool b;; Put oobBufferPool ob;; release bs obs
  | _, _ => mret ()
  end.

Definition batchReader_Close (r : batchReader) : M (option error * batchReader) :=
  (if r_buffersReleased r then mret () else release (r_buffers r) (r_oobBuffers r));;
  err ← ext sbr_Close;
  mret (err, MkReader (r_readPos r) (r_len r) (r_messages r) (r_buffers r) (r_oobBuffers r) true true).

(** [newBatchReader]. *)
Fixpoint new_messages (n : nat) : M (list Message * list nat * list nat) :=
  match n with
  | O => mret ([], [], [])
  | S n =>
    b ← Get bufferPool;
    ensure_len b MaxPacketBufferSize;;
    ob ← Get oobBufferPool;
    ensure_len ob MaxPacketBufferSize;;
    v ← heapM make_vec;
    m ← heapM (λ h, let s := buf_B h ob in (MkMsg v s None 0 0, vec_set v s h));
    x ← new_messages n;
    let '(ms, bs, obs) := x in
    mret (m :: ms, b :: bs, ob :: obs)
  end.

Definition newBatchReader : M batchReader :=
  x ← new_messages batchSize;
  let '(ms, bs, obs) := x in
  mret (MkReader batchSize batchSize ms bs obs false false).

End reader.
