(* ===== verification/BatchReaderInv.v ===== *)
(** * The batch reader delivers every datagram once, in order

    The invariant ties the reader's messages to its buffers: after the first
    [Read] every message points into its own two buffers, and no two buffers
    share memory.  Under it [Read] is a first-in first-out view of the
    batches received from the kernel, as long as [ReadBatch] succeeds; and
    what goes wrong after it has failed. *)

From S2P Require Import Prelude GoLib Types Interfaces Ownership GoWorld Cmsg BatchReader.

Lemma oob_fits : (oobBufferSize ≤ MaxPacketBufferSize)%nat.
Proof. apply Nat.leb_le. reflexivity. Qed.
Lemma max_positive : (0 < MaxPacketBufferSize)%nat.
Proof. apply Nat.ltb_lt. reflexivity. Qed.
#[global] Opaque MaxPacketBufferSize oobBufferSize.

(** ** Memory *)

Lemma slice_ok_write h s t data : slice_ok h s → slice_ok (mem_write h t data) s.
Proof.
  intros (Hc & a & Ha & Hl). split; [done|]. unfold mem_write.
  destruct (h_mem h !! s_arr t) as [a'|] eqn:Et; [|eauto]. simpl.
  destruct (decide (s_arr s = s_arr t)) as [He|Hne].
  - rewrite He in Ha. rewrite Ha in Et. injection Et as <-. eexists. rewrite He, lookup_insert_eq.
    split; [done|]. rewrite !length_app, length_take, length_drop. lia.
  - exists a. by rewrite lookup_insert_ne.
Qed.

Lemma mem_write_vec h s data : h_vec (mem_write h s data) = h_vec h.
Proof. unfold mem_write. by destruct (h_mem h !! s_arr s). Qed.
Lemma mem_write_buf h s data : h_buf (mem_write h s data) = h_buf h.
Proof. unfold mem_write. by destruct (h_mem h !! s_arr s). Qed.
Lemma vec_get_write h s data v : vec_get (mem_write h s data) v = vec_get h v.
Proof. unfold vec_get. by rewrite mem_write_vec. Qed.

(** The bytes written, clipped to the slice. *)
Lemma mem_read_write_clip h s data :
  slice_ok h s →
  take (length data `min` s_len s) (mem_read (mem_write h s data) s) = take (s_len s) data.
Proof.
  intros Hs. destruct (decide (length data ≤ s_len s)%nat) as [Hle|Hgt].
  - rewrite Nat.min_l, (take_ge data) by done. by apply mem_read_write.
  - rewrite Nat.min_r by lia.
    assert (Hw : mem_write h s data = mem_write h s (take (s_len s) data)).
    { unfold mem_write. destruct (h_mem h !! s_arr s); [|done]. by rewrite take_take, Nat.min_id. }
    rewrite Hw. pose proof (mem_read_write h s (take (s_len s) data) Hs) as H.
    rewrite length_take, Nat.min_l in H by lia. apply H. lia.
Qed.

(** ** Messages *)

(** What [Read] would hand out for a message. *)
Definition view (h : Heap) (m : Message) : datagram :=
  (take (m_N m) (mem_read h (vec_get h (m_Buffers m))), take (m_NN m) (mem_read h (m_OOB m)), m_Addr m).

Definition clip (d : datagram) : datagram :=
  let '(data, odata, addr) := d in
  (take MaxPacketBufferSize data, take MaxPacketBufferSize odata, addr).

(** The memory a message writes to. *)
Definition msg_arrs (h : Heap) (m : Message) : list nat :=
  [s_arr (vec_get h (m_Buffers m)); s_arr (m_OOB m)].

(** Both slices of a message are whole buffers. *)
Definition msg_ok (h : Heap) (m : Message) : Prop :=
  slice_ok h (vec_get h (m_Buffers m)) ∧ s_len (vec_get h (m_Buffers m)) = MaxPacketBufferSize ∧
  slice_ok h (m_OOB m) ∧ s_len (m_OOB m) = MaxPacketBufferSize ∧
  (m_N m ≤ MaxPacketBufferSize)%nat ∧ (m_NN m ≤ MaxPacketBufferSize)%nat.

Definition all_arrs (h : Heap) (ms : list Message) : list nat := concat (msg_arrs h <$> ms).

Lemma elem_of_all_arrs h ms m a : m ∈ ms → a ∈ msg_arrs h m → a ∈ all_arrs h ms.
Proof.
  intros Hm Ha. unfold all_arrs. apply list_elem_of_In, in_concat. exists (msg_arrs h m).
  split; [|by apply list_elem_of_In]. by apply list_elem_of_In, list_elem_of_fmap_2.
Qed.

Lemma all_arrs_frame h h' ms : h_vec h' = h_vec h → all_arrs h' ms = all_arrs h ms.
Proof.
  intros E. unfold all_arrs. f_equal. apply list_fmap_ext. intros i m _.
  unfold msg_arrs, vec_get. by rewrite E.
Qed.

Lemma view_frame h h' m :
  h_vec h' = h_vec h → (∀ a, a ∈ msg_arrs h m → h_mem h' !! a = h_mem h !! a) → view h' m = view h m.
Proof.
  intros Hv Hm. unfold view, mem_read, vec_get in *. rewrite Hv.
  rewrite !Hm; [done|unfold msg_arrs, vec_get; set_solver..].
Qed.

Lemma msg_ok_frame h h' m :
  h_vec h' = h_vec h → (∀ s, slice_ok h s → slice_ok h' s) → msg_ok h m → msg_ok h' m.
Proof.
  intros Hv Hs (H1 & H2 & H3 & H4 & H5). unfold msg_ok, vec_get in *. rewrite Hv.
  split_and!; naive_solver.
Qed.

Lemma mem_write_other h s data a : a ≠ s_arr s → h_mem (mem_write h s data) !! a = h_mem h !! a.
Proof.
  intros Hne. unfold mem_write. destruct (h_mem h !! s_arr s); [|done]. simpl. by rewrite lookup_insert_ne.
Qed.

(** One message filled by the kernel. *)
Lemma deliver_spec d m h m' h' :
  deliver d m h = (m', h') → msg_ok h m → NoDup (msg_arrs h m) →
  view h' m' = clip d ∧ msg_ok h' m' ∧ m_Buffers m' = m_Buffers m ∧ m_OOB m' = m_OOB m ∧
  h_vec h' = h_vec h ∧ h_buf h' = h_buf h ∧
  (∀ s, slice_ok h s → slice_ok h' s) ∧
  (∀ a, a ∉ msg_arrs h m → h_mem h' !! a = h_mem h !! a).
Proof.
  destruct d as [[data odata] addr]. unfold deliver. intros [= <- <-] (H1 & H2 & H3 & H4 & H5 & H6) Hn.
  set (buf := vec_get h (m_Buffers m)) in *. set (h1 := mem_write h buf data).
  assert (Hne : s_arr (m_OOB m) ≠ s_arr buf).
  { unfold msg_arrs in Hn. fold buf in Hn. apply NoDup_cons in Hn as [Hn _]. set_solver. }
  assert (Hvec : h_vec (mem_write h1 (m_OOB m) odata) = h_vec h)
    by (unfold h1; by rewrite !mem_write_vec).
  assert (Hok : ∀ s, slice_ok h s → slice_ok (mem_write h1 (m_OOB m) odata) s)
    by (intros s Hs; by apply slice_ok_write, slice_ok_write).
  split_and!; try done.
  - unfold view, clip. simpl. unfold vec_get at 1. rewrite Hvec. fold (vec_get h (m_Buffers m)). fold buf.
    rewrite mem_read_write_ne by done. unfold h1 at 1. rewrite mem_read_write_clip by done.
    rewrite mem_read_write_clip by (by apply slice_ok_write). by rewrite H2, H4.
  - unfold msg_ok. simpl. unfold vec_get. rewrite Hvec. fold (vec_get h (m_Buffers m)). fold buf.
    split_and!; auto; lia.
  - unfold h1. by rewrite !mem_write_buf.
  - intros a Ha. unfold msg_arrs in Ha. fold buf in Ha. unfold h1.
    rewrite !mem_write_other by set_solver. done.
Qed.

(** A batch filled by the kernel: the first messages show the datagrams, the
    others are unchanged. *)
Lemma deliver_all_spec ds ms h ms' h' :
  deliver_all ds ms h = (ms', h') → Forall (msg_ok h) ms → NoDup (all_arrs h ms) →
  (length ds ≤ length ms)%nat →
  view h' <$> ms' = (clip <$> ds) ++ (view h <$> drop (length ds) ms) ∧ Forall (msg_ok h') ms' ∧
  m_Buffers <$> ms' = m_Buffers <$> ms ∧ m_OOB <$> ms' = m_OOB <$> ms ∧
  h_vec h' = h_vec h ∧ h_buf h' = h_buf h ∧
  (∀ s, slice_ok h s → slice_ok h' s) ∧
  (∀ a, a ∉ all_arrs h ms → h_mem h' !! a = h_mem h !! a).
Proof.
  revert ms h ms' h'. induction ds as [|d ds IH]; intros [|m ms] h ms' h' E Hok Hn Hl; simpl in *;
    try (injection E as <- <-; done); try lia.
  destruct (deliver d m h) as [m1 h1] eqn:E1. destruct (deliver_all ds ms h1) as [ms2 h2] eqn:E2.
  injection E as <- <-. apply Forall_cons in Hok as [Hm Hms].
  unfold all_arrs in Hn. simpl in Hn. fold (all_arrs h ms) in Hn.
  assert (Hsplit : NoDup (msg_arrs h m) ∧ (∀ a, a ∈ msg_arrs h m → a ∉ all_arrs h ms) ∧ NoDup (all_arrs h ms))
    by (apply NoDup_app; exact Hn).
  destruct Hsplit as (Hn1 & Hdis & Hn2).
  destruct (deliver_spec _ _ _ _ _ E1 Hm Hn1) as (V1 & O1 & B1 & OO1 & Hv1 & Hb1 & Hs1 & Hf1).
  destruct (IH ms h1 ms2 h2 E2) as (V2 & O2 & B2 & OO2 & Hv2 & Hb2 & Hs2 & Hf2); [| |lia|].
  { eapply Forall_impl; [exact Hms|]. intros x Hx. by eapply msg_ok_frame. }
  { by rewrite (all_arrs_frame h h1). }
  assert (Hrest : ∀ x, x ∈ ms → view h1 x = view h x).
  { intros x Hx. apply view_frame; [done|]. intros a Ha. apply Hf1. intros Ha'. apply (Hdis a Ha').
    by apply (elem_of_all_arrs h ms x). }
  rewrite (all_arrs_frame h h1) in Hf2 by done. simpl.
  split_and!; try congruence; auto.
  - f_equal.
    + rewrite <- V1. apply view_frame; [done|]. intros a Ha. apply Hf2. apply Hdis.
      unfold msg_arrs, vec_get in *. by rewrite Hv1, B1, OO1 in Ha.
    + etrans; [exact V2|]. f_equal. apply list_fmap_ext. intros i x Hx. apply Hrest.
      rewrite lookup_drop in Hx. by eapply list_elem_of_lookup_2.
  - constructor; [by eapply msg_ok_frame|done].
  - by f_equal.
  - by f_equal.
  - intros a Ha. change (a ∉ msg_arrs h m ++ all_arrs h ms) in Ha. apply not_elem_of_app in Ha as [? ?]. rewrite Hf2, Hf1; done.
Qed.

(** ** The reader's state *)

Section inv.
Context {K : Type} `{!BufferPool Slice K} `{!SysBatchReader K}.
Variable os : OS.
#[local] Abbreviation bs := (batchSize os).
Implicit Types (h : Heap) (r : batchReader) (w : World K).

(** Message [i] points into its own buffers. *)
Definition linked_at h r (i : nat) : Prop :=
  ∀ m b ob, r_messages r !! i = Some m → r_buffers r !! i = Some b → r_oobBuffers r !! i = Some ob →
    vec_get h (m_Buffers m) = buf_B h b ∧ m_OOB m = buf_B h ob.

(** Buffers and messages, linked or not. *)
Record core_inv h r : Prop := {
  co_msgs : length (r_messages r) = bs;
  co_bufs : length (r_buffers r) = bs;
  co_obufs : length (r_oobBuffers r) = bs;
  co_vecs : NoDup (m_Buffers <$> r_messages r);
  co_arrs : NoDup ((λ b, s_arr (buf_B h b)) <$> r_buffers r ++ r_oobBuffers r);
  co_ok : ∀ b, b ∈ r_buffers r ++ r_oobBuffers r →
          slice_ok h (buf_B h b) ∧ s_len (buf_B h b) = MaxPacketBufferSize;
  co_counts : ∀ m, m ∈ r_messages r →
              (m_N m ≤ MaxPacketBufferSize)%nat ∧ (m_NN m ≤ MaxPacketBufferSize)%nat
}.

(** A new reader has consumed a full batch, in effect; afterwards all
    messages are linked. *)
Record reader_inv h r : Prop := {
  ri_core : core_inv h r;
  ri_pos : (r_readPos r ≤ r_len r ≤ bs)%nat;
  ri_link : (r_readPos r = bs) ∨ ∀ i, linked_at h r i
}.

(** Messages received and not yet returned. *)
Definition unread r : list Message := drop (r_readPos r) (take (r_len r) (r_messages r)).
Definition pending h r : list datagram := view h <$> unread r.

Lemma core_lookup h r i :
  core_inv h r → (i < bs)%nat →
  ∃ m b ob, r_messages r !! i = Some m ∧ r_buffers r !! i = Some b ∧ r_oobBuffers r !! i = Some ob ∧
    s_len (buf_B h b) = MaxPacketBufferSize ∧ s_len (buf_B h ob) = MaxPacketBufferSize.
Proof.
  intros C Hi.
  destruct (lookup_lt_is_Some_2 (r_messages r) i) as [m Hm]; [by rewrite (co_msgs _ _ C)|].
  destruct (lookup_lt_is_Some_2 (r_buffers r) i) as [b Hb]; [by rewrite (co_bufs _ _ C)|].
  destruct (lookup_lt_is_Some_2 (r_oobBuffers r) i) as [ob Hob]; [by rewrite (co_obufs _ _ C)|].
  exists m, b, ob. split_and!; try done; apply (co_ok _ _ C), elem_of_app.
  - left. by eapply list_elem_of_lookup_2.
  - right. by eapply list_elem_of_lookup_2.
Qed.

(** Full buffers are kept. *)
Lemma renewBuffer_keeps bufs p i size b w :
  bufs !! i = Some b → (size ≤ s_len (buf_B (w_heap w) b))%nat →
  renewBuffer bufs p i size w = (Ret bufs, w).
Proof.
  intros Hb Hl. unfold renewBuffer. rewrite Hb. gosimpl.
  by rewrite (proj2 (Nat.ltb_ge _ _)) by done.
Qed.

Definition relink (i : nat) (m : Message) (b ob : nat) h r : batchReader :=
  MkReader (r_readPos r) (r_len r)
    (<[i := MkMsg (m_Buffers m) (buf_B h ob) (m_Addr m) (m_N m) (m_NN m)]> (r_messages r))
    (r_buffers r) (r_oobBuffers r) (r_closed r) (r_buffersReleased r).

Lemma refresh_one_eq i r w m b ob :
  core_inv (w_heap w) r →
  r_messages r !! i = Some m → r_buffers r !! i = Some b → r_oobBuffers r !! i = Some ob →
  refresh_one i r w =
  (Ret (relink i m b ob (w_heap w) r),
   set_heap (vec_set (m_Buffers m) (buf_B (w_heap w) b) (w_heap w)) w).
Proof.
  intros C Hm Hb Hob. unfold refresh_one.
  assert (Hi : (i < bs)%nat) by (rewrite <- (co_msgs _ _ C); by eapply lookup_lt_Some).
  destruct (core_lookup _ _ _ C Hi) as (m' & b' & ob' & ? & ? & ? & Hl1 & Hl2). simplify_eq.
  pose proof oob_fits. destruct r as [rp rl ms bufs obufs cl rel]; simpl in *.
  erewrite GoM_bind_Ret by (eapply renewBuffer_keeps; [done|lia]).
  erewrite GoM_bind_Ret by (eapply renewBuffer_keeps; [done|lia]).
  unfold set_slices, heapM. simpl. rewrite Hm, Hb, Hob. done.
Qed.

Lemma relink_core h r i m b ob :
  core_inv h r → r_messages r !! i = Some m →
  core_inv (vec_set (m_Buffers m) (buf_B h b) h) (relink i m b ob h r).
Proof.
  intros C Hm. destruct C as [H1 H2 H3 H4 H5 H6 H7]. constructor; simpl; try done.
  - by rewrite length_insert.
  - rewrite list_fmap_insert. simpl. rewrite list_insert_id; [done|]. by rewrite list_lookup_fmap, Hm.
  - intros x [j Hj]%list_elem_of_lookup_1.
    apply list_lookup_insert_Some in Hj as [(-> & <- & _)|(_ & Hj)]; simpl; [apply (H7 m)|apply (H7 x)];
      by eapply list_elem_of_lookup_2.
Qed.

Lemma relink_linked h r i m b ob :
  core_inv h r → r_messages r !! i = Some m → r_buffers r !! i = Some b → r_oobBuffers r !! i = Some ob →
  let h' := vec_set (m_Buffers m) (buf_B h b) h in
  linked_at h' (relink i m b ob h r) i ∧ ∀ j, linked_at h r j → linked_at h' (relink i m b ob h r) j.
Proof.
  intros C Hm Hb Hob h'.
  assert (Hi : linked_at h' (relink i m b ob h r) i).
  { intros m' b' ob' Hm' Hb' Hob'. simpl in *.
    rewrite list_lookup_insert_eq in Hm' by (by eapply lookup_lt_Some). simplify_eq. simpl.
    unfold vec_get, h', vec_set. simpl. by rewrite lookup_insert_eq. }
  split; [done|]. intros j Hj. destruct (decide (j = i)) as [->|Hne]; [done|].
  intros m' b' ob' Hm' Hb' Hob'. simpl in *. rewrite list_lookup_insert_ne in Hm' by done.
  destruct (Hj m' b' ob' Hm' Hb' Hob') as [Hv ?]. split; [|done].
  unfold vec_get, h', vec_set. simpl. rewrite lookup_insert_ne; [done|].
  intros Heq. apply Hne. eapply (NoDup_lookup (m_Buffers <$> r_messages r)); [apply C| |].
  - by rewrite list_lookup_fmap, Hm'.
  - rewrite list_lookup_fmap, Hm. simpl. by f_equal.
Qed.

(** Fields a refresh keeps. *)
Definition same_reader r r' : Prop :=
  r_readPos r' = r_readPos r ∧ r_len r' = r_len r ∧ r_closed r' = r_closed r ∧
  r_buffersReleased r' = r_buffersReleased r.

Lemma refresh_spec idxs r w :
  core_inv (w_heap w) r → Forall (λ i, (i < bs)%nat) idxs →
  ∃ r' w', refresh idxs r w = (Ret r', w') ∧ core_inv (w_heap w') r' ∧ same_reader r r' ∧
    w_k w' = w_k w ∧ w_log w' = w_log w ∧
    (∀ i, i ∈ idxs ∨ linked_at (w_heap w) r i → linked_at (w_heap w') r' i).
Proof.
  intros C H. revert r w C. induction H as [|i idxs Hi _ IH]; intros r w C.
  - exists r, w. unfold same_reader. split_and!; try done. intros i [[]%not_elem_of_nil|?]; done.
  - destruct (core_lookup _ _ _ C Hi) as (m & b & ob & Hm & Hb & Hob & _).
    cbn [refresh]. erewrite GoM_bind_Ret by (by eapply refresh_one_eq).
    destruct (relink_linked _ _ _ _ _ _ C Hm Hb Hob) as [Hli Hlj].
    edestruct (IH (relink i m b ob (w_heap w) r)
      (set_heap (vec_set (m_Buffers m) (buf_B (w_heap w) b) (w_heap w)) w))
      as (r' & w' & E & C' & (S1 & S2 & S3 & S4) & Hk & Hlg & HL); [by apply relink_core|].
    exists r', w'. unfold same_reader. split_and!; try done.
    intros j [[->|Hj]%elem_of_cons|Hj]; apply HL; simpl; auto.
Qed.

(** Linked messages are not changed by a refresh. *)
Lemma refresh_linked idxs r w :
  core_inv (w_heap w) r → (∀ i, linked_at (w_heap w) r i) → Forall (λ i, (i < bs)%nat) idxs →
  refresh idxs r w = (Ret r, w).
Proof.
  intros C L. induction 1 as [|i idxs Hi _ IH]; [done|].
  destruct (core_lookup _ _ _ C Hi) as (m & b & ob & Hm & Hb & Hob & Hl1 & _).
  destruct (L i m b ob Hm Hb Hob) as [Hv Ho].
  cbn [refresh]. erewrite GoM_bind_Ret by (by eapply refresh_one_eq).
  assert (relink i m b ob (w_heap w) r = r) as ->.
  { unfold relink. rewrite <- Ho. destruct m. simpl. rewrite list_insert_id by done. by destruct r. }
  assert (set_heap (vec_set (m_Buffers m) (buf_B (w_heap w) b) (w_heap w)) w = w) as ->; [|done].
  destruct w as [lg [mem vec buf] k]. unfold set_heap, vec_set. simpl in *. do 2 f_equal.
  apply insert_id. unfold vec_get in Hv. simpl in Hv. destruct (vec !! m_Buffers m) as [s0|] eqn:E.
  - simpl in Hv. by f_equal.
  - simpl in Hv. pose proof max_positive. rewrite <- Hv in Hl1. simpl in Hl1. lia.
Qed.

(** Linked messages are ready for the kernel. *)
Lemma linked_slices h r :
  core_inv h r → (∀ i, linked_at h r i) →
  (λ m, vec_get h (m_Buffers m)) <$> r_messages r = buf_B h <$> r_buffers r ∧
  m_OOB <$> r_messages r = buf_B h <$> r_oobBuffers r.
Proof.
  intros C L. pose proof (co_msgs _ _ C). pose proof (co_bufs _ _ C). pose proof (co_obufs _ _ C).
  split; apply list_eq; intros i; rewrite !list_lookup_fmap;
    (destruct (decide (i < bs)%nat) as [Hi|Hi];
     [ destruct (core_lookup _ _ _ C Hi) as (m & b & ob & Hm & Hb & Hob & _);
       rewrite Hm, ?Hb, ?Hob; simpl; f_equal; by apply (L i m b ob)
     | rewrite !lookup_ge_None_2 by lia; done ]).
Qed.

Lemma all_arrs_perm h ms :
  all_arrs h ms ≡ₚ (s_arr <$> ((λ m, vec_get h (m_Buffers m)) <$> ms)) ++ (s_arr <$> (m_OOB <$> ms)).
Proof.
  unfold all_arrs. induction ms as [|m ms IH]; [done|]. simpl. rewrite IH. simpl. solve_Permutation.
Qed.

Lemma linked_ready h r :
  core_inv h r → (∀ i, linked_at h r i) →
  Forall (msg_ok h) (r_messages r) ∧ NoDup (all_arrs h (r_messages r)).
Proof.
  intros C L. destruct (linked_slices _ _ C L) as [Hv Ho]. split.
  - apply Forall_forall. intros m Hm. unfold msg_ok. pose proof (co_counts _ _ C m Hm) as [? ?].
    assert (vec_get h (m_Buffers m) ∈ buf_B h <$> r_buffers r) as (b & -> & Hb)%list_elem_of_fmap.
    { rewrite <- Hv. apply list_elem_of_fmap. by exists m. }
    assert (m_OOB m ∈ buf_B h <$> r_oobBuffers r) as (ob & -> & Hob)%list_elem_of_fmap.
    { rewrite <- Ho. by apply list_elem_of_fmap_2. }
    destruct (co_ok _ _ C b), (co_ok _ _ C ob); [set_solver..|]. done.
  - rewrite all_arrs_perm, Hv, Ho, <- !list_fmap_compose, <- fmap_app. apply C.
Qed.

(** ** Receiving a batch *)

Lemma core_deliver h h' r ms :
  core_inv h r → m_Buffers <$> ms = m_Buffers <$> r_messages r →
  m_OOB <$> ms = m_OOB <$> r_messages r →
  h_vec h' = h_vec h → h_buf h' = h_buf h → (∀ s, slice_ok h s → slice_ok h' s) →
  Forall (msg_ok h') ms →
  let r' := MkReader (r_readPos r) (r_len r) ms (r_buffers r) (r_oobBuffers r) (r_closed r)
              (r_buffersReleased r) in
  core_inv h' r' ∧ ((∀ i, linked_at h r i) → ∀ i, linked_at h' r' i).
Proof.
  intros C HB HO Hv Hb Hs Hok r'.
  assert (HbB : ∀ b, buf_B h' b = buf_B h b) by (intros b; unfold buf_B; by rewrite Hb).
  destruct C as [H1 H2 H3 H4 H5 H6 H7]. split.
  - constructor; simpl; try done.
    + by rewrite <- (length_fmap m_Buffers), HB, length_fmap.
    + by rewrite HB.
    + erewrite list_fmap_ext; [exact H5|]. intros ? b _. simpl. by rewrite HbB.
    + intros b Hin. rewrite HbB. destruct (H6 b Hin). auto.
    + intros m Hm. rewrite Forall_forall in Hok. by destruct (Hok m Hm) as (_ & _ & _ & _ & ? & ?).
  - intros L i m b ob Hm Hb' Hob. simpl in *.
    assert (HB' : (m_Buffers <$> ms) !! i = Some (m_Buffers m)) by (by rewrite list_lookup_fmap, Hm).
    assert (HO' : (m_OOB <$> ms) !! i = Some (m_OOB m)) by (by rewrite list_lookup_fmap, Hm).
    rewrite HB, list_lookup_fmap in HB'. rewrite HO, list_lookup_fmap in HO'.
    destruct (r_messages r !! i) as [m0|] eqn:Em; simplify_eq/=.
    destruct (L i m0 b ob Em Hb' Hob) as [? ?]. rewrite !HbB. unfold vec_get in *. rewrite Hv. split; congruence.
Qed.

Lemma sys_read_spec r w ds err k :
  core_inv (w_heap w) r → (∀ i, linked_at (w_heap w) r i) → r_len r = bs →
  ReadBatch bs (w_k w) = (ds, err, k) →
  ∃ r' w', sys_read r w = (Ret (length (take bs ds), err, r'), w') ∧
    core_inv (w_heap w') r' ∧ (∀ i, linked_at (w_heap w') r' i) ∧ same_reader r r' ∧
    w_k w' = k ∧ w_log w' = w_log w ∧
    view (w_heap w') <$> r_messages r' =
      (clip <$> take bs ds) ++ (view (w_heap w) <$> drop (length (take bs ds)) (r_messages r)).
Proof.
  intros C L Hl E. unfold sys_read. rewrite Hl, E.
  pose proof (co_msgs _ _ C) as Hm. rewrite (take_ge (r_messages r)), (drop_ge (r_messages r)) by lia.
  destruct (deliver_all (take bs ds) (r_messages r) (w_heap w)) as [ms h'] eqn:Ed.
  destruct (linked_ready _ _ C L) as [Hok Hn].
  destruct (deliver_all_spec _ _ _ _ _ Ed Hok Hn) as (V & O & B & OO & Hv & Hb & Hs & _).
  { rewrite Hm, length_take. lia. }
  destruct (core_deliver _ _ _ _ C B OO Hv Hb Hs O) as [C' L'].
  rewrite app_nil_r. eexists _, _. split; [done|]. unfold same_reader. simpl.
  rewrite <- Hl. split_and!; auto. by rewrite Hl.
Qed.

(** What [Read] returns for a datagram. *)
Definition give (b oob : list Z) (d : datagram) : ReadResult :=
  let '(data, odata, addr) := d in
  MkRead (go_copy b data).1 (go_copy oob odata).1 (go_copy b data).2 (go_copy oob odata).2 0 addr None.

Lemma mem_read_to h s n s' :
  slice_to s n = Some s' → (n ≤ s_len s)%nat → mem_read h s' = take n (mem_read h s).
Proof.
  unfold slice_to, mem_read. case_match; [|done]. intros [= <-] Hl. simpl.
  rewrite take_take. by rewrite Nat.min_l.
Qed.

Lemma take_message_spec b oob r w m ms :
  core_inv (w_heap w) r → (∀ i, linked_at (w_heap w) r i) → (r_len r ≤ bs)%nat →
  unread r = m :: ms →
  take_message b oob r w =
    (Ret (give b oob (view (w_heap w) m), set_pos (S (r_readPos r)) (r_len r) r), w) ∧
  unread (set_pos (S (r_readPos r)) (r_len r) r) = ms ∧ (r_readPos r < r_len r)%nat.
Proof.
  intros C L Hl Hu. unfold unread in Hu.
  assert (Hm : take (r_len r) (r_messages r) !! r_readPos r = Some m).
  { rewrite <- (Nat.add_0_r (r_readPos r)), <- lookup_drop, Hu. done. }
  apply lookup_take_Some in Hm as [Hm Hlt].
  destruct (linked_ready _ _ C L) as [Hok _]. rewrite Forall_forall in Hok.
  destruct (Hok m) as (H1 & H2 & H3 & H4 & H5 & H6); [by eapply list_elem_of_lookup_2|].
  unfold take_message. rewrite (proj2 (Nat.ltb_lt _ _)) by done. rewrite Hm. gosimpl.
  destruct H1 as [Hc1 _], H3 as [Hc3 _].
  assert (Hs : ∀ s n, (n ≤ s_cap s)%nat → slice_to s n = Some (MkSlice (s_arr s) (s_off s) n (s_cap s)))
    by (intros s n Hn; unfold slice_to; by rewrite (proj2 (Nat.leb_le _ _))).
  pose proof (Hs (vec_get (w_heap w) (m_Buffers m)) (m_N m) ltac:(lia)) as Hs1.
  pose proof (Hs (m_OOB m) (m_NN m) ltac:(lia)) as Hs2.
  rewrite Hs1, Hs2. rewrite (mem_read_to _ _ _ _ Hs1), (mem_read_to _ _ _ _ Hs2) by lia.
  split_and!; [|  |done].
  - unfold give, view. by destruct (go_copy b _), (go_copy oob _).
  - unfold unread. simpl. rewrite <- Nat.add_1_r, <- drop_drop. by rewrite Hu.
Qed.

(** ** Read *)

Lemma reader_inv_step h r :
  reader_inv h r → (∀ i, linked_at h r i) → (r_readPos r < r_len r)%nat →
  reader_inv h (set_pos (S (r_readPos r)) (r_len r) r).
Proof.
  intros [C Hp _] L Hlt. constructor; simpl; [|lia|by right]. by destruct C.
Qed.

(** While messages of the last batch are unread, [Read] returns the oldest of
    them, up to the length of the caller's buffers, removes just that one, and
    asks the kernel for nothing. *)
Lemma read_pending_ok b oob r w d ds :
  reader_inv (w_heap w) r → r_closed r = false → pending (w_heap w) r = d :: ds →
  ∃ r', batchReader_Read os b oob r w = (Ret (give b oob d, r'), w) ∧
    reader_inv (w_heap w) r' ∧ r_closed r' = false ∧ pending (w_heap w) r' = ds.
Proof.
  intros I Hc Hp. unfold pending in Hp. destruct (unread r) as [|m ms] eqn:Hu; [done|].
  injection Hp as <- <-. pose proof I as [C Hpos Hlink].
  assert (Hlt : (r_readPos r < r_len r)%nat).
  { apply (f_equal length) in Hu. unfold unread in Hu. rewrite length_drop, length_take in Hu. simpl in Hu. lia. }
  assert (L : ∀ i, linked_at (w_heap w) r i) by (destruct Hlink; [lia|done]).
  destruct (take_message_spec b oob r w m ms C L ltac:(lia) Hu) as (E & Hu' & _).
  unfold batchReader_Read. rewrite Hc. rewrite (proj2 (Nat.eqb_neq _ _)) by lia.
  rewrite E. eexists. split_and!; [done|by apply reader_inv_step|done|]. unfold pending. by rewrite Hu'.
Qed.

(** The state in which [Read] asks the kernel. *)
Lemma read_refreshed r w :
  reader_inv (w_heap w) r → r_readPos r = r_len r →
  ∃ r1 w1, refresh (seq 0 (r_readPos r)) (set_pos (r_readPos r) bs r) w = (Ret r1, w1) ∧
    core_inv (w_heap w1) r1 ∧ (∀ i, linked_at (w_heap w1) r1 i) ∧
    same_reader (set_pos (r_readPos r) bs r) r1 ∧ w_k w1 = w_k w ∧
    ((∀ i, linked_at (w_heap w) r i) → r1 = set_pos (r_readPos r) bs r ∧ w1 = w).
Proof.
  intros [C Hpos Hlink] Heq.
  assert (C0 : core_inv (w_heap w) (set_pos (r_readPos r) bs r)) by (by destruct C).
  assert (Hseq : Forall (λ i, (i < bs)%nat) (seq 0 (r_readPos r))).
  { apply Forall_forall. intros i Hi. apply list_elem_of_In, in_seq in Hi. lia. }
  destruct (refresh_spec _ _ _ C0 Hseq) as (r1 & w1 & E & C1 & S1 & Hk & _ & HL).
  exists r1, w1. split_and!; try done.
  - intros i. destruct Hlink as [Hfull|L]; [|intros; apply HL; right; apply L].
    destruct (decide (i < bs)%nat) as [Hi|Hi].
    + apply HL. left. apply list_elem_of_In, in_seq. lia.
    + intros m b' ob Hm. apply lookup_lt_Some in Hm. rewrite (co_msgs _ _ C1) in Hm. lia.
  - intros L. rewrite (refresh_linked _ _ _ C0 L Hseq) in E. by simplify_eq.
Qed.

(** [Read] with nothing buffered, up to the result of [ReadBatch]. *)
Lemma read_batch_eq b oob r w ds err k :
  reader_inv (w_heap w) r → r_closed r = false → pending (w_heap w) r = [] →
  ReadBatch bs (w_k w) = (ds, err, k) →
  ∃ r1 w1, core_inv (w_heap w1) r1 ∧ (∀ i, linked_at (w_heap w1) r1 i) ∧
    r_readPos r1 = 0%nat ∧ r_len r1 = bs ∧ r_closed r1 = false ∧ w_k w1 = k ∧
    batchReader_Read os b oob r w =
      match err with
      | Some e => (Ret (MkRead b oob 0 0 0 None (Some e), r1), w1)
      | None =>
        if (length (take bs ds) =? 0)%nat then (Ret (MkRead b oob 0 0 0 None None, r1), w1)
        else take_message b oob (set_pos 0 (length (take bs ds)) r1) w1
      end ∧
    (∃ old, view (w_heap w1) <$> r_messages r1 = (clip <$> take bs ds) ++ old ∧
       ((∀ i, linked_at (w_heap w) r i) →
        old = drop (length (take bs ds)) (view (w_heap w) <$> r_messages r))).
Proof.
  intros I Hc Hp E. pose proof I as [C Hpos _].
  assert (Heq : r_readPos r = r_len r).
  { apply (f_equal length) in Hp. unfold pending, unread in Hp.
    rewrite length_fmap, length_drop, length_take, (co_msgs _ _ C) in Hp. simpl in Hp. lia. }
  destruct (read_refreshed r w I Heq) as (r0 & w0 & E0 & C0 & L0 & (S1 & S2 & S3 & S4) & Hk & Hid).
  simpl in S1, S2, S3, S4.
  assert (C0' : core_inv (w_heap w0) (set_pos 0 (r_len r0) r0)) by (by destruct C0).
  destruct (sys_read_spec (set_pos 0 (r_len r0) r0) w0 ds err k C0' L0)
    as (r1 & w1 & E1 & C1 & L1 & (T1 & T2 & T3 & T4) & Hk1 & _ & V); [done|by rewrite Hk|].
  simpl in T1, T2, T3, T4. exists r1, w1. split_and!; try congruence; try done.
  - unfold batchReader_Read. rewrite Hc, Heq, Nat.eqb_refl, <- Heq.
    rewrite (GoM_bind_Ret _ _ _ _ _ E0), (GoM_bind_Ret _ _ _ _ _ E1).
    destruct err; [done|]. case_match; [done|]. by rewrite T1.
  - eexists. split; [exact V|]. intros L. destruct (Hid L) as [-> ->]. simpl. by rewrite fmap_drop.
Qed.

(** With nothing buffered, [Read] returns the first datagram of the new batch
    and buffers the others, each clipped to the size of the reader's buffers. *)
Lemma read_new_batch_ok b oob r w d ds k :
  reader_inv (w_heap w) r → r_closed r = false → pending (w_heap w) r = [] →
  ReadBatch bs (w_k w) = (d :: ds, None, k) → (length (d :: ds) ≤ bs)%nat →
  ∃ r' w', batchReader_Read os b oob r w = (Ret (give b oob (clip d), r'), w') ∧
    reader_inv (w_heap w') r' ∧ r_closed r' = false ∧ w_k w' = k ∧
    pending (w_heap w') r' = clip <$> ds.
Proof.
  intros I Hc Hp E Hl.
  destruct (read_batch_eq b oob r w _ _ _ I Hc Hp E)
    as (r1 & w1 & C1 & L1 & P1 & Ln1 & Cl1 & Hk & ER & old & V & _).
  rewrite take_ge in ER, V by done. cbn [length Nat.eqb] in ER.
  set (r2 := set_pos 0 (S (length ds)) r1) in *.
  assert (C2 : core_inv (w_heap w1) r2) by (by destruct C1).
  assert (Hu : view (w_heap w1) <$> unread r2 = clip <$> (d :: ds)).
  { unfold unread, r2. cbn [set_pos r_readPos r_len r_messages]. rewrite drop_0, fmap_take, V.
    apply take_app_length'. by rewrite length_fmap. }
  destruct (unread r2) as [|m ms] eqn:Em; [done|]. injection Hu as Hv Hvs.
  destruct (take_message_spec b oob r2 w1 m ms C2 L1 Hl Em) as (ET & Hu' & Hlt).
  rewrite ET in ER. eexists _, w1. split_and!; [rewrite ER, Hv; done| |done|done|].
  - apply reader_inv_step; [|exact L1|done]. constructor; [done|unfold r2; simpl in *; lia|by right].
  - unfold pending. by rewrite Hu'.
Qed.

(** ** Sequences of reads *)

(** Batches that successive calls of [ReadBatch] will return. *)
Inductive batches : K → list (list datagram) → Prop :=
| batches_nil k : batches k []
| batches_cons k d ds k' rest :
    ReadBatch bs k = (d :: ds, None, k') → (length (d :: ds) ≤ bs)%nat → batches k' rest →
    batches k ((d :: ds) :: rest).

(** [Read] once for each pair of buffers. *)
Fixpoint reads (bufs : list (list Z * list Z)) (r : batchReader)
    : GoM (World K) (list ReadResult * batchReader) :=
  match bufs with
  | [] => mret ([], r)
  | (b, oob) :: bufs =>
    x ← batchReader_Read os b oob r;
    y ← reads bufs x.2;
    mret (x.1 :: y.1, y.2)
  end.

Definition gives (bufs : list (list Z * list Z)) (ds : list datagram) : list ReadResult :=
  zip_with (λ p d, give p.1 p.2 d) bufs ds.

Lemma reads_cons b oob bufs r w res r1 w1 rs r2 w2 :
  batchReader_Read os b oob r w = (Ret (res, r1), w1) → reads bufs r1 w1 = (Ret (rs, r2), w2) →
  reads ((b, oob) :: bufs) r w = (Ret (res :: rs, r2), w2).
Proof. intros E1 E2. simpl. by rewrite (GoM_bind_Ret _ _ _ _ _ E1), (GoM_bind_Ret _ _ _ _ _ E2). Qed.

(** C10: every datagram is read once, in order.  A reader in a good state, over a
    kernel whose successive [ReadBatch] calls succeed with the batches [bss], answers as many [Read]s as there are
    datagrams, those still buffered and those of the batches: the i-th call
    succeeds with the i-th datagram, its bytes and control bytes clipped to the
    reader's buffers (1452 bytes) and copied up to the length of the caller's,
    its sender, although the kernel writes whole batches through the shared
    memory of recycled buffers; and the reader is in a good state again. *)
Theorem reads_fifo bufs r w bss :
  reader_inv (w_heap w) r → r_closed r = false → batches (w_k w) bss →
  (length bufs ≤ length (pending (w_heap w) r ++ (clip <$> concat bss)))%nat →
  ∃ r' w', reads bufs r w = (Ret (gives bufs (pending (w_heap w) r ++ (clip <$> concat bss)), r'), w') ∧
    reader_inv (w_heap w') r' ∧ r_closed r' = false.
Proof.
  revert r w bss. induction bufs as [|[b oob] bufs IH]; intros r w bss I Hc B Hl; [by exists r, w|].
  destruct (pending (w_heap w) r) as [|d ds] eqn:Hp.
  - inversion B as [k Hk E|k d ds k' rest E Hn B' Hk HE]; subst; [simpl in Hl; lia|].
    destruct (read_new_batch_ok b oob r w d ds k' I Hc Hp E Hn) as (r1 & w1 & E1 & I1 & Hc1 & <- & Hp1).
    destruct (IH r1 w1 rest I1 Hc1 B') as (r2 & w2 & E2 & I2 & Hc2).
    { rewrite Hp1, length_app, !length_fmap. simpl in Hl. rewrite length_fmap, length_app in Hl. lia. }
    exists r2, w2. split; [|done]. rewrite (reads_cons _ _ _ _ _ _ _ _ _ _ _ E1 E2).
    simpl. by rewrite Hp1, fmap_app.
  - destruct (read_pending_ok b oob r w d ds I Hc Hp) as (r1 & E1 & I1 & Hc1 & Hp1).
    destruct (IH r1 w bss I1 Hc1 B) as (r2 & w2 & E2 & I2 & Hc2); [rewrite Hp1; simpl in Hl; lia|].
    exists r2, w2. split; [|done]. rewrite (reads_cons _ _ _ _ _ _ _ _ _ _ _ E1 E2). by rewrite Hp1.
Qed.

(** C34: a failed read replays the last batch.  When everything received has
    been read and [ReadBatch] fails (a read deadline, say), [Read] reports the
    error, but leaves all [batchSize] old messages marked as unread: the next
    [Read] does not ask the kernel, and returns the first old datagram again,
    as a success. *)
Theorem read_error_replays b oob b' oob' r w e k m ms :
  reader_inv (w_heap w) r → (∀ i, linked_at (w_heap w) r i) → r_closed r = false →
  pending (w_heap w) r = [] → ReadBatch bs (w_k w) = ([], Some e, k) →
  r_messages r = m :: ms →
  ∃ r1 w1 r2, batchReader_Read os b oob r w = (Ret (MkRead b oob 0 0 0 None (Some e), r1), w1) ∧
    pending (w_heap w1) r1 = view (w_heap w) <$> r_messages r ∧
    batchReader_Read os b' oob' r1 w1 = (Ret (give b' oob' (view (w_heap w) m), r2), w1).
Proof.
  intros I L Hc Hp E Hm.
  destruct (read_batch_eq b oob r w _ _ _ I Hc Hp E)
    as (r1 & w1 & C1 & L1 & P1 & Ln1 & Cl1 & Hk & ER & old & V & Hold).
  rewrite take_nil in V, Hold. simpl in V, Hold. rewrite (Hold L) in V.
  assert (Hpend : pending (w_heap w1) r1 = view (w_heap w) <$> r_messages r).
  { unfold pending, unread. rewrite P1, Ln1, drop_0, take_ge by (by rewrite (co_msgs _ _ C1)).
    by rewrite V, drop_0. }
  assert (I1 : reader_inv (w_heap w1) r1) by (constructor; [done|lia|by right]).
  rewrite Hm in Hpend. simpl in Hpend.
  assert (Hc2 : batchReader_Read os b' oob' r1 w1 = take_message b' oob' r1 w1).
  { unfold batchReader_Read. rewrite Cl1, P1, Ln1. pose proof (co_msgs _ _ (ri_core _ _ I)) as Hl.
    rewrite Hm in Hl. simpl in Hl. by rewrite (proj2 (Nat.eqb_neq _ _)) by lia. }
  unfold pending in Hpend. destruct (unread r1) as [|m1 ms1] eqn:Hu; [done|].
  pose proof (f_equal (hd (view (w_heap w) m)) Hpend) as Hv. pose proof (f_equal tail Hpend) as Hvs.
  simpl in Hv, Hvs. destruct (take_message_spec b' oob' r1 w1 m1 ms1 C1 L1 ltac:(lia) Hu) as (ET & _).
  eexists r1, w1, _. split_and!; [exact ER| |].
  - unfold pending. rewrite Hu, Hm. simpl. by rewrite Hv, Hvs.
  - rewrite Hc2, ET, Hv. done.
Qed.

End inv.

(** ** Creation *)

Section creation.
Context {K : Type} `{!BufferPool Slice K} `{!BufferPoolLaws Slice K s_len} `{!SysBatchReader K}.
Implicit Types (h : Heap) (w : World K).

(** A buffer from the pool, with new memory. *)
Lemma get_buffer p w L :
  owned L (h_buf (w_heap w)) (w_k w) →
  ∃ b w1 w2, Get p w = (Ret b, w1) ∧ ensure_len b MaxPacketBufferSize w1 = (Ret (), w2) ∧
    owned (b :: L) (h_buf (w_heap w2)) (w_k w2) ∧
    (∀ x, x ∈ L → h_buf (w_heap w2) !! x = h_buf (w_heap w) !! x) ∧
    h_vec (w_heap w2) = h_vec (w_heap w) ∧
    let s := buf_B (w_heap w2) b in
    slice_ok (w_heap w2) s ∧ s_len s = MaxPacketBufferSize ∧ h_mem (w_heap w) !! s_arr s = None ∧
    h_mem (w_heap w2) = <[s_arr s := replicate MaxPacketBufferSize 0]> (h_mem (w_heap w)).
Proof.
  intros O. destruct w as [lg [mem vec buf] k]. simpl in *. unfold Get, ensure_len. simpl.
  destruct (pool_Get p buf k) as [[b t] k1] eqn:E.
  destruct (owned_Get _ _ _ _ _ _ _ O E) as [O1 F1].
  destruct (pool_Get_empty _ _ _ _ _ _ E) as (v & Ht & Hv).
  eexists b, _, _. split; [done|]. simpl.
  assert (Hlen : s_len (buf_B (MkHeap mem vec t) b) = 0%nat)
    by (unfold buf_B; simpl; by rewrite Ht, lookup_insert_eq).
  rewrite Hlen. rewrite (proj2 (Nat.ltb_lt _ _)) by apply max_positive.
  pose proof (make_bytes_spec MaxPacketBufferSize (MkHeap mem vec t) _ _ eq_refl)
    as (Hf & Hok & _). simpl in Hf, Hok.
  split; [done|]. cbn. unfold buf_B. cbn. rewrite lookup_insert_eq. simpl. split_and!; try done.
  - by apply owned_write.
  - intros x Hx. rewrite lookup_insert_ne; [by apply F1|].
    intros ->. pose proof (ow_nodup _ _ _ O1) as Hn. by apply NoDup_cons in Hn as [? _].
Qed.

Record created (n : nat) (L : list nat) w (ms : list Message) (bs obs : list nat) w' : Prop := {
  cr_len : length ms = n ∧ length bs = n ∧ length obs = n;
  cr_owned : owned (bs ++ obs ++ L) (h_buf (w_heap w')) (w_k w');
  cr_old : ∀ x, x ∈ L → h_buf (w_heap w') !! x = h_buf (w_heap w) !! x;
  cr_mem : h_mem (w_heap w) ⊆ h_mem (w_heap w');
  cr_vec : h_vec (w_heap w) ⊆ h_vec (w_heap w');
  cr_arrs : NoDup ((λ b, s_arr (buf_B (w_heap w') b)) <$> bs ++ obs);
  cr_ok : ∀ b, b ∈ bs ++ obs → slice_ok (w_heap w') (buf_B (w_heap w') b) ∧
            s_len (buf_B (w_heap w') b) = MaxPacketBufferSize ∧
            h_mem (w_heap w) !! s_arr (buf_B (w_heap w') b) = None;
  cr_vecs : NoDup (m_Buffers <$> ms);
  cr_msgs : ∀ m, m ∈ ms → h_vec (w_heap w) !! m_Buffers m = None ∧ m_N m = 0%nat ∧ m_NN m = 0%nat
}.

Lemma slice_ok_mono h h' s : h_mem h ⊆ h_mem h' → slice_ok h s → slice_ok h' s.
Proof.
  intros Hs (Hc & a & Ha & Hl). split; [done|]. exists a. split; [|done]. by eapply lookup_weaken.
Qed.

(** One more message in front. *)
Lemma created_cons n L w w2 w4 w5 ms bs obs w' b ob m :
  let h2 := w_heap w2 in let h4 := w_heap w4 in
  (* the data buffer *)
  owned (b :: L) (h_buf h2) (w_k w2) →
  (∀ x, x ∈ L → h_buf h2 !! x = h_buf (w_heap w) !! x) → h_vec h2 = h_vec (w_heap w) →
  slice_ok h2 (buf_B h2 b) → s_len (buf_B h2 b) = MaxPacketBufferSize →
  h_mem (w_heap w) !! s_arr (buf_B h2 b) = None →
  h_mem h2 = <[s_arr (buf_B h2 b) := replicate MaxPacketBufferSize 0]> (h_mem (w_heap w)) →
  (* the control buffer *)
  owned (ob :: b :: L) (h_buf h4) (w_k w4) →
  (∀ x, x ∈ b :: L → h_buf h4 !! x = h_buf h2 !! x) → h_vec h4 = h_vec h2 →
  slice_ok h4 (buf_B h4 ob) → s_len (buf_B h4 ob) = MaxPacketBufferSize →
  h_mem h2 !! s_arr (buf_B h4 ob) = None →
  h_mem h4 = <[s_arr (buf_B h4 ob) := replicate MaxPacketBufferSize 0]> (h_mem h2) →
  (* the vector and the rest *)
  h_vec (w_heap w) !! m_Buffers m = None → m_N m = 0%nat → m_NN m = 0%nat →
  h_mem (w_heap w5) = h_mem h4 → h_buf (w_heap w5) = h_buf h4 →
  h_vec h4 ⊆ h_vec (w_heap w5) → is_Some (h_vec (w_heap w5) !! m_Buffers m) →
  created n (ob :: b :: L) w5 ms bs obs w' →
  created (S n) L w (m :: ms) (b :: bs) (ob :: obs) w'.
Proof.
  intros h2 h4 O2 F2 V2 Ok2 Le2 Fr2 M2 O4 F4 V4 Ok4 Le4 Fr4 M4 Hmv HmN HmNN M5 B5 V5 Hm5 C.
  destruct C as [(Hl1 & Hl2 & Hl3) Ow Old Mem Vec Arrs Ok Vecs Msgs]. simpl in *.
  assert (Hmem2 : h_mem (w_heap w) ⊆ h_mem h2) by (rewrite M2; by apply insert_subseteq).
  assert (Hmem4 : h_mem h2 ⊆ h_mem h4) by (rewrite M4; by apply insert_subseteq).
  assert (Hmem : h_mem h4 ⊆ h_mem (w_heap w')) by (by rewrite <- M5).
  assert (Hob : buf_B (w_heap w') ob = buf_B h4 ob)
    by (unfold buf_B; rewrite Old by (by left); by rewrite B5).
  assert (Hb : buf_B (w_heap w') b = buf_B h2 b).
  { unfold buf_B. rewrite Old by (right; by left). rewrite B5. f_equal. apply F4. by left. }
  assert (Hmb : h_mem h2 !! s_arr (buf_B h2 b) = Some (replicate MaxPacketBufferSize 0))
    by (by rewrite M2, lookup_insert_eq).
  assert (Hmob : h_mem h4 !! s_arr (buf_B h4 ob) = Some (replicate MaxPacketBufferSize 0))
    by (by rewrite M4, lookup_insert_eq).
  assert (Hnew : ∀ x, x ∈ bs ++ obs → h_mem h4 !! s_arr (buf_B (w_heap w') x) = None)
    by (intros x Hx; rewrite <- M5; by apply Ok).
  assert (Hperm : b :: bs ++ ob :: obs ≡ₚ ob :: b :: (bs ++ obs)) by solve_Permutation.
  constructor.
  - simpl. lia.
  - eapply owned_perm; [exact Ow|]. simpl. solve_Permutation.
  - intros x Hx. rewrite Old, B5 by (by do 2 right). rewrite F4 by (by right). by apply F2.
  - etrans; [exact Hmem2|]. by etrans.
  - rewrite <- V2, <- V4. by etrans.
  - cbn [app]. rewrite Hperm. cbn [fmap list_fmap]. rewrite Hob, Hb.
    apply NoDup_cons. split; [|apply NoDup_cons; split; [|done]].
    + intros [He|(x & He & Hx)%list_elem_of_fmap]%elem_of_cons.
      * rewrite He in Fr4. congruence.
      * pose proof (Hnew x Hx) as Hn. rewrite <- He in Hn. congruence.
    + intros (x & He & Hx)%list_elem_of_fmap. pose proof (Hnew x Hx) as Hn. rewrite <- He in Hn.
      rewrite (lookup_weaken _ _ _ _ Hmb Hmem4) in Hn. done.
  - intros x Hx. cbn [app] in Hx. rewrite Hperm in Hx.
    apply elem_of_cons in Hx as [->|[->|Hx]%elem_of_cons].
    + rewrite Hob. split_and!; [by eapply slice_ok_mono|done|]. by eapply lookup_weaken_None.
    + rewrite Hb. split_and!; [eapply slice_ok_mono; [|done]; by etrans|done|done].
    + destruct (Ok x Hx) as (? & ? & Hn). split_and!; [done..|].
      eapply lookup_weaken_None; [exact Hn|]. rewrite M5. by etrans.
  - simpl. apply NoDup_cons. split; [|done]. intros (x & He & Hx)%list_elem_of_fmap.
    destruct (Msgs x Hx) as [Hn _]. rewrite <- He in Hn. destruct Hm5. congruence.
  - intros x [->|Hx]%elem_of_cons; [done|]. destruct (Msgs x Hx) as (Hn & ? & ?). split_and!; try done.
    eapply lookup_weaken_None; [exact Hn|]. by rewrite <- V2, <- V4.
Qed.

Lemma new_messages_spec n w L :
  owned L (h_buf (w_heap w)) (w_k w) →
  ∃ ms bs obs w', new_messages n w = (Ret (ms, bs, obs), w') ∧ created n L w ms bs obs w'.
Proof.
  revert w L. induction n as [|n IH]; intros w L O.
  - exists [], [], [], w. split; [done|]. constructor; simpl; try done;
      first [apply NoDup_nil_2 | intros ? []%not_elem_of_nil].
  - cbn [new_messages].
    destruct (get_buffer bufferPool w L O) as (b & w1 & w2 & E1 & E2 & O2 & F2 & V2 & S2 & L2 & N2 & M2).
    destruct (get_buffer oobBufferPool w2 _ O2) as (ob & w3 & w4 & E3 & E4 & O4 & F4 & V4 & S4 & L4 & N4 & M4).
    erewrite GoM_bind_Ret by exact E1. erewrite GoM_bind_Ret by exact E2.
    erewrite GoM_bind_Ret by exact E3. erewrite GoM_bind_Ret by exact E4.
    set (v := fresh (dom (h_vec (w_heap w4)))).
    assert (Hv : h_vec (w_heap w4) !! v = None) by (apply not_elem_of_dom, is_fresh).
    erewrite GoM_bind_Ret by (unfold heapM; reflexivity).
    erewrite GoM_bind_Ret by (unfold heapM; reflexivity). fold v.
    match goal with |- context [(new_messages n ≫= _) ?w0] => set (w5 := w0) end.
    destruct (IH w5 (ob :: b :: L)) as (ms & bs & obs & w' & E & C); [exact O4|].
    erewrite GoM_bind_Ret by exact E. eexists _, _, _, w'. split; [done|].
    eapply created_cons with (w2 := w2) (w4 := w4) (w5 := w5); try done.
    + simpl. by rewrite <- V2, <- V4.
    + unfold w5. simpl. rewrite insert_insert_eq. by apply insert_subseteq.
    + unfold w5. simpl. rewrite lookup_insert_eq. by eexists.
Qed.

Lemma newBatchReader_owned os w L :
  owned L (h_buf (w_heap w)) (w_k w) →
  ∃ r w', newBatchReader os w = (Ret r, w') ∧ reader_inv os (w_heap w') r ∧
    r_closed r = false ∧ r_buffersReleased r = false ∧ pending (w_heap w') r = [] ∧
    owned (r_buffers r ++ r_oobBuffers r ++ L) (h_buf (w_heap w')) (w_k w').
Proof.
  intros O. unfold newBatchReader.
  destruct (new_messages_spec (batchSize os) w L O) as (ms & bs & obs & w' & E & C).
  erewrite GoM_bind_Ret by exact E. eexists _, w'. split; [done|].
  destruct C as [(Hl1 & Hl2 & Hl3) Ow Old Mem Vec Arrs Ok Vecs Msgs].
  split_and!; [|done|done| |done].
  - constructor; simpl; [|lia|by left]. constructor; simpl; try done.
    + intros b Hb. by destruct (Ok b Hb) as (? & ? & _).
    + intros m Hm. destruct (Msgs m Hm) as (_ & -> & ->). lia.
  - unfold pending, unread. simpl. rewrite drop_ge; [done|]. rewrite length_take. lia.
Qed.

(** A new reader is ready.  Started with pools that hold no buffer in use,
    [newBatchReader] yields an open reader with nothing to read whose
    [2*batchSize] buffers are distinct and do not share memory, although it
    makes every message's data slice point to its control buffer: the first
    [Read] sets all of them before the kernel sees them. *)
Lemma newBatchReader_ok os w :
  owned [] (h_buf (w_heap w)) (w_k w) →
  ∃ r w', newBatchReader os w = (Ret r, w') ∧ reader_inv os (w_heap w') r ∧
    r_closed r = false ∧ pending (w_heap w') r = [].
Proof. intros O. destruct (newBatchReader_owned os w [] O) as (r & w' & ? & ? & ? & _ & ? & _). by exists r, w'. Qed.

End creation.
