(* ===== verification/ReaderLife.v ===== *)
(** * The life of a batch reader's buffers

    From [newBatchReader] through any [Read]s to [Close]: the reader owns its
    [2*batchSize] buffers all the time, and gives each back once. *)

From S2P Require Import Prelude GoLib Types Interfaces Ownership GoWorld Cmsg BatchReader BatchReaderInv.

(** The socket's calls do not touch the pools. *)
Class SocketApart (K : Type) `{!BufferPool Slice K} `{!BufferPoolLaws Slice K s_len} `{!SysBatchReader K} : Prop := {
  apart_batch n k r k' : ReadBatch n k = (r, k') → (length r.1 ≤ n)%nat ∧ ∀ p, pool_idle p k' = pool_idle p k;
  apart_close k e k' : sbr_Close k = (e, k') → ∀ p, pool_idle p k' = pool_idle p k
}.

Section life.
Context {K : Type} `{!BufferPool Slice K} `{!BufferPoolLaws Slice K s_len} `{!SysBatchReader K} `{!SocketApart K}.
Variable os : OS.
#[local] Abbreviation bs := (batchSize os).
Implicit Types (r : batchReader) (w : World K).

Lemma owned_pools L t k k' : (∀ p, pool_idle p k' = pool_idle p k) → owned L t k → owned L t k'.
Proof.
  intros H [H1 H2 H3 H4]. constructor; [done..| |by rewrite !H].
  intros p b Hb. rewrite H in Hb. eauto.
Qed.

(** The buffers, and what the program may do with them, are as before. *)
Record same_bufs r w r' w' : Prop := {
  sb_buffers : r_buffers r' = r_buffers r;
  sb_oobBuffers : r_oobBuffers r' = r_oobBuffers r;
  sb_released : r_buffersReleased r' = r_buffersReleased r;
  sb_buf : h_buf (w_heap w') = h_buf (w_heap w);
  sb_idle : ∀ p, pool_idle p (w_k w') = pool_idle p (w_k w)
}.

Lemma same_bufs_refl r w : same_bufs r w r w.
Proof. done. Qed.
Lemma same_bufs_trans r1 w1 r2 w2 r3 w3 :
  same_bufs r1 w1 r2 w2 → same_bufs r2 w2 r3 w3 → same_bufs r1 w1 r3 w3.
Proof. intros [] []. constructor; intros; etrans; eauto. Qed.

Lemma same_bufs_pos p l r w r' w' : same_bufs (set_pos p l r) w r' w' → same_bufs r w r' w'.
Proof. by intros []. Qed.

(** No buffer is ever renewed: all have their full length. *)
Lemma refresh_bufs idxs r w :
  core_inv os (w_heap w) r → Forall (λ i, (i < bs)%nat) idxs →
  ∃ r' w', refresh idxs r w = (Ret r', w') ∧ same_bufs r w r' w'.
Proof.
  intros C H. revert r w C. induction H as [|i idxs Hi _ IH]; intros r w C; [by exists r, w|].
  destruct (core_lookup _ _ _ _ C Hi) as (m & b & ob & Hm & Hb & Hob & _).
  cbn [refresh]. erewrite GoM_bind_Ret by (by eapply refresh_one_eq).
  edestruct (IH (relink i m b ob (w_heap w) r)
    (set_heap (vec_set (m_Buffers m) (buf_B (w_heap w) b) (w_heap w)) w)) as (r' & w' & E & S);
    [by apply relink_core|].
  exists r', w'. split; [exact E|]. eapply same_bufs_trans; [|exact S]. done.
Qed.

Lemma deliver_all_buf ds ms h : h_buf (deliver_all ds ms h).2 = h_buf h.
Proof.
  revert ms h. induction ds as [|[[data odata] addr] ds IH]; intros [|m ms] h; simpl; try done.
  match goal with |- context [deliver_all ds ms ?h'] => specialize (IH ms h'); destruct (deliver_all ds ms h') end.
  simpl in *. by rewrite IH, !mem_write_buf.
Qed.

Lemma sys_read_bufs r w x w' : sys_read r w = (Ret x, w') → same_bufs r w x.2 w'.
Proof.
  unfold sys_read. destruct (ReadBatch (r_len r) (w_k w)) as [[ds err] k] eqn:E.
  apply apart_batch in E as [_ Hi].
  pose proof (deliver_all_buf (take (r_len r) ds) (take (r_len r) (r_messages r)) (w_heap w)) as Hd.
  destruct (deliver_all _ _ _) as [ms h]. intros [= <- <-]. done.
Qed.

Lemma take_message_bufs b oob r w x w' : take_message b oob r w = (Ret x, w') → same_bufs r w x.2 w'.
Proof.
  unfold take_message. destruct (_ <? _)%nat; [|done]. destruct (r_messages r !! _); [|done]. gosimpl.
  repeat (case_match; try done); intros; by simplify_eq/=.
Qed.

Lemma Read_bufs b oob r w x w' :
  reader_inv os (w_heap w) r → batchReader_Read os b oob r w = (Ret x, w') → same_bufs r w x.2 w'.
Proof.
  intros I E. unfold batchReader_Read in E. destruct (r_closed r); [by injection E as <- <-|].
  destruct (_ =? _)%nat; [|by eapply take_message_bufs].
  apply GoM_bind_inv in E as (r1 & w1 & E1 & E). apply GoM_bind_inv in E as ([[n err] r2] & w2 & E2 & E).
  destruct (refresh_bufs (seq 0 (r_readPos r)) (set_pos (r_readPos r) bs r) w) as (r1' & w1' & E1' & S1).
  { by destruct I as [[] _ _]. }
  { apply Forall_forall. intros i Hi. apply list_elem_of_In, in_seq in Hi. destruct I as [_ ? _]. lia. }
  rewrite E1 in E1'. simplify_eq. apply sys_read_bufs in E2.
  apply same_bufs_pos in S1, E2. eapply same_bufs_trans; [exact S1|]. eapply same_bufs_trans; [exact E2|]. simpl.
  destruct err; [by injection E as <- <-|]. case_match; [by injection E as <- <-|].
  apply take_message_bufs in E. by apply same_bufs_pos in E.
Qed.

Lemma Read_inv b oob r w x w' :
  reader_inv os (w_heap w) r → batchReader_Read os b oob r w = (Ret x, w') → reader_inv os (w_heap w') x.2.
Proof.
  intros I E. destruct (r_closed r) eqn:Hc; [unfold batchReader_Read in E; rewrite Hc in E; by injection E as <- <-|].
  destruct (pending (w_heap w) r) as [|d ds] eqn:Hp.
  - destruct (ReadBatch bs (w_k w)) as [[ds err] k] eqn:Eb.
    destruct (apart_batch _ _ _ _ Eb) as [Hl _]. simpl in Hl.
    assert (Hother : ∀ r1 w1, core_inv os (w_heap w1) r1 → (∀ i, linked_at (w_heap w1) r1 i) →
      r_readPos r1 = 0%nat → r_len r1 = bs → reader_inv os (w_heap w1) r1).
    { intros r1 w1 C1 L1 P1 Ln1. constructor; [done|lia|by right]. }
    destruct err as [e|]; [|destruct ds as [|d ds]].
    1,2: destruct (read_batch_eq os b oob r w _ _ k I Hc Hp Eb) as (r1 & w1 & C1 & L1 & P1 & Ln1 & _ & _ & ER & _);
      rewrite ?take_nil in ER; rewrite ER in E; injection E as <- <-; by apply Hother.
    destruct (read_new_batch_ok os b oob r w d ds k I Hc Hp Eb Hl) as (r' & w1 & ER & I' & _).
    rewrite ER in E. by injection E as <- <-.
  - destruct (read_pending_ok os b oob r w d ds I Hc Hp) as (r' & ER & I' & _).
    rewrite ER in E. by injection E as <- <-.
Qed.

Lemma reads_bufs bufs r w x w' :
  reader_inv os (w_heap w) r → reads os bufs r w = (Ret x, w') →
  reader_inv os (w_heap w') x.2 ∧ same_bufs r w x.2 w'.
Proof.
  revert r w x. induction bufs as [|[b oob] bufs IH]; intros r w x I E; cbn [reads] in E; [by injection E as <- <-|].
  apply GoM_bind_inv in E as (y & w1 & E1 & E). apply GoM_bind_inv in E as (z & w2 & E2 & E).
  injection E as <- <-. simpl.
  destruct (IH _ _ _ (Read_inv _ _ _ _ _ _ I E1) E2) as [I2 S2]. split; [done|].
  eapply same_bufs_trans; [by eapply Read_bufs|done].
Qed.

Lemma Put_owned p b L w :
  owned (b :: L) (h_buf (w_heap w)) (w_k w) →
  ∃ w', Put p b w = (Ret (), w') ∧ owned L (h_buf (w_heap w')) (w_k w').
Proof.
  intros O. unfold Put. destruct (pool_Put p b (h_buf (w_heap w)) (w_k w)) as [t k] eqn:E.
  eexists. split; [done|]. by destruct (owned_Put _ _ _ _ _ _ _ O E).
Qed.

Lemma release_owned bufs obufs L w :
  length bufs = length obufs → owned (bufs ++ obufs ++ L) (h_buf (w_heap w)) (w_k w) →
  ∃ w', release bufs obufs w = (Ret (), w') ∧ owned L (h_buf (w_heap w')) (w_k w').
Proof.
  revert obufs w. induction bufs as [|b bufs IH]; intros [|ob obufs] w Hl O; try done; [by exists w|].
  destruct (Put_owned bufferPool b (bufs ++ (ob :: obufs) ++ L) w O) as (w1 & E1 & O1).
  destruct (Put_owned oobBufferPool ob (bufs ++ obufs ++ L) w1) as (w2 & E2 & O2).
  { eapply owned_perm; [exact O1|]. simpl. by rewrite Permutation_middle. }
  cbn [release]. rewrite (GoM_bind_Ret _ _ _ _ _ E1), (GoM_bind_Ret _ _ _ _ _ E2).
  apply IH; [by injection Hl|done].
Qed.

Definition closed_reader r : batchReader :=
  MkReader (r_readPos r) (r_len r) (r_messages r) (r_buffers r) (r_oobBuffers r) true true.

End life.
