(* ===== verification/BatchWriter.v ===== *)
(** * The batch writer: [src/raw/sys_conn_oob_writer.go]

    [batchWriter] with its flush worker, and [basicWriter].  As in the reader
    the messages' slices live on the heap.  A [Message] taken out of the slice
    of messages is a copy: assigning its fields [OOB] and [Addr] does not
    change the queued message, while assigning [Buffers[0]] goes through the
    shared one-element slice. *)

From S2P Require Import Prelude GoLib Types Interfaces GoWorld Cmsg SockBuf BatchReader.

(** [WriteBatch] is given the messages' bytes, control bytes and addresses. *)
Class SysBatchWriter (K : Type) : Type := {
  WriteBatch : list datagram → K → (nat * option error) * K;
  sbw_Close : K → option error * K
}.

Record batchWriter : Type := MkWriter {
  bw_isConnected : bool;
  bw_writePos : nat;            (* uint8 *)
  bw_lastWrite : Z;
  bw_messages : list Message;
  bw_buffers : list nat;
  bw_oobBuffers : list nat;
  bw_closed : bool;
  bw_buffersReleased : bool
}.

Section writer.
Context {K : Type} `{!BufferPool Slice K} `{!SysBatchWriter K}.
Variable os : OS.
#[local] Abbreviation M := (GoM (World K)).
#[local] Abbreviation batchSize := (batchSize os).

Definition slice_panic : string := "runtime error: slice bounds out of range".

Definition set_wpos (p : nat) (r : batchWriter) : batchWriter :=
  MkWriter (bw_isConnected r) p (bw_lastWrite r) (bw_messages r) (bw_buffers r) (bw_oobBuffers r)
    (bw_closed r) (bw_buffersReleased r).

(** The bytes of a message, as the kernel sees them. *)
Definition payload (h : Heap) (m : Message) : datagram :=
  (mem_read h (vec_get h (m_Buffers m)), mem_read h (m_OOB m), m_Addr m).

(** The loop of [flush]: [messages[txIdx:writePos]] panics when [txIdx] is past
    [writePos]; [None] is out of fuel. *)
Fixpoint flush_loop (fuel txIdx : nat) (r : batchWriter) : World K → option (outcome (nat * option error) * World K) :=
  λ w,
  if (txIdx <? length (bw_messages r))%nat then
    match fuel with
    | O => None
    | S fuel =>
      if (bw_writePos r <? txIdx)%nat then Some (Panic slice_panic, w)
      else
        let ms := payload (w_heap w) <$> drop txIdx (take (bw_writePos r) (bw_messages r)) in
        let '((n, err), k) := WriteBatch ms (w_k w) in
        let w := set_k k w in
        match err with
        | Some e => Some (Ret (0%nat, Some e), w)
        | None =>
          if (n =? 0)%nat then Some (Ret (0%nat, None), w)
          else flush_loop fuel (txIdx + n) r w
        end
    end
  else Some (Ret (txIdx, None), w).

(** The new slices of message [i]; the source sets [OOB] from the data buffer. *)
Definition wset_slices (i : nat) (r : batchWriter) : M batchWriter :=
  match bw_messages r !! i, bw_buffers r !! i with
  | Some m, Some b =>
    heapM (λ h,
      (MkWriter (bw_isConnected r) (bw_writePos r) (bw_lastWrite r)
         (<[i := MkMsg (m_Buffers m) (buf_B h b) (m_Addr m) (m_N m) (m_NN m)]> (bw_messages r))
         (bw_buffers r) (bw_oobBuffers r) (bw_closed r) (bw_buffersReleased r),
       vec_set (m_Buffers m) (buf_B h b) h))
  | _, _ => gopanic index_panic
  end.

Definition wrefresh_one (i : nat) (r : batchWriter) : M batchWriter :=
  bs ← renewBuffer (bw_buffers r) bufferPool i MaxPacketBufferSize;
  obs ← renewBuffer (bw_oobBuffers r) oobBufferPool i oobBufferSize;
  wset_slices i (MkWriter (bw_isConnected r) (bw_writePos r) (bw_lastWrite r) (bw_messages r) bs obs
                   (bw_closed r) (bw_buffersReleased r)).

Fixpoint wrefresh (idxs : list nat) (r : batchWriter) : M batchWriter :=
  match idxs with
  | [] => mret r
  | i :: idxs => r ← wrefresh_one i r; wrefresh idxs r
  end.

(** [flush] at time [now]. *)
Definition flush (now : Z) (r : batchWriter) : M (nat * option error * batchWriter) :=
  let r := MkWriter (bw_isConnected r) 0 now (bw_messages r) (bw_buffers r) (bw_oobBuffers r)
             (bw_closed r) (bw_buffersReleased r) in
  x ← (λ w, default (Panic "out of fuel", w) (flush_loop (S (length (bw_messages r))) 0 r w));
  match x.2 with
  | Some e => mret (0%nat, Some e, r)
  | None =>
    if (x.1 =? 0)%nat then mret (0%nat, None, r)
    else r ← wrefresh (seq 0 (bw_writePos r)) r; mret (x.1, None, r)
  end.

(** [copy(dst, src)] into a slice. *)
Definition copy_to (s : Slice) (src : list Z) : M nat :=
  λ w, (Ret (length src `min` s_len s)%nat, set_heap (mem_write (w_heap w) s src) w).

Definition batchWriter_Write (now : Z) (b oob : list Z) (addr : option Addr) (r : batchWriter)
    : M (WriteResult * batchWriter) :=
  if bw_closed r then mret (MkWrite 0 0 (Some ErrClosed), r)
  else
    match bw_messages r !! bw_writePos r with
    | None => gopanic index_panic
    | Some msg =>
      w ← getw;
      dataN ← copy_to (vec_get (w_heap w) (m_Buffers msg)) b;
      oobN ← copy_to (m_OOB msg) oob;
      w ← getw;
      match slice_to (vec_get (w_heap w) (m_Buffers msg)) dataN with
      | None => gopanic slice_panic
      | Some s =>
        heapM (λ h, (tt, vec_set (m_Buffers msg) s h));;
        match slice_from (m_OOB msg) oobN with
        | None => gopanic slice_panic
        | Some _ =>
          (* msg.OOB and msg.Addr belong to the copy *)
          let r := set_wpos (S (bw_writePos r)) r in
          if (batchSize <? bw_writePos r)%nat then
            x ← flush now r;
            let '(_, err, r) := x in
            match err with
            | Some e => mret (MkWrite 0 0 (Some e), r)
            | None => mret (MkWrite dataN oobN None, r)
            end
          else mret (MkWrite dataN oobN None, r)
        end
      end
    end.

(** One tick of the worker that [newBatchWriter] starts.  The worker tests
    [closed] before it waits for the tick, so a tick may follow [Close]. *)
Definition worker_tick (now interval : Z) (r : batchWriter) : M batchWriter :=
  if (0 <? bw_writePos r)%nat && (interval <=? now - bw_lastWrite r) then
    x ← flush now r; mret x.2
  else mret r.

Definition batchWriter_Close (now : Z) (r : batchWriter) : M (option error * batchWriter) :=
  let r := MkWriter (bw_isConnected r) (bw_writePos r) (bw_lastWrite r) (bw_messages r) (bw_buffers r)
             (bw_oobBuffers r) true (bw_buffersReleased r) in
  r ← (if (0 <? bw_writePos r)%nat then x ← flush now r; mret x.2 else mret r);
  (if bw_buffersReleased r then mret () else release (bw_buffers r) (bw_oobBuffers r));;
  err ← ext sbw_Close;
  mret (err, MkWriter (bw_isConnected r) (bw_writePos r) (bw_lastWrite r) (bw_messages r) (bw_buffers r)
               (bw_oobBuffers r) true true).

(** [newBatchWriter]; its loop is the one of [newBatchReader]. *)
Definition newBatchWriter (isConnected : bool) : M batchWriter :=
  x ← new_messages batchSize;
  let '(ms, bs, obs) := x in
  mret (MkWriter isConnected batchSize 0 ms bs obs false false).

End writer.

(** ** basicWriter *)

Section basic_writer.
Context {K : Type}.
#[local] Abbreviation M := (GoM (World K)).

(** The address of [addr.( *net.UDPAddr)]: a nil interface or another type panics. *)
Definition assert_UDPAddr (a : option Addr) : M (option Addr) :=
  match a with
  | Some (UDPAddr _ _ _) => mret a
  | Some (OtherAddr _) => gopanic "interface conversion: net.Addr is not *net.UDPAddr"
  | None => gopanic "interface conversion: interface is nil, not *net.UDPAddr"
  end.

Definition basicWriter_Write (c : NetConn K) (isConnected : bool) (b oob : list Z) (addr : option Addr)
    : M WriteResult :=
  let send addr :=
    a ← assert_UDPAddr addr;
    match nc_WriteMsgUDP c with
    | Some f => r ← ext (f b oob a); let '(n, oobN, err) := r in mret (MkWrite n oobN err)
    | None => gopanic "nil method"
    end in
  if isConnected then
    match nc_connected c with
    | Some (_, write) => r ← ext (write b); mret (MkWrite r.1 0 r.2)
    | None => send None
    end
  else send addr.

End basic_writer.
