(* ===== verification/Keeps.v ===== *)
(** * What a computation of the raw package leaves alone

    A function of the state outside that neither the pools nor any call made
    by a computation changes.  Used for what has been sent and for what has
    been received. *)

From S2P Require Import Prelude GoLib Types Interfaces GoWorld Cmsg BatchReader BatchWriter.

Class PoolBlind {K T : Type} `{!BufferPool Slice K} (f : K → T) : Prop := {
  blind_Get p t k b t' k' : pool_Get p t k = (b, t', k') → f k' = f k;
  blind_Put p b t k t' k' : pool_Put p b t k = (t', k') → f k' = f k
}.

(** Whether it returns, panics or exits. *)
Definition keeps {K T A : Type} (f : K → T) (m : GoM (World K) A) : Prop :=
  ∀ w, f (w_k (m w).2) = f (w_k w).

Create HintDb keeps.

Section keeps.
Context {K T : Type} (f : K → T).
#[local] Abbreviation M := (GoM (World K)).

Lemma keeps_ret {A} (a : A) : keeps f (mret a : M A).
Proof. done. Qed.
Lemma keeps_panic {A} why : keeps f (gopanic why : M A).
Proof. done. Qed.
Lemma keeps_getw : keeps f (getw : M (World K)).
Proof. done. Qed.
Lemma keeps_bind {A B} (m : M A) (g : A → M B) : keeps f m → (∀ a, keeps f (g a)) → keeps f (m ≫= g).
Proof.
  intros Hm Hg w. specialize (Hm w). unfold mbind, GoM_bind.
  destruct (m w) as [[a|why|code] w']; simpl in *; [|done..]. by rewrite Hg.
Qed.
Lemma keeps_ext {A} (g : K → A * K) : (∀ k a k', g k = (a, k') → f k' = f k) → keeps f (ext g).
Proof. intros H w. unfold ext. destruct (g (w_k w)) eqn:E. by apply H in E. Qed.
Lemma keeps_heapM {A} (g : Heap → A * Heap) : keeps f (heapM g).
Proof. intros w. unfold heapM. by destruct (g (w_heap w)). Qed.
Lemma keeps_ensure b n : keeps f (ensure_len b n : M unit).
Proof. intros w. unfold ensure_len. case_match; [|done]. by destruct (make_bytes n (w_heap w)). Qed.
Lemma keeps_copy s src : keeps f (copy_to s src : M nat).
Proof. done. Qed.
End keeps.

#[export] Hint Resolve keeps_ret keeps_panic keeps_getw keeps_heapM keeps_ensure keeps_copy : keeps.

Ltac keeps := repeat first
  [ progress eauto with keeps | apply keeps_bind; [|intros ?] | case_match ].

Section pools.
Context {K T : Type} `{!BufferPool Slice K} (f : K → T) `{!PoolBlind f}.
#[local] Abbreviation M := (GoM (World K)).

Lemma keeps_Get p : keeps f (Get p : M nat).
Proof.
  intros w. unfold Get. destruct (pool_Get p (h_buf (w_heap w)) (w_k w)) as [[b t] k] eqn:E.
  by apply blind_Get in E.
Qed.
Lemma keeps_Put p b : keeps f (Put p b : M unit).
Proof.
  intros w. unfold Put. destruct (pool_Put p b (h_buf (w_heap w)) (w_k w)) as [t k] eqn:E.
  by apply blind_Put in E.
Qed.
#[local] Hint Resolve keeps_Get keeps_Put : keeps.

Lemma keeps_renew bufs p i n : keeps f (renewBuffer bufs p i n : M (list nat)).
Proof. unfold renewBuffer. keeps. Qed.
Lemma keeps_release bs obs : keeps f (release bs obs : M unit).
Proof. revert obs. induction bs as [|b bs IH]; intros [|ob obs]; simpl; keeps. Qed.
Lemma keeps_new n : keeps f (new_messages n : M (list Message * list nat * list nat)).
Proof. induction n as [|n IH]; simpl; keeps. Qed.
#[local] Hint Resolve keeps_renew : keeps.

Lemma keeps_wrefresh idxs r : keeps f (wrefresh idxs r : M batchWriter).
Proof.
  revert r. induction idxs as [|i idxs IH]; intros r; simpl; keeps.
  unfold wrefresh_one, wset_slices. keeps.
Qed.
End pools.

#[export] Hint Resolve keeps_Get keeps_Put keeps_renew keeps_release keeps_new keeps_wrefresh : keeps.

(** What no call made by the batch writer changes. *)
Section writer.
Context {K T : Type} `{!BufferPool Slice K} `{!SysBatchWriter K} (f : K → T) `{!PoolBlind f}.
Hypothesis WriteBatch_keeps : ∀ ms k r k', WriteBatch ms k = (r, k') → f k' = f k.
Hypothesis Close_keeps : ∀ k e k', sbw_Close k = (e, k') → f k' = f k.
#[local] Abbreviation M := (GoM (World K)).

Lemma keeps_flush_loop fuel txIdx r (w : World K) res w' :
  flush_loop fuel txIdx r w = Some (res, w') → f (w_k w') = f (w_k w).
Proof.
  revert txIdx w. induction fuel as [|fuel IH]; intros txIdx w E; simpl in E; [by case_match; simplify_eq|].
  repeat (case_match; simplify_eq/=); try done; try (by eapply WriteBatch_keeps).
  etrans; [by eapply IH|]. by eapply WriteBatch_keeps.
Qed.

Lemma keeps_flush now r : keeps f (flush now r : M (nat * option error * batchWriter)).
Proof.
  unfold flush. apply keeps_bind; [|intros [n [e|]]; simpl; keeps].
  intros w. match goal with |- context [default _ ?x] => destruct x as [[res w']|] eqn:E end; [|done].
  by eapply keeps_flush_loop.
Qed.

Lemma keeps_writer_Close now r : keeps f (batchWriter_Close now r : M (option error * batchWriter)).
Proof.
  pose proof (keeps_ext f sbw_Close Close_keeps). pose proof (keeps_flush now).
  unfold batchWriter_Close. keeps.
Qed.
End writer.
