(* ===== verification/BatchWriterProps.v ===== *)
(** * What the batch writer does with its packets

    The flush of [batchWriter] passes the kernel an empty slice of messages,
    and its first [Write] indexes past the messages: whatever sequence of
    calls and ticks, nothing is ever handed to the kernel. *)

From S2P Require Import Prelude GoLib Types Interfaces GoWorld Cmsg SockBuf BatchReader BatchWriter Keeps.

(** [WriteBatch] sends at most the messages it is given, in order; the pools
    and [Close] send nothing. *)
Class SendLaws (K : Type) `{!BufferPool Slice K} `{!SysBatchWriter K} : Type := {
  sent : K → list datagram;
  send_batch ms k n err k' :
    WriteBatch ms k = ((n, err), k') → (n ≤ length ms)%nat ∧ sent k' = sent k ++ take n ms;
  send_close k err k' : sbw_Close k = (err, k') → sent k' = sent k;
  send_Get p t k b t' k' : pool_Get p t k = (b, t', k') → sent k' = sent k;
  send_Put p b t k t' k' : pool_Put p b t k = (t', k') → sent k' = sent k
}.

Section props.
Context {K : Type} `{!BufferPool Slice K} `{!SysBatchWriter K} `{!SendLaws K}.
Variable os : OS.
#[local] Abbreviation M := (GoM (World K)).

(** A computation that sends nothing, however it ends. *)
#[local] Abbreviation silent := (keeps sent).

#[local] Instance sent_blind : PoolBlind sent.
Proof. split; [apply send_Get|apply send_Put]. Qed.
#[local] Hint Resolve sent_blind : keeps.

Lemma silent_close : silent (ext sbw_Close : M (option error)).
Proof. apply keeps_ext, send_close. Qed.
#[local] Hint Resolve silent_close : keeps.

(** The flush loop is entered with [writePos] reset: its one [WriteBatch] gets
    no message. *)
Lemma flush_loop_silent r w fuel :
  bw_writePos r = 0%nat →
  ∃ res w', flush_loop (S fuel) 0 r w = Some (res, w') ∧ sent (w_k w') = sent (w_k w) ∧
            (∀ n e, res = Ret (n, e) → n = 0%nat).
Proof.
  intros Hp. cbn [flush_loop]. rewrite Hp. case_match eqn:El.
  - simpl. destruct (WriteBatch [] (w_k w)) as [[n err] k] eqn:E.
    apply send_batch in E as [Hn Hs]. simpl in Hn. assert (n = 0%nat) as -> by lia.
    rewrite app_nil_r in Hs.
    destruct err; simpl; eexists _, _; (split; [done|]; split; [done|]; by intros ? ? [= -> _]).
  - eexists _, _. split; [done|]. split; [done|]. by intros ? ? [= -> _].
Qed.

Lemma silent_flush now r : silent (flush now r : M (nat * option error * batchWriter)).
Proof.
  unfold flush. apply keeps_bind; [|intros [n [e|]]; simpl; keeps].
  intros w.
  match goal with |- context [flush_loop _ 0 ?r0 w] =>
    destruct (flush_loop_silent r0 w (length (bw_messages r)) eq_refl) as (res & w' & E & Hs & _) end.
  simpl in E. simpl. rewrite E. done.
Qed.
#[local] Hint Resolve silent_flush : keeps.

Lemma silent_Write now b oob a r : silent (batchWriter_Write os now b oob a r : M (WriteResult * batchWriter)).
Proof. unfold batchWriter_Write. keeps. Qed.
Lemma silent_tick now i r : silent (worker_tick now i r : M batchWriter).
Proof. unfold worker_tick. keeps. Qed.
Lemma silent_Close now r : silent (batchWriter_Close now r : M (option error * batchWriter)).
Proof. unfold batchWriter_Close. keeps. Qed.
#[local] Hint Resolve silent_Write silent_tick silent_Close : keeps.

(** ** Sequences of calls *)

Inductive wop :=
| OpWrite (now : Z) (b oob : list Z) (addr : option Addr)
| OpTick (now interval : Z)
| OpClose (now : Z).

Definition wstep (op : wop) (r : batchWriter) : M batchWriter :=
  match op with
  | OpWrite now b oob addr => x ← batchWriter_Write os now b oob addr r; mret x.2
  | OpTick now interval => worker_tick now interval r
  | OpClose now => x ← batchWriter_Close now r; mret x.2
  end.

Fixpoint wrun (ops : list wop) (r : batchWriter) : M batchWriter :=
  match ops with
  | [] => mret r
  | op :: ops => r ← wstep op r; wrun ops r
  end.

(** C33: the batch writer never sends.  After [newBatchWriter], for every
    sequence of [Write]s, ticks of the flush worker and [Close], in every
    interleaving and also when it ends in a panic, nothing has been sent: every
    packet that [Write] accepted is lost, contrary to the documented automatic
    flush. *)
Theorem batchWriter_never_sends isConnected ops (w : World K) :
  sent (w_k ((newBatchWriter os isConnected ≫= wrun ops) w).2) = sent (w_k w).
Proof.
  apply keeps_bind; [unfold newBatchWriter; keeps|].
  induction ops as [|op ops IH]; intros r; simpl; keeps. destruct op; simpl; keeps.
Qed.

Lemma new_messages_length n (w : World K) ms bs obs w' :
  new_messages n w = (Ret (ms, bs, obs), w') → length ms = n ∧ length bs = n ∧ length obs = n.
Proof.
  revert w ms bs obs w'. induction n as [|n IH]; intros w ms bs obs w' E; simpl in E; [unfold mret, GoM_ret in E; by simplify_eq|].
  apply GoM_bind_inv in E as (b & w1 & _ & E). apply GoM_bind_inv in E as (u & w2 & _ & E).
  apply GoM_bind_inv in E as (ob & w3 & _ & E). apply GoM_bind_inv in E as (u' & w4 & _ & E).
  apply GoM_bind_inv in E as (v & w5 & _ & E). apply GoM_bind_inv in E as (m & w6 & _ & E).
  apply GoM_bind_inv in E as ([[ms' bs'] obs'] & w7 & E7 & E). unfold mret, GoM_ret in E. simplify_eq/=.
  destruct (IH _ _ _ _ _ E7) as (? & ? & ?). lia.
Qed.

(** The first write panics.  Before the first tick of the worker, [Write] on a
    new batch writer indexes the messages at [batchSize] and panics, whatever
    its arguments. *)
Lemma first_write_panics isConnected (w w' : World K) r now b oob addr :
  newBatchWriter os isConnected w = (Ret r, w') →
  batchWriter_Write os now b oob addr r w' = (Panic index_panic, w').
Proof.
  intros E. unfold newBatchWriter in E. apply GoM_bind_inv in E as ([[ms bs] obs] & w1 & E1 & E).
  unfold mret, GoM_ret in E. injection E as <- <-.
  destruct (new_messages_length _ _ _ _ _ _ E1) as (Hl & _).
  unfold batchWriter_Write. simpl. rewrite lookup_ge_None_2 by lia. done.
Qed.

End props.
