(* ===== verification/OobConn.v ===== *)
(** * Raw connections

    [BasicConn] ([src/raw/sys_conn_basic.go]), [oobConn]
    ([src/raw/sys_conn_oob.go]) with its constructor, the constructors of the
    other systems ([sys_conn_windows.go], [sys_conn_no_oob.go]), and
    [WrapConn] ([src/raw/sys_conn.go]). *)

From S2P Require Import Prelude GoLib Types Interfaces GoWorld Cmsg Platform SockBuf BatchReader.
From S2P Require Import BatchWriter.

(** ** BasicConn *)

Record BasicConn (K : Type) : Type := MkBasic {
  bc_PacketConn : NetConn K; bc_isConnected : bool; bc_supportsDF : bool
}.
Arguments MkBasic {K} _ _ _.
Arguments bc_PacketConn {K} _.
Arguments bc_isConnected {K} _.
Arguments bc_supportsDF {K} _.

Section basic.
Context {K : Type}.
#[local] Abbreviation M := (GoM (World K)).

(** [RemoteAddr] of a connection that may have one. *)
Definition remote_addr (c : NetConn K) : M (option Addr) :=
  λ w, (Ret (match nc_RemoteAddr c with Some f => f (w_k w) | None => None end), w).

Definition Basic_RemoteAddr (c : BasicConn K) : M (option Addr) := remote_addr (bc_PacketConn c).

Definition Basic_ReadPacket (c : BasicConn K) (b oob : list Z) : M ReadResult :=
  r ← match nc_connected (bc_PacketConn c) with
      | Some (read, _) =>
        if bc_isConnected c then
          r ← ext (read b); let '(b', n, err) := r in mret (b', n, None, err)
        else ext (nc_ReadFrom (bc_PacketConn c) b)
      | None => ext (nc_ReadFrom (bc_PacketConn c) b)
      end;
  let '(b', n, addr, err) := r in
  match err with
  | Some e => mret (MkRead b' oob 0 0 ECNUnsupported None (Some e))
  | None => mret (MkRead b' oob n 0 ECNUnsupported addr None)
  end.

Definition Basic_WritePacket (c : BasicConn K) (b oob : list Z) (gsoSize : Z) (ecn : ECN)
    (addr : option Addr) : M WriteResult :=
  if negb (gsoSize =? 0) then
    Log PanicLevel "cannot use GSO with a basicConn";;
    mret (MkWrite 0 0 (Some (ErrText "GSO not supported")))
  else if negb (ecn =? ECNUnsupported) then
    Log PanicLevel "cannot use ECN with a basicConn";;
    mret (MkWrite 0 0 (Some (ErrText "ECN not supported")))
  else
    let send addr := r ← ext (nc_WriteTo (bc_PacketConn c) b addr); mret (MkWrite r.1 0 r.2) in
    if bc_isConnected c then
      match nc_connected (bc_PacketConn c) with
      | Some (_, write) => r ← ext (write b); mret (MkWrite r.1 0 r.2)
      | None => send None
      end
    else send addr.

Definition Basic_Capabilities (c : BasicConn K) : ConnCapabilities :=
  NewConnCapabilities (bc_supportsDF c) false false.

End basic.

(** ** oobConn *)

Inductive oobWriter := BatchW (w : batchWriter) | BasicW (isConnected : bool).

Record oobConn (K : Type) : Type := MkOob {
  oc_conn : NetConn K;
  oc_reader : batchReader;
  oc_writer : oobWriter;
  oc_cap : ConnCapabilities
}.
Arguments MkOob {K} _ _ _ _.
Arguments oc_conn {K} _.
Arguments oc_reader {K} _.
Arguments oc_writer {K} _.
Arguments oc_cap {K} _.

Section oob.
Context {K : Type} {abi : UnixABI} `{!Kernel K} `{!BufferPool Slice K}
  `{!SysBatchReader K} `{!SysBatchWriter K}.
Variable os : OS.
#[local] Abbreviation M := (GoM (World K)).

Definition log_families (what : string) (e4 e6 : option error) : M unit :=
  match e4, e6 with
  | None, None => Log DebugLevel ("Activating reading of " +:+ what +:+ " for IPv4 and IPv6.")%string
  | None, Some _ => Log DebugLevel ("Activating reading of " +:+ what +:+ " for IPv4.")%string
  | _, _ => Log DebugLevel ("Activating reading of " +:+ what +:+ " for IPv6.")%string
  end.

(** The socket is connected: it has a remote address. *)
Definition is_connected (c : NetConn K) : M bool :=
  a ← remote_addr c; mret (bool_decide (a ≠ None)).

(** The writer that [newConn] chooses. *)
Definition newWriter (writeInterval : Z) (isConnected : bool) : M oobWriter :=
  if 0 <? writeInterval then bw ← newBatchWriter os isConnected; mret (BatchW bw)
  else mret (BasicW isConnected).

(** [newConn] of darwin, linux and freebsd. *)
Definition newConn (c : NetConn K) (supportsDF : bool) (writeInterval : Z)
    : M (oobConn K + error) :=
  err ← match nc_SyscallConn c with Some f => ext f | None => gopanic "nil method" end;
  match err with
  | Some e => mret (inr e)
  | None =>
    w ← getw;
    let needsPacketInfo :=
      match nc_LocalAddr c (w_k w) with
      | Some (UDPAddr ip _ _) => IP_IsUnspecified ip
      | _ => false
      end in
    err ← ext Control;
    match err with
    | Some e => mret (inr e)
    | None =>
      errECNIPv4 ← setsockopt Opt_RECVTOS 1;
      errECNIPv6 ← setsockopt Opt_RECVTCLASS 1;
      pi ← (if (needsPacketInfo : bool) then
              e4 ← setsockopt Opt_PKTINFO 1;
              e6 ← setsockopt Opt_RECVPKTINFO6 1; mret (e4, e6)
            else mret (None, None));
      if bool_decide (errECNIPv4 ≠ None ∧ errECNIPv6 ≠ None) then
        mret (inr (ErrText "activating ECN failed for both IPv4 and IPv6"))
      else
        log_families "ECN bits" errECNIPv4 errECNIPv6;;
        if needsPacketInfo && bool_decide (pi.1 ≠ None ∧ pi.2 ≠ None) then
          mret (inr (ErrText "activating packet info failed for both IPv4 and IPv6"))
        else
          (if needsPacketInfo then
             log_families (match pi with (None, None) => "packet info" | _ => "packet info bits" end) pi.1 pi.2
           else mret ());;
          isConnected ← is_connected c;
          reader ← newBatchReader os;
          writer ← newWriter writeInterval isConnected;
          gso ← IsGSOEnabled os;
          ecn ← IsECNEnabled os;
          mret (inl (MkOob c reader writer (NewConnCapabilities supportsDF gso ecn)))
    end
  end.

Definition set_reader (r : batchReader) (c : oobConn K) : oobConn K :=
  MkOob (oc_conn c) r (oc_writer c) (oc_cap c).
Definition set_writer (x : oobWriter) (c : oobConn K) : oobConn K :=
  MkOob (oc_conn c) (oc_reader c) x (oc_cap c).

Definition Oob_ReadPacket (b oob : list Z) (c : oobConn K) : M (ReadResult * oobConn K) :=
  x ← batchReader_Read os b oob (oc_reader c);
  let '(r, reader) := x in
  let c := set_reader reader c in
  match rr_err r with
  | Some _ => mret (r, c)
  | None =>
    p ← lift (parse_oob os (take (rr_oobn r) (rr_oob r)) (rr_ecn r));
    match p with
    | inr err => mret (MkRead (rr_b r) (rr_oob r) 0 0 ECNNon None (Some err), c)
    | inl ecn => mret (MkRead (rr_b r) (rr_oob r) (rr_n r) (rr_oobn r) ecn (rr_addr r) None, c)
    end
  end.

Definition Oob_RemoteAddr (c : oobConn K) : M (option Addr) := remote_addr (oc_conn c).

Definition writer_Write (now : Z) (b oob : list Z) (addr : option Addr) (c : oobConn K)
    : M (WriteResult * oobConn K) :=
  match oc_writer c with
  | BatchW bw => x ← batchWriter_Write os now b oob addr bw; mret (x.1, set_writer (BatchW x.2) c)
  | BasicW isConnected => r ← basicWriter_Write (oc_conn c) isConnected b oob addr; mret (r, c)
  end.

Definition Oob_WritePacket (now : Z) (b packetInfoOOB : list Z) (gsoSize : Z) (ecn : ECN)
    (addr : option Addr) (c : oobConn K) : M (WriteResult * oobConn K) :=
  let oob := packetInfoOOB in
  g ← (if 0 <? gsoSize then
         if negb (cap_GSO (oc_cap c)) then
           Log PanicLevel "GSO disabled";; mret (inr (ErrText "GSO disabled"))
         else oob ← lift (AppendUDPSegmentSizeMsg os oob gsoSize); mret (inl oob)
       else mret (inl oob));
  match g with
  | inr e => mret (MkWrite 0 0 (Some e), c)
  | inl oob =>
    g ← (if negb (ecn =? ECNUnsupported) then
           if negb (cap_ECN (oc_cap c)) then
             Log PanicLevel "tried to send an ECN-marked packet although ECN is disabled";;
             mret (inr (ErrText "ECN is disabled"))
           else
             match addr with
             | Some (UDPAddr ip _ _) =>
               oob ← lift (match IP_To4 ip with
                           | Some _ => appendIPv4ECNMsg os oob ecn
                           | None => appendIPv6ECNMsg oob ecn
                           end);
               mret (inl oob)
             | _ => mret (inl oob)
             end
         else mret (inl oob));
    match g with
    | inr e => mret (MkWrite 0 0 (Some e), c)
    | inl oob =>
      x ← writer_Write now b oob addr c;
      let '(r, c) := x in
      match wr_err r with
      | Some e => mret (MkWrite 0 0 (Some e), c)
      | None => mret (r, c)
      end
    end
  end.

(** [writer.Close()]; a basic writer's [Close] is the socket's. *)
Definition writer_Close (now : Z) (conn : NetConn K) (x : oobWriter) : M oobWriter :=
  match x with
  | BatchW bw => y ← batchWriter_Close now bw; mret (BatchW y.2)
  | BasicW _ => _ ← ext (nc_Close conn); mret x
  end.

Definition Oob_Close (now : Z) (c : oobConn K) : M (option error * oobConn K) :=
  err ← ext (nc_Close (oc_conn c));
  x ← batchReader_Close (oc_reader c);
  y ← writer_Close now (oc_conn c) (oc_writer c);
  mret (err, set_writer y (set_reader x.2 c)).

Definition Oob_Capabilities (c : oobConn K) : ConnCapabilities := oc_cap c.

(** ** WrapConn *)

Inductive rawConn := RawBasic (c : BasicConn K) | RawOob (c : oobConn K).

(** The methods of [RawConn], by the connection's type. *)
Definition Raw_ReadPacket (b oob : list Z) (c : rawConn) : M (ReadResult * rawConn) :=
  match c with
  | RawBasic bc => r ← Basic_ReadPacket bc b oob; mret (r, c)
  | RawOob oc => x ← Oob_ReadPacket b oob oc; mret (x.1, RawOob x.2)
  end.
Definition Raw_WritePacket (now : Z) (b oob : list Z) (gsoSize : Z) (ecn : ECN) (addr : option Addr)
    (c : rawConn) : M (WriteResult * rawConn) :=
  match c with
  | RawBasic bc => r ← Basic_WritePacket bc b oob gsoSize ecn addr; mret (r, c)
  | RawOob oc => x ← Oob_WritePacket now b oob gsoSize ecn addr oc; mret (x.1, RawOob x.2)
  end.
Definition Raw_Close (now : Z) (c : rawConn) : M (option error * rawConn) :=
  match c with
  | RawBasic bc => e ← ext (nc_Close (bc_PacketConn bc)); mret (e, c)
  | RawOob oc => x ← Oob_Close now oc; mret (x.1, RawOob x.2)
  end.
Definition Raw_Capabilities (c : rawConn) : ConnCapabilities :=
  match c with RawBasic bc => Basic_Capabilities bc | RawOob oc => Oob_Capabilities oc end.

Definition Raw_RemoteAddr (c : rawConn) : M (option Addr) :=
  match c with RawBasic bc => Basic_RemoteAddr bc | RawOob oc => Oob_RemoteAddr oc end.
Definition raw_conn (c : rawConn) : NetConn K :=
  match c with RawBasic bc => bc_PacketConn bc | RawOob oc => oc_conn oc end.

(** A wrapped connection [c0] as a value of the interface: its state is the
    connection and the world; [Close] runs at time [now]. *)
Definition raw_run {A} (m : rawConn → M (A * rawConn)) : GoM (rawConn * World K) A := λ s,
  match m s.1 s.2 with
  | (Ret (a, c'), w) => (Ret a, (c', w))
  | (Panic why, w) => (Panic why, (s.1, w))
  | (Exit n, w) => (Exit n, (s.1, w))
  end.
Definition raw_ask {A} (m : rawConn → M A) : GoM (rawConn * World K) A :=
  raw_run (λ c, a ← m c; mret (a, c)).

Definition RawConn_of (now : Z) (c0 : rawConn) : RawConn (rawConn * World K) := {|
  rc_ReadPacket b oob := raw_run (Raw_ReadPacket b oob);
  rc_WritePacket b oob gsoSize ecn addr := raw_run (Raw_WritePacket now b oob gsoSize ecn addr);
  rc_LocalAddr := raw_ask (λ c w, (Ret (nc_LocalAddr (raw_conn c) (w_k w)), w));
  rc_RemoteAddr := raw_ask Raw_RemoteAddr;
  rc_SetReadDeadline t := raw_ask (λ c, ext (nc_SetReadDeadline (raw_conn c) t));
  rc_Close := raw_run (Raw_Close now);
  rc_Capabilities := Raw_Capabilities c0
|}.

(** The type assertion to [OOBCapablePacketConn]: its four methods beyond those
    of [net.PacketConn]. *)
Definition oob_capable (c : NetConn K) : bool :=
  match nc_SyscallConn c, nc_SetReadBuffer c, nc_ReadMsgUDP c, nc_WriteMsgUDP c with
  | Some _, Some _, Some _, Some _ => true
  | _, _, _, _ => false
  end.

(** [newConn] of sys_conn_windows.go. *)
Definition newConn_windows (c : NetConn K) (supportsDF : bool) (writeInterval : Z) : M (rawConn + error) :=
  isConnected ← is_connected c; mret (inl (RawBasic (MkBasic c isConnected supportsDF))).
(** [newConn] of sys_conn_no_oob.go, which takes no interval. *)
Definition newConn_no_oob (c : NetConn K) (supportsDF : bool) : M (BasicConn K + error) :=
  isConnected ← is_connected c; mret (inl (MkBasic c isConnected supportsDF)).

(** The warning about a buffer size, once per process: [done] is the state of
    [setBufferWarningOnce]. *)
Definition buffer_warning (done : bool) (err : option error) : M bool :=
  match err with
  | None => mret done
  | Some e =>
    if strings_Contains (error_Error e) "use of closed network connection" then mret done
    else if done then mret done
    else
      disable ← env_true "QUIC_GO_DISABLE_RECEIVE_BUFFER_WARNING";
      (if (disable : bool) then mret ()
       else Log WarnLevel (error_Error e +:+
              ". See https://github.com/quic-go/quic-go/wiki/UDP-Buffer-Sizes for details.")%string);;
      mret true
  end.

Definition WrapConn (pc : NetConn K) (writeInterval : Z) (warned : bool) : M ((rawConn + error) * bool) :=
  err ← SetReceiveBuffer os pc;
  warned ← buffer_warning warned err;
  err ← SetSendBuffer os pc;
  warned ← buffer_warning warned err;
  df ← match nc_SyscallConn pc with
       | None => mret (inl false)
       | Some f =>
         err ← ext f;
         match err with
         | Some e => mret (inr e)
         | None =>
           w ← getw;
           match nc_LocalAddr pc (w_k w) with
           | Some (UDPAddr _ _ _) =>
             r ← setDF os;
             match r.2 with Some e => mret (inr e) | None => mret (inl r.1) end
           | _ => mret (inl false)
           end
         end
       end;
  match df with
  | inr e => mret (inr e, warned)
  | inl supportsDF =>
    if negb (oob_capable pc) then
      Log InfoLevel "PacketConn is not a net.UDPConn or OOB-capable connection. Disabling optimizations possible on UDP connections.";;
      (* the type assertion is made on [c], which is nil here *)
      let c : option (NetConn K) := None in
      isConnected ← match c with Some c => is_connected c | None => mret false end;
      mret (inl (RawBasic (MkBasic pc isConnected supportsDF)), warned)
    else
      match os with
      | linux | darwin | freebsd =>
        r ← newConn pc supportsDF writeInterval;
        mret (match r with inl c => inl (RawOob c) | inr e => inr e end, warned)
      | windows => r ← newConn_windows pc supportsDF writeInterval; mret (r, warned)
      | other_os =>
        r ← newConn_no_oob pc supportsDF;
        mret (match r with inl c => inl (RawBasic c) | inr e => inr e end, warned)
      end
  end.

End oob.
