(* ===== verification/ReaderMutex.v ===== *)
(** * [Read] and [Close] of an [oobConn] at the same time

    Any number of goroutines in [Read] of the batch reader and in [Close] of the
    [oobConn], with the closing of the socket, the reader's mutex, its atomic
    flag, the blocking [ReadBatch] and the closing of the writer as separate
    steps: a buffer the kernel may write to is never in a pool, and [Close]
    ends because it closes the socket before it asks for the mutex.  The
    writer's [Close] is one step: it works under a mutex of its own, which among
    these goroutines only other [Close]s ask for, and its flush of no messages
    on the closed socket does not block.  Callers of [WritePacket] and the
    flush worker are not among the goroutines. *)

From S2P Require Import Prelude GoLib Types Interfaces Ownership GoWorld Cmsg SockBuf BatchReader BatchReaderInv.
From S2P Require Import ReaderLife BatchWriter Keeps OobConn.

(** [ready k]: a [ReadBatch] does not block. *)
Class BlockingSocket (K : Type) : Type := { ready : K → bool }.

Section threads.
Context {K : Type} `{!BufferPool Slice K} `{!SysBatchReader K} `{!SysBatchWriter K} `{!BlockingSocket K}.
Variable os : OS.
Variable conn : NetConn K.
#[local] Abbreviation M := (GoM (World K)).
#[local] Abbreviation bs := (batchSize os).

(** ** [Read], cut at [ReadBatch] *)

(** From the test of [closed] on: a result, or the reader as [ReadBatch] gets it. *)
Definition read_check (b oob : list Z) (r : batchReader) : M (ReadResult * batchReader + batchReader) :=
  if r_closed r then mret (inl (MkRead b oob 0 0 0 None (Some ErrClosed), r))
  else if (r_len r =? r_readPos r)%nat then
    r ← refresh (seq 0 (r_readPos r)) (set_pos (r_readPos r) bs r);
    mret (inr (set_pos 0 (r_len r) r))
  else x ← take_message b oob r; mret (inl x).

Definition read_batch (b oob : list Z) (r : batchReader) : M (ReadResult * batchReader) :=
  x ← sys_read r;
  let '(n, err, r) := x in
  match err with
  | Some e => mret (MkRead b oob 0 0 0 None (Some e), r)
  | None =>
    if (n =? 0)%nat then mret (MkRead b oob 0 0 0 None None, r)
    else take_message b oob (set_pos (r_readPos r) n r)
  end.

(** The two halves are the method. *)
Lemma read_split b oob r w :
  batchReader_Read os b oob r w =
  (x ← read_check b oob r; match x with inl y => mret y | inr r => read_batch b oob r end) w.
Proof.
  unfold batchReader_Read, read_check, read_batch. destruct (r_closed r); [done|]. destruct (_ =? _)%nat.
  - unfold mbind, GoM_bind. destruct (refresh _ _ w) as [[r1| |] w1]; done.
  - unfold mbind, GoM_bind. destruct (take_message b oob r w) as [[x| |] w1]; done.
Qed.

(** ** Threads *)

Inductive RPC :=
| RD_idle
| RD_lock (b oob : list Z)
| RD_check (b oob : list Z)
| RD_batch (b oob : list Z)      (* in ReadBatch *)
| RD_unlock (res : ReadResult).

(** [oobConn.Close]: the socket, then the reader, then the writer.  The writer
    has a mutex of its own, which no reader takes: its [Close] is one step. *)
Inductive CPC := CL_idle | CL_conn | CL_store | CL_lock | CL_release | CL_unlock | CL_sys | CL_writer | CL_done.

Inductive thread := TR (i : nat) | TC (j : nat).
#[export] Instance CPC_eq_dec : EqDecision CPC.
Proof. solve_decision. Defined.
#[export] Instance thread_eq_dec : EqDecision thread.
Proof. solve_decision. Defined.

Record MState : Type := MkM {
  m_r : batchReader; m_x : oobWriter; m_w : World K; m_owner : option thread;
  m_readers : list RPC; m_closers : list CPC
}.

Inductive mres := MBlocked | MNext (s : MState) | MCrash (why : string).

Definition at_reader (i : nat) (pc : RPC) (s : MState) : MState :=
  MkM (m_r s) (m_x s) (m_w s) (m_owner s) (<[i := pc]> (m_readers s)) (m_closers s).
Definition at_closer (j : nat) (pc : CPC) (s : MState) : MState :=
  MkM (m_r s) (m_x s) (m_w s) (m_owner s) (m_readers s) (<[j := pc]> (m_closers s)).
Definition set_owner (t : option thread) (s : MState) : MState :=
  MkM (m_r s) (m_x s) (m_w s) t (m_readers s) (m_closers s).
Definition set_rw (r : batchReader) (w : World K) (s : MState) : MState :=
  MkM r (m_x s) w (m_owner s) (m_readers s) (m_closers s).

Definition set_xw (x : oobWriter) (w : World K) (s : MState) : MState :=
  MkM (m_r s) x w (m_owner s) (m_readers s) (m_closers s).

(** Run [m] in the world of [s]. *)
Definition exec_m {A} (m : M A) (s : MState) (k : A → World K → MState) : mres :=
  match m (m_w s) with
  | (Ret a, w) => MNext (k a w)
  | (Panic why, _) => MCrash why
  | (Exit _, _) => MBlocked
  end.

Definition store_closed (r : batchReader) : batchReader :=
  MkReader (r_readPos r) (r_len r) (r_messages r) (r_buffers r) (r_oobBuffers r) true (r_buffersReleased r).

Definition step_reader (i : nat) (s : MState) : mres :=
  match m_readers s !! i with
  | None | Some RD_idle => MBlocked
  | Some (RD_lock b oob) =>
    match m_owner s with
    | None => MNext (at_reader i (RD_check b oob) (set_owner (Some (TR i)) s))
    | Some _ => MBlocked
    end
  | Some (RD_check b oob) =>
    exec_m (read_check b oob (m_r s)) s (λ x w,
      match x with
      | inl (res, r) => at_reader i (RD_unlock res) (set_rw r w s)
      | inr r => at_reader i (RD_batch b oob) (set_rw r w s)
      end)
  | Some (RD_batch b oob) =>
    if ready (w_k (m_w s))
    then exec_m (read_batch b oob (m_r s)) s (λ x w, at_reader i (RD_unlock x.1) (set_rw x.2 w s))
    else MBlocked
  | Some (RD_unlock res) => MNext (at_reader i RD_idle (set_owner None s))
  end.

Definition step_closer_thread (j : nat) (now : Z) (s : MState) : mres :=
  match m_closers s !! j with
  | None | Some CL_idle | Some CL_done => MBlocked
  | Some CL_conn => exec_m (ext (nc_Close conn)) s (λ _ w, at_closer j CL_store (set_rw (m_r s) w s))
  | Some CL_store => MNext (at_closer j CL_lock (set_rw (store_closed (m_r s)) (m_w s) s))
  | Some CL_lock =>
    match m_owner s with
    | None => MNext (at_closer j CL_release (set_owner (Some (TC j)) s))
    | Some _ => MBlocked
    end
  | Some CL_release =>
    if r_buffersReleased (m_r s) then MNext (at_closer j CL_unlock s)
    else exec_m (release (r_buffers (m_r s)) (r_oobBuffers (m_r s))) s
           (λ _ w, at_closer j CL_unlock (set_rw (closed_reader (m_r s)) w s))
  | Some CL_unlock => MNext (at_closer j CL_sys (set_owner None s))
  | Some CL_sys => exec_m (ext sbr_Close) s (λ _ w, at_closer j CL_writer (set_rw (m_r s) w s))
  | Some CL_writer => exec_m (writer_Close now conn (m_x s)) s (λ x w, at_closer j CL_done (set_xw x w s))
  end.

(** What may happen next: a thread moves ([now] is the time the writer reads), or
    a user calls. *)
Inductive mlabel := ML_reader (i : nat) | ML_closer (j : nat) (now : Z) | ML_callRead (i : nat) (b oob : list Z) | ML_callClose (j : nat).

Definition mstep (l : mlabel) (s : MState) : mres :=
  match l with
  | ML_reader i => step_reader i s
  | ML_closer j now => step_closer_thread j now s
  | ML_callRead i b oob =>
    match m_readers s !! i with Some RD_idle => MNext (at_reader i (RD_lock b oob) s) | _ => MBlocked end
  | ML_callClose j =>
    match m_closers s !! j with Some CL_idle => MNext (at_closer j CL_conn s) | _ => MBlocked end
  end.

Inductive mreach (s0 : MState) : MState → Prop :=
| mr_refl : mreach s0 s0
| mr_step s l s' : mreach s0 s → mstep l s = MNext s' → mreach s0 s'.

(** [nr] readers and [nc] closers, none of them in a call. *)
Definition m_init (r : batchReader) (x : oobWriter) (w : World K) (nr nc : nat) : MState :=
  MkM r x w None (replicate nr RD_idle) (replicate nc CL_idle).
End threads.

(** The writer's calls do not touch the pools; [WriteBatch] sends no more
    messages than it is given. *)
Class WriterApart (K : Type) `{!BufferPool Slice K} `{!BufferPoolLaws Slice K s_len} `{!SysBatchWriter K} : Prop := {
  apart_write ms k n e k' :
    WriteBatch ms k = ((n, e), k') → (n ≤ length ms)%nat ∧ ∀ p, pool_idle p k' = pool_idle p k;
  apart_wclose k e k' : sbw_Close k = (e, k') → ∀ p, pool_idle p k' = pool_idle p k
}.

Section safety.
Context {K : Type} `{!BufferPool Slice K} `{!BufferPoolLaws Slice K s_len} `{!SysBatchReader K} `{!SocketApart K}
  `{!SysBatchWriter K} `{!WriterApart K} `{!BlockingSocket K}.
Variable os : OS.
Variable conn : NetConn K.
Hypothesis Close_apart : ∀ k e k', nc_Close conn k = (e, k') → ∀ p, pool_idle p k' = pool_idle p k.
#[local] Abbreviation bs := (batchSize os).
#[local] Abbreviation mstep := (mstep os conn).
Implicit Types (r : batchReader) (w : World K) (s : MState (K := K)).

(** ** The two halves of [Read] *)

(** The reader as [ReadBatch] gets it: every message points into its buffers. *)
Record batch_ready w r : Prop := {
  br_inv : reader_inv os (w_heap w) r;
  br_pos : r_readPos r = 0%nat;
  br_len : r_len r = bs;
  br_link : ∀ i, linked_at (w_heap w) r i
}.

Lemma read_check_ok b oob r w :
  reader_inv os (w_heap w) r →
  ∃ x w', read_check os b oob r w = (Ret x, w') ∧
    match x with
    | inl (res, r') => reader_inv os (w_heap w') r' ∧ same_bufs r w r' w' ∧ r_closed r' = r_closed r
    | inr r' => batch_ready w' r' ∧ same_bufs r w r' w' ∧ r_closed r = false ∧ r_closed r' = false
    end.
Proof.
  intros I. unfold read_check. destruct (r_closed r) eqn:Hc; [eexists _, _; by split|].
  destruct (Nat.eqb_spec (r_len r) (r_readPos r)) as [Heq|Hne].
  - destruct (read_refreshed os r w I (eq_sym Heq)) as (r1 & w1 & E & C1 & L1 & (S1 & S2 & S3 & S4) & Hk & _).
    destruct (refresh_bufs os (seq 0 (r_readPos r)) (set_pos (r_readPos r) bs r) w) as (r1' & w1' & E' & SB).
    { by destruct I as [[] _ _]. }
    { apply Forall_forall. intros i Hi. apply list_elem_of_In, in_seq in Hi. destruct I as [_ ? _]. lia. }
    rewrite E in E'. simplify_eq. rewrite (GoM_bind_Ret _ _ _ _ _ E). eexists _, _. split; [done|].
    simpl in S1, S2, S3. rewrite S2. apply same_bufs_pos in SB.
    split_and!; [|by destruct SB|done|simpl; congruence].
    assert (C2 : core_inv os (w_heap w1') (set_pos 0 bs r1')) by (by destruct C1).
    constructor; try done. constructor; [done|simpl; lia|by right].
  - destruct (unread r) as [|m ms] eqn:Hu.
    { apply (f_equal length) in Hu. unfold unread in Hu. rewrite length_drop, length_take in Hu. simpl in Hu.
      destruct I as [C Hp _]. rewrite (co_msgs _ _ _ C) in Hu. lia. }
    pose proof I as [C Hp Hl]. assert (L : ∀ i, linked_at (w_heap w) r i) by (destruct Hl; [lia|done]).
    destruct (take_message_spec os b oob r w m ms C L ltac:(lia) Hu) as (E & _ & Hlt).
    rewrite (GoM_bind_Ret _ _ _ _ _ E). eexists _, _. split; [done|]. split_and!; [by apply reader_inv_step|done|done].
Qed.

Lemma read_batch_ok b oob r w :
  batch_ready w r →
  ∃ res r' w', read_batch b oob r w = (Ret (res, r'), w') ∧ reader_inv os (w_heap w') r' ∧
    same_bufs r w r' w' ∧ r_closed r' = r_closed r.
Proof.
  intros [I Hp Hl L]. pose proof (ri_core _ _ _ I) as C.
  destruct (ReadBatch bs (w_k w)) as [[ds err] k] eqn:Eb.
  destruct (sys_read_spec os r w ds err k C L Hl Eb) as (r1 & w1 & E & C1 & L1 & (S1 & S2 & S3 & S4) & _ & _ & V).
  pose proof (sys_read_bufs _ _ _ _ E) as SB. simpl in SB.
  assert (I1 : ∀ n, (n ≤ bs)%nat → reader_inv os (w_heap w1) (set_pos 0 n r1)).
  { intros n Hn. constructor; simpl; [by destruct C1|lia|by right]. }
  assert (Hpos : set_pos 0 bs r1 = r1) by (rewrite <- Hl, <- S2, <- Hp, <- S1; by destruct r1).
  unfold read_batch. rewrite (GoM_bind_Ret _ _ _ _ _ E).
  destruct err as [e|]; [|destruct (Nat.eqb_spec (length (take bs ds)) 0) as [|Hne]].
  1,2: eexists _, _, _; split; [done|]; specialize (I1 bs (Nat.le_refl _)); rewrite Hpos in I1; by split_and!.
  rewrite S1, Hp. set (n := length (take bs ds)) in *. assert (Hn : (n ≤ bs)%nat) by (unfold n; rewrite length_take; lia).
  specialize (I1 n Hn). destruct (unread (set_pos 0 n r1)) as [|m ms] eqn:Hu.
  { apply (f_equal length) in Hu. unfold unread in Hu. simpl in Hu. rewrite drop_0, length_take, (co_msgs _ _ _ C1) in Hu.
    simpl in Hu. lia. }
  destruct (take_message_spec os b oob (set_pos 0 n r1) w1 m ms (ri_core _ _ _ I1) L1 Hn Hu) as (ET & _ & Hlt).
  eexists _, _, _. split; [exact ET|]. split_and!; [by apply reader_inv_step|by destruct SB|done].
Qed.

(** ** The invariant *)

Definition reader_holds (pc : RPC) : bool :=
  match pc with RD_check _ _ | RD_batch _ _ | RD_unlock _ => true | _ => false end.
Definition closer_holds (pc : CPC) : bool :=
  match pc with CL_release | CL_unlock => true | _ => false end.
Definition past_store (pc : CPC) : bool :=
  match pc with CL_idle | CL_conn | CL_store => false | _ => true end.

Definition past_release (pc : CPC) : bool :=
  match pc with CL_unlock | CL_sys | CL_writer | CL_done => true | _ => false end.

(** The buffers in use, besides those of others ([L]). *)
Definition used r (L : list nat) : list nat :=
  if r_buffersReleased r then L else r_buffers r ++ r_oobBuffers r ++ L.

(** Thread [t] is between [Lock] and [Unlock]. *)
Definition in_section s (t : thread) : Prop :=
  match t with
  | TR i => ∃ pc, m_readers s !! i = Some pc ∧ reader_holds pc = true
  | TC j => ∃ pc, m_closers s !! j = Some pc ∧ closer_holds pc = true
  end.

Record minv (L : list nat) s : Prop := {
  mi_owner t : m_owner s = Some t → in_section s t;
  mi_reader i pc : m_readers s !! i = Some pc → reader_holds pc = true → m_owner s = Some (TR i);
  mi_closer j pc : m_closers s !! j = Some pc → closer_holds pc = true → m_owner s = Some (TC j);
  mi_stored j pc : m_closers s !! j = Some pc → past_store pc = true → r_closed (m_r s) = true;
  mi_gone j pc : m_closers s !! j = Some pc → past_release pc = true → r_buffersReleased (m_r s) = true;
  mi_released : r_buffersReleased (m_r s) = true → r_closed (m_r s) = true;
  mi_inv : r_buffersReleased (m_r s) = false → reader_inv os (w_heap (m_w s)) (m_r s);
  mi_owned : owned (used (m_r s) L) (h_buf (w_heap (m_w s))) (w_k (m_w s));
  mi_batch i b oob : m_readers s !! i = Some (RD_batch b oob) →
    r_buffersReleased (m_r s) = false ∧ batch_ready (m_w s) (m_r s)
}.

(** A state in which the reader, its memory and its buffers are as before, up
    to the flag [closed]. *)
Record quiet s s' : Prop := {
  q_set : store_closed (m_r s') = store_closed (m_r s);
  q_closed : r_closed (m_r s) = true → r_closed (m_r s') = true;
  q_heap : w_heap (m_w s') = w_heap (m_w s);
  q_idle : ∀ p, pool_idle p (w_k (m_w s')) = pool_idle p (w_k (m_w s))
}.

Lemma store_closed_inv h r r' : store_closed r' = store_closed r → reader_inv os h r → reader_inv os h r'.
Proof.
  destruct r, r'. unfold store_closed. simpl. intros [= -> -> -> -> -> ->] [[] ? ?]. by constructor.
Qed.

Lemma store_closed_fields r r' :
  store_closed r' = store_closed r →
  r_buffersReleased r' = r_buffersReleased r ∧ (∀ L, used r' L = used r L) ∧
  r_readPos r' = r_readPos r ∧ r_len r' = r_len r ∧ ∀ h i, linked_at h r i → linked_at h r' i.
Proof. destruct r, r'. unfold store_closed, used. simpl. by intros [= -> -> -> -> -> ->]. Qed.

Lemma quiet_keeps L s s' :
  quiet s s' → minv L s →
  (r_buffersReleased (m_r s') = true → r_closed (m_r s') = true) ∧
  (r_buffersReleased (m_r s') = false → reader_inv os (w_heap (m_w s')) (m_r s')) ∧
  owned (used (m_r s') L) (h_buf (w_heap (m_w s'))) (w_k (m_w s')) ∧
  (r_buffersReleased (m_r s) = false → batch_ready (m_w s) (m_r s) →
   r_buffersReleased (m_r s') = false ∧ batch_ready (m_w s') (m_r s')).
Proof.
  intros [Hs Hc Hh Hi] [_ _ _ _ _ H1 H2 H3 _]. destruct (store_closed_fields _ _ Hs) as (F1 & F2 & F3 & F4 & F5).
  rewrite F1, F2, Hh. split_and!; [auto| | |].
  - intros Hr. eapply store_closed_inv; eauto.
  - by eapply owned_pools.
  - intros Hr [I P1 P2 P3]. split; [done|]. constructor; rewrite ?Hh, ?F3, ?F4; try done; [|by intros i; apply F5].
    by eapply store_closed_inv.
Qed.
(** ** Steps *)

(** How thread [t], which then holds the mutex or not, may change its owner. *)
Definition lock_move (t : thread) (holds : bool) (o o' : option thread) : Prop :=
  (o' = o ∧ (holds = true ↔ o = Some t)) ∨ (o = None ∧ o' = Some t ∧ holds = true) ∨
  (o = Some t ∧ o' = None ∧ holds = false).

Lemma lock_move_other t t' holds o o' : lock_move t holds o o' → t' ≠ t → o = Some t' ↔ o' = Some t'.
Proof. intros [[-> _]|[(-> & -> & _)|(-> & -> & _)]]; naive_solver. Qed.
Lemma lock_move_self t holds o o' : lock_move t holds o o' → holds = true ↔ o' = Some t.
Proof. intros [[-> H]|[(_ & -> & ->)|(_ & -> & ->)]]; naive_solver. Qed.

(** A reader moves. *)
Lemma minv_reader L s i pc0 pc r' w' o' :
  minv L s → m_readers s !! i = Some pc0 → lock_move (TR i) (reader_holds pc) (m_owner s) o' →
  let s' := MkM r' (m_x s) w' o' (<[i := pc]> (m_readers s)) (m_closers s) in
  (r_closed (m_r s) = true → r_closed r' = true) →
  (r_buffersReleased (m_r s) = true → r_buffersReleased r' = true) →
  (r_buffersReleased r' = true → r_closed r' = true) →
  (r_buffersReleased r' = false → reader_inv os (w_heap w') r') →
  owned (used r' L) (h_buf (w_heap w')) (w_k w') →
  (∀ i' b oob, m_readers s' !! i' = Some (RD_batch b oob) → r_buffersReleased r' = false ∧ batch_ready w' r') →
  minv L s'.
Proof.
  intros [H0 H1 H2 H3 H4 _ _ _ _] Hi0 Hl s' Hc Hg Hr Hi Ho Hb.
  pose proof (lookup_lt_Some _ _ _ Hi0) as Hlt. constructor; simpl; try done.
  - intros t Ht. destruct (decide (t = TR i)) as [->|Hne].
    + exists pc. simpl. rewrite list_lookup_insert_eq by done. split; [done|]. by eapply lock_move_self.
    + apply (lock_move_other _ _ _ _ _ Hl Hne), H0 in Ht. destruct t as [i'|j]; simpl in *; [|done].
      rewrite list_lookup_insert_ne by congruence. done.
  - intros i' pc' [(-> & <- & _)|(Hne & Hpc)]%list_lookup_insert_Some Hh.
    + by eapply lock_move_self.
    + refine (proj1 (lock_move_other _ _ _ _ _ Hl _) _); [congruence|by eapply H1].
  - intros j pc' Hpc Hh. refine (proj1 (lock_move_other _ _ _ _ _ Hl _) _); [done|by eapply H2].
  - intros j pc' Hpc Hp. eauto.
  - intros j pc' Hpc Hp. eauto.
Qed.

(** A closer moves. *)
Lemma minv_closer L0 L s j pc0 pc r' x' w' o' :
  minv L0 s → m_closers s !! j = Some pc0 → lock_move (TC j) (closer_holds pc) (m_owner s) o' →
  let s' := MkM r' x' w' o' (m_readers s) (<[j := pc]> (m_closers s)) in
  (r_closed (m_r s) = true → r_closed r' = true) → (past_store pc = true → r_closed r' = true) →
  (r_buffersReleased (m_r s) = true → r_buffersReleased r' = true) →
  (past_release pc = true → r_buffersReleased r' = true) →
  (r_buffersReleased r' = true → r_closed r' = true) →
  (r_buffersReleased r' = false → reader_inv os (w_heap w') r') →
  owned (used r' L) (h_buf (w_heap w')) (w_k w') →
  (∀ i b oob, m_readers s !! i = Some (RD_batch b oob) → r_buffersReleased r' = false ∧ batch_ready w' r') →
  minv L s'.
Proof.
  intros [H0 H1 H2 H3 H4 _ _ _ _] Hj0 Hl s' Hc Hp Hg Hpr Hr Hi Ho Hb.
  pose proof (lookup_lt_Some _ _ _ Hj0) as Hlt. constructor; simpl; try done.
  - intros t Ht. destruct (decide (t = TC j)) as [->|Hne].
    + exists pc. simpl. rewrite list_lookup_insert_eq by done. split; [done|]. by eapply lock_move_self.
    + apply (lock_move_other _ _ _ _ _ Hl Hne), H0 in Ht. destruct t as [i|j']; simpl in *; [done|].
      rewrite list_lookup_insert_ne by congruence. done.
  - intros i pc' Hpc Hh. refine (proj1 (lock_move_other _ _ _ _ _ Hl _) _); [done|by eapply H1].
  - intros j' pc' [(-> & <- & _)|(Hne & Hpc)]%list_lookup_insert_Some Hh.
    + by eapply lock_move_self.
    + refine (proj1 (lock_move_other _ _ _ _ _ Hl _) _); [congruence|by eapply H2].
  - intros j' pc' [(-> & <- & _)|(Hne & Hpc)]%list_lookup_insert_Some Hh; eauto.
  - intros j' pc' [(-> & <- & _)|(Hne & Hpc)]%list_lookup_insert_Some Hh; eauto.
Qed.

(** Which thread owns the mutex, by program counter. *)
Lemma reader_owner L s i pc : minv L s → m_readers s !! i = Some pc → reader_holds pc = true ↔ m_owner s = Some (TR i).
Proof.
  intros I Hi. split; [by apply (mi_reader _ _ I)|]. intros Ho. destruct (mi_owner _ _ I _ Ho) as (pc' & ? & ?). congruence.
Qed.
Lemma closer_owner L s j pc : minv L s → m_closers s !! j = Some pc → closer_holds pc = true ↔ m_owner s = Some (TC j).
Proof.
  intros I Hj. split; [by apply (mi_closer _ _ I)|]. intros Ho. destruct (mi_owner _ _ I _ Ho) as (pc' & ? & ?). congruence.
Qed.

(** A move that neither takes nor gives up the mutex. *)
Lemma reader_stays L s i pc0 pc :
  minv L s → m_readers s !! i = Some pc0 → reader_holds pc = reader_holds pc0 →
  lock_move (TR i) (reader_holds pc) (m_owner s) (m_owner s).
Proof. intros I Hi ->. left. split; [done|]. by eapply reader_owner. Qed.
Lemma closer_stays L s j pc0 pc :
  minv L s → m_closers s !! j = Some pc0 → closer_holds pc = closer_holds pc0 →
  lock_move (TC j) (closer_holds pc) (m_owner s) (m_owner s).
Proof. intros I Hj ->. left. split; [done|]. by eapply closer_owner. Qed.

(** Steps that leave the reader alone. *)
Lemma minv_reader_quiet L s i pc0 pc w' o' :
  minv L s → m_readers s !! i = Some pc0 → lock_move (TR i) (reader_holds pc) (m_owner s) o' → (∀ b oob, pc ≠ RD_batch b oob) →
  w_heap w' = w_heap (m_w s) → (∀ p, pool_idle p (w_k w') = pool_idle p (w_k (m_w s))) →
  minv L (MkM (m_r s) (m_x s) w' o' (<[i := pc]> (m_readers s)) (m_closers s)).
Proof.
  intros I Hi0 Hl Hpc Hh Hi.
  destruct (quiet_keeps L s (MkM (m_r s) (m_x s) w' o' (<[i := pc]> (m_readers s)) (m_closers s))) as (Q1 & Q2 & Q3 & Q4);
    [by constructor|done|].
  apply (minv_reader L s i pc0); try done. intros i' b oob Hb. simpl in Hb.
  apply list_lookup_insert_Some in Hb as [(_ & ? & _)|(_ & Hb)]; [by destruct (Hpc b oob)|].
  apply Q4; by eapply (mi_batch _ _ I).
Qed.

Lemma minv_closer_quiet L s j pc0 pc r' w' o' :
  minv L s → m_closers s !! j = Some pc0 → lock_move (TC j) (closer_holds pc) (m_owner s) o' →
  quiet s (MkM r' (m_x s) w' o' (m_readers s) (<[j := pc]> (m_closers s))) → (past_store pc = true → r_closed r' = true) →
  (past_release pc = true → r_buffersReleased (m_r s) = true) →
  minv L (MkM r' (m_x s) w' o' (m_readers s) (<[j := pc]> (m_closers s))).
Proof.
  intros I Hj Hl HQ Hp Hpr. destruct (quiet_keeps L s _ HQ I) as (Q1 & Q2 & Q3 & Q4). pose proof HQ as [Qs Q _ _].
  destruct (store_closed_fields _ _ Qs) as (F1 & _). simpl in F1.
  rewrite <- F1 in Hpr. apply (minv_closer L L s j pc0); try done; [by rewrite F1|]. intros i b oob Hb. apply Q4; by eapply (mi_batch _ _ I).
Qed.

Lemma released_owned L s r' w' :
  minv L s → r_buffersReleased (m_r s) = false → same_bufs (m_r s) (m_w s) r' w' →
  owned (used r' L) (h_buf (w_heap w')) (w_k w') ∧ r_buffersReleased r' = false.
Proof.
  intros I Hr [B1 B2 B3 B4 B5]. pose proof (mi_owned _ _ I) as O. unfold used in *. rewrite Hr in O.
  rewrite B3, Hr, B1, B2, B4. split; [|done]. by eapply owned_pools.
Qed.

(** The mutex excludes the other readers. *)
Lemma only_batch L s i pc :
  minv L s → m_readers s !! i = Some pc → reader_holds pc = true →
  ∀ i' b oob, i' ≠ i → m_readers s !! i' ≠ Some (RD_batch b oob).
Proof.
  intros I Hi Hh i' b oob Hne Hb. pose proof (mi_reader _ _ I _ _ Hi Hh). pose proof (mi_reader _ _ I _ _ Hb eq_refl).
  congruence.
Qed.

(** A reader that holds the mutex runs a part of [Read]. *)
Lemma minv_reader_run L s i pc0 pc r' w' :
  minv L s → m_readers s !! i = Some pc0 → reader_holds pc0 = true → r_buffersReleased (m_r s) = false →
  reader_holds pc = true →
  same_bufs (m_r s) (m_w s) r' w' → reader_inv os (w_heap w') r' → r_closed r' = r_closed (m_r s) →
  (∀ b oob, pc = RD_batch b oob → batch_ready w' r') →
  minv L (at_reader i pc (set_rw r' w' s)).
Proof.
  intros I Hi Hh Hrel Hh' SB I' Hc Hpc.
  destruct (released_owned L s r' w' I Hrel SB) as [O' Hrel'].
  apply (minv_reader L s i pc0 pc r' w' (m_owner s)); try done; [eapply (reader_stays L s); [done..|congruence]|congruence..|].
  intros i' b oob Hb. simpl in Hb. split; [done|].
  apply list_lookup_insert_Some in Hb as [(_ & ? & _)|(Hne & Hb)]; [by eapply Hpc|].
  by destruct (only_batch _ _ _ _ I Hi Hh _ _ _ (not_eq_sym Hne) Hb).
Qed.

Lemma step_reader_ok L s i s' : minv L s → step_reader os i s = MNext s' → minv L s'.
Proof.
  intros I E. unfold step_reader in E. destruct (m_readers s !! i) as [[|b oob|b oob|b oob|res]|] eqn:Hi; try done.
  - destruct (m_owner s) eqn:Ho; [done|]. injection E as <-.
    apply (minv_reader_quiet L s i (RD_lock b oob)); try done. right; left. by rewrite Ho.
  - unfold exec_m in E. pose proof (mi_reader _ _ I _ _ Hi eq_refl) as Ho.
    destruct (r_buffersReleased (m_r s)) eqn:Hrel.
    + pose proof (mi_released _ _ I Hrel) as Hc. unfold read_check in E. rewrite Hc in E. injection E as <-.
      apply (minv_reader_quiet L s i (RD_check b oob)); try done. by eapply (reader_stays L s).
    + destruct (read_check_ok b oob (m_r s) (m_w s) (mi_inv _ _ I Hrel)) as (x & w' & Ex & Hx). rewrite Ex in E.
      injection E as <-. destruct x as [[res r']|r'].
      * destruct Hx as (I' & SB & Hc'). by eapply minv_reader_run.
      * destruct Hx as (B & SB & Hc & Hc'). eapply minv_reader_run; try done; [apply B|congruence].
  - destruct (ready _); [|done]. unfold exec_m in E. destruct (mi_batch _ _ I _ _ _ Hi) as [Hrel B].
    destruct (read_batch_ok b oob _ _ B) as (res & r' & w' & Ex & I' & SB & Hc'). rewrite Ex in E. injection E as <-.
    by eapply minv_reader_run.
  - injection E as <-. pose proof (mi_reader _ _ I _ _ Hi eq_refl) as Ho.
    apply (minv_reader_quiet L s i (RD_unlock res)); try done. right; right. by split.
Qed.

(** The reader's buffers can be given back. *)
Lemma reader_release L s :
  minv L s → r_buffersReleased (m_r s) = false →
  ∃ w', release (r_buffers (m_r s)) (r_oobBuffers (m_r s)) (m_w s) = (Ret (), w') ∧ owned L (h_buf (w_heap w')) (w_k w').
Proof.
  intros I Hrel. pose proof (mi_owned _ _ I) as O. unfold used in O. rewrite Hrel in O.
  apply release_owned; [|exact O]. pose proof (ri_core _ _ _ (mi_inv _ _ I Hrel)) as C.
  by rewrite (co_bufs _ _ _ C), (co_obufs _ _ _ C).
Qed.

Lemma step_reader_writer i s s' : step_reader os i s = MNext s' → m_x s' = m_x s ∧ m_closers s' = m_closers s.
Proof. unfold step_reader, exec_m. intros E. repeat (case_match; simplify_eq/=); done. Qed.

Lemma step_closer_ok L s j now s' :
  minv L s → step_closer_thread conn j now s = MNext s' → m_closers s !! j ≠ Some CL_writer → minv L s'.
Proof.
  intros I E Hw. unfold step_closer_thread, exec_m, ext in E. destruct (m_closers s !! j) as [[]|] eqn:Hj; try done.
  - destruct (nc_Close conn (w_k (m_w s))) as [e k] eqn:Ec. injection E as <-.
    apply (minv_closer_quiet L s j CL_conn); try done; [by eapply (closer_stays L s)|]. constructor; try done. by eapply Close_apart.
  - injection E as <-. apply (minv_closer_quiet L s j CL_store); try done. by eapply (closer_stays L s).
  - destruct (m_owner s) eqn:Ho; [done|]. injection E as <-.
    apply (minv_closer_quiet L s j CL_lock); try done; [right; left; by rewrite Ho|]. intros _. by eapply (mi_stored _ _ I).
  - pose proof (mi_closer _ _ I _ _ Hj eq_refl) as Ho.
    assert (Hc : r_closed (m_r s) = true) by (by eapply (mi_stored _ _ I)).
    destruct (r_buffersReleased (m_r s)) eqn:Hrel.
    + injection E as <-. apply (minv_closer_quiet L s j CL_release); try done. by eapply (closer_stays L s).
    + destruct (reader_release L s I Hrel) as (w' & Er & O'). rewrite Er in E. injection E as <-. apply (minv_closer L L s j CL_release); try done; [by eapply (closer_stays L s)|].
      intros i b oob Hb. pose proof (mi_reader _ _ I _ _ Hb eq_refl). congruence.
  - pose proof (mi_closer _ _ I _ _ Hj eq_refl) as Ho. injection E as <-.
    apply (minv_closer_quiet L s j CL_unlock); try done; [right; right; by split| |]; intros _;
      [by eapply (mi_stored _ _ I)|by eapply (mi_gone _ _ I)].
  - destruct (sbr_Close (w_k (m_w s))) as [e k] eqn:Ec. injection E as <-.
    apply (minv_closer_quiet L s j CL_sys); try done; [by eapply (closer_stays L s)| |intros _; by eapply (mi_stored _ _ I)
      |intros _; by eapply (mi_gone _ _ I)].
    constructor; try done. by eapply apart_close.
Qed.

(** ** The writer *)

(** The writer's buffers in use, before those of others. *)
Definition wused (x : oobWriter) (L : list nat) : list nat :=
  match x with
  | BatchW bw => if bw_buffersReleased bw then L else bw_buffers bw ++ bw_oobBuffers bw ++ L
  | BasicW _ => L
  end.

Definition writer_ok (x : oobWriter) : Prop :=
  match x with BatchW bw => length (bw_buffers bw) = length (bw_oobBuffers bw) | BasicW _ => True end.

(** [flush] has reset [writePos]: it passes no message to [WriteBatch] and stops. *)
Lemma flush_empty now bw w :
  ∃ e k, flush now bw w = (Ret (0%nat, e, MkWriter (bw_isConnected bw) 0 now (bw_messages bw) (bw_buffers bw)
      (bw_oobBuffers bw) (bw_closed bw) (bw_buffersReleased bw)), set_k k w) ∧
    ∀ p, pool_idle p k = pool_idle p (w_k w).
Proof.
  unfold flush, mbind, GoM_bind. cbn [flush_loop bw_messages bw_writePos].
  destruct (0 <? length (bw_messages bw))%nat; [|exists None, (w_k w); by destruct w].
  simpl. destruct (WriteBatch [] (w_k w)) as [[n e] k] eqn:E.
  apply apart_write in E as [Hn Hp]. simpl in Hn. assert (n = 0%nat) as -> by lia.
  exists e, k. split; [by destruct e|done].
Qed.

Lemma batchWriter_Close_ok now bw w L :
  writer_ok (BatchW bw) → owned (wused (BatchW bw) L) (h_buf (w_heap w)) (w_k w) →
  ∃ e bw' w', batchWriter_Close now bw w = (Ret (e, bw'), w') ∧ bw_buffersReleased bw' = true ∧
    writer_ok (BatchW bw') ∧ owned L (h_buf (w_heap w')) (w_k w').
Proof.
  simpl. intros Hx O. unfold batchWriter_Close.
  set (bw1 := MkWriter (bw_isConnected bw) (bw_writePos bw) (bw_lastWrite bw) (bw_messages bw) (bw_buffers bw)
    (bw_oobBuffers bw) true (bw_buffersReleased bw)).
  assert (∃ bw2 k, (if (0 <? bw_writePos bw1)%nat then y ← flush now bw1; mret y.2 else mret bw1) w = (Ret bw2, set_k k w) ∧
    bw_buffers bw2 = bw_buffers bw ∧ bw_oobBuffers bw2 = bw_oobBuffers bw ∧
    bw_buffersReleased bw2 = bw_buffersReleased bw ∧ ∀ p, pool_idle p k = pool_idle p (w_k w))
    as (bw2 & k & E1 & B1 & B2 & B3 & Hk).
  { destruct (0 <? bw_writePos bw1)%nat; [|exists bw1, (w_k w); by destruct w].
    destruct (flush_empty now bw1 w) as (e & k & E & Hk). eexists _, k. by rewrite (GoM_bind_Ret _ _ _ _ _ E). }
  rewrite (GoM_bind_Ret _ _ _ _ _ E1). apply (owned_pools _ _ _ k Hk) in O.
  assert (∃ w2, (if bw_buffersReleased bw2 then mret () else release (bw_buffers bw2) (bw_oobBuffers bw2)) (set_k k w)
    = (Ret (), w2) ∧ owned L (h_buf (w_heap w2)) (w_k w2)) as (w2 & E2 & O2).
  { rewrite B1, B2, B3. destruct (bw_buffersReleased bw); [by eexists|]. by apply release_owned. }
  rewrite (GoM_bind_Ret _ _ _ _ _ E2). destruct (sbw_Close (w_k w2)) as [e k2] eqn:Ec.
  eexists _, _, (set_k k2 w2). split; [unfold ext, mbind, GoM_bind; by rewrite Ec|].
  split_and!; [done|simpl; by rewrite B1, B2|]. eapply owned_pools; [|exact O2]. by eapply apart_wclose.
Qed.

(** [writer.Close()] returns, and gives the writer's buffers back once. *)
Lemma writer_Close_ok now x w L :
  writer_ok x → owned (wused x L) (h_buf (w_heap w)) (w_k w) →
  ∃ x' w', writer_Close now conn x w = (Ret x', w') ∧ writer_ok x' ∧ wused x' L = L ∧
    owned L (h_buf (w_heap w')) (w_k w').
Proof.
  destruct x as [bw|b]; intros Hx O.
  - destruct (batchWriter_Close_ok now bw w L Hx O) as (e & bw' & w' & E & Hr & Hx' & O').
    exists (BatchW bw'), w'. cbn [writer_Close]. rewrite (GoM_bind_Ret _ _ _ _ _ E). simpl. by rewrite Hr.
  - destruct (nc_Close conn (w_k w)) as [e k] eqn:Ec. exists (BasicW b), (set_k k w).
    split; [simpl; unfold ext, mbind, GoM_bind; by rewrite Ec|]. split_and!; [done..|].
    eapply owned_pools; [|exact O]. by eapply Close_apart.
Qed.

(** The reader's invariant with the writer's buffers among those in use; they
    are given back by the time [Close] returns. *)
Record cinv (L : list nat) s : Prop := {
  ci_reader : minv (wused (m_x s) L) s;
  ci_writer : writer_ok (m_x s);
  ci_done j : m_closers s !! j = Some CL_done → wused (m_x s) L = L
}.

(** A step that leaves the writer alone and returns from no [Close]. *)
Lemma cinv_kept L s s' :
  cinv L s → minv (wused (m_x s) L) s' → m_x s' = m_x s →
  (∀ j, m_closers s' !! j = Some CL_done → m_closers s !! j = Some CL_done) → cinv L s'.
Proof. intros [_ H2 H3] I Hx Hd. constructor; rewrite ?Hx; eauto. Qed.

Lemma step_closer_writer j now s s' :
  step_closer_thread conn j now s = MNext s' → m_closers s !! j ≠ Some CL_writer →
  m_x s' = m_x s ∧ ∃ pc, m_closers s' = <[j := pc]> (m_closers s) ∧ pc ≠ CL_done.
Proof.
  unfold step_closer_thread, exec_m. intros E Hw.
  destruct (m_closers s !! j) as [[]|]; try done; repeat (case_match; simplify_eq/=); try done;
    simplify_eq/=; (split; [done|]); eexists; by split.
Qed.

(** The writer is closed after the reader's buffers have been given back. *)
Lemma writer_moves L s now j :
  cinv L s → m_closers s !! j = Some CL_writer →
  ∃ x' w', writer_Close now conn (m_x s) (m_w s) = (Ret x', w') ∧ writer_ok x' ∧ wused x' L = L ∧
    owned L (h_buf (w_heap w')) (w_k w').
Proof.
  intros [I Hw _] Hj. apply writer_Close_ok; [done|]. pose proof (mi_owned _ _ I) as O. unfold used in O.
  by rewrite (mi_gone _ _ I _ _ Hj eq_refl) in O.
Qed.

Lemma step_writer_ok L s j now s' :
  cinv L s → m_closers s !! j = Some CL_writer → step_closer_thread conn j now s = MNext s' → cinv L s'.
Proof.
  intros C Hj E. destruct (writer_moves L s now j C Hj) as (x' & w' & Ex & Hx' & Hu & O'). destruct C as [I _ _].
  unfold step_closer_thread, exec_m in E. rewrite Hj in E.
  pose proof (mi_gone _ _ I _ _ Hj eq_refl) as Hrel. pose proof (mi_stored _ _ I _ _ Hj eq_refl) as Hc.
  rewrite Ex in E. injection E as <-. constructor; simpl; [rewrite Hu|done..].
  apply (minv_closer (wused (m_x s) L) L s j CL_writer); try done.
  - by eapply (closer_stays _ s).
  - simpl. congruence.
  - simpl. unfold used. by rewrite Hrel.
  - intros i b oob Hb. destruct (mi_batch _ _ I _ _ _ Hb) as [Hf _]. congruence.
Qed.

Lemma mstep_ok L s l s' : cinv L s → mstep l s = MNext s' → cinv L s'.
Proof.
  intros C E. pose proof (ci_reader _ _ C) as I. destruct l as [i|j now|i b oob|j]; simpl in E.
  - destruct (step_reader_writer _ _ _ E) as [Hx Hc]. eapply cinv_kept; [done|by eapply step_reader_ok|done|by rewrite Hc].
  - destruct (decide (m_closers s !! j = Some CL_writer)) as [Hj|Hj]; [by eapply step_writer_ok|].
    destruct (step_closer_writer _ _ _ _ E Hj) as (Hx & pc & Hc & Hpc).
    eapply cinv_kept; [done|by eapply step_closer_ok|done|]. rewrite Hc.
    intros j' [(_ & -> & _)|(_ & ?)]%list_lookup_insert_Some; done.
  - destruct (m_readers s !! i) as [[]|] eqn:Hi; try done. injection E as <-. eapply cinv_kept; try done.
    apply (minv_reader_quiet _ s i RD_idle); try done. by eapply (reader_stays _ s).
  - destruct (m_closers s !! j) as [[]|] eqn:Hj; try done. injection E as <-. eapply cinv_kept; try done.
    + apply (minv_closer_quiet _ s j CL_idle); try done. by eapply (closer_stays _ s).
    + by intros j' [(_ & ? & _)|(_ & ?)]%list_lookup_insert_Some.
Qed.

Lemma mreach_inv L s0 s : cinv L s0 → mreach os conn s0 s → cinv L s.
Proof. intros I. induction 1 as [|s l s' _ IH E]; [done|]. by eapply mstep_ok. Qed.

(** ** A new connection *)

Lemma minv_init L r x w nr nc :
  reader_inv os (w_heap w) r → r_buffersReleased r = false →
  owned (r_buffers r ++ r_oobBuffers r ++ L) (h_buf (w_heap w)) (w_k w) → minv L (m_init r x w nr nc).
Proof.
  intros I Hr O. constructor; simpl; [done|..].
  - by intros i pc [-> _]%lookup_replicate_1.
  - by intros j pc [-> _]%lookup_replicate_1.
  - by intros j pc [-> _]%lookup_replicate_1.
  - by intros j pc [-> _]%lookup_replicate_1.
  - congruence.
  - done.
  - unfold used. by rewrite Hr.
  - by intros i b oob [? _]%lookup_replicate_1.
Qed.

(** Buffers of others and new memory do not matter to a reader. *)
Lemma core_inv_frame h h' r :
  core_inv os h r → h_mem h ⊆ h_mem h' →
  (∀ b, b ∈ r_buffers r ++ r_oobBuffers r → h_buf h' !! b = h_buf h !! b) → core_inv os h' r.
Proof.
  intros C Hm Hb. assert (HB : ∀ b, b ∈ r_buffers r ++ r_oobBuffers r → buf_B h' b = buf_B h b)
    by (intros b Hin; unfold buf_B; by rewrite Hb).
  destruct C as [C1 C2 C3 C4 C5 C6 C7]. constructor; try done.
  - rewrite (list_fmap_ext _ (λ b, s_arr (buf_B h b))); [done|].
    intros i b Hi%list_elem_of_lookup_2. by rewrite HB.
  - intros b Hin. rewrite HB by done. destruct (C6 b Hin). split; [by eapply slice_ok_mono|done].
Qed.

Lemma cinv_new L w r w1 wi ic x w2 nr nc :
  owned L (h_buf (w_heap w)) (w_k w) → newBatchReader os w = (Ret r, w1) → newWriter os wi ic w1 = (Ret x, w2) →
  cinv L (m_init r x w2 nr nc).
Proof.
  intros O E Ex. destruct (newBatchReader_owned os w L O) as (r' & w1' & E' & I & _ & Hrel & _ & O1).
  rewrite E in E'. injection E' as <- <-. unfold newWriter in Ex. destruct (0 <? wi).
  2:{ injection Ex as <- <-. constructor; simpl; [by apply minv_init|done|by intros j [? _]%lookup_replicate_1]. }
  destruct (new_messages_spec bs w1 _ O1) as (ms & bfs & obs & w2' & E2 & C).
  apply GoM_bind_inv in Ex as (bw & w2'' & Eb & Ex). unfold newBatchWriter in Eb.
  rewrite (GoM_bind_Ret _ _ _ _ _ E2) in Eb. injection Eb as <- <-. injection Ex as <- <-.
  destruct C as [(_ & Hl2 & Hl3) Ow Old Mem _ _ _ _ _].
  constructor; simpl; [apply minv_init; [|done|]|congruence|by intros j [? _]%lookup_replicate_1].
  - assert (Hp : r_readPos r = bs).
    { unfold newBatchReader in E. apply GoM_bind_inv in E as ([[? ?] ?] & ? & _ & E). by injection E as <- _. }
    constructor; [|apply I|by left]. eapply core_inv_frame; [apply I|done|].
    intros b Hb. apply Old. rewrite app_assoc. apply elem_of_app. by left.
  - eapply owned_perm; [exact Ow|]. solve_Permutation.
Qed.

Lemma cinv_no_crash L s l why : cinv L s → mstep l s ≠ MCrash why.
Proof.
  intros C E. pose proof (ci_reader _ _ C) as I. destruct l as [i|j now|i b oob|j]; simpl in E; unfold step_reader, step_closer_thread, exec_m, ext in E.
  - destruct (m_readers s !! i) as [[|b oob|b oob|b oob|res]|] eqn:Hi; try done; [by destruct (m_owner s)| |].
    + destruct (r_buffersReleased (m_r s)) eqn:Hrel.
      * pose proof (mi_released _ _ I Hrel) as Hc. unfold read_check in E. by rewrite Hc in E.
      * by destruct (read_check_ok b oob (m_r s) (m_w s) (mi_inv _ _ I Hrel)) as (x & w' & Ex & _); rewrite Ex in E.
    + destruct (ready _); [|done]. destruct (mi_batch _ _ I _ _ _ Hi) as [_ B].
      by destruct (read_batch_ok b oob _ _ B) as (res & r' & w' & Ex & _); rewrite Ex in E.
  - destruct (m_closers s !! j) as [[]|] eqn:Hj; try done.
    + by destruct (nc_Close conn _).
    + by destruct (m_owner s).
    + destruct (r_buffersReleased (m_r s)) eqn:Hrel; [done|].
      by destruct (reader_release _ s I Hrel) as (w' & Er & _); rewrite Er in E.
    + by destruct (sbr_Close _).
    + by destruct (writer_moves L s now j) as (x' & w' & Ex & _); [done..|]; rewrite Ex in E.
  - by destruct (m_readers s !! i) as [[]|].
  - by destruct (m_closers s !! j) as [[]|].
Qed.

End safety.

(** ** [Close] ends *)

(** Once the socket is closed it stays closed, and [ReadBatch] does not block. *)
Class ShutLaws (K : Type) (conn : NetConn K) `{!BufferPool Slice K} `{!SysBatchReader K} `{!SysBatchWriter K}
    `{!BlockingSocket K} : Type := {
  shut : K → bool;
  shut_ready k : shut k = true → ready k = true;
  shut_conn k e k' : nc_Close conn k = (e, k') → shut k' = true;
  shut_batch n k r k' : ReadBatch n k = (r, k') → shut k' = shut k;
  shut_close k e k' : sbr_Close k = (e, k') → shut k' = shut k;
  shut_write ms k r k' : WriteBatch ms k = (r, k') → shut k' = shut k;
  shut_wclose k e k' : sbw_Close k = (e, k') → shut k' = shut k;
  shut_Get p t k b t' k' : pool_Get p t k = (b, t', k') → shut k' = shut k;
  shut_Put p b t k t' k' : pool_Put p b t k = (t', k') → shut k' = shut k
}.

Section ends.
Context {K : Type} `{!BufferPool Slice K} `{!BufferPoolLaws Slice K s_len} `{!SysBatchReader K} `{!SocketApart K}
  `{!SysBatchWriter K} `{!WriterApart K} `{!BlockingSocket K}.
Variable os : OS.
Variable conn : NetConn K.
Context `{!ShutLaws K conn}.
Hypothesis Close_apart : ∀ k e k', nc_Close conn k = (e, k') → ∀ p, pool_idle p k' = pool_idle p k.
#[local] Abbreviation mstep := (mstep os conn).
#[local] Abbreviation M := (GoM (World K)).
Implicit Types (s : MState (K := K)).

Definition reader_left (pc : RPC) : nat :=
  match pc with RD_idle => 0 | RD_lock _ _ => 4 | RD_check _ _ => 3 | RD_batch _ _ => 2 | RD_unlock _ => 1 end.
Definition closer_left (pc : CPC) : nat :=
  match pc with
  | CL_idle | CL_done => 0 | CL_conn => 7 | CL_store => 6 | CL_lock => 5 | CL_release => 4 | CL_unlock => 3 | CL_sys => 2
  | CL_writer => 1
  end.
Definition mleft s : nat := (sum_list_with reader_left (m_readers s) + sum_list_with closer_left (m_closers s))%nat.

(** The goroutines in a call move; nobody makes a new call. *)
Definition moves (l : mlabel) : bool := match l with ML_reader _ | ML_closer _ _ => true | _ => false end.
Definition mtick s s' : Prop := ∃ l, moves l = true ∧ mstep l s = MNext s'.

Lemma mtick_left s s' : mtick s s' → (mleft s' < mleft s)%nat.
Proof.
  intros (l & Hl & E). unfold mleft. destruct l as [i|j now| |]; try done; simpl in E.
  - assert (∃ pc0 pc, m_readers s !! i = Some pc0 ∧ m_readers s' = <[i := pc]> (m_readers s) ∧
      m_closers s' = m_closers s ∧ (reader_left pc < reader_left pc0)%nat) as (pc0 & pc & Hi & -> & -> & Hlt).
    { unfold step_reader, exec_m in E. destruct (m_readers s !! i) as [[]|] eqn:Hi; try done;
        repeat (case_match; simplify_eq/=); simplify_eq/=; eexists _, _; (split_and!; [done..|simpl; lia]). }
    pose proof (sum_list_with_insert reader_left _ _ _ pc Hi). lia.
  - assert (∃ pc0 pc, m_closers s !! j = Some pc0 ∧ m_closers s' = <[j := pc]> (m_closers s) ∧
      m_readers s' = m_readers s ∧ (closer_left pc < closer_left pc0)%nat) as (pc0 & pc & Hj & -> & -> & Hlt).
    { unfold step_closer_thread, exec_m, ext in E. destruct (m_closers s !! j) as [[]|] eqn:Hj; try done;
        repeat (case_match; simplify_eq/=); simplify_eq/=; eexists _, _; (split_and!; [done..|simpl; lia]). }
    pose proof (sum_list_with_insert closer_left _ _ _ pc Hj). lia.
Qed.

Lemma mtick_bound n s s' : nsteps mtick n s s' → (n + mleft s' ≤ mleft s)%nat.
Proof. induction 1 as [|n s1 s2 s3 E _ IH]; [lia|]. apply mtick_left in E. lia. Qed.

(** ** The socket stays closed *)

#[local] Instance shut_blind : PoolBlind shut.
Proof. split; [apply shut_Get|apply shut_Put]. Qed.
#[local] Hint Resolve shut_blind : keeps.

Lemma keeps_refresh idxs r : keeps shut (refresh idxs r : M batchReader).
Proof.
  revert r. induction idxs as [|i idxs IH]; intros r; simpl; keeps. unfold refresh_one, set_slices. keeps.
Qed.
Lemma keeps_take b oob r : keeps shut (take_message b oob r : M (ReadResult * batchReader)).
Proof. unfold take_message. keeps. Qed.
Lemma keeps_sys_read r : keeps shut (sys_read r : M (nat * option error * batchReader)).
Proof.
  intros w. unfold sys_read. destruct (ReadBatch _ _) as [[ds err] k] eqn:E. destruct (deliver_all _ _ _). simpl.
  by eapply shut_batch.
Qed.
#[local] Hint Resolve keeps_refresh keeps_take keeps_sys_read : keeps.

Lemma keeps_read_check b oob r : keeps shut (read_check os b oob r : M (ReadResult * batchReader + batchReader)).
Proof. unfold read_check. keeps. Qed.
Lemma keeps_read_batch b oob r : keeps shut (read_batch b oob r : M (ReadResult * batchReader)).
Proof. unfold read_batch. keeps. Qed.
Lemma exec_m_shut {A} (m : M A) s k s' :
  exec_m m s k = MNext s' → (∀ a w, m_w (k a w) = w) → keeps shut m →
  shut (w_k (m_w s')) = shut (w_k (m_w s)).
Proof.
  unfold exec_m. intros E Hk HK. specialize (HK (m_w s)). destruct (m (m_w s)) as [[a| |] w]; try done.
  injection E as <-. by rewrite Hk.
Qed.

Definition past_conn (pc : CPC) : bool := match pc with CL_idle | CL_conn => false | _ => true end.
Definition shut_inv s : Prop :=
  ∀ j pc, m_closers s !! j = Some pc → past_conn pc = true → shut (w_k (m_w s)) = true.

Lemma step_reader_shut s i s' : step_reader os i s = MNext s' → shut (w_k (m_w s')) = shut (w_k (m_w s)) ∧ m_closers s' = m_closers s.
Proof.
  intros E. unfold step_reader in E. destruct (m_readers s !! i) as [[|b oob|b oob|b oob|res]|]; try done.
  - destruct (m_owner s); [done|]. by injection E as <-.
  - split; [eapply exec_m_shut; [exact E|by intros [[]|]|apply keeps_read_check]|].
    unfold exec_m in E. by repeat (case_match; simplify_eq/=).
  - destruct (ready _); [|done]. split; [eapply exec_m_shut; [exact E|done|apply keeps_read_batch]|].
    unfold exec_m in E. by repeat (case_match; simplify_eq/=).
  - by injection E as <-.
Qed.

Lemma writer_Close_shut now x s k s' :
  exec_m (writer_Close now conn x) s k = MNext s' → (∀ a w, m_w (k a w) = w) →
  shut (w_k (m_w s)) = true → shut (w_k (m_w s')) = true.
Proof.
  destruct x as [bw|b]; intros E Hk Hs.
  - rewrite <- Hs. eapply exec_m_shut; [exact E|done|]. apply keeps_bind; [|keeps].
    apply keeps_writer_Close; [apply _|apply shut_write|apply shut_wclose].
  - unfold exec_m, writer_Close, ext, mbind, GoM_bind in E. destruct (nc_Close conn (w_k (m_w s))) as [e k'] eqn:Ec.
    injection E as <-. rewrite Hk. by eapply shut_conn.
Qed.

Lemma step_closer_shut s j now s' :
  step_closer_thread conn j now s = MNext s' →
  (shut (w_k (m_w s)) = true → shut (w_k (m_w s')) = true) ∧
  ∃ pc0 pc, m_closers s !! j = Some pc0 ∧ m_closers s' = <[j := pc]> (m_closers s) ∧
    (past_conn pc = true → past_conn pc0 = true ∨ shut (w_k (m_w s')) = true).
Proof.
  intros E. unfold step_closer_thread in E. destruct (m_closers s !! j) as [pc0|] eqn:Hj; [|done].
  destruct pc0; try done.
  - unfold exec_m, ext in E. destruct (nc_Close conn _) as [e k] eqn:Ec. injection E as <-. apply shut_conn in Ec.
    split; [done|]. eexists _, _. split_and!; [done..|]. by right.
  - injection E as <-. split; [done|]. eexists _, _. split_and!; [done..|]. by left.
  - destruct (m_owner s); [done|]. injection E as <-. split; [done|]. eexists _, _. split_and!; [done..|]. by left.
  - destruct (r_buffersReleased _).
    + injection E as <-. split; [done|]. eexists _, _. split_and!; [done..|]. by left.
    + split; [intros <-; eapply exec_m_shut; [exact E|done|apply keeps_release, _]|].
      unfold exec_m in E. repeat (case_match; simplify_eq/=). eexists _, _. split_and!; [done..|]. by left.
  - injection E as <-. split; [done|]. eexists _, _. split_and!; [done..|]. by left.
  - split; [intros <-; eapply exec_m_shut; [exact E|done|apply keeps_ext, shut_close]|].
    unfold exec_m, ext in E. repeat (case_match; simplify_eq/=). eexists _, _. split_and!; [done..|]. by left.
  - split; [intros Hs; by eapply writer_Close_shut|].
    unfold exec_m in E. repeat (case_match; simplify_eq/=). eexists _, _. split_and!; [done..|]. by left.
Qed.

Lemma mstep_shut s l s' : shut_inv s → mstep l s = MNext s' → shut_inv s'.
Proof.
  intros I E. destruct l as [i|j now|i b oob|j]; simpl in E.
  - destruct (step_reader_shut _ _ _ E) as [Hs Hc]. intros j pc. rewrite Hc, Hs. apply I.
  - destruct (step_closer_shut _ _ _ _ E) as (Hs & pc0 & pc & Hj & Hc & Hpc). intros j' pc'. rewrite Hc.
    intros [(-> & <- & _)|(_ & Hj')]%list_lookup_insert_Some Hp; [|by eapply Hs, I].
    destruct (Hpc Hp); [by eapply Hs, I|done].
  - destruct (m_readers s !! i) as [[]|]; try done. by injection E as <-.
  - destruct (m_closers s !! j) as [[]|]; try done. injection E as <-. intros j' pc'. simpl.
    intros [(-> & <- & _)|(_ & Hj')]%list_lookup_insert_Some Hp; [done|by eapply I].
Qed.

(** ** Progress *)

(** No call is running. *)
Definition at_rest s : Prop :=
  (∀ i pc, m_readers s !! i = Some pc → pc = RD_idle) ∧
  (∀ j pc, m_closers s !! j = Some pc → pc = CL_idle ∨ pc = CL_done).

(** The owner of the mutex can move. *)
Lemma owner_moves L s t :
  minv os L s → shut (w_k (m_w s)) = true → m_owner s = Some t → ∃ s', mtick s s'.
Proof.
  intros I Hs Ho. pose proof (mi_owner _ _ _ I _ Ho) as Hin.
  assert (Hex : ∀ l, moves l = true → (∃ s', mstep l s = MNext s') → ∃ s', mtick s s')
    by (intros l ? [s' ?]; exists s'; by exists l).
  destruct t as [i|j]; destruct Hin as (pc & Hpc & Hh).
  - destruct pc; try done; (apply (Hex (ML_reader i)); [done|]); simpl; unfold step_reader, exec_m; rewrite Hpc.
    + destruct (r_buffersReleased (m_r s)) eqn:Hrel.
      * unfold read_check. rewrite (mi_released _ _ _ I Hrel). by eexists.
      * destruct (read_check_ok os b oob (m_r s) (m_w s) (mi_inv _ _ _ I Hrel)) as (x & w' & -> & _). by eexists.
    + destruct (mi_batch _ _ _ I _ _ _ Hpc) as [_ B]. rewrite (shut_ready _ Hs).
      destruct (read_batch_ok os b oob _ _ B) as (res & r' & w' & -> & _). by eexists.
    + by eexists.
  - destruct pc; try done; (apply (Hex (ML_closer j 0)); [done|]); simpl; unfold step_closer_thread, exec_m; rewrite Hpc.
    + destruct (r_buffersReleased (m_r s)) eqn:Hrel; [by eexists|].
      destruct (reader_release os L s I Hrel) as (w' & -> & _). by eexists.
    + by eexists.
Qed.

Lemma resting L s : cinv os L s → shut (w_k (m_w s)) = true → nf mtick s → at_rest s.
Proof.
  intros C Hs Hnf. pose proof (ci_reader _ _ _ C) as I. destruct (m_owner s) as [t|] eqn:Ho; [by destruct Hnf; eapply owner_moves|].
  assert (Hex : ∀ l, moves l = true → (∃ s', mstep l s = MNext s') → False)
    by (intros l Hl [s' E]; apply Hnf; exists s'; by exists l).
  split.
  - intros i pc Hi. destruct pc; [done|..]; exfalso.
    2-4: pose proof (mi_reader _ _ _ I _ _ Hi eq_refl); congruence.
    apply (Hex (ML_reader i)); [done|]. simpl. unfold step_reader. rewrite Hi, Ho. by eexists.
  - intros j pc Hj. destruct pc; auto; exfalso.
    4,5: pose proof (mi_closer _ _ _ I _ _ Hj eq_refl); congruence.
    all: (apply (Hex (ML_closer j 0)); [done|]); simpl; unfold step_closer_thread, exec_m, ext; rewrite Hj, ?Ho; try (by eexists).
    + destruct (nc_Close conn _). by eexists.
    + destruct (sbr_Close _). by eexists.
    + destruct (writer_moves os conn Close_apart L s 0 j C Hj) as (x' & w' & -> & _). by eexists.
Qed.

Lemma mtick_inv L s s' : cinv os L s ∧ shut_inv s → mtick s s' → cinv os L s' ∧ shut_inv s'.
Proof. intros [I S] (l & _ & E). split; [by eapply mstep_ok|by eapply mstep_shut]. Qed.

Lemma mtick_shut s s' : shut (w_k (m_w s)) = true → mtick s s' → shut (w_k (m_w s')) = true.
Proof.
  intros Hs (l & Hl & E). destruct l; try done; simpl in E.
  - by destruct (step_reader_shut _ _ _ E) as [-> _].
  - by destruct (step_closer_shut _ _ _ _ E) as [H _]; apply H.
Qed.

(** C9: [Close] ends although a [Read] is blocked.  [Read] holds the reader's
    mutex while it waits in [ReadBatch], and [oobConn.Close] needs that mutex;
    but it closes the socket first.  From any state of a connection made by
    [newConn] in which a [Close] has done so, the goroutines in a call take at
    most [mleft s] more steps, in any order, and when they can take no more,
    every [Read] and every [Close], the closing of the writer included, has
    returned. *)
Theorem close_ends_with_blocked_read L w r w1 wi ic x w2 nr nc s j pc :
  owned L (h_buf (w_heap w)) (w_k w) → newBatchReader os w = (Ret r, w1) → newWriter os wi ic w1 = (Ret x, w2) →
  mreach os conn (m_init r x w2 nr nc) s → m_closers s !! j = Some pc → past_conn pc = true →
  (∀ n s', nsteps mtick n s s' → (n ≤ mleft s)%nat) ∧
  (∀ s', rtc mtick s s' → nf mtick s' → at_rest s').
Proof.
  intros O E Ex R Hj Hp.
  assert (MI : cinv os L s ∧ shut_inv s).
  { split; [by eapply mreach_inv, R; [|by eapply cinv_new]|]. clear Hj. induction R as [|s l s' _ IH Es].
    - by intros j' pc' [-> _]%lookup_replicate_1.
    - by eapply mstep_shut. }
  split; [intros n s' Hn; apply mtick_bound in Hn; lia|].
  assert (Hs : shut (w_k (m_w s)) = true) by (by eapply (proj2 MI)).
  intros s' Hr Hnf. clear R Hj. induction Hr as [s|s s1 s' Et _ IH]; [by eapply resting; [apply MI|..]|].
  apply IH; [by eapply mtick_inv|by eapply mtick_shut|done].
Qed.

End ends.
