(* ===== verification/OobProps.v ===== *)
(** * Properties of the raw connections

    The control data that [WritePacket] builds carries the mark it was asked
    for; [ReadPacket] returns the mark of the datagram; misuse of GSO or ECN
    ends the process before anything is sent; and which packets leave a
    connected socket without their control data. *)

From S2P Require Import Prelude GoLib Types Interfaces Ownership GoWorld Cmsg Platform SockBuf BatchReader.
From S2P Require Import BatchReaderInv BatchWriter OobConn.

Section props.
Context {K : Type} {abi : UnixABI} {laws : UnixLaws} `{!Kernel K} `{!BufferPool Slice K}
  `{!SysBatchReader K} `{!SysBatchWriter K}.
#[local] Abbreviation M := (GoM (World K)).
Implicit Types (c : oobConn K) (w : World K).

(** The control data of [WritePacket]: segment size, then mark. *)
Definition control (os : OS) (oob : list Z) (gsoSize : Z) (ecn : ECN) (ip : list Z) : outcome (list Z) :=
  oob ← (if 0 <? gsoSize then AppendUDPSegmentSizeMsg os oob gsoSize else Ret oob);
  if ecn =? ECNUnsupported then Ret oob
  else match IP_To4 ip with
       | Some _ => appendIPv4ECNMsg os oob ecn
       | None => appendIPv6ECNMsg oob ecn
       end.

Lemma outcome_bind_Ret {A B} (m : outcome A) (f : A → outcome B) b :
  (m ≫= f) = Ret b → ∃ a, m = Ret a ∧ f a = Ret b.
Proof. destruct m; [eauto|done..]. Qed.

(** With the capabilities it needs, [WritePacket] is the writer on that data. *)
Lemma WritePacket_control os now b oob gsoSize ecn ip port zone c w oob' :
  (0 < gsoSize → cap_GSO (oc_cap c) = true) → (ecn ≠ ECNUnsupported → cap_ECN (oc_cap c) = true) →
  control os oob gsoSize ecn ip = Ret oob' →
  Oob_WritePacket os now b oob gsoSize ecn (Some (UDPAddr ip port zone)) c w =
  (x ← writer_Write os now b oob' (Some (UDPAddr ip port zone)) c;
   match wr_err x.1 with Some e => mret (MkWrite 0 0 (Some e), x.2) | None => mret (x.1, x.2) end) w.
Proof.
  intros Hg He Hc. unfold control in Hc. unfold Oob_WritePacket.
  apply outcome_bind_Ret in Hc as (oob1 & H1 & H2).
  rewrite (GoM_bind_Ret _ _ w (inl oob1) w).
  2: { destruct (Z.ltb_spec 0 gsoSize) as [Hgs|Hgs]; [|by injection H1 as ->].
       rewrite Hg, H1 by done. done. }
  rewrite (GoM_bind_Ret _ _ w (inl oob') w).
  2: { destruct (Z.eqb_spec ecn ECNUnsupported) as [->|Hne]; [by injection H2 as ->|].
       rewrite He, H2 by done. done. }
  unfold mbind, GoM_bind. destruct (writer_Write os now b oob' _ c w) as [[[r c']| |] w']; try done.
Qed.

(** The control data ends in the mark. *)
Lemma control_mark ms gsoSize e e0 ip :
  Forall wf_msg ms → ecn_marked e →
  ∃ oob, control linux (encode ms) gsoSize e ip = Ret oob ∧ parse_oob linux oob e0 = Ret (inl e).
Proof.
  intros Hms He. destruct (ToHeaderBits_marked e He) as (bits & Hb & Hr & _). unfold control.
  assert (∃ ms', (if 0 <? gsoSize then AppendUDPSegmentSizeMsg linux (encode ms) gsoSize else Ret (encode ms))
            = Ret (encode ms') ∧ Forall wf_msg ms') as (ms' & -> & Hms').
  { destruct (0 <? gsoSize); [|by exists ms]. exists (ms ++ [gso_msg gsoSize]).
    rewrite AppendUDPSegmentSizeMsg_eq, <- encode_snoc by done. split; [done|].
    apply Forall_app. split; [done|]. apply Forall_singleton, gso_msg_wf. }
  simpl. rewrite (proj2 (Z.eqb_neq _ _)) by (unfold ecn_marked, ECNUnsupported in *; lia).
  destruct (IP_To4 ip).
  - rewrite (appendIPv4ECNMsg_eq linux _ _ _ Hb), <- encode_snoc. eexists. split; [done|].
    apply (parse_last_mark linux _ _ bits [] bits); try done.
    + apply ecn4_msg_wf.
    + unfold carries_ecn. simpl. by rewrite !Z.eqb_refl.
    + by apply land_3_small.
  - rewrite (appendIPv6ECNMsg_eq _ _ _ Hb), <- encode_snoc. eexists. split; [done|].
    apply (parse_last_mark linux _ _ bits (replicate 3 0) bits); try done.
    + apply ecn6_msg_wf.
    + unfold carries_ecn. simpl. rewrite !Z.eqb_refl. by destruct (_ && _).
    + by apply land_3_small.
Qed.

(** A marked packet leaves with its mark.  On Linux, on an unconnected socket
    without write buffering, [WritePacket] with an ECN mark (and a segment
    size, when GSO is available) calls [WriteMsgUDP] once, with the caller's
    bytes and address and with control data from which the receiving side reads
    exactly that mark, for IPv4 and IPv6 addresses alike; a failure is
    reported with zero counts. *)
Lemma WritePacket_marked now b ms gsoSize e ip port zone c w f :
  nc_WriteMsgUDP (oc_conn c) = Some f → oc_writer c = BasicW false →
  Forall wf_msg ms → ecn_marked e → cap_ECN (oc_cap c) = true →
  (0 < gsoSize → cap_GSO (oc_cap c) = true) →
  ∃ oob, parse_oob linux oob ECNUnsupported = Ret (inl e) ∧
    Oob_WritePacket linux now b (encode ms) gsoSize e (Some (UDPAddr ip port zone)) c w =
    (let '(n, oobN, err, k) := f b oob (Some (UDPAddr ip port zone)) (w_k w) in
     (Ret (match err with Some _ => MkWrite 0 0 err | None => MkWrite n oobN None end, c), set_k k w)).
Proof.
  intros Hf Hw Hms He Hce Hcg. destruct (control_mark ms gsoSize e ECNUnsupported ip Hms He) as (oob & Hc & Hp).
  exists oob. split; [done|].
  rewrite (WritePacket_control _ _ _ _ _ _ _ _ _ _ _ oob) by (done || auto).
  unfold writer_Write, basicWriter_Write, assert_UDPAddr, ext. rewrite Hw, Hf. gosimpl.
  destruct (f b oob _ (w_k w)) as [[[n oobN] err] k]. simpl. by destruct err.
Qed.

Lemma gso_exits os now b oob gsoSize ecn addr c w :
  0 < gsoSize → cap_GSO (oc_cap c) = false →
  ∃ l, Oob_WritePacket os now b oob gsoSize ecn addr c w = (Exit 1, set_log l w).
Proof.
  intros Hg Hc. unfold Oob_WritePacket. destruct (Log_exit "GSO disabled" w) as [l El]. exists l.
  rewrite (proj2 (Z.ltb_lt _ _)) by done. rewrite Hc. cbn [negb].
  unfold mbind at 1, GoM_bind at 1. unfold mbind at 1, GoM_bind at 1. by rewrite El.
Qed.

Lemma ecn_exits os now b oob gsoSize ecn addr c w :
  (0 < gsoSize → cap_GSO (oc_cap c) = true) → ecn ≠ ECNUnsupported → cap_ECN (oc_cap c) = false →
  ∃ l, Oob_WritePacket os now b oob gsoSize ecn addr c w = (Exit 1, set_log l w).
Proof.
  intros Hg He Hc. unfold Oob_WritePacket.
  destruct (Log_exit "tried to send an ECN-marked packet although ECN is disabled" w) as [l El].
  exists l. rewrite (proj2 (Z.eqb_neq ecn ECNUnsupported)) by done. rewrite Hc. cbn [negb].
  assert (∃ o, (if 0 <? gsoSize
    then if negb (cap_GSO (oc_cap c))
         then Log PanicLevel "GSO disabled";; mret (inr (ErrText "GSO disabled"))
         else o ← lift (AppendUDPSegmentSizeMsg os oob gsoSize); mret (inl o)
    else mret (inl oob) : M (list Z + error)) w = (Ret (inl o), w)) as [o Ho].
  { destruct (Z.ltb_spec 0 gsoSize); [|by eexists]. rewrite Hg by done. cbn [negb].
    destruct (decide (os = linux)) as [->|Hos].
    - rewrite AppendUDPSegmentSizeMsg_eq by done. by eexists.
    - exists []. by destruct os. }
  rewrite (GoM_bind_Ret _ _ w (inl o) w Ho).
  unfold mbind at 1, GoM_bind at 1. unfold mbind at 1, GoM_bind at 1. by rewrite El.
Qed.

(** C30: misuse ends the process.  Asking for a segment size without the GSO
    capability, or for a mark without the ECN capability (with or without a
    segment size), exits with status 1 before the writer is called: nothing but
    the log has changed.  On a
    [BasicConn] every segment size and every mark does. *)
Theorem misuse_exits os now b oob gsoSize ecn addr c (bc : BasicConn K) w :
  ((0 < gsoSize ∧ cap_GSO (oc_cap c) = false) ∨
   (ecn ≠ ECNUnsupported ∧ cap_ECN (oc_cap c) = false) →
   ∃ l, Oob_WritePacket os now b oob gsoSize ecn addr c w = (Exit 1, set_log l w)) ∧
  (gsoSize ≠ 0 ∨ ecn ≠ ECNUnsupported →
   ∃ l, Basic_WritePacket bc b oob gsoSize ecn addr w = (Exit 1, set_log l w)).
Proof.
  split.
  - intros H.
    assert ((0 < gsoSize ∧ cap_GSO (oc_cap c) = false) ∨
            ((0 < gsoSize → cap_GSO (oc_cap c) = true) ∧ ecn ≠ ECNUnsupported ∧ cap_ECN (oc_cap c) = false))
      as [[Hg Hc]|(Hg & He & Hc)].
    { destruct H as [|[? ?]]; [by left|]. destruct (cap_GSO (oc_cap c)); [by right|].
      destruct (decide (0 < gsoSize)); [by left|right; split; [lia|done]]. }
    + by apply gso_exits.
    + by apply ecn_exits.
  - intros H. unfold Basic_WritePacket. destruct (Z.eqb_spec gsoSize 0) as [->|Hg]; cbn [negb].
    + rewrite (proj2 (Z.eqb_neq _ _)) by (destruct H; done). cbn [negb].
      destruct (Log_exit "cannot use ECN with a basicConn" w) as [l El]. exists l.
      unfold mbind at 1, GoM_bind at 1. by rewrite El.
    + destruct (Log_exit "cannot use GSO with a basicConn" w) as [l El]. exists l.
      unfold mbind at 1, GoM_bind at 1. by rewrite El.
Qed.

(** C38: a connected socket drops the control data.  On Linux, on a connected socket without
    write buffering and with the nil address that a dialed connection uses,
    [WritePacket] passes the bytes to [Write] and nothing else: segment size
    and mark, though accepted, have no effect on what is sent or returned. *)
Theorem connected_write_drops_control now b oob gsoSize ecn c w read write :
  nc_connected (oc_conn c) = Some (read, write) → oc_writer c = BasicW true →
  (0 < gsoSize → cap_GSO (oc_cap c) = true) → (ecn ≠ ECNUnsupported → cap_ECN (oc_cap c) = true) →
  Oob_WritePacket linux now b oob gsoSize ecn None c w =
  Oob_WritePacket linux now b [] 0 ECNUnsupported None c w.
Proof.
  intros Hc Hw Hg He.
  assert (Hend : ∀ o, writer_Write linux now b o None c w = writer_Write linux now b [] None c w).
  { intros o. unfold writer_Write, basicWriter_Write. by rewrite Hw, Hc. }
  assert (Hgo : ∀ o, ∃ o', Oob_WritePacket linux now b o gsoSize ecn None c w =
    (x ← writer_Write linux now b o' None c;
     match wr_err x.1 with Some e => mret (MkWrite 0 0 (Some e), x.2) | None => mret (x.1, x.2) end) w).
  { intros o. unfold Oob_WritePacket.
    exists (if 0 <? gsoSize then o ++ cmsg_build (gso_msg gsoSize) else o).
    set (o1 := if 0 <? gsoSize then _ else o). rewrite (GoM_bind_Ret _ _ w (inl o1) w).
    2: { unfold o1. destruct (Z.ltb_spec 0 gsoSize) as [Hgs|Hgs]; [|done].
         rewrite Hg, AppendUDPSegmentSizeMsg_eq by done. done. }
    rewrite (GoM_bind_Ret _ _ w (inl o1) w).
    2: { destruct (Z.eqb_spec ecn ECNUnsupported) as [->|Hne]; [done|]. rewrite He by done. done. }
    unfold mbind, GoM_bind. destruct (writer_Write linux now b o1 None c w) as [[[r c']| |] w']; done. }
  destruct (Hgo oob) as [o' ->]. unfold Oob_WritePacket.
  rewrite (GoM_bind_Ret _ _ w (inl []) w), (GoM_bind_Ret _ _ w (inl []) w) by done.
  unfold mbind, GoM_bind. rewrite Hend.
  destruct (writer_Write linux now b [] None c w) as [[[r c']| |] w']; done.
Qed.

(** C20: [ReadPacket] returns the datagram and its mark.  When the next datagram is
    already buffered in the reader and carries well-formed control messages that end in a TOS or
    traffic-class message, and the caller's buffer holds them, [ReadPacket]
    returns the datagram's bytes (up to the caller's buffer), its control bytes,
    its sender, and the mark of that last message, and removes the datagram. *)
Theorem ReadPacket_returns_mark os b oob c w data ms m e addr ds b0 rest :
  reader_inv os (w_heap w) (oc_reader c) → r_closed (oc_reader c) = false →
  pending (w_heap w) (oc_reader c) = (data, encode (ms ++ [m]), addr) :: ds →
  Forall wf_msg ms → wf_msg m → carries_ecn os m = true → cm_data m = b0 :: rest →
  ToHeaderBits e = Ret (Z.land b0 3) → (length (encode (ms ++ [m])) ≤ length oob)%nat →
  ∃ c', Oob_ReadPacket os b oob c w =
      (Ret (MkRead (go_copy b data).1 (go_copy oob (encode (ms ++ [m]))).1 (go_copy b data).2
              (length (encode (ms ++ [m]))) e addr None, c'), w) ∧
    reader_inv os (w_heap w) (oc_reader c') ∧ pending (w_heap w) (oc_reader c') = ds.
Proof.
  intros I Hc Hp Hms Hm Hcar Hd He Hfit. set (ctl := encode (ms ++ [m])) in *.
  destruct (read_pending_ok os b oob (oc_reader c) w _ _ I Hc Hp) as (r' & E & I' & _ & Hp').
  exists (set_reader r' c). split; [|by split].
  unfold Oob_ReadPacket. rewrite (GoM_bind_Ret _ _ _ _ _ E). unfold give.
  cbn beta iota zeta delta [rr_err rr_oobn rr_oob rr_ecn rr_b rr_n rr_addr].
  destruct (go_copy_fits oob ctl Hfit) as [Hn Ht].
  rewrite (GoM_bind_Ret _ _ w (inl e) w).
  - cbn beta iota. by rewrite Hn.
  - unfold lift. rewrite Hn, Ht. f_equal. unfold ctl. by eapply parse_last_mark.
Qed.

(** C40: a wrapped basic connection is never "connected".  [WrapConn] on a
    connection that lacks a method of [OOBCapablePacketConn] tests the wrong variable for a remote
    address: the [BasicConn] it returns has [isConnected] false, also for a
    connected socket, whose writes then go through [WriteTo]. *)
Theorem wrap_basic_never_connected os pc writeInterval warned w rc warned' w' :
  oob_capable pc = false →
  WrapConn os pc writeInterval warned w = (Ret (inl rc, warned'), w') →
  ∃ df, rc = RawBasic (MkBasic pc false df).
Proof.
  intros Hcap E. unfold WrapConn in E.
  do 5 (apply GoM_bind_inv in E as (? & ? & _ & E)). case_match; [|done].
  rewrite Hcap in E. cbn [negb] in E.
  apply GoM_bind_inv in E as (? & ? & _ & E). apply GoM_bind_inv in E as (? & ? & E1 & E).
  unfold mret, GoM_ret in *. simplify_eq. by eexists.
Qed.

(** ** The type of what is read *)

(** A result of [ReadPacket] into [b] and [oob]. *)
Record read_typed (b oob : list Z) (r : ReadResult) : Prop := {
  rt_b : length (rr_b r) = length b;
  rt_oob : length (rr_oob r) = length oob;
  rt_n : (rr_n r ≤ length b)%nat;
  rt_oobn : (rr_oobn r ≤ length oob)%nat;
  rt_ecn : rr_ecn r = ECNUnsupported ∨ ecn_marked (rr_ecn r);
  rt_err : rr_err r ≠ None → rr_n r = 0%nat ∧ rr_oobn r = 0%nat ∧ rr_addr r = None
}.

Lemma read_typed_err b oob ecn e :
  ecn = ECNUnsupported ∨ ecn_marked ecn → read_typed b oob (MkRead b oob 0 0 ecn None e).
Proof. intros He. constructor; simpl; try done; lia. Qed.

Lemma read_typed_copy b oob data odata ecn addr :
  ecn = ECNUnsupported ∨ ecn_marked ecn →
  read_typed b oob (MkRead (go_copy b data).1 (go_copy oob odata).1 (go_copy b data).2 (go_copy oob odata).2
                      ecn addr None).
Proof.
  intros He. constructor; simpl; try apply go_copy_length; try done; lia.
Qed.

(** Whatever its state, the reader returns a well-typed result, unmarked. *)
Lemma take_message_typed b oob r w res r' w' :
  take_message b oob r w = (Ret (res, r'), w') → read_typed b oob res ∧ rr_ecn res = ECNUnsupported.
Proof.
  unfold take_message. case_match; [|done]. case_match; [|done]. gosimpl.
  destruct (slice_to (vec_get _ _) _) as [s1|]; [|done]. destruct (slice_to (m_OOB _) _) as [s2|]; [|done].
  simpl. intros [= <- _ _]. split; [|done].
  exact (read_typed_copy b oob (mem_read _ s1) (mem_read _ s2) ECNUnsupported _ (or_introl eq_refl)).
Qed.

Lemma batchReader_Read_typed os b oob r w res r' w' :
  batchReader_Read os b oob r w = (Ret (res, r'), w') → read_typed b oob res ∧ rr_ecn res = ECNUnsupported.
Proof.
  assert (Hend : ∀ e, read_typed b oob (MkRead b oob 0 0 0 None e) ∧ 0 = ECNUnsupported)
    by (intros e; split; [apply read_typed_err; by left|done]).
  unfold batchReader_Read. case_match; [intros [= <- _ _]; apply Hend|].
  case_match; [|apply take_message_typed]. intros E.
  apply GoM_bind_inv in E as (r1 & w1 & _ & E). apply GoM_bind_inv in E as ([[n err] r2] & w2 & _ & E).
  destruct err; [|case_match]; unfold mret, GoM_ret in *; simplify_eq/=; try apply Hend.
  by eapply take_message_typed.
Qed.

Lemma Oob_ReadPacket_typed os b oob c w res c' w' :
  Oob_ReadPacket os b oob c w = (Ret (res, c'), w') → read_typed b oob res.
Proof.
  intros E. unfold Oob_ReadPacket in E. apply GoM_bind_inv in E as ([r reader] & w1 & E1 & E).
  destruct (batchReader_Read_typed _ _ _ _ _ _ _ _ E1) as [[T1 T2 T3 T4 T5 T6] He].
  destruct (rr_err r) eqn:Eerr; [unfold mret, GoM_ret in E; simplify_eq/=; constructor; by rewrite ?Eerr|].
  apply GoM_bind_inv in E as (p & w2 & E2 & E). unfold lift in E2.
  pose proof (parse_oob_cases os (take (rr_oobn r) (rr_oob r)) (rr_ecn r)) as Hp.
  destruct (parse_oob os _ _) as [q| |]; simplify_eq. destruct p as [ecn|err]; unfold mret, GoM_ret in E; simplify_eq/=.
  - constructor; simpl; try done. destruct Hp as [->|]; [by left|by right].
  - constructor; simpl; try done; try lia. right. unfold ecn_marked, ECNNon. lia.
Qed.

Lemma Basic_ReadPacket_typed (bc : BasicConn K) b oob w res w' :
  (∀ k b' n a e k', nc_ReadFrom (bc_PacketConn bc) b k = ((b', n, a, e), k') →
     length b' = length b ∧ (n ≤ length b)%nat) →
  (∀ rd wr k b' n e k', nc_connected (bc_PacketConn bc) = Some (rd, wr) →
     rd b k = ((b', n, e), k') → length b' = length b ∧ (n ≤ length b)%nat) →
  Basic_ReadPacket bc b oob w = (Ret res, w') → read_typed b oob res.
Proof.
  intros H1 H2 E. unfold Basic_ReadPacket in E. apply GoM_bind_inv in E as ([[[b' n] a] err] & w1 & E1 & E).
  assert (length b' = length b ∧ (n ≤ length b)%nat) as [Hb Hn].
  { unfold ext in E1. destruct (nc_connected (bc_PacketConn bc)) as [[rd wr]|] eqn:Ec; [destruct (bc_isConnected bc)|].
    - apply GoM_bind_inv in E1 as ([[b1 n1] e1] & w2 & E2 & E1). unfold ext in E2.
      destruct (rd b (w_k w)) as [x k] eqn:Er. unfold mret, GoM_ret in *. simplify_eq/=. by eapply H2.
    - destruct (nc_ReadFrom _ b (w_k w)) as [x k] eqn:Er. simplify_eq. by eapply H1.
    - destruct (nc_ReadFrom _ b (w_k w)) as [x k] eqn:Er. simplify_eq. by eapply H1. }
  destruct err; unfold mret, GoM_ret in E; simplify_eq/=; constructor; simpl; try done; try lia; by left.
Qed.

(** C21: the type of what is read.  Whatever the state of the connection, when
    [ReadPacket] of a wrapped connection returns, the caller's buffers have
    their lengths, the counts stay within them, the mark is unsupported or one
    of the four of the header bits, and an error comes with zero counts and no
    address.  ([net.PacketConn] promises [n <= len(b)] for the basic
    connection.) *)
Theorem ReadPacket_typed os b oob (rc : rawConn (K := K)) w r rc' w' :
  (∀ bc, rc = RawBasic bc →
    (∀ k b' n a e k', nc_ReadFrom (bc_PacketConn bc) b k = ((b', n, a, e), k') → length b' = length b ∧ (n ≤ length b)%nat) ∧
    (∀ rd wr k b' n e k', nc_connected (bc_PacketConn bc) = Some (rd, wr) →
       rd b k = ((b', n, e), k') → length b' = length b ∧ (n ≤ length b)%nat)) →
  Raw_ReadPacket os b oob rc w = (Ret (r, rc'), w') → read_typed b oob r.
Proof.
  intros Hnet E. destruct rc as [bc|oc]; simpl in E; apply GoM_bind_inv in E as (x & w1 & E & Ex);
    unfold mret, GoM_ret in Ex; simplify_eq/=.
  - destruct (Hnet bc eq_refl) as [H1 H2]. by eapply Basic_ReadPacket_typed.
  - destruct x as [res oc']. by eapply Oob_ReadPacket_typed.
Qed.

End props.
