(* ===== verification/WrapProps.v ===== *)
(** * What [WrapConn] returns

    The outcome of the constructors as a function of what the socket and the
    system support: which error, or which capabilities. *)

From S2P Require Import Prelude GoLib Types Interfaces GoWorld Cmsg Platform SockBuf BatchReader.
From S2P Require Import BatchWriter OobConn.

(** From every state the computation returns a value with property [P]. *)
Definition returns {K A} (m : GoM (World K) A) (P : A → Prop) : Prop :=
  ∀ w, ∃ a w', m w = (Ret a, w') ∧ P a.

(** What the socket and the system support, whatever their state; the sizes of
    the buffers are part of the state. *)
Record facts : Type := MkFacts {
  f_set : SockOpt → option error;
  f_get : SockOpt → Z * option error;
  f_sockname : Sockaddr + error;
  f_env : string → string;
  f_uname : list Z + error
}.

Class SteadyKernel (K : Type) (f : facts) `{!Kernel K} : Prop := {
  steady_Control k : (Control k).1 = None;
  steady_Setsockopt o v k : (SetsockoptInt o v k).1 = f_set f o;
  steady_Getsockopt o k : o ≠ SO_RCVBUF → o ≠ SO_SNDBUF → (GetsockoptInt o k).1 = f_get f o;
  steady_Getsockname k : (Getsockname k).1 = f_sockname f;
  steady_Uname k : Uname k = f_uname f;
  steady_Getenv n k : Getenv n k = f_env f n
}.

(** ** The expected outcome *)

Section expect.
Variable f : facts.

Definition both_fail (o4 o6 : SockOpt) : bool := bool_decide (f_set f o4 ≠ None ∧ f_set f o6 ≠ None).
Definition switched_on (name : string) : bool :=
  match ParseBool (f_env f name) with Some b => b | None => false end.
Definition linux_major : Z :=
  match f_uname f with inl release => (version_loop release (0, 0) 0 0).1 | inr _ => 0 end.

Definition gso_expected (os : OS) : bool :=
  match os with
  | linux => (5 <=? linux_major) && negb (switched_on "QUIC_GO_DISABLE_GSO") &&
             bool_decide ((f_get f Opt_UDP_SEGMENT).2 = None)
  | _ => false
  end.
Definition ecn_expected (os : OS) : bool :=
  match os with linux => 5 <=? linux_major | _ => true end && negb (switched_on "QUIC_GO_DISABLE_ECN").

(** Whether DF is set, or the error.  On darwin it needs macOS 11, and before
    macOS 15 an IPv6 socket must not be dual-stack. *)
Definition df_error : error := ErrText "setting DF failed for both IPv4 and IPv6".
Definition mac_version : Z + error :=
  match f_uname f with
  | inr e => inr e
  | inl release => match index_byte 46 release with None => inl 0 | Some i => Atoi (take i release) end
  end.
Definition mac_df (v : Z) : bool + error :=
  match f_sockname f with
  | inr e => inr (WrapError "getsockname: " e)
  | inl SockaddrInet4 => match f_set f Opt_DONTFRAG with Some e => inr e | None => inl true end
  | inl SockaddrInet6 =>
    match (if v <? macOSVersion15 then (f_get f Opt_V6ONLY).2 else None), f_set f Opt_DONTFRAG6 with
    | Some e, _ => inr (WrapError "getting IPV6_V6ONLY: " e)
    | None, Some e => inr e
    | None, None => inl (negb ((v <? macOSVersion15) && ((f_get f Opt_V6ONLY).1 =? 0)))
    end
  | inl (SockaddrOther t) => inr (ErrText ("unknown address type: " +:+ t)%string)
  end.
Definition df_expected (os : OS) : bool + error :=
  match os with
  | linux => if both_fail Opt_MTU_DISCOVER Opt_MTU_DISCOVER6 then inr df_error else inl true
  | windows => if both_fail Opt_DONTFRAG Opt_DONTFRAG6 then inr df_error else inl true
  | darwin =>
    match mac_version with
    | inr e => inr e
    | inl v => if v <? macOSVersion11 then inl false else mac_df v
    end
  | freebsd | other_os => inl false
  end.

(** The error of [newConn]; [any] says that the socket is bound to the
    unspecified address. *)
Definition newConn_error (any : bool) : option error :=
  if both_fail Opt_RECVTOS Opt_RECVTCLASS
  then Some (ErrText "activating ECN failed for both IPv4 and IPv6")
  else if any && both_fail Opt_PKTINFO Opt_RECVPKTINFO6
  then Some (ErrText "activating packet info failed for both IPv4 and IPv6")
  else None.
End expect.

Section returns.
Context {K : Type}.
#[local] Abbreviation M := (GoM (World K)).

Lemma returns_ret {A} (a : A) (P : A → Prop) : P a → returns (mret a : M A) P.
Proof. intros H w. by exists a, w. Qed.
Lemma returns_bind {A B} (m : M A) (g : A → M B) P Q :
  returns m P → (∀ a, P a → returns (g a) Q) → returns (m ≫= g) Q.
Proof.
  intros Hm Hg w. destruct (Hm w) as (a & w1 & E & Ha). rewrite (GoM_bind_Ret _ _ _ _ _ E). by apply Hg.
Qed.
End returns.

(** The next call of a computation, by what it returns. *)
Tactic Notation "run" uconstr(H) := eapply returns_bind; [first [apply H; done | apply H]|].

Section calls.
Context {K : Type}.
#[local] Abbreviation M := (GoM (World K)).

Lemma returns_ext {A} (g : K → A * K) (P : A → Prop) : (∀ k, P (g k).1) → returns (ext g) P.
Proof. intros H w. unfold ext. specialize (H (w_k w)). destruct (g (w_k w)). eexists _, _. by split. Qed.
Lemma returns_any {A} (g : K → A * K) : returns (ext g) (λ _, True).
Proof. by apply returns_ext. Qed.
Lemma returns_Log level msg : level ≠ PanicLevel → returns (Log level msg : M unit) (λ _, True).
Proof. intros H w. rewrite Log_ret by done. eauto. Qed.
Lemma returns_getw : returns (getw : M (World K)) (λ _, True).
Proof. intros w. by exists w, w. Qed.

Lemma returns_families what e4 e6 : returns (log_families what e4 e6 : M unit) (λ _, True).
Proof. unfold log_families. repeat case_match; by apply returns_Log. Qed.
Lemma returns_connected (c : NetConn K) a :
  (∀ k, match nc_RemoteAddr c with Some g => g k | None => None end = a) →
  returns (is_connected c) (λ b, b = bool_decide (a ≠ None)).
Proof.
  intros H w. unfold is_connected, remote_addr. gosimpl. rewrite H. eauto.
Qed.

Context `{!BufferPool Slice K}.
Lemma returns_messages n : returns (new_messages n : M (list Message * list nat * list nat)) (λ _, True).
Proof.
  assert (HGet : ∀ p, returns (Get p : M nat) (λ _, True)).
  { intros p w. unfold Get. destruct (pool_Get _ _ _) as [[? ?] ?]. eauto. }
  assert (Hlen : ∀ b n, returns (ensure_len b n : M unit) (λ _, True)).
  { intros b m w. unfold ensure_len. case_match; [destruct (make_bytes m (w_heap w))|]; eauto. }
  assert (Hheap : ∀ A (g : Heap → A * Heap), returns (heapM g : M A) (λ _, True)).
  { intros A g w. unfold heapM. destruct (g (w_heap w)). eauto. }
  induction n as [|n IH]; cbn [new_messages]; [by apply returns_ret|].
  repeat (eapply returns_bind; [done|]; intros ? _). repeat case_match. by apply returns_ret.
Qed.
Lemma returns_reader os :
  returns (newBatchReader os : M batchReader) (λ r, ∃ w w' : World K, newBatchReader os w = (Ret r, w')).
Proof.
  intros w. assert (returns (newBatchReader os : M batchReader) (λ _, True)) as H.
  { unfold newBatchReader. run returns_messages. intros [[? ?] ?] _. by apply returns_ret. }
  destruct (H w) as (r & w' & E & _). exists r, w'. split; [done|]. by exists w, w'.
Qed.
Lemma returns_writer os isConnected :
  returns (newBatchWriter os isConnected : M batchWriter) (λ r, bw_isConnected r = isConnected ∧ bw_closed r = false).
Proof. run returns_messages. intros [[? ?] ?] _. by apply returns_ret. Qed.
End calls.

(** ** Under a steady system *)

Section steady.
Context {K : Type} {abi : UnixABI} `{!Kernel K} `{!BufferPool Slice K} `{!SysBatchReader K} `{!SysBatchWriter K}.
Context (f : facts) `{!SteadyKernel K f}.
#[local] Abbreviation M := (GoM (World K)).

Lemma returns_Control : returns (ext Control : M (option error)) (λ e, e = None).
Proof. apply returns_ext, steady_Control. Qed.
Lemma returns_setsockopt o v : returns (setsockopt o v : M (option error)) (λ e, e = f_set f o).
Proof. apply returns_ext. intros k. apply steady_Setsockopt. Qed.
Lemma returns_getsockopt o : o ≠ SO_RCVBUF → o ≠ SO_SNDBUF → returns (getsockopt o : M (Z * option error)) (λ r, r = f_get f o).
Proof. intros H1 H2. apply returns_ext. intros k. by apply steady_Getsockopt. Qed.
Lemma returns_env_true name : returns (env_true name : M bool) (λ b, b = switched_on f name).
Proof. intros w. unfold env_true, getenv. gosimpl. rewrite steady_Getenv. eauto. Qed.
Lemma returns_major : returns (kernelVersionMajor : M Z) (λ n, n = linux_major f).
Proof.
  intros w. unfold kernelVersionMajor, kernelVersion, uname, linux_major. gosimpl. rewrite steady_Uname.
  destruct (f_uname f); eauto.
Qed.

Lemma returns_GSO os : returns (IsGSOEnabled os : M bool) (λ b, b = gso_expected f os).
Proof.
  unfold IsGSOEnabled, gso_expected. destruct os; try (by apply returns_ret). unfold IsGSOEnabled_linux.
  run returns_major. intros ? ->. destruct (Z.ltb_spec (linux_major f) 5) as [H|H].
  { apply returns_ret. by rewrite (proj2 (Z.leb_gt _ _)). }
  rewrite (proj2 (Z.leb_le _ _)) by done. cbn [andb].
  run returns_env_true. intros ? ->. destruct (switched_on f _); [by apply returns_ret|].
  run returns_Control. intros ? ->.
  run returns_getsockopt. intros ? ->. by apply returns_ret.
Qed.

Lemma returns_ECN os : os = linux ∨ os = darwin ∨ os = freebsd → returns (IsECNEnabled os : M bool) (λ b, b = ecn_expected f os).
Proof.
  assert (Henv : returns (d ← IsECNDisabledUsingEnv_unix; mret (negb d) : M bool)
    (λ b, b = negb (switched_on f "QUIC_GO_DISABLE_ECN"))).
  { run returns_env_true. intros ? ->. by apply returns_ret. }
  unfold ecn_expected. intros [->|[->| ->]]; [|exact Henv..]. unfold IsECNEnabled, IsECNEnabled_linux.
  run returns_major. intros ? ->. case_match; [exact Henv|by apply returns_ret].
Qed.

(** ** newConn *)

(** An open UDP socket bound to [la], with peer [ra]. *)
Record udp_socket (c : NetConn K) (la : list Z) (ra : option Addr) : Prop := {
  us_syscall : ∃ g, nc_SyscallConn c = Some g ∧ ∀ k, (g k).1 = None;
  us_local : ∀ k, ∃ port zone, nc_LocalAddr c k = Some (UDPAddr la port zone);
  us_remote : ∀ k, match nc_RemoteAddr c with Some g => g k | None => None end = ra;
  us_oob : oob_capable c = true
}.

(** The connection [newConn] makes. *)
Record made (os : OS) (c : NetConn K) (ra : option Addr) (df : bool) (writeInterval : Z) (oc : oobConn K) : Prop := {
  md_conn : oc_conn oc = c;
  md_cap : oc_cap oc = NewConnCapabilities df (gso_expected f os) (ecn_expected f os);
  md_reader : ∃ w w' : World K, newBatchReader os w = (Ret (oc_reader oc), w');
  md_writer : match oc_writer oc with
              | BatchW bw => 0 < writeInterval ∧ bw_isConnected bw = bool_decide (ra ≠ None)
              | BasicW b => writeInterval ≤ 0 ∧ b = bool_decide (ra ≠ None)
              end
}.

Definition newConn_result os c la ra df wi (res : oobConn K + error) : Prop :=
  match newConn_error f (IP_IsUnspecified la) with
  | Some e => res = inr e
  | None => ∃ oc, res = inl oc ∧ made os c ra df wi oc
  end.

Lemma returns_made os c ra df wi :
  os = linux ∨ os = darwin ∨ os = freebsd →
  (∀ k, match nc_RemoteAddr c with Some g => g k | None => None end = ra) →
  returns (isConnected ← is_connected c;
         reader ← newBatchReader os;
         writer ← newWriter os wi isConnected;
         gso ← IsGSOEnabled os;
         ecn ← IsECNEnabled os;
         mret (inl (MkOob c reader writer (NewConnCapabilities df gso ecn))) : M (oobConn K + error))
    (λ res, ∃ oc, res = inl oc ∧ made os c ra df wi oc).
Proof.
  intros Hos Hr. run returns_connected. intros ? ->.
  run returns_reader. intros reader Hrd.
  eapply (returns_bind _ _ (λ wr, match wr with
              | BatchW bw => 0 < wi ∧ bw_isConnected bw = bool_decide (ra ≠ None)
              | BasicW b => wi ≤ 0 ∧ b = bool_decide (ra ≠ None) end)).
  { unfold newWriter. destruct (Z.ltb_spec 0 wi); [|by apply returns_ret].
    run returns_writer. intros bw [Hc _]. by apply returns_ret. }
  intros writer Hw. run returns_GSO. intros ? ->.
  run returns_ECN. intros ? ->. apply returns_ret. eexists. by split.
Qed.

Lemma returns_newConn os c la ra df wi :
  os = linux ∨ os = darwin ∨ os = freebsd → udp_socket c la ra →
  returns (newConn os c df wi : M (oobConn K + error)) (newConn_result os c la ra df wi).
Proof.
  intros Hos [(g & Hg & Hg0) Hl Hr _]. unfold newConn, newConn_result, newConn_error, both_fail. rewrite Hg.
  eapply returns_bind; [apply (returns_ext g (λ e, e = None)); exact Hg0|]. intros ? ->.
  run returns_getw. intros w _. destruct (Hl (w_k w)) as (port & zone & ->).
  run returns_Control. intros ? ->.
  run returns_setsockopt. intros ? ->.
  run returns_setsockopt. intros ? ->.
  eapply (returns_bind _ _ (λ pi, IP_IsUnspecified la = true → pi = (f_set f Opt_PKTINFO, f_set f Opt_RECVPKTINFO6))).
  { destruct (IP_IsUnspecified la); [|by apply returns_ret].
    run returns_setsockopt. intros ? ->.
    run returns_setsockopt. intros ? ->. by apply returns_ret. }
  intros pi Hpi. case_bool_decide as He; [by apply returns_ret|].
  run returns_families. intros _ _.
  destruct (IP_IsUnspecified la); cbn [andb].
  - rewrite (Hpi eq_refl). cbn [fst snd]. case_bool_decide; [by apply returns_ret|].
    run returns_families. intros _ _. by apply returns_made.
  - eapply returns_bind; [by apply (returns_ret _ (λ _, True))|]. intros _ _. by apply returns_made.
Qed.
(** ** WrapConn *)

Lemma returns_inspect o : returns (inspect o : M (Z * option error)) (λ _, True).
Proof.
  run returns_any. intros [e|] _; [by apply returns_ret|apply returns_any].
Qed.
Lemma returns_force o v : returns (force_set o v : M (option error)) (λ _, True).
Proof.
  run returns_any. intros [e|] _; [by apply returns_ret|apply returns_any].
Qed.
Lemma returns_report what size newSize : returns (report what size newSize : M (option error)) (λ _, True).
Proof.
  unfold report. repeat case_match; try (by apply returns_ret).
  run returns_Log. intros _ _. by apply returns_ret.
Qed.

(** Setting a buffer size ends with a report, whatever the socket does. *)
Lemma returns_setBuffer what set ins force (c : NetConn K) :
  returns ins (λ _, True) → (∀ v, returns (force v) (λ _, True)) →
  returns (setBuffer what set ins force c : M (option error)) (λ _, True).
Proof.
  intros Hi Hf. unfold setBuffer. destruct set as [set|]; [|by apply returns_ret].
  apply (returns_bind _ _ (λ _, True)).
  { destruct (nc_SyscallConn c); [|by apply returns_ret].
    run returns_any. intros e _. by apply returns_ret. }
  intros sc _. destruct sc; cbn [negb]; [|apply returns_any].
  eapply returns_bind; [exact Hi|]. intros [size [e|]] _; [by apply returns_ret|].
  case_match. { run returns_Log. intros _ _. by apply returns_ret. }
  run returns_any. intros _ _. eapply returns_bind; [exact Hi|]. intros [n1 e1] _.
  apply (returns_bind _ _ (λ _, True)).
  { case_match; [|by apply returns_ret]. run Hf. intros _ _. exact Hi. }
  intros [n2 [e|]] _; [by apply returns_ret|apply returns_report].
Qed.

Lemma returns_SetReceiveBuffer os (c : NetConn K) : returns (SetReceiveBuffer os c : M (option error)) (λ _, True).
Proof.
  apply returns_setBuffer; [destruct os; (apply returns_inspect || by apply returns_ret)|].
  intros v. destruct os; (apply returns_force || by apply returns_ret).
Qed.
Lemma returns_SetSendBuffer os (c : NetConn K) : returns (SetSendBuffer os c : M (option error)) (λ _, True).
Proof.
  apply returns_setBuffer; [destruct os; (apply returns_inspect || by apply returns_ret)|].
  intros v. destruct os; (apply returns_force || by apply returns_ret).
Qed.

Lemma returns_warning b err : returns (buffer_warning b err : M bool) (λ _, True).
Proof.
  unfold buffer_warning. repeat (case_match; try (by apply returns_ret)).
  run returns_env_true. intros d _.
  apply (returns_bind _ _ (λ _, True)); [|intros _ _; by apply returns_ret].
  destruct d; [by apply returns_ret|by apply returns_Log].
Qed.

Definition df_result (x : bool + error) : bool * option error :=
  match x with inl b => (b, None) | inr e => (false, Some e) end.

Lemma returns_setDF_both o4 o6 v :
  returns (setDF_both o4 o6 v : M (bool * option error))
    (λ r, r = df_result (if both_fail f o4 o6 then inr df_error else inl true)).
Proof.
  unfold setDF_both, both_fail. run returns_Control. intros ? ->.
  run returns_setsockopt. intros ? ->.
  run returns_setsockopt. intros ? ->.
  destruct (f_set f o4), (f_set f o6); case_bool_decide as H; try naive_solver; try (by apply returns_ret).
  all: run returns_Log; intros _ _; by apply returns_ret.
Qed.

Lemma returns_mac_version :
  returns (getMacOSVersion : M (Z * option error))
    (λ r, match mac_version f with inl v => r = (v, None) | inr e => r = (0, Some e) end).
Proof.
  intros w. unfold getMacOSVersion, uname, mac_version. gosimpl. rewrite steady_Uname.
  destruct (f_uname f) as [release|]; [|eauto]. destruct (index_byte 46 release) as [i|]; [|eauto].
  destruct (Atoi (take i release)); eauto.
Qed.

Lemma returns_darwin_control v :
  returns (setDF_darwin_control v : M (option error * bool))
    (λ r, match r.1 with Some e => (false, Some e) | None => (negb r.2, None) end = df_result (mac_df f v)).
Proof.
  unfold setDF_darwin_control, mac_df. run (returns_ext _ (λ x, x = f_sockname f)).
  { intros k. apply steady_Getsockname. }
  intros ? ->. destruct (f_sockname f) as [[| |t]|e]; try (by apply returns_ret).
  - run returns_setsockopt. intros ? ->. apply returns_ret. by destruct (f_set f _).
  - run returns_setsockopt. intros ? ->. destruct (v <? macOSVersion15); cbn [andb].
    + run returns_getsockopt. intros ? ->. destruct (f_get f Opt_V6ONLY) as [x [e|]]; apply returns_ret; [done|].
      by destruct (f_set f Opt_DONTFRAG6).
    + apply returns_ret. by destruct (f_set f Opt_DONTFRAG6).
Qed.

Lemma returns_setDF os : returns (setDF os : M (bool * option error)) (λ r, r = df_result (df_expected f os)).
Proof.
  destruct os; try (apply returns_setDF_both || by apply returns_ret).
  unfold setDF, setDF_darwin, df_expected. run returns_mac_version. intros r Hr.
  destruct (mac_version f) as [v|e]; subst r; [|by apply returns_ret]. rewrite bool_decide_false by auto. cbn [orb].
  case_match; [by apply returns_ret|]. run returns_Control. intros ? ->.
  run returns_darwin_control. intros [[e|] b] Hr; by apply returns_ret.
Qed.

Lemma returns_windows c ra df wi :
  (∀ k, match nc_RemoteAddr c with Some g => g k | None => None end = ra) →
  returns (newConn_windows c df wi : M (rawConn + error))
    (λ r, r = inl (RawBasic (MkBasic c (bool_decide (ra ≠ None)) df))).
Proof. intros Hr. run returns_connected. intros ? ->. by apply returns_ret. Qed.
Lemma returns_no_oob c ra df :
  (∀ k, match nc_RemoteAddr c with Some g => g k | None => None end = ra) →
  returns (newConn_no_oob c df : M (BasicConn K + error))
    (λ r, r = inl (MkBasic c (bool_decide (ra ≠ None)) df)).
Proof. intros Hr. run returns_connected. intros ? ->. by apply returns_ret. Qed.

(** The result of [WrapConn]. *)
Definition wrap_result (os : OS) (c : NetConn K) (la : list Z) (ra : option Addr) (wi : Z)
    (res : rawConn + error) : Prop :=
  match df_expected f os with
  | inr e => res = inr e
  | inl df =>
    match os with
    | windows | other_os => res = inl (RawBasic (MkBasic c (bool_decide (ra ≠ None)) df))
    | _ => match newConn_error f (IP_IsUnspecified la) with
           | Some e => res = inr e
           | None => ∃ oc, res = inl (RawOob oc) ∧ made os c ra df wi oc
           end
    end
  end.

Lemma returns_WrapConn os c la ra wi warned :
  udp_socket c la ra → returns (WrapConn os c wi warned : M ((rawConn + error) * bool)) (λ x, wrap_result os c la ra wi x.1).
Proof.
  intros U. unfold wrap_result.
  pose proof U as [(g & Hg & Hg0) Hl Hr Ho]. unfold WrapConn. rewrite Hg, Ho.
  run returns_SetReceiveBuffer. intros e1 _.
  run returns_warning. intros wd1 _.
  run returns_SetSendBuffer. intros e2 _.
  run returns_warning. intros wd2 _.
  apply (returns_bind _ _ (λ df, df = df_expected f os)).
  { eapply returns_bind; [apply (returns_ext g (λ e, e = None)), Hg0|]. intros ? ->.
    run returns_getw. intros w1 _. destruct (Hl (w_k w1)) as (port & zone & ->).
    run returns_setDF. intros ? ->.
    destruct (df_expected f os); by apply returns_ret. }
  intros ? ->. destruct (df_expected f os) as [df|e]; [|by apply returns_ret]. cbn [negb].
  destruct os.
  1-3: eapply returns_bind; [by apply (returns_newConn _ c la ra); auto|]; intros res Hres; apply returns_ret;
    unfold newConn_result in Hres; simpl; destruct (newConn_error f _); [by subst|];
    destruct Hres as (oc & -> & Hm); by exists oc.
  all: eapply returns_bind; [by (apply returns_windows || apply returns_no_oob)|]; intros ? ->; by apply returns_ret.
Qed.

(** C23: what [WrapConn] returns.  On a system whose answers do not change, for
    an open UDP socket, [WrapConn] returns.  The result is the error of
    setting DF (both families failed, or on macOS a query of the version, the
    address or the option); on Windows and the
    systems without control data, a [BasicConn] with the DF flag, connected
    when the socket has a peer; elsewhere the error of [newConn] (no family
    reports ECN, or, for a socket bound to the unspecified address, no family
    reports packet info), or an [oobConn] with a new reader, a batch writer
    exactly for a positive interval, and the capabilities: GSO on Linux from
    version 5 unless the environment disables it and when the socket knows
    [UDP_SEGMENT], ECN from version 5 on Linux unless the environment disables
    it.  Buffer sizes never make it fail. *)
Theorem WrapConn_outcome os c la ra wi warned (w : World K) :
  udp_socket c la ra →
  ∃ res warned' w', WrapConn os c wi warned w = (Ret (res, warned'), w') ∧ wrap_result os c la ra wi res.
Proof. intros U. destruct (returns_WrapConn os c la ra wi warned U w) as ([res wd] & w' & ? & ?). by exists res, wd, w'. Qed.

End steady.
