(* ===== verification/RawScenarios.v ===== *)
(** * Executions of the raw package

    A kernel, a pool and a socket that compute, on which the theorems about the
    raw connections are instantiated. *)

From S2P Require Import Prelude GoLib Types Interfaces Ownership GoWorld Cmsg LinuxABI Platform.
From S2P Require Import SockBuf BatchReader BatchReaderInv ReaderLife ReaderMutex BatchWriter BatchWriterProps OobConn.
From S2P Require Import OobProps WrapProps.

(** The state outside: pools, what [ReadBatch] will return, what was sent, the
    sizes of the socket's buffers, what was received, whether the socket was closed. *)
Record RK : Type := MkRK {
  rk_pool : stack_pool;
  rk_in : list (list datagram * option error);
  rk_out : list datagram;
  rk_rcv : Z; rk_snd : Z;
  rk_rx : list datagram;
  rk_shut : bool
}.

Definition set_rk_pool (p : stack_pool) (k : RK) : RK := MkRK p (rk_in k) (rk_out k) (rk_rcv k) (rk_snd k) (rk_rx k) (rk_shut k).
Definition set_rk_out (o : list datagram) (k : RK) : RK := MkRK (rk_pool k) (rk_in k) o (rk_rcv k) (rk_snd k) (rk_rx k) (rk_shut k).

#[export] Instance rk_pool_ops : BufferPool Slice RK := {|
  pool_Get p t k :=
    let '(b, t, p) := pool_Get (BufferPool := stack_pool_ops nil_slice) p t (rk_pool k) in
    (b, t, set_rk_pool p k);
  pool_Put p b t k :=
    let '(t, p) := pool_Put (BufferPool := stack_pool_ops nil_slice) p b t (rk_pool k) in
    (t, set_rk_pool p k)
|}.

#[export] Instance rk_pool_laws : BufferPoolLaws Slice RK s_len.
Proof.
  pose (L := stack_pool_laws nil_slice s_len eq_refl).
  refine {| pool_idle p k := @pool_idle _ _ _ _ L p (rk_pool k) |};
    cbn [pool_Get pool_Put rk_pool_ops].
  all: intros; repeat case_match; simplify_eq; cbn [rk_pool set_rk_pool].
  - by eapply (@pool_Get_empty _ _ _ _ L).
  - by eapply (@pool_Get_idle _ _ _ _ L).
  - by eapply (@pool_Get_other _ _ _ _ L).
  - by eapply (@pool_Put_idle _ _ _ _ L).
  - by eapply (@pool_Put_other _ _ _ _ L).
  - by eapply (@pool_Put_table _ _ _ _ L).
Defined.

(** Every datagram has a sender. *)
Definition peer : Addr := UDPAddr [10; 0; 0; 1] 9 "".
Definition from_peer (d : datagram) : datagram := (d.1, Some (default peer d.2)).

#[export] Instance rk_reader : SysBatchReader RK := {|
  ReadBatch n k :=
    match rk_in k with
    | [] => (([], Some (ErrText "i/o timeout")), k)
    | (ds, e) :: rest =>
      let ds := from_peer <$> take n ds in
      ((ds, match ds, e with [], None => Some (ErrText "i/o timeout") | _, _ => e end),
       MkRK (rk_pool k) rest (rk_out k) (rk_rcv k) (rk_snd k) (rk_rx k ++ ds) (rk_shut k))
    end;
  sbr_Close k := (None, k)
|}.

#[export] Instance rk_writer : SysBatchWriter RK := {|
  WriteBatch ms k := ((length ms, None), set_rk_out (rk_out k ++ ms) k);
  sbw_Close k := (None, k)
|}.

#[export] Instance rk_send_laws : SendLaws RK.
Proof.
  refine {| sent := rk_out |}; cbn [pool_Get pool_Put rk_pool_ops WriteBatch sbw_Close rk_writer].
  - intros ms k n err k' [= <- _ <-]. split; [done|]. simpl. by rewrite take_ge.
  - by intros k err k' [= _ <-].
  - intros p t k b t' k' E. repeat case_match; by simplify_eq.
  - intros p b t k t' k' E. repeat case_match; by simplify_eq.
Defined.

(** Linux 6.8: the plain options are limited, the forced ones are not. *)
Definition rk_limit : Z := 425984.

#[export] Instance rk_kernel : Kernel RK := {|
  Control k := (None, k);
  SetsockoptInt o v k :=
    (None, match o with
           | SO_RCVBUF => MkRK (rk_pool k) (rk_in k) (rk_out k) (Z.min v rk_limit) (rk_snd k) (rk_rx k) (rk_shut k)
           | SO_SNDBUF => MkRK (rk_pool k) (rk_in k) (rk_out k) (rk_rcv k) (Z.min v rk_limit) (rk_rx k) (rk_shut k)
           | SO_RCVBUFFORCE => MkRK (rk_pool k) (rk_in k) (rk_out k) v (rk_snd k) (rk_rx k) (rk_shut k)
           | SO_SNDBUFFORCE => MkRK (rk_pool k) (rk_in k) (rk_out k) (rk_rcv k) v (rk_rx k) (rk_shut k)
           | _ => k
           end);
  GetsockoptInt o k :=
    ((match o with SO_RCVBUF => rk_rcv k | SO_SNDBUF => rk_snd k | _ => 0 end, None), k);
  Getsockname k := (inl SockaddrInet4, k);
  Uname k := inl [54; 46; 56; 46; 48; 45; 52; 53; 0];
  Getenv _ _ := ""
|}.

Definition set_rk_shut (k : RK) : RK :=
  MkRK (rk_pool k) (rk_in k) (rk_out k) (rk_rcv k) (rk_snd k) (rk_rx k) true.

(** A UDP socket, with a remote address or without. *)
Definition udp_conn (remote : option Addr) : NetConn RK :=
  MkNetConn (λ b k, ((b, 0%nat, Some peer, None), k))
    (λ b a k, ((length b, None), set_rk_out (rk_out k ++ [(b, [], a)]) k))
    (λ k, (None, set_rk_shut k)) (λ _, Some (UDPAddr [0; 0; 0; 0] 53 "")) (λ _ k, (None, k))
    (Some (λ _, remote))
    (Some (λ b k, ((b, 0%nat, None), k), λ b k, ((length b, None), set_rk_out (rk_out k ++ [(b, [], remote)]) k)))
    (Some (SetsockoptInt SO_RCVBUF)) (Some (SetsockoptInt SO_SNDBUF)) (Some (λ k, (None, k)))
    (Some (λ b oob k, ((b, oob, 0%nat, 0%nat, 0, Some peer, None), k)))
    (Some (λ b oob a k, ((length b, length oob, None), set_rk_out (rk_out k ++ [(b, oob, a)]) k))).

Definition rk0 (inp : list (list datagram * option error)) : RK := MkRK (MkStack [] []) inp [] 212992 212992 [] false.
Definition w0 (inp : list (list datagram * option error)) : World RK :=
  MkWorld (MkLog true [] []) (MkHeap ∅ ∅ ∅) (rk0 inp).

(** ** Platform and buffer sizes *)

Lemma kernelVersion_parses_witness :
  kernelVersion (w0 []) = (Ret (6, 8), w0 []).
Proof.
  apply (kernelVersion_parses (w0 []) [54] [56] 46 46 [48; 45; 52; 53; 0]); reflexivity.
Defined.

Lemma udp_conn_works : socket_works linux (udp_conn None) rk_rcv rk_snd.
Proof. constructor; try done. eexists. split; [reflexivity|done]. Qed.

Lemma setBuffers_report_truth_witness :
  ∃ r w', SetReceiveBuffer linux (udp_conn None) (w0 []) = (Ret r, w') ∧ r = None ∧
    DesiredReceiveBufferSize ≤ rk_rcv (w_k w').
Proof.
  destruct (setBuffers_report_truth linux (udp_conn None) rk_rcv rk_snd _ _ (w0 []) udp_conn_works eq_refl eq_refl)
    as [(r & w' & E & H & _) _].
  assert (r = None) as Hr by (vm_compute in E; by injection E as <- _).
  exists r, w'. split; [exact E|]. split; [exact Hr|]. by apply H.
Defined.

Lemma other_os_always_fails_witness :
  ∃ w', SetReceiveBuffer other_os (udp_conn None) (w0 []) =
    (Ret (Some (ErrText "failed to increase receive buffer size (wanted: 7168 kiB, got 0 kiB)")), w').
Proof. by apply (other_os_always_fails (udp_conn None) (SetsockoptInt SO_RCVBUF) (λ k, (None, k))). Defined.

(** ** The batch reader *)

(** An ECT(0) mark as the kernel reports it. *)
Definition mark_msg : Cmsg := MkCmsg 0 1 [2].
Definition dg1 : datagram := ([1; 2; 3], encode [mark_msg], Some peer).
Definition dg2 : datagram := ([4; 5], encode [pktinfo_msg; mark_msg], Some peer).
Definition dg3 : datagram := ([6], [], Some peer).
Definition inp : list (list datagram * option error) := [([dg1; dg2], None); ([dg3], None)].

Definition rd0 : batchReader := MkReader 0 0 [] [] [] false false.
Definition out {A} (d : A) (o : outcome A * World RK) : A := match o.1 with Ret a => a | _ => d end.

Definition buf4 : list Z := replicate 4 0.
Definition ctl : list Z := replicate 128 0.

(** A new reader over a kernel with input [i], and after its first [Read]. *)
Section states.
Variable i : list (list datagram * option error).
Definition w1 : World RK := (newBatchReader linux (w0 i)).2.
Definition rd1 : batchReader := out rd0 (newBatchReader linux (w0 i)).
Definition after1 : outcome (ReadResult * batchReader) * World RK := batchReader_Read linux buf4 ctl rd1 w1.
Definition w2 : World RK := after1.2.
Definition rd2 : batchReader := (out (MkRead [] [] 0 0 0 None None, rd0) after1).2.

Lemma w0_owned : owned [] (h_buf (w_heap (w0 i))) (w_k (w0 i)).
Proof.
  constructor; simpl; [constructor|by intros b []%not_elem_of_nil| |].
  - intros [] b Hb; by apply not_elem_of_empty in Hb.
  - intros b Hb. by apply not_elem_of_empty in Hb.
Qed.

Lemma rd1_ok : reader_inv linux (w_heap w1) rd1 ∧ r_closed rd1 = false ∧ pending (w_heap w1) rd1 = [].
Proof.
  destruct (newBatchReader_ok linux (w0 i) w0_owned) as (r & w' & E & I & C & P).
  unfold w1, rd1. rewrite E. exact (conj I (conj C P)).
Qed.

(** After a first batch [d :: ds] the others are buffered. *)
Lemma rd2_ok d ds k :
  ReadBatch 8 (w_k w1) = (d :: ds, None, k) → (length (d :: ds) ≤ 8)%nat →
  reader_inv linux (w_heap w2) rd2 ∧ r_closed rd2 = false ∧ pending (w_heap w2) rd2 = clip <$> ds ∧ w_k w2 = k.
Proof.
  intros Hb Hl. destruct rd1_ok as (I & C & P).
  destruct (read_new_batch_ok linux buf4 ctl rd1 w1 d ds k I C P Hb Hl) as (r' & w' & E & I' & C' & K' & P').
  unfold w2, rd2, after1. rewrite E. exact (conj I' (conj C' (conj P' K'))).
Qed.
End states.

Lemma rd1_new i : newBatchReader linux (w0 i) = (Ret (rd1 i), w1 i).
Proof.
  destruct (newBatchReader_ok linux (w0 i) (w0_owned i)) as (r & w' & E & _).
  unfold rd1, w1. rewrite E. reflexivity.
Qed.

Lemma w1_in : rk_in (w_k (w1 inp)) = inp.
Proof. vm_compute. reflexivity. Qed.

Lemma rk_batches k : rk_in k = inp → batches linux k [[dg1; dg2]; [dg3]].
Proof.
  intros H. econstructor; [simpl; rewrite H; reflexivity|vm_compute; lia|].
  econstructor; [reflexivity|vm_compute; lia|constructor].
Qed.

Lemma reads_fifo_witness :
  ∃ r' w', reads linux [(buf4, ctl); (buf4, ctl); (buf4, ctl)] (rd1 inp) (w1 inp) =
    (Ret (gives [(buf4, ctl); (buf4, ctl); (buf4, ctl)] (clip <$> [dg1; dg2; dg3]), r'), w').
Proof.
  destruct (rd1_ok inp) as (I & C & P).
  destruct (reads_fifo linux [(buf4, ctl); (buf4, ctl); (buf4, ctl)] (rd1 inp) (w1 inp) [[dg1; dg2]; [dg3]] I C
    (rk_batches _ w1_in)) as (r' & w' & E & _); [rewrite P; simpl; lia|].
  exists r', w'. rewrite P in E. exact E.
Defined.

(** One datagram, then a timeout. *)
Definition inpE : list (list datagram * option error) := [([dg1], None); ([], Some (ErrText "i/o timeout"))].

Lemma rdE_ok :
  reader_inv linux (w_heap (w2 inpE)) (rd2 inpE) ∧ r_closed (rd2 inpE) = false ∧
  pending (w_heap (w2 inpE)) (rd2 inpE) = [] ∧
  w_k (w2 inpE) = MkRK (rk_pool (w_k (w1 inpE))) [([], Some (ErrText "i/o timeout"))] [] 212992 212992 [dg1] false.
Proof.
  apply (rd2_ok inpE dg1 []); [|simpl; lia].
  assert (Hin : rk_in (w_k (w1 inpE)) = inpE) by (vm_compute; reflexivity).
  cbn [ReadBatch rk_reader]. rewrite Hin. vm_compute. reflexivity.
Qed.

Lemma rk_fails n p rest out rcv snd got sh e :
  ReadBatch n (MkRK p (([], Some e) :: rest) out rcv snd got sh) = (([], Some e), MkRK p rest out rcv snd got sh).
Proof. simpl. rewrite take_nil. simpl. by rewrite app_nil_r. Qed.

Lemma rdE_linked i : linked_at (w_heap (w2 inpE)) (rd2 inpE) i.
Proof.
  destruct rdE_ok as (I & _). destruct (ri_link _ _ _ I) as [H|H]; [|apply H].
  exfalso. vm_compute in H. discriminate H.
Qed.

Lemma read_error_replays_witness :
  ∃ m ms r1 w1 r2, r_messages (rd2 inpE) = m :: ms ∧
    batchReader_Read linux buf4 ctl (rd2 inpE) (w2 inpE) =
      (Ret (MkRead buf4 ctl 0 0 0 None (Some (ErrText "i/o timeout")), r1), w1) ∧
    batchReader_Read linux buf4 ctl r1 w1 = (Ret (give buf4 ctl (view (w_heap (w2 inpE)) m), r2), w1).
Proof.
  destruct rdE_ok as (I & C & P & Hk).
  destruct (r_messages (rd2 inpE)) as [|m ms] eqn:Hm.
  { pose proof (co_msgs _ _ _ (ri_core _ _ _ I)) as Hl. rewrite Hm in Hl. discriminate Hl. }
  destruct (read_error_replays linux buf4 ctl buf4 ctl (rd2 inpE) (w2 inpE) (ErrText "i/o timeout")
    (MkRK (rk_pool (w_k (w1 inpE))) [] [] 212992 212992 [dg1] false) m ms I rdE_linked C P) as (r1 & w1' & r2 & E1 & _ & E2).
  { rewrite Hk. apply rk_fails. }
  { exact Hm. }
  exists m, ms, r1, w1', r2. exact (conj eq_refl (conj E1 E2)).
Defined.

(** ** Writers *)

Lemma first_write_panics_witness :
  ∃ r w', newBatchWriter linux false (w0 []) = (Ret r, w') ∧
    batchWriter_Write linux 7 [1; 2] [] (Some peer) r w' = (Panic index_panic, w').
Proof.
  pose (x := newBatchWriter linux false (w0 [])).
  assert (∃ r, x.1 = Ret r) as [r Hr] by (vm_compute; eexists; reflexivity).
  exists r, x.2. assert (E : newBatchWriter linux false (w0 []) = (Ret r, x.2))
    by (rewrite <- Hr; apply surjective_pairing).
  split; [exact E|]. exact (first_write_panics linux false _ _ r 7 [1; 2] [] (Some peer) E).
Defined.

Definition wops : list wop := [OpTick 100 10; OpWrite 101 [1; 2] [] (Some peer); OpTick 120 10; OpClose 130].

Lemma batchWriter_never_sends_witness :
  sent (w_k ((newBatchWriter linux false ≫= wrun linux wops) (w0 [])).2) = sent (w_k (w0 [])) ∧
  sent (w_k (w0 [])) = [].
Proof. split; [exact (batchWriter_never_sends linux false wops (w0 []))|reflexivity]. Defined.

(** ** Raw connections *)

Definition caps7 : ConnCapabilities := NewConnCapabilities true true true.

Lemma connected_write_drops_control_witness :
  let c := MkOob (udp_conn (Some peer)) rd0 (BasicW true) caps7 in
  Oob_WritePacket linux 0 [1; 2] (encode [pktinfo_msg]) 1200 ECNCE None c (w0 []) =
  Oob_WritePacket linux 0 [1; 2] [] 0 ECNUnsupported None c (w0 []).
Proof.
  intros c. apply (connected_write_drops_control 0 [1; 2] (encode [pktinfo_msg]) 1200 ECNCE c (w0 []) _ _ eq_refl);
    intros; reflexivity.
Defined.

Lemma ReadPacket_returns_mark_witness :
  let c := MkOob (udp_conn None) (rd2 inp) (BasicW false) caps7 in
  ∃ c', Oob_ReadPacket linux buf4 ctl c (w2 inp) =
    (Ret (MkRead (go_copy buf4 [4; 5]).1 (go_copy ctl (encode [pktinfo_msg; mark_msg])).1 2
            (length (encode [pktinfo_msg; mark_msg])) ECT0 (Some peer) None, c'), w2 inp).
Proof.
  intros c.
  assert (Hb : ReadBatch 8 (w_k (w1 inp)) =
    ([dg1; dg2], None, MkRK (rk_pool (w_k (w1 inp))) [([dg3], None)] (rk_out (w_k (w1 inp))) 212992 212992 [dg1; dg2] false)).
  { pose proof w1_in as Hin. cbn [ReadBatch rk_reader]. rewrite Hin. vm_compute. reflexivity. }
  destruct (rd2_ok inp _ _ _ Hb ltac:(simpl; lia)) as (I & C & P & _).
  assert (Hclip : clip <$> [dg2] = [([4; 5], encode ([pktinfo_msg] ++ [mark_msg]), Some peer)])
    by (vm_compute; reflexivity).
  rewrite Hclip in P.
  destruct (ReadPacket_returns_mark linux buf4 ctl c (w2 inp) [4; 5] [pktinfo_msg] mark_msg ECT0 (Some peer) [] 2 [] I C P)
    as (c' & E & _).
  - apply Forall_singleton. repeat split; simpl; lia.
  - repeat split; simpl; lia.
  - reflexivity.
  - reflexivity.
  - reflexivity.
  - vm_compute. lia.
  - exists c'. exact E.
Defined.

(** A connected connection without control data. *)
Definition plain_conn : NetConn RK :=
  MkNetConn (nc_ReadFrom (udp_conn (Some peer))) (nc_WriteTo (udp_conn (Some peer))) (λ k, (None, k))
    (λ _, Some (UDPAddr [0; 0; 0; 0] 53 "")) (λ _ k, (None, k)) (Some (λ _, Some peer))
    (nc_connected (udp_conn (Some peer))) (Some (SetsockoptInt SO_RCVBUF)) (Some (SetsockoptInt SO_SNDBUF))
    (Some (λ k, (None, k))) None (nc_WriteMsgUDP (udp_conn (Some peer))).

Definition is_wrapped {A} (o : outcome ((A + error) * bool)) : bool :=
  match o with Ret (inl _, _) => true | _ => false end.

Lemma wrap_basic_never_connected_witness :
  ∃ rc warned' w', WrapConn linux plain_conn 0 false (w0 []) = (Ret (inl rc, warned'), w') ∧
    ∃ df, rc = RawBasic (MkBasic plain_conn false df).
Proof.
  assert (H : is_wrapped (WrapConn linux plain_conn 0 false (w0 [])).1 = true) by (vm_compute; reflexivity).
  destruct (WrapConn linux plain_conn 0 false (w0 [])) as [[[[rc|e] wd]| |] w'] eqn:E' in H |- *;
    try discriminate H.
  exists rc, wd, w'. split; [exact eq_refl|].
  exact (wrap_basic_never_connected linux plain_conn 0 false (w0 []) rc wd w' eq_refl E').
Defined.

(** A mark on a connection with GSO and without ECN, with a segment size. *)
Lemma misuse_exits_witness :
  let c := MkOob (udp_conn None) (rd1 inp) (BasicW false) (NewConnCapabilities true true false) in
  ∃ l, Oob_WritePacket linux 0 [1; 2] [] 1200 ECT0 (Some peer) c (w1 inp) = (Exit 1, set_log l (w1 inp)).
Proof.
  intros c.
  apply (proj1 (misuse_exits linux 0 [1; 2] [] 1200 ECT0 (Some peer) c (MkBasic (udp_conn None) false false) (w1 inp))).
  right. split; [discriminate|reflexivity].
Defined.

Definition returned {A} (o : outcome A) : bool := match o with Ret _ => true | _ => false end.

Lemma ReadPacket_typed_witness :
  ∃ r rc' w', Raw_ReadPacket linux buf4 ctl (RawOob (MkOob (udp_conn None) (rd1 inp) (BasicW false) caps7)) (w1 inp)
      = (Ret (r, rc'), w') ∧ read_typed buf4 ctl r.
Proof.
  pose (rc := RawOob (MkOob (udp_conn None) (rd1 inp) (BasicW false) caps7)).
  assert (H : returned (Raw_ReadPacket linux buf4 ctl rc (w1 inp)).1 = true) by (vm_compute; reflexivity).
  destruct (Raw_ReadPacket linux buf4 ctl rc (w1 inp)) as [[[r rc']| |] w'] eqn:E in H; try discriminate H.
  exists r, rc', w'. split; [exact E|].
  exact (ReadPacket_typed linux buf4 ctl rc (w1 inp) r rc' w' ltac:(intros bc Hbc; discriminate Hbc) E).
Defined.

#[export] Instance rk_apart : SocketApart RK.
Proof.
  constructor; cbn [ReadBatch sbr_Close rk_reader].
  - intros n k r k' E. destruct (rk_in k) as [|[ds e] rest]; injection E as <- <-; simpl; [split; [lia|done]|].
    split; [rewrite length_fmap, length_take; lia|done].
  - by intros k e k' [= _ <-].
Qed.


(** ** WrapConn *)

Definition rk_facts : facts := MkFacts (λ _, None) (λ _, (0, None)) (inl SockaddrInet4) (λ _, "") (Uname (rk0 [])).
#[export] Instance rk_steady : SteadyKernel RK rk_facts.
Proof. constructor; try done. by intros [] k H1 H2. Qed.

Lemma udp_conn_socket : udp_socket (udp_conn None) [0; 0; 0; 0] None.
Proof. constructor; try done; [|eauto]. eexists. by split. Qed.

Lemma WrapConn_outcome_witness :
  ∃ oc warned' w', WrapConn linux (udp_conn None) 0 false (w0 []) = (Ret (inl (RawOob oc), warned'), w') ∧
    oc_cap oc = NewConnCapabilities true true true ∧ oc_writer oc = BasicW false.
Proof.
  destruct (WrapConn_outcome rk_facts linux (udp_conn None) [0; 0; 0; 0] None 0 false (w0 []) udp_conn_socket)
    as (res & wd & w' & E & oc & Hres & [_ Hcap _ Hw]).
  exists oc, wd, w'. rewrite Hres in E. split; [exact E|]. split; [exact Hcap|].
  destruct (oc_writer oc) as [bw|b]; [destruct Hw as [Hlt _]; discriminate Hlt|].
  destruct Hw as [_ Hb]. rewrite Hb. reflexivity.
Defined.

(** ** [Read] and [Close] at the same time *)

(** [ReadBatch] blocks while nothing has arrived on an open socket. *)
#[export] Instance rk_blocking : BlockingSocket RK := {|
  ready k := rk_shut k || match rk_in k with [] => false | _ => true end
|}.

#[export] Instance rk_shut_laws : ShutLaws RK (udp_conn None).
Proof.
  refine {| shut := rk_shut |};
    cbn [ready rk_blocking pool_Get pool_Put rk_pool_ops ReadBatch sbr_Close rk_reader WriteBatch sbw_Close rk_writer
         nc_Close udp_conn].
  - by intros k ->.
  - by intros k e k' [= _ <-].
  - intros n k r k' E. destruct (rk_in k) as [|[ds e] rest]; by injection E as _ <-.
  - by intros k e k' [= _ <-].
  - by intros ms k r k' [= _ <-].
  - by intros k e k' [= _ <-].
  - intros p t k b t' k' E. repeat case_match; by simplify_eq.
  - intros p b t k t' k' E. repeat case_match; by simplify_eq.
Defined.

#[export] Instance rk_wapart : WriterApart RK.
Proof.
  constructor; cbn [WriteBatch sbw_Close rk_writer].
  - by intros ms k n e k' [= <- _ <-].
  - by intros k e k' [= _ <-].
Qed.

Lemma udp_close_apart k e k' : nc_Close (udp_conn None) k = (e, k') → ∀ p, pool_idle p k' = pool_idle p k.
Proof. by intros [= _ <-]. Qed.

Fixpoint msched (ls : list mlabel) (s : MState (K := RK)) : option (MState (K := RK)) :=
  match ls with
  | [] => Some s
  | l :: ls' => match mstep linux (udp_conn None) l s with MNext s' => msched ls' s' | _ => None end
  end.

Lemma msched_reach s0 ls s s' :
  mreach linux (udp_conn None) s0 s → msched ls s = Some s' → mreach linux (udp_conn None) s0 s'.
Proof.
  revert s. induction ls as [|l ls IH]; intros s R E; simpl in E; [by simplify_eq|].
  destruct (mstep linux (udp_conn None) l s) as [|s1|] eqn:E1; try done. apply (IH s1); [|done]. by econstructor.
Qed.

(** A batch writer beside the reader. *)
Definition wx0 : oobWriter := out (BasicW false) (newWriter linux 1000 false (w1 [])).
Definition wx1 : World RK := (newWriter linux 1000 false (w1 [])).2.

Lemma wx0_new : newWriter linux 1000 false (w1 []) = (Ret wx0, wx1).
Proof.
  assert (H : returned (newWriter linux 1000 false (w1 [])).1 = true) by (vm_compute; reflexivity).
  unfold wx0, wx1. destruct (newWriter linux 1000 false (w1 [])) as [[x| |] w]; [reflexivity|discriminate H..].
Qed.

(** One goroutine waits in [ReadBatch] on an empty socket, another has closed
    the socket and waits for the mutex. *)
Definition race0 : MState (K := RK) := m_init (rd1 []) wx0 wx1 1 1.
Definition race_ls : list mlabel :=
  [ML_callRead 0 buf4 ctl; ML_reader 0; ML_reader 0; ML_callClose 0; ML_closer 0 5; ML_closer 0 5].
Definition race : MState (K := RK) := default race0 (msched race_ls race0).
(** The reader finds the socket closed; both calls end. *)
Definition race_end : MState (K := RK) :=
  default race0 (msched (race_ls ++ [ML_reader 0; ML_reader 0; ML_closer 0 5; ML_closer 0 5; ML_closer 0 5; ML_closer 0 5;
    ML_closer 0 5]) race0).

Lemma race_reach : mreach linux (udp_conn None) race0 race.
Proof.
  assert (H : is_Some (msched race_ls race0)) by (vm_compute; eexists; reflexivity).
  destruct H as [s E]. unfold race. rewrite E. eapply msched_reach; [constructor|exact E].
Qed.

Lemma race_end_reach : mreach linux (udp_conn None) race0 race_end.
Proof.
  unfold race_end. match goal with |- context [msched ?ls _] =>
    assert (H : is_Some (msched ls race0)) by (vm_compute; eexists; reflexivity) end.
  destruct H as [s E]. rewrite E. eapply msched_reach; [constructor|exact E].
Qed.

Lemma race_pcs : m_readers race = [RD_batch buf4 ctl] ∧ m_closers race = [CL_lock].
Proof. split; vm_compute; reflexivity. Qed.
Lemma race_end_pcs : m_closers race_end = [CL_done].
Proof. vm_compute. reflexivity. Qed.


Lemma close_ends_with_blocked_read_witness :
  (∀ n s', nsteps (mtick linux (udp_conn None)) n race s' → (n ≤ mleft race)%nat) ∧
  (∀ s', rtc (mtick linux (udp_conn None)) race s' → nf (mtick linux (udp_conn None)) s' → at_rest s').
Proof.
  destruct race_pcs as [_ Hc].
  apply (close_ends_with_blocked_read linux (udp_conn None) udp_close_apart [] (w0 []) (rd1 []) (w1 []) 1000 false wx0 wx1
    1 1 race 0 CL_lock (w0_owned []) (rd1_new []) wx0_new race_reach); [rewrite Hc; reflexivity|reflexivity].
Defined.
