(* ===== verification/SupConn.v ===== *)
(** * The super-connection: [src/super.go], and [Close]/[Read] of [src/conn.go]

    A [supConn] is shared by several goroutines: the read loop, the goroutine
    that closes the socket, the callers of [Accept], the caller that runs
    [Close] (once), and for every accepted [Conn] the goroutine that uses and
    closes it.  The state below holds the shared variables and the program
    counter of each of them; [step] executes one action of the goroutine named
    by the label: one operation on a lock, channel, atomic variable or queue,
    or one atomic access of a wait group ([connWG.Done] is two when it has to
    release a sleeper: the addition, then the reset and the release).
    Executions are interleavings of such steps.

    Three calls are larger than one operation and still one step.  [Conn.Read]
    pops the queue and, in the same step, copies the packet and puts its two
    buffers back: after the [Pop] the buffers belong to the call alone, so the
    copies and the [Put]s commute with the steps of the others up to the
    [Put]s themselves.  [ReadPacket] and [Close] of the raw connection are one
    step each; their own interleavings are the subject of [ReaderMutex.v].
    [readWG.Done] is one step, see [wg_Done].

    A call that blocks is [Blocked]; a Go panic is [Crash]. *)

From S2P Require Import Prelude GoLib Types Interfaces.

(** ** defs.go *)

Definition receiveMTU : nat := Z.to_nat 8192.
Definition sendMTU : nat := 1500.
Definition oobSize : nat := 128.
Definition defaultListenBacklog : nat := 128.
Definition receiveBacklog : nat := 1024.

#[global] Opaque receiveMTU oobSize receiveBacklog.

(** The two buffers are pointers to pooled byte buffers. *)
Record receivedPacket : Type := MkPkt { rp_data : nat; rp_oob : nat; rp_ecn : ECN }.

#[export] Instance receivedPacket_eq_dec : EqDecision receivedPacket.
Proof. solve_decision. Defined.

(** ** Control states *)

(** Holder of [connLock]. *)
Inductive Owner := OwnRead | OwnClose | OwnConn (c : nat).
#[export] Instance Owner_eq_dec : EqDecision Owner.
Proof. solve_decision. Defined.

(** [readLoop], with [dispatchMsg] and [getSubConn] inlined. *)
Inductive ReadPC :=
| R_get                                              (* take buffers from the pools *)
| R_read (buf oob : nat)                             (* in pConn.ReadPacket *)
| R_lock (pk : receivedPacket) (a : option Addr)     (* getSubConn: connLock.Lock *)
| R_lookup (pk : receivedPacket) (a : option Addr)   (* l.conns[...] *)
| R_accepting (pk : receivedPacket) (a : option Addr)(* l.accepting.Load *)
| R_new (pk : receivedPacket) (a : option Addr)      (* acceptFilter, newSubConn *)
| R_send (pk : receivedPacket) (c : nat)             (* acceptCh <- conn, or default *)
| R_insert (pk : receivedPacket) (c : nat)           (* l.conns[...] = conn *)
| R_unlock (pk : receivedPacket) (r : option nat)    (* deferred connLock.Unlock *)
| R_push (pk : receivedPacket) (c : nat)             (* conn.queue.Push *)
| R_closeDone                                        (* deferred close(readDoneCh) *)
| R_wgDone                                           (* deferred readWG.Done *)
| R_end.

(** The goroutine started by [wrapConn] to close the socket. *)
Inductive CloserPC := G_wait | G_sleep | G_close | G_done | G_end.

(** [supConn.Close], the function run by [doneOnce]. *)
Inductive ClosePC :=
| C_idle | C_store | C_closeDone | C_lock | C_drain | C_unlock (n : nat)
| C_wgDone (n : nat) | C_wgRelease (n w : nat) | C_wait | C_sleep | C_loadErr | C_returned (err : option error).

(** [Conn.Close], the function run by its [doneOnce]. *)
Inductive ConnPC :=
| K_wgDone | K_wgRelease (w : nat) | K_closeDone | K_lock | K_delete | K_unlock (n : nat) | K_check (n : nat)
| K_wait | K_sleep | K_loadErr | K_queueClose (err : option error).

(** Where a [*Conn] is: with the read loop, in the accept queue, received by
    an [Accept] that has not yet counted it, in the hands of the user, being
    closed, closed; or discarded, by [supConn.Close] or because the read loop
    could not queue it. *)
Inductive Phase :=
| PhNew | PhQueued | PhTaken | PhOpen | PhClosing (pc : ConnPC)
| PhClosed (err : option error) | PhDropped | PhOrphan.

#[export] Instance ConnPC_eq_dec : EqDecision ConnPC.
Proof. solve_decision. Defined.
#[export] Instance Phase_eq_dec : EqDecision Phase.
Proof. solve_decision. Defined.
#[export] Instance ClosePC_eq_dec : EqDecision ClosePC.
Proof. solve_decision. Defined.
#[export] Instance CloserPC_eq_dec : EqDecision CloserPC.
Proof. solve_decision. Defined.
#[export] Instance ReadPC_eq_dec : EqDecision ReadPC.
Proof. solve_decision. Defined.

(** Arguments of [wrapConn], and [pConn.RemoteAddr()]. *)
Record config : Type := MkConfig {
  cfg_isListener : bool;
  cfg_acceptFilter : option (list Z → bool);
  cfg_backlog : nat;
  cfg_caps : ConnCapabilities;
  cfg_remote : option Addr
}.

(** [supConn.rAddrString]. *)
Definition rAddrString (cfg : config) (a : option Addr) : string :=
  match a with
  | Some a => Addr_String a
  | None =>
    match cfg_remote cfg with
    | Some a => Addr_String a
    | None => "<nil>"
    end
  end.

(** [addr.String()] on an interface value: nil has no method to call. *)
Definition addr_text (a : option Addr) : outcome string :=
  match a with
  | Some a => Ret (Addr_String a)
  | None => Panic "invalid memory address or nil pointer dereference"
  end.

(** What a step lets the caller see. *)
Inductive obs :=
| ObsNone
| ObsAccept (r : nat + option error)
| ObsClosed (err : option error)
| ObsRead (r : ReadResult)
| ObsDeadline (err : option error).

(** What [ReadPacket] returns to the read loop. *)
Inductive ReadEvent :=
| EvPacket (data oob : list Z) (ecn : ECN) (a : option Addr)
| EvError (err : error).

Inductive label :=
| L_read (ev : ReadEvent)           (* the read loop; [ev] is used in ReadPacket only *)
| L_closer (res : option error)     (* the closing goroutine; [res] is what pConn.Close returns *)
| L_callClose                       (* a call of supConn.Close *)
| L_close                           (* the running supConn.Close *)
| L_callAccept                      (* a call of Accept *)
| L_acceptConn                      (* an Accept receives from acceptCh *)
| L_acceptAdd (c : nat)             (* it counts the connection and returns it *)
| L_acceptReadDone | L_acceptDeadline | L_acceptDone
| L_setDeadline (passed : bool)     (* the listener's deadline is moved, or passes *)
| L_connClose (c : nat)             (* a call of Conn.Close *)
| L_conn (c : nat)                  (* the running Conn.Close of c *)
| L_connRead (c : nat) (now : Z) (p oob : list Z)
| L_connDeadline (c : nat) (t : Z). (* a call of Conn.SetReadDeadline *)

#[export] Instance ReadEvent_eq_dec : EqDecision ReadEvent.
Proof. solve_decision. Defined.
#[export] Instance label_eq_dec : EqDecision label.
Proof. solve_decision. Defined.

Section super.
Context {Q P : Type}.

Record SubConn : Type := MkConn {
  c_rAddr : option Addr;
  c_queue : Q;
  c_doneCh : bool;
  c_ecnDefault : ECN;
  c_phase : Phase
}.

Definition set_queue (q : Q) (o : SubConn) : SubConn :=
  MkConn (c_rAddr o) q (c_doneCh o) (c_ecnDefault o) (c_phase o).
Definition set_done (o : SubConn) : SubConn :=
  MkConn (c_rAddr o) (c_queue o) true (c_ecnDefault o) (c_phase o).
Definition set_phase (ph : Phase) (o : SubConn) : SubConn :=
  MkConn (c_rAddr o) (c_queue o) (c_doneCh o) (c_ecnDefault o) ph.

Record Sup : Type := MkSup {
  l_accepting : bool;
  l_acceptCh : list nat;
  l_acceptors : nat;
  l_doneCh : bool;
  l_lock : option Owner;
  l_conns : gmap string nat;
  l_objs : list SubConn;
  l_connWG : WaitGroup;
  l_readWG : WaitGroup;
  l_errClose : option error;
  l_readDoneCh : bool;
  l_errRead : option error;
  l_deadline : bool;
  l_bufs : gmap nat (list Z);
  l_pool : P;
  l_pcRead : ReadPC;
  l_pcCloser : CloserPC;
  l_pcClose : ClosePC
}.

Definition set_accepting (v : bool) (s : Sup) : Sup :=
  MkSup v (l_acceptCh s) (l_acceptors s) (l_doneCh s) (l_lock s) (l_conns s) (l_objs s) (l_connWG s) (l_readWG s) (l_errClose s) (l_readDoneCh s) (l_errRead s) (l_deadline s) (l_bufs s) (l_pool s) (l_pcRead s) (l_pcCloser s) (l_pcClose s).
Definition set_acceptCh (v : list nat) (s : Sup) : Sup :=
  MkSup (l_accepting s) v (l_acceptors s) (l_doneCh s) (l_lock s) (l_conns s) (l_objs s) (l_connWG s) (l_readWG s) (l_errClose s) (l_readDoneCh s) (l_errRead s) (l_deadline s) (l_bufs s) (l_pool s) (l_pcRead s) (l_pcCloser s) (l_pcClose s).
Definition set_acceptors (v : nat) (s : Sup) : Sup :=
  MkSup (l_accepting s) (l_acceptCh s) v (l_doneCh s) (l_lock s) (l_conns s) (l_objs s) (l_connWG s) (l_readWG s) (l_errClose s) (l_readDoneCh s) (l_errRead s) (l_deadline s) (l_bufs s) (l_pool s) (l_pcRead s) (l_pcCloser s) (l_pcClose s).
Definition set_doneCh (v : bool) (s : Sup) : Sup :=
  MkSup (l_accepting s) (l_acceptCh s) (l_acceptors s) v (l_lock s) (l_conns s) (l_objs s) (l_connWG s) (l_readWG s) (l_errClose s) (l_readDoneCh s) (l_errRead s) (l_deadline s) (l_bufs s) (l_pool s) (l_pcRead s) (l_pcCloser s) (l_pcClose s).
Definition set_lock (v : option Owner) (s : Sup) : Sup :=
  MkSup (l_accepting s) (l_acceptCh s) (l_acceptors s) (l_doneCh s) v (l_conns s) (l_objs s) (l_connWG s) (l_readWG s) (l_errClose s) (l_readDoneCh s) (l_errRead s) (l_deadline s) (l_bufs s) (l_pool s) (l_pcRead s) (l_pcCloser s) (l_pcClose s).
Definition set_conns (v : gmap string nat) (s : Sup) : Sup :=
  MkSup (l_accepting s) (l_acceptCh s) (l_acceptors s) (l_doneCh s) (l_lock s) v (l_objs s) (l_connWG s) (l_readWG s) (l_errClose s) (l_readDoneCh s) (l_errRead s) (l_deadline s) (l_bufs s) (l_pool s) (l_pcRead s) (l_pcCloser s) (l_pcClose s).
Definition set_objs (v : list SubConn) (s : Sup) : Sup :=
  MkSup (l_accepting s) (l_acceptCh s) (l_acceptors s) (l_doneCh s) (l_lock s) (l_conns s) v (l_connWG s) (l_readWG s) (l_errClose s) (l_readDoneCh s) (l_errRead s) (l_deadline s) (l_bufs s) (l_pool s) (l_pcRead s) (l_pcCloser s) (l_pcClose s).
Definition set_connWG (v : WaitGroup) (s : Sup) : Sup :=
  MkSup (l_accepting s) (l_acceptCh s) (l_acceptors s) (l_doneCh s) (l_lock s) (l_conns s) (l_objs s) v (l_readWG s) (l_errClose s) (l_readDoneCh s) (l_errRead s) (l_deadline s) (l_bufs s) (l_pool s) (l_pcRead s) (l_pcCloser s) (l_pcClose s).
Definition set_readWG (v : WaitGroup) (s : Sup) : Sup :=
  MkSup (l_accepting s) (l_acceptCh s) (l_acceptors s) (l_doneCh s) (l_lock s) (l_conns s) (l_objs s) (l_connWG s) v (l_errClose s) (l_readDoneCh s) (l_errRead s) (l_deadline s) (l_bufs s) (l_pool s) (l_pcRead s) (l_pcCloser s) (l_pcClose s).
Definition set_errClose (v : option error) (s : Sup) : Sup :=
  MkSup (l_accepting s) (l_acceptCh s) (l_acceptors s) (l_doneCh s) (l_lock s) (l_conns s) (l_objs s) (l_connWG s) (l_readWG s) v (l_readDoneCh s) (l_errRead s) (l_deadline s) (l_bufs s) (l_pool s) (l_pcRead s) (l_pcCloser s) (l_pcClose s).
Definition set_readDoneCh (v : bool) (s : Sup) : Sup :=
  MkSup (l_accepting s) (l_acceptCh s) (l_acceptors s) (l_doneCh s) (l_lock s) (l_conns s) (l_objs s) (l_connWG s) (l_readWG s) (l_errClose s) v (l_errRead s) (l_deadline s) (l_bufs s) (l_pool s) (l_pcRead s) (l_pcCloser s) (l_pcClose s).
Definition set_errRead (v : option error) (s : Sup) : Sup :=
  MkSup (l_accepting s) (l_acceptCh s) (l_acceptors s) (l_doneCh s) (l_lock s) (l_conns s) (l_objs s) (l_connWG s) (l_readWG s) (l_errClose s) (l_readDoneCh s) v (l_deadline s) (l_bufs s) (l_pool s) (l_pcRead s) (l_pcCloser s) (l_pcClose s).
Definition set_deadline (v : bool) (s : Sup) : Sup :=
  MkSup (l_accepting s) (l_acceptCh s) (l_acceptors s) (l_doneCh s) (l_lock s) (l_conns s) (l_objs s) (l_connWG s) (l_readWG s) (l_errClose s) (l_readDoneCh s) (l_errRead s) v (l_bufs s) (l_pool s) (l_pcRead s) (l_pcCloser s) (l_pcClose s).
Definition set_bufs (v : gmap nat (list Z)) (s : Sup) : Sup :=
  MkSup (l_accepting s) (l_acceptCh s) (l_acceptors s) (l_doneCh s) (l_lock s) (l_conns s) (l_objs s) (l_connWG s) (l_readWG s) (l_errClose s) (l_readDoneCh s) (l_errRead s) (l_deadline s) v (l_pool s) (l_pcRead s) (l_pcCloser s) (l_pcClose s).
Definition set_pool (v : P) (s : Sup) : Sup :=
  MkSup (l_accepting s) (l_acceptCh s) (l_acceptors s) (l_doneCh s) (l_lock s) (l_conns s) (l_objs s) (l_connWG s) (l_readWG s) (l_errClose s) (l_readDoneCh s) (l_errRead s) (l_deadline s) (l_bufs s) v (l_pcRead s) (l_pcCloser s) (l_pcClose s).
Definition set_pcRead (v : ReadPC) (s : Sup) : Sup :=
  MkSup (l_accepting s) (l_acceptCh s) (l_acceptors s) (l_doneCh s) (l_lock s) (l_conns s) (l_objs s) (l_connWG s) (l_readWG s) (l_errClose s) (l_readDoneCh s) (l_errRead s) (l_deadline s) (l_bufs s) (l_pool s) v (l_pcCloser s) (l_pcClose s).
Definition set_pcCloser (v : CloserPC) (s : Sup) : Sup :=
  MkSup (l_accepting s) (l_acceptCh s) (l_acceptors s) (l_doneCh s) (l_lock s) (l_conns s) (l_objs s) (l_connWG s) (l_readWG s) (l_errClose s) (l_readDoneCh s) (l_errRead s) (l_deadline s) (l_bufs s) (l_pool s) (l_pcRead s) v (l_pcClose s).
Definition set_pcClose (v : ClosePC) (s : Sup) : Sup :=
  MkSup (l_accepting s) (l_acceptCh s) (l_acceptors s) (l_doneCh s) (l_lock s) (l_conns s) (l_objs s) (l_connWG s) (l_readWG s) (l_errClose s) (l_readDoneCh s) (l_errRead s) (l_deadline s) (l_bufs s) (l_pool s) (l_pcRead s) (l_pcCloser s) v.

Inductive sres :=
| Blocked
| Next (s : Sup) (o : obs)
| Crash (why : string).

Context `{!RingQueue Q receivedPacket} `{!BufferPool (list Z) P}.
Variable cfg : config.

(** ** wrapConn *)

Definition wrapConn (pool : P) (bufs : gmap nat (list Z)) : Sup :=
  MkSup true [] 0 false None ∅ [] (MkWG 1 0 0) (MkWG 2 0 0) None false None false
    bufs pool R_get G_wait C_idle.

(** ** Helpers *)

Definition upd_obj (c : nat) (f : SubConn → SubConn) (s : Sup) : Sup :=
  set_objs (alter f c (l_objs s)) s.

(** [newSubConn]. *)
Definition newSubConn (a : option Addr) (ph : Phase) : SubConn :=
  MkConn a (rq_new receiveBacklog) false
    (if cap_ECN (cfg_caps cfg) then ECNNon else ECNUnsupported) ph.

Definition pool_get (p : PoolId) (size : nat) (s : Sup) : nat * Sup :=
  let '(b, t, k) := pool_Get p (l_bufs s) (l_pool s) in
  let t := if (length (default [] (t !! b)) <? size)%nat
           then <[b := replicate size 0]> t else t in
  (b, set_bufs t (set_pool k s)).

Definition pool_put (p : PoolId) (b : nat) (s : Sup) : Sup :=
  let '(t, k) := pool_Put p b (l_bufs s) (l_pool s) in set_bufs t (set_pool k s).

Definition putBuffers (data oob : option nat) (s : Sup) : Sup :=
  let s := match data with Some b => pool_put bufferPool b s | None => s end in
  match oob with Some b => pool_put oobBufferPool b s | None => s end.

Definition onQueueClose (pk : receivedPacket) (s : Sup) : Sup :=
  putBuffers (Some (rp_data pk)) (Some (rp_oob pk)) s.

(** The contents of a byte buffer. *)
Definition buf_bytes (s : Sup) (b : nat) : list Z := default [] (l_bufs s !! b).

(** ** readLoop, dispatchMsg, getSubConn *)

Definition step_read (ev : ReadEvent) (s : Sup) : sres :=
  match l_pcRead s with
  | R_get =>
    let '(buf, s) := pool_get bufferPool receiveMTU s in
    let '(oob, s) := pool_get oobBufferPool oobSize s in
    Next (set_pcRead (R_read buf oob) s) ObsNone
  | R_read buf oob =>
    match ev with
    | EvPacket data odata ecn a =>
      if (length data <=? length (buf_bytes s buf))%nat
         && (length odata <=? length (buf_bytes s oob))%nat then
        Next (set_pcRead (R_lock (MkPkt buf oob ecn) a)
                (set_bufs (<[oob := odata]> (<[buf := data]> (l_bufs s))) s)) ObsNone
      else Blocked
    | EvError e => Next (set_pcRead R_closeDone (set_errRead (Some e) s)) ObsNone
    end
  | R_lock pk a =>
    match l_lock s with
    | None => Next (set_pcRead (R_lookup pk a) (set_lock (Some OwnRead) s)) ObsNone
    | Some _ => Blocked
    end
  | R_lookup pk a =>
    match l_conns s !! rAddrString cfg a with
    | Some c => Next (set_pcRead (R_unlock pk (Some c)) s) ObsNone
    | None => Next (set_pcRead (R_accepting pk a) s) ObsNone
    end
  | R_accepting pk a =>
    if l_accepting s then Next (set_pcRead (R_new pk a) s) ObsNone
    else Next (set_pcRead (R_unlock pk None) s) ObsNone
  | R_new pk a =>
    if match cfg_acceptFilter cfg with
       | Some f => f (buf_bytes s (rp_data pk))
       | None => true
       end
    then
      let c := length (l_objs s) in
      if cfg_isListener cfg then
        Next (set_pcRead (R_send pk c)
                (set_objs (l_objs s ++ [newSubConn a PhNew]) s)) ObsNone
      else
        Next (set_pcRead (R_unlock pk (Some c))
                (set_objs (l_objs s ++ [newSubConn a PhOrphan]) s)) ObsNone
    else Next (set_pcRead (R_unlock pk None) s) ObsNone
  | R_send pk c =>
    if (length (l_acceptCh s) <? cfg_backlog cfg)%nat then
      Next (set_pcRead (R_insert pk c)
              (set_acceptCh (l_acceptCh s ++ [c]) (upd_obj c (set_phase PhQueued) s))) ObsNone
    else if (cfg_backlog cfg =? 0)%nat && (0 <? l_acceptors s)%nat then
      (* unbuffered channel: hand over to a waiting Accept *)
      Next (set_pcRead (R_insert pk c)
              (set_acceptors (l_acceptors s - 1) (upd_obj c (set_phase PhTaken) s))) ObsNone
    else Next (set_pcRead (R_unlock pk None) (upd_obj c (set_phase PhOrphan) s)) ObsNone
  | R_insert pk c =>
    match l_objs s !! c with
    | Some o =>
      Next (set_pcRead (R_unlock pk (Some c))
              (set_conns (<[rAddrString cfg (c_rAddr o) := c]> (l_conns s)) s)) ObsNone
    | None => Blocked
    end
  | R_unlock pk r =>
    let s := set_lock None s in
    match r with
    | Some c => Next (set_pcRead (R_push pk c) s) ObsNone
    | None => Next (set_pcRead R_get s) ObsNone
    end
  | R_push pk c =>
    match l_objs s !! c with
    | Some o =>
      let '(_, q) := rq_Push pk (c_queue o) in
      Next (set_pcRead R_get (upd_obj c (set_queue q) s)) ObsNone
    | None => Blocked
    end
  | R_closeDone =>
    if l_readDoneCh s then Crash "close of closed channel"
    else Next (set_pcRead R_wgDone (set_readDoneCh true s)) ObsNone
  | R_wgDone =>
    match wg_Done (l_readWG s) with
    | Ret g => Next (set_pcRead R_end (set_readWG g s)) ObsNone
    | Panic w => Crash w
    | Exit _ => Blocked
    end
  | R_end => Blocked
  end.

(** ** The goroutine that closes the socket *)

Definition step_closer (res : option error) (s : Sup) : sres :=
  match l_pcCloser s with
  | G_wait =>
    let '(pass, g) := wg_Wait (l_connWG s) in
    Next (set_pcCloser (if pass then G_close else G_sleep) (set_connWG g s)) ObsNone
  | G_sleep =>
    match wg_Wake (l_connWG s) with
    | None => Blocked
    | Some (Ret g) => Next (set_pcCloser G_close (set_connWG g s)) ObsNone
    | Some (Panic w) => Crash w
    | Some (Exit _) => Blocked
    end
  | G_close =>
    Next (set_pcCloser G_done
            (match res with Some e => set_errClose (Some e) s | None => s end)) ObsNone
  | G_done =>
    match wg_Done (l_readWG s) with
    | Ret g => Next (set_pcCloser G_end (set_readWG g s)) ObsNone
    | Panic w => Crash w
    | Exit _ => Blocked
    end
  | G_end => Blocked
  end.

(** ** supConn.Close *)

(** [doneOnce.Do]: the first call runs the function; later ones wait for it
    and return nil. *)
Definition call_close (s : Sup) : sres :=
  match l_pcClose s with
  | C_idle => Next (set_pcClose C_store s) ObsNone
  | C_returned _ => Next s (ObsClosed None)
  | _ => Blocked
  end.

(** After [connWG.Done]: wait for the goroutines, or return. *)
Definition close_counted (n : nat) (s : Sup) : sres :=
  if (n =? 0)%nat then Next (set_pcClose C_wait s) ObsNone
  else Next (set_pcClose (C_returned None) s) (ObsClosed None).

Definition step_close (s : Sup) : sres :=
  match l_pcClose s with
  | C_idle => Blocked
  | C_store => Next (set_pcClose C_closeDone (set_accepting false s)) ObsNone
  | C_closeDone =>
    if l_doneCh s then Crash "close of closed channel"
    else Next (set_pcClose C_lock (set_doneCh true s)) ObsNone
  | C_lock =>
    match l_lock s with
    | None => Next (set_pcClose C_drain (set_lock (Some OwnClose) s)) ObsNone
    | Some _ => Blocked
    end
  | C_drain =>
    match l_acceptCh s with
    | c :: rest =>
      match l_objs s !! c with
      | Some o =>
        if c_doneCh o then Crash "close of closed channel"
        else
          match addr_text (c_rAddr o) with
          | Ret key =>
            Next (set_acceptCh rest
                    (set_conns (delete key (l_conns s))
                       (upd_obj c (λ o, set_phase PhDropped (set_done o)) s))) ObsNone
          | Panic w => Crash w
          | Exit _ => Blocked
          end
      | None => Blocked
      end
    | [] => Next (set_pcClose (C_unlock (size (l_conns s))) s) ObsNone
    end
  | C_unlock n => Next (set_pcClose (C_wgDone n) (set_lock None s)) ObsNone
  | C_wgDone n =>
    match wg_Add (-1) (l_connWG s) with
    | Ret (O, g) => close_counted n (set_connWG g s)
    | Ret (w, g) => Next (set_pcClose (C_wgRelease n w) (set_connWG g s)) ObsNone
    | Panic w => Crash w
    | Exit _ => Blocked
    end
  | C_wgRelease n w =>
    match wg_Release w (l_connWG s) with
    | Ret g => close_counted n (set_connWG g s)
    | Panic w => Crash w
    | Exit _ => Blocked
    end
  | C_wait =>
    let '(pass, g) := wg_Wait (l_readWG s) in
    Next (set_pcClose (if pass then C_loadErr else C_sleep) (set_readWG g s)) ObsNone
  | C_sleep =>
    match wg_Wake (l_readWG s) with
    | None => Blocked
    | Some (Ret g) => Next (set_pcClose C_loadErr (set_readWG g s)) ObsNone
    | Some (Panic w) => Crash w
    | Some (Exit _) => Blocked
    end
  | C_loadErr => Next (set_pcClose (C_returned (l_errClose s)) s) (ObsClosed (l_errClose s))
  | C_returned _ => Blocked
  end.

(** ** Accept *)

Definition call_accept (s : Sup) : sres :=
  if cfg_isListener cfg then Next (set_acceptors (S (l_acceptors s)) s) ObsNone
  else Next s (ObsAccept (inr (Some errors_ErrUnsupported))).

Definition accept_conn (s : Sup) : sres :=
  match l_acceptors s, l_acceptCh s with
  | S n, c :: rest =>
    Next (set_acceptors n (set_acceptCh rest (upd_obj c (set_phase PhTaken) s))) ObsNone
  | _, _ => Blocked
  end.

Definition accept_add (c : nat) (s : Sup) : sres :=
  match l_objs s !! c with
  | Some o =>
    if decide (c_phase o = PhTaken) then
      match wg_Add 1 (l_connWG s) with
      | Ret (_, g) => Next (set_connWG g (upd_obj c (set_phase PhOpen) s)) (ObsAccept (inl c))
      | Panic w => Crash w
      | Exit _ => Blocked
      end
    else Blocked
  | None => Blocked
  end.

Definition accept_err (ready : bool) (err : option error) (s : Sup) : sres :=
  match l_acceptors s with
  | S n => if ready then Next (set_acceptors n s) (ObsAccept (inr err)) else Blocked
  | O => Blocked
  end.

(** ** Conn.Close *)

Definition call_connClose (c : nat) (s : Sup) : sres :=
  match l_objs s !! c with
  | Some o =>
    match c_phase o with
    | PhOpen => Next (upd_obj c (set_phase (PhClosing K_wgDone)) s) ObsNone
    | PhClosed _ => Next s (ObsClosed None)
    | _ => Blocked
    end
  | None => Blocked
  end.

Definition goto (c : nat) (pc : ConnPC) (s : Sup) : sres :=
  Next (upd_obj c (set_phase (PhClosing pc)) s) ObsNone.

Definition step_conn_pc (c : nat) (o : SubConn) (pc : ConnPC) (s : Sup) : sres :=
  match pc with
  | K_wgDone =>
    match wg_Add (-1) (l_connWG s) with
    | Ret (O, g) => goto c K_closeDone (set_connWG g s)
    | Ret (w, g) => goto c (K_wgRelease w) (set_connWG g s)
    | Panic w => Crash w
    | Exit _ => Blocked
    end
  | K_wgRelease w =>
    match wg_Release w (l_connWG s) with
    | Ret g => goto c K_closeDone (set_connWG g s)
    | Panic w => Crash w
    | Exit _ => Blocked
    end
  | K_closeDone =>
    if c_doneCh o then Crash "close of closed channel"
    else Next (upd_obj c (λ o, set_phase (PhClosing K_lock) (set_done o)) s) ObsNone
  | K_lock =>
    match l_lock s with
    | None => goto c K_delete (set_lock (Some (OwnConn c)) s)
    | Some _ => Blocked
    end
  | K_delete =>
    match addr_text (c_rAddr o) with
    | Ret key =>
      let m := delete key (l_conns s) in
      goto c (K_unlock (size m)) (set_conns m s)
    | Panic w => Crash w
    | Exit _ => Blocked
    end
  | K_unlock n => goto c (K_check n) (set_lock None s)
  | K_check n =>
    if (n =? 0)%nat && negb (l_accepting s) then goto c K_wait s
    else goto c (K_queueClose None) s
  | K_wait =>
    let '(pass, g) := wg_Wait (l_readWG s) in
    goto c (if pass then K_loadErr else K_sleep) (set_readWG g s)
  | K_sleep =>
    match wg_Wake (l_readWG s) with
    | None => Blocked
    | Some (Ret g) => goto c K_loadErr (set_readWG g s)
    | Some (Panic w) => Crash w
    | Some (Exit _) => Blocked
    end
  | K_loadErr => goto c (K_queueClose (l_errClose s)) s
  | K_queueClose err =>
    let '(items, errBuf, q) := rq_Close (c_queue o) in
    let err := match err, errBuf with None, Some e => Some e | _, _ => err end in
    Next (foldl (λ s pk, onQueueClose pk s)
            (upd_obj c (λ o, set_phase (PhClosed err) (set_queue q o)) s) items)
         (ObsClosed err)
  end.

Definition step_conn (c : nat) (s : Sup) : sres :=
  match l_objs s !! c with
  | Some o =>
    match c_phase o with
    | PhClosing pc => step_conn_pc c o pc s
    | _ => Blocked
    end
  | None => Blocked
  end.

(** ** Conn.Read *)

(** The user holds the connection: [Accept] has returned it. *)
Definition user_held (ph : Phase) : bool :=
  match ph with PhOpen | PhClosing _ | PhClosed _ => true | _ => false end.

Definition Conn_Read (c : nat) (now : Z) (p oob : list Z) (s : Sup) : sres :=
  match l_objs s !! c with
  | Some o =>
    if user_held (c_phase o) then
      match rq_Pop now (c_queue o) with
      | None => Blocked
      | Some (inr err, q) =>
        Next (upd_obj c (set_queue q) s)
          (ObsRead (MkRead p oob 0 0 (c_ecnDefault o) None
                      (Some (if c_doneCh o then io_EOF else err))))
      | Some (inl pk, q) =>
        let '(p', n) := go_copy p (buf_bytes s (rp_data pk)) in
        let '(oob', oobN) := go_copy oob (buf_bytes s (rp_oob pk)) in
        Next (pool_put oobBufferPool (rp_oob pk)
                (pool_put bufferPool (rp_data pk) (upd_obj c (set_queue q) s)))
          (ObsRead (MkRead p' oob' n oobN (rp_ecn pk) None None))
      end
    else Blocked
  | None => Blocked
  end.

(** ** Conn.SetReadDeadline *)

Definition Conn_deadline (c : nat) (t : Z) (s : Sup) : sres :=
  match l_objs s !! c with
  | Some o =>
    if user_held (c_phase o) then
      let '(err, q) := rq_SetPopDeadline t (c_queue o) in
      Next (upd_obj c (set_queue q) s) (ObsDeadline err)
    else Blocked
  | None => Blocked
  end.

(** ** The interleaving *)

Definition step (l : label) (s : Sup) : sres :=
  match l with
  | L_read ev => step_read ev s
  | L_closer res => step_closer res s
  | L_callClose => call_close s
  | L_close => step_close s
  | L_callAccept => call_accept s
  | L_acceptConn => accept_conn s
  | L_acceptAdd c => accept_add c s
  | L_acceptReadDone => accept_err (l_readDoneCh s) (l_errRead s) s
  | L_acceptDeadline => accept_err (l_deadline s) (Some context_DeadlineExceeded) s
  | L_acceptDone => accept_err (l_doneCh s) (Some ErrClosedSuperConn) s
  | L_setDeadline b => Next (set_deadline b s) ObsNone
  | L_connClose c => call_connClose c s
  | L_conn c => step_conn c s
  | L_connRead c now p oob => Conn_Read c now p oob s
  | L_connDeadline c t => Conn_deadline c t s
  end.

(** Running a schedule; stops at the first step that blocks or crashes. *)
Fixpoint run (ls : list label) (s : Sup) : sres :=
  match ls with
  | [] => Next s ObsNone
  | l :: ls' =>
    match step l s with
    | Next s' o => match ls' with [] => Next s' o | _ => run ls' s' end
    | r => r
    end
  end.

End super.

Arguments SubConn Q : clear implicits.
Arguments Sup Q P : clear implicits.
Arguments sres Q P : clear implicits.
