(* ===== verification/SupConnInv.v ===== *)
(** * Invariants of the super-connection

    Every interleaving keeps the lock, the accept queue, the table of
    sub-connections and the two wait groups consistent with the control
    states of the goroutines.  The invariant is one record of named
    conjuncts; each is preserved by every step. *)

From S2P Require Import Prelude GoLib Types Interfaces SupConn.

(** ** Classes of control states *)

Definition crit_read (pc : ReadPC) : bool :=
  match pc with
  | R_lookup _ _ | R_accepting _ _ | R_new _ _ | R_send _ _ | R_insert _ _ | R_unlock _ _ => true
  | _ => false
  end.

Definition crit_close (pc : ClosePC) : bool :=
  match pc with C_drain | C_unlock _ => true | _ => false end.

Definition crit_conn (ph : Phase) : bool :=
  match ph with PhClosing K_delete | PhClosing (K_unlock _) => true | _ => false end.

(** Sub-connections that belong in the table. *)
Definition in_table (ph : Phase) : bool :=
  match ph with
  | PhQueued | PhTaken | PhOpen => true
  | PhClosing (K_wgDone | K_wgRelease _ | K_closeDone | K_lock | K_delete) => true
  | _ => false
  end.

(** Sub-connections that hold a unit of [connWG]. *)
Definition counted (ph : Phase) : bool :=
  match ph with PhOpen | PhClosing K_wgDone => true | _ => false end.

(** Sub-connections whose [doneCh] is closed. *)
Definition ch_closed (ph : Phase) : bool :=
  match ph with
  | PhClosing (K_wgDone | K_wgRelease _ | K_closeDone) => false
  | PhClosing _ | PhClosed _ | PhDropped => true
  | _ => false
  end.

Definition asleep (ph : Phase) : bool :=
  match ph with PhClosing K_sleep => true | _ => false end.

(** Progress of [supConn.Close]. *)
Definition past_store (pc : ClosePC) : bool :=
  match pc with C_idle | C_store => false | _ => true end.
Definition past_closeDone (pc : ClosePC) : bool :=
  match pc with C_idle | C_store | C_closeDone => false | _ => true end.
Definition past_lock (pc : ClosePC) : bool :=
  match pc with C_idle | C_store | C_closeDone | C_lock => false | _ => true end.
Definition past_drain (pc : ClosePC) : bool :=
  match pc with
  | C_idle | C_store | C_closeDone | C_lock | C_drain => false
  | _ => true
  end.
Definition past_wgDone (pc : ClosePC) : bool :=
  match pc with
  | C_wgRelease _ _ | C_wait | C_sleep | C_loadErr | C_returned _ => true
  | _ => false
  end.

(** The read loop has admitted a new remote and not yet released the lock. *)
Definition admitting (pc : ReadPC) : bool :=
  match pc with R_new _ _ | R_send _ _ | R_insert _ _ => true | _ => false end.

Definition read_done (pc : ReadPC) : bool :=
  match pc with R_wgDone | R_end => true | _ => false end.

(** Units of [readWG]: the read loop and the closing goroutine, until their
    [Done]; and the sleeping [Close]. *)
Definition read_live (pc : ReadPC) : bool := match pc with R_end => false | _ => true end.
Definition closer_live (pc : CloserPC) : bool := match pc with G_end => false | _ => true end.
Definition close_asleep (pc : ClosePC) : bool := match pc with C_sleep => true | _ => false end.

(** A packet that arrives carries the address of its sender. *)
Definition label_ok (l : label) : Prop :=
  match l with L_read (EvPacket _ _ _ None) => False | _ => True end.

(** The remote address the read loop carries, before it has a connection. *)
Definition pc_addr (pc : ReadPC) : option (option Addr) :=
  match pc with
  | R_lock _ a | R_lookup _ a | R_accepting _ a | R_new _ a => Some a
  | _ => None
  end.

(** The connection the read loop holds. *)
Definition pc_conn (pc : ReadPC) : option nat :=
  match pc with
  | R_send _ c | R_insert _ c | R_push _ c => Some c
  | R_unlock _ r => r
  | _ => None
  end.

Definition inserting (pc : ReadPC) : option nat :=
  match pc with R_insert _ c => Some c | _ => None end.
Definition sending (pc : ReadPC) : option nat :=
  match pc with R_send _ c => Some c | _ => None end.

(** Inside a [connWG.Done] that has brought the counter to zero and has yet to
    release the closing goroutine. *)
Definition close_releasing (pc : ClosePC) : bool :=
  match pc with C_wgRelease _ _ => true | _ => false end.
Definition releasing (ph : Phase) : bool :=
  match ph with PhClosing (K_wgRelease _) => true | _ => false end.

(** [connWG] as seen from its only sleeper, with [r] releases under way. *)
Definition wg_shape (pc : CloserPC) (g : WaitGroup) (r : nat) : Prop :=
  match pc with
  | G_sleep => (wg_w g = 1%nat ∧ wg_sema g = 0%nat
                ∧ (r = 0%nat ∧ 0 < wg_v g ∨ r = 1%nat ∧ wg_v g = 0))
               ∨ (wg_w g = 0%nat ∧ wg_sema g = 1%nat ∧ r = 0%nat)
  | _ => wg_w g = 0%nat ∧ wg_sema g = 0%nat ∧ r = 0%nat
  end.

Section inv.
Context {Q P : Type} `{!RingQueue Q receivedPacket} `{!BufferPool (list Z) P}.
Variable cfg : config.
Implicit Types (s : Sup Q P) (o : SubConn Q) (c : nat).

Definition key o : string := rAddrString cfg (c_rAddr o).

(** At these points of the read loop no connection has the packet's remote. *)
Definition free_at s (pc : ReadPC) : Prop :=
  match pc with
  | R_accepting _ a | R_new _ a => l_conns s !! rAddrString cfg a = None
  | R_send _ c => ∃ o, l_objs s !! c = Some o ∧ c_phase o = PhNew ∧ l_conns s !! key o = None
  | R_insert _ c => ∃ o, l_objs s !! c = Some o ∧ in_table (c_phase o) = true
                         ∧ l_conns s !! key o = None
  | _ => True
  end.

(** Facts about one connection object. *)
Record obj_inv s c o : Prop := {
  oi_done : c_doneCh o = ch_closed (c_phase o);
  oi_lock : crit_conn (c_phase o) = true → l_lock s = Some (OwnConn c);
  oi_chan : c_phase o = PhQueued → c ∈ l_acceptCh s;
  oi_table : in_table (c_phase o) = true →
             l_conns s !! key o = Some c ∨ inserting (l_pcRead s) = Some c;
  oi_new : c_phase o = PhNew → sending (l_pcRead s) = Some c;
  oi_release : ∀ w, c_phase o = PhClosing (K_wgRelease w) → w = 1%nat
}.

(** Releases of [connWG] under way. *)
Definition releasers s : nat :=
  (b2n (close_releasing (l_pcClose s)) + countb (λ o, releasing (c_phase o)) (l_objs s))%nat.

Record inv s : Prop := {
  i_obj : ∀ c o, l_objs s !! c = Some o → obj_inv s c o;
  i_lock_read : crit_read (l_pcRead s) = true ↔ l_lock s = Some OwnRead;
  i_lock_close : crit_close (l_pcClose s) = true ↔ l_lock s = Some OwnClose;
  i_lock_conn : ∀ c, l_lock s = Some (OwnConn c) →
                ∃ o, l_objs s !! c = Some o ∧ crit_conn (c_phase o) = true;
  i_chan_nodup : NoDup (l_acceptCh s);
  i_chan_phase : ∀ c, c ∈ l_acceptCh s → ∃ o, l_objs s !! c = Some o ∧ c_phase o = PhQueued;
  i_chan_len : (length (l_acceptCh s) ≤ cfg_backlog cfg)%nat;
  i_table : ∀ k c, l_conns s !! k = Some c →
            ∃ o, l_objs s !! c = Some o ∧ in_table (c_phase o) = true ∧ key o = k;
  i_wg : wg_v (l_connWG s) =
         Z.of_nat (b2n (negb (past_wgDone (l_pcClose s)))
                   + countb (λ o, counted (c_phase o)) (l_objs s));
  i_wg_w : wg_shape (l_pcCloser s) (l_connWG s) (releasers s);
  i_release : ∀ n w, l_pcClose s = C_wgRelease n w → w = 1%nat;
  i_rwg : wg_v (l_readWG s) =
          Z.of_nat (b2n (read_live (l_pcRead s)) + b2n (closer_live (l_pcCloser s)));
  i_rwg_w : (wg_inside (l_readWG s) =
             b2n (close_asleep (l_pcClose s))
             + countb (λ o, asleep (c_phase o)) (l_objs s))%nat;
  i_rwg_q : wg_quiet (l_readWG s);
  i_accepting : l_accepting s = negb (past_store (l_pcClose s));
  i_doneCh : l_doneCh s = past_closeDone (l_pcClose s);
  i_drained : past_drain (l_pcClose s) = true → l_acceptCh s = [];
  i_admit : admitting (l_pcRead s) = true → past_lock (l_pcClose s) = false;
  i_readDone : l_readDoneCh s = read_done (l_pcRead s);
  i_errRead : read_done (l_pcRead s) = true ∨ l_pcRead s = R_closeDone → l_errRead s ≠ None;
  i_conn : ∀ c, pc_conn (l_pcRead s) = Some c → is_Some (l_objs s !! c);
  i_free : free_at s (l_pcRead s)
}.

End inv.

Section preservation.
Context {Q P : Type} `{!RingQueue Q receivedPacket} `{!BufferPool (list Z) P}.
Variable cfg : config.
Implicit Types (s : Sup Q P) (o : SubConn Q) (c : nat).
#[local] Abbreviation inv := (inv cfg).
#[local] Abbreviation key := (key cfg).

(** ** Preservation by every step

    [frame] discharges the conjuncts a step does not touch: they hold of the
    new state by conversion. *)

Ltac frame_obj J :=
  constructor;
  first [ exact (oi_done _ _ _ _ J) | exact (oi_lock _ _ _ _ J)
        | exact (oi_chan _ _ _ _ J) | exact (oi_table _ _ _ _ J) | exact (oi_new _ _ _ _ J)
        | exact (oi_release _ _ _ _ J) | idtac ].

Ltac frame I :=
  constructor;
  first [ exact (i_lock_read _ _ I) | exact (i_lock_close _ _ I) | exact (i_lock_conn _ _ I)
        | exact (i_chan_nodup _ _ I) | exact (i_chan_phase _ _ I) | exact (i_chan_len _ _ I)
        | exact (i_table _ _ I) | exact (i_wg _ _ I) | exact (i_wg_w _ _ I) | exact (i_release _ _ I)
        | exact (i_rwg _ _ I) | exact (i_rwg_w _ _ I) | exact (i_rwg_q _ _ I)
        | exact (i_accepting _ _ I) | exact (i_doneCh _ _ I) | exact (i_drained _ _ I)
        | exact (i_admit _ _ I) | exact (i_readDone _ _ I) | exact (i_errRead _ _ I)
        | exact (i_conn _ _ I) | exact (i_free _ _ I)
        | intros c' o' Hc'; pose proof (i_obj _ _ I c' o' Hc') as J; frame_obj J
        | idtac ].

Lemma inv_bufs s t k : inv s → inv (set_bufs t (set_pool k s)).
Proof. intros I. frame I. Qed.

(** Pool operations touch the byte buffers and the pools only. *)
Lemma pool_get_frame p n s b s' :
  pool_get p n s = (b, s') → ∃ t k, s' = set_bufs t (set_pool k s).
Proof.
  unfold pool_get. destruct (pool_Get _ _ _) as [[b' t] k]. intros [= <- <-]. eauto.
Qed.

Lemma pool_put_frame p b s : ∃ t k, pool_put p b s = set_bufs t (set_pool k s).
Proof. unfold pool_put. destruct (pool_Put _ _ _ _). eauto. Qed.

Lemma onQueueClose_frame items s :
  ∃ t k, foldl (λ s pk, onQueueClose pk s) s items = set_bufs t (set_pool k s).
Proof.
  revert s. induction items as [|pk items IH]; intros s; simpl.
  - exists (l_bufs s), (l_pool s). by destruct s.
  - destruct (IH (onQueueClose pk s)) as (t & k & ->).
    unfold onQueueClose, putBuffers.
    destruct (pool_put_frame oobBufferPool (rp_oob pk) (pool_put bufferPool (rp_data pk) s))
      as (t1 & k1 & ->).
    destruct (pool_put_frame bufferPool (rp_data pk) s) as (t2 & k2 & ->). eauto.
Qed.

Lemma inv_set_pcRead s pc :
  inv s →
  crit_read pc = crit_read (l_pcRead s) →
  inserting pc = inserting (l_pcRead s) → sending pc = sending (l_pcRead s) →
  read_done (l_pcRead s) = false → read_done pc = false → pc ≠ R_closeDone →
  (admitting pc = true → past_lock (l_pcClose s) = false) →
  (∀ c, pc_conn pc = Some c → is_Some (l_objs s !! c)) →
  free_at cfg s pc →
  inv (set_pcRead pc s).
Proof.
  intros I Hcrit Hins Hsnd Hrd Hrd' Hcd Hadm Hconn Hfree.
  assert (He : read_live pc = read_live (l_pcRead s))
    by (destruct pc, (l_pcRead s); done).
  frame I; simpl; try done.
  - rewrite Hins. exact (oi_table _ _ _ _ J).
  - rewrite Hsnd. exact (oi_new _ _ _ _ J).
  - rewrite Hcrit. exact (i_lock_read _ _ I).
  - rewrite He. exact (i_rwg _ _ I).
  - rewrite Hrd', <- Hrd. exact (i_readDone _ _ I).
  - rewrite Hrd'. intros [?|?]; done.
Qed.

Lemma free_noncrit s pc : crit_read pc = false → free_at cfg s pc.
Proof. by destruct pc. Qed.

Lemma free_alter s pc f c :
  free_at cfg s pc →
  (∀ o, l_objs s !! c = Some o →
     c_rAddr (f o) = c_rAddr o ∧
     (c_phase o = PhNew → c_phase (f o) = PhNew) ∧
     (in_table (c_phase o) = true → in_table (c_phase (f o)) = true)) →
  free_at cfg (upd_obj c f s) pc.
Proof.
  intros H Hf. destruct pc; simpl in *; try done.
  - apply (alter_lookup_ex _ _ _ _ (λ o, c_phase o = PhNew ∧ l_conns s !! key o = None)); [done|].
    intros -> o Ho [? Hk]. destruct (Hf o Ho) as (Ha & ? & _). unfold key in *. rewrite Ha. auto.
  - apply (alter_lookup_ex _ _ _ _ (λ o, in_table (c_phase o) = true ∧ l_conns s !! key o = None));
      [done|].
    intros -> o Ho [? Hk]. destruct (Hf o Ho) as (Ha & _ & ?). unfold key in *. rewrite Ha. auto.
Qed.

(** Taking and releasing [connLock] in the read loop. *)
Lemma inv_read_lock s pk a :
  inv s → l_pcRead s = R_lock pk a → l_lock s = None →
  inv (set_pcRead (R_lookup pk a) (set_lock (Some OwnRead) s)).
Proof.
  intros I Epc El.
  assert (Hc := i_lock_close _ _ I). rewrite El in Hc.
  frame I; simpl; try done.
  - intros H. pose proof (oi_lock _ _ _ _ J H). congruence.
  - intros H. destruct (oi_table _ _ _ _ J H) as [?|H']; [auto|]. by rewrite Epc in H'.
  - intros H. pose proof (oi_new _ _ _ _ J H) as H'. by rewrite Epc in H'.
  - split; [|done]. intros H. by apply Hc in H.
  - by rewrite (i_rwg _ _ I), Epc.
  - rewrite (i_readDone _ _ I), Epc. done.
  - intros [?|?]; done.
Qed.

Lemma inv_read_unlock s pk r pc :
  inv s → l_pcRead s = R_unlock pk r → 
  pc = (match r with Some c => R_push pk c | None => R_get end) →
  inv (set_pcRead pc (set_lock None s)).
Proof.
  intros I Epc ->.
  assert (El : l_lock s = Some OwnRead) by (apply (i_lock_read _ _ I); by rewrite Epc).
  assert (Hc := i_lock_close _ _ I). rewrite El in Hc.
  frame I; simpl; try done.
  - intros H. pose proof (oi_lock _ _ _ _ J H). congruence.
  - intros H. destruct (oi_table _ _ _ _ J H) as [?|H']; [auto|]. by rewrite Epc in H'.
  - intros H. pose proof (oi_new _ _ _ _ J H) as H'. by rewrite Epc in H'.
  - by destruct r.
  - split; [|done]. intros H. by apply Hc in H.
  - rewrite (i_rwg _ _ I), Epc. by destruct r.
  - by destruct r.
  - rewrite (i_readDone _ _ I), Epc. by destruct r.
  - destruct r; intros [?|?]; done.
  - intros c Hcc. apply (i_conn _ _ I). rewrite Epc. by destruct r.
  - by destruct r.
Qed.

(** A new object of the read loop: nothing refers to it yet. *)
Lemma inv_alloc s pk a ph pc :
  inv s → l_pcRead s = R_new pk a →
  (ph = PhNew ∧ pc = R_send pk (length (l_objs s)) ∨
   ph = PhOrphan ∧ pc = R_unlock pk (Some (length (l_objs s)))) →
  inv (set_pcRead pc (set_objs (l_objs s ++ [newSubConn cfg a ph]) s)).
Proof.
  intros I Epc Hph.
  assert (Hfree := i_free _ _ I). rewrite Epc in Hfree.
  assert (Hcnt : ∀ f, f ph = false → 
    countb (λ o, f (c_phase o)) (l_objs s ++ [newSubConn cfg a ph]) = countb (λ o, f (c_phase o)) (l_objs s)).
  { intros f Hf. rewrite countb_app. simpl. rewrite Hf. simpl. lia. }
  assert (Hold : ∀ c o, l_objs s !! c = Some o → (l_objs s ++ [newSubConn cfg a ph]) !! c = Some o).
  { intros c o H. by apply lookup_app_l_Some. }
  frame I; simpl; try done.
  - intros c o [[Hlt Ho]|[-> <-]]%lookup_snoc_Some.
    + pose proof (i_obj _ _ I c o Ho) as J. frame_obj J; simpl.
      * intros H. destruct (oi_table _ _ _ _ J H) as [?|H']; [auto|]. by rewrite Epc in H'.
      * intros H. pose proof (oi_new _ _ _ _ J H) as H'. by rewrite Epc in H'.
    + destruct Hph as [[-> ->]|[-> ->]]; constructor; simpl; done.
  - rewrite <- (i_lock_read _ _ I), Epc. by destruct Hph as [[-> ->]|[-> ->]].
  - intros c Hl. destruct (i_lock_conn _ _ I c Hl) as (o & Ho & ?). eauto.
  - intros c Hl. destruct (i_chan_phase _ _ I c Hl) as (o & Ho & ?). eauto.
  - intros k c Hl. destruct (i_table _ _ I k c Hl) as (o & Ho & ?). eauto.
  - rewrite Hcnt by (by destruct Hph as [[-> ->]|[-> ->]]). exact (i_wg _ _ I).
  - unfold releasers; simpl. rewrite Hcnt by (by destruct Hph as [[-> ->]|[-> ->]]). exact (i_wg_w _ _ I).
  - rewrite (i_rwg _ _ I), Epc. by destruct Hph as [[-> ->]|[-> ->]].
  - rewrite Hcnt by (by destruct Hph as [[-> ->]|[-> ->]]). exact (i_rwg_w _ _ I).
  - intros _. apply (i_admit _ _ I). by rewrite Epc.
  - rewrite (i_readDone _ _ I), Epc. by destruct Hph as [[-> ->]|[-> ->]].
  - destruct Hph as [[-> ->]|[-> ->]]; intros [?|?]; done.
  - intros c Hc. exists (newSubConn cfg a ph). apply lookup_snoc_Some. right.
    by destruct Hph as [[-> ->]|[-> ->]]; simplify_eq/=.
  - destruct Hph as [[-> ->]|[-> ->]]; [|done]. simpl. eexists. rewrite lookup_snoc_Some. eauto.
Qed.


Ltac upd_own Ho Hph :=
  intros -> ? ?; simplify_eq; simpl; rewrite ?Hph; simpl;
  try done; try congruence; try (intros [? ?]); try done; try congruence.

Ltac releasers_upd I Ho Hph f :=
  let H := fresh in
  pose proof (countb_alter (λ o, releasing (c_phase o)) f _ _ _ Ho) as H;
  simpl in H; rewrite ?Hph in H; simpl in H;
  pose proof (i_wg_w _ _ I); unfold wg_shape, releasers in *; simpl in *;
  try (destruct (l_pcCloser _); lia).

(** Conjuncts that speak of the objects, after one of them has changed. *)
Ltac upd I Ho Hph :=
  lazymatch goal with
  | |- ∀ c0, l_lock _ = Some (OwnConn c0) → _ =>
      let Hl := fresh "Hl" in intros ? Hl;
      apply alter_lookup_ex; [apply (i_lock_conn _ _ I); exact Hl | upd_own Ho Hph]
  | |- ∀ c0, c0 ∈ l_acceptCh _ → _ =>
      let Hl := fresh "Hl" in intros ? Hl;
      apply alter_lookup_ex; [exact (i_chan_phase _ _ I _ Hl) | upd_own Ho Hph]
  | |- ∀ k c0, l_conns _ !! k = Some c0 → _ =>
      let Hl := fresh "Hl" in intros ? ? Hl;
      apply (alter_lookup_ex _ _ _ _ (λ o, in_table (c_phase o) = true ∧ key o = _));
      [exact (i_table _ _ I _ _ Hl) | upd_own Ho Hph]
  | |- _ = Z.of_nat (_ + countb _ (alter ?f _ _)) =>
      let H := fresh in
      pose proof (countb_alter (λ o, counted (c_phase o)) f _ _ _ Ho) as H;
      simpl in H; rewrite ?Hph in H; simpl in H;
      pose proof (i_wg _ _ I); simpl in *; try lia
  | |- wg_shape _ _ (releasers (_ (upd_obj _ ?f _))) => releasers_upd I Ho Hph f
  | |- wg_shape _ _ (releasers (_ (_ (upd_obj _ ?f _)))) => releasers_upd I Ho Hph f
  | |- wg_shape _ _ (releasers (upd_obj _ ?f _)) => releasers_upd I Ho Hph f
  | |- wg_inside _ = (_ + countb _ (alter ?f _ _))%nat =>
      let H := fresh in
      pose proof (countb_alter (λ o, asleep (c_phase o)) f _ _ _ Ho) as H;
      simpl in H; rewrite ?Hph in H; simpl in H;
      pose proof (i_rwg_w _ _ I); simpl in *; try lia
  | |- ∀ c0, _ → is_Some (alter _ _ _ !! c0) =>
      let Hl := fresh "Hl" in intros ? Hl;
      apply alter_lookup_is_Some; first [apply (i_conn _ _ I); exact Hl | simplify_eq; eauto]
  | |- ∀ c0 o0, alter _ _ _ !! c0 = Some o0 → _ =>
      let c' := fresh "c'" in let o' := fresh "o'" in let Hc := fresh "Hc" in
      let o1 := fresh in let H1 := fresh in
      intros c' o' Hc; apply alter_lookup_inv in Hc as [(-> & o1 & H1 & ->)|[Hne Hc]];
      [ rewrite Ho in H1; injection H1 as <-; pose proof (i_obj _ _ I _ _ Ho) as J;
        frame_obj J; simpl; rewrite ?Hph; simpl; try done;
        try (rewrite (oi_done _ _ _ _ J), Hph; done)
      | pose proof (i_obj _ _ I _ _ Hc) as J; frame_obj J; simpl; try done ]
  | |- _ => idtac
  end.

(** Conjuncts that follow from the control point of the read loop alone. *)
Ltac pcr I Epc :=
  lazymatch goal with
  | |- wg_v (l_readWG _) = _ => rewrite (i_rwg _ _ I), Epc; done
  | |- l_readDoneCh _ = _ => rewrite (i_readDone _ _ I), Epc; done
  | |- (_ ∨ _ → l_errRead _ ≠ None) => try solve [intros [?|?]; done]
  | |- (_ ↔ l_lock _ = Some OwnRead) => rewrite <- (i_lock_read _ _ I), Epc; done
  | |- _ => idtac
  end.

(** The read loop's connection leaves it: into the accept queue, straight to
    an [Accept] (unbuffered channel), or nowhere. *)
Lemma inv_send s s' ob ev pk c :
  inv s → l_pcRead s = R_send pk c → step_read cfg ev s = Next s' ob → inv s'.
Proof.
  intros I Epc E. unfold step_read in E. rewrite Epc in E.
  pose proof (i_free _ _ I) as Hfree. rewrite Epc in Hfree.
  destruct Hfree as (o & Ho & Hph & Hk).
  assert (Hadm := i_admit _ _ I). rewrite Epc in Hadm. specialize (Hadm eq_refl).
  assert (El : l_lock s = Some OwnRead) by (apply (i_lock_read _ _ I); by rewrite Epc).
  assert (Hnc : c ∉ l_acceptCh s).
  { intros (o' & Ho' & ?)%(i_chan_phase _ _ I). simplify_eq. congruence. }
  assert (Hdr : past_drain (l_pcClose s) = false) by (by destruct (l_pcClose s)).
  assert (Hoth : ∀ c' o', c' ≠ c → l_objs s !! c' = Some o' → 
     in_table (c_phase o') = true → l_conns s !! key o' = Some c').
  { intros c' o' _ Ho' H. destruct (oi_table _ _ _ _ (i_obj _ _ I _ _ Ho') H) as [?|H']; [done|].
    by rewrite Epc in H'. }
  assert (Hnew : ∀ c' o', c' ≠ c → l_objs s !! c' = Some o' → c_phase o' ≠ PhNew).
  { intros c' o' ? Ho' H. pose proof (oi_new _ _ _ _ (i_obj _ _ I _ _ Ho') H) as H'.
    rewrite Epc in H'. simplify_eq/=. }
  pose proof (i_obj _ _ I c o Ho) as Jc.
  assert (Hself : ∀ ph, in_table ph = true → ∃ o0,
     alter (set_phase ph) c (l_objs s) !! c = Some o0 ∧ in_table (c_phase o0) = true
     ∧ l_conns s !! key o0 = None).
  { intros ph ?. exists (set_phase ph o). by rewrite list_lookup_alter_eq, Ho. }
  repeat case_match; simplify_eq;
    (frame I; simpl; try done; upd I Ho Hph; pcr I Epc);
    try (intros H1; by destruct (Hnew _ _ Hne Hc));
    try (intros H1; left; by eauto); try (by auto).
  - intros _. apply elem_of_app. right. by apply list_elem_of_singleton.
  - intros H1. apply elem_of_app. left. exact (oi_chan _ _ _ _ J H1).
  - apply NoDup_app. split_and!; [apply I| |apply NoDup_singleton].
    intros x Hx ->%list_elem_of_singleton. done.
  - intros c0 [Hin| ->%list_elem_of_singleton]%elem_of_app.
    + apply alter_lookup_ex; [exact (i_chan_phase _ _ I _ Hin) | upd_own Ho Hph].
    + exists (set_phase PhQueued o). by rewrite list_lookup_alter_eq, Ho.
  - rewrite length_app. simpl. apply Nat.ltb_lt in H. lia.
  - congruence.
Qed.

Lemma inv_insert s pk c o :
  inv s → l_pcRead s = R_insert pk c → l_objs s !! c = Some o →
  inv (set_pcRead (R_unlock pk (Some c)) (set_conns (<[key o := c]> (l_conns s)) s)).
Proof.
  intros I Epc Ho.
  pose proof (i_free _ _ I) as Hfree. rewrite Epc in Hfree.
  destruct Hfree as (o' & Ho' & Ht & Hk). simplify_eq.
  frame I; simpl; try done; pcr I Epc.
  - intros H. destruct (oi_table _ _ _ _ J H) as [H'|H'].
    + left. rewrite lookup_insert_ne; [done|]. intros E. congruence.
    + rewrite Epc in H'. simplify_eq/=. left. by rewrite lookup_insert_eq.
  - intros H. pose proof (oi_new _ _ _ _ J H) as H'. by rewrite Epc in H'.
  - intros k c0. rewrite lookup_insert. case_decide as E.
    + intros [= <-]. subst k. eauto.
    + apply (i_table _ _ I).
  - intros c0 [= <-]. eauto.
Qed.

(** Changing the queue of a connection. *)
Lemma inv_queue s c q : inv s → inv (upd_obj c (set_queue q) s).
Proof.
  intros I. destruct (l_objs s !! c) as [o|] eqn:Ho.
  2:{ unfold upd_obj. replace (alter (set_queue q) c (l_objs s)) with (l_objs s);
      [by destruct s|].
      apply list_eq. intros i. destruct (decide (i = c)) as [->|?].
      - by rewrite list_lookup_alter_eq, Ho.
      - by rewrite list_lookup_alter_ne. }
  frame I; simpl; upd I Ho Ho.
  apply (free_alter s); [apply I|done].
Qed.

Lemma inv_readErr s e buf oob :
  inv s → l_pcRead s = R_read buf oob → inv (set_pcRead R_closeDone (set_errRead (Some e) s)).
Proof.
  intros I Epc. frame I; simpl; try done; pcr I Epc.
  - intros H. destruct (oi_table _ _ _ _ J H) as [?|H']; [auto|]. by rewrite Epc in H'.
  - intros H. pose proof (oi_new _ _ _ _ J H) as H'. by rewrite Epc in H'.
Qed.

Lemma inv_readCloseDone s :
  inv s → l_pcRead s = R_closeDone → inv (set_pcRead R_wgDone (set_readDoneCh true s)).
Proof.
  intros I Epc. frame I; simpl; try done; pcr I Epc.
  - intros H. destruct (oi_table _ _ _ _ J H) as [?|H']; [auto|]. by rewrite Epc in H'.
  - intros H. pose proof (oi_new _ _ _ _ J H) as H'. by rewrite Epc in H'.
  - intros _. apply (i_errRead _ _ I). by right.
Qed.

Lemma inv_readWgDone s g :
  inv s → l_pcRead s = R_wgDone → wg_Done (l_readWG s) = Ret g →
  inv (set_pcRead R_end (set_readWG g s)).
Proof.
  intros I Epc E.
  pose proof (i_rwg _ _ I) as Hv. rewrite Epc in Hv. simpl in Hv.
  destruct (wg_Done_quiet _ _ (i_rwg_q _ _ I) ltac:(lia) E) as (Hq & Hv' & Hi).
  frame I; simpl; try done; pcr I Epc.
  - intros H. destruct (oi_table _ _ _ _ J H) as [?|H']; [auto|]. by rewrite Epc in H'.
  - intros H. pose proof (oi_new _ _ _ _ J H) as H'. by rewrite Epc in H'.
  - lia.
  - rewrite Hi. apply I.
  - intros _. apply (i_errRead _ _ I). left. by rewrite Epc.
Qed.

Lemma step_read_inv s s' ev ob :
  inv s → step_read cfg ev s = Next s' ob → inv s'.
Proof.
  intros I E. destruct (l_pcRead s) eqn:Epc; [| | | | | |by eapply inv_send|..];
    unfold step_read in E; rewrite Epc in E.
  - destruct (pool_get bufferPool receiveMTU s) as [buf s1] eqn:E1.
    destruct (pool_get oobBufferPool oobSize s1) as [oob s2] eqn:E2. simplify_eq.
    apply pool_get_frame in E1 as (t1 & k1 & ->), E2 as (t2 & k2 & ->).
    apply inv_set_pcRead; simpl; rewrite ?Epc; try done. by apply inv_bufs, inv_bufs.
  - destruct ev as [d od e a|e]; [case_match|]; simplify_eq; [|by eapply inv_readErr].
    apply (inv_set_pcRead (set_bufs _ s)); simpl; rewrite ?Epc; try done. by frame I.
  - case_match; simplify_eq. by apply inv_read_lock.
  - assert (Hl := i_lock_read _ _ I).
    case_match eqn:El; simplify_eq; apply inv_set_pcRead; simpl; rewrite ?Epc; try done.
    intros c [= ->]. destruct (i_table _ _ I _ _ El) as (o & ? & _). eauto.
  - pose proof (i_free _ _ I) as Hf. rewrite Epc in Hf.
    case_match eqn:El; simplify_eq; apply inv_set_pcRead; simpl; rewrite ?Epc; try done.
    intros _. rewrite (i_accepting _ _ I) in El. by destruct (l_pcClose s).
  - repeat case_match; simplify_eq; try (by apply (inv_alloc _ pk a); auto).
    all: apply inv_set_pcRead; simpl; rewrite ?Epc; done.
  - case_match eqn:Ho; simplify_eq. by apply inv_insert.
  - case_match; simplify_eq; by eapply inv_read_unlock.
  - case_match eqn:Ho; [|done]. destruct (rq_Push _ _) as [e q]. simplify_eq.
    apply inv_set_pcRead; simpl; rewrite ?Epc; try done. by apply inv_queue.
  - case_match; simplify_eq. by apply inv_readCloseDone.
  - case_match; simplify_eq. by apply inv_readWgDone.
  - done.
Qed.

Lemma step_closer_inv s s' res ob :
  inv s → step_closer res s = Next s' ob → inv s'.
Proof.
  intros I E. unfold step_closer in E.
  assert (Hw := i_wg_w _ _ I). assert (Hr := i_rwg _ _ I).
  destruct (l_pcCloser s) eqn:Epc.
  - destruct (wg_Wait (l_connWG s)) as [pass g] eqn:Eg. simplify_eq. unfold wg_Wait in Eg.
    pose proof (i_wg _ _ I) as Hv.
    destruct (Z.eqb_spec (wg_v (l_connWG s)) 0); simplify_eq/=;
      frame I; simpl; rewrite ?Epc in *; try done. unfold releasers in *. simpl in *. left. lia.
  - destruct (wg_Wake (l_connWG s)) as [[g|w|]|] eqn:Eg; simplify_eq.
    unfold wg_Wake in Eg. repeat case_match; simplify_eq.
    frame I; simpl; rewrite ?Epc in *; try done. unfold releasers in *. simpl in *. lia.
  - simplify_eq. destruct res; frame I; simpl; rewrite ?Epc in *; done.
  - destruct (wg_Done (l_readWG s)) as [g|w|] eqn:Eg; simplify_eq.
    destruct (wg_Done_quiet _ _ (i_rwg_q _ _ I) ltac:(simpl in *; lia) Eg) as (Hq & Hv' & Hi).
    frame I; simpl in *; rewrite ?Epc in *; try done; [lia|]. rewrite Hi. apply I.
  - done.
Qed.

(** Conjuncts that follow from the control point of [Close] alone. *)
Ltac pcc I Epc :=
  lazymatch goal with
  | |- (_ ↔ l_lock _ = Some OwnClose) => rewrite <- (i_lock_close _ _ I), Epc; done
  | |- wg_v (l_connWG _) = _ => rewrite (i_wg _ _ I), Epc; done
  | |- wg_shape _ _ _ =>
      let H := fresh in pose proof (i_wg_w _ _ I) as H;
      unfold releasers in *; rewrite Epc in H; simpl in *; try exact H
  | |- wg_inside (l_readWG _) = _ => rewrite (i_rwg_w _ _ I), Epc; done
  | |- l_accepting _ = _ => rewrite (i_accepting _ _ I), Epc; done
  | |- l_doneCh _ = _ => rewrite (i_doneCh _ _ I), Epc; done
  | |- (true = true → l_acceptCh _ = []) =>
      let H := fresh in pose proof (i_drained _ _ I) as H; rewrite Epc in H; exact H
  | |- (admitting _ = true → _) =>
      let H := fresh in let H' := fresh in
      try solve [intros H; pose proof (i_admit _ _ I H) as H'; rewrite Epc in H'; done]
  | |- _ => idtac
  end.

Lemma admitting_crit pc : admitting pc = true → crit_read pc = true.
Proof. by destruct pc. Qed.

(** Whoever else holds the lock, the read loop is outside its critical section. *)
Lemma not_crit_read s : inv s → l_lock s ≠ Some OwnRead → crit_read (l_pcRead s) = false.
Proof. intros I H. pose proof (i_lock_read _ _ I). destruct (crit_read _); [tauto|done]. Qed.

Lemma inserting_crit pc c : inserting pc = Some c → crit_read pc = true.
Proof. by destruct pc. Qed.

(** While the lock is not with the read loop, the table is exact. *)
Lemma table_exact s c o :
  inv s → l_lock s ≠ Some OwnRead → l_objs s !! c = Some o →
  in_table (c_phase o) = true → l_conns s !! key o = Some c.
Proof.
  intros I Hl Ho Ht. destruct (oi_table _ _ _ _ (i_obj _ _ I c o Ho) Ht) as [?|Hi]; [done|].
  apply inserting_crit in Hi. rewrite not_crit_read in Hi by done. done.
Qed.

Lemma addr_text_key o w :
  addr_text (c_rAddr o) = Ret w → w = key o.
Proof. unfold key, addr_text. destruct (c_rAddr o); simpl; congruence. Qed.

(** Removing a connection from the table, by a holder of the lock. *)
Lemma inv_table_delete s c o k :
  inv s → l_lock s ≠ Some OwnRead → l_objs s !! c = Some o → in_table (c_phase o) = true →
  k = key o →
  (∀ c' o', l_objs s !! c' = Some o' → c' ≠ c → in_table (c_phase o') = true →
     delete k (l_conns s) !! key o' = Some c') ∧
  (∀ k' c', delete k (l_conns s) !! k' = Some c' → c' ≠ c ∧ l_conns s !! k' = Some c').
Proof.
  intros I Hl Ho Ht ->. split.
  - intros c' o' Ho' Hne Ht'. pose proof (table_exact s c' o' I Hl Ho' Ht') as E'.
    pose proof (table_exact s c o I Hl Ho Ht) as E.
    rewrite lookup_delete_ne; [done|]. congruence.
  - intros k' c' [Hne E']%lookup_delete_Some. split; [|done]. intros ->.
    destruct (i_table _ _ I _ _ E') as (o' & Ho' & _ & ?). simplify_eq.
Qed.

Lemma inv_close_lock s :
  inv s → l_pcClose s = C_lock → l_lock s = None →
  inv (set_pcClose C_drain (set_lock (Some OwnClose) s)).
Proof.
  intros I Epc El.
  assert (Hnc := not_crit_read s I ltac:(by rewrite El)).
  frame I; simpl; try done; pcc I Epc.
  - intros H. pose proof (oi_lock _ _ _ _ J H). congruence.
  - split; [congruence|done].
  - intros H%admitting_crit. congruence.
Qed.

Lemma inv_drain s c rest o k :
  inv s → l_pcClose s = C_drain → l_acceptCh s = c :: rest → l_objs s !! c = Some o →
  addr_text (c_rAddr o) = Ret k →
  inv (set_acceptCh rest (set_conns (delete k (l_conns s))
         (upd_obj c (λ o, set_phase PhDropped (set_done o)) s))).
Proof.
  intros I Epc Ech Ho Hk.
  assert (El : l_lock s = Some OwnClose) by (apply (i_lock_close _ _ I); by rewrite Epc).
  assert (Hl : l_lock s ≠ Some OwnRead) by congruence.
  assert (Hnc := not_crit_read s I Hl).
  assert (Hph : c_phase o = PhQueued).
  { destruct (i_chan_phase _ _ I c) as (o' & ? & ?); [rewrite Ech; left|]. congruence. }
  assert (Ht : in_table (c_phase o) = true) by (by rewrite Hph).
  destruct (inv_table_delete s c o k I Hl Ho Ht (addr_text_key o k Hk)) as [Hin Hout].
  pose proof (i_chan_nodup _ _ I) as Hnd. rewrite Ech in Hnd. apply NoDup_cons in Hnd as [Hni Hnd].
  frame I; simpl; try done; upd I Ho Hph.
  - intros H. pose proof (oi_chan _ _ _ _ J H) as Hin'. rewrite Ech in Hin'. set_solver.
  - intros H. left. by eapply Hin.
  - intros c0 Hc0. apply alter_lookup_ex; [|upd_own Ho Hph].
    apply (i_chan_phase _ _ I). rewrite Ech. by right.
  - pose proof (i_chan_len _ _ I) as Hlen. rewrite Ech in Hlen. simpl in Hlen. lia.
  - intros k' c0 [Hne Hl']%Hout.
    apply (alter_lookup_ex _ _ _ _ (λ o, in_table (c_phase o) = true ∧ key o = _));
      [exact (i_table _ _ I _ _ Hl') | done].
  - rewrite Epc. done.
  - by apply free_noncrit.
Qed.

Lemma inv_drained s n :
  inv s → l_pcClose s = C_drain → l_acceptCh s = [] → inv (set_pcClose (C_unlock n) s).
Proof.
  intros I Epc Ech.
  frame I; simpl; try done; pcc I Epc.
Qed.

Lemma inv_close_unlock s n :
  inv s → l_pcClose s = C_unlock n → inv (set_pcClose (C_wgDone n) (set_lock None s)).
Proof.
  intros I Epc.
  assert (El : l_lock s = Some OwnClose) by (apply (i_lock_close _ _ I); by rewrite Epc).
  assert (Hnc := not_crit_read s I ltac:(by rewrite El)).
  frame I; simpl; try done; pcc I Epc.
  - intros H. pose proof (oi_lock _ _ _ _ J H). congruence.
  - rewrite Hnc. done.
Qed.

(** Changes of [readWG] by a goroutine that enters or leaves [Wait]. *)
Lemma inv_close_readWG s g pc :
  inv s → past_wgDone (l_pcClose s) = true → past_wgDone pc = true →
  close_releasing (l_pcClose s) = false → close_releasing pc = false →
  wg_quiet g → wg_v g = wg_v (l_readWG s) →
  (wg_inside g + b2n (close_asleep (l_pcClose s)) =
   wg_inside (l_readWG s) + b2n (close_asleep pc))%nat →
  inv (set_pcClose pc (set_readWG g s)).
Proof.
  intros I H1 H2 R1 R2 Hq Hv Hi.
  assert (Hp : ∀ pc, past_wgDone pc = true →
    crit_close pc = false ∧ past_store pc = true ∧ past_closeDone pc = true ∧
    past_drain pc = true ∧ past_lock pc = true) by (by intros []).
  destruct (Hp _ H1) as (A1 & A2 & A3 & A4 & A5), (Hp _ H2) as (B1 & B2 & B3 & B4 & B5).
  frame I; simpl; try done.
  - rewrite B1, <- A1. apply I.
  - rewrite H2, <- H1. apply I.
  - pose proof (i_wg_w _ _ I) as Hw. unfold releasers in *. simpl. by rewrite R2, <- R1.
  - intros n w ->. done.
  - rewrite Hv. apply I.
  - pose proof (i_rwg_w _ _ I). simpl in *. lia.
  - rewrite B2, <- A2. apply I.
  - rewrite B3, <- A3. apply I.
  - intros _. by apply (i_drained _ _ I).
  - intros H. pose proof (i_admit _ _ I H). congruence.
Qed.

(** [connWG.Done] of a holder of a unit: the addition, which leaves [w] sleepers
    to release ... *)
Lemma connWG_Add s w g :
  inv s → wg_Add (-1) (l_connWG s) = Ret (w, g) →
  wg_v g = wg_v (l_connWG s) - 1 ∧ (w ≤ 1)%nat ∧ releasers s = 0%nat ∧
  wg_shape (l_pcCloser s) g w.
Proof.
  intros I E. pose proof (i_wg _ _ I) as Hv. pose proof (i_wg_w _ _ I) as Hw.
  assert (Hpos : 0 < wg_v (l_connWG s)) by (eapply wg_Add_minus_pos; [lia|done]).
  rewrite wg_Add_minus in E by done. simplify_eq. simpl.
  destruct (Z.eqb_spec (wg_v (l_connWG s)) 1); destruct (l_pcCloser s); simpl in *; lia.
Qed.

(** ... and the release, by the one releaser. *)
Lemma connWG_Release s g :
  inv s → (0 < releasers s)%nat → wg_Release 1 (l_connWG s) = Ret g →
  wg_v g = wg_v (l_connWG s) ∧ releasers s = 1%nat ∧ wg_shape (l_pcCloser s) g 0.
Proof.
  intros I Hr E. pose proof (i_wg_w _ _ I) as Hw. unfold wg_Release in E.
  destruct (Z.eqb_spec (wg_v (l_connWG s)) 0), (Nat.eqb_spec (wg_w (l_connWG s)) 1); simplify_eq/=.
  destruct (l_pcCloser s); simpl in *; lia.
Qed.

Lemma connWG_Release_ok s :
  inv s → (0 < releasers s)%nat → ∃ g, wg_Release 1 (l_connWG s) = Ret g.
Proof.
  intros I Hr. pose proof (i_wg_w _ _ I) as Hw. unfold wg_Release, wg_shape in *.
  destruct (Z.eqb_spec (wg_v (l_connWG s)) 0), (Nat.eqb_spec (wg_w (l_connWG s)) 1);
    [by eexists|destruct (l_pcCloser s); simpl in *; lia..].
Qed.

(** [supConn.Close] past its [Done], with or without a release to come. *)
Lemma inv_close_wgAdd s n w g pc :
  inv s → l_pcClose s = C_wgDone n → wg_Add (-1) (l_connWG s) = Ret (w, g) →
  (w = 0%nat ∧ (pc = C_wait ∨ pc = C_returned None) ∨ w ≠ 0%nat ∧ pc = C_wgRelease n w) →
  inv (set_pcClose pc (set_connWG g s)).
Proof.
  intros I Epc Eg Hpc.
  pose proof (i_wg _ _ I) as Hv. rewrite Epc in Hv. simpl in Hv.
  destruct (connWG_Add s w g I Eg) as (Hv' & Hw1 & Hr & Hs).
  unfold releasers in Hr. rewrite Epc in Hr. simpl in Hr.
  destruct Hpc as [[-> [-> | ->]]|[Hw ->]]; frame I; simpl; try done; pcc I Epc;
    unfold releasers; simpl; rewrite ?Hr; try lia; try done.
  - by replace w with 1%nat in * by lia.
  - intros ? ? [= <- <-]. lia.
Qed.

Lemma inv_close_release s n w g pc :
  inv s → l_pcClose s = C_wgRelease n w → wg_Release w (l_connWG s) = Ret g →
  (pc = C_wait ∨ pc = C_returned None) →
  inv (set_pcClose pc (set_connWG g s)).
Proof.
  intros I Epc Eg Hpc. rewrite (i_release _ _ I n w Epc) in Eg.
  pose proof (i_wg _ _ I) as Hv. rewrite Epc in Hv. simpl in Hv.
  destruct (connWG_Release s g I) as (Hv' & Hr & Hs);
    [unfold releasers; rewrite Epc; simpl; lia|done|].
  unfold releasers in Hr. rewrite Epc in Hr. simpl in Hr.
  destruct Hpc as [-> | ->]; frame I; simpl; try done; pcc I Epc;
    unfold releasers; simpl; try lia; by replace (countb _ _) with 0%nat by lia.
Qed.

Lemma call_close_inv s s' ob : inv s → call_close s = Next s' ob → inv s'.
Proof.
  intros I E. unfold call_close in E. destruct (l_pcClose s) eqn:Epc; simplify_eq; [|done].
  frame I; simpl; try done; pcc I Epc.
Qed.

Lemma step_close_inv s s' ob : inv s → step_close s = Next s' ob → inv s'.
Proof.
  intros I E. unfold step_close in E. destruct (l_pcClose s) eqn:Epc.
  - done.
  - simplify_eq. frame I; simpl; try done; pcc I Epc.
  - case_match; simplify_eq. frame I; simpl; try done; pcc I Epc.
  - case_match; simplify_eq. by apply inv_close_lock.
  - repeat case_match; simplify_eq; [by apply inv_drained|by eapply inv_drain].
  - simplify_eq. by apply inv_close_unlock.
  - destruct (wg_Add (-1) (l_connWG s)) as [[[|w] g]|?|?] eqn:Eg; [|by simplify_eq; eapply inv_close_wgAdd; eauto|done..].
    unfold close_counted in E. case_match; simplify_eq; eapply inv_close_wgAdd; eauto.
  - case_match eqn:Eg; [|done..].
    unfold close_counted in E. case_match; simplify_eq; eapply inv_close_release; eauto.
  - destruct (wg_Wait (l_readWG s)) as [pass g] eqn:Eg. simplify_eq.
    destruct (wg_Wait_quiet _ _ _ (i_rwg_q _ _ I) Eg) as (Hq & Hv & Hi & _).
    apply inv_close_readWG; rewrite ?Epc; try done; destruct pass; simpl in *; lia || done.
  - destruct (wg_Wake (l_readWG s)) as [r|] eqn:Eg; [|done].
    destruct (wg_Wake_quiet _ _ (i_rwg_q _ _ I) Eg) as (g & -> & Hq & Hv & _ & Hi). simplify_eq.
    apply inv_close_readWG; rewrite ?Epc; try done; simpl; lia.
  - simplify_eq. frame I; simpl; try done; pcc I Epc.
  - done.
Qed.

Lemma accept_conn_inv s s' ob : inv s → accept_conn s = Next s' ob → inv s'.
Proof.
  intros I E. unfold accept_conn in E. repeat case_match; simplify_eq.
  rename H0 into Ech. rename n0 into c, l into rest.
  destruct (i_chan_phase _ _ I c) as (o & Ho & Hph); [rewrite Ech; left|].
  pose proof (i_chan_nodup _ _ I) as Hnd. rewrite Ech in Hnd. apply NoDup_cons in Hnd as [Hni Hnd].
  frame I; simpl; try done; upd I Ho Hph.
  - intros _. apply (oi_table _ _ _ _ J). by rewrite Hph.
  - intros H'. pose proof (oi_chan _ _ _ _ J H') as Hin'. rewrite Ech in Hin'. set_solver.
  - intros c0 Hc0. apply alter_lookup_ex.
    + apply (i_chan_phase _ _ I). rewrite Ech. by right.
    + intros ->. done.
  - pose proof (i_chan_len _ _ I) as Hlen. rewrite Ech in Hlen. simpl in Hlen. lia.
  - intros H'. pose proof (i_drained _ _ I H'). congruence.
  - apply (free_alter s); [apply I|]. intros o' Ho'. simplify_eq. simpl. rewrite Hph. done.
Qed.

Lemma accept_add_inv s s' c ob : inv s → accept_add c s = Next s' ob → inv s'.
Proof.
  intros I E. unfold accept_add in E. destruct (l_objs s !! c) as [o|] eqn:Ho; [|done].
  case_decide as Hph; [|done].
  pose proof (i_wg _ _ I) as Hv. pose proof (i_wg_w _ _ I) as Hw.
  rewrite wg_Add_one in E by lia.
  destruct (Nat.eqb_spec (wg_w (l_connWG s)) 0), (Z.eqb_spec (wg_v (l_connWG s)) 0); simplify_eq/=;
  (frame I; simpl; try done; upd I Ho Hph;
   [ intros _; apply (oi_table _ _ _ _ J); by rewrite Hph
   | apply (free_alter s); [apply I|]; intros o' Ho'; simplify_eq; simpl; rewrite Hph; done ]).
Qed.

Lemma accept_err_inv s s' b e ob : inv s → accept_err b e s = Next s' ob → inv s'.
Proof. intros I E. unfold accept_err in E. repeat case_match; simplify_eq. frame I. Qed.

Lemma call_accept_inv s s' ob : inv s → call_accept cfg s = Next s' ob → inv s'.
Proof. intros I E. unfold call_accept in E. repeat case_match; simplify_eq; [frame I|done]. Qed.

(** A connection moves between two phases that look the same to the shared
    state. *)
Lemma inv_phase s c o f :
  inv s → l_objs s !! c = Some o →
  c_rAddr (f o) = c_rAddr o → c_doneCh (f o) = c_doneCh o →
  c_phase o ≠ PhQueued → c_phase o ≠ PhNew →
  c_phase (f o) ≠ PhQueued → c_phase (f o) ≠ PhNew →
  in_table (c_phase (f o)) = in_table (c_phase o) →
  crit_conn (c_phase (f o)) = crit_conn (c_phase o) →
  ch_closed (c_phase (f o)) = ch_closed (c_phase o) →
  counted (c_phase (f o)) = counted (c_phase o) →
  asleep (c_phase (f o)) = asleep (c_phase o) →
  releasing (c_phase o) = false → releasing (c_phase (f o)) = false →
  inv (upd_obj c f s).
Proof.
  intros I Ho Ha Hd N1 N2 N3 N4 Ht Hcr Hch Hcn Hsl R1 R2.
  frame I; simpl; try done.
  - intros c' o' [(-> & o1 & H1 & ->)|[Hne Hc]]%alter_lookup_inv.
    + rewrite Ho in H1. injection H1 as <-. pose proof (i_obj _ _ I _ _ Ho) as J.
      frame_obj J; simpl; unfold key; rewrite ?Ha, ?Hd, ?Ht, ?Hcr, ?Hch; try done; try apply J.
      intros w E. by rewrite E in R2.
    + pose proof (i_obj _ _ I _ _ Hc) as J. frame_obj J.
  - intros c0 Hl. apply alter_lookup_ex; [by apply (i_lock_conn _ _ I)|].
    intros -> o' Ho'. simplify_eq. congruence.
  - intros c0 Hl. apply alter_lookup_ex; [by apply (i_chan_phase _ _ I)|].
    intros -> o' Ho'. simplify_eq. congruence.
  - intros k c0 Hl.
    apply (alter_lookup_ex _ _ _ _ (λ o, in_table (c_phase o) = true ∧ key o = _));
      [by apply (i_table _ _ I)|].
    intros -> o' Ho'. simplify_eq. unfold key. rewrite Ha, Ht. done.
  - pose proof (countb_alter (λ o, counted (c_phase o)) f _ _ _ Ho) as Hc. simpl in Hc.
    rewrite Hcn in Hc. pose proof (i_wg _ _ I). lia.
  - pose proof (countb_alter (λ o, releasing (c_phase o)) f _ _ _ Ho) as Hc. simpl in Hc.
    rewrite R1, R2 in Hc. pose proof (i_wg_w _ _ I) as Hw. unfold releasers in *. simpl.
    by replace (countb _ (alter _ _ _)) with (countb (λ o, releasing (c_phase o)) (l_objs s)) by lia.
  - pose proof (countb_alter (λ o, asleep (c_phase o)) f _ _ _ Ho) as Hc. simpl in Hc.
    rewrite Hsl in Hc. pose proof (i_rwg_w _ _ I). lia.
  - intros c0 Hc0. by apply alter_lookup_is_Some, (i_conn _ _ I).
  - apply (free_alter s); [apply I|]. intros o' Ho'. simplify_eq. rewrite Ht. done.
Qed.

Ltac same_phase Ho Hph :=
  eapply inv_phase; [eassumption|exact Ho|..]; simpl; rewrite ?Hph; done.

(** [Conn.Close] inside and past its [Done]. *)
Lemma inv_conn_wgAdd s c o w g pc :
  inv s → l_objs s !! c = Some o → c_phase o = PhClosing K_wgDone →
  wg_Add (-1) (l_connWG s) = Ret (w, g) →
  (w = 0%nat ∧ pc = K_closeDone ∨ w ≠ 0%nat ∧ pc = K_wgRelease w) →
  inv (upd_obj c (set_phase (PhClosing pc)) (set_connWG g s)).
Proof.
  intros I Ho Hph Eg Hpc.
  destruct (connWG_Add s w g I Eg) as (Hv' & Hw1 & Hr & Hs).
  destruct Hpc as [[-> ->]|[Hw ->]]; (frame I; simpl; try done; upd I Ho Hph).
  - intros _. apply (oi_table _ _ _ _ J). by rewrite Hph.
  - apply (free_alter (set_connWG g s)); [apply I|]. intros o' Ho'. simpl in Ho'. simplify_eq.
    simpl. rewrite Hph. done.
  - intros _. apply (oi_table _ _ _ _ J). by rewrite Hph.
  - intros ? [= <-]. lia.
  - apply (free_alter (set_connWG g s)); [apply I|]. intros o' Ho'. simpl in Ho'. simplify_eq.
    simpl. rewrite Hph. done.
Qed.

Lemma conn_releaser s c o w :
  l_objs s !! c = Some o → c_phase o = PhClosing (K_wgRelease w) → (0 < releasers s)%nat.
Proof.
  intros Ho Hph. unfold releasers.
  assert (0 < countb (λ o, releasing (c_phase o)) (l_objs s))%nat; [|lia].
  eapply countb_pos; [exact Ho|]. simpl. by rewrite Hph.
Qed.

Lemma inv_conn_release s c o w g :
  inv s → l_objs s !! c = Some o → c_phase o = PhClosing (K_wgRelease w) →
  wg_Release w (l_connWG s) = Ret g →
  inv (upd_obj c (set_phase (PhClosing K_closeDone)) (set_connWG g s)).
Proof.
  intros I Ho Hph Eg. rewrite (oi_release _ _ _ _ (i_obj _ _ I _ _ Ho) w Hph) in Eg.
  destruct (connWG_Release s g I (conn_releaser _ _ _ _ Ho Hph) Eg) as (Hv' & Hr & Hs).
  frame I; simpl; try done; upd I Ho Hph.
  - intros _. apply (oi_table _ _ _ _ J). by rewrite Hph.
  - apply (free_alter (set_connWG g s)); [apply I|]. intros o' Ho'. simpl in Ho'. simplify_eq.
    simpl. rewrite Hph. done.
Qed.

Lemma inv_conn_closeDone s c o :
  inv s → l_objs s !! c = Some o → c_phase o = PhClosing K_closeDone →
  inv (upd_obj c (λ o, set_phase (PhClosing K_lock) (set_done o)) s).
Proof.
  intros I Ho Hph. frame I; simpl; try done; upd I Ho Hph.
  - intros _. apply (oi_table _ _ _ _ J). by rewrite Hph.
  - apply (free_alter s); [apply I|]. intros o' Ho'. simplify_eq. simpl. rewrite Hph. done.
Qed.

Lemma inv_conn_lock s c o :
  inv s → l_objs s !! c = Some o → c_phase o = PhClosing K_lock → l_lock s = None →
  inv (upd_obj c (set_phase (PhClosing K_delete)) (set_lock (Some (OwnConn c)) s)).
Proof.
  intros I Ho Hph El.
  assert (Hnc := not_crit_read s I ltac:(by rewrite El)).
  frame I; simpl; try done; upd I Ho Hph.
  - intros _. apply (oi_table _ _ _ _ J). by rewrite Hph.
  - intros H. pose proof (oi_lock _ _ _ _ J H). congruence.
  - rewrite Hnc. done.
  - pose proof (i_lock_close _ _ I) as Hc. rewrite El in Hc. destruct (crit_close _); [|done].
    by destruct Hc as [Hc _]; specialize (Hc eq_refl).
  - intros c0 [= <-]. exists (set_phase (PhClosing K_delete) o).
    by rewrite list_lookup_alter_eq, Ho.
  - by apply free_noncrit.
Qed.

Lemma inv_conn_delete s c o k n :
  inv s → l_objs s !! c = Some o → c_phase o = PhClosing K_delete →
  addr_text (c_rAddr o) = Ret k →
  inv (upd_obj c (set_phase (PhClosing (K_unlock n))) (set_conns (delete k (l_conns s)) s)).
Proof.
  intros I Ho Hph Hk.
  assert (El : l_lock s = Some (OwnConn c))
    by (apply (oi_lock _ _ _ _ (i_obj _ _ I c o Ho)); by rewrite Hph).
  assert (Hl : l_lock s ≠ Some OwnRead) by congruence.
  assert (Hnc := not_crit_read s I Hl).
  assert (Ht : in_table (c_phase o) = true) by (by rewrite Hph).
  destruct (inv_table_delete s c o k I Hl Ho Ht (addr_text_key o k Hk)) as [Hin Hout].
  frame I; simpl; try done; upd I Ho Hph.
  - intros H. left. by eapply Hin.
  - intros k' c0 [Hne Hl']%Hout.
    apply (alter_lookup_ex _ _ _ _ (λ o, in_table (c_phase o) = true ∧ key o = _));
      [exact (i_table _ _ I _ _ Hl') | done].
  - by apply free_noncrit.
Qed.

Lemma inv_conn_unlock s c o n :
  inv s → l_objs s !! c = Some o → c_phase o = PhClosing (K_unlock n) →
  inv (upd_obj c (set_phase (PhClosing (K_check n))) (set_lock None s)).
Proof.
  intros I Ho Hph.
  assert (El : l_lock s = Some (OwnConn c))
    by (apply (oi_lock _ _ _ _ (i_obj _ _ I c o Ho)); by rewrite Hph).
  assert (Hnc := not_crit_read s I ltac:(by rewrite El)).
  frame I; simpl; try done; upd I Ho Hph.
  - intros H. pose proof (oi_lock _ _ _ _ J H). congruence.
  - rewrite Hnc. done.
  - pose proof (i_lock_close _ _ I) as Hc. rewrite El in Hc. destruct (crit_close _); [|done].
    by destruct Hc as [Hc _]; specialize (Hc eq_refl).
  - by apply free_noncrit.
Qed.

(** Entering or leaving [readWG.Wait] in [Conn.Close]. *)
Lemma inv_conn_readWG s c o g pc pc' :
  inv s → l_objs s !! c = Some o → c_phase o = PhClosing pc →
  (pc = K_wait ∨ pc = K_sleep) → (pc' = K_sleep ∨ pc' = K_loadErr) →
  wg_quiet g → wg_v g = wg_v (l_readWG s) →
  (wg_inside g + b2n (asleep (PhClosing pc)) =
   wg_inside (l_readWG s) + b2n (asleep (PhClosing pc')))%nat →
  inv (upd_obj c (set_phase (PhClosing pc')) (set_readWG g s)).
Proof.
  intros I Ho Hph Hpc Hpc' Hq Hv Hi.
  destruct Hpc as [-> | ->], Hpc' as [-> | ->]; simpl in Hi;
  (frame I; simpl; try done; upd I Ho Hph; [rewrite Hv; apply I|]);
  (apply (free_alter (set_readWG g s)); [apply I|]; intros o' Ho'; simpl in Ho'; simplify_eq;
    simpl; rewrite Hph; done).
Qed.

Lemma call_connClose_inv s s' c ob : inv s → call_connClose c s = Next s' ob → inv s'.
Proof.
  intros I E. unfold call_connClose in E. destruct (l_objs s !! c) as [o|] eqn:Ho; [|done].
  destruct (c_phase o) eqn:Hph; simplify_eq; [|done]. same_phase Ho Hph.
Qed.

Lemma step_conn_inv s s' c ob : inv s → step_conn c s = Next s' ob → inv s'.
Proof.
  intros I E. unfold step_conn in E. destruct (l_objs s !! c) as [o|] eqn:Ho; [|done].
  destruct (c_phase o) as [| | | |pc| | |] eqn:Hph; try done.
  destruct pc; simpl in E; unfold goto in E.
  - destruct (wg_Add (-1) (l_connWG s)) as [[[|w] g]|?|?] eqn:Eg; simplify_eq;
      eapply inv_conn_wgAdd; eauto.
  - case_match eqn:Eg; simplify_eq. by eapply inv_conn_release.
  - case_match; simplify_eq. by eapply inv_conn_closeDone.
  - case_match; simplify_eq. by eapply inv_conn_lock.
  - case_match; simplify_eq. by eapply inv_conn_delete.
  - simplify_eq. by eapply inv_conn_unlock.
  - case_match; simplify_eq; same_phase Ho Hph.
  - destruct (wg_Wait (l_readWG s)) as [pass g] eqn:Eg. simplify_eq.
    destruct (wg_Wait_quiet _ _ _ (i_rwg_q _ _ I) Eg) as (Hq & Hv & Hi & _).
    eapply inv_conn_readWG; eauto; destruct pass; simpl in *; auto; lia.
  - destruct (wg_Wake (l_readWG s)) as [r|] eqn:Eg; [|done].
    destruct (wg_Wake_quiet _ _ (i_rwg_q _ _ I) Eg) as (g & -> & Hq & Hv & _ & Hi). simplify_eq.
    eapply inv_conn_readWG; eauto. simpl. lia.
  - simplify_eq. same_phase Ho Hph.
  - destruct (rq_Close (c_queue o)) as [[items errBuf] q]. simplify_eq.
    destruct (onQueueClose_frame items
      (upd_obj c (λ o, set_phase (PhClosed (match err, errBuf with None, Some e => Some e
                                            | _, _ => err end)) (set_queue q o)) s))
      as (t & k & ->). apply inv_bufs. same_phase Ho Hph.
Qed.

Lemma Conn_Read_inv s s' c now p oob ob :
  inv s → Conn_Read c now p oob s = Next s' ob → inv s'.
Proof.
  intros I E. unfold Conn_Read in E. destruct (l_objs s !! c) as [o|] eqn:Ho; [|done].
  destruct (user_held (c_phase o)); [|done].
  destruct (rq_Pop now (c_queue o)) as [[[pk|err] q]|]; simplify_eq/=.
  - destruct (pool_put_frame oobBufferPool (rp_oob pk)
      (pool_put bufferPool (rp_data pk) (upd_obj c (set_queue q) s))) as (t1 & k1 & ->).
    destruct (pool_put_frame bufferPool (rp_data pk) (upd_obj c (set_queue q) s)) as (t2 & k2 & ->).
    by apply inv_bufs, inv_bufs, inv_queue.
  - by apply inv_queue.
Qed.

Lemma Conn_deadline_inv s s' c t ob : inv s → Conn_deadline c t s = Next s' ob → inv s'.
Proof.
  intros I E. unfold Conn_deadline in E. repeat case_match; simplify_eq. by apply inv_queue.
Qed.

Lemma step_inv s s' l ob : inv s → step cfg l s = Next s' ob → inv s'.
Proof.
  intros I E. destruct l; simpl in E.
  - by eapply step_read_inv.
  - by eapply step_closer_inv.
  - by eapply call_close_inv.
  - by eapply step_close_inv.
  - by eapply call_accept_inv.
  - by eapply accept_conn_inv.
  - by eapply accept_add_inv.
  - by eapply accept_err_inv.
  - by eapply accept_err_inv.
  - by eapply accept_err_inv.
  - simplify_eq. frame I.
  - by eapply call_connClose_inv.
  - by eapply step_conn_inv.
  - by eapply Conn_Read_inv.
  - by eapply Conn_deadline_inv.
Qed.

Lemma wrapConn_inv (pool : P) bufs : inv (wrapConn pool bufs : Sup Q P).
Proof.
  constructor; simpl; try done; try (by intros; simplify_map_eq);
    try (by left); try (by constructor); try lia; try by intros [].
  intros c []%not_elem_of_nil.
Qed.

(** States reached from [wrapConn] by any schedule. *)
Inductive reach (pool : P) (bufs : gmap nat (list Z)) : Sup Q P → Prop :=
| reach_init : reach pool bufs (wrapConn pool bufs)
| reach_next s s' l ob :
    reach pool bufs s → step cfg l s = Next s' ob → reach pool bufs s'.

Lemma reach_inv pool bufs s : reach pool bufs s → inv s.
Proof. induction 1; [apply wrapConn_inv|by eapply step_inv]. Qed.

End preservation.
