(* ===== verification/SupConnProps.v ===== *)
(** * Properties of the super-connection

    Consequences of the invariant for every interleaving: which panics are
    possible, what [Close] waits for, how the table of sub-connections
    behaves, what happens to packets of known and unknown remotes; and
    concrete schedules that show two races. *)

From S2P Require Import Prelude GoLib Types Interfaces SupConn SupConnInv.

(** All cases of a step, with the resulting state spelled out. *)
Ltac step_cases E :=
  match type of E with step _ ?l _ = _ => destruct l; simpl in E end;
  unfold step_read, step_closer, call_close, step_close, call_accept, accept_conn,
    accept_add, accept_err, call_connClose, step_conn, step_conn_pc, goto, close_counted,
    Conn_Read, Conn_deadline in E;
  repeat (case_match; simplify_eq); simplify_eq;
  (* pools *)
  repeat match goal with
  | H : pool_get _ _ _ = (_, _) |- _ => apply pool_get_frame in H as (? & ? & ->)
  end;
  repeat match goal with
  | |- context [foldl (λ s1 pk1, onQueueClose pk1 s1) ?st ?it] =>
      let E := fresh in destruct (onQueueClose_frame it st) as (? & ? & E); rewrite E in *; clear E
  | |- context [pool_put ?p ?b ?st] =>
      let E := fresh in destruct (pool_put_frame p b st) as (? & ? & E); rewrite E in *; clear E
  end.

Section props.
Context {Q P : Type} `{!RingQueue Q receivedPacket} `{!BufferPool (list Z) P}.
Variable cfg : config.
Implicit Types (s : Sup Q P) (o : SubConn Q) (c : nat).
#[local] Abbreviation inv := (inv cfg).
#[local] Abbreviation key := (key cfg).
#[local] Abbreviation step := (step cfg).

(** ** Senders

    In schedules whose packets all come with a sender, no connection and no
    packet in hand has a nil address. *)

Inductive reach_sent (pool : P) (bufs : gmap nat (list Z)) : Sup Q P → Prop :=
| sent_init : reach_sent pool bufs (wrapConn pool bufs)
| sent_next s s' l ob :
    reach_sent pool bufs s → label_ok l → step l s = Next s' ob → reach_sent pool bufs s'.

Record addr_inv s : Prop := {
  ai_obj : ∀ c o, l_objs s !! c = Some o → c_rAddr o ≠ None;
  ai_read : pc_addr (l_pcRead s) ≠ Some None
}.

(** A connection keeps the address of the packet that created it. *)
Lemma rAddr_origin s s' l ob :
  step l s = Next s' ob → ∀ c o', l_objs s' !! c = Some o' →
  (∃ o, l_objs s !! c = Some o ∧ c_rAddr o' = c_rAddr o) ∨
  (∃ pk, l_pcRead s = R_new pk (c_rAddr o')).
Proof.
  intros E. step_cases E; simpl; intros c' o' Ho'; try solve [left; eauto].
  all: first
    [ apply alter_lookup_inv in Ho' as [(-> & o1 & H1' & ->)|[Hne Ho']]
    | apply lookup_snoc_Some in Ho' as [[? Ho']|[-> <-]] ]; simpl in *; eauto.
Qed.

Lemma rAddr_kept s s' l ob c o :
  step l s = Next s' ob → l_objs s !! c = Some o →
  ∃ o', l_objs s' !! c = Some o' ∧ c_rAddr o' = c_rAddr o.
Proof.
  intros E Ho. step_cases E; simpl; eauto;
    try (exists o; split; [by apply lookup_app_l_Some|done]);
    (apply (alter_lookup_ex _ _ _ _ (λ o', c_rAddr o' = c_rAddr o)); [by eauto|]; done).
Qed.

Lemma addr_inv_step s s' l ob : addr_inv s → label_ok l → step l s = Next s' ob → addr_inv s'.
Proof.
  intros [Ho Hr] Hl E. constructor.
  - intros c o' Ho' Hn. destruct (rAddr_origin _ _ _ _ E c o' Ho') as [(o & Hc & Ha)|[pk Hpk]].
    + apply (Ho c o Hc). congruence.
    + apply Hr. rewrite Hpk. simpl. by rewrite Hn.
  - clear Ho. step_cases E; simpl in *; try done; try (by case_match); try (by intros [= ->]).
Qed.

Lemma reach_sent_inv pool bufs s : reach_sent pool bufs s → reach cfg pool bufs s ∧ addr_inv s.
Proof.
  induction 1 as [|s s' l ob _ [R A] Hl E].
  - split; [constructor|by constructor].
  - split; [by econstructor|by eapply addr_inv_step].
Qed.

(** ** Panics *)

Lemma crash_step_read s ev why : inv s → step_read cfg ev s ≠ Crash why.
Proof.
  intros I E. unfold step_read in E. destruct (l_pcRead s) eqn:Epc.
  - destruct (pool_get _ _ s) as [b s1], (pool_get _ _ s1) as [b' s2]. done.
  - repeat case_match; done.
  - repeat case_match; done.
  - repeat case_match; done.
  - repeat case_match; done.
  - repeat case_match; done.
  - repeat case_match; done.
  - repeat case_match; done.
  - repeat case_match; done.
  - repeat case_match; done.
  - rewrite (i_readDone _ _ I), Epc in E. done.
  - pose proof (i_rwg _ _ I) as Hv. rewrite Epc in Hv. simpl in Hv.
    destruct (wg_Done_spec (l_readWG s)) as (g & Eg & _); [lia|]. by rewrite Eg in E.
  - done.
Qed.

Lemma crash_step_close s why : inv s → addr_inv s → step_close s ≠ Crash why.
Proof.
  intros I A E. unfold step_close in E. destruct (l_pcClose s) eqn:Epc; try done.
  - rewrite (i_doneCh _ _ I), Epc in E. done.
  - by case_match.
  - destruct (l_acceptCh s) as [|c rest] eqn:Ech; [done|].
    destruct (i_chan_phase _ _ I c) as (o & Ho & Hph); [rewrite Ech; left|].
    pose proof (i_obj _ _ I _ _ Ho) as J. rewrite Ho, (oi_done _ _ _ _ J), Hph in E. simpl in E.
    pose proof (ai_obj _ A _ _ Ho). by destruct (c_rAddr o).
  - pose proof (i_wg _ _ I) as Hv. rewrite Epc in Hv. simpl in Hv.
    rewrite wg_Add_minus in E by lia. unfold close_counted in E. by repeat case_match.
  - rewrite (i_release _ _ I _ _ Epc) in E.
    destruct (connWG_Release_ok cfg s I) as [g Eg]; [unfold releasers; rewrite Epc; simpl; lia|].
    rewrite Eg in E. unfold close_counted in E. by case_match.
  - destruct (wg_Wait (l_readWG s)); done.
  - destruct (wg_Wake (l_readWG s)) as [r|] eqn:Eg; [|done].
    destruct (wg_Wake_quiet _ _ (i_rwg_q _ _ I) Eg) as (g & -> & _). done.
Qed.

Lemma crash_step_conn s c why : inv s → addr_inv s → step_conn c s ≠ Crash why.
Proof.
  intros I A E. unfold step_conn in E. destruct (l_objs s !! c) as [o|] eqn:Ho; [|done].
  destruct (c_phase o) as [| | | |pc| | |] eqn:Hph; try done.
  pose proof (i_obj _ _ I _ _ Ho) as J.
  destruct pc; simpl in E; unfold goto in E; try done.
  - assert (Hpos : (0 < countb (λ o, counted (c_phase o)) (l_objs s))%nat)
      by (eapply countb_pos; [exact Ho|]; simpl; by rewrite Hph).
    pose proof (i_wg _ _ I) as Hv. rewrite wg_Add_minus in E by lia. by case_match.
  - rewrite (oi_release _ _ _ _ J _ Hph) in E.
    destruct (connWG_Release_ok cfg s I (conn_releaser _ _ _ _ Ho Hph)) as [g Eg]. by rewrite Eg in E.
  - rewrite (oi_done _ _ _ _ J), Hph in E. done.
  - by case_match.
  - pose proof (ai_obj _ A _ _ Ho). by destruct (c_rAddr o).
  - by case_match.
  - destruct (wg_Wait (l_readWG s)); done.
  - destruct (wg_Wake (l_readWG s)) as [r|] eqn:Eg; [|done].
    destruct (wg_Wake_quiet _ _ (i_rwg_q _ _ I) Eg) as (g & -> & _). done.
  - destruct (rq_Close (c_queue o)) as [[? ?] ?]. done.
Qed.

Lemma crash_accept_add s c why :
  inv s → accept_add c s = Crash why →
  why = wg_misuse ∧ l_pcCloser s = G_sleep ∧ releasers s = 1%nat ∧ wg_v (l_connWG s) = 0 ∧
  ∃ o, l_objs s !! c = Some o ∧ c_phase o = PhTaken.
Proof.
  intros I E. unfold accept_add in E. destruct (l_objs s !! c) as [o|] eqn:Ho; [|done].
  case_decide as Hph; [|done].
  pose proof (i_wg _ _ I) as Hv. pose proof (i_wg_w _ _ I) as Hw.
  rewrite wg_Add_one in E by lia.
  destruct (Nat.eqb_spec (wg_w (l_connWG s)) 0), (Z.eqb_spec (wg_v (l_connWG s)) 0); simplify_eq/=.
  destruct (l_pcCloser s); simpl in Hw; split_and!; try lia; eauto.
Qed.

Lemma crash_step_closer s res why :
  inv s → step_closer res s = Crash why →
  why = wg_reused ∧ l_pcCloser s = G_sleep ∧ wg_sema (l_connWG s) = 1%nat ∧ 0 < wg_v (l_connWG s).
Proof.
  intros I E. unfold step_closer in E. pose proof (i_wg_w _ _ I) as Hw.
  pose proof (i_wg _ _ I) as Hv.
  destruct (l_pcCloser s) eqn:Epc; try done.
  - destruct (wg_Wait (l_connWG s)); done.
  - simpl in Hw. unfold wg_Wake in E. destruct (wg_sema (l_connWG s)) eqn:Es; [done|].
    destruct (Z.eqb_spec (wg_v (l_connWG s)) 0), (Nat.eqb_spec (wg_w (l_connWG s)) 0);
      simplify_eq/=; split_and!; lia || done.
  - pose proof (i_rwg _ _ I) as Hr. rewrite Epc in Hr. simpl in Hr.
    destruct (wg_Done_spec (l_readWG s)) as (g & Eg & _); [lia|]. by rewrite Eg in E.
Qed.

(** The two panics of a wait group that is counted up again while its sleeper
    is being released: in the sleeper, or in the [Accept] that counts. *)
Definition reuse_panic s (l : label) (why : string) : Prop :=
  why = wg_reused ∧ (∃ res, l = L_closer res) ∧
  wg_sema (l_connWG s) = 1%nat ∧ 0 < wg_v (l_connWG s).
Definition misuse_panic s (l : label) (why : string) : Prop :=
  why = wg_misuse ∧ releasers s = 1%nat ∧ wg_v (l_connWG s) = 0 ∧
  ∃ c o, l = L_acceptAdd c ∧ l_objs s !! c = Some o ∧ c_phase o = PhTaken.

Lemma step_crash s l why :
  inv s → addr_inv s → step l s = Crash why →
  l_pcCloser s = G_sleep ∧ (reuse_panic s l why ∨ misuse_panic s l why).
Proof.
  intros I A E. destruct l; simpl in E.
  - by apply crash_step_read in E.
  - apply crash_step_closer in E as (? & ? & ? & ?); [|done]. split; [done|]. left. by split_and!; eauto.
  - unfold call_close in E. by case_match.
  - by apply crash_step_close in E.
  - unfold call_accept in E. by case_match.
  - unfold accept_conn in E. by repeat case_match.
  - apply crash_accept_add in E as (? & ? & ? & ? & o & ? & ?); [|done]. split; [done|].
    right. by split_and!; eauto 6.
  - unfold accept_err in E. by repeat case_match.
  - unfold accept_err in E. by repeat case_match.
  - unfold accept_err in E. by repeat case_match.
  - done.
  - unfold call_connClose in E. by repeat case_match.
  - by apply crash_step_conn in E.
  - unfold Conn_Read in E. by repeat case_match.
  - unfold Conn_deadline in E. by repeat case_match.
Qed.

(** The closing goroutine is released, or passes its wait, only after [Close]
    has given up the listener's unit. *)
Definition passed s : Prop :=
  l_pcCloser s = G_close ∨ l_pcCloser s = G_done ∨ l_pcCloser s = G_end ∨
  wg_sema (l_connWG s) = 1%nat.

Lemma connWG_zero_past s : inv s → wg_v (l_connWG s) = 0 → past_wgDone (l_pcClose s) = true.
Proof. intros I Hz. rewrite (i_wg _ _ I) in Hz. destruct (past_wgDone _); [done|simpl in Hz; lia]. Qed.

Lemma past_wgDone_mono s s' l ob :
  step l s = Next s' ob → past_wgDone (l_pcClose s) = true → past_wgDone (l_pcClose s') = true.
Proof.
  intros E. step_cases E; simpl; intros Hp; try done; try by case_match.
  all: match goal with H : l_pcClose _ = _ |- _ => by rewrite H in * end.
Qed.

(** Where a released or passing sleeper comes from. *)
Lemma passed_origin s s' l ob :
  inv s → step l s = Next s' ob → passed s' → passed s ∨ wg_v (l_connWG s) = 0.
Proof.
  intros I E. unfold passed. pose proof (i_wg _ _ I) as Hv.
  step_cases E; simpl; try tauto;
    try match goal with
    | H : wg_Add (-1) _ = Ret _ |- _ =>
        rewrite wg_Add_minus in H by (eapply wg_Add_minus_pos; [|exact H]; lia); simplify_eq/=
    | H : wg_Add 1 _ = Ret _ |- _ =>
        rewrite wg_Add_one in H by lia; destruct (negb _ && _); simplify_eq/=
    | H : wg_Release _ _ = Ret _ |- _ =>
        unfold wg_Release in H; destruct (Z.eqb_spec (wg_v (l_connWG s)) 0); simplify_eq/=
    | H : wg_Wait _ = _ |- _ =>
        unfold wg_Wait in H; destruct (Z.eqb_spec (wg_v (l_connWG s)) 0); simplify_eq/=
    | H : wg_Wake _ = _ |- _ =>
        unfold wg_Wake in H; repeat case_match; simplify_eq/=
    end; try tauto; try (intros; right; lia).
  intros [|[|[]]]; by auto.
Qed.

Lemma reach_passed pool bufs s :
  reach cfg pool bufs s → passed s → past_wgDone (l_pcClose s) = true.
Proof.
  induction 1 as [|s s' l ob R IH E]; [intros [|[|[]]]; done|].
  intros Hp. eapply past_wgDone_mono; [done|]. pose proof (reach_inv _ _ _ _ R) as I.
  destruct (passed_origin _ _ _ _ I E Hp); [by apply IH|by apply connWG_zero_past].
Qed.

(** C6: the only panics of the super-connection.  Take a schedule in which
    every packet comes with a sender.  Whatever step panics, [Close] has given up
    the listener's unit of [connWG] and the closing goroutine sleeps on that
    group; and the step is either the closing goroutine waking to a group that an
    [Accept] has counted up again (Go's reuse panic), or an [Accept] that has
    received a connection and counts it in between the moment a [Done] has
    brought the counter to zero and the moment it releases the sleeper (Go's
    misuse panic).  No channel is closed twice, no counter goes negative, no nil
    address is dereferenced. *)
Theorem only_panics_are_misuse pool bufs s l why :
  reach_sent pool bufs s → step l s = Crash why →
  past_wgDone (l_pcClose s) = true ∧ l_pcCloser s = G_sleep ∧
  (reuse_panic s l why ∨ misuse_panic s l why).
Proof.
  intros [R A]%reach_sent_inv E. pose proof (reach_inv _ _ _ _ R) as I.
  destruct (step_crash _ _ _ I A E) as [Hs Hp]. split_and!; [|done..].
  destruct Hp as [(_ & _ & Hsm & _)|(_ & _ & Hz & _)].
  - apply (reach_passed _ _ _ R). by right; right; right.
  - by apply connWG_zero_past.
Qed.

(** ** Orderly shutdown

    The race needs an [Accept] that has received a connection and not yet
    counted it when [Close] gives up its unit of [connWG].  Schedules without
    that overlap are [calm]. *)

Definition calm (l : label) s : Prop :=
  l = L_close → (∃ n, l_pcClose s = C_wgDone n) →
  ∀ c o, l_objs s !! c = Some o → c_phase o ≠ PhTaken.

Inductive reach_calm (pool : P) (bufs : gmap nat (list Z)) : Sup Q P → Prop :=
| calm_init : reach_calm pool bufs (wrapConn pool bufs)
| calm_next s s' l ob :
    reach_calm pool bufs s → label_ok l → calm l s → step l s = Next s' ob →
    reach_calm pool bufs s'.

Lemma reach_calm_sent pool bufs s : reach_calm pool bufs s → reach_sent pool bufs s.
Proof. induction 1; [constructor|econstructor; eauto]. Qed.

(** Where a connection in the hands of an [Accept] comes from. *)
Lemma taken_origin s s' l ob :
  step l s = Next s' ob → ∀ c o', l_objs s' !! c = Some o' → c_phase o' = PhTaken →
  (∃ o, l_objs s !! c = Some o ∧ c_phase o = PhTaken) ∨ c ∈ l_acceptCh s ∨
  sending (l_pcRead s) = Some c.
Proof.
  intros E. step_cases E; simpl; intros c' o' Ho' Hph; try solve [left; eauto].
  all: first
    [ apply alter_lookup_inv in Ho' as [(-> & o1 & H1' & ->)|[Hne Ho']]
    | apply lookup_snoc_Some in Ho' as [[? Ho']|[-> <-]] ]; simpl in *;
    try done; try solve [left; eauto]; try (right; left; by left); try (right; by right).
Qed.

(** Once [Close] has given up its unit, no connection is in the hands of an
    [Accept], and the closing goroutine passes only at count zero. *)
Record calm_inv s : Prop := {
  ci_taken : past_wgDone (l_pcClose s) = true →
             ∀ c o, l_objs s !! c = Some o → c_phase o ≠ PhTaken;
  ci_zero : passed s → wg_v (l_connWG s) = 0
}.

Lemma past_wgDone_step s s' l ob :
  step l s = Next s' ob → past_wgDone (l_pcClose s') = true →
  past_wgDone (l_pcClose s) = true ∨ (l = L_close ∧ ∃ n, l_pcClose s = C_wgDone n).
Proof.
  intros E. step_cases E; simpl; intros Hp; eauto; try done;
    match goal with H : l_pcClose _ = _ |- _ => rewrite ?H in Hp; rewrite ?H end; eauto; done.
Qed.

Lemma calm_taken_step s s' l ob :
  inv s → calm_inv s → calm l s → step l s = Next s' ob →
  past_wgDone (l_pcClose s') = true → ∀ c o, l_objs s' !! c = Some o → c_phase o ≠ PhTaken.
Proof.
  intros I CI Hcalm E Hp c o' Ho' Hph.
  assert (past_lock (l_pcClose s) = true ∧ past_drain (l_pcClose s) = true ∧
    ∀ c o, l_objs s !! c = Some o → c_phase o ≠ PhTaken) as (Hpl & Hpd & Hnt).
  { destruct (past_wgDone_step _ _ _ _ E Hp) as [Hp0|[-> [n Hn]]].
    - split_and!; [by destruct (l_pcClose s)..|]. by apply CI.
    - rewrite Hn. split_and!; [done..|]. apply Hcalm; eauto. }
  destruct (taken_origin _ _ _ _ E c o' Ho' Hph) as [(o & Ho & ?)|[Hin|Hs]].
  - by eapply Hnt.
  - rewrite (i_drained _ _ I Hpd) in Hin. by apply not_elem_of_nil in Hin.
  - rewrite (i_admit _ _ I) in Hpl; [done|]. by destruct (l_pcRead s).
Qed.

Lemma calm_zero_step s s' l ob :
  inv s → calm_inv s → step l s = Next s' ob → passed s' → wg_v (l_connWG s') = 0.
Proof.
  intros I CI E Hp. pose proof (i_wg _ _ I) as Hv.
  assert (Hz : wg_v (l_connWG s) = 0)
    by (destruct (passed_origin _ _ _ _ I E Hp); [by apply CI|done]).
  assert (Hnt : ∀ c o, l_objs s !! c = Some o → c_phase o ≠ PhTaken)
    by (by apply (ci_taken _ CI), connWG_zero_past).
  clear Hp. step_cases E; simpl; try done;
    try match goal with
    | H : wg_Add (-1) _ = Ret _ |- _ =>
        assert (0 < wg_v (l_connWG s)) by (eapply wg_Add_minus_pos; [|exact H]; lia); lia
    | H : wg_Release _ _ = Ret _ |- _ =>
        unfold wg_Release in H; destruct (_ && _); by simplify_eq/=
    | H : wg_Wait _ = _ |- _ => unfold wg_Wait in H; rewrite Hz in H; by simplify_eq/=
    | H : wg_Wake _ = _ |- _ => unfold wg_Wake in H; repeat case_match; by simplify_eq/=
    end.
  by destruct (Hnt c s0).
Qed.

Lemma reach_calm_inv pool bufs s : reach_calm pool bufs s → inv s ∧ calm_inv s.
Proof.
  induction 1 as [|s s' l ob _ [I CI] Hl Hc E].
  - split; [apply wrapConn_inv|]. constructor; simpl; [done|]. intros [|[|[]]]; done.
  - split; [by eapply step_inv|]. constructor.
    + by eapply calm_taken_step.
    + by eapply calm_zero_step.
Qed.

(** C13: orderly shutdown never panics.  If every packet comes with a sender
    and no [Accept] sits between its channel
    receive and its [connWG.Add] at the moment [Close] gives up the listener's
    unit, no interleaving of the read loop, the closing goroutine, [Close],
    [Accept], [Conn.Close] and [Conn.Read] panics. *)
Theorem calm_never_panics pool bufs s l why :
  reach_calm pool bufs s → step l s ≠ Crash why.
Proof.
  intros R E. pose proof (reach_sent_inv _ _ _ (reach_calm_sent _ _ _ R)) as [_ A].
  destruct (reach_calm_inv _ _ _ R) as [I CI].
  destruct (step_crash _ _ _ I A E) as [_ [(_ & _ & Hs & Hv)|(_ & _ & Hz & c & o & _ & Ho & Hph)]].
  - pose proof (ci_zero _ CI) as Hz. unfold passed in Hz. lia.
  - by eapply (ci_taken _ CI (connWG_zero_past s I Hz)).
Qed.

(** C7: the socket is closed last.  Take a schedule in which every packet comes
    with a sender and no [Accept] sits between its channel receive and its
    [connWG.Add] when [Close] gives up the listener's unit.  Once the closing
    goroutine has passed its wait, [Close] of the super-connection has been
    called and has emptied the accept queue, and every sub-connection ever
    created is discarded or past the [Done] of its [Close]: none is queued,
    handed out or open. *)
Theorem socket_closed_last pool bufs s :
  reach_calm pool bufs s →
  l_pcCloser s = G_close ∨ l_pcCloser s = G_done ∨ l_pcCloser s = G_end →
  past_wgDone (l_pcClose s) = true ∧ l_accepting s = false ∧ l_acceptCh s = [] ∧
  ∀ c o, l_objs s !! c = Some o →
    match c_phase o with
    | PhClosing (K_wgDone | K_wgRelease _) | PhNew | PhQueued | PhTaken | PhOpen => False
    | _ => True
    end.
Proof.
  intros [I CI]%reach_calm_inv Hc.
  pose proof (i_wg _ _ I) as Hv. rewrite (ci_zero _ CI) in Hv by (unfold passed; tauto).
  assert (Hp : past_wgDone (l_pcClose s) = true)
    by (destruct (past_wgDone (l_pcClose s)); [done|simpl in Hv; lia]).
  assert (Hd : past_drain (l_pcClose s) = true) by (by destruct (l_pcClose s)).
  assert (Hr : releasers s = 0%nat)
    by (pose proof (i_wg_w _ _ I) as Hw; destruct (l_pcCloser s); naive_solver).
  split_and!; [done| |by apply (i_drained _ _ I)|].
  - rewrite (i_accepting _ _ I). by destruct (l_pcClose s).
  - intros c o Ho. pose proof (i_obj _ _ I c o Ho) as J.
    assert (Hz : counted (c_phase o) = false)
      by (eapply (proj1 (countb_zero (λ o, counted (c_phase o)) (l_objs s))); [lia|done]).
    assert (Hsend : c_phase o ≠ PhNew).
    { intros E%(oi_new _ _ _ _ J). pose proof (i_admit _ _ I) as Ha.
      destruct (l_pcRead s); try done. specialize (Ha eq_refl). by destruct (l_pcClose s). }
    pose proof (ci_taken _ CI Hp c o Ho).
    pose proof (oi_chan _ _ _ _ J) as Hch. rewrite (i_drained _ _ I Hd) in Hch.
    destruct (c_phase o) as [| | | |[]| | |] eqn:Hph; try done.
    + by eapply not_elem_of_nil, Hch.
    + pose proof (conn_releaser _ _ _ _ Ho Hph). lia.
Qed.

End props.
