(* ===== verification/SupConnLive.v ===== *)
(** * What [Close] waits for, and the error it reports

    Invariants of the end of a super-connection: the table of a [Close] that
    waits is empty, the error is loaded only when both goroutines have ended,
    and it is what the one close of the socket returned. *)

From S2P Require Import Prelude GoLib Types Interfaces SupConn SupConnInv SupConnProps.

(** [Close] has seen an empty table. *)
Definition zero_path (pc : ClosePC) : bool :=
  match pc with
  | C_unlock 0 | C_wgDone 0 | C_wgRelease 0 _ | C_wait | C_sleep | C_loadErr => true
  | _ => false
  end.

(** [pConn.Close] has not been called. *)
Definition before_close (pc : CloserPC) : bool :=
  match pc with G_wait | G_sleep | G_close => true | _ => false end.

Section live.
Context {Q P : Type} `{!RingQueue Q receivedPacket} `{!BufferPool (list Z) P}.
Variable cfg : config.
Implicit Types (s : Sup Q P) (o : SubConn Q) (c : nat).
#[local] Abbreviation inv := (inv cfg).
#[local] Abbreviation key := (key cfg).
#[local] Abbreviation step := (step cfg).

Definition loading (ph : Phase) : bool :=
  match ph with PhClosing K_loadErr => true | _ => false end.

Record zero_inv s : Prop := {
  zi_empty : zero_path (l_pcClose s) = true → l_conns s = ∅;
  zi_close : l_pcClose s = C_loadErr → wg_v (l_readWG s) = 0;
  zi_conn : ∀ c o, l_objs s !! c = Some o → loading (c_phase o) = true → wg_v (l_readWG s) = 0;
  zi_err : before_close (l_pcCloser s) = true → l_errClose s = None
}.

Lemma zero_past_lock pc : zero_path pc = true → past_lock pc = true.
Proof. by destruct pc as [| | | | |[]|[]|[]| | | |]. Qed.

Lemma zero_empty_step s s' l ob :
  inv s → zero_inv s → step l s = Next s' ob →
  zero_path (l_pcClose s') = true → l_conns s' = ∅.
Proof.
  intros I ZI E. pose proof (zi_empty _ ZI) as Hz.
  step_cases E; simpl; try exact Hz; try done;
    try match goal with H : l_pcClose _ = _ |- _ => rewrite ?H in Hz end; simpl in Hz;
    try (intros Hp; rewrite Hz by done; done).
  - (* the read loop cannot insert any more *)
    intros Hp%zero_past_lock. rewrite (i_admit _ _ I) in Hp; [done|]. by rewrite H.
  - apply ZI.
  - case_match eqn:Es; [|done]. intros _. by apply map_size_empty_iff.
  - intros Hp. rewrite H in Hp. done.
  - intros _; apply Hz; match goal with H : (_ =? 0)%nat = true |- _ => apply Nat.eqb_eq in H; by subst end.
  - intros _; apply Hz; match goal with H : (_ =? 0)%nat = true |- _ => apply Nat.eqb_eq in H; by subst end.
Qed.

Lemma readWG_zero_step s s' l ob :
  inv s → inv s' → step l s = Next s' ob → wg_v (l_readWG s) = 0 → wg_v (l_readWG s') = 0.
Proof.
  intros I I' E Hv. rewrite (i_rwg _ _ I) in Hv. rewrite (i_rwg _ _ I').
  assert (Hr : l_pcRead s = R_end) by (destruct (l_pcRead s); simpl in *; lia || done).
  assert (Hc : l_pcCloser s = G_end)
    by (destruct (l_pcCloser s); simpl in *; destruct (read_live (l_pcRead s)); simpl in *; lia || done).
  enough (l_pcRead s' = R_end ∧ l_pcCloser s' = G_end) as [-> ->] by done.
  clear I I' Hv. step_cases E; simpl; congruence || done.
Qed.

Lemma loading_step s s' l ob :
  inv s → step l s = Next s' ob →
  ∀ c o', l_objs s' !! c = Some o' → loading (c_phase o') = true →
  (∃ o, l_objs s !! c = Some o ∧ loading (c_phase o) = true) ∨ wg_v (l_readWG s) = 0.
Proof.
  intros I E. step_cases E; simpl; intros c' o' Ho' Hph; try solve [left; eauto].
  all: first
    [ apply alter_lookup_inv in Ho' as [(-> & o1 & H1' & ->)|[Hne Ho']]
    | apply lookup_snoc_Some in Ho' as [[? Ho']|[-> <-]] ]; simpl in *;
    try done; try solve [left; eauto].
  - right. unfold wg_Wait in *. destruct (Z.eqb_spec (wg_v (l_readWG s)) 0); by simplify_eq.
  - right. destruct (wg_Wake_quiet _ _ (i_rwg_q _ _ I) ltac:(eassumption)) as (g & Eg & ?).
    simplify_eq. tauto.
Qed.

Lemma zero_inv_step s s' l ob :
  inv s → zero_inv s → step l s = Next s' ob → zero_inv s'.
Proof.
  intros I ZI E. pose proof (step_inv _ _ _ _ _ I E) as I'.
  assert (Hrw := readWG_zero_step _ _ _ _ I I' E). constructor.
  - exact (zero_empty_step _ _ _ _ I ZI E).
  - intros Hpc. apply Hrw. destruct (decide (l_pcClose s = C_loadErr)) as [H|Hne]; [by apply ZI|].
    clear I' Hrw. revert Hpc. step_cases E; simpl in *; intros Hpc; try congruence.
    + unfold wg_Wait in *. destruct (Z.eqb_spec (wg_v (l_readWG s)) 0); by simplify_eq.
    + destruct (wg_Wake_quiet _ _ (i_rwg_q _ _ I) ltac:(eassumption)) as (g & Eg & ?).
      simplify_eq. tauto.
  - intros c o Ho Hph. apply Hrw.
    destruct (loading_step _ _ _ _ I E c o Ho Hph) as [(o1 & ? & ?)|?]; [|done].
    by apply (zi_conn _ ZI c o1).
  - pose proof (zi_err _ ZI) as He. clear I' Hrw.
    step_cases E; simpl; try exact He; try done; intros _; apply He;
      match goal with H : l_pcCloser _ = _ |- _ => by rewrite H end.
Qed.

Lemma reach_zero_inv pool bufs s : reach cfg pool bufs s → inv s ∧ zero_inv s.
Proof.
  induction 1 as [|s s' l ob _ [I ZI] E].
  - split; [apply wrapConn_inv|]. by constructor.
  - split; [by eapply step_inv|by eapply zero_inv_step].
Qed.

Lemma readWG_zero_ended s :
  inv s → wg_v (l_readWG s) = 0 → l_pcRead s = R_end ∧ l_pcCloser s = G_end.
Proof.
  intros I Hv. rewrite (i_rwg _ _ I) in Hv.
  destruct (l_pcRead s), (l_pcCloser s); simpl in *; lia || done.
Qed.

(** Both goroutines have returned. *)
Definition ended s : Prop := l_pcRead s = R_end ∧ l_pcCloser s = G_end.

Lemma ended_step s s' l ob : step l s = Next s' ob → ended s → ended s'.
Proof. intros E [Hr Hc]. unfold ended. step_cases E; simpl; try done; congruence. Qed.

(** ** The error of the socket

    The log holds what [pConn.Close] returned at each call of the closing
    goroutine. *)

Definition socket_closes (l : label) s : list (option error) :=
  match l, l_pcCloser s with L_closer res, G_close => [res] | _, _ => [] end.

Inductive reach_log (pool : P) (bufs : gmap nat (list Z)) : list (option error) → Sup Q P → Prop :=
| log_init : reach_log pool bufs [] (wrapConn pool bufs)
| log_next s s' l ob log :
    reach_log pool bufs log s → step l s = Next s' ob →
    reach_log pool bufs (log ++ socket_closes l s) s'.

Lemma reach_log_reach pool bufs log s : reach_log pool bufs log s → reach cfg pool bufs s.
Proof. induction 1; [constructor|econstructor; eauto]. Qed.

(** One call, whose result is what [errClose] holds. *)
Definition logged (log : list (option error)) s : Prop :=
  if before_close (l_pcCloser s) then log = [] ∧ l_errClose s = None
  else log = [l_errClose s].

Lemma logged_step s s' l ob log :
  step l s = Next s' ob → logged log s → logged (log ++ socket_closes l s) s'.
Proof.
  intros E. unfold logged, socket_closes.
  assert ((∃ res, l = L_closer res) ∨ ¬ ∃ res, l = L_closer res) as [[res ->]|Hne]
    by (destruct l; first [left; by eexists | right; by intros [? ?]]).
  - simpl in E. unfold step_closer in E.
    destruct (l_pcCloser s) eqn:Epc; repeat (case_match; simplify_eq); simplify_eq/=;
      rewrite ?app_nil_r; try done; intros [-> He]; by rewrite ?He.
  - assert (l_pcCloser s' = l_pcCloser s ∧ l_errClose s' = l_errClose s) as [-> ->]
      by (step_cases E; try done; destruct Hne; eauto).
    destruct l; rewrite ?app_nil_r; try done. by destruct Hne; eauto.
Qed.

(** A non-nil error on its way out is the socket's. *)
Record err_inv (log : list (option error)) s : Prop := {
  ei_log : logged log s;
  ei_close : ∀ e, l_pcClose s = C_returned (Some e) → log = [Some e];
  ei_conn : ∀ c o e, l_objs s !! c = Some o → c_phase o = PhClosing (K_queueClose (Some e)) →
            log = [Some e]
}.

Lemma logged_ended log s : logged log s → ended s → log = [l_errClose s].
Proof. unfold logged. intros H [_ Hc]. by rewrite Hc in H. Qed.

Lemma zero_ended_close s : inv s → zero_inv s → l_pcClose s = C_loadErr → ended s.
Proof. intros I Z H. by apply readWG_zero_ended, (zi_close _ Z). Qed.

Lemma zero_ended_conn s c o :
  inv s → zero_inv s → l_objs s !! c = Some o → c_phase o = PhClosing K_loadErr → ended s.
Proof. intros I Z Ho Hph. apply readWG_zero_ended; [done|]. apply (zi_conn _ Z c o Ho). by rewrite Hph. Qed.

(** Where such an error comes from. *)
Lemma returned_origin s s' l ob e :
  step l s = Next s' ob → l_pcClose s' = C_returned (Some e) →
  l_pcClose s = C_returned (Some e) ∨ (l_pcClose s = C_loadErr ∧ l_errClose s = Some e).
Proof. intros E. step_cases E; simpl; intros; repeat case_match; simplify_eq; auto; left; congruence. Qed.

Lemma queueClose_origin s s' l ob c o' e :
  step l s = Next s' ob → l_objs s' !! c = Some o' → c_phase o' = PhClosing (K_queueClose (Some e)) →
  ∃ o, l_objs s !! c = Some o ∧
       (c_phase o = c_phase o' ∨ (c_phase o = PhClosing K_loadErr ∧ l_errClose s = Some e)).
Proof.
  intros E. step_cases E; simpl; intros Ho' Hph; try solve [eauto].
  all: first
    [ apply alter_lookup_inv in Ho' as [(-> & o1 & H1' & ->)|[Hne Ho']]
    | apply lookup_snoc_Some in Ho' as [[? Ho']|[-> <-]] ]; simpl in *; simplify_eq; try solve [eauto].
Qed.

Lemma closes_once s s' l ob log :
  step l s = Next s' ob → logged log s → log ≠ [] → log ++ socket_closes l s = log.
Proof.
  intros E Hl Hne. unfold socket_closes. destruct l; rewrite ?app_nil_r; try done.
  unfold logged in Hl. destruct (l_pcCloser s) eqn:Epc; rewrite ?app_nil_r; try done. by destruct Hl.
Qed.

Lemma err_inv_step s s' l ob log :
  inv s → zero_inv s → err_inv log s → step l s = Next s' ob → err_inv (log ++ socket_closes l s) s'.
Proof.
  intros I Z [Hl Hc Hk] E.
  assert (Hend : ended s → ∀ e, l_errClose s = Some e → log = [Some e])
    by (intros He e <-; by apply logged_ended).
  assert (Hmono : ∀ e, log = [Some e] → log ++ socket_closes l s = [Some e])
    by (intros e Hlog; rewrite (closes_once _ _ _ _ _ E Hl); [done|by rewrite Hlog]).
  constructor; [by eapply logged_step| |].
  - intros e He. apply Hmono. destruct (returned_origin _ _ _ _ _ E He) as [?|[Hp ?]]; [by apply Hc|].
    by apply Hend; [apply zero_ended_close|].
  - intros c o e Ho Hph. apply Hmono.
    destruct (queueClose_origin _ _ _ _ _ _ _ E Ho Hph) as (o1 & Ho1 & [Heq|[Hp ?]]).
    + apply (Hk c o1 e Ho1). congruence.
    + by apply Hend; [eapply zero_ended_conn|].
Qed.

Lemma reach_log_inv pool bufs log s : reach_log pool bufs log s → inv s ∧ zero_inv s ∧ err_inv log s.
Proof.
  induction 1 as [|s s' l ob log R (I & Z & EI) E].
  - split_and!; [apply wrapConn_inv|by constructor|]. by constructor.
  - split_and!; [by eapply step_inv|by eapply zero_inv_step|by eapply err_inv_step].
Qed.

(** C14: the error of [Close] is the socket's.  Log what [pConn.Close] returns
    to the closing goroutine.  In every schedule: when
    [supConn.Close] comes to load the error after its wait, both goroutines have
    ended, the socket has been closed exactly once, and [Close] returns exactly
    what that returned; a [Conn.Close] that waited, being the last, goes on to
    close its queue with exactly that error, and if it is not nil returns it;
    and whenever either call holds or has returned a non-nil error from that
    wait, it is the error of the one close of the socket. *)
Theorem close_error_published pool bufs log s :
  reach_log pool bufs log s →
  (l_pcClose s = C_loadErr →
     ended s ∧ ∃ res, log = [res] ∧
     step L_close s = Next (set_pcClose (C_returned res) s) (ObsClosed res)) ∧
  (∀ e, l_pcClose s = C_returned (Some e) → log = [Some e]) ∧
  (∀ c o, l_objs s !! c = Some o → c_phase o = PhClosing K_loadErr →
     ended s ∧ ∃ res, log = [res] ∧
     step (L_conn c) s = Next (upd_obj c (set_phase (PhClosing (K_queueClose res))) s) ObsNone) ∧
  (∀ c o e, l_objs s !! c = Some o → c_phase o = PhClosing (K_queueClose (Some e)) →
     log = [Some e] ∧ ∃ s', step (L_conn c) s = Next s' (ObsClosed (Some e))).
Proof.
  intros (I & Z & [Hl Hc Hk])%reach_log_inv. split_and!; [|done|..].
  - intros Hp. pose proof (zero_ended_close s I Z Hp) as He. split; [done|].
    exists (l_errClose s). split; [by apply logged_ended|]. simpl. unfold step_close. by rewrite Hp.
  - intros c o Ho Hph. pose proof (zero_ended_conn s c o I Z Ho Hph) as He. split; [done|].
    exists (l_errClose s). split; [by apply logged_ended|]. simpl. unfold step_conn. by rewrite Ho, Hph.
  - intros c o e Ho Hph. split; [by eapply Hk|]. simpl. unfold step_conn. rewrite Ho, Hph. simpl.
    destruct (rq_Close (c_queue o)) as [[items errBuf] q]. by eexists.
Qed.

End live.
