(* ===== verification/SupConnTerm.v ===== *)
(** * Every schedule of the shutdown ends

    The goroutines that shut a super-connection down take finitely many steps,
    whatever the scheduler does: a measure decreases, and only packets that
    still arrive and further calls of [Conn.Close] raise it.  When they can
    take no more, [supConn.Close] has returned: it is never left waiting. *)

From S2P Require Import Prelude GoLib Types Interfaces SupConn SupConnInv SupConnProps SupConnLive.

(** ** The measure *)

(** Steps left in the read loop once [ReadPacket] fails. *)
Definition read_left (pc : ReadPC) : nat :=
  match pc with
  | R_lock _ _ => 12 | R_lookup _ _ => 11 | R_accepting _ _ => 10 | R_new _ _ => 9
  | R_send _ _ => 8 | R_insert _ _ => 7 | R_unlock _ _ => 6 | R_push _ _ => 5
  | R_get => 4 | R_read _ _ => 3 | R_closeDone => 2 | R_wgDone => 1 | R_end => 0
  end.

Definition closer_left (pc : CloserPC) : nat :=
  match pc with G_wait => 4 | G_sleep => 3 | G_close => 2 | G_done => 1 | G_end => 0 end.

(** Steps left in [supConn.Close], the draining of the queue aside. *)
Definition close_left (pc : ClosePC) : nat :=
  match pc with
  | C_store => 10 | C_closeDone => 9 | C_lock => 8 | C_drain => 7 | C_unlock _ => 6
  | C_wgDone _ => 5 | C_wgRelease _ _ => 4 | C_wait => 3 | C_sleep => 2 | C_loadErr => 1 | C_returned _ => 0 | C_idle => 0
  end.

Definition conn_left (ph : Phase) : nat :=
  match ph with
  | PhClosing K_wgDone => 11 | PhClosing (K_wgRelease _) => 10 | PhClosing K_closeDone => 9 | PhClosing K_lock => 8
  | PhClosing K_delete => 7 | PhClosing (K_unlock _) => 6 | PhClosing (K_check _) => 5
  | PhClosing K_wait => 4 | PhClosing K_sleep => 3 | PhClosing K_loadErr => 2
  | PhClosing (K_queueClose _) => 1
  | _ => 0
  end.

(** [supConn.Close] has been called: its function has not returned, or has. *)
Definition closing (pc : ClosePC) : bool := match pc with C_idle => false | _ => true end.

Section term.
Context {Q P : Type} `{!RingQueue Q receivedPacket} `{!BufferPool (list Z) P}.
Variable cfg : config.
Implicit Types (s : Sup Q P) (o : SubConn Q) (c : nat).
#[local] Abbreviation step := (step cfg).

Definition conns_left (objs : list (SubConn Q)) : nat :=
  sum_list_with (λ o, conn_left (c_phase o)) objs.

(** The read loop may lengthen the accept queue once: its steps count twice. *)
Definition left s : nat :=
  (2 * read_left (l_pcRead s) + closer_left (l_pcCloser s) + close_left (l_pcClose s)
   + length (l_acceptCh s) + conns_left (l_objs s))%nat.

Lemma conns_left_alter (f : SubConn Q → SubConn Q) c (objs : list (SubConn Q)) o :
  objs !! c = Some o →
  (conns_left (alter f c objs) + conn_left (c_phase o) =
   conns_left objs + conn_left (c_phase (f o)))%nat.
Proof.
  revert c. unfold conns_left. induction objs as [|x objs IH]; intros [|c] H; [done..| |].
  - injection H as ->. simpl. lia.
  - change (alter f (S c) (x :: objs)) with (x :: alter f c objs). simpl in *.
    specialize (IH c H). lia.
Qed.

Lemma conns_left_same (f : SubConn Q → SubConn Q) c (objs : list (SubConn Q)) :
  (∀ o, objs !! c = Some o → conn_left (c_phase (f o)) = conn_left (c_phase o)) →
  conns_left (alter f c objs) = conns_left objs.
Proof.
  intros H. destruct (objs !! c) as [o|] eqn:Ho.
  - pose proof (conns_left_alter f c objs o Ho) as E. rewrite (H o) in E by done. lia.
  - f_equal. apply list_eq. intros i. destruct (decide (i = c)) as [->|].
    + by rewrite list_lookup_alter_eq, Ho.
    + by rewrite list_lookup_alter_ne.
Qed.

Lemma conns_left_new objs o : conn_left (c_phase o) = 0%nat → conns_left (objs ++ [o]) = conns_left objs.
Proof. intros H. unfold conns_left. rewrite sum_list_with_app. simpl. rewrite H. lia. Qed.

(** ** Work and disturbances

    [own] labels are steps of the goroutines that shut the connection down: the
    read loop, the closing goroutine, and the functions [Close] that are
    running.  Two things give them more to do: a packet received, and a call of
    [Conn.Close] that starts to run. *)

Definition own (l : label) : nat :=
  match l with L_read _ | L_closer _ | L_close | L_conn _ => 1 | _ => 0 end.

Definition reading (pc : ReadPC) : bool := match pc with R_read _ _ => true | _ => false end.

Definition extra (l : label) s : nat :=
  match l with
  | L_read (EvPacket _ _ _ _) => b2n (reading (l_pcRead s))
  | L_connClose _ => 1
  | _ => 0
  end.

Lemma left_read s s' ev ob :
  inv cfg s → step (L_read ev) s = Next s' ob → (1 + left s' ≤ left s + 20 * extra (L_read ev) s)%nat.
Proof.
  intros I E. pose proof (i_free _ _ I) as Hf. unfold left, extra.
  simpl in E. unfold step_read in E.
  destruct (l_pcRead s) eqn:Epc; repeat (case_match; simplify_eq); simplify_eq;
    repeat match goal with
    | H : pool_get _ _ _ = (_, _) |- _ => apply pool_get_frame in H as (? & ? & ->)
    end; simpl; rewrite ?Epc; simpl; rewrite ?length_app; simpl;
    rewrite ?conns_left_new by done; try lia;
    rewrite conns_left_same; try lia; intros o1 Ho1; simpl; try done;
    destruct Hf as (o2 & Ho2 & Hn & _); simplify_eq; by rewrite Hn.
Qed.

Lemma left_closer s s' res ob : step (L_closer res) s = Next s' ob → (1 + left s' ≤ left s)%nat.
Proof.
  intros E. unfold left. simpl in E. unfold step_closer in E.
  destruct (l_pcCloser s) eqn:Epc; repeat (case_match; simplify_eq); simplify_eq; simpl; rewrite ?Epc; simpl; lia.
Qed.

Lemma left_close s s' ob : inv cfg s → step L_close s = Next s' ob → (1 + left s' ≤ left s)%nat.
Proof.
  intros I E. unfold left. simpl in E. unfold step_close, close_counted in E.
  destruct (l_pcClose s) eqn:Epc; repeat (case_match; simplify_eq); simplify_eq; simpl; rewrite ?Epc; simpl;
    try match goal with H : l_acceptCh _ = _ |- _ => rewrite ?H; simpl end; try lia.
  rewrite conns_left_same; [lia|]. intros o1 Ho1. simpl.
  destruct (i_chan_phase _ _ I n) as (o2 & Ho2 & Hq); [rewrite H; left|]. simplify_eq. by rewrite Hq.
Qed.

Lemma left_conn s s' c ob : step (L_conn c) s = Next s' ob → (1 + left s' ≤ left s)%nat.
Proof.
  intros E. unfold left. simpl in E. unfold step_conn in E.
  destruct (l_objs s !! c) as [o|] eqn:Ho; [|done]. destruct (c_phase o) as [| | | |pc| | |] eqn:Hph; try done.
  unfold step_conn_pc, goto in E.
  destruct pc; repeat (case_match; simplify_eq); simplify_eq;
    try match goal with
    | |- context [foldl (λ s1 pk1, onQueueClose pk1 s1) ?st ?it] =>
        let E := fresh in destruct (onQueueClose_frame it st) as (? & ? & E); rewrite E in *; clear E
    end; simpl;
    (match goal with |- context [conns_left (alter ?f c (l_objs s))] =>
       pose proof (conns_left_alter f c (l_objs s) o Ho) as Hs end);
    rewrite Hph in Hs; simpl in Hs; lia.
Qed.

(** The steps of the users: only a [Conn.Close] that starts adds work. *)
Lemma left_connClose s s' c ob :
  step (L_connClose c) s = Next s' ob → (left s' ≤ left s + 20)%nat.
Proof.
  intros E. simpl in E. unfold call_connClose in E. unfold left.
  repeat (case_match; simplify_eq); simplify_eq; simpl; [|lia].
  pose proof (conns_left_alter (set_phase (PhClosing K_wgDone)) c (l_objs s) _ ltac:(eassumption)) as Hs.
  simpl in Hs. lia.
Qed.

Lemma left_user s s' l ob :
  inv cfg s → closing (l_pcClose s) = true → own l = 0%nat → (∀ c, l ≠ L_connClose c) →
  step l s = Next s' ob → (left s' ≤ left s)%nat.
Proof.
  intros I Hc Hl Hne E. unfold left. step_cases E; simpl in *; try done; try lia;
    try (rewrite conns_left_same; [try match goal with H : l_acceptCh _ = _ |- _ => rewrite ?H; simpl end; lia|];
         intros o1 Ho1; simpl; try done; simplify_eq).
  - match goal with H : l_pcClose _ = _ |- _ => rewrite H; simpl; lia end.
  - destruct (i_chan_phase _ _ I n0) as (o2 & Ho2 & Hq);
      [match goal with H : l_acceptCh _ = _ |- _ => rewrite H; left end|]. simplify_eq. by rewrite Hq.
  - match goal with H : c_phase _ = PhTaken |- _ => by rewrite H end.
  - by destruct (Hne c).
Qed.

(** Every step but the disturbances uses up work. *)
Lemma left_step s s' l ob :
  inv cfg s → closing (l_pcClose s) = true → step l s = Next s' ob →
  (own l + left s' ≤ left s + 20 * extra l s)%nat.
Proof.
  intros I Hc E.
  assert ((∃ c, l = L_connClose c) ∨ ∀ c, l ≠ L_connClose c) as [[c ->]|Hne]
    by (destruct l; first [left; by eexists | by right]).
  { pose proof (left_connClose _ _ _ _ E). simpl. lia. }
  destruct (own l) eqn:Ho; [pose proof (left_user _ _ _ _ I Hc Ho Hne E); lia|].
  destruct l; simplify_eq/=.
  - by eapply left_read.
  - pose proof (left_closer _ _ _ _ E). lia.
  - pose proof (left_close _ _ _ I E). lia.
  - pose proof (left_conn _ _ _ _ E). lia.
Qed.

(** Schedules with [n] steps of the shutdown and [k] disturbances; every other
    step is free. *)
Inductive runs : nat → nat → Sup Q P → Sup Q P → Prop :=
| runs_nil s : runs 0 0 s s
| runs_step l ob n k s s1 s2 :
    step l s = Next s1 ob → runs n k s1 s2 → runs (own l + n) (extra l s + k) s s2.

Lemma runs_inv n k s s' : runs n k s s' → inv cfg s → zero_inv s → inv cfg s' ∧ zero_inv s'.
Proof.
  induction 1 as [|l ob n k s s1 s2 E _ IH]; [done|]. intros I Z.
  apply IH; [by eapply step_inv|by eapply zero_inv_step].
Qed.

Lemma closing_step s s' l ob :
  step l s = Next s' ob → closing (l_pcClose s) = true → closing (l_pcClose s') = true.
Proof.
  intros E. step_cases E; simpl; intros Hc; try done; try by case_match.
  all: match goal with H : l_pcClose _ = _ |- _ => by rewrite H in * end.
Qed.

Lemma runs_bound n k s s' :
  runs n k s s' → inv cfg s → closing (l_pcClose s) = true →
  (n + left s' ≤ left s + 20 * k)%nat ∧ closing (l_pcClose s') = true.
Proof.
  induction 1 as [|l ob n k s s1 s2 E _ IH]; intros I Hc; [split; [lia|done]|].
  pose proof (left_step _ _ _ _ I Hc E).
  destruct IH; [by eapply step_inv|by eapply closing_step|]. split; [lia|done].
Qed.

(** ** No deadlock *)

(** Every goroutine of the shutdown blocks; the read loop may be waiting in
    [ReadPacket], but only while the socket is open. *)
Record quiet s : Prop := {
  q_closer : ∀ res, step (L_closer res) s = Blocked;
  q_close : step L_close s = Blocked;
  q_conn : ∀ c, step (L_conn c) s = Blocked;
  q_read : (reading (l_pcRead s) = true ∧ before_close (l_pcCloser s) = true) ∨
           ∀ ev, step (L_read ev) s = Blocked
}.

(** Blocking points of the read loop. *)
Lemma read_blocked s e :
  inv cfg s → step (L_read (EvError e)) s = Blocked →
  l_pcRead s = R_end ∨ (crit_read (l_pcRead s) = false ∧ l_lock s ≠ None).
Proof.
  intros I E. simpl in E. unfold step_read in E. pose proof (i_conn _ _ I) as Hc.
  destruct (l_pcRead s) eqn:Epc; simpl in *; try (by repeat case_match); auto.
  - right. split; [done|]. by case_match.
  - destruct (Hc c eq_refl) as [o Ho]. by rewrite Ho in E.
  - destruct (Hc c eq_refl) as [o Ho]. rewrite Ho in E. by case_match.
  - pose proof (i_rwg _ _ I) as Hv. rewrite Epc in Hv. simpl in Hv.
    destruct (wg_Done_spec (l_readWG s)) as (g & Eg & _); [lia|]. by rewrite Eg in E.
Qed.

Lemma quiet_lock s : inv cfg s → quiet s → l_lock s = None.
Proof.
  intros I [_ Hcl Hk Hr]. destruct (l_lock s) as [[| |c]|] eqn:El; [exfalso..|done].
  - pose proof (proj2 (i_lock_read _ _ I) El) as Hc.
    destruct Hr as [[Hrd _]|Hr]; [by destruct (l_pcRead s)|].
    destruct (read_blocked s (ErrText "") I (Hr _)) as [He|[He _]]; [by rewrite He in Hc|congruence].
  - pose proof (proj2 (i_lock_close _ _ I) El) as Hc. simpl in Hcl. unfold step_close in Hcl.
    destruct (l_pcClose s) eqn:Epc; try done. destruct (l_acceptCh s) as [|c rest] eqn:Ech; [done|].
    destruct (i_chan_phase _ _ I c) as (o & Ho & Hph); [rewrite Ech; left|].
    rewrite Ho in Hcl. case_match; [done|]. by destruct (c_rAddr o).
  - destruct (i_lock_conn _ _ I c El) as (o & Ho & Hc). specialize (Hk c). simpl in Hk.
    unfold step_conn in Hk. rewrite Ho in Hk.
    destruct (c_phase o) as [| | | |[]| | |]; try done. simpl in Hk. by destruct (c_rAddr o).
Qed.

Lemma quiet_read s : inv cfg s → quiet s → l_pcCloser s = G_end → l_pcRead s = R_end.
Proof.
  intros I HQ Hg. destruct (q_read _ HQ) as [[_ Hb]|Hr]; [by rewrite Hg in Hb|].
  destruct (read_blocked s (ErrText "") I (Hr _)) as [?|[_ Hl]]; [done|].
  by destruct Hl; apply quiet_lock.
Qed.

(** A [Close] that waits has emptied the table: nothing holds a unit of
    [connWG], and nothing is about to take or release one. *)
Lemma wait_no_table s c o :
  inv cfg s → zero_inv s → l_pcClose s = C_sleep → l_objs s !! c = Some o →
  in_table (c_phase o) = false.
Proof.
  intros I Z Hp Ho. destruct (in_table (c_phase o)) eqn:Ht; [|done].
  destruct (oi_table _ _ _ _ (i_obj _ _ I _ _ Ho) Ht) as [H|H].
  - by rewrite (zi_empty _ Z) in H by (by rewrite Hp).
  - pose proof (i_admit _ _ I) as Ha. rewrite Hp in Ha. destruct (l_pcRead s); try done. by specialize (Ha eq_refl).
Qed.

Lemma wait_connWG s :
  inv cfg s → zero_inv s → l_pcClose s = C_sleep → wg_v (l_connWG s) = 0 ∧ releasers s = 0%nat.
Proof.
  intros I Z Hp.
  assert (Hz : ∀ f : Phase → bool, (∀ ph, f ph = true → in_table ph = true) →
    countb (λ o, f (c_phase o)) (l_objs s) = 0%nat).
  { intros f Hf. apply countb_zero. intros c o Ho. pose proof (wait_no_table s c o I Z Hp Ho).
    destruct (f (c_phase o)) eqn:E; [|done]. apply Hf in E. congruence. }
  rewrite (i_wg _ _ I). unfold releasers. rewrite Hp, !Hz; [done|..]; by intros [| | | |[]| | |].
Qed.

Lemma quiet_closer s :
  inv cfg s → zero_inv s → quiet s → l_pcClose s = C_sleep → l_pcCloser s = G_end.
Proof.
  intros I Z HQ Hp. destruct (wait_connWG s I Z Hp) as [Hv Hr].
  pose proof (i_wg_w _ _ I) as Hw. pose proof (i_rwg _ _ I) as Hg.
  pose proof (q_closer _ HQ None) as E. simpl in E. unfold step_closer, wg_Wait, wg_Wake in E.
  destruct (l_pcCloser s) eqn:Epc; simpl in *; try done.
  - by rewrite Hv in E.
  - destruct (wg_sema (l_connWG s)); [lia|]. by destruct ((_ =? 0) && _).
  - destruct (wg_Done_spec (l_readWG s)) as (g & Eg & _); [lia|]. by rewrite Eg in E.
Qed.

Lemma quiet_returned s :
  inv cfg s → zero_inv s → quiet s → closing (l_pcClose s) = true →
  ∃ err, l_pcClose s = C_returned err.
Proof.
  intros I Z HQ Hc. pose proof (q_close _ HQ) as E. pose proof (i_wg _ _ I) as Hv.
  simpl in E. unfold step_close, close_counted in E.
  destruct (l_pcClose s) eqn:Epc; try done; try (by repeat case_match); [..|by eexists].
  - by rewrite (quiet_lock s I HQ) in E.
  - destruct (l_acceptCh s) as [|c rest] eqn:Ech; [done|].
    destruct (i_chan_phase _ _ I c) as (o & Ho & Hph); [rewrite Ech; left|].
    rewrite Ho in E. case_match; [done|]. by destruct (c_rAddr o).
  - simpl in Hv. rewrite wg_Add_minus in E by lia. by repeat case_match.
  - rewrite (i_release _ _ I _ _ Epc) in E.
    destruct (connWG_Release_ok cfg s I) as [g Eg]; [unfold releasers; rewrite Epc; simpl; lia|].
    rewrite Eg in E. by case_match.
  - pose proof (quiet_closer s I Z HQ Epc) as Hg. pose proof (quiet_read s I HQ Hg) as Hr.
    pose proof (i_rwg _ _ I) as Hz. rewrite Hg, Hr in Hz. simpl in Hz.
    pose proof (i_rwg_w _ _ I) as Hi. pose proof (i_rwg_q _ _ I) as Hq. rewrite Epc in Hi. simpl in Hi.
    unfold wg_Wake, wg_quiet, wg_inside in *. destruct (wg_sema (l_readWG s)); [lia|].
    by destruct ((_ =? 0) && _).
Qed.

(** A [Close] that found no connection returns what [errClose] ends up with. *)
Definition zero_result s : Prop :=
  zero_path (l_pcClose s) = true ∨ (l_pcClose s = C_returned (l_errClose s) ∧ ended s).

Lemma zero_result_step s s' l ob :
  inv cfg s → zero_inv s → step l s = Next s' ob → zero_result s → zero_result s'.
Proof.
  intros I Z E [Hz|[Hp He]].
  - destruct (decide (l = L_close)) as [->|Hne].
    + simpl in E. unfold step_close, close_counted in E. unfold zero_result.
      destruct (l_pcClose s) as [| | | | |[]|[]|[]| | | |] eqn:Epc; try done;
        repeat (case_match; simplify_eq/=); simplify_eq/=; auto.
      right. split; [done|]. exact (zero_ended_close cfg s I Z Epc).
    + left. assert (l_pcClose s' = l_pcClose s) as ->; [|done].
      clear I Z. step_cases E; try done.
  - right. pose proof (ended_step _ _ _ _ _ E He) as He'. split; [|done].
    assert (l_pcClose s' = l_pcClose s ∧ l_errClose s' = l_errClose s) as [-> ->]; [|done].
    destruct He as [Hr Hc]. clear I Z He'. step_cases E; try done; congruence.
Qed.

Lemma runs_zero_result n k s s' :
  runs n k s s' → inv cfg s → zero_inv s → zero_result s → zero_result s'.
Proof.
  induction 1 as [|l ob n k s s1 s2 E _ IH]; [done|]. intros I Z Hz.
  apply IH; [by eapply step_inv|by eapply zero_inv_step|by eapply zero_result_step].
Qed.

(** C5: [Close] returns under every scheduler.  From any reachable state in which
    [supConn.Close] has been called, take any schedule with [n] steps of the read loop, the closing goroutine and the
    running functions [Close], [k] packets received or calls of [Conn.Close], and
    any number of other steps of the users.  Then [n] is at most
    [left s + 20 * k]; and if no goroutine of the shutdown can go on, the read
    loop possibly waiting for a packet of a socket that is still open, [Close]
    has returned.  If it had found no connection in the table, both goroutines
    have ended by then and it has returned what [errClose] holds. *)
Theorem close_terminates pool bufs s n k s' :
  reach cfg pool bufs s → closing (l_pcClose s) = true → runs n k s s' →
  (n ≤ left s + 20 * k)%nat ∧
  (quiet s' →
     (∃ err, l_pcClose s' = C_returned err) ∧
     (zero_path (l_pcClose s) = true → ended s' ∧ l_pcClose s' = C_returned (l_errClose s'))).
Proof.
  intros R Hc Hr. destruct (reach_zero_inv _ _ _ _ R) as [I Z].
  destruct (runs_inv _ _ _ _ Hr I Z) as [I' Z']. destruct (runs_bound _ _ _ _ Hr I Hc) as [Hn Hc'].
  split; [lia|]. intros HQ. destruct (quiet_returned s' I' Z' HQ Hc') as [err He]. split; [by exists err|].
  intros Hz. destruct (runs_zero_result _ _ _ _ Hr I Z (or_introl Hz)) as [Hz'|[??]]; [|done].
  by rewrite He in Hz'.
Qed.

End term.
