(* ===== verification/SupConnBufs.v ===== *)
(** * Ownership of the pooled packet buffers

    A packet buffer is owned by the read loop or by one packet of one queue,
    or lies idle in its pool; [Conn.Read] and the close of a queue give
    buffers back.  No interleaving hands a buffer out twice or recycles one
    while a queued packet still refers to it. *)

From S2P Require Import Prelude GoLib Types Interfaces Ownership SupConn SupConnInv SupConnProps.

(** ** Buffers of the super-connection *)

Definition pkt_bufs (pk : receivedPacket) : list nat := [rp_data pk; rp_oob pk].

(** The buffers the read loop holds. *)
Definition pc_bufs (pc : ReadPC) : list nat :=
  match pc with
  | R_read buf oob => [buf; oob]
  | R_lock pk _ | R_lookup pk _ | R_accepting pk _ | R_new pk _
  | R_send pk _ | R_insert pk _ | R_unlock pk _ | R_push pk _ => pkt_bufs pk
  | R_get | R_closeDone | R_wgDone | R_end => []
  end.

(** The bytes of a packet. *)
Definition msg : Type := (list Z * list Z * ECN)%type.

Definition msg_of (t : gmap nat (list Z)) (pk : receivedPacket) : msg :=
  (default [] (t !! rp_data pk), default [] (t !! rp_oob pk), rp_ecn pk).

Definition kv_bufs (kv : string * list receivedPacket) : list nat := concat (pkt_bufs <$> kv.2).
Definition flow_bufs (fl : list (string * list receivedPacket)) : list nat :=
  concat (kv_bufs <$> fl).

(** The bytes of all queued packets. *)
Definition kv_msgs (t : gmap nat (list Z)) (kv : string * list receivedPacket) : string * list msg :=
  (kv.1, msg_of t <$> kv.2).
Definition flow_msgs (t : gmap nat (list Z)) (fl : list (string * list receivedPacket))
    : list (string * list msg) := kv_msgs t <$> fl.

Lemma flow_bufs_insert fl c kv kv' :
  fl !! c = Some kv →
  ∃ rest, flow_bufs fl ≡ₚ kv_bufs kv ++ rest ∧ flow_bufs (<[c := kv']> fl) ≡ₚ kv_bufs kv' ++ rest.
Proof.
  intros H. pose proof (lookup_lt_Some _ _ _ H) as Hlt.
  exists (flow_bufs (take c fl) ++ flow_bufs (drop (S c) fl)). unfold flow_bufs. split.
  - rewrite <- (take_drop_middle fl c kv H) at 1. rewrite fmap_app, concat_app. simpl.
    solve_Permutation.
  - rewrite insert_take_drop, fmap_app, concat_app by done. simpl. solve_Permutation.
Qed.

Lemma flow_bufs_snoc fl k : flow_bufs (fl ++ [(k, [])]) = flow_bufs fl.
Proof. unfold flow_bufs. rewrite fmap_app, concat_app. simpl. by rewrite app_nil_r. Qed.

Lemma kv_bufs_snoc k items pk : kv_bufs (k, items ++ [pk]) ≡ₚ pkt_bufs pk ++ kv_bufs (k, items).
Proof.
  unfold kv_bufs. simpl. rewrite fmap_app, concat_app. simpl. solve_Permutation.
Qed.

(** Packets whose buffers are not written keep their bytes. *)
Lemma msg_of_frame t t' items :
  (∀ j, j ∈ concat (pkt_bufs <$> items) → t' !! j = t !! j) →
  msg_of t' <$> items = msg_of t <$> items.
Proof.
  induction items as [|pk items IH]; simpl; [done|]. intros H. f_equal.
  - unfold msg_of. rewrite !H by set_solver. done.
  - apply IH. set_solver.
Qed.

Lemma flow_msgs_frame t t' fl :
  (∀ j, j ∈ flow_bufs fl → t' !! j = t !! j) →
  flow_msgs t' fl = flow_msgs t fl.
Proof.
  unfold flow_msgs.
  induction fl as [|kv fl IH]; simpl; [done|]. intros H. unfold flow_bufs in H. simpl in H.
  f_equal; [|apply IH; set_solver]. unfold kv_msgs. f_equal. apply msg_of_frame. unfold kv_bufs in H. set_solver.
Qed.
