(* ===== verification/SupConnFlow.v ===== *)
(** * The super-connection refines a packet demultiplexer

    The abstract machine holds at most one received packet and, for every
    connection, the key of its remote and a first-in first-out list of
    packets.  Every step of every goroutine of the super-connection is one
    action of the machine; what [Conn.Read] returns is the packet the machine
    removes. *)

From S2P Require Import Prelude GoLib Types Interfaces Ownership SupConn SupConnInv SupConnProps.
From S2P Require Import SupConnBufs.

(** ** The specification *)

Module Demux.

Record demux : Type := MkDemux {
  d_cur : option (string * msg);
  d_chans : list (string * list msg)
}.

Inductive act :=
| A_tau
| A_recv (k : string) (m : msg)   (* a packet arrives from the remote [k] *)
| A_drop                          (* the packet in hand is dropped *)
| A_open (k : string)             (* a connection for its remote *)
| A_deliver (c : nat)             (* it is appended to a connection of its remote *)
| A_read (c : nat) (m : msg)      (* the oldest packet of a connection is read *)
| A_clear (c : nat).              (* the packets of a connection are discarded *)

Definition dapply (a : act) (d : demux) : option demux :=
  match a with
  | A_tau => Some d
  | A_recv k m =>
    match d_cur d with None => Some (MkDemux (Some (k, m)) (d_chans d)) | Some _ => None end
  | A_drop => match d_cur d with Some _ => Some (MkDemux None (d_chans d)) | None => None end
  | A_open k =>
    match d_cur d with
    | Some (k', _) =>
      if decide (k = k') then Some (MkDemux (d_cur d) (d_chans d ++ [(k, [])])) else None
    | None => None
    end
  | A_deliver c =>
    match d_cur d, d_chans d !! c with
    | Some (k, m), Some (k', ms) =>
      if decide (k = k') then Some (MkDemux None (<[c := (k, ms ++ [m])]> (d_chans d))) else None
    | _, _ => None
    end
  | A_read c m =>
    match d_chans d !! c with
    | Some (k, m' :: ms) =>
      if decide (m = m') then Some (MkDemux (d_cur d) (<[c := (k, ms)]> (d_chans d))) else None
    | _ => None
    end
  | A_clear c =>
    match d_chans d !! c with
    | Some (k, _) => Some (MkDemux (d_cur d) (<[c := (k, [])]> (d_chans d)))
    | None => None
    end
  end.

Fixpoint drun (acts : list act) (d : demux) : option demux :=
  match acts with
  | [] => Some d
  | a :: acts' => match dapply a d with Some d' => drun acts' d' | None => None end
  end.

(** The packets received from a remote, and those read from a connection. *)
Definition recvs (k : string) (acts : list act) : list msg :=
  omap (λ a, match a with A_recv k' m => if decide (k' = k) then Some m else None | _ => None end) acts.
Definition outs (c : nat) (acts : list act) : list msg :=
  omap (λ a, match a with A_read c' m => if decide (c' = c) then Some m else None | _ => None end) acts.

(** The packet in hand, if it comes from [k]. *)
Definition in_hand (k : string) (d : demux) : list msg :=
  match d_cur d with Some (k', m) => if decide (k' = k) then [m] else [] | None => [] end.

Lemma recvs_snoc k acts a : recvs k (acts ++ [a]) = recvs k acts ++ recvs k [a].
Proof. apply omap_app. Qed.
Lemma outs_snoc c acts a : outs c (acts ++ [a]) = outs c acts ++ outs c [a].
Proof. apply omap_app. Qed.

Lemma drun_snoc acts a d d' :
  drun (acts ++ [a]) d = Some d' → ∃ d1, drun acts d = Some d1 ∧ dapply a d1 = Some d'.
Proof.
  revert d. induction acts as [|b acts IH]; intros d; simpl.
  - intros E. exists d. split; [done|]. by case_match.
  - case_match; [apply IH|done].
Qed.

Lemma drun_app_Some acts a d d1 d' :
  drun acts d = Some d1 → dapply a d1 = Some d' → drun (acts ++ [a]) d = Some d'.
Proof.
  revert d. induction acts as [|b acts IH]; intros d; simpl.
  - intros [= ->] ->. done.
  - case_match; [apply IH|done].
Qed.

(** What the machine has read from, holds for and could still deliver to a
    connection are packets of its remote, in order of arrival. *)
Record dem_inv (acts : list act) (d : demux) : Prop := {
  dm_chan : ∀ c k q, d_chans d !! c = Some (k, q) →
            outs c acts ++ q ++ in_hand k d `sublist_of` recvs k acts;
  dm_cur : ∀ k, in_hand k d `sublist_of` recvs k acts;
  dm_none : ∀ c, d_chans d !! c = None → outs c acts = []
}.

Lemma recvs_mono k acts a : recvs k acts `sublist_of` recvs k (acts ++ [a]).
Proof. rewrite recvs_snoc. by apply sublist_inserts_r. Qed.

Lemma outs_none c a : (∀ m, a ≠ A_read c m) → outs c [a] = [].
Proof.
  intros Hne. destruct a; simpl; try done. rewrite decide_False; [done|]. intros ->. by eapply Hne.
Qed.

Lemma outs_other c acts a : (∀ m, a ≠ A_read c m) → outs c (acts ++ [a]) = outs c acts.
Proof.
  intros Hne. rewrite outs_snoc, outs_none by done. apply app_nil_r.
Qed.

(** The packet in hand is kept or dropped. *)
Lemma dem_inv_same acts d a cur :
  dem_inv acts d → (∀ c m, a ≠ A_read c m) →
  (∀ k, in_hand k (MkDemux cur (d_chans d)) `sublist_of` in_hand k d) →
  dem_inv (acts ++ [a]) (MkDemux cur (d_chans d)).
Proof.
  intros [Hch Hcur Hnone] Ha Hh. constructor; simpl.
  - intros c k q Hc. rewrite outs_other by auto. etrans; [|apply recvs_mono].
    etrans; [|by apply Hch]. apply sublist_app; [done|]. by apply sublist_app.
  - intros k. etrans; [apply Hh|]. etrans; [apply Hcur|apply recvs_mono].
  - intros c Hc. rewrite outs_other by auto. auto.
Qed.

(** One connection changes. *)
Lemma dem_inv_insert acts d a cur c k q q' :
  dem_inv acts d → d_chans d !! c = Some (k, q) →
  let d' := MkDemux cur (<[c := (k, q')]> (d_chans d)) in
  (∀ k', in_hand k' d' `sublist_of` in_hand k' d) →
  outs c (acts ++ [a]) ++ q' ++ in_hand k d' `sublist_of` outs c acts ++ q ++ in_hand k d →
  (∀ c' m, c' ≠ c → a ≠ A_read c' m) →
  dem_inv (acts ++ [a]) d'.
Proof.
  intros [Hch Hcur Hnone] Hq d' Hh Hown Ha. pose proof (lookup_lt_Some _ _ _ Hq).
  constructor.
  - intros c' k' q2 Hc. etrans; [|apply recvs_mono]. subst d'. simpl in Hc.
    destruct (decide (c' = c)) as [->|Hne].
    + rewrite list_lookup_insert_eq in Hc by done. simplify_eq. etrans; [exact Hown|]. by apply Hch.
    + rewrite list_lookup_insert_ne in Hc by done. rewrite outs_other by auto.
      etrans; [|by apply Hch]. apply sublist_app; [done|]. by apply sublist_app.
  - intros k'. etrans; [apply Hh|]. etrans; [apply Hcur|apply recvs_mono].
  - intros c' Hc%lookup_ge_None. simpl in Hc. rewrite length_insert in Hc.
    rewrite outs_other by (intros m; apply Ha; lia). by apply Hnone, lookup_ge_None.
Qed.

Lemma dem_inv_recv acts d k m :
  dem_inv acts d → d_cur d = None →
  dem_inv (acts ++ [A_recv k m]) (MkDemux (Some (k, m)) (d_chans d)).
Proof.
  intros [Hch Hcur Hnone] Ec.
  assert (Hin : ∀ k', in_hand k' (MkDemux (Some (k, m)) (d_chans d)) = recvs k' [A_recv k m])
    by (intros k'; unfold in_hand; simpl; by case_decide).
  constructor; simpl.
  - intros c k' q Hc. rewrite outs_other, Hin, recvs_snoc, app_assoc by done.
    apply sublist_app; [|done]. specialize (Hch _ _ _ Hc). unfold in_hand in Hch.
    by rewrite Ec, app_nil_r in Hch.
  - intros k'. rewrite Hin, recvs_snoc. by apply sublist_inserts_l.
  - intros c Hc. rewrite outs_other by done. auto.
Qed.

Lemma dem_inv_open acts d k m :
  dem_inv acts d → d_cur d = Some (k, m) →
  dem_inv (acts ++ [A_open k]) (MkDemux (d_cur d) (d_chans d ++ [(k, [])])).
Proof.
  intros [Hch Hcur Hnone] Ec.
  constructor; simpl.
  - intros c k' q Hc. rewrite outs_other by done. etrans; [|apply recvs_mono].
    apply lookup_snoc_Some in Hc as [[_ Hc]|[-> [= <- <-]]]; [by apply Hch|].
    rewrite Hnone by (apply lookup_ge_None; lia). apply Hcur.
  - intros k'. etrans; [apply Hcur|apply recvs_mono].
  - intros c Hc%lookup_ge_None. rewrite length_app in Hc. simpl in Hc.
    rewrite outs_other by done. apply Hnone, lookup_ge_None. lia.
Qed.

Lemma dem_inv_step acts d a d' :
  dem_inv acts d → dapply a d = Some d' → dem_inv (acts ++ [a]) d'.
Proof.
  intros D E. destruct a as [|k m| |k|c|c m|c]; simpl in E.
  - simplify_eq. destruct d' as [cur ch]. by apply (dem_inv_same acts (MkDemux cur ch)).
  - destruct (d_cur d) eqn:Ec; simplify_eq. by apply dem_inv_recv.
  - destruct (d_cur d) eqn:Ec; simplify_eq. apply dem_inv_same; try done.
    intros k. apply sublist_nil_l.
  - destruct (d_cur d) as [[k' m]|] eqn:Ec; [|done]. case_decide; simplify_eq.
    rewrite <- Ec. by eapply dem_inv_open.
  - destruct (d_cur d) as [[k m]|] eqn:Ec; [|done].
    destruct (d_chans d !! c) as [[k' q]|] eqn:Eq; [|done]. case_decide; simplify_eq.
    eapply dem_inv_insert; try done; [intros k; apply sublist_nil_l|].
    rewrite outs_other by done. unfold in_hand. rewrite Ec, decide_True by done. simpl.
    by rewrite app_nil_r.
  - destruct (d_chans d !! c) as [[k' [|m' q]]|] eqn:Eq; [done| |done]. case_decide; simplify_eq.
    eapply dem_inv_insert; try done; [|congruence].
    rewrite outs_snoc. simpl. rewrite decide_True, <- app_assoc by done. done.
  - destruct (d_chans d !! c) as [[k q]|] eqn:Eq; simplify_eq.
    eapply dem_inv_insert; try done.
    rewrite outs_other by done. apply sublist_app; [done|]. by apply sublist_inserts_l.
Qed.

Lemma dem_inv_run acts d : drun acts (MkDemux None []) = Some d → dem_inv acts d.
Proof.
  revert d. induction acts as [|a acts IH] using rev_ind; intros d E.
  - injection E as <-. by constructor.
  - apply drun_snoc in E as (d1 & E1 & E2). eapply dem_inv_step; eauto.
Qed.

End Demux.
Export Demux.

Section flow.
Context {Q P : Type} `{!RingQueue Q receivedPacket} `{!BufferPool (list Z) P}.
Context `{!RingQueueLaws Q receivedPacket} `{!BufferPoolLaws (list Z) P length}.
Variable cfg : config.
Implicit Types (s : Sup Q P) (o : SubConn Q) (c : nat).
#[local] Abbreviation inv := (inv cfg).
#[local] Abbreviation key := (key cfg).
#[local] Abbreviation step := (step cfg).

(** ** The abstraction function *)

Definition flow_of o : string * list receivedPacket := (key o, rq_items (c_queue o)).
Definition flows s : list (string * list receivedPacket) := flow_of <$> l_objs s.

Definition pc_cur (fl : list (string * list receivedPacket)) (t : gmap nat (list Z)) (pc : ReadPC)
    : option (string * msg) :=
  match pc with
  | R_lock pk a | R_lookup pk a | R_accepting pk a | R_new pk a =>
      Some (rAddrString cfg a, msg_of t pk)
  | R_send pk c | R_insert pk c | R_unlock pk (Some c) | R_push pk c =>
      (λ kv : string * list receivedPacket, (kv.1, msg_of t pk)) <$> fl !! c
  | _ => None
  end.

Definition abs s : demux :=
  MkDemux (pc_cur (flows s) (l_bufs s) (l_pcRead s))
    (flow_msgs (l_bufs s) (flows s)).

Definition all_bufs s : list nat := pc_bufs (l_pcRead s) ++ flow_bufs (flows s).

Definition buf_inv s : Prop := owned (all_bufs s) (l_bufs s) (l_pool s).

(** What a step means to the machine: an annotation of the steps for the
    refinement, which translates no code of its own. *)
Definition read_action (ev : ReadEvent) s : act :=
  match l_pcRead s with
  | R_read _ _ =>
    match ev with EvPacket d od e a => A_recv (rAddrString cfg a) (d, od, e) | EvError _ => A_tau end
  | R_accepting _ _ => if l_accepting s then A_tau else A_drop
  | R_new pk a =>
    if match cfg_acceptFilter cfg with Some f => f (buf_bytes s (rp_data pk)) | None => true end
    then A_open (rAddrString cfg a) else A_drop
  | R_send _ _ =>
    if (length (l_acceptCh s) <? cfg_backlog cfg)%nat
       || ((cfg_backlog cfg =? 0)%nat && (0 <? l_acceptors s)%nat) then A_tau else A_drop
  | R_push pk c =>
    match l_objs s !! c with
    | Some o => match rq_Push pk (c_queue o) with (None, _) => A_deliver c | _ => A_drop end
    | None => A_tau
    end
  | _ => A_tau
  end.

Definition action (l : label) s : act :=
  match l with
  | L_read ev => read_action ev s
  | L_conn c =>
    match l_objs s !! c with
    | Some o => match c_phase o with PhClosing (K_queueClose _) => A_clear c | _ => A_tau end
    | None => A_tau
    end
  | L_connRead c now _ _ =>
    match l_objs s !! c with
    | Some o =>
      match rq_Pop now (c_queue o) with
      | Some (inl pk, _) => A_read c (msg_of (l_bufs s) pk)
      | _ => A_tau
      end
    | None => A_tau
    end
  | _ => A_tau
  end.

(** ** Flows under updates *)

Lemma flow_lookup s c o : l_objs s !! c = Some o → flows s !! c = Some (flow_of o).
Proof. intros H. unfold flows. by rewrite list_lookup_fmap, H. Qed.

Lemma flows_alter_same (f : SubConn Q → SubConn Q) c (objs : list (SubConn Q)) :
  (∀ o, flow_of (f o) = flow_of o) → flow_of <$> alter f c objs = flow_of <$> objs.
Proof.
  intros Hf. apply list_eq. intros i. rewrite !list_lookup_fmap.
  destruct (decide (i = c)) as [->|Hne].
  - rewrite list_lookup_alter_eq. destruct (objs !! c); simpl; by rewrite ?Hf.
  - by rewrite list_lookup_alter_ne.
Qed.

Lemma flows_alter (f : SubConn Q → SubConn Q) c (objs : list (SubConn Q)) o :
  objs !! c = Some o → flow_of <$> alter f c objs = <[c := flow_of (f o)]> (flow_of <$> objs).
Proof.
  intros H. pose proof (lookup_lt_Some _ _ _ H). apply list_eq. intros i.
  rewrite list_lookup_fmap. destruct (decide (i = c)) as [->|Hne].
  - rewrite list_lookup_alter_eq, H. simpl. by rewrite list_lookup_insert_eq by (by rewrite length_fmap).
  - rewrite list_lookup_alter_ne, list_lookup_insert_ne by done. by rewrite list_lookup_fmap.
Qed.

(** A queue changed in other ways than its items. *)
Lemma flows_queue s c o q :
  l_objs s !! c = Some o → rq_items q = rq_items (c_queue o) →
  flows (upd_obj c (set_queue q) s) = flows s.
Proof.
  intros Ho Hq. unfold flows. simpl. apply list_eq. intros i.
  rewrite !list_lookup_fmap. destruct (decide (i = c)) as [->|Hne].
  - rewrite list_lookup_alter_eq, Ho. unfold flow_of. simpl. by rewrite Hq.
  - by rewrite list_lookup_alter_ne.
Qed.

(** Steps that leave packets, queues and buffers alone. *)
Lemma flow_same s s' :
  buf_inv s → flows s' = flows s → l_bufs s' = l_bufs s → l_pool s' = l_pool s →
  l_pcRead s' = l_pcRead s → buf_inv s' ∧ dapply A_tau (abs s) = Some (abs s').
Proof. unfold buf_inv, all_bufs, abs. intros O -> -> -> ->. done. Qed.

(** Steps that move the read loop only. *)
Lemma flow_pc s s' :
  buf_inv s → flows s' = flows s → l_bufs s' = l_bufs s → l_pool s' = l_pool s →
  pc_bufs (l_pcRead s') ⊆+ pc_bufs (l_pcRead s) →
  buf_inv s' ∧ abs s' = MkDemux (pc_cur (flows s) (l_bufs s) (l_pcRead s')) (d_chans (abs s)).
Proof.
  unfold buf_inv, all_bufs, abs. intros O -> -> -> Hpc. split; [|done].
  eapply owned_submseteq; [exact O|]. by apply submseteq_app.
Qed.

(** ** Pools *)

Lemma owned_pool_get p n s b s' L :
  owned L (l_bufs s) (l_pool s) → pool_get p n s = (b, s') →
  owned (b :: L) (l_bufs s') (l_pool s') ∧ ∀ j, j ∈ L → l_bufs s' !! j = l_bufs s !! j.
Proof.
  intros O E. unfold pool_get in E. destruct (pool_Get p (l_bufs s) (l_pool s)) as [[b' t] k] eqn:Eg.
  destruct (owned_Get _ _ _ _ _ _ _ O Eg) as [O1 Hf]. simplify_eq. simpl. case_match; [|done].
  split; [by apply owned_write|]. intros j Hj.
  assert (b ∉ L) by (pose proof (ow_nodup _ _ _ O1) as H'; by inversion H').
  rewrite lookup_insert_ne by congruence. by apply Hf.
Qed.

Lemma owned_pool_put p s b L :
  owned (b :: L) (l_bufs s) (l_pool s) →
  owned L (l_bufs (pool_put p b s)) (l_pool (pool_put p b s)) ∧
  ∀ j, j ∈ L → l_bufs (pool_put p b s) !! j = l_bufs s !! j.
Proof.
  intros O. unfold pool_put. destruct (pool_Put p b (l_bufs s) (l_pool s)) as [t k] eqn:E.
  by eapply owned_Put.
Qed.

Lemma owned_put_pkt s pk L :
  owned (pkt_bufs pk ++ L) (l_bufs s) (l_pool s) →
  owned L (l_bufs (onQueueClose pk s)) (l_pool (onQueueClose pk s)) ∧
  ∀ j, j ∈ L → l_bufs (onQueueClose pk s) !! j = l_bufs s !! j.
Proof.
  intros O. unfold onQueueClose, putBuffers.
  destruct (owned_pool_put bufferPool _ _ _ O) as [O1 F1].
  destruct (owned_pool_put oobBufferPool _ _ _ O1) as [O2 F2]. split; [done|].
  intros j Hj. rewrite F2 by done. apply F1. by right.
Qed.

Lemma owned_queue_close items s L :
  owned (concat (pkt_bufs <$> items) ++ L) (l_bufs s) (l_pool s) →
  let s' := foldl (λ s pk, onQueueClose pk s) s items in
  owned L (l_bufs s') (l_pool s') ∧ ∀ j, j ∈ L → l_bufs s' !! j = l_bufs s !! j.
Proof.
  revert s. induction items as [|pk items IH]; intros s O; [done|]. cbn [foldl].
  assert (O' : owned (pkt_bufs pk ++ (concat (pkt_bufs <$> items) ++ L)) (l_bufs s) (l_pool s)) by done.
  destruct (owned_put_pkt _ _ _ O') as [O1 F1]. destruct (IH _ O1) as [O2 F2].
  split; [done|]. intros j Hj. rewrite F2 by done. apply F1. apply elem_of_app. by right.
Qed.

(** ** The read loop *)

(** The flow facts about a step that ends in [s']. *)
Definition flow_ok (a : act) s s' : Prop := buf_inv s' ∧ dapply a (abs s) = Some (abs s').

Lemma flow_move a s s' :
  buf_inv s → flows s' = flows s → l_bufs s' = l_bufs s → l_pool s' = l_pool s →
  pc_bufs (l_pcRead s') ⊆+ pc_bufs (l_pcRead s) →
  dapply a (abs s) =
    Some (MkDemux (pc_cur (flows s) (l_bufs s) (l_pcRead s')) (d_chans (abs s))) →
  flow_ok a s s'.
Proof.
  intros O Hf Hb Hp Hpc Ha. unfold flow_ok.
  destruct (flow_pc s s' O Hf Hb Hp Hpc) as [O' ->]. by split.
Qed.

Lemma flow_get s s' ob ev :
  buf_inv s → l_pcRead s = R_get → step_read cfg ev s = Next s' ob → flow_ok A_tau s s'.
Proof.
  unfold step_read, flow_ok, buf_inv, abs, all_bufs. intros O Epc E. rewrite Epc in *.
  destruct (pool_get bufferPool receiveMTU s) as [b s1] eqn:E1.
  destruct (pool_get oobBufferPool oobSize s1) as [b' s2] eqn:E2. simplify_eq.
  destruct (owned_pool_get _ _ _ _ _ _ O E1) as [O1 F1].
  destruct (owned_pool_get _ _ _ _ _ _ O1 E2) as [O2 F2]. simpl in *.
  assert (Hfl : flows (set_pcRead (R_read b b') s2) = flows s).
  { apply pool_get_frame in E1 as (? & ? & ->), E2 as (? & ? & ->). done. }
  rewrite Hfl. split.
  - eapply owned_perm; [exact O2|]. simpl. apply perm_swap.
  - f_equal. f_equal. symmetry. apply flow_msgs_frame. intros j Hj.
    rewrite F2 by (by right). by apply F1.
Qed.

Lemma flow_recv s s' ob buf oob d od e a :
  buf_inv s → l_pcRead s = R_read buf oob →
  step_read cfg (EvPacket d od e a) s = Next s' ob →
  flow_ok (A_recv (rAddrString cfg a) (d, od, e)) s s'.
Proof.
  unfold step_read, flow_ok, buf_inv, abs, all_bufs. intros O Epc E. rewrite Epc in *.
  case_match; [|done]. simplify_eq. simpl in *.
  pose proof (ow_nodup _ _ _ O) as Hn. apply NoDup_cons in Hn as [Hb [Ho _]%NoDup_cons].
  split; [by repeat apply owned_write|]. unfold flows. simpl. f_equal. f_equal.
  - unfold msg_of. simpl. rewrite lookup_insert_eq, lookup_insert_ne, lookup_insert_eq by set_solver.
    done.
  - symmetry. apply flow_msgs_frame. intros j Hj. rewrite !lookup_insert_ne; [done|set_solver..].
Qed.

Lemma flow_new s s' ob ev pk a :
  inv s → buf_inv s → l_pcRead s = R_new pk a → step_read cfg ev s = Next s' ob →
  flow_ok (read_action ev s) s s'.
Proof.
  intros I O Epc E. unfold step_read, read_action in *. rewrite Epc in *.
  case_match; [|simplify_eq; apply flow_move; rewrite ?Epc; simpl; done || by rewrite ?Epc].
  assert (Hnew : ∀ ph pc,
    flows (set_pcRead pc (set_objs (l_objs s ++ [newSubConn cfg a ph]) s)) =
    flows s ++ [(rAddrString cfg a, [])]).
  { intros ph pc. unfold flows. simpl. rewrite fmap_app. simpl. unfold flow_of at 2. simpl.
    by rewrite (proj1 (rq_new_items receiveBacklog)). }
  assert (Hlen : length (flows s) = length (l_objs s)) by apply length_fmap.
  unfold flow_ok, buf_inv, abs, all_bufs in *. rewrite Epc in *.
  case_match; simplify_eq; rewrite Hnew, flow_bufs_snoc; simpl; (split; [done|]);
    rewrite decide_True by done; unfold flow_msgs;
    rewrite list_lookup_middle, fmap_app by done; done.
Qed.

Lemma flow_push s s' ob ev pk c :
  inv s → buf_inv s → l_pcRead s = R_push pk c → step_read cfg ev s = Next s' ob →
  flow_ok (read_action ev s) s s'.
Proof.
  intros I O Epc E. unfold step_read, read_action in *. rewrite Epc in *.
  destruct (l_objs s !! c) as [o|] eqn:Ho; [|done].
  destruct (rq_Push pk (c_queue o)) as [err q] eqn:Ep. simplify_eq.
  pose proof (rq_Push_spec _ _ _ _ Ep) as (_ & _ & Hq). pose proof (flow_lookup _ _ _ Ho) as Hl.
  assert (Hfl : flows (set_pcRead R_get (upd_obj c (set_queue q) s)) =
    <[c := (key o, rq_items q)]> (flows s)).
  { unfold flows at 1. simpl. by rewrite (flows_alter _ _ _ _ Ho). }
  unfold flow_ok, buf_inv, all_bufs, abs in *. rewrite Hfl. rewrite Epc in *. simpl in *.
  destruct (flow_bufs_insert (flows s) c _ (key o, rq_items q) Hl) as (rest & H1 & H2).
  rewrite Hl. destruct err; simpl.
  - rewrite Hq in *. split; [|do 2 f_equal; by rewrite list_insert_id].
    eapply owned_submseteq; [exact O|]. rewrite H1, H2. by repeat apply submseteq_cons.
  - split.
    + eapply owned_perm; [exact O|]. rewrite H1, H2, Hq, kv_bufs_snoc. unfold flow_of. simpl. solve_Permutation.
    + unfold flow_msgs. rewrite list_lookup_fmap, Hl. simpl. rewrite decide_True by done.
      rewrite list_fmap_insert. do 3 f_equal. unfold kv_msgs. simpl. rewrite Hq, fmap_app. done.
Qed.

(** A step of the read loop that only moves on, with the packet or without. *)
Ltac flow_here Epc :=
  apply flow_move; unfold abs; simpl; rewrite ?Epc; simpl;
    try done; try apply submseteq_nil_l; try (by apply flows_alter_same).

Lemma flow_send s s' ob ev pk c :
  inv s → buf_inv s → l_pcRead s = R_send pk c → step_read cfg ev s = Next s' ob →
  flow_ok (read_action ev s) s s'.
Proof.
  intros I O Epc E. unfold step_read, read_action in *. rewrite Epc in *.
  pose proof (i_free _ _ I) as Hf. rewrite Epc in Hf. destruct Hf as (o & Ho & _).
  pose proof (flow_lookup _ _ _ Ho) as Hl.
  repeat case_match; simplify_eq; simpl in *; try done; flow_here Epc; by rewrite Hl.
Qed.

Lemma flow_read s s' ob ev :
  inv s → buf_inv s → step_read cfg ev s = Next s' ob → flow_ok (read_action ev s) s s'.
Proof.
  intros I O E. destruct (l_pcRead s) eqn:Epc.
  - unfold read_action. rewrite Epc. by eapply flow_get.
  - unfold read_action. rewrite Epc. destruct ev as [d od e a|e].
    + by eapply flow_recv.
    + unfold step_read in E. rewrite Epc in E. simplify_eq. flow_here Epc.
  - unfold step_read, read_action in *. rewrite Epc in *. case_match; simplify_eq. flow_here Epc.
  - unfold step_read, read_action in *. rewrite Epc in *. case_match eqn:Ec; simplify_eq; flow_here Epc.
    destruct (i_table _ _ I _ _ Ec) as (o & Ho & _ & Hk).
    rewrite (flow_lookup _ _ _ Ho). simpl. by rewrite Hk.
  - unfold step_read, read_action in *. rewrite Epc in *. case_match; simplify_eq; flow_here Epc.
  - by eapply flow_new.
  - by eapply flow_send.
  - unfold step_read, read_action in *. rewrite Epc in *. case_match; simplify_eq. flow_here Epc.
  - unfold step_read, read_action in *. rewrite Epc in *. destruct r; simplify_eq; flow_here Epc.
  - by eapply flow_push.
  - unfold step_read, read_action in *. rewrite Epc in *. case_match; simplify_eq. flow_here Epc.
  - unfold step_read, read_action in *. rewrite Epc in *. case_match; simplify_eq. flow_here Epc.
  - unfold step_read in E. by rewrite Epc in E.
Qed.

(** ** Readers and closers *)

(** Removing buffers of a connection that the read loop does not hold. *)
Lemma abs_frame s t fl :
  (∀ j, j ∈ pc_bufs (l_pcRead s) ++ flow_bufs fl → t !! j = l_bufs s !! j) →
  pc_cur fl t (l_pcRead s) = pc_cur fl (l_bufs s) (l_pcRead s) ∧
  flow_msgs t fl = flow_msgs (l_bufs s) fl.
Proof.
  intros H. split; [|apply flow_msgs_frame; intros j Hj; apply H; set_solver].
  assert (Hm : ∀ pk, pkt_bufs pk ⊆ pc_bufs (l_pcRead s) → msg_of t pk = msg_of (l_bufs s) pk).
  { intros pk Hpk. unfold msg_of. unfold pkt_bufs in Hpk. rewrite !H by set_solver. done. }
  destruct (l_pcRead s); simpl in *; try (by rewrite Hm); try done; try (by rewrite Hm by done);
  try (case_match; [|done]); by rewrite Hm.
Qed.

Lemma pc_cur_insert fl t pc c k items items' :
  fl !! c = Some (k, items) → pc_cur (<[c := (k, items')]> fl) t pc = pc_cur fl t pc.
Proof.
  intros H. pose proof (lookup_lt_Some _ _ _ H).
  assert (Hc : ∀ c' pk, (λ kv : string * list receivedPacket, (kv.1, msg_of t pk)) <$> <[c:=(k, items')]> fl !! c'
    = (λ kv : string * list receivedPacket, (kv.1, msg_of t pk)) <$> fl !! c').
  { intros c' pk. destruct (decide (c' = c)) as [->|Hne].
    - by rewrite list_lookup_insert_eq, H.
    - by rewrite list_lookup_insert_ne. }
  destruct pc; simpl; try done. by case_match.
Qed.

(** A connection loses its first packets, whose buffers go back. *)
Lemma flow_consume s c f o gone rest :
  buf_inv s → l_objs s !! c = Some o →
  flow_of (f o) = (key o, rest) → rq_items (c_queue o) = gone ++ rest →
  let s' := foldl (λ s pk, onQueueClose pk s) (upd_obj c f s) gone in
  buf_inv s' ∧
  abs s' = MkDemux (d_cur (abs s)) (<[c := (key o, msg_of (l_bufs s) <$> rest)]> (d_chans (abs s))) ∧
  d_chans (abs s) !! c = Some (key o, msg_of (l_bufs s) <$> (gone ++ rest)) ∧
  l_pcRead s' = l_pcRead s ∧ ∀ j, j ∈ pc_bufs (l_pcRead s) → l_bufs s' !! j = l_bufs s !! j.
Proof.
  intros O Ho Hf Hitems s'. pose proof (flow_lookup _ _ _ Ho) as Hl.
  set (s1 := upd_obj c f s) in *.
  destruct (flow_bufs_insert (flows s) c _ (key o, rest) Hl) as (others & H1 & H2).
  assert (Hfl : flows s1 = <[c := (key o, rest)]> (flows s))
    by (rewrite <- Hf; exact (flows_alter f c _ _ Ho)).
  assert (O1 : owned (concat (pkt_bufs <$> gone) ++ all_bufs s1) (l_bufs s1) (l_pool s1)).
  { eapply owned_perm; [exact O|]. unfold all_bufs. rewrite Hfl, H1, H2.
    unfold flow_of, kv_bufs. simpl. rewrite Hitems, fmap_app, concat_app. solve_Permutation. }
  destruct (owned_queue_close gone s1 _ O1) as [O2 F2]. subst s'.
  destruct (onQueueClose_frame gone s1) as (t & k & Hs'). rewrite Hs' in *.
  destruct (abs_frame s1 t (flows s1) F2) as [Hc Hm].
  split_and!; [exact O2| | |done|].
  3: { intros j Hj. apply F2. unfold all_bufs. set_solver. }
  - unfold abs at 1. change (flows (set_bufs t (set_pool k s1))) with (flows s1). simpl.
    simpl in Hc. rewrite Hc, Hm, Hfl. f_equal.
    + by eapply pc_cur_insert.
    + unfold flow_msgs. rewrite list_fmap_insert. done.
  - simpl. unfold flow_msgs. rewrite list_lookup_fmap, Hl. simpl. unfold kv_msgs. simpl.
    by rewrite Hitems.
Qed.

Lemma flow_Read s s' c now p oob ob :
  buf_inv s → Conn_Read c now p oob s = Next s' ob →
  flow_ok (action (L_connRead c now p oob) s) s s'.
Proof.
  intros O E. unfold Conn_Read, action, flow_ok in *.
  destruct (l_objs s !! c) as [o|] eqn:Ho; [|done].
  destruct (user_held (c_phase o)); [|done].
  destruct (rq_Pop now (c_queue o)) as [[[pk|err] q]|] eqn:Ep; [| |done];
    pose proof (rq_Pop_spec _ _ _ _ Ep) as (_ & _ & Hq); simplify_eq/=.
  - destruct (flow_consume s c (set_queue q) o [pk] (rq_items q) O Ho eq_refl Hq) as (O' & Ha & Hd & _).
    simpl in O', Ha, Hd. unfold onQueueClose, putBuffers in *. rewrite Hd, Ha, decide_True by done. done.
  - apply flow_same; try done. by eapply flows_queue.
Qed.

Lemma flow_conn s s' c ob :
  buf_inv s → step_conn c s = Next s' ob → flow_ok (action (L_conn c) s) s s'.
Proof.
  intros O E. unfold step_conn, action, flow_ok in *.
  destruct (l_objs s !! c) as [o|] eqn:Ho; [|done].
  destruct (c_phase o) as [| | | |pc| | |] eqn:Hph; try done.
  destruct pc; simpl in E; unfold goto in E;
    try (repeat case_match; simplify_eq; apply flow_same; try done; by apply flows_alter_same).
  destruct (rq_Close (c_queue o)) as [[items errBuf] q] eqn:Ec. simplify_eq.
  pose proof (rq_Close_spec _ _ _ _ Ec) as (-> & Hq & _).
  destruct (flow_consume s c (λ o, set_phase (PhClosed (match err, errBuf with None, Some e => Some e
       | _, _ => err end)) (set_queue q o)) o (rq_items (c_queue o)) []) as (O' & Ha & Hd & _); try done.
  - unfold flow_of. simpl. by rewrite Hq.
  - by rewrite app_nil_r.
  - split; [done|]. cbn [dapply]. rewrite Ha, Hd. done.
Qed.

(** ** The refinement *)

Lemma flow_step s s' l ob :
  inv s → buf_inv s → step l s = Next s' ob → flow_ok (action l s) s s'.
Proof.
  intros I O E. destruct l; simpl in E; try by apply flow_conn with (ob := ob).
  - by eapply flow_read.
  - unfold step_closer in E. repeat case_match; simplify_eq; by apply flow_same.
  - unfold call_close in E. repeat case_match; simplify_eq; by apply flow_same.
  - unfold step_close, close_counted in E. repeat case_match; simplify_eq; apply flow_same; try done.
    by apply flows_alter_same.
  - unfold call_accept in E. repeat case_match; simplify_eq; by apply flow_same.
  - unfold accept_conn in E. repeat case_match; simplify_eq; apply flow_same; try done.
    by apply flows_alter_same.
  - unfold accept_add in E. repeat case_match; simplify_eq; apply flow_same; try done.
    by apply flows_alter_same.
  - unfold accept_err in E. repeat case_match; simplify_eq; by apply flow_same.
  - unfold accept_err in E. repeat case_match; simplify_eq; by apply flow_same.
  - unfold accept_err in E. repeat case_match; simplify_eq; by apply flow_same.
  - simplify_eq. by apply flow_same.
  - unfold call_connClose in E. repeat case_match; simplify_eq; apply flow_same; try done.
    by apply flows_alter_same.
  - by eapply flow_Read.
  - unfold Conn_deadline in E. repeat case_match; simplify_eq. apply flow_same; try done.
    eapply flows_queue; [done|]. by eapply rq_SetPopDeadline_spec.
Qed.

(** The pools [wrapConn] starts with: distinct, and of objects that exist. *)
Definition pool_ready (pool : P) (bufs : gmap nat (list Z)) : Prop :=
  pool_idle bufferPool pool ## pool_idle oobBufferPool pool ∧
  ∀ p b, b ∈ pool_idle p pool → is_Some (bufs !! b).

Lemma reach_buf_inv pool bufs s :
  pool_ready pool bufs → reach cfg pool bufs s → inv s ∧ buf_inv s.
Proof.
  intros [Hd Hi]. induction 1 as [|s s' l ob _ [I O] E].
  - split; [apply wrapConn_inv|]. constructor; simpl; try done.
    + constructor.
    + intros b []%not_elem_of_nil.
    + intros p b Hb. split; [by apply not_elem_of_nil|eauto].
  - split; [by eapply step_inv|]. by eapply flow_step.
Qed.

(** What [Conn.Read] returns for a packet. *)
Definition read_result (p oob : list Z) (m : msg) : ReadResult :=
  let '(data, odata, ecn) := m in
  MkRead (go_copy p data).1 (go_copy oob odata).1 (go_copy p data).2 (go_copy oob odata).2
    ecn None None.

(** An observation agrees with an action. *)
Definition obs_ok (l : label) (ob : obs) (a : act) : Prop :=
  match l, ob with
  | L_connRead c _ p oob, ObsRead r =>
      match rr_err r with
      | None => ∃ m, a = A_read c m ∧ r = read_result p oob m
      | Some _ => a = A_tau
      end
  | L_connRead _ _ _ _, _ => False
  | _, _ => ∀ c m, a ≠ A_read c m
  end.

Lemma step_obs_ok s s' l ob : step l s = Next s' ob → obs_ok l ob (action l s).
Proof.
  intros E. destruct l; simpl in *; try done.
  - intros c m. unfold read_action. by repeat case_match.
  - intros c' m. by repeat case_match.
  - unfold Conn_Read in E. destruct (l_objs s !! c) as [o|]; [|done].
    destruct (user_held (c_phase o)); [|done].
    destruct (rq_Pop now (c_queue o)) as [[[pk|err] q]|]; simplify_eq/=; [|done].
    eexists. split; [done|]. done.
Qed.

(** C3: the super-connection implements the demultiplexer.  In every reachable
    state, every step of every goroutine (read loop, closing goroutine,
    [Close], [Accept], [Conn.Close], [Conn.Read]) is exactly one action of the
    abstract machine on the abstracted state: a packet is received with the
    text of its sender's address, opened a connection, appended to a connection
    with that same text or dropped; [Conn.Read] returns the oldest packet of
    its connection, byte for byte, up to the length of the caller's buffers;
    closing a connection discards what it holds; and no other step changes any
    queued packet, although the buffers are recycled through the pools. *)
Theorem supConn_refines_demux pool bufs s s' l ob :
  pool_ready pool bufs → reach cfg pool bufs s → step l s = Next s' ob →
  dapply (action l s) (abs s) = Some (abs s') ∧ obs_ok l ob (action l s).
Proof.
  intros Hp Hr E. destruct (reach_buf_inv _ _ _ Hp Hr) as [I O]. split.
  - by eapply flow_step.
  - by eapply step_obs_ok.
Qed.

(** Executions, with what each step showed and what it meant. *)
Inductive exec (pool : P) (bufs : gmap nat (list Z)) : list (label * obs * act) → Sup Q P → Prop :=
| exec_nil : exec pool bufs [] (wrapConn pool bufs)
| exec_snoc tr s s' l ob :
    exec pool bufs tr s → step l s = Next s' ob →
    exec pool bufs (tr ++ [(l, ob, action l s)]) s'.

Lemma exec_reach pool bufs tr s : exec pool bufs tr s → reach cfg pool bufs s.
Proof. induction 1; [constructor|by econstructor]. Qed.

Lemma exec_drun pool bufs tr s :
  pool_ready pool bufs → exec pool bufs tr s → drun tr.*2 (MkDemux None []) = Some (abs s).
Proof.
  intros Hp. induction 1 as [|tr s s' l ob Hx IH E]; [done|].
  destruct (reach_buf_inv _ _ _ Hp (exec_reach _ _ _ _ Hx)) as [I O].
  rewrite fmap_app. simpl. eapply drun_app_Some; [done|]. by eapply flow_step.
Qed.

(** The successful reads of a connection, with the caller's buffers. *)
Definition reads (c : nat) (tr : list (label * obs * act)) : list (list Z * list Z * ReadResult) :=
  omap (λ x, match x.1.1, x.1.2 with
             | L_connRead c' _ p oob, ObsRead r =>
                 if decide (c' = c ∧ rr_err r = None) then Some (p, oob, r) else None
             | _, _ => None
             end) tr.

Lemma reads_outs pool bufs c tr s :
  exec pool bufs tr s →
  Forall2 (λ x m, x.2 = read_result x.1.1 x.1.2 m) (reads c tr) (outs c tr.*2).
Proof.
  induction 1 as [|tr s s' l ob Hx IH E]; [constructor|].
  unfold reads. rewrite omap_app, fmap_app. change ([(l, ob, action l s)].*2) with [action l s].
  rewrite outs_snoc. apply Forall2_app; [exact IH|].
  pose proof (step_obs_ok _ _ _ _ E) as Hob.
  destruct l as [| | | | | | | | | | | | |c' now p oob|];
    try (rewrite (outs_none c (action _ s)) by (apply Hob); constructor).
  destruct ob as [| | |r|]; try done. simpl in Hob. destruct (rr_err r) eqn:Er; simpl.
  - rewrite decide_False by (intros []; congruence).
    change (outs c [_]) with (outs c [action (L_connRead c' now p oob) s]).
    simpl action. rewrite Hob. constructor.
  - destruct Hob as (m & Hm & ->). simpl in Hm. rewrite Hm. destruct (decide (c' = c)) as [->|Hne].
    + rewrite decide_True by done. by repeat constructor.
    + rewrite decide_False by tauto. constructor.
Qed.

Lemma exec_in_order pool bufs tr s c o :
  pool_ready pool bufs → exec pool bufs tr s → l_objs s !! c = Some o →
  ∃ ms queued,
    Forall2 (λ x m, x.2 = read_result x.1.1 x.1.2 m) (reads c tr) ms ∧
    queued = msg_of (l_bufs s) <$> rq_items (c_queue o) ∧
    ms ++ queued `sublist_of` recvs (key o) tr.*2.
Proof.
  intros Hp Hx Ho. exists (outs c tr.*2), (msg_of (l_bufs s) <$> rq_items (c_queue o)).
  split_and!; [by eapply reads_outs|done|].
  pose proof (dem_inv_run _ _ (exec_drun _ _ _ _ Hp Hx)) as D.
  etrans; [|eapply (dm_chan _ _ D c)].
  - apply sublist_app; [done|]. by apply sublist_inserts_r.
  - simpl. unfold flow_msgs. rewrite list_lookup_fmap, (flow_lookup _ _ _ Ho). done.
Qed.

(** C4: every connection is a reliable order-preserving view of its remote.
    Over any execution, what the successful [Read]s of a connection returned
    are copies of packets that [ReadPacket] delivered with that connection's
    remote address, each at most once and in the order of their arrival; the
    packets still queued come after them in the same order.  Packets of
    another remote are never seen. *)
Theorem reads_are_in_order pool bufs tr s c o :
  pool_ready pool bufs → exec pool bufs tr s → l_objs s !! c = Some o →
  ∃ ms queued,
    Forall2 (λ x m, x.2 = read_result x.1.1 x.1.2 m) (reads c tr) ms ∧
    queued = msg_of (l_bufs s) <$> rq_items (c_queue o) ∧
    ms ++ queued `sublist_of` recvs (key o) tr.*2.
Proof. apply exec_in_order. Qed.

(** ** No packet is lost without a reason *)

(** The packet the read loop has yet to hand to a connection. *)
Definition held (pc : ReadPC) : option receivedPacket :=
  match pc with
  | R_lock pk _ | R_lookup pk _ | R_accepting pk _ | R_new pk _ | R_send pk _ | R_insert pk _
  | R_unlock pk (Some _) | R_push pk _ => Some pk
  | _ => None
  end.

(** Why a packet may be given up. *)
Inductive drop_reason s (pk : receivedPacket) : Prop :=
| drop_not_accepting a :
    l_pcRead s = R_accepting pk a → past_store (l_pcClose s) = true →
    l_conns s !! rAddrString cfg a = None → drop_reason s pk
| drop_filtered a f :
    l_pcRead s = R_new pk a → cfg_acceptFilter cfg = Some f →
    f (buf_bytes s (rp_data pk)) = false → l_conns s !! rAddrString cfg a = None →
    drop_reason s pk
| drop_backlog c :
    l_pcRead s = R_send pk c → length (l_acceptCh s) = cfg_backlog cfg →
    (cfg_backlog cfg = 0%nat → l_acceptors s = 0%nat) → drop_reason s pk
| drop_queue c o :
    l_pcRead s = R_push pk c → l_objs s !! c = Some o →
    rq_open (c_queue o) = false ∨ (rq_cap (c_queue o) ≤ length (rq_items (c_queue o)))%nat →
    drop_reason s pk.

(** A push appends the packet, or the queue is closed or full. *)
Lemma push_outcome pk (q q' : Q) e :
  rq_Push pk q = (e, q') →
  rq_items q' = rq_items q ++ [pk] ∨
  (rq_open q = false ∨ (rq_cap q ≤ length (rq_items q))%nat).
Proof.
  intros Ep. pose proof (rq_Push_spec _ _ _ _ Ep) as (_ & _ & Hq).
  destruct e as [e|]; [right|by left].
  destruct (rq_open q) eqn:Eo; [right|by left].
  destruct (decide (length (rq_items q) < rq_cap q)%nat) as [Hlt|]; [|lia].
  pose proof (rq_Push_room pk q Eo Hlt) as H. by rewrite Ep in H.
Qed.

Lemma held_step_read s s' ev ob pk :
  inv s → step_read cfg ev s = Next s' ob → held (l_pcRead s) = Some pk →
  held (l_pcRead s') = Some pk ∨
  (∃ c o o', l_pcRead s = R_push pk c ∧ l_objs s !! c = Some o ∧ l_objs s' !! c = Some o' ∧
             rq_items (c_queue o') = rq_items (c_queue o) ++ [pk]) ∨
  drop_reason s pk.
Proof.
  intros I E Hh. unfold step_read in E. pose proof (i_free _ _ I) as Hf.
  destruct (l_pcRead s) eqn:Epc; simplify_eq/=.
  - case_match; simplify_eq/=. by left.
  - case_match; simplify_eq/=; by left.
  - case_match eqn:Ea; simplify_eq/=; [by left|]. right; right. eapply drop_not_accepting; eauto.
    rewrite (i_accepting _ _ I) in Ea. by destruct (past_store _).
  - destruct (cfg_acceptFilter cfg) as [f|] eqn:Ef; [destruct (f _) eqn:Eb|];
      [by case_match; simplify_eq/=; left| |by case_match; simplify_eq/=; left].
    simplify_eq/=. right; right. by eapply drop_filtered.
  - destruct (Nat.ltb_spec (length (l_acceptCh s)) (cfg_backlog cfg)); [simplify_eq/=; by left|].
    case_match eqn:Eb; simplify_eq/=; [by left|]. right; right.
    pose proof (i_chan_len _ _ I). eapply drop_backlog; [done|lia|].
    intros Hz. rewrite Hz in Eb. destruct (l_acceptors s); [done|by simplify_eq/=].
  - case_match; simplify_eq/=. by left.
  - destruct r; simplify_eq/=. by left.
  - destruct (l_objs s !! c) as [o|] eqn:Ho; [|done].
    destruct (rq_Push pk (c_queue o)) as [e q] eqn:Ep. simplify_eq/=. right.
    destruct (push_outcome _ _ _ _ Ep) as [Hq|Hq]; [left|right; by eapply drop_queue].
    exists c, o, (set_queue q o). by rewrite list_lookup_alter_eq, Ho.
Qed.

(** C15: no packet is lost without a reason.  From the moment [ReadPacket] has
    returned a packet (with its sender) until it is in a connection's queue,
    every step of every goroutine leaves it with the read loop, appends it to
    the queue of the connection it is pushed to, or is the read loop giving it
    up for one of four reasons: the super-connection has stopped accepting and the
    sender is unknown; the accept filter refused it; the accept queue is full
    (or unbuffered with no [Accept] waiting); the connection's own queue is
    closed or holds [rq_cap] packets. *)
Theorem drop_has_reason pool bufs s s' l ob pk :
  reach cfg pool bufs s → step l s = Next s' ob → held (l_pcRead s) = Some pk →
  held (l_pcRead s') = Some pk ∨
  (∃ c o o', l_pcRead s = R_push pk c ∧ l_objs s !! c = Some o ∧ l_objs s' !! c = Some o' ∧
             rq_items (c_queue o') = rq_items (c_queue o) ++ [pk]) ∨
  drop_reason s pk ∧ ∃ ev, l = L_read ev.
Proof.
  intros I%reach_inv E Hh.
  assert ((∃ ev, l = L_read ev) ∨ l_pcRead s' = l_pcRead s) as [[ev ->]|Hr].
  { assert ((∃ ev, l = L_read ev) ∨ ∀ ev, l ≠ L_read ev) as [?|Hne]
      by (destruct l; first [left; by eexists | by right]); [by left|right].
    clear I Hh. step_cases E; try done; by edestruct Hne. }
  - destruct (held_step_read _ _ _ _ _ I E Hh) as [?|[?|?]]; eauto.
  - left. by rewrite Hr.
Qed.

End flow.
