(* ===== verification/System.v ===== *)
(** * A super-connection on top of a source of packets

    What the super-connection needs of a raw connection is an interface: a
    read that hands out the packets that arrived, in order, and a close after
    which reads fail.  The composed system runs the super-connection with
    [ReadPacket] and [Close] supplied by such a source; its end-to-end property
    is proved against the interface. *)

From S2P Require Import Prelude GoLib Types Interfaces Ownership BatchReader.
From S2P Require Import SupConn SupConnInv SupConnProps SupConnBufs SupConnFlow.

(** ** The interface *)

(** [ReadPacket] with the caller's two buffers, and [Close]. *)
Class PacketSource (C : Type) : Type := {
  ps_Read : list Z → list Z → C → outcome ReadResult * C;
  ps_Close : C → outcome (option error) * C
}.

(** A successful read of [d] into buffers of the lengths of [b] and [oob]: the
    bytes fit, the rest is cut off, the mark is that of the control bytes
    handed out, and the sender is known. *)
Record read_of (mark : list Z → option ECN) (b oob : list Z) (d : datagram) (r : ReadResult) : Prop := {
  ro_data : take (rr_n r) (rr_b r) = take (length b) d.1.1;
  ro_ctl : take (rr_oobn r) (rr_oob r) = take (length oob) d.1.2;
  ro_mark : mark (take (length oob) d.1.2) = Some (rr_ecn r);
  ro_addr : rr_addr r = d.2;
  ro_sender : d.2 ≠ None;
  ro_err : rr_err r = None
}.

(** [ps_given] are the packets handed out, [ps_arrived] those that arrived; the
    source is live until a read fails, and dead once it is closed. *)
Class PacketSourceLaws (C : Type) `{!PacketSource C} : Type := {
  ps_mark : list Z → option ECN;
  ps_live : C → Prop;
  ps_dead : C → Prop;
  ps_given : C → list datagram;
  ps_arrived : C → list datagram;
  ps_given_arrived c : ps_live c → ps_given c `prefix_of` ps_arrived c;
  ps_Read_live b oob c r c' :
    ps_live c → ps_Read b oob c = (Ret r, c') → rr_err r = None →
    ps_live c' ∧ ∃ d, read_of ps_mark b oob d r ∧ ps_given c' = ps_given c ++ [d];
  ps_Read_dead b oob c r c' :
    ps_dead c → ps_Read b oob c = (Ret r, c') → rr_err r ≠ None;
  ps_Read_arrived b oob c r c' :
    ps_live c ∨ ps_dead c →
    ps_Read b oob c = (Ret r, c') → ps_arrived c `prefix_of` ps_arrived c';
  ps_Close_arrived c e c' : ps_Close c = (Ret e, c') → ps_arrived c `prefix_of` ps_arrived c';
  ps_Close_dead c e c' : ps_live c ∨ ps_dead c → ps_Close c = (Ret e, c') → ps_dead c'
}.

(** ** The composed system *)

Section system.
Context {Q P C : Type} `{!RingQueue Q receivedPacket} `{!BufferPool (list Z) P} `{!PacketSource C}.
Variable cfg : config.
Implicit Types (s : Sup Q P) (c : C).
#[local] Abbreviation step := (step cfg).
#[local] Abbreviation action := (action cfg).

Record Sys : Type := MkSys { sy_sup : Sup Q P; sy_src : C }.

(** What [ReadPacket] returned, as the read loop uses it: [buf.B[:n]] and
    [oobBuf.B[:oobN]]. *)
Definition received (r : ReadResult) : ReadEvent :=
  match rr_err r with
  | Some e => EvError e
  | None => EvPacket (take (rr_n r) (rr_b r)) (take (rr_oobn r) (rr_oob r)) (rr_ecn r) (rr_addr r)
  end.

(** The step a label stands for, with what the source supplies to it. *)
Definition supply (l : label) (y : Sys) : outcome (label * C) :=
  let s := sy_sup y in
  match l, l_pcRead s, l_pcCloser s with
  | L_read _, R_read b ob, _ =>
    match ps_Read (buf_bytes s b) (buf_bytes s ob) (sy_src y) with
    | (Ret r, c') => Ret (L_read (received r), c')
    | (Panic w, _) => Panic w
    | (Exit n, _) => Exit n
    end
  | L_closer _, _, G_close =>
    match ps_Close (sy_src y) with
    | (Ret e, c') => Ret (L_closer e, c')
    | (Panic w, _) => Panic w
    | (Exit n, _) => Exit n
    end
  | _, _, _ => Ret (l, sy_src y)
  end.

(** Executions of the system: the labels, observations and actions are those
    of the super-connection. *)
Inductive sys_exec (c0 : C) (pool : P) (bufs : gmap nat (list Z)) : list (label * obs * act) → Sys → Prop :=
| sx_nil : sys_exec c0 pool bufs [] (MkSys (wrapConn pool bufs) c0)
| sx_snoc tr y l l' c' s' ob :
    sys_exec c0 pool bufs tr y → supply l y = Ret (l', c') →
    step l' (sy_sup y) = Next s' ob →
    sys_exec c0 pool bufs (tr ++ [(l', ob, action l' (sy_sup y))]) (MkSys s' c').

Context `{!RingQueueLaws Q receivedPacket} `{!BufferPoolLaws (list Z) P length} `{!PacketSourceLaws C}.

(** ** Buffers of the read loop *)

(** In [ReadPacket] the buffers have their full size. *)
Definition read_bufs_full s : Prop :=
  ∀ b ob, l_pcRead s = R_read b ob → length (buf_bytes s b) = receiveMTU ∧ length (buf_bytes s ob) = oobSize.

Lemma pool_get_length p n s b s' : pool_get p n s = (b, s') → length (buf_bytes s' b) = n.
Proof.
  unfold pool_get, buf_bytes. destruct (pool_Get p (l_bufs s) (l_pool s)) as [[b' t] k] eqn:E.
  destruct (pool_Get_empty _ _ _ _ _ _ E) as (v & -> & Hv). intros [= <- <-]. simpl.
  rewrite lookup_insert_eq. simpl. rewrite Hv. destruct (Nat.ltb_spec 0 n); rewrite lookup_insert_eq; simpl.
  - apply length_replicate.
  - lia.
Qed.

(** Steps of the other goroutines leave the buffers of the read loop alone. *)
Lemma others_keep_bufs l s s' ob :
  buf_inv cfg s → (∀ ev, l ≠ L_read ev) → step l s = Next s' ob →
  l_pcRead s' = l_pcRead s ∧ ∀ j, j ∈ pc_bufs (l_pcRead s) → l_bufs s' !! j = l_bufs s !! j.
Proof.
  intros O Hl E. destruct l; simpl in E; try (exfalso; by eapply Hl).
  all: try (unfold step_closer, call_close, step_close, call_accept, accept_conn, accept_add,
    accept_err, call_connClose, close_counted, Conn_deadline in E; repeat case_match; by simplify_eq).
  - unfold step_conn in E. destruct (l_objs s !! c) as [o|] eqn:Ho; [|done].
    destruct (c_phase o) as [| | | |pc| | |] eqn:Hph; try done.
    destruct pc; simpl in E; unfold goto in E; try (repeat case_match; by simplify_eq).
    destruct (rq_Close (c_queue o)) as [[items errBuf] q] eqn:Ec. simplify_eq.
    pose proof (rq_Close_spec _ _ _ _ Ec) as (-> & Hq & _).
    destruct (flow_consume cfg s c (λ o, set_phase (PhClosed (match err, errBuf with None, Some e => Some e
       | _, _ => err end)) (set_queue q o)) o (rq_items (c_queue o)) []) as (_ & _ & _ & ?); try done.
    + unfold flow_of. simpl. by rewrite Hq.
    + by rewrite app_nil_r.
  - unfold Conn_Read in E. destruct (l_objs s !! c) as [o|] eqn:Ho; [|done].
    destruct (user_held (c_phase o)); [|done].
    destruct (rq_Pop now (c_queue o)) as [[[pk|err] q]|] eqn:Ep; simplify_eq/=; [|done].
    pose proof (rq_Pop_spec _ _ _ _ Ep) as (_ & _ & Hq).
    by destruct (flow_consume cfg s c (set_queue q) o [pk] (rq_items q) O Ho eq_refl Hq) as (_ & _ & _ & ?).
Qed.

Definition is_read (l : label) : bool := match l with L_read _ => true | _ => false end.

Lemma read_bufs_full_step l s s' ob :
  buf_inv cfg s → read_bufs_full s → step l s = Next s' ob → read_bufs_full s'.
Proof.
  intros O F E b ob' Hpc. destruct (is_read l) eqn:Hl.
  - destruct l as [ev| | | | | | | | | | | | | |]; try done. clear Hl. simpl in E.
    unfold step_read in E. destruct (l_pcRead s) eqn:Epc; repeat (case_match; simplify_eq/=); simplify_eq/=.
    match goal with H : pool_get bufferPool _ _ = (_, ?x), H' : pool_get oobBufferPool _ _ = _ |- _ =>
      rename H into E1; rename H' into E2 end.
    destruct (owned_pool_get _ _ _ _ _ _ O E1) as [O1 _].
    destruct (owned_pool_get _ _ _ _ _ _ O1 E2) as [_ F2].
    pose proof (pool_get_length _ _ _ _ _ E1) as L1. pose proof (pool_get_length _ _ _ _ _ E2) as L2.
    split; [|exact L2]. rewrite <- L1. unfold buf_bytes. simpl. by rewrite F2 by left.
  - destruct (others_keep_bufs l s s' ob O) as [Hp Hb]; [intros ev ->; done|done|].
    rewrite Hp in Hpc. destruct (F _ _ Hpc) as [F1 F2]. unfold buf_bytes in *.
    rewrite Hpc in Hb. by rewrite !Hb by set_solver.
Qed.

(** ** What the user reads is what arrived *)

(** A packet of remote [k], as the read loop receives it. *)
Definition arrival (mark : list Z → option ECN) (k : string) (d : datagram) : option msg :=
  if decide (rAddrString cfg d.2 = k)
  then (λ e, (take receiveMTU d.1.1, take oobSize d.1.2, e)) <$> mark (take oobSize d.1.2)
  else None.
Definition arrivals (mark : list Z → option ECN) (k : string) (ds : list datagram) : list msg :=
  omap (arrival mark k) ds.

(** The read loop may still call [ReadPacket]. *)
Definition reading (pc : ReadPC) : bool :=
  match pc with R_closeDone | R_wgDone | R_end => false | _ => true end.

Record sys_inv (pool : P) (bufs : gmap nat (list Z)) (tr : list (label * obs * act)) (y : Sys) : Prop := {
  si_exec : exec cfg pool bufs tr (sy_sup y);
  si_full : read_bufs_full (sy_sup y);
  si_given : ∃ G, G `prefix_of` ps_arrived (sy_src y) ∧ (∀ k, recvs k tr.*2 = arrivals ps_mark k G) ∧
    (reading (l_pcRead (sy_sup y)) = true → (ps_live (sy_src y) ∧ G = ps_given (sy_src y)) ∨ ps_dead (sy_src y))
}.

(** Only [ReadPacket] brings packets in. *)
Lemma recvs_other k l s :
  (∀ b ob, l_pcRead s = R_read b ob → is_read l = false) → recvs k [action l s] = [].
Proof.
  intros H. destruct l; simpl; try done.
  - unfold read_action. destruct (l_pcRead s) eqn:Epc; try done; try (by repeat case_match).
    by specialize (H _ _ eq_refl).
  - by repeat case_match.
  - by repeat case_match.
Qed.

Lemma recvs_push k (tr : list (label * obs * act)) l ob a : recvs k (tr ++ [(l, ob, a)]).*2 = recvs k tr.*2 ++ recvs k [a].
Proof. rewrite fmap_app. apply recvs_snoc. Qed.

(** A step in which the source is not read. *)
Lemma sys_inv_quiet pool bufs tr y l c' s' ob :
  pool_ready pool bufs → sys_inv pool bufs tr y → step l (sy_sup y) = Next s' ob →
  (∀ b o, l_pcRead (sy_sup y) = R_read b o → is_read l = false) →
  ps_arrived (sy_src y) `prefix_of` ps_arrived c' →
  (c' = sy_src y ∨ (ps_live (sy_src y) ∨ ps_dead (sy_src y) → ps_dead c')) →
  sys_inv pool bufs (tr ++ [(l, ob, action l (sy_sup y))]) (MkSys s' c').
Proof.
  intros Hp [X F (G & HG & HR & HL)] E Hq Ha Hc.
  destruct (reach_buf_inv cfg _ _ _ Hp (exec_reach _ _ _ _ _ X)) as [I O]. constructor; simpl.
  - by econstructor.
  - by eapply read_bufs_full_step.
  - exists G. split_and!; [by etrans| |].
    + intros k. by rewrite recvs_push, recvs_other, app_nil_r.
    + intros Hr. assert (Hr0 : reading (l_pcRead (sy_sup y)) = true).
      { clear HL. revert Hr. destruct (is_read l) eqn:Hl.
        - destruct l; try done. simpl in E. unfold step_read in E.
          destruct (l_pcRead (sy_sup y)); try done; repeat (case_match; simplify_eq/=); by simplify_eq/=.
        - destruct (others_keep_bufs l _ s' ob O) as [-> _]; [intros ev ->; done|done|done]. }
      specialize (HL Hr0). destruct Hc as [->|Hd]; [done|]. right. apply Hd. tauto.
Qed.

(** A step in [ReadPacket]. *)
Lemma sys_inv_read pool bufs tr y b o r c' s' ob :
  pool_ready pool bufs → sys_inv pool bufs tr y → l_pcRead (sy_sup y) = R_read b o →
  ps_Read (buf_bytes (sy_sup y) b) (buf_bytes (sy_sup y) o) (sy_src y) = (Ret r, c') →
  step (L_read (received r)) (sy_sup y) = Next s' ob →
  sys_inv pool bufs (tr ++ [(L_read (received r), ob, action (L_read (received r)) (sy_sup y))]) (MkSys s' c').
Proof.
  intros Hp [X F (G & HG & HR & HL)] Hpc Er E.
  destruct (reach_buf_inv cfg _ _ _ Hp (exec_reach _ _ _ _ _ X)) as [I O].
  rewrite Hpc in HL. specialize (HL eq_refl). destruct (F _ _ Hpc) as [F1 F2].
  assert (Ha : ps_arrived (sy_src y) `prefix_of` ps_arrived c')
    by (eapply ps_Read_arrived; [|exact Er]; tauto).
  assert (F' : read_bufs_full s') by (by eapply read_bufs_full_step).
  unfold received in *. destruct (rr_err r) as [e|] eqn:Ee.
  - constructor; [by econstructor|exact F'|]. exists G. split_and!; [by etrans| |].
    + intros k. rewrite recvs_push. simpl.
      unfold read_action. rewrite Hpc. simpl. rewrite app_nil_r. apply HR.
    + simpl in E. unfold step_read in E. rewrite Hpc in E. simplify_eq/=. done.
  - destruct HL as [[Hlive ->]|Hdead]; [|by destruct (ps_Read_dead _ _ _ _ _ Hdead Er)].
    destruct (ps_Read_live _ _ _ _ _ Hlive Er Ee) as [Hlive' (d & [D1 D2 D3 D4 D5 _] & Hg)].
    constructor; [by econstructor|exact F'|].
    exists (ps_given c'). split_and!; [by apply ps_given_arrived| |by left].
    intros k. rewrite recvs_push, Hg, HR. unfold arrivals. rewrite omap_app. f_equal. simpl.
    unfold read_action. rewrite Hpc, D1, D2, D4, F1, F2. simpl.
    unfold arrival. rewrite F2 in D3. case_decide; [|done]. by rewrite D3.
Qed.

Lemma sys_exec_inv c0 pool bufs tr y :
  pool_ready pool bufs → ps_live c0 → ps_given c0 = [] → sys_exec c0 pool bufs tr y → sys_inv pool bufs tr y.
Proof.
  intros Hp Hl0 Hg0. induction 1 as [|tr y l l' c' s' ob _ IH Es E].
  - constructor; simpl; [constructor|done|]. exists []. split_and!; [apply prefix_nil|done|]. auto.
  - unfold supply in Es.
    assert (Hquiet : l' = l → c' = sy_src y →
      (∀ b o, l_pcRead (sy_sup y) = R_read b o → is_read l = false) →
      sys_inv pool bufs (tr ++ [(l', ob, action l' (sy_sup y))]) (MkSys s' c')).
    { intros -> -> Hq. by eapply sys_inv_quiet; eauto. }
    destruct l; try (simplify_eq; by apply Hquiet).
    + destruct (l_pcRead (sy_sup y)) eqn:Epc; try (simplify_eq; apply Hquiet; by rewrite ?Epc).
      destruct (ps_Read _ _ (sy_src y)) as [[r| |] c1] eqn:Er; simplify_eq. by eapply sys_inv_read.
    + destruct (l_pcCloser (sy_sup y)) eqn:Epc; try (simplify_eq; by apply Hquiet).
      destruct (ps_Close (sy_src y)) as [[e| |] c1] eqn:Er; simplify_eq.
      eapply sys_inv_quiet; eauto using ps_Close_arrived, ps_Close_dead.
Qed.

(** The end-to-end property, against the interface. *)
Lemma sys_reads_in_order c0 pool bufs tr y n o :
  pool_ready pool bufs → ps_live c0 → ps_given c0 = [] →
  sys_exec c0 pool bufs tr y → l_objs (sy_sup y) !! n = Some o →
  ∃ ms queued,
    Forall2 (λ x m, x.2 = read_result x.1.1 x.1.2 m) (reads n tr) ms ∧
    queued = msg_of (l_bufs (sy_sup y)) <$> rq_items (c_queue o) ∧
    ms ++ queued `sublist_of` arrivals ps_mark (key cfg o) (ps_arrived (sy_src y)).
Proof.
  intros Hp Hl Hg X Ho. destruct (sys_exec_inv _ _ _ _ _ Hp Hl Hg X) as [Hx _ (G & HG & HR & _)].
  destruct (exec_in_order cfg pool bufs tr _ n o Hp Hx Ho) as (ms & queued & H1 & H2 & H3).
  exists ms, queued. split_and!; [done..|]. etrans; [exact H3|]. rewrite HR.
  destruct HG as [rest ->]. unfold arrivals. rewrite omap_app. by apply sublist_inserts_r.
Qed.

End system.
Arguments Sys Q P C : clear implicits.
