(* ===== verification/OobSource.v ===== *)
(** * An [oobConn] as the source of a super-connection

    [oobConn] implements the interface of [System]: the packets it hands out
    are the datagrams that the kernel delivered to [ReadBatch], in order.  With
    it the path of a packet is closed: from the kernel through the batch
    reader, [ReadPacket], the read loop and the ring queue to the user's
    [Read]. *)

From S2P Require Import Prelude GoLib Types Interfaces Ownership GoWorld Cmsg Platform SockBuf.
From S2P Require Import BatchReader BatchReaderInv BatchWriter Keeps OobConn.
From S2P Require Import SupConn SupConnInv SupConnProps SupConnBufs SupConnFlow System.

(** [rx] are the datagrams the socket has delivered.  [ReadBatch] without an
    error delivers at least one and at most as many as there are messages,
    each with its sender; nothing else delivers. *)
Class RecvLaws (K : Type) `{!BufferPool Slice K} `{!SysBatchReader K} `{!SysBatchWriter K} : Type := {
  rx : K → list datagram;
  recv_batch n k ds err k' :
    ReadBatch n k = ((ds, err), k') →
    (length ds ≤ n)%nat ∧ rx k' = rx k ++ ds ∧ Forall (λ d, d.2 ≠ None) ds ∧ (err = None → ds ≠ []);
  recv_Close k e k' : sbr_Close k = (e, k') → rx k' = rx k;
  recv_WriteBatch ms k r k' : WriteBatch ms k = (r, k') → rx k' = rx k;
  recv_writer_Close k e k' : sbw_Close k = (e, k') → rx k' = rx k;
  recv_Get p t k b t' k' : pool_Get p t k = (b, t', k') → rx k' = rx k;
  recv_Put p b t k t' k' : pool_Put p b t k = (t', k') → rx k' = rx k
}.

Section source.
Context {K : Type} {abi : UnixABI} `{!Kernel K} `{!BufferPool Slice K} `{!SysBatchReader K}
  `{!SysBatchWriter K} `{!RecvLaws K}.
Variable os : OS.
Variable conn : NetConn K.
Variable cap : ConnCapabilities.
Variable now : Z.
#[local] Abbreviation M := (GoM (World K)).
Implicit Types (r : batchReader) (w : World K).

#[local] Instance rx_blind : PoolBlind rx.
Proof. split; [apply recv_Get|apply recv_Put]. Qed.
#[local] Hint Resolve rx_blind : keeps.

(** ** The reader *)

(** The datagrams handed out: those delivered, less those still buffered. *)
Definition handed_out r w : list datagram :=
  let all := clip <$> rx (w_k w) in take (length all - length (pending (w_heap w) r)) all.

Record reader_live r w : Prop := {
  rl_inv : reader_inv os (w_heap w) r;
  rl_open : r_closed r = false;
  rl_senders : Forall (λ d, d.2 ≠ None) (rx (w_k w));
  rl_pending : clip <$> rx (w_k w) = handed_out r w ++ pending (w_heap w) r
}.

Lemma handed_out_app r w G : clip <$> rx (w_k w) = G ++ pending (w_heap w) r → handed_out r w = G.
Proof.
  intros E. unfold handed_out. rewrite E, length_app. apply take_app_length'. lia.
Qed.

Lemma clip_sender d : (clip d).2 = d.2.
Proof. by destruct d as [[? ?] ?]. Qed.

Lemma clip_senders ds d : Forall (λ d, d.2 ≠ None) ds → d ∈ clip <$> ds → d.2 ≠ None.
Proof.
  intros F (d' & -> & Hd)%list_elem_of_fmap. rewrite clip_sender.
  by rewrite Forall_forall in F; apply F.
Qed.

(** A [Read] of a live reader returns; when it returns no error it hands out
    the next datagram. *)
Lemma read_live b oob r w :
  reader_live r w →
  ∃ res r' w', batchReader_Read os b oob r w = (Ret (res, r'), w') ∧ rx (w_k w) `prefix_of` rx (w_k w') ∧
    (rr_err res = None → reader_live r' w' ∧
     ∃ d, res = give b oob d ∧ d.2 ≠ None ∧ handed_out r' w' = handed_out r w ++ [d]).
Proof.
  intros [I Hc Hs Hp]. destruct (pending (w_heap w) r) as [|d ds] eqn:Ep.
  - rewrite app_nil_r in Hp. destruct (ReadBatch (batchSize os) (w_k w)) as [[ds err] k] eqn:Eb.
    destruct (recv_batch _ _ _ _ _ Eb) as (Hl & Hrx & Hsd & Hne). destruct err as [e|].
    + destruct (read_batch_eq os b oob r w ds (Some e) k I Hc Ep Eb) as (r1 & w1 & _ & _ & _ & _ & _ & Hk & E & _).
      eexists _, _, _. split; [exact E|]. split; [|done]. rewrite Hk, Hrx. by eexists.
    + destruct ds as [|d ds]; [by destruct (Hne eq_refl)|].
      destruct (read_new_batch_ok os b oob r w d ds k I Hc Ep Eb Hl) as (r' & w' & E & I' & Hc' & Hk & Hp').
      eexists _, _, _. split; [exact E|]. rewrite Hk, Hrx. split; [by eexists|]. intros _.
      assert (Hgo : handed_out r' w' = handed_out r w ++ [clip d]).
      { apply handed_out_app. rewrite Hk, Hrx, fmap_app, Hp, Hp', <- app_assoc. done. }
      split.
      * constructor; [done..| |].
        -- rewrite Hk, Hrx. by apply Forall_app.
        -- rewrite Hgo, Hk, Hrx, fmap_app, Hp, Hp', <- app_assoc. done.
      * exists (clip d). split_and!; [done| |done]. rewrite clip_sender. by inversion Hsd.
  - destruct (read_pending_ok os b oob r w d ds I Hc Ep) as (r' & E & I' & Hc' & Hp').
    eexists _, _, _. split; [exact E|]. split; [done|]. intros _.
    assert (Hgo : handed_out r' w = handed_out r w ++ [d]).
    { apply handed_out_app. rewrite Hp, Hp', <- app_assoc. done. }
    split; [constructor; try done; by rewrite Hgo, Hp, Hp', <- app_assoc|].
    exists d. split_and!; [done| |done]. apply (clip_senders (rx (w_k w))); [done|]. rewrite Hp. set_solver.
Qed.

(** ** The connection *)

(** The fields of the [oobConn] that change, with the world it runs in. *)
Record OobState : Type := MkOobState {
  ob_reader : batchReader; ob_writer : oobWriter; ob_world : World K
}.

Definition as_conn (c : OobState) : oobConn K := MkOob conn (ob_reader c) (ob_writer c) cap.

Definition run_conn {A} (m : oobConn K → M (A * oobConn K)) (c : OobState) : outcome A * OobState :=
  match m (as_conn c) (ob_world c) with
  | (Ret (a, c'), w) => (Ret a, MkOobState (oc_reader c') (oc_writer c') w)
  | (Panic why, w) => (Panic why, MkOobState (ob_reader c) (ob_writer c) w)
  | (Exit n, w) => (Exit n, MkOobState (ob_reader c) (ob_writer c) w)
  end.

#[local] Instance oob_source : PacketSource OobState := {|
  ps_Read b oob := run_conn (Oob_ReadPacket os b oob);
  ps_Close := run_conn (Oob_Close now)
|}.

(** The mark that [ReadPacket] reads off control bytes. *)
Definition oob_mark (ctl : list Z) : option ECN :=
  match parse_oob os ctl ECNUnsupported with Ret (inl e) => Some e | _ => None end.

Lemma Oob_ReadPacket_live b oob c res c' :
  reader_live (ob_reader c) (ob_world c) → ps_Read b oob c = (Ret res, c') →
  rx (w_k (ob_world c)) `prefix_of` rx (w_k (ob_world c')) ∧
  (rr_err res = None → reader_live (ob_reader c') (ob_world c') ∧
   ∃ d, read_of oob_mark b oob d res ∧
        handed_out (ob_reader c') (ob_world c') = handed_out (ob_reader c) (ob_world c) ++ [d]).
Proof.
  intros L E. destruct (read_live b oob _ _ L) as (rs & r1 & w1 & ER & Hrx & Hok).
  cbn [ps_Read oob_source] in E. unfold run_conn, Oob_ReadPacket in E.
  change (oc_reader (as_conn c)) with (ob_reader c) in E. rewrite (GoM_bind_Ret _ _ _ _ _ ER) in E.
  destruct (rr_err rs) as [e|] eqn:Ee.
  - unfold mret, GoM_ret in E. injection E as <- <-. split; [exact Hrx|]. by rewrite Ee.
  - destruct (Hok eq_refl) as (L1 & [[data odata] addr] & -> & Hs & Hh).
    cbn [rr_oobn rr_oob rr_ecn rr_b rr_n rr_addr give] in E. rewrite go_copy_prefix in E.
    unfold lift in E. unfold mbind, GoM_bind, mret, GoM_ret in E.
    destruct (parse_oob os (take (length oob) odata) 0) as [[ecn|err]| |] eqn:Ep; simplify_eq/=.
    + split; [done|]. intros _. split; [done|]. eexists. split; [|exact Hh].
      constructor; simpl; try done; try apply go_copy_prefix. unfold oob_mark, ECNUnsupported. by rewrite Ep.
    + split; [done|]. done.
Qed.

Hypothesis Close_silent : ∀ k e k', nc_Close conn k = (e, k') → rx k' = rx k.

Lemma Oob_Close_keeps c e c' :
  ps_Close c = (Ret e, c') → rx (w_k (ob_world c')) = rx (w_k (ob_world c)) ∧ r_closed (ob_reader c') = true.
Proof.
  intros E. cbn [ps_Close oob_source] in E. unfold run_conn in E.
  assert (HK : keeps rx (Oob_Close now (as_conn c))).
  { pose proof (keeps_ext rx _ Close_silent). pose proof (keeps_ext rx _ recv_Close).
    pose proof (keeps_writer_Close rx recv_WriteBatch recv_writer_Close now).
    unfold Oob_Close, batchReader_Close, writer_Close. keeps. }
  specialize (HK (ob_world c)). destruct (Oob_Close now (as_conn c) (ob_world c)) as [[[a c1]| |] w] eqn:EC; simplify_eq/=.
  split; [done|]. unfold Oob_Close, batchReader_Close in EC.
  apply GoM_bind_inv in EC as (? & ? & _ & EC). apply GoM_bind_inv in EC as (cl & ? & Ex & EC).
  apply GoM_bind_inv in Ex as (? & ? & _ & Ex). apply GoM_bind_inv in Ex as (? & ? & _ & Ex).
  unfold mret, GoM_ret in Ex. simplify_eq/=.
  apply GoM_bind_inv in EC as (? & ? & _ & EC). unfold mret, GoM_ret in EC. by simplify_eq.
Qed.

Lemma Oob_ReadPacket_closed b oob c res c' :
  r_closed (ob_reader c) = true → ps_Read b oob c = (Ret res, c') →
  rr_err res = Some ErrClosed ∧ ob_world c' = ob_world c.
Proof.
  intros Hc E. cbn [ps_Read oob_source] in E. unfold run_conn, Oob_ReadPacket, batchReader_Read in E.
  change (oc_reader (as_conn c)) with (ob_reader c) in E. rewrite Hc in E.
  unfold mbind, GoM_bind, mret, GoM_ret in E. by simplify_eq/=.
Qed.

#[local] Instance oob_source_laws : PacketSourceLaws OobState.
Proof.
  refine {|
    ps_mark := oob_mark;
    ps_live c := reader_live (ob_reader c) (ob_world c);
    ps_dead c := r_closed (ob_reader c) = true;
    ps_given c := handed_out (ob_reader c) (ob_world c);
    ps_arrived c := clip <$> rx (w_k (ob_world c))
  |}.
  - intros c L. apply prefix_take.
  - intros b oob c res c' L E. by apply (Oob_ReadPacket_live b oob c res c').
  - intros b oob c res c' Hc E. by destruct (Oob_ReadPacket_closed _ _ _ _ _ Hc E) as [-> _].
  - intros b oob c res c' [L|Hc] E.
    + destruct (Oob_ReadPacket_live b oob c res c' L E) as [[ds ->] _]. rewrite fmap_app. by eexists.
    + by destruct (Oob_ReadPacket_closed _ _ _ _ _ Hc E) as [_ ->].
  - intros c e c' E. by destruct (Oob_Close_keeps c e c' E) as [-> _].
  - intros c e c' _ E. by destruct (Oob_Close_keeps c e c' E) as [_ ->].
Defined.

(** ** From the kernel to the user *)

Context {Q P : Type} `{!RingQueue Q receivedPacket} `{!BufferPool (list Z) P}
  `{!RingQueueLaws Q receivedPacket} `{!BufferPoolLaws (list Z) P length} `{!BufferPoolLaws Slice K s_len}.
Variable cfg : config.

Lemma new_reader_live w r w' :
  owned [] (h_buf (w_heap w)) (w_k w) → rx (w_k w) = [] → newBatchReader os w = (Ret r, w') →
  reader_live r w' ∧ handed_out r w' = [].
Proof.
  intros O Hrx E. destruct (newBatchReader_ok os w O) as (r0 & w0 & E0 & I & Hc & Hp).
  rewrite E0 in E. injection E as -> ->.
  assert (Hrx' : rx (w_k w') = []).
  { rewrite <- Hrx. assert (HK : keeps rx (newBatchReader os : M batchReader)) by (unfold newBatchReader; keeps).
    specialize (HK w). by rewrite E0 in HK. }
  assert (Hh : handed_out r w' = []) by (unfold handed_out; by rewrite Hrx').
  split; [|done]. constructor; [done..| |]; rewrite ?Hh, ?Hp, Hrx'; by constructor.
Qed.

(** C1: from the kernel to the user.  Take an [oobConn] with a new batch
    reader, a super-connection on top of it, and any interleaving of its
    goroutines and users, in which [ReadPacket] and [Close] are those of the
    [oobConn].  What the [Read]s of a sub-connection have returned, followed by
    what its queue holds, is in order a subsequence of the datagrams that the
    kernel delivered from that connection's remote address; each is delivered
    at most once, with its own bytes (up to the sizes of the buffers) and with
    the mark of its own control data. *)
Theorem kernel_to_user w r w' wr pool bufs tr (y : Sys Q P OobState) n o :
  owned [] (h_buf (w_heap w)) (w_k w) → rx (w_k w) = [] → newBatchReader os w = (Ret r, w') →
  pool_ready pool bufs → sys_exec cfg (MkOobState r wr w') pool bufs tr y →
  l_objs (sy_sup y) !! n = Some o →
  ∃ ms queued,
    Forall2 (λ x m, x.2 = read_result x.1.1 x.1.2 m) (reads n tr) ms ∧
    queued = msg_of (l_bufs (sy_sup y)) <$> rq_items (c_queue o) ∧
    ms ++ queued `sublist_of` arrivals cfg oob_mark (key cfg o) (clip <$> rx (w_k (ob_world (sy_src y)))).
Proof.
  intros O Hrx E Hp X Ho. destruct (new_reader_live _ _ _ O Hrx E) as [L Hg].
  exact (sys_reads_in_order cfg (MkOobState r wr w') pool bufs tr y n o Hp L Hg X Ho).
Qed.

End source.
