(* ===== verification/BasicSource.v ===== *)
(** * A [BasicConn] as the source of a super-connection

    The second implementation of the interface of [System]: an unconnected
    [BasicConn], which reads one datagram at a time with [ReadFrom] and hands
    out neither control bytes nor marks. *)

From S2P Require Import Prelude GoLib Types Interfaces Ownership GoWorld Cmsg Platform SockBuf.
From S2P Require Import BatchReader BatchWriter OobConn.
From S2P Require Import SupConn SupConnInv SupConnProps SupConnBufs SupConnFlow System.

(** [got] are the datagrams a packet connection has delivered, without control
    bytes.  [ReadFrom] fails, or copies the next datagram and names its sender;
    after [Close] it fails. *)
Class ReadFromLaws {K : Type} (conn : NetConn K) : Type := {
  got : K → list datagram;
  gone : K → bool;
  from_ok b k b' n a k' :
    nc_ReadFrom conn b k = ((b', n, a, None), k') →
    gone k = false ∧ gone k' = false ∧
    ∃ data addr, a = Some addr ∧ go_copy b data = (b', n) ∧ got k' = got k ++ [(data, [], a)];
  from_err b k b' n a e k' :
    nc_ReadFrom conn b k = ((b', n, a, Some e), k') → got k' = got k ∧ gone k' = gone k;
  from_Close k e k' : nc_Close conn k = (e, k') → got k' = got k ∧ gone k' = true
}.

Section source.
Context {K : Type} (conn : NetConn K) (df : bool) `{!ReadFromLaws conn}.
Implicit Types w : World K.

#[local] Instance basic_source : PacketSource (World K) := {|
  ps_Read b oob := Basic_ReadPacket (MkBasic conn false df) b oob;
  ps_Close := ext (nc_Close conn)
|}.

(** [ReadPacket] of the unconnected connection is [ReadFrom]. *)
Lemma Basic_Read_eq b oob w :
  ps_Read b oob w =
  (let '(b', n, a, err, k) := nc_ReadFrom conn b (w_k w) in
   (Ret (match err with
         | Some e => MkRead b' oob 0 0 ECNUnsupported None (Some e)
         | None => MkRead b' oob n 0 ECNUnsupported a None
         end), set_k k w)).
Proof.
  cbn [ps_Read basic_source]. unfold Basic_ReadPacket. cbn [bc_PacketConn bc_isConnected].
  destruct (nc_connected conn) as [[read write]|]; unfold mbind, GoM_bind, ext;
    destruct (nc_ReadFrom conn b (w_k w)) as [[[[b' n] a] [e|]] k]; done.
Qed.

(** Control bytes are never handed out: the mark of none is "unsupported". *)
Definition basic_mark (ctl : list Z) : option ECN := match ctl with [] => Some ECNUnsupported | _ => None end.

#[local] Instance basic_source_laws : PacketSourceLaws (World K).
Proof.
  refine {|
    ps_mark := basic_mark;
    ps_live w := True;
    ps_dead w := gone (w_k w) = true;
    ps_given w := got (w_k w);
    ps_arrived w := got (w_k w)
  |}.
  - done.
  - intros b oob w r w' _ E He. rewrite Basic_Read_eq in E.
    destruct (nc_ReadFrom conn b (w_k w)) as [[[[b' n] a] [e|]] k] eqn:Er; simplify_eq/=.
    destruct (from_ok _ _ _ _ _ _ Er) as (_ & _ & data & addr & -> & Hc & Hg). split; [done|].
    eexists. split; [|exact Hg]. pose proof (go_copy_prefix b data) as Hp. rewrite Hc in Hp.
    constructor; simpl; try done; by rewrite take_nil.
  - intros b oob w r w' Hd E He. rewrite Basic_Read_eq in E.
    destruct (nc_ReadFrom conn b (w_k w)) as [[[[b' n] a] [e|]] k] eqn:Er; simplify_eq/=.
    destruct (from_ok _ _ _ _ _ _ Er) as (Hg & _). congruence.
  - intros b oob w r w' _ E. rewrite Basic_Read_eq in E.
    destruct (nc_ReadFrom conn b (w_k w)) as [[[[b' n] a] [e|]] k] eqn:Er; simplify_eq/=.
    + by destruct (from_err _ _ _ _ _ _ _ Er) as [-> _].
    + destruct (from_ok _ _ _ _ _ _ Er) as (_ & _ & data & addr & _ & _ & ->). by eexists.
  - intros w e w' E. cbn [ps_Close basic_source] in E. unfold ext in E.
    destruct (nc_Close conn (w_k w)) as [e' k] eqn:Ec. simplify_eq/=. by destruct (from_Close _ _ _ Ec) as [-> _].
  - intros w e w' _ E. cbn [ps_Close basic_source] in E. unfold ext in E.
    destruct (nc_Close conn (w_k w)) as [e' k] eqn:Ec. simplify_eq/=. by destruct (from_Close _ _ _ Ec).
Defined.

(** From the packet connection to the user. *)
Lemma basic_to_user {Q P : Type} `{!RingQueue Q receivedPacket} `{!BufferPool (list Z) P}
    `{!RingQueueLaws Q receivedPacket} `{!BufferPoolLaws (list Z) P length} (cfg : config)
    w pool bufs tr (y : Sys Q P (World K)) n o :
  got (w_k w) = [] → pool_ready pool bufs → sys_exec cfg w pool bufs tr y → l_objs (sy_sup y) !! n = Some o →
  ∃ ms queued,
    Forall2 (λ x m, x.2 = read_result x.1.1 x.1.2 m) (reads n tr) ms ∧
    queued = msg_of (l_bufs (sy_sup y)) <$> rq_items (c_queue o) ∧
    ms ++ queued `sublist_of` arrivals cfg basic_mark (key cfg o) (got (w_k (sy_src y))).
Proof. intros Hg Hp X Ho. exact (sys_reads_in_order cfg w pool bufs tr y n o Hp Logic.I Hg X Ho). Qed.

End source.
