(* ===== verification/SupConnTable.v ===== *)
(** * The table of sub-connections, Accept, and the end of a connection

    One live connection per remote; a connection's close removes its own
    entry and no other; after [Close] no connection is created any more and
    no [Accept] stays blocked; a connection is accepted once; a closed
    connection reads end-of-file. *)

From S2P Require Import Prelude GoLib Types Interfaces SupConn SupConnInv SupConnProps.

Section table.
Context {Q P : Type} `{!RingQueue Q receivedPacket} `{!BufferPool (list Z) P}.
Variable cfg : config.
Implicit Types (s : Sup Q P) (o : SubConn Q) (c : nat).
#[local] Abbreviation inv := (inv cfg).
#[local] Abbreviation key := (key cfg).
#[local] Abbreviation step := (step cfg).

(** C11: one live connection per remote.  Two connections that are queued,
    handed out or open, and have not yet been taken out of the table by their
    close, have different remote addresses; so packets of a remote cannot be
    split between two connections. *)
Theorem one_conn_per_remote pool bufs s c1 c2 o1 o2 :
  reach cfg pool bufs s → l_objs s !! c1 = Some o1 → l_objs s !! c2 = Some o2 →
  in_table (c_phase o1) = true → in_table (c_phase o2) = true → key o1 = key o2 → c1 = c2.
Proof.
  intros I%reach_inv H1 H2 T1 T2 Hk.
  pose proof (oi_table _ _ _ _ (i_obj _ _ I _ _ H1) T1) as [E1|E1];
    pose proof (oi_table _ _ _ _ (i_obj _ _ I _ _ H2) T2) as [E2|E2];
    try (rewrite Hk in E1); try congruence;
    pose proof (i_free _ _ I) as Hf; destruct (l_pcRead s); simplify_eq/=;
    destruct Hf as (o & Ho & _ & Hn); simplify_eq; congruence.
Qed.

(** C26: closing a connection removes exactly its own entry.  When [Conn.Close]
    deletes the entry of its remote address, that entry is present and is the
    connection itself; every other entry stays.  (A connection that has taken
    over the remote since is never removed.) *)
Theorem close_removes_own_entry pool bufs s s' c o ob :
  reach cfg pool bufs s → l_objs s !! c = Some o → c_phase o = PhClosing K_delete →
  step (L_conn c) s = Next s' ob →
  l_conns s !! key o = Some c ∧ l_conns s' !! key o = None ∧
  (∀ k, k ≠ key o → l_conns s' !! k = l_conns s !! k) ∧
  ∀ k, l_conns s' !! k ≠ Some c.
Proof.
  intros I%reach_inv Ho Hph E. pose proof (i_obj _ _ I _ _ Ho) as J.
  assert (Hlk : l_lock s = Some (OwnConn c)) by (apply J; by rewrite Hph).
  assert (Hown : l_conns s !! key o = Some c).
  { destruct (oi_table _ _ _ _ J) as [?|Hi]; [by rewrite Hph|done|].
    assert (crit_read (l_pcRead s) = true) as Hcr by (by destruct (l_pcRead s)).
    apply (i_lock_read _ _ I) in Hcr. congruence. }
  simpl in E. unfold step_conn in E. rewrite Ho, Hph in E. simpl in E. unfold goto in E.
  destruct (addr_text (c_rAddr o)) as [k| |] eqn:Ea; simplify_eq. simpl.
  assert (k = key o) as ->.
  { unfold SupConnInv.key, rAddrString. unfold addr_text in Ea. by destruct (c_rAddr o); simplify_eq. }
  split_and!; [done|by simplify_map_eq|intros k Hk; by simplify_map_eq|].
  intros k Hk. destruct (decide (k = key o)) as [->|Hne]; simplify_map_eq.
  destruct (i_table _ _ I _ _ Hk) as (o' & Ho' & _ & ?). simplify_eq.
Qed.

(** ** After Close *)

Lemma past_lock_step s s' l ob :
  step l s = Next s' ob → past_lock (l_pcClose s) = true → past_lock (l_pcClose s') = true.
Proof.
  intros E. step_cases E; simpl; try done;
    match goal with H : l_pcClose _ = _ |- _ => by rewrite ?H end.
Qed.

Lemma past_drain_step s s' l ob :
  step l s = Next s' ob → past_drain (l_pcClose s) = true → past_drain (l_pcClose s') = true.
Proof.
  intros E. step_cases E; simpl; try done;
    match goal with H : l_pcClose _ = _ |- _ => by rewrite ?H end.
Qed.

Lemma closed_step s s' l ob :
  inv s → past_lock (l_pcClose s) = true → step l s = Next s' ob →
  length (l_objs s') = length (l_objs s) ∧ l_conns s' ⊆ l_conns s ∧
  (∀ c, c ∈ l_acceptCh s' → c ∈ l_acceptCh s).
Proof.
  intros I Hp E. pose proof (i_admit _ _ I) as Ha. rewrite Hp in Ha.
  step_cases E; simpl; rewrite ?length_alter;
    try match goal with H : l_pcRead _ = _ |- _ => rewrite H in Ha; simpl in Ha end;
    try (by specialize (Ha eq_refl)); split_and!; try done; try apply delete_subseteq;
    try (intros c' Hc'; first [congruence | set_solver]).
Qed.

(** C12: [Close] stops admission for good.  Once [supConn.Close] has entered its
    critical section, whatever happens afterwards, no connection object is
    created, no connection enters the table or the accept queue; and when it
    has left the critical section the accept queue is empty and stays empty. *)
Theorem close_stops_admission pool bufs s s' :
  reach cfg pool bufs s → past_lock (l_pcClose s) = true →
  rtc (λ s s', ∃ l ob, step l s = Next s' ob) s s' →
  length (l_objs s') = length (l_objs s) ∧ l_conns s' ⊆ l_conns s ∧
  (∀ c, c ∈ l_acceptCh s' → c ∈ l_acceptCh s) ∧
  (past_drain (l_pcClose s) = true → l_acceptCh s' = []).
Proof.
  intros I%reach_inv Hp R. revert I Hp.
  induction R as [s|s s1 s2 (l & ob & E) _ IH]; intros I Hp.
  - split_and!; try done. apply (i_drained _ _ I).
  - destruct (closed_step _ _ _ _ I Hp E) as (H1 & H2 & H3).
    destruct IH as (H4 & H5 & H6 & H7);
      [by eapply step_inv|by eapply past_lock_step|].
    split_and!; [congruence|by etrans|auto|]. intros Hd. apply H7. by eapply past_drain_step.
Qed.

(** No [Accept] stays blocked after [Close].  As soon as [doneCh] is closed,
    any blocked [Accept] can return at once with the error for a closed
    super-connection, and so can every later one. *)
Lemma accept_unblocked pool bufs s :
  reach cfg pool bufs s → past_closeDone (l_pcClose s) = true → (0 < l_acceptors s)%nat →
  ∃ s', step L_acceptDone s = Next s' (ObsAccept (inr (Some ErrClosedSuperConn))) ∧
        l_acceptors s' = (l_acceptors s - 1)%nat.
Proof.
  intros I%reach_inv Hp Ha. simpl. unfold accept_err. rewrite (i_doneCh _ _ I), Hp.
  destruct (l_acceptors s); [lia|]. eexists. split; [done|]. simpl. lia.
Qed.

(** ** Accepted connections *)

Inductive trace (pool : P) (bufs : gmap nat (list Z)) : list obs → Sup Q P → Prop :=
| trace_nil : trace pool bufs [] (wrapConn pool bufs)
| trace_snoc tr s s' l ob :
    trace pool bufs tr s → step l s = Next s' ob → trace pool bufs (tr ++ [ob]) s'.

Definition accepted (tr : list obs) : list nat :=
  omap (λ ob, match ob with ObsAccept (inl c) => Some c | _ => None end) tr.

Lemma trace_reach pool bufs tr s : trace pool bufs tr s → reach cfg pool bufs s.
Proof. induction 1; [constructor|by econstructor]. Qed.

(** A connection in the hands of the user stays there. *)
Lemma user_held_step s s' l ob c o :
  inv s → step l s = Next s' ob → l_objs s !! c = Some o → user_held (c_phase o) = true →
  ∃ o', l_objs s' !! c = Some o' ∧ user_held (c_phase o') = true.
Proof.
  intros I E Ho Hu. pose proof (i_free _ _ I) as Hf. pose proof (i_chan_phase _ _ I) as Hch.
  assert (Hq : ∀ o1, l_objs s !! c = Some o1 → user_held (c_phase o1) = true) by (intros; congruence).
  step_cases E; simpl; eauto;
    try (exists o; split; [by apply lookup_app_l_Some|done]);
    (apply alter_lookup_ex; [by eauto|]; intros -> o1 Ho1 Hu1; simpl in *; try done).
  1-3: destruct Hf as (? & ? & Hn & _); simplify_eq; by rewrite Hn in Hu1.
  all: (match goal with H : l_acceptCh _ = ?c0 :: _ |- _ =>
          destruct (Hch c0) as (? & ? & Hn); [rewrite ?H; left|] end);
       simplify_eq; by rewrite Hn in Hu1.
Qed.

Lemma accept_obs s s' l ob c :
  inv s → step l s = Next s' ob → ob = ObsAccept (inl c) →
  (∃ o, l_objs s !! c = Some o ∧ c_phase o = PhTaken) ∧
  ∃ o', l_objs s' !! c = Some o' ∧ user_held (c_phase o') = true.
Proof.
  intros I E. step_cases E; intros Hob; simplify_eq; simpl. split; [eauto|].
  eexists. rewrite list_lookup_alter_eq, H. done.
Qed.

Lemma accepted_held pool bufs tr s :
  trace pool bufs tr s →
  NoDup (accepted tr) ∧
  ∀ c, c ∈ accepted tr → ∃ o, l_objs s !! c = Some o ∧ user_held (c_phase o) = true.
Proof.
  induction 1 as [|tr s s' l ob Hx [IHn IHh] E].
  - split; [constructor|]. intros c []%not_elem_of_nil.
  - pose proof (reach_inv _ _ _ _ (trace_reach _ _ _ _ Hx)) as I.
    unfold accepted. rewrite omap_app. fold (accepted tr).
    assert (Hold : ∀ c, c ∈ accepted tr → ∃ o, l_objs s' !! c = Some o ∧ user_held (c_phase o) = true).
    { intros c Hc. destruct (IHh c Hc) as (o & Ho & Hu). by eapply user_held_step. }
    destruct ob as [|[c|e]|e|r|]; simpl; rewrite ?app_nil_r; try done.
    + destruct (accept_obs _ _ _ _ c I E eq_refl) as [(o & Ho & Hph) Hnew]. split.
      * apply NoDup_app. split_and!; [done| |repeat constructor; apply not_elem_of_nil].
        intros x Hx1 Hx2%list_elem_of_singleton. subst x. destruct (IHh c Hx1) as (o1 & Ho1 & Hu). simplify_eq.
        by rewrite Hph in Hu.
      * intros x [Hx1|Hx1%list_elem_of_singleton]%elem_of_app; [auto|by subst x].
Qed.

(** C25: a connection is accepted at most once.  Over any execution, with any
    number of concurrent [Accept] calls, the connections returned by [Accept]
    are pairwise different. *)
Theorem accepted_once pool bufs tr s : trace pool bufs tr s → NoDup (accepted tr).
Proof. intros H. by eapply accepted_held. Qed.

(** ** Closed connections *)

Context `{!RingQueueLaws Q receivedPacket}.

Definition closed_inv s : Prop :=
  ∀ c o err, l_objs s !! c = Some o → c_phase o = PhClosed err →
    rq_open (c_queue o) = false ∧ rq_items (c_queue o) = [].

Lemma closed_inv_step s s' l ob : closed_inv s → step l s = Next s' ob → closed_inv s'.
Proof.
  intros C E. step_cases E; try exact C; intros c' o' err' Ho' Hph; simpl in Ho'.
  all: first
    [ apply alter_lookup_inv in Ho' as [(-> & o1 & H1' & ->)|[Hne Ho']]
    | apply lookup_snoc_Some in Ho' as [[? Ho']|[-> <-]] ];
    simpl in *; try done; try solve [eapply C; eauto].
  - destruct (C _ _ _ H1' Hph) as [Ho Hi]. simplify_eq.
    pose proof (rq_Push_spec _ _ _ _ H1) as (_ & Hop & Hit).
    pose proof (rq_Push_closed pk _ Ho) as Hc. rewrite H1 in Hc. simpl in Hc.
    destruct o; [|done]. split; congruence.
  - simplify_eq. by destruct (rq_Close_spec _ _ _ _ ltac:(eassumption)) as (_ & ? & _ & ?).
  - simplify_eq. by destruct (rq_Close_spec _ _ _ _ ltac:(eassumption)) as (_ & ? & _ & ?).
  - simplify_eq. by destruct (rq_Close_spec _ _ _ _ ltac:(eassumption)) as (_ & ? & _ & ?).
  - destruct (C _ _ _ H1' Hph) as [Ho Hi]. simplify_eq.
    destruct (rq_Pop_spec _ _ _ _ ltac:(eassumption)) as (_ & Hop & Hit). congruence.
  - destruct (C _ _ _ H1' Hph) as [Ho Hi]. simplify_eq.
    destruct (rq_Pop_spec _ _ _ _ ltac:(eassumption)) as (_ & Hop & Hit). split; congruence.
  - destruct (C _ _ _ H1' Hph) as [Ho Hi]. simplify_eq.
    destruct (rq_SetPopDeadline_spec _ _ _ _ ltac:(eassumption)) as (Hit & _ & Hop). split; congruence.
Qed.

Lemma reach_closed_inv pool bufs s : reach cfg pool bufs s → closed_inv s.
Proof. induction 1; [|by eapply closed_inv_step]. intros c o err Ho. done. Qed.

(** C27: a closed connection reads end-of-file.  After [Conn.Close] has
    returned, [Read] never blocks and never yields a packet: it returns
    [io.EOF] with no bytes and the default mark of the socket, and leaves the
    caller's buffers alone. *)
Theorem closed_conn_reads_eof pool bufs s c o err now p oob :
  reach cfg pool bufs s → l_objs s !! c = Some o → c_phase o = PhClosed err →
  ∃ s', step (L_connRead c now p oob) s =
        Next s' (ObsRead (MkRead p oob 0 0 (c_ecnDefault o) None (Some io_EOF))).
Proof.
  intros R Ho Hph. pose proof (reach_inv _ _ _ _ R) as I.
  destruct (reach_closed_inv _ _ _ R c o err Ho Hph) as [Hop Hit].
  destruct (rq_Pop_closed now _ Hop Hit) as (e & q & Ep).
  simpl. unfold Conn_Read. rewrite Ho, Hph. simpl. rewrite Ep.
  rewrite (oi_done _ _ _ _ (i_obj _ _ I _ _ Ho)), Hph. simpl. eauto.
Qed.

(** ** Packets without a sender *)

Definition nil_deref : string := "invalid memory address or nil pointer dereference".

(** Phases a [Conn.Close] (or the drain of [supConn.Close]) reaches only by
    calling a method of the connection's address. *)
Definition past_addr (ph : Phase) : bool :=
  match ph with
  | PhDropped | PhClosed _ => true
  | PhClosing (K_unlock _ | K_check _ | K_wait | K_sleep | K_loadErr | K_queueClose _) => true
  | _ => false
  end.

Definition nil_inv s : Prop :=
  ∀ c o, l_objs s !! c = Some o → c_rAddr o = None → past_addr (c_phase o) = false.

Lemma nil_inv_step s s' l ob : nil_inv s → step l s = Next s' ob → nil_inv s'.
Proof.
  intros N E. step_cases E; try exact N; intros c' o' Ho' Ha; simpl in Ho'.
  all: first
    [ apply alter_lookup_inv in Ho' as [(-> & o1 & H1' & ->)|[Hne Ho']]
    | apply lookup_snoc_Some in Ho' as [[? Ho']|[-> <-]] ];
    simpl in *; simplify_eq; try done; try solve [eapply N; eauto].
  all: repeat match goal with H : addr_text _ = _ |- _ => rewrite Ha in H end; try done.
  all: match goal with H : c_phase ?o = PhClosing _ |- _ =>
         pose proof (N _ o ltac:(eassumption) Ha) as Hn; by rewrite H in Hn end.
Qed.

Lemma reach_nil_inv pool bufs s : reach cfg pool bufs s → nil_inv s.
Proof. induction 1; [|by eapply nil_inv_step]. intros c o Ho. done. Qed.

(** C37: a connection made from a packet without a sender cannot be closed.  In
    any reachable state of any configuration: a packet that [ReadPacket] returned
    with a nil address and that passes the accept filter creates a connection
    whose remote address is nil (filed under the text of the socket's own remote
    address); a connection with a nil address keeps it under every step; when
    [supConn.Close] takes it out of the accept queue, and when its own
    [Conn.Close] comes to delete it from the table, the method call on the nil
    address panics; so its [Close] never gets past that point. *)
Theorem nil_sender_close_panics pool bufs s :
  reach cfg pool bufs s →
  (∀ pk ev, l_pcRead s = R_new pk None →
     match cfg_acceptFilter cfg with Some f => f (buf_bytes s (rp_data pk)) | None => true end = true →
     ∃ s' o, step (L_read ev) s = Next s' ObsNone ∧
             l_objs s' !! length (l_objs s) = Some o ∧ c_rAddr o = None ∧
             key o = match cfg_remote cfg with Some a => Addr_String a | None => "<nil>" end) ∧
  (∀ c o, l_objs s !! c = Some o → c_rAddr o = None →
     (∀ l s' ob, step l s = Next s' ob → ∃ o', l_objs s' !! c = Some o' ∧ c_rAddr o' = None) ∧
     (∀ rest, l_pcClose s = C_drain → l_acceptCh s = c :: rest → step L_close s = Crash nil_deref) ∧
     (c_phase o = PhClosing K_delete → step (L_conn c) s = Crash nil_deref) ∧
     past_addr (c_phase o) = false).
Proof.
  intros R. pose proof (reach_inv _ _ _ _ R) as I. split.
  - intros pk ev Epc Hf. simpl. unfold step_read. rewrite Epc, Hf.
    destruct (cfg_isListener cfg); eexists _, _; (split; [done|]); simpl;
      (split; [by apply list_lookup_middle|done]).
  - intros c o Ho Ha. split_and!.
    + intros l s' ob E. destruct (rAddr_kept _ _ _ _ _ _ _ E Ho) as (o' & Ho' & Ha').
      exists o'. by rewrite Ha'.
    + intros rest Hp Hch. destruct (i_chan_phase _ _ I c) as (o1 & Ho1 & Hph); [rewrite Hch; left|].
      simplify_eq. simpl. unfold step_close.
      by rewrite Hp, Hch, Ho, (oi_done _ _ _ _ (i_obj _ _ I _ _ Ho)), Hph, Ha.
    + intros Hph. simpl. unfold step_conn. rewrite Ho, Hph. simpl. by rewrite Ha.
    + by apply (reach_nil_inv _ _ _ R c).
Qed.

End table.
