(* ===== verification/SupConnSeq.v ===== *)
(** * Dispatching one packet, as sequential code

    [getSubConn] and [dispatchMsg] of [src/super.go] as functions from state to
    state, and their agreement with the steps of the read loop when no other
    goroutine runs in between. *)

From S2P Require Import Prelude GoLib Types Interfaces SupConn SupConnInv SupConnProps.

Section seq.
Context {Q P : Type} `{!RingQueue Q receivedPacket} `{!BufferPool (list Z) P}.
Variable cfg : config.
Implicit Types (s : Sup Q P) (o : SubConn Q) (c : nat).

Definition getSubConn (rAddr : option Addr) (buf : list Z) (filter : bool) s
    : option nat * bool * option error * Sup Q P :=
  match l_conns s !! rAddrString cfg rAddr with
  | Some c => (Some c, false, None, s)
  | None =>
    if negb (l_accepting s) then (None, false, Some ErrClosedSuperConn, s)
    else if filter && match cfg_acceptFilter cfg with Some f => negb (f buf) | None => false end
    then (None, false, None, s)
    else
      let c := length (l_objs s) in
      let store ph s := set_objs (l_objs s ++ [newSubConn cfg rAddr ph]) s in
      if cfg_isListener cfg then
        let put s := set_conns (<[rAddrString cfg rAddr := c]> (l_conns s)) s in
        if (length (l_acceptCh s) <? cfg_backlog cfg)%nat then
          (Some c, true, None, put (set_acceptCh (l_acceptCh s ++ [c]) (store PhQueued s)))
        else if (cfg_backlog cfg =? 0)%nat && (0 <? l_acceptors s)%nat then
          (Some c, true, None, put (set_acceptors (l_acceptors s - 1) (store PhTaken s)))
        else (None, false, Some ErrListenQueueExceeded, store PhOrphan s)
      else (Some c, true, None, store PhOrphan s)
  end.

Definition dispatchMsg (rAddr : option Addr) (pk : receivedPacket) s : Sup Q P :=
  match getSubConn rAddr (buf_bytes s (rp_data pk)) true s with
  | (Some c, _, _, s') =>
    match l_objs s' !! c with
    | Some o => upd_obj c (set_queue (rq_Push pk (c_queue o)).2) s'
    | None => s'
    end
  | (None, _, _, s') => s'
  end.

(** [n] consecutive steps of the read loop. *)
Fixpoint read_steps (n : nat) (ev : ReadEvent) s : sres Q P :=
  match n with
  | O => Next s ObsNone
  | S n => match step_read cfg ev s with Next s' _ => read_steps n ev s' | r => r end
  end.

Lemma alter_snoc {A} (f : A → A) (l : list A) x : alter f (length l) (l ++ [x]) = l ++ [f x].
Proof. induction l as [|y l IH]; simpl; [done|]. by f_equal. Qed.

Lemma Sup_lock s : l_lock s = None → set_lock None s = s.
Proof. destruct s; simpl. by intros ->. Qed.

Lemma read_steps_S n ev s s' ob :
  step_read cfg ev s = Next s' ob → read_steps (S n) ev s = read_steps n ev s'.
Proof. intros E. simpl. by rewrite E. Qed.

(** From the release of the lock on. *)
Lemma read_push ev s pk c o :
  l_pcRead s = R_unlock pk (Some c) → l_objs s !! c = Some o →
  read_steps 2 ev s =
  Next (set_pcRead R_get (upd_obj c (set_queue (rq_Push pk (c_queue o)).2) (set_lock None s))) ObsNone.
Proof.
  intros Epc Ho. erewrite read_steps_S by (unfold step_read; rewrite Epc; done).
  cbn [read_steps]. unfold step_read. simpl. rewrite Ho. by destruct (rq_Push pk (c_queue o)).
Qed.

Lemma read_discard ev s pk :
  l_pcRead s = R_unlock pk None →
  read_steps 1 ev s = Next (set_pcRead R_get (set_lock None s)) ObsNone.
Proof. intros Epc. simpl. unfold step_read. by rewrite Epc. Qed.

(** Up to the creation of a connection. *)
Lemma read_to_new n ev s pk a :
  l_pcRead s = R_lock pk a → l_lock s = None →
  l_conns s !! rAddrString cfg a = None → l_accepting s = true →
  read_steps (S (S (S n))) ev s =
  read_steps n ev (set_pcRead (R_new pk a) (set_lock (Some OwnRead) s)).
Proof.
  intros Epc Elk Ec Ha.
  erewrite read_steps_S by (unfold step_read; rewrite Epc, Elk; done).
  erewrite read_steps_S by (unfold step_read; simpl; rewrite Ec; done).
  erewrite read_steps_S by (unfold step_read; simpl; rewrite Ha; done).
  done.
Qed.

Ltac enter Hf El :=
  erewrite read_steps_S by (unfold step_read, buf_bytes; simpl; rewrite Hf, El; done).

(** From there on. *)
Lemma read_new_listener ev s pk a :
  l_lock s = None → cfg_isListener cfg = true →
  match cfg_acceptFilter cfg with Some f => f (buf_bytes s (rp_data pk)) | None => true end = true →
  l_conns s !! rAddrString cfg a = None → l_accepting s = true →
  ∃ n, (n ≤ 5)%nat ∧
    read_steps n ev (set_pcRead (R_new pk a) (set_lock (Some OwnRead) s)) =
    Next (set_pcRead R_get (dispatchMsg a pk s)) ObsNone.
Proof.
  intros Elk El Hf Ec Ha. unfold dispatchMsg, getSubConn. rewrite Ec, Ha, El. simpl.
  assert (Hnf : match cfg_acceptFilter cfg with
                | Some f => negb (f (buf_bytes s (rp_data pk))) | None => false end = false)
    by (destruct (cfg_acceptFilter cfg); [by rewrite Hf|done]).
  rewrite Hnf. destruct s as [acc ch nacc dch lk cs objs cwg rwg ecl rdch erd dl bufs pool pcr pcl pcc]; simpl in *; subst. unfold buf_bytes in *. simpl in *.
  destruct (length ch <? cfg_backlog cfg)%nat eqn:Eb;
    [|destruct ((cfg_backlog cfg =? 0)%nat && (0 <? nacc)%nat) eqn:Eb0].
  - exists 5%nat. split; [lia|]. enter Hf El.
    erewrite read_steps_S by (unfold step_read; simpl; rewrite Eb; done).
    erewrite read_steps_S
      by (unfold step_read; simpl; rewrite alter_snoc, list_lookup_middle by done; done).
    erewrite read_push; [|done|simpl; rewrite alter_snoc; by apply list_lookup_middle].
    simpl. rewrite list_lookup_middle by done. unfold upd_obj. simpl. by rewrite !alter_snoc.
  - exists 5%nat. split; [lia|]. enter Hf El.
    erewrite read_steps_S by (unfold step_read; simpl; rewrite Eb, Eb0; done).
    erewrite read_steps_S
      by (unfold step_read; simpl; rewrite alter_snoc, list_lookup_middle by done; done).
    erewrite read_push; [|done|simpl; rewrite alter_snoc; by apply list_lookup_middle].
    simpl. rewrite list_lookup_middle by done. unfold upd_obj. simpl. by rewrite !alter_snoc.
  - exists 3%nat. split; [lia|]. enter Hf El.
    erewrite read_steps_S by (unfold step_read; simpl; rewrite Eb, Eb0; done).
    erewrite read_discard by done. unfold upd_obj. simpl. by rewrite alter_snoc.
Qed.

(** The steps of the read loop are [dispatchMsg].  Started with a packet in
    hand and [connLock] free, and not interrupted, the read loop performs
    [dispatchMsg] as written: look the sender up, refuse when not accepting or
    filtered, else create, queue and register a connection, and push the
    packet; the lock is free again at the end. *)
Lemma readLoop_is_dispatchMsg pool bufs s ev pk a :
  reach cfg pool bufs s → l_pcRead s = R_lock pk a → l_lock s = None →
  ∃ n, (n ≤ 8)%nat ∧
    read_steps n ev s = Next (set_pcRead R_get (dispatchMsg a pk s)) ObsNone.
Proof.
  intros I%reach_inv Epc Elk.
  destruct (l_conns s !! rAddrString cfg a) as [c|] eqn:Ec.
  { destruct (i_table _ _ I _ _ Ec) as (o & Ho & _). exists 4%nat. split; [lia|].
    erewrite read_steps_S by (unfold step_read; rewrite Epc, Elk; done).
    erewrite read_steps_S by (unfold step_read; simpl; rewrite Ec; done).
    erewrite read_push by done. unfold dispatchMsg, getSubConn. rewrite Ec, Ho.
    by destruct s; simplify_eq/=. }
  destruct (l_accepting s) eqn:Ha.
  2: { exists 4%nat. split; [lia|].
       erewrite read_steps_S by (unfold step_read; rewrite Epc, Elk; done).
       erewrite read_steps_S by (unfold step_read; simpl; rewrite Ec; done).
       erewrite read_steps_S by (unfold step_read; simpl; rewrite Ha; done).
       erewrite read_discard by done. unfold dispatchMsg, getSubConn. rewrite Ec, Ha.
       by destruct s; simplify_eq/=. }
  destruct (match cfg_acceptFilter cfg with
            | Some f => f (buf_bytes s (rp_data pk)) | None => true end) eqn:Hf.
  2: { exists 5%nat. split; [lia|]. rewrite (read_to_new 2 _ _ pk a) by done.
       erewrite read_steps_S by (unfold step_read; simpl; unfold buf_bytes in *; simpl; rewrite Hf; done).
       erewrite read_discard by done. unfold dispatchMsg, getSubConn. rewrite Ec, Ha. simpl.
       destruct (cfg_acceptFilter cfg); [|done]. rewrite Hf. by destruct s; simplify_eq/=. }
  destruct (cfg_isListener cfg) eqn:El.
  - destruct (read_new_listener ev s pk a) as (n & Hn & E); try done.
    exists (S (S (S n))). split; [lia|]. by rewrite (read_to_new n _ _ pk a).
  - exists 6%nat. split; [lia|]. rewrite (read_to_new 3 _ _ pk a) by done.
    erewrite read_steps_S
      by (unfold step_read; simpl; unfold buf_bytes in *; simpl; rewrite Hf, El; done).
    erewrite read_push; [|done|by apply list_lookup_middle].
    unfold dispatchMsg, getSubConn. rewrite Ec, Ha, El. simpl.
    assert (Hnf : match cfg_acceptFilter cfg with
                  | Some f => negb (f (buf_bytes s (rp_data pk))) | None => false end = false)
      by (destruct (cfg_acceptFilter cfg); [by rewrite Hf|done]).
    rewrite Hnf. simpl. rewrite list_lookup_middle by done. by destruct s; simplify_eq/=.
Qed.

End seq.
