(* ===== verification/SupConnScenarios.v ===== *)
(** * Executions of the super-connection

    Concrete schedules, run by computation on a list-backed queue and a stack
    of buffers: instances of the theorems about the super-connection, and two
    races of its shutdown. *)

From S2P Require Import Prelude GoLib Types Interfaces SupConn SupConnInv SupConnProps SupConnLive SupConnTerm.
From S2P Require Import SupConnBufs SupConnFlow SupConnTable SupConnSeq.

#[local] Abbreviation Qc := (list_queue receivedPacket).
#[local] Abbreviation Pc := stack_pool.
#[local] Instance byte_pool : BufferPool (list Z) Pc := stack_pool_ops [].
#[local] Instance byte_pool_laws : BufferPoolLaws (list Z) Pc length := stack_pool_laws [] length eq_refl.

(** A listener with a backlog of two, on a socket with ECN. *)
Definition demo_cfg : config := MkConfig true None 2 ConnCapabilityECN None.
Definition demo_pool : Pc := MkStack [] [].
Definition demo0 : Sup Qc Pc := wrapConn demo_pool ∅.

Section runs.
Variable cfg : config.

Definition label_okb (l : label) : bool :=
  match l with L_read (EvPacket _ _ _ None) => false | _ => true end.

(** The state after a schedule, when every step of it can be taken. *)
Fixpoint sched (ls : list label) (s : Sup Qc Pc) : option (Sup Qc Pc) :=
  match ls with
  | [] => Some s
  | l :: ls' =>
    if label_okb l
    then match step cfg l s with Next s' _ => sched ls' s' | _ => None end
    else None
  end.

Lemma label_okb_ok l : label_okb l = true → label_ok l.
Proof. by destruct l as [[? ? ? []|]| | | | | | | | | | | | | |]. Qed.

Lemma sched_sent ls s s' :
  reach_sent cfg demo_pool ∅ s → sched ls s = Some s' → reach_sent cfg demo_pool ∅ s'.
Proof.
  revert s. induction ls as [|l ls IH]; intros s R E; simpl in E; [by simplify_eq|].
  destruct (label_okb l) eqn:Hl; [|done]. destruct (step cfg l s) as [|s1 ob|] eqn:E1; try done.
  apply (IH s1); [|done]. econstructor; [done|by apply label_okb_ok|done].
Qed.

(** No connection sits between the channel receive and the count. *)
Definition no_taken (s : Sup Qc Pc) : bool :=
  forallb (λ o, negb (bool_decide (c_phase o = PhTaken))) (l_objs s).

Definition calmb (l : label) (s : Sup Qc Pc) : bool :=
  match l, l_pcClose s with L_close, C_wgDone _ => no_taken s | _, _ => true end.

Fixpoint sched_calm (ls : list label) (s : Sup Qc Pc) : option (Sup Qc Pc) :=
  match ls with
  | [] => Some s
  | l :: ls' =>
    if label_okb l && calmb l s
    then match step cfg l s with Next s' _ => sched_calm ls' s' | _ => None end
    else None
  end.

Lemma calmb_calm l s : calmb l s = true → calm l s.
Proof.
  intros H -> [n Hn] c o Ho. unfold calmb in H. rewrite Hn in H. unfold no_taken in H.
  rewrite forallb_forall in H. specialize (H o). rewrite negb_true_iff, bool_decide_eq_false in H.
  apply H, list_elem_of_In. by eapply list_elem_of_lookup_2.
Qed.

Lemma sched_calm_reach ls s s' :
  reach_calm cfg demo_pool ∅ s → sched_calm ls s = Some s' → reach_calm cfg demo_pool ∅ s'.
Proof.
  revert s. induction ls as [|l ls IH]; intros s R E; simpl in E; [by simplify_eq|].
  destruct (label_okb l && calmb l s) eqn:Hl; [|done]. apply andb_true_iff in Hl as [Hl Hc].
  destruct (step cfg l s) as [|s1 ob|] eqn:E1; try done.
  apply (IH s1); [|done]. econstructor; [done|by apply label_okb_ok|by apply calmb_calm|done].
Qed.

End runs.

Lemma demo_ready : pool_ready demo_pool ∅.
Proof. split; [done|]. intros [] b Hb; by apply not_elem_of_empty in Hb. Qed.

(** ** Labels *)

Definition addr1 : option Addr := Some (UDPAddr [10; 0; 0; 1] 1000 "").
Definition addr2 : option Addr := Some (UDPAddr [10; 0; 0; 2] 2000 "").
Definition tick : label := L_read (EvError (ErrText "use of closed network connection")).

(** The read loop takes buffers, receives, and runs [n] more steps. *)
Definition packet (n : nat) (d : list Z) (a : option Addr) : list label :=
  [tick; L_read (EvPacket d [7] 1 a)] ++ replicate n tick.

(** A packet of a new remote, of a known one; a full [Accept]. *)
Definition first_packet := packet 8.
Definition next_packet := packet 4.
Definition accept1 (c : nat) : list label := [L_callAccept; L_acceptConn; L_acceptAdd c].

Example demo_first :
  (λ s, (l_acceptCh s, map_to_list (l_conns s), l_pcRead s)) <$>
    sched demo_cfg (first_packet [1; 2; 3] addr1) demo0 = Some ([0%nat], [("10.0.0.1:1000", 0%nat)], R_get).
Proof. vm_compute. reflexivity. Qed.

Definition after (ls : list label) : Sup Qc Pc := default demo0 (sched demo_cfg ls demo0).
Definition after_calm (ls : list label) : Sup Qc Pc := default demo0 (sched_calm demo_cfg ls demo0).

Lemma after_sent ls : is_Some (sched demo_cfg ls demo0) → reach_sent demo_cfg demo_pool ∅ (after ls).
Proof. intros [s E]. unfold after. rewrite E. eapply sched_sent; [constructor|exact E]. Qed.

Lemma after_reach ls : is_Some (sched demo_cfg ls demo0) → reach demo_cfg demo_pool ∅ (after ls).
Proof. intros H. by apply (reach_sent_inv demo_cfg demo_pool ∅), after_sent. Qed.

Lemma after_reach_calm ls :
  is_Some (sched_calm demo_cfg ls demo0) → reach_calm demo_cfg demo_pool ∅ (after_calm ls).
Proof. intros [s E]. unfold after_calm. rewrite E. eapply sched_calm_reach; [constructor|exact E]. Qed.

Ltac runs := vm_compute; eexists; reflexivity.

(** ** Races *)

(** An [Accept] holds a connection it has not counted when [Close] gives up
    the last unit of [connWG]: the release of the closing goroutine is still to
    come, or done. *)
Definition misuse_ls : list label :=
  [L_closer None] ++ first_packet [1; 2; 3] addr1 ++ [L_callAccept; L_acceptConn] ++
  [L_callClose] ++ replicate 6 L_close.
Definition race_ls : list label := misuse_ls ++ [L_close].

(** C35: both panics happen.  There are schedules of one packet, one [Accept]
    and one [Close] in which [Accept] counts its connection after [Close] has
    released the last unit.  Before the closing goroutine has woken, [Accept]
    returns and that goroutine panics with "WaitGroup is reused before previous
    Wait has returned"; between the zero and the release of that goroutine,
    [Accept] itself panics with "WaitGroup misuse: Add called concurrently with
    Wait".  Either ends the process. *)
Theorem accept_close_race :
  (∃ s ob s', reach demo_cfg demo_pool ∅ s ∧
    step demo_cfg (L_acceptAdd 0) s = Next s' ob ∧ ob = ObsAccept (inl 0%nat) ∧
    step demo_cfg (L_closer None) s' = Crash wg_reused) ∧
  (∃ s, reach demo_cfg demo_pool ∅ s ∧ step demo_cfg (L_acceptAdd 0) s = Crash wg_misuse).
Proof.
  split.
  - exists (after race_ls). eexists _, _. split; [apply after_reach; runs|].
    split; [vm_compute; reflexivity|]. split; [reflexivity|vm_compute; reflexivity].
  - exists (after misuse_ls). split; [apply after_reach; runs|vm_compute; reflexivity].
Qed.

(** [Accept] can return a dead connection.  In the same overlap, when the
    closing goroutine is faster, the socket is already closed when [Accept]
    returns the connection as a success. *)
Lemma accept_after_socket_closed :
  ∃ s s', reach demo_cfg demo_pool ∅ s ∧ l_pcCloser s = G_end ∧
    step demo_cfg (L_acceptAdd 0) s = Next s' (ObsAccept (inl 0%nat)).
Proof.
  exists (after (race_ls ++ replicate 3 (L_closer None))). eexists.
  split; [apply after_reach; runs|]. split; vm_compute; reflexivity.
Qed.

(** The count of open connections that [Conn.Close] took is stale when it
    looks at [accepting]. *)
Definition stale_ls : list label :=
  first_packet [1] addr1 ++ accept1 0 ++ [L_connClose 0] ++ replicate 5 (L_conn 0) ++
  first_packet [2] addr2 ++ accept1 1 ++ [L_callClose; L_close] ++ replicate 2 (L_conn 0).

(** C36: [Conn.Close] can wait for another connection.  A connection that was
    the last one when it left the table, but not any more when it tests
    [accepting], waits for the read loop: it is blocked while the other
    connection is open and in use, contrary to the comment that only the final
    connection waits. *)
Theorem conn_close_waits_for_peer :
  ∃ s o1, reach demo_cfg demo_pool ∅ s ∧
    step demo_cfg (L_conn 0) s = Blocked ∧
    (c_phase <$> l_objs s !! 0%nat) = Some (PhClosing K_sleep) ∧
    l_objs s !! 1%nat = Some o1 ∧ c_phase o1 = PhOpen ∧
    l_conns s !! SupConnInv.key demo_cfg o1 = Some 1%nat.
Proof.
  exists (after stale_ls). eexists. split; [apply after_reach; runs|].
  split; [vm_compute; reflexivity|]. split; [vm_compute; reflexivity|].
  split; [vm_compute; reflexivity|]. split; vm_compute; reflexivity.
Qed.

(** A listener over a connected socket, whose packets come without a sender. *)
Definition connected_cfg : config := MkConfig true None 2 ConnCapabilityECN addr1.

(** A packet without a sender: a listener over a connected socket, its
    connection accepted and about to delete itself from the table. *)
Fixpoint sched_any (cfg : config) (ls : list label) (s : Sup Qc Pc) : option (Sup Qc Pc) :=
  match ls with
  | [] => Some s
  | l :: ls' => match step cfg l s with Next s' _ => sched_any cfg ls' s' | _ => None end
  end.

Lemma sched_any_reach cfg ls s s' :
  reach cfg demo_pool ∅ s → sched_any cfg ls s = Some s' → reach cfg demo_pool ∅ s'.
Proof.
  revert s. induction ls as [|l ls IH]; intros s R E; simpl in E; [by simplify_eq|].
  destruct (step cfg l s) as [|s1 ob|] eqn:E1; try done. apply (IH s1); [by econstructor|done].
Qed.

Definition nil_ls : list label :=
  first_packet [1] None ++ accept1 0 ++ [L_connClose 0] ++ replicate 3 (L_conn 0).

Lemma nil_sender_close_panics_witness :
  ∃ s, reach connected_cfg demo_pool ∅ s ∧ l_conns s !! "10.0.0.1:1000" = Some 0%nat ∧
    step connected_cfg (L_conn 0) s = Crash nil_deref.
Proof.
  destruct (sched_any connected_cfg nil_ls demo0) as [s|] eqn:E; [|by vm_compute in E].
  assert (R : reach connected_cfg demo_pool ∅ s) by (eapply sched_any_reach; [constructor|exact E]).
  exists s. split; [exact R|]. split; [vm_compute in E; by injection E as <-|].
  destruct (l_objs s !! 0%nat) as [o|] eqn:Ho;
    [|vm_compute in E; injection E as <-; discriminate Ho].
  destruct (nil_sender_close_panics connected_cfg demo_pool ∅ s R) as [_ H].
  apply (H 0%nat o Ho); vm_compute in E; injection E as <-; vm_compute in Ho; by injection Ho as <-.
Defined.

(** ** Instances of the theorems *)

Lemma only_panics_are_misuse_witness :
  (let s := after (race_ls ++ [L_acceptAdd 0]) in
   past_wgDone (l_pcClose s) = true ∧ l_pcCloser s = G_sleep) ∧
  (let s := after misuse_ls in
   past_wgDone (l_pcClose s) = true ∧ l_pcCloser s = G_sleep).
Proof.
  split; intros s.
  - destruct (only_panics_are_misuse demo_cfg demo_pool ∅ s (L_closer None) wg_reused)
      as (H1 & H2 & _); [apply after_sent; runs|vm_compute; reflexivity|by split].
  - destruct (only_panics_are_misuse demo_cfg demo_pool ∅ s (L_acceptAdd 0) wg_misuse)
      as (H1 & H2 & _); [apply after_sent; runs|vm_compute; reflexivity|by split].
Defined.

(** An orderly shutdown: a connection is accepted, the listener closed, the
    connection closed, the socket closed. *)
Definition calm_ls : list label :=
  [L_closer None] ++ first_packet [1; 2; 3] addr1 ++ accept1 0 ++ [L_callClose] ++ replicate 6 L_close ++
  [L_connClose 0] ++ replicate 6 (L_conn 0).

Lemma calm_never_panics_witness :
  step demo_cfg (L_closer None) (after_calm calm_ls) ≠ Crash wg_reused.
Proof.
  apply (calm_never_panics demo_cfg demo_pool ∅), after_reach_calm; runs.
Defined.

Lemma socket_closed_last_witness :
  let s := after_calm (calm_ls ++ [L_closer None]) in
  past_wgDone (l_pcClose s) = true ∧ l_accepting s = false ∧ l_acceptCh s = [] ∧
  ∀ c o, l_objs s !! c = Some o →
    match c_phase o with
    | PhClosing (K_wgDone | K_wgRelease _) | PhNew | PhQueued | PhTaken | PhOpen => False
    | _ => True
    end.
Proof.
  intros s. apply (socket_closed_last demo_cfg demo_pool ∅ s).
  - apply after_reach_calm; runs.
  - left. vm_compute. reflexivity.
Defined.

(** [Close] with a queued connection that nobody accepts: it is discarded and
    [Close] waits. *)
Definition wait_ls : list label :=
  [L_closer None] ++ first_packet [1; 2; 3] addr1 ++ [L_callClose] ++ replicate 8 L_close.

(** The rest of that shutdown: the socket is closed, [ReadPacket] fails. *)
Definition finish_ls (res : option error) : list label :=
  replicate 3 (L_closer res) ++ replicate 4 tick ++ [L_close; L_close].

Fixpoint sched_runs (ls : list label) (s : Sup Qc Pc) : option (nat * nat * Sup Qc Pc) :=
  match ls with
  | [] => Some (0%nat, 0%nat, s)
  | l :: ls' =>
    match step demo_cfg l s with
    | Next s1 _ =>
      match sched_runs ls' s1 with
      | Some (n, k, s2) => Some ((own l + n)%nat, (extra l s + k)%nat, s2)
      | None => None
      end
    | _ => None
    end
  end.

Lemma sched_runs_runs ls s n k s' : sched_runs ls s = Some (n, k, s') → runs demo_cfg n k s s'.
Proof.
  revert s n k. induction ls as [|l ls IH]; intros s n k E; simpl in E; [simplify_eq; constructor|].
  destruct (step demo_cfg l s) as [|s1 ob|] eqn:E1; try done.
  destruct (sched_runs ls s1) as [[[n1 k1] s2]|] eqn:E2; simplify_eq.
  econstructor; [exact E1|by apply IH].
Qed.

Lemma close_terminates_witness :
  let s := after wait_ls in
  let res := Some (ErrText "close failed") in
  left s = 14%nat ∧
  ∃ s', runs demo_cfg 9 0 s s' ∧ quiet demo_cfg s' ∧ (9 ≤ left s + 20 * 0)%nat ∧
        ended s' ∧ l_pcClose s' = C_returned (l_errClose s') ∧ l_errClose s' = res.
Proof.
  intros s res. split; [vm_compute; reflexivity|].
  destruct (sched_runs (finish_ls res) s) as [[[n k] s']|] eqn:E; [|by vm_compute in E].
  assert (Hn : n = 9%nat ∧ k = 0%nat) by (vm_compute in E; injection E as <- <- <-; by split).
  destruct Hn as [-> ->].
  assert (HR := sched_runs_runs _ _ _ _ _ E).
  assert (HQ : quiet demo_cfg s').
  { clear HR. vm_compute in E. injection E as <-. constructor; [done|done|by intros [|[|c]]|by right]. }
  assert (He : l_errClose s' = res) by (clear HR; vm_compute in E; by injection E as <-).
  exists s'. split; [exact HR|]. split; [exact HQ|].
  destruct (close_terminates demo_cfg demo_pool ∅ s 9 0 s') as [H1 H2];
    [apply after_reach; runs|vm_compute; reflexivity|exact HR|].
  split; [exact H1|]. destruct (H2 HQ) as [_ H3]. destruct H3; [vm_compute; reflexivity|by split_and!].
Defined.

(** [Close] about to load the error of the socket. *)
Fixpoint sched_log (ls : list label) (log : list (option error)) (s : Sup Qc Pc)
    : option (list (option error) * Sup Qc Pc) :=
  match ls with
  | [] => Some (log, s)
  | l :: ls' =>
    match step demo_cfg l s with
    | Next s1 _ => sched_log ls' (log ++ socket_closes l s) s1
    | _ => None
    end
  end.

Lemma sched_log_reach ls log s log' s' :
  reach_log demo_cfg demo_pool ∅ log s → sched_log ls log s = Some (log', s') →
  reach_log demo_cfg demo_pool ∅ log' s'.
Proof.
  revert log s. induction ls as [|l ls IH]; intros log s R E; simpl in E; [by simplify_eq|].
  destruct (step demo_cfg l s) as [|s1 ob|] eqn:E1; try done. eapply IH; [|exact E]. by econstructor.
Qed.

Lemma close_error_published_witness :
  let res := Some (ErrText "close failed") in
  ∃ s, reach_log demo_cfg demo_pool ∅ [res] s ∧ l_pcClose s = C_loadErr ∧
       step demo_cfg L_close s = Next (set_pcClose (C_returned res) s) (ObsClosed res).
Proof.
  intros res.
  destruct (sched_log (wait_ls ++ replicate 3 (L_closer res) ++ replicate 4 tick ++ [L_close]) [] demo0)
    as [[log s]|] eqn:E; [|by vm_compute in E].
  assert (R : reach_log demo_cfg demo_pool ∅ log s) by (eapply sched_log_reach; [constructor|exact E]).
  assert (Hl : log = [res]) by (clear R; vm_compute in E; by injection E as <- <-).
  assert (Hp : l_pcClose s = C_loadErr) by (clear R; vm_compute in E; by injection E as <- <-).
  rewrite Hl in R. exists s. split; [exact R|]. split; [exact Hp|].
  destruct (close_error_published demo_cfg demo_pool ∅ [res] s R) as [H _].
  destruct (H Hp) as (_ & res' & Hres & Hs). by injection Hres as <-.
Defined.

(** Two packets of one remote, the connection accepted. *)
Definition two_ls : list label :=
  first_packet [1; 2; 3] addr1 ++ next_packet [4; 5] addr1 ++ accept1 0.
Definition read0 : label := L_connRead 0 0 [0; 0] [0].

Lemma supConn_refines_demux_witness :
  ∃ s', step demo_cfg read0 (after two_ls) =
          Next s' (ObsRead (MkRead [1; 2] [7] 2 1 1 None None)) ∧
    dapply (A_read 0 ([1; 2; 3], [7], 1)) (abs demo_cfg (after two_ls)) = Some (abs demo_cfg s').
Proof.
  destruct (step demo_cfg read0 (after two_ls)) as [|s' ob|] eqn:E; [by vm_compute in E| |by vm_compute in E].
  assert (Hob : ob = ObsRead (MkRead [1; 2] [7] 2 1 1 None None)).
  { vm_compute in E. by injection E as _ <-. }
  exists s'. split; [by rewrite Hob|].
  assert (Ha : action demo_cfg read0 (after two_ls) = A_read 0 ([1; 2; 3], [7], 1))
    by (vm_compute; reflexivity).
  rewrite <- Ha. apply (supConn_refines_demux demo_cfg demo_pool ∅ _ _ _ ob).
  - apply demo_ready.
  - apply after_reach; runs.
  - exact E.
Defined.

(** The trace of a schedule. *)
Fixpoint sched_tr (ls : list label) (tr : list (label * obs * act)) (s : Sup Qc Pc)
    : option (list (label * obs * act) * Sup Qc Pc) :=
  match ls with
  | [] => Some (tr, s)
  | l :: ls' =>
    if label_okb l then
      match step demo_cfg l s with
      | Next s' ob => sched_tr ls' (tr ++ [(l, ob, action demo_cfg l s)]) s'
      | _ => None
      end
    else None
  end.

Lemma sched_tr_exec ls tr s tr' s' :
  exec demo_cfg demo_pool ∅ tr s → sched_tr ls tr s = Some (tr', s') →
  exec demo_cfg demo_pool ∅ tr' s'.
Proof.
  revert tr s. induction ls as [|l ls IH]; intros tr s X E; simpl in E; [by simplify_eq|].
  destruct (label_okb l) eqn:Hl; [|done]. destruct (step demo_cfg l s) as [|s1 ob|] eqn:E1; try done.
  eapply IH; [|exact E]. by econstructor.
Qed.

Definition traced (ls : list label) : list (label * obs * act) * Sup Qc Pc :=
  default ([], demo0) (sched_tr ls [] demo0).

Lemma traced_exec ls :
  is_Some (sched_tr ls [] demo0) → exec demo_cfg demo_pool ∅ (traced ls).1 (traced ls).2.
Proof.
  intros [[tr s] E]. unfold traced. rewrite E. eapply sched_tr_exec; [constructor|exact E].
Qed.

Lemma reads_are_in_order_witness :
  let '(tr, s) := traced (two_ls ++ [read0]) in
  ∃ o ms queued, l_objs s !! 0%nat = Some o ∧
    Forall2 (λ x m, x.2 = read_result x.1.1 x.1.2 m) (reads 0 tr) ms ∧
    queued = msg_of (l_bufs s) <$> rq_items (c_queue o) ∧
    ms ++ queued `sublist_of` recvs (SupConnInv.key demo_cfg o) tr.*2.
Proof.
  destruct (traced (two_ls ++ [read0])) as [tr s] eqn:E.
  destruct (l_objs s !! 0%nat) as [o|] eqn:Ho; [|vm_compute in E; injection E as _ <-; discriminate Ho].
  exists o. destruct (reads_are_in_order demo_cfg demo_pool ∅ tr s 0 o) as (ms & queued & H).
  - apply demo_ready.
  - pose proof (traced_exec (two_ls ++ [read0])) as X. rewrite E in X. apply X. runs.
  - exact Ho.
  - exists ms, queued. by split.
Defined.

Definition full_ls : list label :=
  first_packet [1] addr1 ++ first_packet [2] addr2 ++
  packet 4 [3] (Some (UDPAddr [10; 0; 0; 3] 3000 "")).

Lemma drop_has_reason_witness :
  let s := after full_ls in
  ∃ pk s', step demo_cfg tick s = Next s' ObsNone ∧ held (l_pcRead s) = Some pk ∧
    held (l_pcRead s') = None ∧ drop_reason demo_cfg s pk.
Proof.
  intros s.
  destruct (step demo_cfg tick s) as [|s' ob|] eqn:E; [by vm_compute in E| |by vm_compute in E].
  destruct (held (l_pcRead s)) as [pk|] eqn:Hh; [|by vm_compute in Hh].
  assert (Hn : ob = ObsNone ∧ held (l_pcRead s') = None)
    by (vm_compute in E; injection E as <- <-; split; reflexivity).
  destruct Hn as [-> Hn]. exists pk, s'. split; [done|]. split; [done|]. split; [exact Hn|].
  destruct (drop_has_reason demo_cfg demo_pool ∅ s s' tick ObsNone pk) as [H|[(c & o & o' & H & _)|[H _]]].
  - apply after_reach; runs.
  - exact E.
  - exact Hh.
  - by rewrite Hn in H.
  - by vm_compute in H.
  - exact H.
Defined.

Lemma one_conn_per_remote_witness :
  let s := after two_ls in
  is_Some (l_objs s !! 0%nat) ∧ ∀ c, (∃ o, l_objs s !! c = Some o ∧ in_table (c_phase o) = true ∧
        SupConnInv.key demo_cfg o = "10.0.0.1:1000") → c = 0%nat.
Proof.
  intros s. split; [runs|]. intros c (o & Ho & Ht & Hk).
  destruct (l_objs s !! 0%nat) as [o0|] eqn:E; [|vm_compute in E; discriminate E].
  apply (one_conn_per_remote demo_cfg demo_pool ∅ s c 0 o o0).
  - apply after_reach; runs.
  - exact Ho.
  - exact E.
  - exact Ht.
  - vm_compute in E. injection E as <-. reflexivity.
  - rewrite Hk. vm_compute in E. injection E as <-. reflexivity.
Defined.

Definition deleting_ls : list label := two_ls ++ [L_connClose 0] ++ replicate 3 (L_conn 0).

Lemma close_removes_own_entry_witness :
  ∃ s' o, l_objs (after deleting_ls) !! 0%nat = Some o ∧
    step demo_cfg (L_conn 0) (after deleting_ls) = Next s' ObsNone ∧
    l_conns (after deleting_ls) !! SupConnInv.key demo_cfg o = Some 0%nat ∧
    l_conns s' !! SupConnInv.key demo_cfg o = None.
Proof.
  set (s := after deleting_ls).
  destruct (l_objs s !! 0%nat) as [o|] eqn:Ho; [|vm_compute in Ho; discriminate Ho].
  destruct (step demo_cfg (L_conn 0) s) as [|s' ob|] eqn:E; [by vm_compute in E| |by vm_compute in E].
  assert (ob = ObsNone) as -> by (vm_compute in E; by injection E as _ <-).
  assert (Hph : c_phase o = PhClosing K_delete) by (vm_compute in Ho; by injection Ho as <-).
  exists s', o. split; [done|]. split; [done|].
  destruct (close_removes_own_entry demo_cfg demo_pool ∅ s s' 0 o ObsNone) as (H1 & H2 & _);
    [apply after_reach; runs|exact Ho|exact Hph|exact E|by split].
Defined.

Lemma close_stops_admission_witness :
  let s := after wait_ls in
  length (l_objs s) = 1%nat ∧ l_acceptCh s = [] ∧
  ∃ s', rtc (λ s s', ∃ l ob, step demo_cfg l s = Next s' ob) s s' ∧
        length (l_objs s') = 1%nat ∧ l_acceptCh s' = [].
Proof.
  intros s. split; [vm_compute; reflexivity|]. split; [vm_compute; reflexivity|].
  destruct (step demo_cfg L_close s) as [|s' ob|] eqn:E; [by vm_compute in E| |by vm_compute in E].
  assert (R : rtc (λ s s', ∃ l ob, step demo_cfg l s = Next s' ob) s s').
  { apply rtc_once. by exists L_close, ob. }
  exists s'. split; [exact R|].
  destruct (close_stops_admission demo_cfg demo_pool ∅ s s') as (H1 & _ & _ & H4);
    [apply after_reach; runs|vm_compute; reflexivity|exact R|].
  split; [rewrite H1; vm_compute; reflexivity|apply H4; vm_compute; reflexivity].
Defined.

Lemma accept_unblocked_witness :
  let s := after ([L_callAccept; L_callClose; L_close; L_close]) in
  ∃ s', step demo_cfg L_acceptDone s = Next s' (ObsAccept (inr (Some ErrClosedSuperConn))) ∧
        l_acceptors s' = (l_acceptors s - 1)%nat.
Proof.
  intros s. apply (accept_unblocked demo_cfg demo_pool ∅ s).
  - apply after_reach; runs.
  - vm_compute. reflexivity.
  - vm_compute. lia.
Defined.

Lemma exec_trace cfg pool bufs tr s :
  @exec Qc Pc _ _ cfg pool bufs tr s → trace cfg pool bufs (tr.*1.*2) s.
Proof.
  induction 1 as [|tr s s' l ob X IH E]; [constructor|].
  rewrite !fmap_app. eapply trace_snoc; [exact IH|exact E].
Qed.

Definition both_ls : list label :=
  first_packet [1] addr1 ++ first_packet [2] addr2 ++
  [L_callAccept; L_callAccept; L_acceptConn; L_acceptConn; L_acceptAdd 1; L_acceptAdd 0].

Lemma accepted_once_witness :
  accepted ((traced both_ls).1.*1.*2) = [1%nat; 0%nat] ∧ NoDup (accepted ((traced both_ls).1.*1.*2)).
Proof.
  split; [vm_compute; reflexivity|].
  apply (accepted_once demo_cfg demo_pool ∅ _ (traced both_ls).2).
  apply exec_trace, traced_exec. runs.
Defined.

Definition closed_ls : list label := two_ls ++ [L_connClose 0] ++ replicate 7 (L_conn 0).

Lemma closed_conn_reads_eof_witness :
  ∃ s', step demo_cfg (L_connRead 0 0 [9; 9] [8]) (after closed_ls) =
        Next s' (ObsRead (MkRead [9; 9] [8] 0 0 ECNNon None (Some io_EOF))).
Proof.
  destruct (l_objs (after closed_ls) !! 0%nat) as [o|] eqn:Ho; [|vm_compute in Ho; discriminate Ho].
  assert (He : c_ecnDefault o = ECNNon) by (vm_compute in Ho; by injection Ho as <-).
  rewrite <- He. apply (closed_conn_reads_eof demo_cfg demo_pool ∅ _ 0 o None).
  - apply after_reach; runs.
  - exact Ho.
  - vm_compute in Ho. by injection Ho as <-.
Defined.

Lemma readLoop_is_dispatchMsg_witness :
  let s := after (packet 0 [1; 2] addr1) in
  let pk := MkPkt 0 1 1 in
  ∃ n, (n ≤ 8)%nat ∧
    read_steps demo_cfg n (EvError (ErrText "")) s =
    Next (set_pcRead R_get (dispatchMsg demo_cfg addr1 pk s)) ObsNone.
Proof.
  intros s pk. apply (readLoop_is_dispatchMsg demo_cfg demo_pool ∅ s).
  - apply after_reach; runs.
  - vm_compute. reflexivity.
  - vm_compute. reflexivity.
Defined.
