(* ===== verification/Endpoints.v ===== *)
(** * Connections as the user sees them

    The rest of [src/conn.go] (writes, deadlines, addresses), [SingleAddrConn]
    of [src/connected.go], and the constructors of [src/dial.go] and
    [src/listener.go]. *)

From S2P Require Import Prelude GoLib Types Interfaces GoWorld Cmsg SockBuf SupConn OobConn.

(** ** Conn: writing *)

Section conn.
Context {W Q : Type} `{!RingQueue Q receivedPacket}.

(** A [*Conn] with its write deadline; 0 is "none". *)
Record Conn : Type := MkConnW { cn_sub : SubConn Q; cn_writeDeadline : Z }.

(** [select] picks any of its ready cases: [pick] is its choice. *)
Definition checkWriteDeadline (pick : bool) (now : Z) (c : Conn) : option error :=
  let done := c_doneCh (cn_sub c) in
  let passed := (0 <? cn_writeDeadline c) && (cn_writeDeadline c <=? now) in
  match done, passed with
  | true, true => if pick then Some ErrClosedSuperConn else Some context_DeadlineExceeded
  | true, false => Some ErrClosedSuperConn
  | false, true => Some context_DeadlineExceeded
  | false, false => None
  end.

Definition Conn_Write (raw : RawConn W) (pick : bool) (now : Z) (p oob : list Z) (gsoSize : Z) (ecn : ECN)
    (c : Conn) : GoM W WriteResult :=
  match checkWriteDeadline pick now c with
  | Some e => mret (MkWrite 0 0 (Some e))
  | None => rc_WritePacket raw p oob (u16 gsoSize) ecn (c_rAddr (cn_sub c))
  end.

Definition Conn_SetReadDeadline (t : Z) (c : Conn) : option error * Conn :=
  let '(e, q) := rq_SetPopDeadline t (c_queue (cn_sub c)) in
  (e, MkConnW (set_queue q (cn_sub c)) (cn_writeDeadline c)).
Definition Conn_SetWriteDeadline (t : Z) (c : Conn) : option error * Conn :=
  (None, MkConnW (cn_sub c) t).
Definition Conn_SetDeadline (t : Z) (c : Conn) : option error * Conn :=
  let '(_, c) := Conn_SetWriteDeadline t c in Conn_SetReadDeadline t c.

Definition Conn_LocalAddr (raw : RawConn W) (c : Conn) : GoM W (option Addr) := rc_LocalAddr raw.
Definition Conn_RemoteAddr (c : Conn) : option Addr := c_rAddr (cn_sub c).
(** [supConn.Addr] and [supConn.Capabilities]; the latter, as [Conn]'s, is the
    value [wrapConn] stored. *)
Definition supConn_Addr (raw : RawConn W) : GoM W (option Addr) := rc_LocalAddr raw.
Definition supConn_Capabilities (cfg : config) : ConnCapabilities := cfg_caps cfg.
Definition Conn_Capabilities (cfg : config) (c : Conn) : ConnCapabilities := supConn_Capabilities cfg.

End conn.
Arguments Conn Q : clear implicits.

(** ** SingleAddrConn *)

Record SingleAddrConn (W : Type) : Type := MkSingle { sa_base : RawConn W; sa_addr : option Addr }.
Arguments MkSingle {W} _ _.
Arguments sa_base {W} _.
Arguments sa_addr {W} _.

Section single.
Context {W : Type}.
Implicit Types c : SingleAddrConn W.

Definition Single_Close c : GoM W (option error) := rc_Close (sa_base c).

(** The address of the sender is not part of the results of [Read]. *)
Definition Single_Read c (p oob : list Z) : GoM W ReadResult :=
  r ← rc_ReadPacket (sa_base c) p oob;
  match rr_addr r, sa_addr c with
  | Some a, Some peer =>
    if bool_decide (Addr_String a ≠ Addr_String peer)
    then mret (MkRead (rr_b r) (rr_oob r) 0 0 0 None None)
    else mret (MkRead (rr_b r) (rr_oob r) (rr_n r) (rr_oobn r) (rr_ecn r) None (rr_err r))
  | _, _ => mret (MkRead (rr_b r) (rr_oob r) (rr_n r) (rr_oobn r) (rr_ecn r) None (rr_err r))
  end.

Definition Single_Write c (p oob : list Z) (gsoSize : Z) (ecn : ECN) : GoM W WriteResult :=
  rc_WritePacket (sa_base c) p oob (u16 gsoSize) ecn (sa_addr c).

Definition Single_LocalAddr c : GoM W (option Addr) := rc_LocalAddr (sa_base c).
Definition Single_RemoteAddr c : GoM W (option Addr) :=
  a ← rc_RemoteAddr (sa_base c); mret (match a with Some _ => a | None => sa_addr c end).
Definition Single_SetReadDeadline c (t : Z) : GoM W (option error) := rc_SetReadDeadline (sa_base c) t.
Definition Single_SetDeadline c (t : Z) : GoM W (option error) := Single_SetReadDeadline c t.
Definition Single_SetWriteDeadline c (t : Z) : GoM W (option error) := mret (Some errors_ErrUnsupported).
Definition Single_Capabilities c : ConnCapabilities := rc_Capabilities (sa_base c).

End single.

(** ** dial.go *)

Record ConnConfig : Type := MkConnConfig {
  dc_ReadBufferSize : Z; dc_WriteBufferSize : Z; dc_WriteInterval : Z
}.
Definition zero_ConnConfig : ConnConfig := MkConnConfig 0 0 0.

Section wrap.
Context {W : Type}.

(** [bufferedConn], when the raw connection implements it. *)
Record bufferedConn : Type := MkBuffered {
  bu_SetReadBuffer : Z → GoM W (option error);
  bu_SetWriteBuffer : Z → GoM W (option error)
}.

Definition set_buffers (b : option bufferedConn) (dc : ConnConfig) : GoM W unit :=
  match b with
  | None => mret ()
  | Some b =>
    (if 0 <? dc_ReadBufferSize dc then _ ← bu_SetReadBuffer b (dc_ReadBufferSize dc); mret () else mret ());;
    (if 0 <? dc_WriteBufferSize dc then _ ← bu_SetWriteBuffer b (dc_WriteBufferSize dc); mret () else mret ())
  end.

Definition WrapConnectedConn (raw : RawConn W) (b : option bufferedConn) (dc : option ConnConfig)
    : GoM W (SingleAddrConn W) :=
  set_buffers b (default zero_ConnConfig dc);; mret (MkSingle raw None).

Definition WrapUnconnectedConn (raw : RawConn W) (b : option bufferedConn) (rAddr : option Addr)
    (dc : option ConnConfig) : GoM W (SingleAddrConn W) :=
  set_buffers b (default zero_ConnConfig dc);; mret (MkSingle raw rAddr).

(** [wrapDialed]: the arguments it gives [wrapConn]. *)
Definition wrapDialed (raw : RawConn W) (b : option bufferedConn) (dc : option ConnConfig)
    : GoM W config :=
  set_buffers b (default zero_ConnConfig dc);;
  a ← rc_RemoteAddr raw;
  mret (MkConfig false None 1 (rc_Capabilities raw) a).

End wrap.
Arguments bufferedConn W : clear implicits.

Section dial.
Context {K : Type} {abi : UnixABI} `{!Platform.Kernel K} `{!BufferPool Slice K}
  `{!BatchReader.SysBatchReader K} `{!BatchWriter.SysBatchWriter K}.
Variable os : OS.
#[local] Abbreviation M := (GoM (World K)).

(** [net.DialUDP] and [net.ListenUDP]. *)
Variable DialUDP : string → option Addr → Addr → K → (NetConn K + error) * K.
Variable ListenUDP : string → option Addr → K → (NetConn K + error) * K.

(** [Dial] up to the raw connection, which [WrapConnectedConn] then turns into
    a [SingleAddrConn] without an address ([WrapConnectedConn] finds no
    [bufferedConn] in it: neither [*oobConn] nor [*BasicConn] has
    [SetWriteBuffer]). *)
Definition ConnConfig_Dial (dc : ConnConfig) (network : string) (laddr raddr : option Addr) (warned : bool)
    : M ((rawConn + error) * bool) :=
  if negb (bool_decide (network ∈ ["udp"; "udp4"; "udp6"])) then mret (inr ErrUnknownNetwork, warned)
  else
    match raddr with
    | None => mret (inr ErrMissingAddr, warned)
    | Some ra =>
      r ← ext (DialUDP network laddr ra);
      match r with
      | inr e => mret (inr e, warned)
      | inl conn =>
        (if 0 <? dc_ReadBufferSize dc then
           match nc_SetReadBuffer conn with
           | Some f => _ ← ext (f (dc_ReadBufferSize dc)); mret ()
           | None => mret ()
           end
         else mret ());;
        (if 0 <? dc_WriteBufferSize dc then
           match nc_SetWriteBuffer conn with
           | Some f => _ ← ext (f (dc_WriteBufferSize dc)); mret ()
           | None => mret ()
           end
         else mret ());;
        WrapConn os conn (dc_WriteInterval dc) warned
      end
    end.

(** ** listener.go *)

Record ListenConfig : Type := MkListenConfig {
  lc_Backlog : Z;
  lc_AcceptFilter : option (list Z → bool);
  lc_ConnConfig : ConnConfig
}.

(** The start of [wrapConn]: what it was given, and [make(chan *Conn, backlog)],
    which panics on a negative size. *)
Definition wrapConn_args (isListener : bool) (acceptFilter : option (list Z → bool)) (backlog : Z)
    (caps : ConnCapabilities) (remote : option Addr) : outcome config :=
  if backlog <? 0 then Panic "makechan: size out of range"
  else Ret (MkConfig isListener acceptFilter (Z.to_nat backlog) caps remote).

(** [Listen]: the raw connection and the configuration of the
    super-connection; the receiver's [Backlog] is defaulted in place. *)
Definition ListenConfig_Listen (lc : ListenConfig) (network : string) (laddr : option Addr) (warned : bool)
    : M ((rawConn * config + error) * ListenConfig * bool) :=
  let lc := if lc_Backlog lc =? 0
            then MkListenConfig (Z.of_nat defaultListenBacklog) (lc_AcceptFilter lc) (lc_ConnConfig lc)
            else lc in
  r ← ext (ListenUDP network laddr);
  match r with
  | inr e => mret (inr e, lc, warned)
  | inl conn =>
    x ← WrapConn os conn (dc_WriteInterval (lc_ConnConfig lc)) warned;
    match x.1 with
    | inr e => mret (inr e, lc, x.2)
    | inl raw =>
      remote ← Raw_RemoteAddr raw;
      cfg ← lift (wrapConn_args true (lc_AcceptFilter lc) (lc_Backlog lc) (Raw_Capabilities raw) remote);
      mret (inl (raw, cfg), lc, x.2)
    end
  end.

Definition zero_ListenConfig : ListenConfig := MkListenConfig 0 None zero_ConnConfig.

(** The package-level [Dial] and [Listen]. *)
Definition Dial := ConnConfig_Dial zero_ConnConfig.
Definition Listen := ListenConfig_Listen zero_ListenConfig.

(** [WrapListenConn]: the configuration of the super-connection. *)
Definition WrapListenConn (caps : ConnCapabilities) (remote : option Addr) (lc : option ListenConfig)
    : outcome config :=
  let lc := default zero_ListenConfig lc in
  wrapConn_args true (lc_AcceptFilter lc) (lc_Backlog lc) caps remote.

End dial.
