(* ===== verification/EndpointProps.v ===== *)
(** * Properties of the connections and constructors of the user interface

    What [SingleAddrConn] lets through, what [Conn] does after a deadline, the
    width of the segment size, how [Dial] fails, how many remotes wait for
    [Accept] under each constructor, and what a super-connection that is not a
    listener does. *)

From S2P Require Import Prelude GoLib AddrText Types Interfaces GoWorld Cmsg SockBuf OobConn.
From S2P Require Import SupConn SupConnInv SupConnProps SupConnScenarios Endpoints.

(** ** SingleAddrConn *)

Section single.
Context {W : Type}.
Implicit Types (c : SingleAddrConn W) (w : W).

(** What [Read] returns of a packet that passes, and of one that does not. *)
Definition passed_on (r : ReadResult) : ReadResult :=
  MkRead (rr_b r) (rr_oob r) (rr_n r) (rr_oobn r) (rr_ecn r) None (rr_err r).
Definition swallowed (r : ReadResult) : ReadResult :=
  MkRead (rr_b r) (rr_oob r) 0 0 ECNUnsupported None None.

(** C28: a [SingleAddrConn] delivers only packets of its peer.  Whatever
    [ReadPacket] of the socket returned: without a sender (a connected socket) or
    without a peer address, [Read] returns it as it is; otherwise [Read] returns
    it exactly when the texts of the two addresses are equal, and else swallows
    it: no bytes, no control bytes, no mark and no error (an error of the socket
    is lost with it).  For UDP endpoints (IPv4 in either form, IPv6, with a zone)
    the texts are equal exactly when IP address, port and zone are the same. *)
Theorem single_read_filters c p oob w r w' :
  rc_ReadPacket (sa_base c) p oob w = (Ret r, w') →
  (rr_addr r = None ∨ sa_addr c = None → Single_Read c p oob w = (Ret (passed_on r), w')) ∧
  (∀ a peer, rr_addr r = Some a → sa_addr c = Some peer →
     Single_Read c p oob w =
       (Ret (if decide (Addr_String a = Addr_String peer) then passed_on r else swallowed r), w') ∧
     (endpoint a → endpoint peer →
      Single_Read c p oob w =
        (Ret (if decide (denotes a = denotes peer) then passed_on r else swallowed r), w'))).
Proof.
  intros E. unfold Single_Read. rewrite (GoM_bind_Ret _ _ _ _ _ E). split.
  - intros H. destruct (rr_addr r), (sa_addr c); destruct H; done.
  - intros a peer -> ->.
    assert (Ht : (if bool_decide (Addr_String a ≠ Addr_String peer)
                  then mret (MkRead (rr_b r) (rr_oob r) 0 0 0 None None)
                  else mret (passed_on r) : GoM W ReadResult) w' =
      (Ret (if decide (Addr_String a = Addr_String peer) then passed_on r else swallowed r), w')).
    { case_decide as Heq; [by rewrite bool_decide_false by tauto|by rewrite bool_decide_true]. }
    split; [exact Ht|]. intros Ha Hp. etrans; [exact Ht|].
    pose proof (Addr_String_endpoint a peer Ha Hp). repeat case_decide; tauto || done.
Qed.

End single.

(** ** Conn *)

Section conn.
Context {W Q : Type} `{!RingQueue Q receivedPacket}.

(** The segment size is taken modulo 2^16.  [Conn.Write] and
    [SingleAddrConn.Write] hand the raw connection a segment size of 16 bits: sizes
    that differ by a multiple of 65536 are the same request, sizes in range
    arrive unchanged, and a multiple of 65536 turns segmentation off, so the
    whole packet goes out as one datagram. *)
Lemma gso_size_wraps (raw : RawConn W) (c : Conn Q) (sc : SingleAddrConn W) pick now p oob ecn w k :
  (∀ g, Conn_Write raw pick now p oob (g + 65536 * k) ecn c w = Conn_Write raw pick now p oob g ecn c w) ∧
  (∀ g, Single_Write sc p oob (g + 65536 * k) ecn w = Single_Write sc p oob g ecn w) ∧
  (∀ g, 0 ≤ g < 65536 → Single_Write sc p oob g ecn w = rc_WritePacket (sa_base sc) p oob g ecn (sa_addr sc) w) ∧
  Single_Write sc p oob (65536 * k) ecn w = rc_WritePacket (sa_base sc) p oob 0 ecn (sa_addr sc) w.
Proof.
  assert (Hu : ∀ g, u16 (g + 65536 * k) = u16 g).
  { intros g. unfold u16. rewrite Z.mul_comm. by rewrite Z_mod_plus_full. }
  unfold Conn_Write, Single_Write. split_and!.
  - intros g. by rewrite Hu.
  - intros g. by rewrite Hu.
  - intros g Hg. by rewrite u16_small.
  - by rewrite <- (Z.add_0_l (65536 * k)), Hu.
Qed.

(** A deadline stops writes and leaves the received packets.  After
    [SetDeadline t], at any later time [now >= t], [Write] on an open connection
    fails with the deadline error and sends nothing; on a closed connection it
    fails in any case; and the packets queued for [Read] are the same as
    before. *)
Lemma deadline_stops_writes `{!RingQueueLaws Q receivedPacket} (raw : RawConn W) (c : Conn Q) t now pick p oob g ecn w e c' :
  0 < t ≤ now → Conn_SetDeadline t c = (e, c') →
  rq_items (c_queue (cn_sub c')) = rq_items (c_queue (cn_sub c)) ∧
  ∃ err, Conn_Write raw pick now p oob g ecn c' w = (Ret (MkWrite 0 0 (Some err)), w) ∧
    (c_doneCh (cn_sub c) = false → err = context_DeadlineExceeded) ∧
    err ∈ [context_DeadlineExceeded; ErrClosedSuperConn].
Proof.
  intros Ht. unfold Conn_SetDeadline, Conn_SetWriteDeadline, Conn_SetReadDeadline. simpl.
  destruct (rq_SetPopDeadline t (c_queue (cn_sub c))) as [e0 q] eqn:E. intros [= <- <-].
  split; [by apply (rq_SetPopDeadline_spec _ _ _ _ E)|].
  unfold Conn_Write, checkWriteDeadline. simpl.
  rewrite (proj2 (Z.ltb_lt 0 t)), (proj2 (Z.leb_le t now)) by lia. simpl.
  destruct (c_doneCh (cn_sub c)), pick; eexists; (split; [done|]); split; first [done | set_solver].
Qed.

End conn.

(** ** How many remotes wait for Accept *)

Section backlog.
Context {Q P : Type} `{!RingQueue Q receivedPacket} `{!BufferPool (list Z) P}.

(** C31: the backlog bounds the waiting connections, and zero means different
    things.  Under any schedule, at most [Backlog] connections wait for
    [Accept].  [WrapListenConn] takes a zero [Backlog] (and a nil configuration)
    as zero: no connection ever waits, so a packet of a new remote that finds no
    [Accept] call in progress is dropped.  [Listen] takes it as 128, as the
    documentation of the field says. *)
Theorem backlog_bounds_waiting caps remote lc cfg pool bufs (s : Sup Q P) :
  WrapListenConn caps remote lc = Ret cfg → reach cfg pool bufs s →
  Z.of_nat (length (l_acceptCh s)) ≤ lc_Backlog (default zero_ListenConfig lc) ∧
  (lc_Backlog (default zero_ListenConfig lc) = 0 →
   ∀ pk c s' ev ob, l_pcRead s = R_send pk c → l_acceptors s = 0%nat →
     step cfg (L_read ev) s = Next s' ob →
     l_pcRead s' = R_unlock pk None ∧ l_conns s' = l_conns s ∧ l_acceptCh s' = []).
Proof.
  unfold WrapListenConn, wrapConn_args. intros Hc I%reach_inv.
  pose proof (i_chan_len _ _ I) as Hl.
  destruct (Z.ltb_spec (lc_Backlog (default zero_ListenConfig lc)) 0); simplify_eq. simpl in Hl.
  split; [lia|]. intros Hz pk c s' ev ob Hpc Ha E. rewrite Hz in Hl. simpl in Hl.
  simpl in E. unfold step_read in E. rewrite Hpc, Ha in E. simpl in E.
  replace (Z.to_nat _) with 0%nat in E by lia. simpl in E. simplify_eq. simpl.
  split_and!; [done..|]. apply length_zero_iff_nil. lia.
Qed.

End backlog.

(** [Listen] gives the super-connection the defaulted backlog. *)
Section listen.
Context {K : Type} {abi : UnixABI} `{!Platform.Kernel K} `{!BufferPool Slice K}
  `{!BatchReader.SysBatchReader K} `{!BatchWriter.SysBatchWriter K}.

(** [Listen] defaults the backlog.  When [Listen] succeeds, the
    super-connection it starts is a listener with the configured filter, the
    capabilities of the raw connection, and the configured backlog, 128 when
    that was zero; the caller's configuration is changed accordingly; and a
    negative backlog does not get this far. *)
Lemma listen_backlog os (L : string → option Addr → K → (NetConn K + error) * K)
    lc network laddr warned (w : World K) raw cfg lc' warned' w' :
  ListenConfig_Listen os L lc network laddr warned w = (Ret (inl (raw, cfg), lc', warned'), w') →
  let b := if lc_Backlog lc =? 0 then 128 else lc_Backlog lc in
  0 < b ∧ lc_Backlog lc' = b ∧ cfg_backlog cfg = Z.to_nat b ∧ cfg_isListener cfg = true ∧
  cfg_acceptFilter cfg = lc_AcceptFilter lc ∧ cfg_caps cfg = Raw_Capabilities raw.
Proof.
  intros E b. unfold ListenConfig_Listen in E.
  apply GoM_bind_inv in E as ([conn|e] & w1 & _ & E); [|by unfold mret, GoM_ret in E; simplify_eq].
  apply GoM_bind_inv in E as ([[r|e] wd] & w2 & _ & E); cbn [fst snd] in E;
    [|by unfold mret, GoM_ret in E; simplify_eq].
  apply GoM_bind_inv in E as (ra & w3 & _ & E). apply GoM_bind_inv in E as (cf & w4 & Ec & E).
  unfold mret, GoM_ret, lift in *. simplify_eq. unfold wrapConn_args in *. subst b.
  destruct (Z.eqb_spec (lc_Backlog lc) 0) as [Hz|Hz]; simpl in *.
  - simplify_eq. done.
  - destruct (Z.ltb_spec (lc_Backlog lc) 0); simplify_eq. simpl. split_and!; try done. lia.
Qed.

End listen.

(** ** Super-connections that are not listeners *)

Section dialed.
Context {Q P : Type} `{!RingQueue Q receivedPacket} `{!BufferPool (list Z) P}.
Variable cfg : config.
Hypothesis Hcfg : cfg_isListener cfg = false.

Record dialed_inv (s : Sup Q P) : Prop := {
  di_conns : l_conns s = ∅;
  di_chan : l_acceptCh s = [];
  di_acceptors : l_acceptors s = 0%nat;
  di_objs : ∀ c o, l_objs s !! c = Some o → c_phase o = PhOrphan;
  di_pc : sending (l_pcRead s) = None ∧ inserting (l_pcRead s) = None
}.

Lemma dialed_objs_alter (objs : list (SubConn Q)) f c :
  (∀ c o, objs !! c = Some o → c_phase o = PhOrphan) →
  (∀ o, objs !! c = Some o → c_phase o = PhOrphan → c_phase (f o) = PhOrphan) →
  ∀ c' o, alter f c objs !! c' = Some o → c_phase o = PhOrphan.
Proof.
  intros H Hf c' o Ho. apply alter_lookup_inv in Ho as [(-> & o1 & H1 & ->)|[_ Ho]]; eauto.
Qed.

Lemma dialed_step s s' l ob : dialed_inv s → step cfg l s = Next s' ob → dialed_inv s'.
Proof.
  intros [Ic Ich Ia Io [Is Ii]] E. step_cases E;
    try match goal with H : l_pcRead _ = _ |- _ => rewrite H in Is, Ii end;
    try match goal with
        | Ho : l_objs _ !! _ = Some ?o, Hp : c_phase ?o = _ |- _ => pose proof (Io _ _ Ho); congruence
        end;
    try congruence;
    constructor; simpl; rewrite ?Ic; try done; try congruence; try apply delete_empty;
    try (apply dialed_objs_alter; [done|]; intros ? ? ?; simpl; done);
    try (intros c' o' Ho'; apply lookup_snoc_Some in Ho' as [[_ Ho']|[_ <-]]; [by eapply Io|done]).
Qed.

Lemma dialed_reach pool bufs s : reach cfg pool bufs s → dialed_inv s.
Proof. induction 1; [|by eapply dialed_step]. constructor; simpl; done. Qed.

End dialed.

(** C32: a dialed super-connection delivers nothing.  In the super-connection
    that [wrapDialed] starts, whatever arrives and in whatever order its
    goroutines run, the table of connections stays empty and no connection
    ever reaches the user: each packet goes into the queue of a connection
    object of its own that nothing refers to.  [Accept] is refused. *)
Theorem dialed_delivers_nothing {W Q P : Type} `{!RingQueue Q receivedPacket} `{!BufferPool (list Z) P}
    (raw : RawConn W) b dc w cfg w' pool bufs (s : Sup Q P) :
  wrapDialed raw b dc w = (Ret cfg, w') → reach cfg pool bufs s →
  l_conns s = ∅ ∧ (∀ c o, l_objs s !! c = Some o → user_held (c_phase o) = false) ∧
  step cfg L_callAccept s = Next s (ObsAccept (inr (Some errors_ErrUnsupported))).
Proof.
  intros E R. assert (Hc : cfg_isListener cfg = false).
  { unfold wrapDialed in E. apply GoM_bind_inv in E as (? & ? & _ & E).
    apply GoM_bind_inv in E as (? & ? & _ & E). unfold mret, GoM_ret in E. by simplify_eq. }
  destruct (dialed_reach cfg Hc _ _ _ R) as [Ic Ich Ia Io _]. split_and!; [done| |].
  - intros c o Ho. by rewrite (Io _ _ Ho).
  - simpl. unfold call_accept. by rewrite Hc.
Qed.

(** ** Instances *)

(** A raw connection that answers every read with one packet and every write
    with its size, and counts the writes. *)
Definition demo_raw (a : option Addr) : RawConn nat :=
  MkRawConn (λ b oob, mret (MkRead b oob 1 0 ECNNon a None))
    (λ b oob _ _ _, modw S;; mret (MkWrite (length b) (length oob) None))
    (mret None) (mret None) (λ _, mret None) (mret None) (NewConnCapabilities false false true).

#[local] Abbreviation Qc := (list_queue receivedPacket).
#[local] Instance byte_pool : BufferPool (list Z) stack_pool := stack_pool_ops [].

(** A sender that differs from the IPv6 peer in the zone only, and an IPv4 sender
    in sixteen-byte form. *)
Definition peer6 : Addr := UDPAddr [254; 128; 0; 0; 0; 0; 0; 0; 2; 0; 0; 0; 0; 0; 0; 26] 80 "eth0".
Definition sender6 : Addr := UDPAddr [254; 128; 0; 0; 0; 0; 0; 0; 2; 0; 0; 0; 0; 0; 0; 26] 80 "eth1".
Definition mapped4 : Addr := UDPAddr [0; 0; 0; 0; 0; 0; 0; 0; 0; 0; 255; 255; 10; 0; 0; 1] 7 "".
Definition plain4 : Addr := UDPAddr [10; 0; 0; 1] 7 "".

Ltac is_endpoint := split_and!; first [by vm_compute; auto | lia | by intros [? ?] | repeat constructor; lia].

Lemma single_read_filters_witness :
  Single_Read (MkSingle (demo_raw (Some sender6)) (Some peer6)) [5] [] 0%nat =
    (Ret (MkRead [5] [] 0 0 ECNUnsupported None None), 0%nat) ∧
  Single_Read (MkSingle (demo_raw (Some mapped4)) (Some plain4)) [5] [] 0%nat =
    (Ret (MkRead [5] [] 1 0 ECNNon None None), 0%nat).
Proof.
  split.
  - refine (eq_trans (proj2 (proj2 (single_read_filters (MkSingle (demo_raw (Some sender6)) (Some peer6)) [5] [] 0%nat
      (MkRead [5] [] 1 0 ECNNon (Some sender6) None) 0%nat eq_refl) sender6 peer6 eq_refl eq_refl) _ _) _);
      [is_endpoint|is_endpoint|vm_compute; reflexivity].
  - refine (eq_trans (proj2 (proj2 (single_read_filters (MkSingle (demo_raw (Some mapped4)) (Some plain4)) [5] [] 0%nat
      (MkRead [5] [] 1 0 ECNNon (Some mapped4) None) 0%nat eq_refl) mapped4 plain4 eq_refl eq_refl) _ _) _);
      [is_endpoint|is_endpoint|vm_compute; reflexivity].
Defined.

Definition demo_conn : Conn Qc := MkConnW (MkConn None (rq_new 4) false ECNNon PhOpen) 0.

Lemma deadline_stops_writes_witness :
  ∃ err, Conn_Write (demo_raw None) true 10 [1] [] 0 ECNNon (Conn_SetDeadline 5 demo_conn).2 0%nat =
    (Ret (MkWrite 0 0 (Some err)), 0%nat) ∧ err = context_DeadlineExceeded.
Proof.
  destruct (deadline_stops_writes (demo_raw None) demo_conn 5 10 true [1] [] 0 ECNNon 0%nat
    (Conn_SetDeadline 5 demo_conn).1 (Conn_SetDeadline 5 demo_conn).2 ltac:(lia) (surjective_pairing _))
    as (_ & err & E & H & _).
  exists err. split; [exact E|]. apply H. reflexivity.
Defined.

(** A listener of [WrapListenConn] without configuration: the first packet of a
    remote, with nobody in [Accept]. *)
Definition unbuffered_cfg : config := MkConfig true None 0 ConnCapabilityECN None.
Definition unbuffered : Sup Qc stack_pool :=
  default demo0 (sched unbuffered_cfg (packet 4 [1] addr1) demo0).

Lemma backlog_bounds_waiting_witness :
  WrapListenConn ConnCapabilityECN None None = Ret unbuffered_cfg ∧
  l_pcRead unbuffered = R_send (MkPkt 0 1 1) 0 ∧
  ∃ s', step unbuffered_cfg tick unbuffered = Next s' ObsNone ∧
    l_pcRead s' = R_unlock (MkPkt 0 1 1) None ∧ l_conns s' = l_conns unbuffered ∧ l_acceptCh s' = [].
Proof.
  split; [reflexivity|]. split; [vm_compute; reflexivity|]. eexists. split; [vm_compute; reflexivity|].
  apply (proj2 (backlog_bounds_waiting ConnCapabilityECN None None unbuffered_cfg demo_pool ∅ unbuffered
    eq_refl ltac:(eapply (sched_any_reach unbuffered_cfg (packet 4 [1] addr1)); [apply reach_init|vm_compute; reflexivity]))
    eq_refl (MkPkt 0 1 1) 0%nat _ (EvError (ErrText "use of closed network connection")) ObsNone);
    vm_compute; reflexivity.
Defined.

Definition dialed_cfg : config := MkConfig false None 1 ConnCapabilityECN None.

Lemma dialed_delivers_nothing_witness :
  ∃ s : Sup Qc stack_pool, sched dialed_cfg (packet 6 [1] addr1) demo0 = Some s ∧
    length (l_objs s) = 1%nat ∧ l_conns s = ∅.
Proof.
  eexists. split; [vm_compute; reflexivity|]. split; [reflexivity|].
  apply (dialed_delivers_nothing (demo_raw None) None None 0%nat dialed_cfg 0%nat demo_pool ∅); [reflexivity|].
  eapply (sched_any_reach dialed_cfg (packet 6 [1] addr1)); [apply reach_init|vm_compute; reflexivity].
Defined.
