(* ===== verification/ConstructProps.v ===== *)
(** * What [Dial] and [Listen] return

    The constructors of [src/dial.go] and [src/listener.go] on top of
    [WrapConn], on a system whose answers do not change. *)

From S2P Require Import Prelude GoLib Types Interfaces GoWorld Cmsg Platform SockBuf BatchReader BatchWriter.
From S2P Require Import OobConn WrapProps SupConn Endpoints.

Section construct.
Context {K : Type} {abi : UnixABI} `{!Kernel K} `{!BufferPool Slice K} `{!SysBatchReader K} `{!SysBatchWriter K}.
Context (f : facts) `{!SteadyKernel K f}.
Variable os : OS.
Variable DialUDP : string → option Addr → Addr → K → (NetConn K + error) * K.
Variable ListenUDP : string → option Addr → K → (NetConn K + error) * K.
#[local] Abbreviation M := (GoM (World K)).

(** The socket of a wrapped connection is the one that was wrapped. *)
Lemma wrap_result_conn c la ra wi raw : wrap_result f os c la ra wi (inl raw) → raw_conn raw = c.
Proof.
  unfold wrap_result. destruct (df_expected f os); [|done].
  destruct os, (newConn_error f (IP_IsUnspecified la)); try done; try (by intros [= ->]).
  all: intros (oc & [= ->] & H); apply H.
Qed.

Lemma returns_RemoteAddr raw c la ra :
  udp_socket c la ra → raw_conn raw = c → returns (Raw_RemoteAddr raw : M (option Addr)) (λ a, a = ra).
Proof.
  intros U <- w. destruct raw as [bc|oc]; simpl; unfold Basic_RemoteAddr, Oob_RemoteAddr, remote_addr;
    eexists _, w; (split; [done|]); apply (us_remote _ _ _ U).
Qed.

(** [Listen] sets the default backlog in the caller's configuration. *)
Definition defaulted (lc : ListenConfig) : ListenConfig :=
  if lc_Backlog lc =? 0
  then MkListenConfig (Z.of_nat defaultListenBacklog) (lc_AcceptFilter lc) (lc_ConnConfig lc)
  else lc.

(** The result of [Listen], by that of [WrapConn]. *)
Definition listen_result (lc : ListenConfig) (ra : option Addr) (res : rawConn (K := K) + error)
    (x : rawConn (K := K) * config + error) : Prop :=
  match res with
  | inr e => x = inr e
  | inl raw => x = inl (raw, MkConfig true (lc_AcceptFilter lc) (Z.to_nat (lc_Backlog (defaulted lc)))
                               (Raw_Capabilities raw) ra)
  end.

(** C24: what [Listen] returns.  When the system gives an open UDP socket,
    [Listen] returns the error of [WrapConn], or a listener with the configured
    filter and backlog (128 for zero, also in the caller's configuration), the
    capabilities of the wrapped connection, and its remote address; a negative
    backlog panics, after the socket was opened and wrapped. *)
Theorem Listen_outcome lc network laddr warned c la ra (w : World K) :
  (∀ k, (ListenUDP network laddr k).1 = inl c) → udp_socket c la ra →
  ∃ res, wrap_result f os c la ra (dc_WriteInterval (lc_ConnConfig lc)) res ∧
  ((0 ≤ lc_Backlog lc ∨ ∃ e, res = inr e) →
   ∃ x warned' w', ListenConfig_Listen os ListenUDP lc network laddr warned w = (Ret (x, defaulted lc, warned'), w') ∧
     listen_result lc ra res x) ∧
  (lc_Backlog lc < 0 ∧ (∃ raw, res = inl raw) →
   ∃ w', ListenConfig_Listen os ListenUDP lc network laddr warned w = (Panic "makechan: size out of range", w')).
Proof.
  intros HL U. unfold ListenConfig_Listen. fold (defaulted lc).
  destruct (returns_ext (ListenUDP network laddr) (λ r, r = inl c) HL w) as (r & w1 & E1 & ->).
  assert (Hwi : dc_WriteInterval (lc_ConnConfig (defaulted lc)) = dc_WriteInterval (lc_ConnConfig lc))
    by (unfold defaulted; by case_match).
  assert (Hf : lc_AcceptFilter (defaulted lc) = lc_AcceptFilter lc) by (unfold defaulted; by case_match).
  destruct (returns_WrapConn f os c la ra (dc_WriteInterval (lc_ConnConfig lc)) warned U w1) as ([res wd] & w2 & E2 & Hw).
  simpl in Hw. exists res. split; [done|].
  rewrite (GoM_bind_Ret _ _ _ _ _ E1), Hwi, (GoM_bind_Ret _ _ _ _ _ E2). cbn [fst snd].
  destruct res as [raw|e]; [|split; [|by intros [_ [? ?]]]; by intros _; eexists _, _, _].
  destruct (returns_RemoteAddr raw c la ra U (wrap_result_conn _ _ _ _ _ Hw) w2) as (a & w3 & E3 & ->).
  rewrite (GoM_bind_Ret _ _ _ _ _ E3). unfold wrapConn_args.
  assert (Hb : lc_Backlog (defaulted lc) < 0 ↔ lc_Backlog lc < 0).
  { unfold defaulted. destruct (Z.eqb_spec (lc_Backlog lc) 0) as [->|]; simpl; [|done]. unfold defaultListenBacklog. lia. }
  destruct (Z.ltb_spec (lc_Backlog (defaulted lc)) 0) as [Hlt|Hge].
  - split; [intros [?|[? ?]]; [lia|done]|]. intros _. by eexists.
  - split; [|intros [? _]; lia]. intros _. rewrite Hf. by eexists _, _, _.
Qed.

(** Setting the buffer sizes does not make [Dial] fail. *)
Lemma returns_buffers size (g : option (Z → K → option error * K)) :
  returns (if 0 <? size then match g with Some s => _ ← ext (s size); mret () | None => mret () end
           else mret () : M unit) (λ _, True).
Proof.
  case_match; [|by apply returns_ret]. destruct g; [|by apply returns_ret].
  run returns_any. intros _ _. by apply returns_ret.
Qed.

(** C16: what [Dial] returns.  An unknown network, then a missing remote address,
    is refused with its own error before anything is asked of the system;
    otherwise an error of opening the socket is returned as it is, and when the
    system gives an open UDP socket the result is that of [WrapConn] on it, by
    the table of the system's answers: neither of the requested buffer sizes
    makes it fail. *)
Theorem Dial_outcome dc network laddr raddr warned (w : World K) :
  if bool_decide (network ∈ ["udp"; "udp4"; "udp6"]) then
    match raddr with
    | None => ConnConfig_Dial os DialUDP dc network laddr raddr warned w = (Ret (inr ErrMissingAddr, warned), w)
    | Some a =>
      (∀ e, (∀ k, (DialUDP network laddr a k).1 = inr e) →
         ∃ w', ConnConfig_Dial os DialUDP dc network laddr raddr warned w = (Ret (inr e, warned), w')) ∧
      (∀ c la ra, (∀ k, (DialUDP network laddr a k).1 = inl c) → udp_socket c la ra →
         ∃ res warned' w', ConnConfig_Dial os DialUDP dc network laddr raddr warned w = (Ret (res, warned'), w') ∧
           wrap_result f os c la ra (dc_WriteInterval dc) res)
    end
  else ConnConfig_Dial os DialUDP dc network laddr raddr warned w = (Ret (inr ErrUnknownNetwork, warned), w).
Proof.
  unfold ConnConfig_Dial. case_bool_decide; cbn [negb]; [|done]. destruct raddr as [a|]; [|done]. split.
  - intros e HD. destruct (returns_ext (DialUDP network laddr a) (λ r, r = inr e) HD w) as (r & w1 & E1 & ->).
    exists w1. by rewrite (GoM_bind_Ret _ _ _ _ _ E1).
  - intros c la ra HD U.
    destruct (returns_ext (DialUDP network laddr a) (λ r, r = inl c) HD w) as (r & w1 & E1 & ->).
    rewrite (GoM_bind_Ret _ _ _ _ _ E1).
    destruct (returns_buffers (dc_ReadBufferSize dc) (nc_SetReadBuffer c) w1) as (? & w2 & E2 & _).
    destruct (returns_buffers (dc_WriteBufferSize dc) (nc_SetWriteBuffer c) w2) as (? & w3 & E3 & _).
    rewrite (GoM_bind_Ret _ _ _ _ _ E2), (GoM_bind_Ret _ _ _ _ _ E3).
    destruct (returns_WrapConn f os c la ra (dc_WriteInterval dc) warned U w3) as ([res wd] & w4 & E4 & Hr).
    eauto.
Qed.

End construct.
