(* ===== verification/WritePath.v ===== *)
(** * The whole sending path

    [Write] of a sub-connection and of a single-address connection on top of a
    wrapped connection, down to the system call. *)

From S2P Require Import Prelude GoLib Types Interfaces GoWorld Cmsg Platform SockBuf BatchReader BatchWriter.
From S2P Require Import OobConn OobProps SupConn Endpoints.

Section path.
Context {K Q : Type} {abi : UnixABI} {laws : UnixLaws} `{!Kernel K} `{!BufferPool Slice K}
  `{!SysBatchReader K} `{!SysBatchWriter K} `{!RingQueue Q receivedPacket}.
#[local] Abbreviation State := (rawConn (K := K) * World K)%type.

(** ** What the operations leave alone *)

(** The writer without buffering, when there is one: whether it takes the
    socket for connected. *)
Definition raw_unbuffered (c : rawConn (K := K)) : option bool :=
  match c with
  | RawOob oc => match oc_writer oc with BasicW b => Some b | BatchW _ => None end
  | RawBasic _ => None
  end.

(** No operation changes the socket, the capabilities or the kind of the
    connection and its writer. *)
Record same_conn (c c' : rawConn (K := K)) : Prop := {
  sc_conn : raw_conn c' = raw_conn c;
  sc_caps : Raw_Capabilities c' = Raw_Capabilities c;
  sc_writer : raw_unbuffered c' = raw_unbuffered c
}.

Lemma same_conn_trans c1 c2 c3 : same_conn c1 c2 → same_conn c2 c3 → same_conn c1 c3.
Proof. intros [] []. constructor; congruence. Qed.

Lemma writer_Write_conn os now b oob addr (c : oobConn K) w r c' w' :
  writer_Write os now b oob addr c w = (Ret (r, c'), w') → same_conn (RawOob c) (RawOob c').
Proof.
  unfold writer_Write. case_match eqn:Hw; intros E; apply GoM_bind_inv in E as (x & w1 & _ & E);
    unfold mret, GoM_ret in E; simplify_eq/=; constructor; simpl; by rewrite ?Hw.
Qed.

Lemma Raw_WritePacket_conn os now b oob g e addr c w r c' w' :
  Raw_WritePacket os now b oob g e addr c w = (Ret (r, c'), w') → same_conn c c'.
Proof.
  destruct c as [bc|oc]; simpl; intros E; apply GoM_bind_inv in E as ([] & w1 & E1 & E);
    unfold mret, GoM_ret in E; simplify_eq/=; [done|].
  unfold Oob_WritePacket in E1. apply GoM_bind_inv in E1 as ([] & w2 & _ & E1); [|by injection E1 as <- <-].
  apply GoM_bind_inv in E1 as ([] & w3 & _ & E1); [|by injection E1 as <- <-].
  apply GoM_bind_inv in E1 as ([r1 c1] & w4 & Ew & E1). apply writer_Write_conn in Ew.
  destruct (wr_err r1); unfold mret, GoM_ret in E1; by simplify_eq/=.
Qed.

Lemma Raw_ReadPacket_conn os b oob c w r c' w' :
  Raw_ReadPacket os b oob c w = (Ret (r, c'), w') → same_conn c c'.
Proof.
  destruct c as [bc|oc]; simpl; intros E; apply GoM_bind_inv in E as ([] & w1 & E1 & E);
    unfold mret, GoM_ret in E; simplify_eq/=; [done|].
  unfold Oob_ReadPacket in E1. apply GoM_bind_inv in E1 as ([r1 rd] & w2 & _ & E1).
  destruct (rr_err r1); [by injection E1 as <- <-|]. apply GoM_bind_inv in E1 as ([] & w3 & _ & E1);
    by injection E1 as <- <-.
Qed.

Lemma Raw_Close_conn now c w r c' w' : Raw_Close now c w = (Ret (r, c'), w') → same_conn c c'.
Proof.
  destruct c as [bc|oc]; simpl; intros E; apply GoM_bind_inv in E as ([] & w1 & E1 & E);
    unfold mret, GoM_ret in E; simplify_eq/=; [done|done|].
  unfold Oob_Close in E1. apply GoM_bind_inv in E1 as (e & w2 & _ & E1).
  apply GoM_bind_inv in E1 as (x & w3 & _ & E1). apply GoM_bind_inv in E1 as (y & w4 & Ey & E1).
  injection E1 as <- <-. unfold writer_Close in Ey.
  destruct (oc_writer oc) eqn:Hw; apply GoM_bind_inv in Ey as (z & w5 & _ & Ey);
    unfold mret, GoM_ret in Ey; simplify_eq/=; constructor; simpl; by rewrite ?Hw.
Qed.

(** The states of a connection in use. *)
Inductive in_use (os : OS) (c0 : rawConn (K := K)) (w0 : World K) : State → Prop :=
| iu_new : in_use os c0 w0 (c0, w0)
| iu_read now b oob r s s' : in_use os c0 w0 s →
    rc_ReadPacket (RawConn_of os now c0) b oob s = (Ret r, s') → in_use os c0 w0 s'
| iu_write now b oob g e a r s s' : in_use os c0 w0 s →
    rc_WritePacket (RawConn_of os now c0) b oob g e a s = (Ret r, s') → in_use os c0 w0 s'
| iu_deadline now t r s s' : in_use os c0 w0 s →
    rc_SetReadDeadline (RawConn_of os now c0) t s = (Ret r, s') → in_use os c0 w0 s'
| iu_close now r s s' : in_use os c0 w0 s →
    rc_Close (RawConn_of os now c0) s = (Ret r, s') → in_use os c0 w0 s'.

Lemma raw_run_inv {A} (m : rawConn → GoM (World K) (A * rawConn)) s a s' :
  raw_run m s = (Ret a, s') → m s.1 s.2 = (Ret (a, s'.1), s'.2).
Proof. unfold raw_run. destruct (m s.1 s.2) as [[[]| |] w]; intros E; by simplify_eq. Qed.

Lemma in_use_conn os c0 w0 s : in_use os c0 w0 s → same_conn c0 s.1.
Proof.
  induction 1 as [|??????? IH E|?????????? IH E|?????? IH E|????? IH E]; [done|..];
    (eapply same_conn_trans; [exact IH|]); cbn in E; try unfold raw_ask in E; apply raw_run_inv in E.
  - by eapply Raw_ReadPacket_conn.
  - by eapply Raw_WritePacket_conn.
  - apply GoM_bind_inv in E as (? & ? & _ & E). unfold mret, GoM_ret in E. injection E as _ <- _. done.
  - by eapply Raw_Close_conn.
Qed.

(** ** From the user to the kernel *)

(** C2: from the user to the kernel.  Take a wrapped connection on Linux, on an
    unconnected socket and without write buffering, that was created with the ECN
    capability (and with GSO, if a segment size is asked for), in any state of
    its use.  Then [Write] with a mark, a segment size below 65536 and well-formed
    control data, of an open sub-connection whose write deadline has not passed
    or of a single-address connection, to a UDP address, makes one call of
    [WriteMsgUDP], with the user's bytes, the connection's remote address, and
    control data that carry exactly that mark; counts and error are the
    kernel's, and the connection is as before. *)
Theorem user_to_kernel c0 w0 rc w (c : Conn Q) pick now p ms g e ip port zone f :
  in_use linux c0 w0 (rc, w) → raw_unbuffered c0 = Some false → nc_WriteMsgUDP (raw_conn c0) = Some f →
  cap_ECN (Raw_Capabilities c0) = true → (0 < g → cap_GSO (Raw_Capabilities c0) = true) →
  Forall wf_msg ms → ecn_marked e → 0 ≤ g < 65536 →
  Conn_RemoteAddr c = Some (UDPAddr ip port zone) → c_doneCh (cn_sub c) = false →
  cn_writeDeadline c = 0 ∨ now < cn_writeDeadline c →
  let raw := RawConn_of linux now c0 in
  ∃ oob, parse_oob linux oob ECNUnsupported = Ret (inl e) ∧
    let '(n, oobN, err, k) := f p oob (Conn_RemoteAddr c) (w_k w) in
    let sent := (Ret (match err with Some _ => MkWrite 0 0 err | None => MkWrite n oobN None end), (rc, set_k k w)) in
    Conn_Write raw pick now p (encode ms) g e c (rc, w) = sent ∧
    Single_Write (MkSingle raw (Conn_RemoteAddr c)) p (encode ms) g e (rc, w) = sent.
Proof.
  intros U Hb Hf He Hg Hms Hm Hrange Ha Hd Hdl raw. destruct (in_use_conn _ _ _ _ U) as [S1 S2 S3].
  simpl in S1, S2, S3. rewrite <- S3 in Hb. destruct rc as [bc|oc]; [done|]. simpl in Hb.
  destruct (oc_writer oc) as [|b] eqn:Hw; [done|]. injection Hb as ->. simpl in S1, S2.
  rewrite <- S1 in Hf. rewrite <- S2 in He, Hg.
  destruct (WritePacket_marked now p ms g e ip port zone oc w f Hf Hw Hms Hm He Hg) as (oob & Hp & E).
  exists oob. split; [done|]. rewrite Ha. destruct (f p oob _ (w_k w)) as [[[n oobN] err] k] eqn:Ef.
  assert (Hraw : rc_WritePacket raw p (encode ms) (u16 g) e (Some (UDPAddr ip port zone)) (RawOob oc, w) =
    (Ret (match err with Some _ => MkWrite 0 0 err | None => MkWrite n oobN None end), (RawOob oc, set_k k w))).
  { rewrite u16_small by done. cbn. unfold raw_run. cbn [fst snd Raw_WritePacket].
    erewrite GoM_bind_Ret by exact E. done. }
  unfold Conn_RemoteAddr in Ha. split; [|exact Hraw]. unfold Conn_Write, checkWriteDeadline. rewrite Hd, Ha.
  destruct (Z.ltb_spec 0 (cn_writeDeadline c)), (Z.leb_spec (cn_writeDeadline c) now); try lia; exact Hraw.
Qed.

End path.
