(* ===== verification/SystemScenarios.v ===== *)
(** * Executions of the whole system

    Receiving: a kernel with three datagrams, an [oobConn] on it, and a
    super-connection on that, run by computation.  Sending: a write of a
    sub-connection. *)

From S2P Require Import Prelude GoLib Types Interfaces Ownership GoWorld Cmsg LinuxABI Platform SockBuf.
From S2P Require Import BatchReader BatchReaderInv BatchWriter OobConn RawScenarios.
From S2P Require Import SupConn SupConnInv SupConnProps SupConnBufs SupConnFlow SupConnScenarios.
From S2P Require Import System OobSource BasicSource Endpoints WritePath WrapProps ConstructProps.

#[local] Instance sys_pool : BufferPool (list Z) stack_pool := stack_pool_ops [].
#[local] Instance sys_pool_laws : BufferPoolLaws (list Z) stack_pool length := stack_pool_laws [] length eq_refl.

#[export] Instance rk_recv_laws : RecvLaws RK.
Proof.
  refine {| rx := rk_rx |};
    cbn [pool_Get pool_Put rk_pool_ops ReadBatch WriteBatch sbr_Close sbw_Close rk_reader rk_writer].
  - intros n k ds err k' E. destruct (rk_in k) as [|[ds0 e] rest]; injection E as <- <- <-; simpl.
    + split_and!; [lia|by rewrite app_nil_r|constructor|done].
    + split_and!; [rewrite length_fmap, length_take; lia|done|by apply Forall_fmap, Forall_true|].
      intros He Hn. rewrite Hn in He. by destruct e.
  - by intros k e k' [= _ <-].
  - by intros ms k r k' [= _ <-].
  - by intros k e k' [= _ <-].
  - intros p t k b t' k' E. repeat case_match; by simplify_eq.
  - intros p b t k t' k' E. repeat case_match; by simplify_eq.
Defined.

#[local] Abbreviation Qc := (list_queue receivedPacket).
#[local] Abbreviation SysC := (Sys Qc stack_pool (OobState (K := RK))).

#[local] Instance sock_source : PacketSource (OobState (K := RK)) := oob_source linux (udp_conn None) caps7 0.

(** A schedule with its trace, when every step of it can be taken. *)
Fixpoint sys_sched (ls : list label) (tr : list (label * obs * act)) (y : SysC)
    : option (list (label * obs * act) * SysC) :=
  match ls with
  | [] => Some (tr, y)
  | l :: ls' =>
    if label_okb l then
      match supply l y with
      | Ret (l', c') =>
        match step demo_cfg l' (sy_sup y) with
        | Next s' ob => sys_sched ls' (tr ++ [(l', ob, action demo_cfg l' (sy_sup y))]) (MkSys s' c')
        | _ => None
        end
      | _ => None
      end
    else None
  end.

Lemma sys_sched_exec c0 ls tr y tr' y' :
  sys_exec demo_cfg c0 demo_pool ∅ tr y → sys_sched ls tr y = Some (tr', y') →
  sys_exec demo_cfg c0 demo_pool ∅ tr' y'.
Proof.
  revert tr y. induction ls as [|l ls IH]; intros tr y X E; simpl in E; [by simplify_eq|].
  destruct (label_okb l) eqn:Hl; [|done]. destruct (supply l y) as [[l' c']| |] eqn:Es; try done.
  destruct (step demo_cfg l' (sy_sup y)) as [|s' ob|] eqn:E1; try done.
  eapply IH; [|exact E]. econstructor; done.
Qed.

Definition sock0 : OobState := MkOobState (rd1 inp) (BasicW false) (w1 inp).
Definition sys0 : SysC := MkSys (wrapConn demo_pool ∅) sock0.

(** Two packets of a new remote, [Accept], and the user's [Read] of the first. *)
Definition path_ls : list label :=
  first_packet [] addr1 ++ next_packet [] addr1 ++ accept1 0 ++ [L_connRead 0 0 (replicate 4 0) (replicate 8 0)].
Definition path : list (label * obs * act) * SysC := default ([], sys0) (sys_sched path_ls [] sys0).

Lemma path_exec : sys_exec demo_cfg sock0 demo_pool ∅ path.1 path.2.
Proof.
  assert (H : is_Some (sys_sched path_ls [] sys0)) by (vm_compute; eexists; reflexivity).
  destruct H as [[tr y] E]. unfold path. rewrite E. eapply sys_sched_exec; [constructor|exact E].
Qed.

(** The first datagram reaches the user with its bytes and its ECT(0) mark. *)
Example path_reads :
  (reads 0 path.1).*2 = [MkRead [1; 2; 3; 0] (take 8 (encode [mark_msg])) 3 8 ECT0 None None].
Proof. vm_compute. reflexivity. Qed.

Lemma udp_close_silent k e k' : nc_Close (udp_conn None) k = (e, k') → rx k' = rx k.
Proof. by intros [= _ <-]. Qed.

Lemma kernel_to_user_witness :
  ∃ o ms queued, l_objs (sy_sup path.2) !! 0%nat = Some o ∧
    Forall2 (λ x m, x.2 = read_result x.1.1 x.1.2 m) (reads 0 path.1) ms ∧
    queued = msg_of (l_bufs (sy_sup path.2)) <$> rq_items (c_queue o) ∧
    ms ++ queued `sublist_of`
      arrivals demo_cfg (oob_mark linux) (key demo_cfg o) (clip <$> rx (w_k (ob_world (sy_src path.2)))).
Proof.
  assert (H : is_Some (l_objs (sy_sup path.2) !! 0%nat)) by (vm_compute; eexists; reflexivity).
  destruct (l_objs (sy_sup path.2) !! 0%nat) as [o|] eqn:Ho; [|by destruct H]. clear H. exists o.
  destruct (kernel_to_user linux (udp_conn None) caps7 0 udp_close_silent demo_cfg (w0 inp) (rd1 inp) (w1 inp) (BasicW false) demo_pool ∅ path.1 path.2
    0 o (w0_owned inp) eq_refl (rd1_new inp) demo_ready path_exec Ho) as (ms & queued & H).
  exists ms, queued. exact (conj eq_refl H).
Defined.

(** ** Sending *)

Definition out_conn : rawConn := RawOob (MkOob (udp_conn None) rd0 (BasicW false) caps7).
(** A sub-connection of [peer], without a deadline. *)
Definition out_sub : Conn Qc := MkConnW (newSubConn demo_cfg (Some peer) PhNew) 0.

Lemma user_to_kernel_witness :
  ∃ oob, parse_oob linux oob ECNUnsupported = Ret (inl ECNCE) ∧
    Conn_Write (RawConn_of linux 5 out_conn) true 5 [1; 2] (encode [pktinfo_msg]) 1200 ECNCE out_sub (out_conn, w0 []) =
    (Ret (MkWrite 2 (length oob) None), (out_conn, set_k (set_rk_out [([1; 2], oob, Some peer)] (rk0 [])) (w0 []))).
Proof.
  destruct (user_to_kernel out_conn (w0 []) out_conn (w0 []) out_sub true 5 [1; 2] [pktinfo_msg] 1200 ECNCE
    [10; 0; 0; 1] 9 "" _ (iu_new _ _ _) eq_refl eq_refl eq_refl (λ _, eq_refl)
    ltac:(apply Forall_singleton; repeat split; simpl; lia) ltac:(unfold ecn_marked, ECNCE; lia) ltac:(lia)
    eq_refl eq_refl (or_introl eq_refl)) as (oob & Hp & E & _).
  exists oob. exact (conj Hp E).
Defined.

(** ** A packet connection without control data *)

(** What will arrive, what has arrived, and whether it was closed. *)
Record FK : Type := MkFK { fk_in : list (list Z * Addr); fk_got : list datagram; fk_gone : bool }.

Definition plain_from (b : list Z) (k : FK) : (list Z * nat * option Addr * option error) * FK :=
  match fk_gone k, fk_in k with
  | false, (data, a) :: rest =>
    let '(b', n) := go_copy b data in
    ((b', n, Some a, None), MkFK rest (fk_got k ++ [(data, [], Some a)]) false)
  | _, _ => ((b, 0%nat, None, Some (ErrText "i/o timeout")), k)
  end.

Definition plain_socket : NetConn FK :=
  MkNetConn plain_from (λ b _ k, ((length b, None), k)) (λ k, (None, MkFK (fk_in k) (fk_got k) true))
    (λ _, None) (λ _ k, (None, k)) None None None None None None None.

#[export] Instance plain_laws : ReadFromLaws plain_socket.
Proof.
  refine {| got := fk_got; gone := fk_gone |}; cbn [nc_ReadFrom nc_Close plain_socket]; unfold plain_from.
  - intros b k b' n a k' E. destruct (fk_gone k); [done|]. destruct (fk_in k) as [|[data addr] rest]; [done|].
    destruct (go_copy b data) as [b1 n1] eqn:Ec. simplify_eq/=. split_and!; [done..|]. by exists data, addr.
  - intros b k b' n a e k' E. repeat (case_match; simplify_eq/=); done.
  - by intros k e k' [= _ <-].
Defined.

#[local] Instance plain_source : PacketSource (World FK) := basic_source plain_socket false.

(** The read loop receives the first datagram and waits for the next. *)
Example plain_path :
  let y0 := MkSys (wrapConn demo_pool ∅ : Sup Qc stack_pool)
              (MkWorld (MkLog true [] []) (MkHeap ∅ ∅ ∅) (MkFK [([1; 2; 3], peer)] [] false)) in
  supply tick (MkSys (default (sy_sup y0) (sched demo_cfg [tick] (sy_sup y0))) (sy_src y0)) =
  Ret (L_read (EvPacket [1; 2; 3] [] ECNUnsupported (Some peer)),
       MkWorld (MkLog true [] []) (MkHeap ∅ ∅ ∅) (MkFK [] [([1; 2; 3], [], Some peer)] false)).
Proof. vm_compute. reflexivity. Qed.

(** ** Listen *)

Definition open_listener (_ : string) (_ : option Addr) (k : RK) : (NetConn RK + error) * RK := (inl (udp_conn None), k).

(** The default configuration: a backlog of 128, all three capabilities. *)
Lemma Listen_outcome_witness :
  ∃ oc warned' w', Listen linux open_listener "udp" None false (w0 []) =
    (Ret (inl (RawOob oc, MkConfig true None 128 (NewConnCapabilities true true true) None),
          MkListenConfig 128 None zero_ConnConfig, warned'), w').
Proof.
  destruct (Listen_outcome rk_facts linux open_listener zero_ListenConfig "udp" None false (udp_conn None)
    [0; 0; 0; 0] None (w0 []) (λ k, eq_refl) udp_conn_socket) as (res & Hres & Hok & _).
  destruct Hres as (oc & -> & [_ Hcap _ _]).
  destruct Hok as (x & wd & w' & E & Hx); [left; apply Z.leb_le; reflexivity|].
  exists oc, wd, w'. unfold listen_result in Hx. rewrite Hx in E. unfold Listen. rewrite E.
  change (Raw_Capabilities (RawOob oc)) with (oc_cap oc). rewrite Hcap. reflexivity.
Defined.

(** [Dial] on the same host, with both buffer sizes asked for. *)
Definition open_dialer (_ : string) (_ : option Addr) (_ : Addr) (k : RK) : (NetConn RK + error) * RK :=
  (inl (udp_conn None), k).

Lemma Dial_outcome_witness :
  ∃ oc warned' w', ConnConfig_Dial linux open_dialer (MkConnConfig 4096 4096 0) "udp" None
      (Some (UDPAddr [10; 0; 0; 1] 7 "")) false (w0 []) = (Ret (inl (RawOob oc), warned'), w') ∧
    oc_cap oc = NewConnCapabilities true true true.
Proof.
  destruct (proj2 (Dial_outcome rk_facts linux open_dialer (MkConnConfig 4096 4096 0) "udp" None
    (Some (UDPAddr [10; 0; 0; 1] 7 "")) false (w0 [])) (udp_conn None) [0; 0; 0; 0] None
    (λ k, eq_refl) udp_conn_socket) as (res & wd & w' & E & Hres).
  destruct Hres as (oc & -> & [_ Hcap _ _]). exists oc, wd, w'. split; [exact E|exact Hcap].
Defined.
